(* ===== verification/_CoqProject ===== *)
-Q . S2P
Prelude.v
MyBit.v
Queues.v
Tree.v
TreeFacts.v
TreeScan.v
Hash.v
HashFacts.v
HashSplit.v
HashOps.v
HashDelete.v
HashRun.v
ThrLock.v
ThrLinks.v
ThrSpec.v
ThrRefine.v
ThrSim.v
ThrInv.v
ThrWake.v
ThrRequest.v
ThrProtocol.v
ThrSystem.v
ThrDemo.v
RwLock.v
RwLockInv.v
RwLockSpec.v
IntStr.v
IntStrPrint.v
IntStrRead.v
IntStrSpec.v
Bitmap.v
BitmapFacts.v
BitmapOps.v
BitmapSearch.v
BitmapRefine.v
BitmapIO.v
BitmapDemo.v
MyisamPack.v
KeyCodec.v
Decimal.v
DecimalFacts.v
DecimalAdd.v
DecimalSub.v
DecimalDiff.v
DecimalBin.v
DecimalBytes.v
DecimalWrite.v
DecimalRead.v
DecimalColumn.v
DecimalMul.v
DecimalRows.v
DecimalProduct.v
DecimalInt.v
DecimalRound.v
DecimalRounding.v
DecimalStore.v
DecimalDemo.v
MyTime.v
Calendar.v
Week.v
TimeAdd.v
TimeDiff.v
Compat56.v
TimeColumns.v
TimeNumbers.v
TimeDemo.v
