(* ===== verification/Prelude.v ===== *)
(** * Verification of data structures and value types of the MariaDB server

    The development models parts of the server that everything else stands on:
    the containers and locks of mysys, the conversion of integers from and to text,
    and the fixed point and temporal values of SQL.  Each part is translated function by function, and the
    theorems say that the functions do what their callers rely on.

    ** Conventions

    - Pure C functions are Rocq functions; functions that change an object
      take the object and return the new one.  Reading or writing outside an
      array, following a dangling pointer, calling a null callback and overflow of a
      signed integer are undefined in C: there the model returns [None].  A theorem that says
      [f x = Some r] therefore also says that the code is free of them.
    - Unsigned arithmetic is arithmetic in [Z] with the wrap-around written out
      ([u8], [u16], [u32], [u64] and [uint32_add]); conversions to signed types are [s8] to
      [s64]; [i32] and [i64] test for overflow (file MyBit).  [long] has 64 bits,
      except in IntStr, where its width is a parameter.
    - Loops are recursive functions with fuel.  The fuel is the length of the
      array that is walked, the number of records, the height bound of trees or
      a bound computed from the arguments; running out of it is [None] as well,
      so that every theorem [f x = Some r] includes termination.
    - Callbacks, the hash function, the collation and memory allocation are
      parameters.  What is assumed of them is stated where it is used: a
      comparison is a total order ([TotalCmp] in this file), equal keys have equal
      hash numbers, and allocation may fail at any call.

    ** Parts

    - Priority queues (mysys/queues.c, include/queues.h): file Queues.  The heap is the
      array [root], element 0 unused, and the positions recorded in the elements are the map
      [qpos].  All operations keep the heap order and the positions and refine a
      multiset with a least element; draining a queue sorts.
    - Red-black trees (mysys/tree.c, include/my_tree.h): Tree has the code, with the array
      [parents] as a list of frames; TreeFacts the colour and order invariants
      and insertion, deletion and search against sorted association lists;
      TreeScan the index scans for every search flag that the code implements and the walks.  The array
      of 64 parents suffices for every tree of fewer than [2^31] elements.
    - Hash tables (mysys/hash.c, include/hash.h): Hash has the code of linear hashing on
      links and indices; HashFacts chains and the table invariant; HashSplit the
      split of a bucket; HashOps search and insertion; HashDelete deletion, change
      of a key and iteration; HashRun sequences of calls on a unique table
      against a list without duplicate keys.
    - Table locks (mysys/thr_lock.c, include/thr_lock.h): ThrLock has the scheduler over
      the interface [ListStore]; ThrLinks implements the interface by the
      intrusive lists of the code, ThrSpec by sequences; ThrRefine and ThrSim
      prove that the first refines the second.  ThrInv, ThrWake, ThrRequest and
      ThrProtocol give the invariant of a lock and show that each operation keeps it;
      ThrSystem is the transition system of threads that lock, wait, unlock,
      abort and upgrade, split where the code releases the mutex: exclusion, with the one exception that
      an owner who asks again while it holds a write lock can bring about, no lost wake-ups,
      results of waiting, termination.  ThrDemo has runs, among them those
      that show where the code departs from its comments.
    - The readers/writer lock that prefers readers (mysys/thr_rwlock.c, include/my_pthread.h):
      RwLock has [rw_pr_rdlock], [rw_pr_wrlock] and [rw_pr_unlock] statement by statement, and the steps of
      any number of threads under any schedule, with spurious wakeups; RwLockInv the invariant
      of the reachable states; RwLockSpec exclusion, freedom from data races
      (the unlock function reads a field without the mutex) and progress.
    - Integers as text (strings/int2str.c, longlong2str.c, my_strtoll10.c): IntStr has the code,
      with the table of space characters; IntStrPrint shows that the printed text is
      the numeral of the number in its base, IntStrRead that [my_strtoll10] agrees with a
      parser for the documented behaviour, but for the end of numbers of more than 20 digits, IntStrSpec states both and the round trip, for both widths of [long].
    - Bit operations and bitmaps (include/my_bit.h, mysys/my_bit.c, include/my_bitmap.h,
      mysys/my_bitmap.c): MyBit and Bitmap have the code; BitmapFacts, BitmapOps and
      BitmapSearch relate words to finite sets of bit numbers; BitmapRefine
      states the contract of all operations but [bitmap_union_is_set_all], whose answer is wrong; BitmapIO the portable format, on
      machines of both byte orders; BitmapDemo instances.
    - Decimals (strings/decimal.c, include/decimal.h, sql/my_decimal.cc): Decimal has addition, subtraction
      and comparison on arrays of nine-digit words; DecimalFacts the value of an array
      and the loops; DecimalAdd, DecimalSub and DecimalDiff the results, including truncation and overflow.
      DecimalBin has the binary format of DECIMAL columns, DecimalBytes what its
      bytes stand for and how [memcmp] orders them, DecimalWrite and DecimalRead that [decimal2bin] and
      [bin2decimal] write and read these bytes, DecimalColumn that the format
      keeps values and order.  DecimalMul has multiplication and the conversions from and to
      integers, DecimalRows and DecimalProduct the schoolbook multiplication and its exact
      result, DecimalInt the conversions with their errors.  DecimalRound has [decimal_round],
      DecimalRounding shows that it rounds to the scale, DecimalStore that
      [my_decimal::to_binary] stores the rounded value of a decimal, if it fits the column; DecimalDemo
      instances, and roundings and products that go wrong.
    - Temporal values (include/mysql_time.h, include/my_time.h, sql-common/my_time.c,
      sql/sql_time.cc): MyTime has the code.  Calendar compares day numbers with a
      calendar that counts days, Week the week numbers of all modes with one
      definition of weeks; TimeAdd shows what an interval adds, TimeDiff that
      differences invert it; TimeNumbers treats the numbers YYYYMMDDhhmmss,
      packed numbers, validity checks and the combination of a date with a TIME.
    - Temporal columns (sql/compat56.cc, include/myisampack.h): MyisamPack and Compat56 have the code, KeyCodec the
      interface [OrderedCodec] of byte formats that keep the order, with
      composite keys as pairs, and TimeColumns its instances for TIME, DATETIME
      and TIMESTAMP columns of all precisions.  TimeDemo has instances and
      three places where an interval or a comparison leaves the range of its type.

    The parts meet in a few places: bitmaps count and search with the routines
    of MyBit; DATETIME columns are ordered as [my_time_compare] orders the values
    in memory, DECIMAL columns as [decimal_cmp] orders them, and what they hold is rounded by
    [decimal_round] first; intervals, differences and mixing use the calendar.

    ** Bounds

    Theorems hold for all sizes the code can represent; where a bound is needed
    it is a hypothesis: fewer than [NO_RECORD] records in a hash table, fewer
    than [2^31] elements in a tree, years 0 to 9999 and TIMEs to 838:59:59.999999,
    interval parts whose sum fits the guard of [date_add_interval], with fewer than [2^62]
    microseconds, [2^31] years and [2^58] months, no request of type [TL_READ_SKIP_LOCKED], a source of [bitmap_copy]
    with no fewer words than the destination, a result
    buffer with room for the integer parts of both decimals, or for all words of a product,
    or for a carry out of a rounded number, decimals with no digits beyond
    their own precision and scale and no more than the column they are
    stored in, fewer than [2^32] threads at a readers/writer lock, and
    texts shorter than 65535 characters if they are delimited by a NUL.

    ** Not modelled

    - In the modelled parts: debug-only checks, statistics and tracing;
      [tree_record_pos]; [thr_multi_lock] and the sorting of locks; decimal
      operands that share a buffer with the result, except in [decimal_round];
      decimal division, shifting and the conversions from and to strings and
      doubles; what [decimal2bin] stores of a number that does not fit, products that are
      cut off, and the rounding modes in places where the code does not
      implement them, are modelled, but described only by instances; parsing and printing of
      temporal strings, time zones, and the pushing of warnings.
    - The rest of the server.  The SQL layer (parser, optimiser, executor,
      replication), the storage engines and the plugins are built on state that
      spans files, threads and the operating system (buffer pools, logs, sockets, table
      metadata); modelling single functions of them would stub what they are
      about.  The other libraries of mysys and strings (character sets, key cache, memory
      roots, file I/O) are listed in the manifest. *)

From Stdlib Require Export ZArith Lia ZifyNat.
From stdpp Require Export base list numbers option.

#[global] Arguments Nat.div : simpl never.
#[global] Arguments Nat.modulo : simpl never.

(** [lia] with the characteristic equations of [/] and [mod]. *)
Ltac divlia := zify; Z.to_euclidean_division_equations; lia.

#[global] Set Default Goal Selector "1".

(** Membership in a list that is spelled out. *)
Ltac mem :=
  repeat first [rewrite elem_of_app | rewrite elem_of_cons | rewrite elem_of_nil];
  repeat match goal with
    | H : _ ∈ _ ++ _ |- _ => apply elem_of_app in H as [H|H]
    | H : _ ∈ _ :: _ |- _ => apply elem_of_cons in H as [H|H]
    | H : _ ∈ [] |- _ => by apply not_elem_of_nil in H
    | H : _ ∉ _ ++ _ |- _ => apply not_elem_of_app in H
    | H : _ ∉ _ :: _ |- _ => apply not_elem_of_cons in H
    | H : _ ∧ _ |- _ => destruct H
    end; intuition (subst; tauto || congruence).

(** ** Machine-width arithmetic *)

(** [uint] addition, 32 bits wide, on indices kept in [nat]. *)
Definition uint32_add (a b : nat) : nat :=
  Z.to_nat ((Z.of_nat a + Z.of_nat b) mod 2 ^ 32).

(** ** Lists used as C arrays *)

Section arrays.
Context {A : Type}.
Implicit Types (l : list A) (x y e : A).

Lemma insert_trade l i x y :
  l !! i = Some y → y :: <[i:=x]> l ≡ₚ x :: l.
Proof.
  revert i; induction l as [|a l IH]; intros [|i] H; simplify_eq/=; [constructor|].
  rewrite Permutation_swap, IH by done. constructor.
Qed.

(** Moving the cell [j] into the hole [i] and then filling [j] permutes the
    array in which the hole [i] is filled directly. *)
Lemma hole_move_perm l i j x e :
  i ≠ j → i < length l → l !! j = Some x →
  <[j:=e]> (<[i:=x]> l) ≡ₚ <[i:=e]> l.
Proof.
  intros Hne Hi Hj.
  destruct (lookup_lt_is_Some_2 l i Hi) as [y Hy].
  apply (Permutation_cons_inv (a := x)).
  rewrite insert_trade by (by rewrite list_lookup_insert_ne).
  apply (Permutation_cons_inv (a := y)).
  rewrite Permutation_swap, insert_trade by done.
  rewrite (Permutation_swap x y (<[i:=e]> l)), insert_trade by done.
  constructor.
Qed.
End arrays.

(** Filters that keep everything, or nothing. *)
Lemma filter_all {A} (P : A → Prop) `{!∀ x, Decision (P x)} (l : list A) :
  (∀ x, x ∈ l → P x) → filter P l = l.
Proof.
  induction l as [|x l IH]; intros HP; [done|].
  rewrite filter_cons_True by (apply HP; left). f_equal. apply IH. intros. apply HP. by right.
Qed.

Lemma filter_none {A} (P : A → Prop) `{!∀ x, Decision (P x)} (l : list A) :
  (∀ x, x ∈ l → ¬ P x) → filter P l = [].
Proof.
  induction l as [|x l IH]; intros HP; [done|].
  rewrite filter_cons_False by (apply HP; left). apply IH. intros. apply HP. by right.
Qed.

Lemma filter_ext_in {A} (P Q : A → Prop) `{!∀ x, Decision (P x), !∀ x, Decision (Q x)}
    (l : list A) :
  (∀ x, x ∈ l → P x ↔ Q x) → filter P l = filter Q l.
Proof.
  induction l as [|x l IH]; intros HPQ; [done|]. rewrite !filter_cons.
  rewrite IH by (intros; apply HPQ; by right).
  pose proof (HPQ x (list_elem_of_here _ _)). repeat case_decide; tauto.
Qed.

Lemma filter_map {A B} (P : B → Prop) `{!∀ x, Decision (P x)} (f : A → B) (l : list A) :
  filter P (f <$> l) = f <$> filter (λ x, P (f x)) l.
Proof.
  induction l as [|x l IH]; [done|]. rewrite fmap_cons, !filter_cons, IH. by case_decide.
Qed.

(** ** The contract of a comparison callback ([qsort_cmp2])

    The sign of the result is antisymmetric and [cmp a b <= 0] is transitive. *)
Class TotalCmp {A : Type} (cmp : A → A → Z) : Prop := {
  cmp_sgn a b : Z.sgn (cmp b a) = (- Z.sgn (cmp a b))%Z;
  cmp_trans a b c : (cmp a b ≤ 0 → cmp b c ≤ 0 → cmp a c ≤ 0)%Z;
}.

Section total_cmp.
Context {A : Type} (cmp : A → A → Z) `{!TotalCmp cmp}.

Lemma cmp_refl a : cmp a a = 0%Z.
Proof. pose proof (cmp_sgn a a). lia. Qed.

Lemma cmp_le_total a b : (cmp a b ≤ 0 ∨ cmp b a ≤ 0)%Z.
Proof. pose proof (cmp_sgn a b). lia. Qed.

Lemma cmp_lt_trans_l a b c : (cmp a b < 0 → cmp b c ≤ 0 → cmp a c < 0)%Z.
Proof.
  intros Hab Hbc. pose proof (cmp_sgn a b). pose proof (cmp_sgn a c).
  pose proof (cmp_sgn b c). pose proof (cmp_trans b c a). lia.
Qed.

Lemma cmp_lt_trans_r a b c : (cmp a b ≤ 0 → cmp b c < 0 → cmp a c < 0)%Z.
Proof.
  intros Hab Hbc. pose proof (cmp_sgn a b). pose proof (cmp_sgn a c).
  pose proof (cmp_sgn b c). pose proof (cmp_trans c a b). lia.
Qed.
End total_cmp.

(** Integer keys compared by their sign, the usual callback. *)
Definition Zcmp (a b : Z) : Z :=
  if (a <? b)%Z then -1 else if (a >? b)%Z then 1 else 0.

#[export] Instance Zcmp_total : TotalCmp Zcmp.
Proof.
  split; intros; unfold Zcmp in *; repeat case_match; simpl; lia.
Qed.
