(* ===== verification/MyBit.v ===== *)
(** * Bit operations on machine words (include/my_bit.h, mysys/my_bit.c)

    The word tricks of my_bit.h at their machine width: binary logarithms by
    halving, population count by partial sums in the word, rounding to a power
    of two by smearing the highest bit, bit reversal by table, and the first
    set bit by table.  Each is shown to compute its arithmetic meaning. *)

From S2P Require Import Prelude.

#[local] Open Scope Z_scope.

(** Unsigned 8, 16, 32 and 64-bit values. *)
Definition u8 (x : Z) : Z := x mod 2 ^ 8.
Definition u16 (x : Z) : Z := x mod 2 ^ 16.
Definition u32 (x : Z) : Z := x mod 2 ^ 32.
Definition u64 (x : Z) : Z := x mod 2 ^ 64.

(** Conversions to signed 8, 16, 32 and 64-bit values, which keep the low bits. *)
Definition s8 (x : Z) : Z := (x + 2 ^ 7) mod 2 ^ 8 - 2 ^ 7.
Definition s16 (x : Z) : Z := (x + 2 ^ 15) mod 2 ^ 16 - 2 ^ 15.
Definition s32 (x : Z) : Z := (x + 2 ^ 31) mod 2 ^ 32 - 2 ^ 31.
Definition s64 (x : Z) : Z := (x + 2 ^ 63) mod 2 ^ 64 - 2 ^ 63.

(** The value of an [int] or [longlong] expression; overflow is undefined. *)
Definition i32 (x : Z) : option Z := if (- 2 ^ 31 <=? x) && (x <? 2 ^ 31) then Some x else None.
Definition i64 (x : Z) : option Z := if (- 2 ^ 63 <=? x) && (x <? 2 ^ 63) then Some x else None.

Lemma i32_ok x : - 2 ^ 31 ≤ x < 2 ^ 31 → i32 x = Some x.
Proof.
  intros Hx. unfold i32. by rewrite (proj2 (Z.leb_le _ _)), (proj2 (Z.ltb_lt _ _)) by lia.
Qed.

Lemma i64_ok x : - 2 ^ 63 ≤ x < 2 ^ 63 → i64 x = Some x.
Proof.
  intros Hx. unfold i64. by rewrite (proj2 (Z.leb_le _ _)), (proj2 (Z.ltb_lt _ _)) by lia.
Qed.

Lemma u32_small x : 0 ≤ x < 2 ^ 32 → u32 x = x.
Proof. apply Z.mod_small. Qed.

Lemma u64_small x : 0 ≤ x < 2 ^ 64 → u64 x = x.
Proof. apply Z.mod_small. Qed.

Lemma s32_small x : - 2 ^ 31 ≤ x < 2 ^ 31 → s32 x = x.
Proof. intros Hx. unfold s32. rewrite Z.mod_small; lia. Qed.

Lemma s64_small x : - 2 ^ 63 ≤ x < 2 ^ 63 → s64 x = x.
Proof. intros Hx. unfold s64. rewrite Z.mod_small; lia. Qed.

(** The [~] of [ulonglong]. *)
Definition not64 (x : Z) : Z := Z.lxor x (2 ^ 64 - 1).

(** ** Binary logarithm *)

Definition my_bit_log2_hex_digit (value : Z) : Z :=
  if negb (Z.land value 0x0C =? 0)
  then (if negb (Z.land value 0x08 =? 0) then 3 else 2)
  else (if negb (Z.land value 0x02 =? 0) then 1 else 0).

Definition my_bit_log2_uint8 (value : Z) : Z :=
  if negb (Z.land value 0xF0 =? 0)
  then my_bit_log2_hex_digit (u8 (Z.shiftr value 4)) + 4
  else my_bit_log2_hex_digit value.

Definition my_bit_log2_uint16 (value : Z) : Z :=
  if negb (Z.land value 0xFF00 =? 0)
  then my_bit_log2_uint8 (u8 (Z.shiftr value 8)) + 8
  else my_bit_log2_uint8 (u8 value).

Definition my_bit_log2_uint32 (value : Z) : Z :=
  if negb (Z.land value 0xFFFF0000 =? 0)
  then my_bit_log2_uint16 (u16 (Z.shiftr value 16)) + 16
  else my_bit_log2_uint16 (u16 value).

Definition my_bit_log2_uint64 (value : Z) : Z :=
  if negb (Z.land value 0xFFFFFFFF00000000 =? 0)
  then my_bit_log2_uint32 (u32 (Z.shiftr value 32)) + 32
  else my_bit_log2_uint32 (u32 value).

(** ** Population count *)

Definition my_count_bits_uint32 (v : Z) : Z :=
  let v := u32 (v - Z.land (Z.shiftr v 1) 0x55555555) in
  let v := u32 (Z.land v 0x33333333 + Z.land (Z.shiftr v 2) 0x33333333) in
  Z.shiftr (u32 (Z.land (u32 (v + Z.shiftr v 4)) 0xF0F0F0F * 0x1010101)) 24.

Definition my_count_bits (x : Z) : Z :=
  u32 (my_count_bits_uint32 (u32 x) + my_count_bits_uint32 (u32 (Z.shiftr x 32))).

(** ** Powers of two *)

Definition my_round_up_to_next_power (v : Z) : Z :=
  let v := u32 (v - 1) in
  let v := Z.lor v (Z.shiftr v 1) in
  let v := Z.lor v (Z.shiftr v 2) in
  let v := Z.lor v (Z.shiftr v 4) in
  let v := Z.lor v (Z.shiftr v 8) in
  let v := Z.lor v (Z.shiftr v 16) in
  u32 (v + 1).

Definition my_clear_highest_bit (v : Z) : Z :=
  let w := Z.shiftr v 1 in
  let w := Z.lor w (Z.shiftr w 1) in
  let w := Z.lor w (Z.shiftr w 2) in
  let w := Z.lor w (Z.shiftr w 4) in
  let w := Z.lor w (Z.shiftr w 8) in
  let w := Z.lor w (Z.shiftr w 16) in
  Z.land v w.

(** The shift by [n - 1] is defined for [1 <= n <= 64] only. *)
Definition my_set_bits (n : Z) : Z :=
  Z.lor (u64 (Z.shiftl (u64 (u64 (Z.shiftl 1 (n - 1)) - 1)) 1)) 1.

Definition last_byte_mask (bits : Z) : Z :=
  let used := Z.land (u32 (bits - 1)) 7 in u8 (u32 (Z.shiftl 2 used) - 1).

Definition my_bits_in_bytes (n : Z) : Z := u32 (n + 7) / 8.

(** ** Bit reversal *)

Definition _my_bits_reverse_table : list Z := [
  0x00; 0x80; 0x40; 0xC0; 0x20; 0xA0; 0x60; 0xE0; 0x10; 0x90; 0x50; 0xD0; 0x30;
  0xB0; 0x70; 0xF0; 0x08; 0x88; 0x48; 0xC8; 0x28; 0xA8; 0x68; 0xE8; 0x18; 0x98;
  0x58; 0xD8; 0x38; 0xB8; 0x78; 0xF8; 0x04; 0x84; 0x44; 0xC4; 0x24; 0xA4; 0x64;
  0xE4; 0x14; 0x94; 0x54; 0xD4; 0x34; 0xB4; 0x74; 0xF4; 0x0C; 0x8C; 0x4C; 0xCC;
  0x2C; 0xAC; 0x6C; 0xEC; 0x1C; 0x9C; 0x5C; 0xDC; 0x3C; 0xBC; 0x7C; 0xFC; 0x02;
  0x82; 0x42; 0xC2; 0x22; 0xA2; 0x62; 0xE2; 0x12; 0x92; 0x52; 0xD2; 0x32; 0xB2;
  0x72; 0xF2; 0x0A; 0x8A; 0x4A; 0xCA; 0x2A; 0xAA; 0x6A; 0xEA; 0x1A; 0x9A; 0x5A;
  0xDA; 0x3A; 0xBA; 0x7A; 0xFA; 0x06; 0x86; 0x46; 0xC6; 0x26; 0xA6; 0x66; 0xE6;
  0x16; 0x96; 0x56; 0xD6; 0x36; 0xB6; 0x76; 0xF6; 0x0E; 0x8E; 0x4E; 0xCE; 0x2E;
  0xAE; 0x6E; 0xEE; 0x1E; 0x9E; 0x5E; 0xDE; 0x3E; 0xBE; 0x7E; 0xFE; 0x01; 0x81;
  0x41; 0xC1; 0x21; 0xA1; 0x61; 0xE1; 0x11; 0x91; 0x51; 0xD1; 0x31; 0xB1; 0x71;
  0xF1; 0x09; 0x89; 0x49; 0xC9; 0x29; 0xA9; 0x69; 0xE9; 0x19; 0x99; 0x59; 0xD9;
  0x39; 0xB9; 0x79; 0xF9; 0x05; 0x85; 0x45; 0xC5; 0x25; 0xA5; 0x65; 0xE5; 0x15;
  0x95; 0x55; 0xD5; 0x35; 0xB5; 0x75; 0xF5; 0x0D; 0x8D; 0x4D; 0xCD; 0x2D; 0xAD;
  0x6D; 0xED; 0x1D; 0x9D; 0x5D; 0xDD; 0x3D; 0xBD; 0x7D; 0xFD; 0x03; 0x83; 0x43;
  0xC3; 0x23; 0xA3; 0x63; 0xE3; 0x13; 0x93; 0x53; 0xD3; 0x33; 0xB3; 0x73; 0xF3;
  0x0B; 0x8B; 0x4B; 0xCB; 0x2B; 0xAB; 0x6B; 0xEB; 0x1B; 0x9B; 0x5B; 0xDB; 0x3B;
  0xBB; 0x7B; 0xFB; 0x07; 0x87; 0x47; 0xC7; 0x27; 0xA7; 0x67; 0xE7; 0x17; 0x97;
  0x57; 0xD7; 0x37; 0xB7; 0x77; 0xF7; 0x0F; 0x8F; 0x4F; 0xCF; 0x2F; 0xAF; 0x6F;
  0xEF; 0x1F; 0x9F; 0x5F; 0xDF; 0x3F; 0xBF; 0x7F; 0xFF
].

Definition my_reverse_bits (key : Z) : option Z :=
  b0 ← _my_bits_reverse_table !! Z.to_nat (Z.land key 255);
  b1 ← _my_bits_reverse_table !! Z.to_nat (Z.land (Z.shiftr key 8) 255);
  b2 ← _my_bits_reverse_table !! Z.to_nat (Z.land (Z.shiftr key 16) 255);
  b3 ← _my_bits_reverse_table !! Z.to_nat (Z.shiftr key 24);
  Some (Z.lor (Z.lor (Z.lor (Z.shiftl b0 24) (Z.shiftl b1 16)) (Z.shiftl b2 8)) b3).

(** ** First set bit

    The branch for compilers without a builtin.  The loop reads one digit of
    four bits a turn; a word other than 0 has a digit other than 0 among its
    sixteen. *)
Definition last_bit : list Z := [32; 0; 1; 0; 2; 0; 1; 0; 3; 0; 1; 0; 2; 0; 1; 0].

Fixpoint find_first_bit_loop (fuel : nat) (n shift : Z) : option Z :=
  match fuel with
  | O => None
  | S fuel =>
    bit ← last_bit !! Z.to_nat (Z.land (Z.shiftr n shift) 0xF);
    if bit =? 32 then find_first_bit_loop fuel n (shift + 4) else Some (shift + bit)
  end.

Definition my_find_first_bit (n : Z) : option Z :=
  if n =? 0 then Some 64 else find_first_bit_loop 16 n 0.

(** ** Logarithms by halving *)

Lemma land_high w v :
  0 ≤ w → 0 ≤ v < 2 ^ (2 * w) → (Z.land v (2 ^ w * (2 ^ w - 1)) =? 0) = (v <? 2 ^ w).
Proof.
  intros Hw Hv.
  assert (E : Z.land v (2 ^ w * (2 ^ w - 1)) = v / 2 ^ w * 2 ^ w).
  { rewrite <- Z.shiftr_div_pow2, <- Z.shiftl_mul_pow2 by done.
    replace (2 ^ w * (2 ^ w - 1)) with (Z.shiftl (Z.ones w) w)
      by (rewrite Z.shiftl_mul_pow2, Z.ones_equiv; lia).
    apply Z.bits_inj'. intros k Hk. rewrite Z.land_spec.
    destruct (decide (k < w)).
    { rewrite !Z.shiftl_spec_low by done. by rewrite andb_false_r. }
    rewrite !Z.shiftl_spec, Z.shiftr_spec, Z.sub_add by lia.
    destruct (decide (k - w < w)); [rewrite Z.ones_spec_low by lia; apply andb_true_r|].
    rewrite Z.ones_spec_high by lia. rewrite andb_false_r. symmetry.
    apply (Z.bounded_iff_bits_nonneg (2 * w) v); lia. }
  rewrite E. pose proof (Z.pow_pos_nonneg 2 w).
  destruct (Z.ltb_spec v (2 ^ w)).
  - by rewrite Z.div_small by lia.
  - apply Z.eqb_neq. assert (0 < v / 2 ^ w) by (apply Z.div_str_pos; lia). nia.
Qed.

(** One halving step: the routine for [w] bits, used on the high half or on the
    low half, gives the logarithm of [2 * w] bits. *)
Lemma log2_halve f w v :
  0 < w → (∀ x, 0 ≤ x < 2 ^ w → f x = Z.log2 x) → 0 ≤ v < 2 ^ (2 * w) →
  (if negb (Z.land v (2 ^ w * (2 ^ w - 1)) =? 0)
   then f (Z.shiftr v w mod 2 ^ w) + w else f (v mod 2 ^ w)) = Z.log2 v.
Proof.
  intros Hw Hf Hv. rewrite land_high by lia. pose proof (Z.pow_pos_nonneg 2 w).
  replace (2 * w) with (w + w) in Hv by lia. rewrite Z.pow_add_r in Hv by lia.
  destruct (Z.ltb_spec v (2 ^ w)); simpl.
  { rewrite Hf by (apply Z.mod_pos_bound; lia). by rewrite Z.mod_small by lia. }
  assert (0 ≤ Z.shiftr v w < 2 ^ w).
  { rewrite Z.shiftr_div_pow2 by lia. split; [apply Z.div_pos|apply Z.div_lt_upper_bound]; lia. }
  rewrite Z.mod_small, Hf, Z.log2_shiftr by lia.
  assert (w ≤ Z.log2 v) by (apply Z.log2_le_pow2; lia). lia.
Qed.

(** Checking a range of values one by one. *)
Lemma forall_below n (P : Z → bool) v :
  forallb P (seqZ 0 n) = true → 0 ≤ v < n → P v = true.
Proof.
  intros H Hv. apply Is_true_true_1.
  apply (proj1 (list.Forall_forall _ _) (proj1 (forallb_True _ _) (Is_true_true_2 _ H))).
  apply elem_of_seqZ. lia.
Qed.

Lemma my_bit_log2_uint8_spec v : 0 ≤ v < 2 ^ 8 → my_bit_log2_uint8 v = Z.log2 v.
Proof.
  intros Hv. apply Z.eqb_eq.
  by apply (forall_below 256 (λ v, my_bit_log2_uint8 v =? Z.log2 v)).
Qed.

Lemma my_bit_log2_uint16_spec v : 0 ≤ v < 2 ^ 16 → my_bit_log2_uint16 v = Z.log2 v.
Proof. by apply (log2_halve my_bit_log2_uint8 8), my_bit_log2_uint8_spec. Qed.

Lemma my_bit_log2_uint32_spec v : 0 ≤ v < 2 ^ 32 → my_bit_log2_uint32 v = Z.log2 v.
Proof. by apply (log2_halve my_bit_log2_uint16 16), my_bit_log2_uint16_spec. Qed.

(** [my_bit_log2_uint64] is the binary logarithm rounded down, and 0 for 0. *)
Theorem my_bit_log2_uint64_spec v : 0 ≤ v < 2 ^ 64 → my_bit_log2_uint64 v = Z.log2 v.
Proof. by apply (log2_halve my_bit_log2_uint32 32), my_bit_log2_uint32_spec. Qed.

(** The comment on the routine says that 3 has logarithm 2, the least [X] with
    [2^X >= 3]; the code rounds down. *)
Lemma my_bit_log2_of_3 : my_bit_log2_uint64 3 = 1.
Proof. reflexivity. Qed.

(** ** Population count *)

(** The number of bits set among the lowest [n]. *)
Fixpoint popcount (n : nat) (w : Z) : Z :=
  match n with
  | O => 0
  | S n => Z.b2z (Z.odd w) + popcount n (Z.div2 w)
  end.

Lemma popcount_bound n w : 0 ≤ popcount n w ≤ Z.of_nat n.
Proof. revert w; induction n as [|n IH]; intros w; cbn [popcount]; [lia|].
  specialize (IH (Z.div2 w)). destruct (Z.odd w); simpl Z.b2z; lia. Qed.

Lemma popcount_app n k d w :
  0 ≤ d < 2 ^ Z.of_nat n →
  popcount (n + k) (d + 2 ^ Z.of_nat n * w) = popcount n d + popcount k w.
Proof.
  revert d; induction n as [|n IH]; intros d Hd.
  { replace (d + _) with w by lia. done. }
  rewrite Nat2Z.inj_succ, Z.pow_succ_r in * by lia. cbn [Nat.add popcount].
  rewrite !Z.div2_div.
  replace (d + 2 * 2 ^ Z.of_nat n * w) with (d + 2 * (2 ^ Z.of_nat n * w)) by lia.
  rewrite Z.odd_add_mul_2, (Z.mul_comm 2 (_ * _)), Z.div_add, IH by (done || divlia). lia.
Qed.

(** The bits of a number split at bit [n]. *)
Lemma testbit_split n d w i :
  0 ≤ n → 0 ≤ d < 2 ^ n → 0 ≤ i →
  Z.testbit (d + 2 ^ n * w) i = if i <? n then Z.testbit d i else Z.testbit w (i - n).
Proof.
  intros Hn Hd Hi. destruct (Z.ltb_spec i n).
  - rewrite <- (Z.mod_pow2_bits_low (d + 2 ^ n * w) n) by lia.
    by rewrite Z.mul_comm, Z.mod_add, Z.mod_small by lia.
  - replace i with (i - n + n) at 1 by lia. rewrite <- Z.div_pow2_bits by lia.
    by rewrite Z.mul_comm, Z.div_add, Z.div_small by lia.
Qed.

(** Shifting and masking acts on the low digit of 8 bits and on the rest apart,
    when the mask drops the bits that cross the boundary. *)
Lemma digit_mask k m d w M :
  0 ≤ k ≤ 8 → 0 ≤ d < 2 ^ 8 → 0 ≤ m < 2 ^ (8 - k) →
  Z.land (Z.shiftr (d + 2 ^ 8 * w) k) (m + 2 ^ 8 * M) =
  Z.land (Z.shiftr d k) m + 2 ^ 8 * Z.land (Z.shiftr w k) M.
Proof.
  intros Hk Hd Hm.
  assert (Hm' : ∀ i, 8 - k ≤ i → Z.testbit m i = false).
  { apply (Z.bounded_iff_bits_nonneg (8 - k) m); lia. }
  assert (Hl : 0 ≤ Z.land (Z.shiftr d k) m) by (apply Z.land_nonneg; lia).
  assert (Z.land (Z.shiftr d k) m < 2 ^ 8).
  { apply Z.bounded_iff_bits_nonneg; [lia..|]. intros i Hi. rewrite Z.land_spec, Hm' by lia.
    apply andb_false_r. }
  assert (m < 2 ^ 8) by (apply (Z.lt_le_trans _ _ _ (proj2 Hm)), Z.pow_le_mono_r; lia).
  apply Z.bits_inj'. intros i Hi.
  rewrite Z.land_spec, Z.shiftr_spec, !testbit_split, !Z.land_spec, !Z.shiftr_spec by lia.
  destruct (Z.ltb_spec i 8) as [Hlt|Hge]; [|rewrite Z.shiftr_spec by lia].
  - destruct (Z.ltb_spec (i + k) 8); [done|].
    rewrite Hm' by lia. by rewrite !andb_false_r.
  - destruct (Z.ltb_spec (i + k) 8); [lia|]. do 2 f_equal. lia.
Qed.

(** The three steps of the count on a word that starts with the byte [d]: the
    sums of 2, of 4 and of 8 bits stay within their fields. *)
Definition sum2 (M v : Z) : Z := v - Z.land (Z.shiftr v 1) M.
Definition sum4 (M v : Z) : Z := Z.land v M + Z.land (Z.shiftr v 2) M.
Definition sum8 (M v : Z) : Z := Z.land (v + Z.shiftr v 4) M.

Lemma sum2_digit d w M :
  0 ≤ d < 2 ^ 8 → sum2 (0x55 + 2 ^ 8 * M) (d + 2 ^ 8 * w) = sum2 0x55 d + 2 ^ 8 * sum2 M w.
Proof. intros. unfold sum2. rewrite digit_mask by lia. lia. Qed.

Lemma sum4_digit d w M :
  0 ≤ d < 2 ^ 8 → sum4 (0x33 + 2 ^ 8 * M) (d + 2 ^ 8 * w) = sum4 0x33 d + 2 ^ 8 * sum4 M w.
Proof.
  intros. unfold sum4. rewrite digit_mask by lia.
  pose proof (digit_mask 0 0x33 d w M) as H0. rewrite !Z.shiftr_0_r in H0. rewrite H0 by lia. lia.
Qed.

(** The last sum is taken before the mask; the carry stays in the byte because
    a field of 4 bits holds at most 4. *)
Lemma sum8_digit d w M :
  0 ≤ d < 2 ^ 8 → d / 16 ≤ 4 → w mod 16 ≤ 4 →
  sum8 (0x0F + 2 ^ 8 * M) (d + 2 ^ 8 * w) = sum8 0x0F d + 2 ^ 8 * sum8 M w.
Proof.
  intros Hd Hq Hw. unfold sum8.
  assert (0 ≤ w mod 16) by (apply Z.mod_pos_bound; lia).
  assert (E : d + 2 ^ 8 * w + Z.shiftr (d + 2 ^ 8 * w) 4 =
    (d + Z.shiftr d 4 + 2 ^ 4 * (w mod 2 ^ 4)) + 2 ^ 8 * (w + Z.shiftr w 4)).
  { rewrite !Z.shiftr_div_pow2 by lia. divlia. }
  rewrite E. rewrite Z.shiftr_div_pow2 at 1 by lia.
  pose proof (digit_mask 0 0x0F (d + d / 2 ^ 4 + 2 ^ 4 * (w mod 2 ^ 4)) (w + Z.shiftr w 4) M) as H0.
  rewrite !Z.shiftr_0_r in H0. rewrite H0 by divlia. f_equal.
  rewrite Z.shiftr_div_pow2 by lia. change 15 with (Z.ones 4). rewrite !Z.land_ones by lia.
  by rewrite (Z.mul_comm (2 ^ 4)), Z.mod_add.
Qed.

(** What the steps make of one byte. *)
Lemma sum_byte d :
  0 ≤ d < 256 →
  let e := sum4 0x33 (sum2 0x55 d) in
  0 ≤ sum2 0x55 d < 2 ^ 8 ∧ 0 ≤ e < 2 ^ 8 ∧ e / 16 ≤ 4 ∧ e mod 16 ≤ 4 ∧ sum8 0x0F e = popcount 8 d.
Proof.
  intros Hd e. subst e.
  pose proof (forall_below 256 (λ d, let s := sum2 0x55 d in let e := sum4 0x33 s in
    (0 <=? s) && (s <? 256) && (0 <=? e) && (e <? 256) && (e / 16 <=? 4) && (e mod 16 <=? 4)
    && (sum8 0x0F e =? popcount 8 d)) d eq_refl Hd) as H.
  cbv beta zeta in H. rewrite !andb_true_iff in H. lia.
Qed.

(** A word made of four bytes, the lowest first. *)
Definition word4 (d0 d1 d2 d3 : Z) : Z := d0 + 2 ^ 8 * (d1 + 2 ^ 8 * (d2 + 2 ^ 8 * d3)).
Definition is_byte (d : Z) : Prop := 0 ≤ d < 2 ^ 8.

Lemma word4_bytes v :
  0 ≤ v < 2 ^ 32 →
  ∃ d0 d1 d2 d3, v = word4 d0 d1 d2 d3 ∧ is_byte d0 ∧ is_byte d1 ∧ is_byte d2 ∧ is_byte d3.
Proof.
  intros Hv. exists (v mod 2 ^ 8), (v / 2 ^ 8 mod 2 ^ 8), (v / 2 ^ 16 mod 2 ^ 8), (v / 2 ^ 24).
  unfold word4, is_byte. split_and!; divlia.
Qed.

Lemma word4_u32 d0 d1 d2 d3 :
  is_byte d0 → is_byte d1 → is_byte d2 → is_byte d3 → u32 (word4 d0 d1 d2 d3) = word4 d0 d1 d2 d3.
Proof. intros. apply Z.mod_small. unfold word4, is_byte in *. lia. Qed.

Lemma sums_word d0 d1 d2 d3 :
  is_byte d0 → is_byte d1 → is_byte d2 → is_byte d3 →
  sum2 0x55555555 (word4 d0 d1 d2 d3) =
    word4 (sum2 0x55 d0) (sum2 0x55 d1) (sum2 0x55 d2) (sum2 0x55 d3)
  ∧ sum4 0x33333333 (word4 d0 d1 d2 d3) =
    word4 (sum4 0x33 d0) (sum4 0x33 d1) (sum4 0x33 d2) (sum4 0x33 d3).
Proof.
  unfold is_byte. intros. split.
  - change 0x55555555 with (word4 0x55 0x55 0x55 0x55). unfold word4. by rewrite !sum2_digit.
  - change 0x33333333 with (word4 0x33 0x33 0x33 0x33). unfold word4. by rewrite !sum4_digit.
Qed.

Lemma sum8_word d0 d1 d2 d3 :
  is_byte d0 → is_byte d1 → is_byte d2 → is_byte d3 →
  d0 / 16 ≤ 4 → d1 / 16 ≤ 4 → d2 / 16 ≤ 4 → d1 mod 16 ≤ 4 → d2 mod 16 ≤ 4 → d3 mod 16 ≤ 4 →
  sum8 0xF0F0F0F (word4 d0 d1 d2 d3) =
    word4 (sum8 0x0F d0) (sum8 0x0F d1) (sum8 0x0F d2) (sum8 0x0F d3).
Proof.
  unfold is_byte. intros. change 0xF0F0F0F with (word4 0xF 0xF 0xF 0xF). unfold word4.
  rewrite !sum8_digit by (done || divlia). done.
Qed.

(** The product with 0x01010101 has the sum of the bytes in its highest byte. *)
Lemma byte_sum a b c d :
  0 ≤ a ≤ 8 → 0 ≤ b ≤ 8 → 0 ≤ c ≤ 8 → 0 ≤ d ≤ 8 →
  (word4 a b c d * 0x01010101) mod 2 ^ 32 / 2 ^ 24 = a + b + c + d.
Proof.
  intros Ha Hb Hc Hd.
  replace (word4 a b c d * 0x01010101)
    with ((a + (a + b) * 2 ^ 8 + (a + b + c) * 2 ^ 16 + (a + b + c + d) * 2 ^ 24)
      + ((b + c + d) + (c + d) * 2 ^ 8 + d * 2 ^ 16) * 2 ^ 32) by (unfold word4; lia).
  rewrite Z.mod_add, Z.mod_small by lia.
  symmetry. apply (Z.div_unique_pos _ _ _ (a + (a + b) * 2 ^ 8 + (a + b + c) * 2 ^ 16)); lia.
Qed.

Lemma my_count_bits_uint32_spec v : 0 ≤ v < 2 ^ 32 → my_count_bits_uint32 v = popcount 32 v.
Proof.
  intros (d0 & d1 & d2 & d3 & -> & B0 & B1 & B2 & B3)%word4_bytes.
  change 32%nat with (8 + (8 + (8 + 8)))%nat. unfold word4 at 2.
  rewrite !(popcount_app 8) by done.
  pose proof (popcount_bound 8 d0). pose proof (popcount_bound 8 d1).
  pose proof (popcount_bound 8 d2). pose proof (popcount_bound 8 d3).
  destruct (sum_byte d0 B0) as (?&?&?&?& E0). destruct (sum_byte d1 B1) as (?&?&?&?& E1).
  destruct (sum_byte d2 B2) as (?&?&?&?& E2). destruct (sum_byte d3 B3) as (?&?&?&?& E3).
  unfold my_count_bits_uint32. cbv zeta. fold (sum2 0x55555555 (word4 d0 d1 d2 d3)).
  rewrite (proj1 (sums_word d0 d1 d2 d3 B0 B1 B2 B3)), word4_u32 by done.
  set (w := word4 _ _ _ _). fold (sum4 0x33333333 w). subst w.
  rewrite (proj2 (sums_word (sum2 0x55 d0) (sum2 0x55 d1) (sum2 0x55 d2) (sum2 0x55 d3)
    ltac:(done) ltac:(done) ltac:(done) ltac:(done))).
  rewrite word4_u32 by done. set (w := word4 _ _ _ _).
  assert (0 ≤ w + Z.shiftr w 4 < 2 ^ 32).
  { rewrite Z.shiftr_div_pow2 by lia. subst w. unfold word4. divlia. }
  replace (u32 (w + _)) with (w + Z.shiftr w 4) by (symmetry; by apply Z.mod_small).
  fold (sum8 0xF0F0F0F w). subst w. rewrite sum8_word by done. rewrite E0, E1, E2, E3.
  rewrite Z.shiftr_div_pow2 by lia. unfold u32. rewrite byte_sum; lia.
Qed.

(** [my_count_bits] counts the bits set in a word of 64 bits. *)
Lemma my_count_bits_spec x : 0 ≤ x < 2 ^ 64 → my_count_bits x = popcount 64 x.
Proof.
  intros Hx. unfold my_count_bits.
  pose proof (Z.mod_pos_bound x (2 ^ 32)). pose proof (Z.mod_pos_bound (Z.shiftr x 32) (2 ^ 32)).
  rewrite !my_count_bits_uint32_spec by (unfold u32; lia).
  pose proof (popcount_bound 32 (u32 x)). pose proof (popcount_bound 32 (u32 (Z.shiftr x 32))).
  unfold u32 at 1. rewrite Z.mod_small by lia.
  change 64%nat with (32 + 32)%nat. rewrite (Z.div_mod x (2 ^ 32)) at 3 by lia.
  rewrite (Z.add_comm (_ * _)), (popcount_app 32) by (change (Z.of_nat 32) with 32; lia). f_equal. f_equal.
  unfold u32. rewrite Z.shiftr_div_pow2, Z.mod_small by (lia || divlia). done.
Qed.

(** ** Powers of two *)

(** [x] reaches up to bit [m], and its [s] highest bits are set. *)
Definition top_bits (m s x : Z) : Prop :=
  0 ≤ x < 2 ^ (m + 1) ∧ ∀ i, 0 ≤ i → m - s < i ≤ m → Z.testbit x i = true.

Lemma top_bits_double m s x :
  0 ≤ m → 0 ≤ s → top_bits m s x → top_bits m (2 * s) (Z.lor x (Z.shiftr x s)).
Proof.
  intros Hm Hs [Hx Ht].
  assert (Hh : ∀ i, m + 1 ≤ i → Z.testbit x i = false)
    by (apply (Z.bounded_iff_bits_nonneg (m + 1) x); lia).
  assert (0 ≤ Z.lor x (Z.shiftr x s)) by (apply Z.lor_nonneg; rewrite Z.shiftr_nonneg; lia).
  split; [split; [done|]|].
  - apply Z.bounded_iff_bits_nonneg; [lia..|]. intros i Hi.
    by rewrite Z.lor_spec, Z.shiftr_spec, !Hh by lia.
  - intros i Hi Hr. rewrite Z.lor_spec, Z.shiftr_spec by lia.
    destruct (decide (m - s < i)); [by rewrite Ht by lia|]. rewrite (Ht (i + s)) by lia. apply orb_true_r.
Qed.

(** Five doublings fill a word of 32 bits below its highest bit. *)
Definition smear (v : Z) : Z :=
  let v := Z.lor v (Z.shiftr v 1) in
  let v := Z.lor v (Z.shiftr v 2) in
  let v := Z.lor v (Z.shiftr v 4) in
  let v := Z.lor v (Z.shiftr v 8) in
  Z.lor v (Z.shiftr v 16).

Lemma smear_spec x : 0 ≤ x < 2 ^ 32 → smear x = if x =? 0 then 0 else 2 ^ (Z.log2 x + 1) - 1.
Proof.
  intros Hx. destruct (Z.eqb_spec x 0) as [->|]; [done|]. set (m := Z.log2 x).
  assert (Hm : 0 ≤ m < 32) by (split; [apply Z.log2_nonneg|apply Z.log2_lt_pow2; lia]).
  assert (H1 : top_bits m 1 x).
  { split; [pose proof (Z.log2_spec x); subst m; lia|]. intros i Hi Hr. replace i with m by lia.
    apply Z.bit_log2. lia. }
  apply top_bits_double, top_bits_double, top_bits_double, top_bits_double, top_bits_double in H1;
    [|lia..].
  change (top_bits m 32 (smear x)) in H1. destruct H1 as [Hb Ht].
  rewrite Z.sub_1_r, <- Z.ones_equiv. apply Z.bits_inj'. intros i Hi.
  destruct (decide (i ≤ m)); [by rewrite Z.ones_spec_low, Ht by lia|].
  rewrite Z.ones_spec_high by lia. apply (Z.bounded_iff_bits_nonneg (m + 1)); lia.
Qed.

(** [my_round_up_to_next_power] gives the least power of two that is not less
    than its argument, as long as there is one of 32 bits; for 0 and for larger
    arguments the sum wraps around to 0. *)
Theorem my_round_up_to_next_power_spec v :
  0 ≤ v < 2 ^ 32 →
  my_round_up_to_next_power v = if (0 <? v) && (v <=? 2 ^ 31) then 2 ^ Z.log2_up v else 0.
Proof.
  intros Hv. unfold my_round_up_to_next_power. cbv zeta. fold (smear (u32 (v - 1))).
  rewrite smear_spec by (apply Z.mod_pos_bound; lia). unfold u32 at 2 3.
  destruct (Z.ltb_spec 0 v) as [Hp|]; [|by replace v with 0 by lia].
  rewrite Z.mod_small by lia. cbn [andb].
  destruct (Z.eqb_spec (v - 1) 0); [by replace v with 1 by lia|].
  rewrite Z.sub_add. rewrite (Z.log2_up_eqn v), Z.add_1_r by lia. unfold Z.pred.
  replace (v + -1) with (v - 1) by lia.
  destruct (Z.leb_spec v (2 ^ 31)).
  - apply Z.mod_small. split; [lia|]. apply Z.pow_lt_mono_r; [lia..|].
    assert (Z.log2 (v - 1) < 31) by (apply Z.log2_lt_pow2; lia). lia.
  - replace (Z.log2 (v - 1)) with 31; [done|]. symmetry. apply Z.log2_unique; lia.
Qed.

(** [my_clear_highest_bit] takes away the highest bit, and nothing else. *)
Theorem my_clear_highest_bit_spec v :
  0 ≤ v < 2 ^ 32 → my_clear_highest_bit v = if v =? 0 then 0 else v - 2 ^ Z.log2 v.
Proof.
  intros Hv. unfold my_clear_highest_bit. cbv zeta. fold (smear (Z.shiftr v 1)).
  destruct (Z.eqb_spec v 0) as [->|]; [done|].
  assert (Hh : 0 ≤ Z.shiftr v 1 < 2 ^ 32) by (rewrite Z.shiftr_div_pow2 by lia; divlia).
  rewrite smear_spec by done. pose proof (Z.log2_spec v).
  destruct (Z.eqb_spec (Z.shiftr v 1) 0) as [E|].
  { rewrite Z.shiftr_div_pow2 in E by lia. by replace v with 1 by divlia. }
  rewrite Z.log2_shiftr, Z.sub_1_r, <- Z.ones_equiv, Z.land_ones by lia.
  assert (1 ≤ Z.log2 v).
  { apply Z.log2_le_pow2; [lia|]. rewrite Z.shiftr_div_pow2 in * by lia. divlia. }
  replace (Z.max 0 (Z.log2 v - 1) + 1) with (Z.log2 v) by lia.
  rewrite Z.pow_succ_r in * by lia. symmetry. apply (Z.mod_unique_pos _ _ 1); lia.
Qed.

(** [my_set_bits] does not overflow even for all 64 bits. *)
Lemma my_set_bits_spec n : 1 ≤ n ≤ 64 → my_set_bits n = 2 ^ n - 1.
Proof.
  intros Hn. apply Z.eqb_eq. replace n with (n - 1 + 1) by lia.
  by apply (forall_below 64 (λ n, my_set_bits (n + 1) =? 2 ^ (n + 1) - 1) (n - 1)); [|lia].
Qed.

(** ** Bit reversal *)

Lemma reverse_byte d :
  is_byte d → ∃ b, _my_bits_reverse_table !! Z.to_nat d = Some b ∧ is_byte b
    ∧ ∀ i, 0 ≤ i < 8 → Z.testbit b i = Z.testbit d (7 - i).
Proof.
  intros Hd.
  pose proof (forall_below 256 (λ d, match _my_bits_reverse_table !! Z.to_nat d with
    | Some b => (0 <=? b) && (b <? 256)
        && forallb (λ i, bool_decide (Z.testbit b i = Z.testbit d (7 - i))) (seqZ 0 8)
    | None => false end) d eq_refl Hd) as H.
  cbv beta in H. destruct (_ !! _) as [b|]; [|done]. rewrite !andb_true_iff in H.
  destruct H as [[??] H]. exists b. unfold is_byte. split_and!; [done|lia..|].
  intros i Hi. by apply (forall_below 8 _ i H), bool_decide_eq_true in Hi.
Qed.

Lemma word4_testbit d0 d1 d2 d3 i :
  is_byte d0 → is_byte d1 → is_byte d2 → is_byte d3 → 0 ≤ i →
  Z.testbit (word4 d0 d1 d2 d3) i =
  if i <? 8 then Z.testbit d0 i else if i <? 16 then Z.testbit d1 (i - 8)
  else if i <? 24 then Z.testbit d2 (i - 16) else Z.testbit d3 (i - 24).
Proof.
  unfold is_byte, word4. intros. rewrite testbit_split by lia. destruct (Z.ltb_spec i 8); [done|].
  rewrite testbit_split by lia. replace (i - 8 <? 8) with (i <? 16) by lia. destruct (i <? 16) eqn:?; [done|].
  rewrite testbit_split by lia. replace (i - 8 - 8 <? 8) with (i <? 24) by lia.
  destruct (i <? 24); f_equal; lia.
Qed.

Lemma byte_testbit_high d i : is_byte d → 8 ≤ i → Z.testbit d i = false.
Proof. intros Hd Hi. apply (Z.bounded_iff_bits_nonneg 8 d); unfold is_byte in *; lia. Qed.

(** Bytes shifted to their places and joined with [|]. *)
Lemma word4_lor d0 d1 d2 d3 :
  is_byte d0 → is_byte d1 → is_byte d2 → is_byte d3 →
  Z.lor (Z.lor (Z.lor (Z.shiftl d3 24) (Z.shiftl d2 16)) (Z.shiftl d1 8)) d0 = word4 d0 d1 d2 d3.
Proof.
  intros H0 H1 H2 H3. apply Z.bits_inj'. intros i Hi.
  rewrite word4_testbit, !Z.lor_spec, !Z.shiftl_spec by done.
  destruct (Z.ltb_spec i 8).
  { by rewrite (Z.testbit_neg_r d3), (Z.testbit_neg_r d2), (Z.testbit_neg_r d1) by lia. }
  rewrite (byte_testbit_high d0), orb_false_r by lia || done.
  destruct (Z.ltb_spec i 16); [by rewrite (Z.testbit_neg_r d3), (Z.testbit_neg_r d2) by lia|].
  rewrite (byte_testbit_high d1), orb_false_r by lia || done.
  destruct (Z.ltb_spec i 24); [by rewrite (Z.testbit_neg_r d3) by lia|].
  rewrite (byte_testbit_high d2), orb_false_r by lia || done. done.
Qed.

(** [my_reverse_bits] never reads outside its table, and mirrors the word. *)
Theorem my_reverse_bits_spec key :
  0 ≤ key < 2 ^ 32 →
  ∃ r, my_reverse_bits key = Some r ∧ 0 ≤ r < 2 ^ 32
    ∧ ∀ i, 0 ≤ i < 32 → Z.testbit r i = Z.testbit key (31 - i).
Proof.
  intros (d0 & d1 & d2 & d3 & -> & H0 & H1 & H2 & H3)%word4_bytes.
  destruct (reverse_byte d0 H0) as (b0 & T0 & B0 & R0). destruct (reverse_byte d1 H1) as (b1 & T1 & B1 & R1).
  destruct (reverse_byte d2 H2) as (b2 & T2 & B2 & R2). destruct (reverse_byte d3 H3) as (b3 & T3 & B3 & R3).
  exists (word4 b3 b2 b1 b0). unfold my_reverse_bits. change 255 with (Z.ones 8).
  rewrite !Z.land_ones, !Z.shiftr_div_pow2 by lia.
  replace (word4 d0 d1 d2 d3 mod 2 ^ 8) with d0 by (unfold word4, is_byte in *; divlia).
  replace (word4 d0 d1 d2 d3 / 2 ^ 8 mod 2 ^ 8) with d1 by (unfold word4, is_byte in *; divlia).
  replace (word4 d0 d1 d2 d3 / 2 ^ 16 mod 2 ^ 8) with d2 by (unfold word4, is_byte in *; divlia).
  replace (word4 d0 d1 d2 d3 / 2 ^ 24) with d3 by (unfold word4, is_byte in *; divlia).
  rewrite T0, T1, T2, T3. cbn [mbind option_bind].
  rewrite word4_lor by done. split_and!; [done|unfold word4, is_byte in *; lia..|].
  intros i Hi. rewrite !word4_testbit by (done || lia).
  destruct (Z.ltb_spec i 8), (Z.ltb_spec i 16), (Z.ltb_spec i 24), (Z.ltb_spec (31 - i) 8),
    (Z.ltb_spec (31 - i) 16), (Z.ltb_spec (31 - i) 24); try lia;
    rewrite ?R0, ?R1, ?R2, ?R3 by lia; f_equal; lia.
Qed.

(** ** First set bit *)

(** [k] is the lowest bit set in [n]. *)
Definition lowest_bit (n k : Z) : Prop :=
  Z.testbit n k = true ∧ ∀ j, 0 ≤ j < k → Z.testbit n j = false.

Lemma last_bit_digit d :
  0 ≤ d < 16 → ∃ b, last_bit !! Z.to_nat d = Some b
    ∧ if b =? 32 then d = 0 else 0 ≤ b < 4 ∧ lowest_bit d b.
Proof.
  intros Hd.
  pose proof (forall_below 16 (λ d, match last_bit !! Z.to_nat d with
    | Some b => if b =? 32 then d =? 0 else (0 <=? b) && (b <? 4) && Z.testbit d b
        && forallb (λ j, negb (Z.testbit d j)) (seqZ 0 b)
    | None => false end) d eq_refl Hd) as H.
  cbv beta in H. destruct (_ !! _) as [b|]; [|done]. exists b. split; [done|].
  destruct (b =? 32); [lia|]. rewrite !andb_true_iff in H. destruct H as [[[??]?] H].
  split; [lia|]. split; [done|]. intros j Hj. by apply (forall_below b _ j H), negb_true_iff in Hj.
Qed.

Lemma find_first_bit_loop_spec fuel n :
  0 < n < 2 ^ 64 → (fuel ≤ 16)%nat →
  (∀ j, 0 ≤ j < 64 - 4 * Z.of_nat fuel → Z.testbit n j = false) →
  ∃ k, find_first_bit_loop fuel n (64 - 4 * Z.of_nat fuel) = Some k ∧ 0 ≤ k < 64 ∧ lowest_bit n k.
Proof.
  intros Hn. induction fuel as [|fuel IH]; intros Hf Hlow.
  { exfalso. enough (n = 0) by lia. apply Z.bits_inj_0. intros j.
    destruct (decide (j < 0)); [by apply Z.testbit_neg_r|]. destruct (decide (j < 64)); [apply Hlow; lia|].
    apply (Z.bounded_iff_bits_nonneg 64 n); lia. }
  set (s := 64 - 4 * Z.of_nat (S fuel)) in *. cbn [find_first_bit_loop].
  change 0xF with (Z.ones 4). rewrite Z.land_ones by lia.
  destruct (last_bit_digit (Z.shiftr n s mod 2 ^ 4)) as (b & -> & Hb); [apply Z.mod_pos_bound; lia|].
  cbn [mbind option_bind].
  assert (Ht : ∀ j, 0 ≤ j < 4 → Z.testbit (Z.shiftr n s mod 2 ^ 4) j = Z.testbit n (j + s)).
  { intros j Hj. rewrite Z.mod_pow2_bits_low, Z.shiftr_spec by lia. done. }
  destruct (b =? 32).
  - replace (s + 4) with (64 - 4 * Z.of_nat fuel) by lia. apply IH; [lia|]. intros j Hj.
    destruct (decide (j < s)); [apply Hlow; lia|]. replace j with (j - s + s) by lia.
    rewrite <- Ht, Hb by lia. apply Z.bits_0.
  - destruct Hb as (? & Hb1 & Hb2). exists (s + b). split; [done|]. split; [lia|]. split.
    + rewrite (Z.add_comm s), <- Ht by lia. done.
    + intros j Hj. destruct (decide (j < s)); [apply Hlow; lia|].
      replace j with (j - s + s) by lia. rewrite <- Ht by lia. apply Hb2. lia.
Qed.

(** [my_find_first_bit] returns the lowest set bit, and 64 when there is none. *)
Lemma my_find_first_bit_spec n :
  0 ≤ n < 2 ^ 64 →
  ∃ k, my_find_first_bit n = Some k ∧ if n =? 0 then k = 64 else 0 ≤ k < 64 ∧ lowest_bit n k.
Proof.
  intros Hn. unfold my_find_first_bit. destruct (Z.eqb_spec n 0); [by exists 64|].
  apply (find_first_bit_loop_spec 16); [lia..|]. intros. lia.
Qed.
