(* ===== verification/Queues.v ===== *)
(** * Priority queues ([mysys/queues.c], [include/queues.h])

    A [QUEUE] is a binary heap in [root[1 .. elements]].  The compare callback
    is a parameter of every operation; the cell that [offset_to_queue_pos]
    designates inside an element is the map [qpos] from elements to positions.
    Reading or writing outside [root] is undefined in C and is [None] here, so
    a theorem that an operation returns [Some] also shows that it stays inside
    the array. *)

From stdpp Require Import gmap sorting.
From S2P Require Import Prelude.

Section Queues.
Context {Elt : Type} `{Countable Elt}.
Context (compare : Elt → Elt → Z).

Record QUEUE := mkQUEUE {
  root : list Elt;
  elements : nat;
  max_elements : nat;
  offset_to_queue_pos : nat;
  auto_extent : nat;
  max_at_top : Z;
  qpos : gmap Elt nat;
}.

Definition set_root (q : QUEUE) (r : list Elt) : QUEUE :=
  mkQUEUE r (elements q) (max_elements q) (offset_to_queue_pos q)
          (auto_extent q) (max_at_top q) (qpos q).

Definition set_elements (q : QUEUE) (n : nat) : QUEUE :=
  mkQUEUE (root q) n (max_elements q) (offset_to_queue_pos q)
          (auto_extent q) (max_at_top q) (qpos q).

(** [queue->root[idx]= e], then [*(uint* ) (e + offset_to_queue_pos-1)= idx]
    when the queue records positions. *)
Definition put (q : QUEUE) (idx : nat) (e : Elt) : option QUEUE :=
  if decide (idx < length (root q)) then
    Some (mkQUEUE (<[idx:=e]> (root q)) (elements q) (max_elements q)
                  (offset_to_queue_pos q) (auto_extent q) (max_at_top q)
                  (if decide (offset_to_queue_pos q = 0) then qpos q
                   else <[e:=idx]> (qpos q)))
  else None.

Definition init_queue (mem : option (list Elt)) (max : nat) (top : bool)
    (off ext : nat) : option QUEUE :=
  r ← mem;
  Some (mkQUEUE r 0 max off ext (if top then -1 else 1)%Z ∅).

(** [my_realloc] is a parameter: [None] when no memory is left.  The result
    [None] is the error return 1, with the queue unchanged. *)
Definition resize_queue (my_realloc : list Elt → nat → option (list Elt))
    (q : QUEUE) (max : nat) : option QUEUE :=
  if decide (max_elements q = max) then Some q
  else
    new_root ← my_realloc (root q) (max + 1);
    Some (mkQUEUE new_root (elements q `min` max) max (offset_to_queue_pos q)
                  (auto_extent q) (max_at_top q) (qpos q)).

Definition reinit_queue (my_realloc : list Elt → nat → option (list Elt))
    (q : QUEUE) (max : nat) (top : bool) (off ext : nat) :
    option QUEUE :=
  resize_queue my_realloc (mkQUEUE (root q) 0 (max_elements q) off ext
                        (if top then -1 else 1)%Z (qpos q)) max.

(** The while loop of [insert_at]; [fuel] bounds the number of halvings. *)
Fixpoint insert_at (fuel : nat) (q : QUEUE) (element : Elt) (idx : nat) :
    option QUEUE :=
  match fuel with
  | O => None
  | S fuel =>
      let next_index := idx / 2 in
      if decide (next_index = 0) then put q idx element
      else
        parent ← root q !! next_index;
        if (compare element parent * max_at_top q <? 0)%Z then
          q' ← put q idx parent;
          insert_at fuel q' element next_index
        else put q idx element
  end.

Definition queue_insert (q : QUEUE) (element : Elt) : option QUEUE :=
  let n := elements q + 1 in
  insert_at (S n) (set_elements q n) element n.

(** The C return value with the queue after the call. *)
Definition queue_insert_safe (my_realloc : list Elt → nat → option (list Elt))
    (q : QUEUE) (element : Elt) :
    option (Z * QUEUE) :=
  if decide (elements q = max_elements q) then
    if decide (auto_extent q = 0) then Some (2%Z, q)
    else
      match resize_queue my_realloc q (uint32_add (max_elements q) (auto_extent q)) with
      | None => Some (1%Z, q)
      | Some q' => q'' ← queue_insert q' element; Some (0%Z, q'')
      end
  else q'' ← queue_insert q element; Some (0%Z, q'').

(** The child of [idx] that the heap order puts first: the [next_index++]
    statement shared by [_downheap] and [queue_replace]. *)
Definition first_child (q : QUEUE) (idx : nat) : option nat :=
  let next_index := idx + idx in
  if decide (next_index < elements q) then
    l ← root q !! next_index;
    r ← root q !! (next_index + 1);
    Some (if (compare l r * max_at_top q >? 0)%Z then next_index + 1
          else next_index)
  else Some next_index.

Fixpoint downheap_loop (fuel : nat) (q : QUEUE) (element : Elt) (idx : nat) :
    option QUEUE :=
  match fuel with
  | O => None
  | S fuel =>
      if decide (idx ≤ elements q / 2) then
        next_index ← first_child q idx;
        c ← root q !! next_index;
        if (compare c element * max_at_top q >=? 0)%Z then put q idx element
        else
          q' ← put q idx c;
          downheap_loop fuel q' element next_index
      else put q idx element
  end.

Definition downheap (q : QUEUE) (idx : nat) : option QUEUE :=
  element ← root q !! idx;
  downheap_loop (S (elements q)) q element idx.

Fixpoint queue_fix_loop (i : nat) (q : QUEUE) : option QUEUE :=
  match i with
  | O => Some q
  | S i' => q' ← downheap q i; queue_fix_loop i' q'
  end.

Definition queue_fix (q : QUEUE) : option QUEUE :=
  queue_fix_loop (elements q / 2) q.

(** The while loop of [queue_replace]; the result is the queue and the index
    at which [insert_at] is called. *)
Fixpoint queue_replace_loop (fuel : nat) (q : QUEUE) (element : Elt)
    (idx : nat) (first : bool) : option (QUEUE * nat) :=
  match fuel with
  | O => None
  | S fuel =>
      if decide (idx ≤ elements q / 2) then
        next_index ← first_child q idx;
        c ← root q !! next_index;
        if first && (compare c element * max_at_top q >=? 0)%Z then
          q' ← put q idx element;
          Some (q', idx)
        else
          q' ← put q idx c;
          queue_replace_loop fuel q' element next_index false
      else Some (q, idx)
  end.

Definition queue_replace (q : QUEUE) (idx : nat) : option QUEUE :=
  element ← root q !! idx;
  '(q', idx') ← queue_replace_loop (S (elements q)) q element idx true;
  insert_at (S idx') q' element idx'.

Definition queue_remove (q : QUEUE) (idx : nat) : option (Elt * QUEUE) :=
  element ← root q !! idx;
  lst ← root q !! elements q;
  if decide (idx < length (root q)) then
    let q1 := set_elements (set_root q (<[idx:=lst]> (root q)))
                           (elements q - 1) in
    q2 ← queue_replace q1 idx;
    Some (element, q2)
  else None.

Definition queue_top (q : QUEUE) : option Elt := root q !! 1.

Definition queue_replace_top (q : QUEUE) : option QUEUE := downheap q 1.

Definition queue_remove_all (q : QUEUE) : QUEUE := set_elements q 0.

Definition delete_queue (q : QUEUE) : QUEUE := set_root q [].

(** ** Well-formedness, heap order and recorded positions *)

Record queue_wf (q : QUEUE) : Prop := {
  wf_len : length (root q) = max_elements q + 1;
  wf_cnt : elements q ≤ max_elements q;
  wf_top : max_at_top q = 1%Z ∨ max_at_top q = (-1)%Z;
}.

(** [le q x y]: [x] may stand above [y]. *)
Definition le (q : QUEUE) (x y : Elt) : Prop := (compare x y * max_at_top q ≤ 0)%Z.

#[local] Instance le_dec q x y : Decision (le q x y).
Proof. unfold le. apply _. Defined.

(** Heap order on every edge whose parent index is at least [k]. *)
Definition heap_from (q : QUEUE) (k : nat) : Prop :=
  ∀ i x y, i ≤ elements q → k ≤ i / 2 →
    root q !! (i / 2) = Some x → root q !! i = Some y → le q x y.

Definition heap (q : QUEUE) : Prop := heap_from q 1.

(** The stored elements, in array order. *)
Definition contents (q : QUEUE) : list Elt := take (elements q) (drop 1 (root q)).

Definition positions_ok (q : QUEUE) : Prop :=
  offset_to_queue_pos q ≠ 0 →
  ∀ i x, 1 ≤ i ≤ elements q → root q !! i = Some x → qpos q !! x = Some i.

(** ** The loops with a hole at [idx] that [e] is going to fill *)

Definition hole_rest (q : QUEUE) (k idx : nat) : Prop :=
  ∀ i x y, i ≤ elements q → k ≤ i / 2 → i ≠ idx → i / 2 ≠ idx →
    root q !! (i / 2) = Some x → root q !! i = Some y → le q x y.
Definition hole_children (q : QUEUE) (idx : nat) (e : Elt) : Prop :=
  ∀ c y, 2 ≤ c ≤ elements q → c / 2 = idx → root q !! c = Some y → le q e y.
Definition hole_grand (q : QUEUE) (k idx : nat) : Prop :=
  ∀ c x y, 2 ≤ c ≤ elements q → c / 2 = idx → k ≤ idx / 2 →
    root q !! (idx / 2) = Some x → root q !! c = Some y → le q x y.
Definition hole_parent (q : QUEUE) (k idx : nat) (e : Elt) : Prop :=
  ∀ x, k ≤ idx / 2 → root q !! (idx / 2) = Some x → le q x e.

(** Positions are right everywhere but in the hole, and no two cells of the
    filled array hold the same element. *)
Definition hole_positions (q : QUEUE) (idx : nat) (e : Elt) : Prop :=
  NoDup (<[idx - 1:=e]> (contents q)) ∧
  (offset_to_queue_pos q ≠ 0 →
   ∀ i x, 1 ≤ i ≤ elements q → i ≠ idx → root q !! i = Some x →
     qpos q !! x = Some i).

(** What the loops leave alone. *)
Record same_frame (q q' : QUEUE) : Prop := {
  sf_elements : elements q' = elements q;
  sf_max : max_elements q' = max_elements q;
  sf_top : max_at_top q' = max_at_top q;
  sf_off : offset_to_queue_pos q' = offset_to_queue_pos q;
  sf_ext : auto_extent q' = auto_extent q;
  sf_len : length (root q') = length (root q);
  sf_out i : i = 0 ∨ elements q < i → root q' !! i = root q !! i;
}.

#[local] Instance same_frame_refl : Reflexive same_frame.
Proof. by intros q. Qed.
#[local] Instance same_frame_trans : Transitive same_frame.
Proof.
  intros q1 q2 q3 [] []. split; try congruence.
  intros i Hi. rewrite sf_out1, sf_out0; [done|done|]. rewrite sf_elements0; done.
Qed.

Lemma le_frame q q' x y : same_frame q q' → le q' x y ↔ le q x y.
Proof. intros []. unfold le. by rewrite sf_top0. Qed.

Lemma wf_frame q q' : same_frame q q' → queue_wf q → queue_wf q'.
Proof. intros [] []. split; congruence. Qed.

Section Order.
Context `{!TotalCmp compare}.

Lemma le_trans q x y z : queue_wf q → le q x y → le q y z → le q x z.
Proof.
  intros [_ _ [Ht|Ht]]; unfold le; rewrite Ht; intros.
  - pose proof (cmp_trans x y z). lia.
  - pose proof (cmp_trans z y x). pose proof (cmp_sgn x y).
    pose proof (cmp_sgn y z). pose proof (cmp_sgn x z). lia.
Qed.

Lemma le_total q x y : queue_wf q → ¬ le q x y → le q y x.
Proof.
  intros [_ _ [Ht|Ht]]; unfold le; rewrite Ht; pose proof (cmp_sgn x y); lia.
Qed.

Lemma le_refl q x : le q x x.
Proof. unfold le. rewrite (cmp_refl compare). lia. Qed.

(** The three comparisons of the code, as statements about [le]. *)
Lemma lt_code q x y : queue_wf q →
  (compare x y * max_at_top q <? 0)%Z = true ↔ ¬ le q y x.
Proof.
  intros [_ _ [Ht|Ht]]; unfold le; rewrite Ht; pose proof (cmp_sgn x y); lia.
Qed.

Lemma ge_code q x y : queue_wf q →
  (compare x y * max_at_top q >=? 0)%Z = true ↔ le q y x.
Proof.
  intros [_ _ [Ht|Ht]]; unfold le; rewrite Ht; pose proof (cmp_sgn x y); lia.
Qed.

Lemma gt_code q x y :
  (compare x y * max_at_top q >? 0)%Z = true ↔ ¬ le q x y.
Proof. unfold le. lia. Qed.

Lemma put_spec q idx e :
  queue_wf q → 1 ≤ idx ≤ elements q →
  ∃ q', put q idx e = Some q' ∧ same_frame q q' ∧
    root q' = <[idx:=e]> (root q) ∧
    contents q' = <[idx - 1:=e]> (contents q) ∧
    (offset_to_queue_pos q ≠ 0 → qpos q' = <[e:=idx]> (qpos q)).
Proof.
  intros [Hl Hc _] Hi. unfold put. rewrite decide_True by lia.
  eexists; split; [done|]. split_and!; simpl.
  - split; simpl; try done; [by rewrite length_insert|].
    intros i Hj. rewrite list_lookup_insert_ne by lia. done.
  - done.
  - unfold contents; cbn [root elements].
    rewrite drop_insert_ge, take_insert_lt by lia. done.
  - intros. by rewrite decide_False.
Qed.

Lemma contents_lookup q i :
  1 ≤ i ≤ elements q → contents q !! (i - 1) = root q !! i.
Proof.
  intros. unfold contents. rewrite lookup_take_lt by lia.
  rewrite lookup_drop. f_equal. lia.
Qed.

Lemma contents_length q : queue_wf q → length (contents q) = elements q.
Proof.
  intros [Hl Hc _]. unfold contents. rewrite length_take, length_drop. lia.
Qed.

Lemma root_lookup_some q i :
  queue_wf q → i ≤ elements q → ∃ x, root q !! i = Some x.
Proof. intros [Hl Hc _] ?. apply lookup_lt_is_Some_2. lia. Qed.

(** Moving the element of cell [j] into the hole [idx]: the hole moves to [j]. *)
Lemma move_spec q idx j x e :
  queue_wf q → 1 ≤ idx ≤ elements q → 1 ≤ j ≤ elements q → idx ≠ j →
  root q !! j = Some x →
  ∃ q', put q idx x = Some q' ∧ same_frame q q' ∧ root q' = <[idx:=x]> (root q) ∧
    <[j - 1:=e]> (contents q') ≡ₚ <[idx - 1:=e]> (contents q) ∧
    (hole_positions q idx e → hole_positions q' j e).
Proof.
  intros Hwf Hi Hj Hne Hx.
  destruct (put_spec q idx x Hwf Hi) as (q' & Hput & Hsf & Hr & Hc & Hp).
  assert (Hperm : <[j - 1:=e]> (contents q') ≡ₚ <[idx - 1:=e]> (contents q)).
  { rewrite Hc. apply hole_move_perm; [lia|rewrite contents_length by done; lia|].
    by rewrite contents_lookup. }
  exists q'. split_and!; [done..|].
  intros [Hnd Hpos]. split; [by rewrite Hperm|].
  intros Hoff i y Hiy Hij Hy. rewrite (sf_off _ _ Hsf) in Hoff.
  rewrite (sf_elements _ _ Hsf) in Hiy. rewrite Hp by done. rewrite Hr in Hy.
  rewrite lookup_insert. case_decide as Hxy.
  - subst y. destruct (decide (i = idx)) as [->|Hne']; [done|].
    rewrite list_lookup_insert_ne in Hy by done. exfalso.
    apply (NoDup_lookup _ (i - 1) (j - 1) x) in Hnd; [lia|..];
      rewrite list_lookup_insert_ne, contents_lookup by lia; done.
  - destruct (decide (i = idx)) as [->|Hne'].
    + rewrite list_lookup_insert_eq in Hy; [congruence|].
      destruct Hwf. lia.
    + rewrite list_lookup_insert_ne in Hy by done. apply Hpos; done.
Qed.

(** Filling the hole with [e] ends every loop. *)
Lemma fill_spec q k idx e :
  queue_wf q → 1 ≤ idx ≤ elements q →
  hole_rest q k idx → hole_children q idx e → hole_parent q k idx e →
  ∃ q', put q idx e = Some q' ∧ same_frame q q' ∧ heap_from q' k ∧
    contents q' = <[idx - 1:=e]> (contents q) ∧
    (hole_positions q idx e → positions_ok q').
Proof.
  intros Hwf Hi Hrest Hch Hpar.
  destruct (put_spec q idx e Hwf Hi) as (q' & Hput & Hsf & Hr & Hc & Hp).
  assert (Hlen : idx < length (root q)) by (destruct Hwf; lia).
  exists q'. split_and!; [done..| |done|].
  - intros i x y Hin Hk Hx Hy. rewrite (le_frame _ _ _ _ Hsf).
    rewrite (sf_elements _ _ Hsf) in Hin. rewrite Hr in Hx, Hy.
    destruct (decide (i = idx)) as [->|Hne].
    + rewrite list_lookup_insert_eq in Hy by done. simplify_eq.
      rewrite list_lookup_insert_ne in Hx; [by apply Hpar|].
      pose proof (Nat.div_lt idx 2). lia.
    + rewrite list_lookup_insert_ne in Hy by done.
      destruct (decide (i / 2 = idx)) as [Heq|Hne'].
      * rewrite Heq, list_lookup_insert_eq in Hx by done. simplify_eq.
        apply Hch with i; [|done|done]. 
        destruct i as [|[|i]]; [simpl in *; lia..|lia].
      * rewrite list_lookup_insert_ne in Hx by done. by apply Hrest with i.
  - intros [Hnd Hpos] Hoff i y Hin Hy. rewrite (sf_off _ _ Hsf) in Hoff.
    rewrite (sf_elements _ _ Hsf) in Hin. rewrite Hp by done. rewrite Hr in Hy.
    destruct (decide (i = idx)) as [->|Hne].
    + rewrite list_lookup_insert_eq in Hy by done. simplify_eq.
      by rewrite lookup_insert_eq.
    + rewrite list_lookup_insert_ne in Hy by done.
      rewrite lookup_insert_ne; [by apply Hpos|]. intros <-.
      apply (NoDup_lookup _ (i - 1) (idx - 1) e) in Hnd; [lia|..].
      * rewrite list_lookup_insert_ne, contents_lookup by lia. done.
      * apply list_lookup_insert_eq. rewrite contents_length by done. lia.
Qed.

(** One move of the hole up: [e] is smaller than the parent. *)
Lemma hole_up q idx x e q' :
  queue_wf q → 2 ≤ idx ≤ elements q → root q !! (idx / 2) = Some x →
  same_frame q q' → root q' = <[idx:=x]> (root q) → ¬ le q x e →
  hole_rest q 1 idx → hole_children q idx e → hole_grand q 1 idx →
  hole_rest q' 1 (idx / 2) ∧ hole_children q' (idx / 2) e ∧
  hole_grand q' 1 (idx / 2).
Proof.
  intros Hwf Hi Hx Hsf Hr Hlt Hrest Hch Hgr.
  assert (Hlen : idx < length (root q)) by (destruct Hwf; lia).
  pose proof (le_total _ _ _ Hwf Hlt) as Hge.
  assert (Hget : ∀ i, i ≠ idx → root q' !! i = root q !! i).
  { intros i Hne. by rewrite Hr, list_lookup_insert_ne. }
  assert (Hgi : root q' !! idx = Some x).
  { by rewrite Hr, list_lookup_insert_eq. }
  assert (Hup : ∀ z, 1 ≤ idx / 2 / 2 → root q !! (idx / 2 / 2) = Some z → le q z x).
  { intros z Hz1 Hz. apply (Hrest (idx / 2)); try done; divlia. }
  assert (Hsib : ∀ c y, 2 ≤ c ≤ elements q → c ≠ idx → c / 2 = idx / 2 →
                 root q !! c = Some y → le q x y).
  { intros c y Hc Hne Heq Hy. apply (Hrest c); try done; [divlia..|].
    by rewrite Heq. }
  split_and!.
  - intros i a b Hin Hk Hne Hne' Ha Hb. rewrite (le_frame _ _ _ _ Hsf).
    rewrite (sf_elements _ _ Hsf) in Hin.
    destruct (decide (i = idx)) as [->|Hii]; [lia|].
    rewrite Hget in Hb by done.
    destruct (decide (i / 2 = idx)) as [Heq|Hii'].
    + rewrite Heq, Hgi in Ha. simplify_eq.
      apply (Hgr i); try done; divlia.
    + rewrite Hget in Ha by done. by apply (Hrest i).
  - intros c y Hc Heq Hy. rewrite (le_frame _ _ _ _ Hsf).
    rewrite (sf_elements _ _ Hsf) in Hc.
    destruct (decide (c = idx)) as [->|Hne]; [by simplify_eq|].
    rewrite Hget in Hy by done.
    apply (le_trans _ _ x); [done..|]. by apply (Hsib c).
  - intros c a y Hc Heq Hk Ha Hy. rewrite (le_frame _ _ _ _ Hsf).
    rewrite (sf_elements _ _ Hsf) in Hc.
    rewrite Hget in Ha by divlia. pose proof (Hup _ Hk Ha) as Hax.
    destruct (decide (c = idx)) as [->|Hne]; [by simplify_eq|].
    rewrite Hget in Hy by done.
    apply (le_trans _ _ x); [done..|]. by apply (Hsib c).
Qed.

Lemma insert_at_spec fuel : ∀ q e idx,
  idx < fuel → queue_wf q → 1 ≤ idx ≤ elements q →
  hole_rest q 1 idx → hole_children q idx e → hole_grand q 1 idx →
  ∃ q', insert_at fuel q e idx = Some q' ∧ same_frame q q' ∧ heap q' ∧
    contents q' ≡ₚ <[idx - 1:=e]> (contents q) ∧
    (hole_positions q idx e → positions_ok q').
Proof.
  induction fuel as [|fuel IH]; intros q e idx Hf Hwf Hi Hrest Hch Hgr; [lia|].
  assert (Hfill : hole_parent q 1 idx e →
    ∃ q', put q idx e = Some q' ∧ same_frame q q' ∧ heap q' ∧
      contents q' ≡ₚ <[idx - 1:=e]> (contents q) ∧
      (hole_positions q idx e → positions_ok q')).
  { intros Hpar. destruct (fill_spec q 1 idx e) as (q' & ? & ? & ? & Hc & ?);
      [done..|]. exists q'. by rewrite Hc. }
  simpl. case_decide as Hz.
  { apply Hfill. intros x Hx. lia. }
  destruct (root_lookup_some q (idx / 2) Hwf) as [x Hx]; [divlia|].
  rewrite Hx; simpl. case_match eqn:Hcmp; last first.
  { apply Hfill. intros y _ Hy. rewrite Hx in Hy; injection Hy as <-.
    destruct (decide (le q x e)) as [|Hn]; [done|].
    apply lt_code in Hn; [|done]. congruence. }
  apply lt_code in Hcmp; [|done].
  destruct (move_spec q idx (idx / 2) x e) as (q1 & Hput & Hsf & Hr & Hp & Hpos);
    [done|divlia..|done|].
  rewrite Hput; simpl.
  destruct (hole_up q idx x e q1) as (H1 & H2 & H3); try done; [divlia|].
  destruct (IH q1 e (idx / 2)) as (q' & Heq & Hsf' & Hh & Hc & Hq); try done.
  - divlia.
  - by apply (wf_frame q).
  - rewrite (sf_elements _ _ Hsf). divlia.
  - exists q'. split_and!; [done|by etrans|done|by rewrite Hc|tauto].
Qed.

Lemma first_child_spec q idx :
  queue_wf q → 1 ≤ idx ≤ elements q / 2 →
  ∃ c x, first_child q idx = Some c ∧ root q !! c = Some x ∧
    c / 2 = idx ∧ 2 ≤ c ≤ elements q ∧
    ∀ c' y, 2 ≤ c' ≤ elements q → c' / 2 = idx → root q !! c' = Some y → le q x y.
Proof.
  intros Hwf Hi. unfold first_child.
  destruct (root_lookup_some q (idx + idx) Hwf) as [l Hl]; [divlia|].
  case_decide as Hd.
  - destruct (root_lookup_some q (idx + idx + 1) Hwf) as [r Hr]; [lia|].
    rewrite Hl, Hr; simpl.
    assert (Hcs : ∀ c', c' / 2 = idx → c' = idx + idx ∨ c' = idx + idx + 1)
      by (intros; divlia).
    case_match eqn:Hc.
    + apply gt_code in Hc. apply le_total in Hc; [|done].
      exists (idx + idx + 1), r. split_and!; try done; try divlia.
      intros c' y _ [->| ->]%Hcs ?; simplify_eq; [done|apply le_refl].
    + assert (le q l r).
      { destruct (decide (le q l r)) as [|Hn]; [done|].
        apply gt_code in Hn. congruence. }
      exists (idx + idx), l. split_and!; try done; try divlia.
      intros c' y _ [->| ->]%Hcs ?; simplify_eq; [apply le_refl|done].
  - exists (idx + idx), l. split_and!; try done; try divlia.
    intros c' y ? ? ?. assert (c' = idx + idx) as -> by divlia.
    simplify_eq. apply le_refl.
Qed.

(** One move of the hole down: the first child goes up. *)
Lemma hole_down q k idx c x q' :
  queue_wf q → 1 ≤ k ≤ idx → c / 2 = idx → 2 ≤ c ≤ elements q →
  root q !! c = Some x →
  (∀ c' y, 2 ≤ c' ≤ elements q → c' / 2 = idx → root q !! c' = Some y → le q x y) →
  same_frame q q' → root q' = <[idx:=x]> (root q) →
  hole_rest q k idx → hole_grand q k idx →
  hole_rest q' k c ∧ hole_grand q' k c ∧
  (∀ e, le q x e → hole_parent q' k c e).
Proof.
  intros Hwf Hk Hci Hc Hx Hmin Hsf Hr Hrest Hgr.
  assert (Hlen : idx < length (root q)) by (destruct Hwf; divlia).
  assert (Hget : ∀ i, i ≠ idx → root q' !! i = root q !! i).
  { intros i Hne. by rewrite Hr, list_lookup_insert_ne. }
  assert (Hgi : root q' !! idx = Some x).
  { by rewrite Hr, list_lookup_insert_eq. }
  split_and!.
  - intros i a b Hin Hki Hne Hne' Ha Hb. rewrite (le_frame _ _ _ _ Hsf).
    rewrite (sf_elements _ _ Hsf) in Hin.
    destruct (decide (i = idx)) as [->|Hii].
    + rewrite Hgi in Hb. simplify_eq. rewrite Hget in Ha by divlia.
      by apply (Hgr c).
    + rewrite Hget in Hb by done.
      destruct (decide (i / 2 = idx)) as [Heq|Hii'].
      * rewrite Heq, Hgi in Ha. simplify_eq. apply (Hmin i); try done. divlia.
      * rewrite Hget in Ha by done. by apply (Hrest i).
  - intros g a b Hg Hgc Hkc Ha Hb. rewrite (le_frame _ _ _ _ Hsf).
    rewrite (sf_elements _ _ Hsf) in Hg.
    rewrite Hci, Hgi in Ha. simplify_eq. rewrite Hget in Hb by divlia.
    apply (Hrest g); try done; try divlia.
  - intros e He y Hky Hy. rewrite (le_frame _ _ _ _ Hsf).
    rewrite Hci, Hgi in Hy. by simplify_eq.
Qed.

Lemma downheap_loop_spec fuel : ∀ q k e idx,
  elements q < fuel + idx → queue_wf q → 1 ≤ k ≤ idx → idx ≤ elements q →
  hole_rest q k idx → hole_grand q k idx → hole_parent q k idx e →
  ∃ q', downheap_loop fuel q e idx = Some q' ∧ same_frame q q' ∧ heap_from q' k ∧
    contents q' ≡ₚ <[idx - 1:=e]> (contents q) ∧
    (hole_positions q idx e → positions_ok q').
Proof.
  induction fuel as [|fuel IH]; intros q k e idx Hf Hwf Hk Hi Hrest Hgr Hpar; [lia|].
  assert (Hfill : hole_children q idx e →
    ∃ q', put q idx e = Some q' ∧ same_frame q q' ∧ heap_from q' k ∧
      contents q' ≡ₚ <[idx - 1:=e]> (contents q) ∧
      (hole_positions q idx e → positions_ok q')).
  { intros Hch. destruct (fill_spec q k idx e) as (q' & ? & ? & ? & Hc & ?);
      [done|lia|done..|]. exists q'. by rewrite Hc. }
  simpl. case_decide as Hd; last first.
  { apply Hfill. intros c y Hc Hci Hy. divlia. }
  destruct (first_child_spec q idx Hwf) as (c & x & Hfc & Hx & Hci & Hc & Hmin);
    [lia|].
  rewrite Hfc; simpl. rewrite Hx; simpl. case_match eqn:Hcmp.
  { apply ge_code in Hcmp; [|done]. apply Hfill. intros c' y Hc' Hci' Hy.
    apply (le_trans _ _ x); [done..|]. by apply (Hmin c'). }
  assert (Hxe : le q x e).
  { apply le_total; [done|]. intros Hn. apply (ge_code q x e Hwf) in Hn. congruence. }
  destruct (move_spec q idx c x e) as (q1 & Hput & Hsf & Hr & Hp & Hpos);
    [done|lia|lia|divlia|done|].
  rewrite Hput; simpl.
  destruct (hole_down q k idx c x q1) as (H1 & H2 & H3); try done.
  pose proof (sf_elements _ _ Hsf) as Hel.
  destruct (IH q1 k e c) as (q' & Heq & Hsf' & Hh & Hcc & Hq); try done.
  - rewrite Hel. divlia.
  - by apply (wf_frame q).
  - divlia.
  - lia.
  - by apply H3.
  - exists q'. split_and!; [done|by etrans|done|by rewrite Hcc|tauto].
Qed.

Lemma queue_replace_loop_spec fuel : ∀ q e idx (first : bool),
  elements q < fuel + idx → queue_wf q → 1 ≤ idx ≤ elements q →
  hole_rest q 1 idx → hole_grand q 1 idx →
  ∃ q' idx', queue_replace_loop fuel q e idx first = Some (q', idx') ∧
    same_frame q q' ∧ 1 ≤ idx' ≤ elements q ∧
    hole_rest q' 1 idx' ∧ hole_grand q' 1 idx' ∧ hole_children q' idx' e ∧
    <[idx' - 1:=e]> (contents q') ≡ₚ <[idx - 1:=e]> (contents q) ∧
    (hole_positions q idx e → hole_positions q' idx' e).
Proof.
  induction fuel as [|fuel IH]; intros q e idx first Hf Hwf Hi Hrest Hgr; [lia|].
  simpl. case_decide as Hd; last first.
  { exists q, idx. split_and!; try done; try lia.
    intros c y Hc Hci Hy. divlia. }
  destruct (first_child_spec q idx Hwf) as (c & x & Hfc & Hx & Hci & Hc & Hmin);
    [lia|].
  rewrite Hfc; simpl. rewrite Hx; simpl. case_match eqn:Hcmp.
  - apply andb_true_iff in Hcmp as [_ Hcmp]. apply ge_code in Hcmp; [|done].
    destruct (put_spec q idx e Hwf) as (q1 & Hput & Hsf & Hr & Hcon & Hp); [lia|].
    rewrite Hput; simpl. exists q1, idx. pose proof (sf_elements _ _ Hsf) as Hel.
    assert (Hget : ∀ i, i ≠ idx → root q1 !! i = root q !! i).
    { intros i Hne. by rewrite Hr, list_lookup_insert_ne. }
    split_and!; try done; try lia.
    + intros i a b Hin Hki Hne Hne' Ha Hb. rewrite (le_frame _ _ _ _ Hsf).
      rewrite Hget in Ha, Hb by done. rewrite Hel in Hin. by apply (Hrest i).
    + intros g a b Hg Hgi Hkg Ha Hb. rewrite (le_frame _ _ _ _ Hsf).
      rewrite Hget in Ha, Hb by divlia. rewrite Hel in Hg. by apply (Hgr g).
    + intros g y Hg Hgi Hy. rewrite (le_frame _ _ _ _ Hsf).
      rewrite Hget in Hy by divlia. rewrite Hel in Hg.
      apply (le_trans _ _ x); [done..|]. by apply (Hmin g).
    + by rewrite Hcon, list_insert_insert_eq.
    + intros [Hnd Hpos]. split; [by rewrite Hcon, list_insert_insert_eq|].
      rewrite (sf_off _ _ Hsf). intros Hoff i y Hin Hne Hy.
      rewrite Hget in Hy by done. rewrite Hp by done. rewrite Hel in Hin.
      rewrite lookup_insert_ne; [by apply Hpos|]. intros <-.
      apply (NoDup_lookup _ (i - 1) (idx - 1) e) in Hnd; [lia|..].
      * rewrite list_lookup_insert_ne, contents_lookup by lia. done.
      * apply list_lookup_insert_eq. rewrite contents_length by done. lia.
  - destruct (move_spec q idx c x e) as (q1 & Hput & Hsf & Hr & Hp & Hpos);
      [done|lia|lia|divlia|done|].
    rewrite Hput; simpl.
    destruct (hole_down q 1 idx c x q1) as (H1 & H2 & H3); try done; [lia|].
    pose proof (sf_elements _ _ Hsf) as Hel.
    destruct (IH q1 e c false) as (q' & i' & Heq & Hsf' & Hi' & ? & ? & ? & Hcc & Hq);
      try done.
    + rewrite Hel. divlia.
    + by apply (wf_frame q).
    + lia.
    + exists q', i'. split_and!; try done; try lia; [by etrans|by rewrite Hcc|tauto].
Qed.

(** A heap is a heap with a hole anywhere. *)
Lemma heap_hole q q' k idx :
  queue_wf q → 1 ≤ k → heap_from q k → elements q' ≤ elements q →
  max_at_top q' = max_at_top q →
  (∀ i, i ≠ idx → root q' !! i = root q !! i) →
  hole_rest q' k idx ∧ (k ≤ idx → idx ≤ elements q → hole_grand q' k idx).
Proof.
  intros Hwf Hk Hh Hn Ht Hget.
  assert (Hle : ∀ x y, le q' x y ↔ le q x y) by (intros; unfold le; by rewrite Ht).
  split.
  - intros i x y Hi Hki Hne Hne' Hx Hy. rewrite Hget in Hx, Hy by done.
    rewrite Hle. apply (Hh i); try done. lia.
  - intros Hki Hidx g x y Hg Hgi Hkg Hx Hy. rewrite Hget in Hx, Hy by divlia.
    destruct (root_lookup_some q idx Hwf) as [z Hz]; [lia|].
    rewrite Hle. apply (le_trans _ _ z); [done|..].
    + apply (Hh idx); done.
    + apply (Hh g); try done; [lia..|]. by rewrite Hgi.
Qed.

Lemma queue_replace_spec q e idx :
  queue_wf q → 1 ≤ idx ≤ elements q → root q !! idx = Some e →
  hole_rest q 1 idx → hole_grand q 1 idx →
  ∃ q', queue_replace q idx = Some q' ∧ same_frame q q' ∧ heap q' ∧
    contents q' ≡ₚ contents q ∧
    (hole_positions q idx e → positions_ok q').
Proof.
  intros Hwf Hi He Hrest Hgr. unfold queue_replace. rewrite He; simpl.
  destruct (queue_replace_loop_spec (S (elements q)) q e idx true)
    as (q1 & i1 & Heq & Hsf & Hi1 & H1 & H2 & H3 & Hp & Hpos); try done; [lia|].
  simpl in Heq. rewrite Heq; simpl.
  pose proof (sf_elements _ _ Hsf) as Hel.
  destruct (insert_at_spec (S i1) q1 e i1) as (q' & Heq' & Hsf' & Hh & Hc & Hpos');
    try done; [lia|by apply (wf_frame q)|lia|].
  exists q'. split_and!; [done|by etrans|done| |tauto].
  rewrite Hc, Hp, list_insert_id; [done|]. by rewrite contents_lookup.
Qed.

Lemma contents_set_elements q n x :
  n = elements q + 1 → root q !! n = Some x →
  contents (set_elements q n) = contents q ++ [x].
Proof.
  intros -> Hx. unfold contents; cbn [root elements set_elements].
  rewrite Nat.add_1_r. apply take_S_r. rewrite lookup_drop.
  rewrite <-Hx. f_equal. lia.
Qed.

Lemma queue_insert_spec q e :
  queue_wf q → heap q → elements q < max_elements q →
  ∃ q', queue_insert q e = Some q' ∧ queue_wf q' ∧ heap q' ∧
    elements q' = elements q + 1 ∧ contents q' ≡ₚ e :: contents q ∧
    (NoDup (e :: contents q) → positions_ok q → positions_ok q').
Proof.
  intros Hwf Hh Hn. unfold queue_insert.
  set (n := elements q + 1). set (q1 := set_elements q n).
  assert (Hwf1 : queue_wf q1) by (destruct Hwf; split; simpl; try done; lia).
  destruct (root_lookup_some q1 n Hwf1) as [x Hx]; [done|].
  assert (Hc1 : <[n - 1:=e]> (contents q1) = contents q ++ [e]).
  { unfold q1. rewrite (contents_set_elements q n x) by done.
    rewrite insert_app_r_alt by (rewrite contents_length; [lia|done]).
    rewrite contents_length by done.
    replace (n - 1 - elements q) with 0 by lia. done. }
  destruct (insert_at_spec (S n) q1 e n) as (q' & Heq & Hsf & Hh' & Hc & Hpos).
  - lia.
  - done.
  - simpl. lia.
  - intros i a b Hi Hk Hne Hne' Ha Hb. simpl in *. apply (Hh i); try done. lia.
  - intros c y Hc Hcn Hy. simpl in *. divlia.
  - intros c a y Hc Hcn. simpl in *. divlia.
  - exists q'. split_and!; try done.
    + by apply (wf_frame q1).
    + by rewrite (sf_elements _ _ Hsf).
    + rewrite Hc, Hc1. by rewrite <-Permutation_cons_append.
    + intros Hnd Hp. apply Hpos. split.
      * rewrite Hc1. by rewrite <-Permutation_cons_append.
      * intros Hoff i y Hi Hne Hy. apply Hp; simpl in *; [done|lia|done].
Qed.

(** The last element: nothing moves. *)
Lemma queue_remove_last q x :
  queue_wf q → heap q → 1 ≤ elements q → root q !! elements q = Some x →
  ∃ q', queue_remove q (elements q) = Some (x, q') ∧
    root q' = root q ∧ elements q' = elements q - 1 ∧
    max_elements q' = max_elements q ∧ max_at_top q' = max_at_top q ∧
    offset_to_queue_pos q' = offset_to_queue_pos q ∧
    (offset_to_queue_pos q ≠ 0 → qpos q' = <[x:=elements q]> (qpos q)).
Proof.
  intros Hwf Hh Hn Hx. assert (Hlen := wf_len _ Hwf). assert (Hcnt := wf_cnt _ Hwf).
  unfold queue_remove. rewrite Hx; simpl. rewrite decide_True by lia.
  rewrite list_insert_id by done. unfold queue_replace; cbn [root set_root set_elements].
  rewrite Hx; simpl. rewrite decide_False by divlia. simpl.
  set (q1 := set_elements _ _).
  assert (∃ q', put q1 (elements q) x = Some q' ∧ root q' = root q ∧
    elements q' = elements q - 1 ∧ max_elements q' = max_elements q ∧
    max_at_top q' = max_at_top q ∧ offset_to_queue_pos q' = offset_to_queue_pos q ∧
    (offset_to_queue_pos q ≠ 0 → qpos q' = <[x:=elements q]> (qpos q)))
    as (q' & Hput & Hq').
  { unfold put; simpl. rewrite decide_True by lia. eexists; split; [done|].
    simpl. rewrite list_insert_id by done. split_and!; try done.
    intros. by rewrite decide_False. }
  exists q'. split; [|done].
  destruct (decide (elements q / 2 = 0)) as [Hz|Hz]; [by rewrite Hput|].
  destruct (root_lookup_some q (elements q / 2) Hwf) as [p Hp]; [divlia|].
  rewrite Hp; simpl. destruct (_ <? 0)%Z eqn:Hc; [|by rewrite Hput].
  apply (lt_code q) in Hc; [|done]. destruct Hc.
  apply (Hh (elements q)); try done. lia.
Qed.

(** Removing the element [x] at [idx] from [q] gives [q']. *)
Definition removes (q : QUEUE) (idx : nat) (x : Elt) (q' : QUEUE) : Prop :=
  queue_remove q idx = Some (x, q') ∧ root q !! idx = Some x ∧
    queue_wf q' ∧ heap q' ∧ elements q' = elements q - 1 ∧
    contents q ≡ₚ x :: contents q' ∧
    (NoDup (contents q) → positions_ok q → positions_ok q') ∧
    max_at_top q' = max_at_top q.

Lemma contents_last q l :
  queue_wf q → 1 ≤ elements q → root q !! elements q = Some l →
  contents q = contents (set_elements q (elements q - 1)) ++ [l].
Proof.
  intros Hwf Hi Hl. pose proof (wf_len _ Hwf). pose proof (wf_cnt _ Hwf).
  rewrite <-(contents_set_elements (set_elements q (elements q - 1)) (elements q) l);
    [by destruct q|simpl; lia|done].
Qed.

Lemma queue_remove_end q l :
  queue_wf q → heap q → 1 ≤ elements q → root q !! elements q = Some l → ∃ q', removes q (elements q) l q'.
Proof.
  intros Hwf Hh Hi Hl. pose proof (contents_last q l Hwf Hi Hl) as Hcl. assert (Hlen := wf_len _ Hwf). assert (Hcnt := wf_cnt _ Hwf).
  destruct (queue_remove_last q l) as (q' & Heq & Hr & Hel & Hmx & Htop & Hoff & Hpos);
    [done|done|lia|done|].
  exists q'. unfold removes. split_and!; try done.
  - split; try congruence; [lia|]. rewrite Htop. apply Hwf.
  - intros i a b Hin Hk Ha Hb. rewrite Hr in Ha, Hb. unfold le. rewrite Htop.
    apply (Hh i); try done. lia.
  - rewrite Hcl, <-Permutation_cons_append. constructor.
    unfold contents; simpl. by rewrite Hr, Hel.
  - intros Hnd Hp Ho i y Hin Hy. rewrite Hoff in Ho. rewrite Hpos by done.
    rewrite Hr in Hy. rewrite Hel in Hin.
    rewrite lookup_insert_ne; [by apply Hp; [|lia|]|]. intros <-.
    apply (NoDup_lookup _ (i - 1) (elements q - 1) l) in Hnd; [lia|..];
      rewrite contents_lookup by lia; done.
Qed.

Lemma queue_remove_inside q idx x l :
  queue_wf q → heap q → 1 ≤ idx < elements q → root q !! idx = Some x → root q !! elements q = Some l →
  ∃ q', removes q idx x q'.
Proof.
  intros Hwf Hh Hi Hx Hl. assert (Hlen := wf_len _ Hwf). assert (Hcnt := wf_cnt _ Hwf).
  pose proof (contents_last q l Hwf ltac:(lia) Hl) as Hcl. set (n := elements q - 1) in *.
  set (q1 := set_elements (set_root q (<[idx:=l]> (root q))) n).
  assert (Hwf1 : queue_wf q1).
  { split; simpl; [by rewrite length_insert|lia|apply Hwf]. }
  assert (Hget : ∀ i, i ≠ idx → root q1 !! i = root q !! i).
  { intros i ?. simpl. by rewrite list_lookup_insert_ne. }
  destruct (heap_hole q q1 1 idx) as [H1 H2]; try done; [simpl; lia|].
  assert (Hcq1 : contents q1 = <[idx - 1:=l]> (contents (set_elements q n))).
  { unfold contents; simpl. rewrite drop_insert_ge, take_insert_lt by lia. done. }
  destruct (queue_replace_spec q1 l idx) as (q' & Heq & Hsf & Hh' & Hc & Hpos);
    try done; [simpl; lia|simpl; apply list_lookup_insert_eq; lia|apply H2; lia|].
  assert (Hperm : contents q ≡ₚ x :: contents q').
  { rewrite Hc, Hcq1, Hcl, <-Permutation_cons_append.
    symmetry. apply insert_trade.
    rewrite (contents_lookup (set_elements q n) idx); [done|simpl; lia]. }
  exists q'. unfold removes, queue_remove. rewrite Hx; simpl. rewrite Hl; simpl.
  rewrite decide_True by lia. fold n. fold q1. rewrite Heq; simpl.
  split_and!; try done;
    [by apply (wf_frame q1)|by rewrite (sf_elements _ _ Hsf)| |apply Hsf].
  intros Hnd Hp. apply Hpos. split.
  - rewrite list_insert_id; [|rewrite contents_lookup by (simpl; lia)];
      [|simpl; apply list_lookup_insert_eq; lia].
    rewrite <-Hc. rewrite Hperm in Hnd. by inversion Hnd.
  - intros Ho i y Hin Hni Hy. rewrite Hget in Hy by done. simpl in *.
    apply Hp; [done|lia|done].
Qed.

Lemma queue_remove_spec q idx :
  queue_wf q → heap q → 1 ≤ idx ≤ elements q →
  ∃ x q', queue_remove q idx = Some (x, q') ∧ root q !! idx = Some x ∧
    queue_wf q' ∧ heap q' ∧ elements q' = elements q - 1 ∧
    contents q ≡ₚ x :: contents q' ∧
    (NoDup (contents q) → positions_ok q → positions_ok q') ∧
    max_at_top q' = max_at_top q.
Proof.
  intros Hwf Hh Hi. assert (Hlen := wf_len _ Hwf). assert (Hcnt := wf_cnt _ Hwf).
  destruct (root_lookup_some q idx Hwf) as [x Hx]; [lia|].
  destruct (root_lookup_some q (elements q) Hwf) as [l Hl]; [lia|].
  destruct (decide (idx = elements q)) as [->|Hne].
  - destruct (queue_remove_end q l) as [q' Hq']; try done; [lia|]. by exists l, q'.
  - destruct (queue_remove_inside q idx x l) as [q' Hq']; try done; [lia|]. by exists x, q'.
Qed.

Lemma positions_hole q idx e :
  root q !! idx = Some e → 1 ≤ idx ≤ elements q →
  NoDup (contents q) → positions_ok q → hole_positions q idx e.
Proof.
  intros He Hi Hnd Hp. split.
  - rewrite list_insert_id; [done|]. by rewrite contents_lookup.
  - intros Ho i x Hin _ Hx. by apply Hp.
Qed.

Lemma downheap_spec q idx :
  queue_wf q → 1 ≤ idx ≤ elements q → heap_from q (idx + 1) →
  ∃ q', downheap q idx = Some q' ∧ same_frame q q' ∧ heap_from q' idx ∧
    contents q' ≡ₚ contents q ∧
    (NoDup (contents q) → positions_ok q → positions_ok q').
Proof.
  intros Hwf Hi Hh. unfold downheap.
  destruct (root_lookup_some q idx Hwf) as [e He]; [lia|]. rewrite He.
  cbn [mbind option_bind].
  destruct (downheap_loop_spec (S (elements q)) q idx e idx)
    as (q' & Heq & Hsf & Hh' & Hc & Hpos); try done; try lia.
  - intros i x y Hin Hk Hne Hne' Hx Hy. apply (Hh i); try done. lia.
  - intros c x y Hc Hci Hk. divlia.
  - intros x Hk. divlia.
  - exists q'. split_and!; try done.
    + rewrite Hc, list_insert_id; [done|]. by rewrite contents_lookup.
    + intros Hnd Hp. apply Hpos. by apply positions_hole.
Qed.

Lemma queue_fix_loop_spec i : ∀ q,
  queue_wf q → i ≤ elements q / 2 → heap_from q (i + 1) →
  ∃ q', queue_fix_loop i q = Some q' ∧ same_frame q q' ∧ heap q' ∧
    contents q' ≡ₚ contents q ∧
    (NoDup (contents q) → positions_ok q → positions_ok q').
Proof.
  induction i as [|i IH]; intros q Hwf Hi Hh; cbn [queue_fix_loop].
  - exists q. done.
  - destruct (downheap_spec q (S i)) as (q1 & Heq & Hsf & Hh1 & Hc & Hp);
      [done|divlia|done|]. rewrite Heq; cbn [mbind option_bind].
    destruct (IH q1) as (q' & Heq' & Hsf' & Hh' & Hc' & Hp').
    + by apply (wf_frame q).
    + rewrite (sf_elements _ _ Hsf). lia.
    + by rewrite Nat.add_1_r.
    + exists q'. split_and!; [done|by etrans|done|by rewrite Hc'|].
      intros Hnd Hpo. apply Hp'; [by rewrite Hc|by apply Hp].
Qed.

(** After any change of the elements, [queue_fix] restores the heap order of
    the same elements, and the recorded positions. *)
Theorem queue_fix_correct q :
  queue_wf q →
  ∃ q', queue_fix q = Some q' ∧ queue_wf q' ∧ heap q' ∧
    contents q' ≡ₚ contents q ∧
    (NoDup (contents q) → positions_ok q → positions_ok q').
Proof.
  intros Hwf. destruct (queue_fix_loop_spec (elements q / 2) q)
    as (q' & Heq & Hsf & Hh & Hc & Hp); [done|done| |].
  - intros i x y Hi Hk. divlia.
  - exists q'. split_and!; try done. by apply (wf_frame q).
Qed.

Lemma heap_top_le q i x y :
  queue_wf q → heap q → root q !! 1 = Some x → 1 ≤ i ≤ elements q →
  root q !! i = Some y → le q x y.
Proof.
  intros Hwf Hh Hx. revert y. induction i as [i IH] using lt_wf_ind.
  intros y Hi Hy. destruct (decide (i = 1)) as [->|Hne].
  { simplify_eq. apply le_refl. }
  destruct (root_lookup_some q (i / 2) Hwf) as [p Hp]; [divlia|].
  apply (le_trans _ _ p); [done|..].
  - apply (IH (i / 2)); [divlia..|done].
  - apply (Hh i); try done; divlia.
Qed.

Lemma heap_top_forall q x :
  queue_wf q → heap q → root q !! 1 = Some x → Forall (le q x) (contents q).
Proof.
  intros Hwf Hh Hx. apply Forall_lookup. intros i y Hi.
  pose proof (lookup_lt_Some _ _ _ Hi) as Hlt.
  rewrite contents_length in Hlt by done.
  replace i with (S i - 1) in Hi by lia. rewrite contents_lookup in Hi by lia.
  apply (heap_top_le q (S i)); try done. lia.
Qed.

(** [n] calls of [queue_remove_top]. *)
Fixpoint drain (n : nat) (q : QUEUE) : option (list Elt) :=
  match n with
  | O => Some []
  | S n' =>
      '(x, q') ← queue_remove q 1;
      xs ← drain n' q';
      Some (x :: xs)
  end.

(** Removing the top until the queue is empty returns every element once, in
    the order of the queue. *)
Theorem drain_sorted q :
  queue_wf q → heap q →
  ∃ xs, drain (elements q) q = Some xs ∧ xs ≡ₚ contents q ∧
    StronglySorted (le q) xs.
Proof.
  remember (elements q) as n eqn:Hn. revert q Hn.
  induction n as [|n IH]; intros q Hn Hwf Hh; cbn [drain].
  - exists []. split_and!; [done| |constructor].
    unfold contents. by rewrite <-Hn.
  - destruct (queue_remove_spec q 1)
      as (x & q' & Heq & Hx & Hwf' & Hh' & Hel & Hc & _ & Ht); [done..|lia|].
    rewrite Heq; cbn [mbind option_bind].
    destruct (IH q') as (xs & Hd & Hp & Hs); [lia|done..|].
    rewrite Hd; cbn [mbind option_bind].
    exists (x :: xs). split_and!; [done|by rewrite Hp, Hc|].
    constructor.
    + unfold le in Hs |- *. by rewrite Ht in Hs.
    + rewrite Hp. pose proof (heap_top_forall q x Hwf Hh Hx) as Hall.
      rewrite Hc in Hall. by inversion Hall.
Qed.

(** What [my_realloc] guarantees when it succeeds: the new block has the size
    asked for and starts with the old contents. *)
Definition realloc_contract (my_realloc : list Elt → nat → option (list Elt)) : Prop :=
  ∀ l n l', my_realloc l n = Some l' →
    length l' = n ∧ ∀ i, i < length l → i < n → l' !! i = l !! i.

Lemma resize_grow_spec my_realloc q m q' :
  realloc_contract my_realloc → queue_wf q → heap q → max_elements q < m →
  resize_queue my_realloc q m = Some q' →
  queue_wf q' ∧ heap q' ∧ contents q' = contents q ∧ elements q' = elements q ∧
  max_elements q' = m.
Proof.
  intros Hra [Hl Hc Ht] Hh Hm. unfold resize_queue. rewrite decide_False by lia.
  destruct (my_realloc _ _) as [r|] eqn:Hr; [|done].
  intros [= <-]. apply Hra in Hr as [Hlen Hget].
  rewrite Nat.min_l by lia. split_and!; simpl; try done.
  - split; simpl; try done; lia.
  - intros i x y Hi Hk Hx Hy. simpl in *.
    rewrite Hget in Hx, Hy by divlia. by apply (Hh i).
  - unfold contents; simpl. apply list_eq. intros i.
    destruct (decide (i < elements q)).
    + rewrite !lookup_take_lt, !lookup_drop by done. apply Hget; lia.
    + rewrite !lookup_take_ge by lia. done.
Qed.

(** [queue_insert_safe] returns 0 exactly when it inserted, and then the
    queue is a heap with one more element, growing the array by [auto_extent]
    when it was full; it returns 2 when the queue is full and cannot grow, 1
    when the allocation failed, and in both cases leaves the queue alone. *)
Theorem queue_insert_safe_correct my_realloc q e :
  realloc_contract my_realloc → queue_wf q → heap q →
  (Z.of_nat (max_elements q) + Z.of_nat (auto_extent q) < 2 ^ 32)%Z →
  ∃ r q', queue_insert_safe my_realloc q e = Some (r, q') ∧
    ((r = 0%Z ∧ queue_wf q' ∧ heap q' ∧ contents q' ≡ₚ e :: contents q) ∨
     (r = 1%Z ∧ q' = q ∧ elements q = max_elements q ∧
      my_realloc (root q) (max_elements q + auto_extent q + 1) = None) ∨
     (r = 2%Z ∧ q' = q ∧ elements q = max_elements q ∧ auto_extent q = 0)).
Proof.
  intros Hra Hwf Hh Hov. unfold queue_insert_safe. case_decide as Hfull.
  - case_decide as Hext; [eexists _, _; split; [done|]; tauto|].
    assert (Hadd : uint32_add (max_elements q) (auto_extent q)
                   = max_elements q + auto_extent q).
    { unfold uint32_add. rewrite Z.mod_small by lia. lia. }
    rewrite Hadd. destruct (resize_queue my_realloc q _) as [q1|] eqn:Hrs.
    + destruct (resize_grow_spec my_realloc q (max_elements q + auto_extent q) q1)
        as (Hwf1 & Hh1 & Hc1 & He1 & Hm1); [done..|lia|done|].
      destruct (queue_insert_spec q1 e) as (q' & Heq & ? & ? & ? & Hc & _);
        [done|done|lia|].
      rewrite Heq; simpl. eexists _, _; split; [done|]. left.
      rewrite <-Hc1. done.
    + eexists _, _; split; [done|]. right; left. split_and!; try done.
      revert Hrs. unfold resize_queue. rewrite decide_False by lia.
      by destruct (my_realloc _ _).
  - destruct (queue_insert_spec q e) as (q' & Heq & ? & ? & ? & Hc & _);
      [done|done|destruct Hwf; lia|].
    rewrite Heq; simpl. eexists _, _; split; [done|]. by left.
Qed.

(** ** Refinement of an abstract priority queue *)

(** The operations of the interface; their guards are the [DBUG_ASSERT]s and
    the rule that an element is in the queue at most once.  [QReplace idx e] is
    a change of the element at [idx] followed by [queue_replace]; [QFix l] is a
    change of all elements, to [l], followed by [queue_fix]. *)
Inductive qop := QInsert (e : Elt) | QRemove (idx : nat) | QReplace (idx : nat) (e : Elt) | QFix (l : list Elt).

(** The elements in the array are changed; each keeps the position stored in it. *)
Definition change (q : QUEUE) (l : list Elt) : QUEUE :=
  mkQUEUE (take 1 (root q) ++ l ++ drop (elements q + 1) (root q)) (elements q) (max_elements q)
    (offset_to_queue_pos q) (auto_extent q) (max_at_top q)
    (list_to_map (imap (λ i x, (x, S i)) l) ∪ qpos q).

Definition guard (q : QUEUE) (op : qop) : Prop :=
  match op with
  | QInsert e => elements q < max_elements q ∧ e ∉ contents q
  | QRemove idx => 1 ≤ idx ≤ elements q
  | QReplace idx e => 1 ≤ idx ≤ elements q ∧ e ∉ contents q
  | QFix l => length l = elements q ∧ NoDup l
  end.

(** The element an operation returns, and the new queue. *)
Definition exec (q : QUEUE) (op : qop) : option (option Elt * QUEUE) :=
  match op with
  | QInsert e => q' ← queue_insert q e; Some (None, q')
  | QRemove idx => '(x, q') ← queue_remove q idx; Some (Some x, q')
  | QReplace idx e =>
      q' ← queue_replace (set_root q (<[idx:=e]> (root q))) idx; Some (None, q')
  | QFix l => q' ← queue_fix (change q l); Some (None, q')
  end.

(** The abstract queue is a bag; [at_idx] is the element at an index of the
    array, index 1 being the top. *)
Inductive spec_step (ord : Elt → Elt → Prop) (at_idx : nat → option Elt) :
    list Elt → qop → option Elt → list Elt → Prop :=
| spec_insert l e l' : l' ≡ₚ e :: l → spec_step ord at_idx l (QInsert e) None l'
| spec_remove l idx x l' :
    at_idx idx = Some x → l ≡ₚ x :: l' → (idx = 1 → Forall (ord x) l) →
    spec_step ord at_idx l (QRemove idx) (Some x) l'
| spec_replace l idx e x l' l0 :
    at_idx idx = Some x → l ≡ₚ x :: l0 → l' ≡ₚ e :: l0 →
    spec_step ord at_idx l (QReplace idx e) None l'
| spec_fix l new l' : l' ≡ₚ new → spec_step ord at_idx l (QFix new) None l'.

Record queue_inv (q : QUEUE) : Prop := {
  inv_wf : queue_wf q;
  inv_heap : heap q;
  inv_nodup : NoDup (contents q);
  inv_pos : positions_ok q;
}.

Lemma queue_replace_exec q idx e :
  queue_inv q → 1 ≤ idx ≤ elements q → e ∉ contents q →
  ∃ x q', queue_replace (set_root q (<[idx:=e]> (root q))) idx = Some q' ∧
    queue_inv q' ∧ root q !! idx = Some x ∧ e :: contents q ≡ₚ x :: contents q'.
Proof.
  intros [Hwf Hh Hnd Hp] Hi He. assert (Hlen := wf_len _ Hwf).
  assert (Hcnt := wf_cnt _ Hwf).
  destruct (root_lookup_some q idx Hwf) as [x Hx]; [lia|].
  set (q1 := set_root q (<[idx:=e]> (root q))).
  assert (Hwf1 : queue_wf q1).
  { split; simpl; [by rewrite length_insert|lia|apply Hwf]. }
  assert (Hget : ∀ i, i ≠ idx → root q1 !! i = root q !! i).
  { intros i ?. simpl. by rewrite list_lookup_insert_ne. }
  assert (He1 : root q1 !! idx = Some e) by (simpl; apply list_lookup_insert_eq; lia).
  destruct (heap_hole q q1 1 idx) as [H1 H2]; try done.
  destruct (queue_replace_spec q1 e idx) as (q' & Heq & Hsf & Hh' & Hc & Hpos);
    try done; [apply H2; lia|].
  assert (Hc1 : contents q1 = <[idx - 1:=e]> (contents q)).
  { unfold contents; simpl. rewrite drop_insert_ge, take_insert_lt by lia. done. }
  assert (Hperm : e :: contents q ≡ₚ x :: contents q').
  { rewrite Hc, Hc1. symmetry. apply insert_trade. by rewrite contents_lookup. }
  assert (Hnd' : NoDup (x :: contents q')).
  { rewrite <-Hperm. by constructor. }
  exists x, q'. split_and!; try done. split; [by apply (wf_frame q1)|done| |].
  - by inversion Hnd'.
  - apply Hpos. split.
    + rewrite list_insert_id by (by rewrite contents_lookup). rewrite <-Hc.
      by inversion Hnd'.
    + intros Ho i y Hin Hni Hy. rewrite Hget in Hy by done. by apply Hp.
Qed.

Lemma change_root q l : queue_wf q → length l = elements q → contents (change q l) = l.
Proof.
  intros Hwf Hl. pose proof (wf_len _ Hwf). unfold contents. simpl.
  rewrite drop_app_length' by (rewrite length_take; lia). by rewrite take_app_length'.
Qed.

Lemma change_positions q l : queue_wf q → length l = elements q → NoDup l → positions_ok (change q l).
Proof.
  intros Hwf Hl Hnd Ho i x Hi Hx. rewrite <-contents_lookup, change_root in Hx by done.
  simpl. apply lookup_union_Some_l, elem_of_list_to_map_1.
  - rewrite fmap_imap. replace (imap _ l) with l; [done|]. apply list_eq. intros j. rewrite list_lookup_imap. by destruct (l !! j).
  - apply list_elem_of_lookup. exists (i - 1). rewrite list_lookup_imap, Hx. simpl. do 2 f_equal. lia.
Qed.

Lemma queue_fix_exec q l :
  queue_wf q → length l = elements q → NoDup l →
  ∃ q', queue_fix (change q l) = Some q' ∧ queue_inv q' ∧ contents q' ≡ₚ l.
Proof.
  intros Hwf Hl Hnd. pose proof (wf_len _ Hwf). pose proof (wf_cnt _ Hwf).
  destruct (queue_fix_correct (change q l)) as (q' & Heq & Hwf' & Hh & Hc & Hp).
  - split; simpl; [rewrite !length_app, length_take, length_drop; lia|done|apply Hwf].
  - rewrite change_root in Hc, Hp by done. exists q'. split_and!; [done| |done].
    split; [done..|by rewrite Hc|]. apply Hp; [done|]. by apply change_positions.
Qed.

(** C11. From a heap of distinct elements with the recorded positions right, an
    insertion, a removal at any index, the replacement of an element and the
    repair of the heap by [queue_fix] after a change of all its elements return
    without leaving the array, keep that invariant, return the element at the
    index, and change the bag of elements as an abstract queue does; the element
    removed from the top is before all others. *)
Theorem queue_step_refines q op :
  queue_inv q → guard q op →
  ∃ out q', exec q op = Some (out, q') ∧ queue_inv q' ∧
    spec_step (le q) (λ i, root q !! i) (contents q) op out (contents q').
Proof.
  intros Hinv Hg. pose proof Hinv as [Hwf Hh Hnd Hp].
  destruct op as [e|idx|idx e|l]; simpl in *.
  - destruct Hg as [Hn He].
    destruct (queue_insert_spec q e) as (q' & Heq & ? & ? & _ & Hc & Hpos); [done..|].
    assert (Hnd' : NoDup (e :: contents q)) by (by constructor).
    exists None, q'. rewrite Heq. split_and!; [done| |by constructor].
    split; try done; [by rewrite Hc|by apply Hpos].
  - destruct (queue_remove_spec q idx)
      as (x & q' & Heq & Hx & ? & ? & _ & Hc & Hpos & _); [done..|].
    rewrite Heq. exists (Some x), q'. split_and!; [done| |].
    + split; try done; [|by apply Hpos]. rewrite Hc in Hnd. by inversion Hnd.
    + econstructor; [done|done|]. intros ->. by apply heap_top_forall.
  - destruct Hg as [Hi He].
    destruct (queue_replace_exec q idx e) as (x & q' & Heq & Hq' & Hx & Hc); [done..|].
    exists None, q'. rewrite Heq. split_and!; [done|done|].
    assert (∃ l0, contents q ≡ₚ x :: l0 ∧ contents q' ≡ₚ e :: l0) as (l0 & ? & ?).
    { assert (Hin : x ∈ contents q).
      { apply (list_elem_of_lookup_2 _ (idx - 1)). by rewrite contents_lookup. }
      apply elem_of_Permutation in Hin as [l0 Hl0]. exists l0. split; [done|].
      rewrite Hl0 in Hc. apply (Permutation_cons_inv (a := x)). rewrite <-Hc.
      by constructor. }
    by econstructor.
  - destruct Hg as [Hl Hnd']. destruct (queue_fix_exec q l) as (q' & Heq & Hq' & Hc); [done..|].
    exists None, q'. rewrite Heq. split_and!; [done|done|by constructor].
Qed.

End Order.

End Queues.

(** ** Concrete instances *)

Definition small_queue : QUEUE (Elt := Z) :=
  mkQUEUE [0; 1; 3; 2; 0]%Z 3 4 1 2 1 {[1%Z := 1; 3%Z := 2; 2%Z := 3]}.

Definition zrealloc (l : list Z) (n : nat) : option (list Z) :=
  Some (take n l ++ replicate (n - length l) 0%Z).

Lemma small_queue_wf : queue_wf small_queue.
Proof. split; simpl; [done|lia|by left]. Qed.

Lemma small_queue_heap : heap Zcmp small_queue.
Proof.
  intros i x y Hi Hk Hx Hy. simpl in Hi.
  destruct i as [|[|[|[|i]]]]; simpl in Hy; simplify_eq;
    try (vm_compute in Hk; lia); vm_compute in Hx; simplify_eq;
    vm_compute; discriminate.
Qed.

Lemma small_queue_inv : queue_inv Zcmp small_queue.
Proof.
  split; [apply small_queue_wf|apply small_queue_heap|..].
  - vm_compute. repeat constructor; set_solver.
  - intros _ i x Hi Hx. simpl in Hi.
    destruct i as [|[|[|[|i]]]]; simpl in Hx; simplify_eq; try lia;
      vm_compute; reflexivity.
Qed.

Lemma zrealloc_contract : realloc_contract zrealloc.
Proof.
  intros l n l' [= <-]. split.
  - rewrite length_app, length_take, length_replicate. lia.
  - intros i Hi Hn. rewrite lookup_app_l by (rewrite length_take; lia).
    by rewrite lookup_take_lt.
Qed.

Lemma queue_step_refines_witness :
  ∃ out q', exec Zcmp small_queue (QRemove 1) = Some (out, q') ∧ queue_inv Zcmp q' ∧
    spec_step (le Zcmp small_queue) (λ i, root small_queue !! i) (contents small_queue)
      (QRemove 1) out (contents q').
Proof.
  apply (queue_step_refines Zcmp small_queue (QRemove 1)).
  - apply small_queue_inv.
  - simpl. lia.
Defined.

Lemma drain_sorted_witness :
  ∃ xs, drain Zcmp (elements small_queue) small_queue = Some xs ∧
    xs ≡ₚ contents small_queue ∧ StronglySorted (le Zcmp small_queue) xs.
Proof.
  apply (drain_sorted Zcmp small_queue);
    [apply small_queue_wf|apply small_queue_heap].
Defined.

Lemma queue_insert_safe_correct_witness :
  ∃ r q', queue_insert_safe Zcmp zrealloc small_queue 9%Z = Some (r, q') ∧
    ((r = 0%Z ∧ queue_wf q' ∧ heap Zcmp q' ∧
      contents q' ≡ₚ 9%Z :: contents small_queue) ∨
     (r = 1%Z ∧ q' = small_queue ∧ elements small_queue = max_elements small_queue ∧
      zrealloc (root small_queue)
        (max_elements small_queue + auto_extent small_queue + 1) = None) ∨
     (r = 2%Z ∧ q' = small_queue ∧ elements small_queue = max_elements small_queue ∧
      auto_extent small_queue = 0)).
Proof.
  apply (queue_insert_safe_correct Zcmp zrealloc small_queue 9%Z).
  - apply zrealloc_contract.
  - apply small_queue_wf.
  - apply small_queue_heap.
  - vm_compute. reflexivity.
Defined.

(** A queue whose elements are in no order. *)
Definition messy_queue : QUEUE (Elt := Z) :=
  mkQUEUE [0; 7; 3; 2; 5]%Z 4 4 1 2 1 {[7%Z := 1; 3%Z := 2; 2%Z := 3; 5%Z := 4]}.

Lemma queue_fix_correct_witness :
  ∃ q', queue_fix Zcmp messy_queue = Some q' ∧ heap Zcmp q'.
Proof.
  destruct (queue_fix_correct Zcmp messy_queue) as (q' & H & _ & Hh & _).
  - split; simpl; [done|lia|by left].
  - exists q'. split; [exact H|exact Hh].
Defined.
