(* ===== verification/Tree.v ===== *)
(** * Balanced binary trees ([mysys/tree.c], [include/my_tree.h])

    A [TREE] is a red-black tree whose operations walk down from the root and
    record, in the array [parents] of [MAX_TREE_HEIGHT] slots, the addresses of
    the links they followed.  Here the recorded addresses are a list of
    [frame]s, innermost first: the frame of an element holds its key, counter
    and colour, the side of the link that was followed and the subtree on the
    other side.  [plug] rebuilds the tree that the C code has in memory.

    [None] stands for undefined behaviour (a write past [parents], a rotation
    around the shared [null_element], reading a child of [null_element]), so
    [Some] in a theorem excludes it.  The comparison and free callbacks and the
    success of the allocator are parameters. *)

From stdpp Require Import sorting.
From S2P Require Import Prelude MyBit.

(** ** Data *)

Inductive colour := RED | BLACK.

#[export] Instance colour_eq_dec : EqDecision colour.
Proof. solve_decision. Defined.

Inductive dir := DLeft | DRight.

Section Tree.
Context {Key : Type}.

Inductive TREE_ELEMENT :=
| null_element
| element (left : TREE_ELEMENT) (key : Key) (count : Z) (col : colour)
          (right : TREE_ELEMENT).

Record frame := mkFrame {
  f_dir : dir;
  f_key : Key;
  f_count : Z;
  f_colour : colour;
  f_other : TREE_ELEMENT;
}.

Abbreviation path := (list frame).

(** The element of a frame, with [t] below the link that was followed. *)
Definition fill (f : frame) (t : TREE_ELEMENT) : TREE_ELEMENT :=
  match f_dir f with
  | DLeft => element t (f_key f) (f_count f) (f_colour f) (f_other f)
  | DRight => element (f_other f) (f_key f) (f_count f) (f_colour f) t
  end.

Fixpoint plug (t : TREE_ELEMENT) (p : path) : TREE_ELEMENT :=
  match p with
  | [] => t
  | f :: p => plug (fill f t) p
  end.

Definition colour_of (t : TREE_ELEMENT) : colour :=
  match t with null_element => BLACK | element _ _ _ c _ => c end.

(** [t->colour= c]; the colour of [null_element] is only ever set to BLACK. *)
Definition set_colour (c : colour) (t : TREE_ELEMENT) : TREE_ELEMENT :=
  match t with
  | null_element => null_element
  | element l k n _ r => element l k n c r
  end.

Definition MAX_TREE_HEIGHT : nat := 64.

(** [*++parent= ...]: one more slot of [tree->parents] is used. *)
Definition push (f : frame) (p : path) : option path :=
  if decide (length p + 1 < MAX_TREE_HEIGHT) then Some (f :: p) else None.

(** ** Rotations *)

Definition left_rotate (leaf : TREE_ELEMENT) : option TREE_ELEMENT :=
  match leaf with
  | element l k n c (element yl yk yn yc yr) =>
      Some (element (element l k n c yl) yk yn yc yr)
  | _ => None
  end.

Definition right_rotate (leaf : TREE_ELEMENT) : option TREE_ELEMENT :=
  match leaf with
  | element (element xl xk xn xc xr) k n c r =>
      Some (element xl xk xn xc (element xr k n c r))
  | _ => None
  end.

(** ** Rebalancing after an insertion *)

(** The loop of [rb_insert]: [leaf] is the element below the path [p], whose
    first two frames are [par] and [par2].  The result is the tree at the
    root, before [tree->root->colour=BLACK]. *)
Fixpoint rb_insert_loop (leaf : TREE_ELEMENT) (p : path) : option TREE_ELEMENT :=
  match p with
  | [] => Some leaf
  | par :: p1 =>
      if decide (f_colour par = BLACK) then Some (plug leaf p)
      else
        match p1 with
        | [] => None
        | par2 :: p2 =>
            let y := f_other par2 in
            if decide (colour_of y = RED) then
              let par' := set_colour BLACK (fill par leaf) in
              let y' := set_colour BLACK y in
              let par2' := mkFrame (f_dir par2) (f_key par2) (f_count par2) RED y' in
              rb_insert_loop (fill par2' par') p2
            else
              match f_dir par2 with
              | DLeft =>
                  par' ← match f_dir par with
                         | DRight => left_rotate (fill par leaf)
                         | DLeft => Some (fill par leaf)
                         end;
                  let par2' := mkFrame DLeft (f_key par2) (f_count par2) RED y in
                  t ← right_rotate (fill par2' (set_colour BLACK par'));
                  Some (plug t p2)
              | DRight =>
                  par' ← match f_dir par with
                         | DLeft => right_rotate (fill par leaf)
                         | DRight => Some (fill par leaf)
                         end;
                  let par2' := mkFrame DRight (f_key par2) (f_count par2) RED y in
                  t ← left_rotate (fill par2' (set_colour BLACK par'));
                  Some (plug t p2)
              end
        end
  end.

Definition rb_insert (leaf : TREE_ELEMENT) (p : path) : option TREE_ELEMENT :=
  set_colour BLACK <$> rb_insert_loop (set_colour RED leaf) p.

(** ** Rebalancing after a deletion *)

(** The part of [rb_delete_fixup] after the red-sibling case, for a left child:
    [w] is the sibling, [par] the frame above [x]. [inl] continues the loop at
    the parent, [inr] is the tree at the root after [break]. *)
Definition fixup_left (x : TREE_ELEMENT) (par : frame) (p : path) :
    option (TREE_ELEMENT + TREE_ELEMENT) :=
  match f_other par with
  | null_element => None
  | element wl wk wn wc wr =>
      let w := element wl wk wn wc wr in
      if decide (colour_of wl = BLACK ∧ colour_of wr = BLACK) then
        let par' := mkFrame DLeft (f_key par) (f_count par) (f_colour par)
                            (set_colour RED w) in
        Some (inl (fill par' x))
      else
        w' ← (if decide (colour_of wr = BLACK) then
                right_rotate (element (set_colour BLACK wl) wk wn RED wr)
              else Some w);
        match w' with
        | null_element => None
        | element wl' wk' wn' _ wr' =>
            let w'' := element wl' wk' wn' (f_colour par) (set_colour BLACK wr') in
            t ← left_rotate (element x (f_key par) (f_count par) BLACK w'');
            Some (inr (plug t p))
        end
  end.

(** The mirror image, for a right child. *)
Definition fixup_right (x : TREE_ELEMENT) (par : frame) (p : path) :
    option (TREE_ELEMENT + TREE_ELEMENT) :=
  match f_other par with
  | null_element => None
  | element wl wk wn wc wr =>
      let w := element wl wk wn wc wr in
      if decide (colour_of wr = BLACK ∧ colour_of wl = BLACK) then
        let par' := mkFrame DRight (f_key par) (f_count par) (f_colour par)
                            (set_colour RED w) in
        Some (inl (fill par' x))
      else
        w' ← (if decide (colour_of wl = BLACK) then
                left_rotate (element wl wk wn RED (set_colour BLACK wr))
              else Some w);
        match w' with
        | null_element => None
        | element wl' wk' wn' _ wr' =>
            let w'' := element (set_colour BLACK wl') wk' wn' (f_colour par) wr' in
            t ← right_rotate (element w'' (f_key par) (f_count par) BLACK x);
            Some (inr (plug t p))
        end
  end.

(** The red-sibling case: [w] becomes black and moves above [par], which
    becomes red; one more slot of [parents] is used. *)
Definition fixup_red (par : frame) (p : path) : option (frame * path) :=
  match f_other par with
  | element wl wk wn RED wr =>
      match f_dir par with
      | DLeft =>
          let w' := mkFrame DLeft wk wn BLACK wr in
          let par' := mkFrame DLeft (f_key par) (f_count par) RED wl in
          _ ← push par' (w' :: p);
          Some (par', w' :: p)
      | DRight =>
          let w' := mkFrame DRight wk wn BLACK wl in
          let par' := mkFrame DRight (f_key par) (f_count par) RED wr in
          _ ← push par' (w' :: p);
          Some (par', w' :: p)
      end
  | _ => Some (par, p)
  end.

(** The loop of [rb_delete_fixup] and the final [x->colour=BLACK].  The test
    [x == par->left] compares addresses; two distinct links hold the same
    address only when both hold [null_element]. *)
Fixpoint rb_delete_fixup (fuel : nat) (x : TREE_ELEMENT) (p : path) :
    option TREE_ELEMENT :=
  match fuel with
  | O => None
  | S fuel =>
      match p with
      | [] => Some (set_colour BLACK x)
      | par :: p1 =>
          if decide (colour_of x = RED) then Some (plug (set_colour BLACK x) p)
          else
            match x, f_dir par, f_other par with
            | null_element, DRight, null_element => None
            | _, _, _ =>
                '(par', p') ← fixup_red par p1;
                r ← (match f_dir par with
                     | DLeft => fixup_left x par' p'
                     | DRight => fixup_right x par' p'
                     end);
                match r with
                | inl x' => rb_delete_fixup fuel x' p'
                | inr t => Some (set_colour BLACK t)
                end
            end
      end
  end.

(** The debug check of the balance; [None] is its result -1. *)
Fixpoint test_rb_tree (t : TREE_ELEMENT) : option nat :=
  match t with
  | null_element => Some 0
  | element l _ _ c r =>
      if decide (c = RED ∧ (colour_of l = RED ∨ colour_of r = RED)) then None
      else
        match test_rb_tree l, test_rb_tree r with
        | Some count_l, Some count_r =>
            if decide (count_l = count_r) then
              Some (count_l + (if decide (c = BLACK) then 1 else 0))
            else None
        | _, _ => None
        end
  end.

(** ** The tree object *)

(** [free_init], [free_free] and [free_end] calls of [tree->free]. *)
Inductive free_call := FreeInit | FreeElement (k : Key) | FreeEnd.

Record TREE := mkTREE {
  root : TREE_ELEMENT;
  elements_in_tree : Z;
  size_of_element : Z;
  memory_limit : Z;
  allocated : Z;
  with_delete : bool;
  flag : Z;
  has_free : bool;
}.

Definition set_root (t : TREE) (r : TREE_ELEMENT) (n : Z) (a : Z) : TREE :=
  mkTREE r n (size_of_element t) (memory_limit t) a (with_delete t) (flag t)
         (has_free t).

Definition sizeof_pointer : Z := 8.
(** [sizeof(TREE_ELEMENT)] on a 64-bit machine. *)
Definition sizeof_TREE_ELEMENT : Z := 24.
Definition MY_TREE_WITH_DELETE : Z := 2 ^ 18.

(** The fields [init_tree] sets; the block size of [mem_root] is left out, it
    has no effect on them.  [size] is an [int], its [(uint)] cast is exact
    where it is not negative. *)
Definition init_tree (memory_limit size : Z) (free_element : bool) (my_flags : Z) :
    TREE :=
  let size_of_element := (if 0 <? size then size else 0)%Z in
  let inline_key := negb free_element && (0 <=? size)%Z &&
    ((size <=? sizeof_pointer)%Z || negb (Z.land size (sizeof_pointer - 1) =? 0)%Z) in
  mkTREE null_element 0
    (if inline_key then size_of_element else (size_of_element + sizeof_pointer)%Z)
    memory_limit 0 (negb (Z.land my_flags MY_TREE_WITH_DELETE =? 0)%Z) 0 free_element.

Section Ops.
Context (compare : Key → Key → Z).
(** The result of the [tree->free] callback called with [free_free]. *)
Context (free_result : Key → Z).

(** The errors of [delete_tree_element] and the free calls it makes. *)
Fixpoint delete_tree_element (free : bool) (t : TREE_ELEMENT) (abort : bool) :
    Z * list free_call :=
  match t with
  | null_element => (0%Z, [])
  | element l k _ _ r =>
      let '(e1, tr1) := delete_tree_element free l abort in
      let abort1 := abort || negb (e1 =? 0)%Z in
      let '(e2, tr2) :=
        if negb abort1 && free then (free_result k, [FreeElement k]) else (0%Z, []) in
      let first := (if e1 =? 0 then e2 else e1)%Z in
      let abort2 := abort1 || negb (e2 =? 0)%Z in
      let '(e3, tr3) := delete_tree_element free r abort2 in
      ((if first =? 0 then e3 else first)%Z, tr1 ++ tr2 ++ tr3)
  end.

(** [is_tree_inited] is the test [tree->root != 0] of a tree that may never have been
    initialised. *)
Definition free_tree (is_tree_inited : bool) (t : TREE) (abort : bool) : Z * list free_call * TREE :=
  let '(err, tr) :=
    if negb is_tree_inited then (0%Z, [])
    else if with_delete t then delete_tree_element (has_free t) (root t) abort
    else if has_free t then
      let '(e, tr) := delete_tree_element true (root t) abort in
      if (memory_limit t =? 0)%Z then (e, tr)
      else (e, FreeInit :: tr ++ [FreeEnd])
    else (0%Z, []) in
  (err, tr, set_root t null_element 0 0).

Definition delete_tree (is_tree_inited : bool) (t : TREE) (abort : bool) : Z * list free_call * TREE :=
  free_tree is_tree_inited t abort.

Definition reset_tree (is_tree_inited : bool) (t : TREE) : Z * list free_call * TREE :=
  free_tree is_tree_inited t false.

(** The search loop shared by [tree_insert] and [tree_delete]: the element
    found, or [null_element], and the links followed. *)
Fixpoint descend (t : TREE_ELEMENT) (key : Key) (p : path) :
    option (TREE_ELEMENT * path) :=
  match t with
  | null_element => Some (null_element, p)
  | element l k n c r =>
      let cmp := compare k key in
      if (cmp =? 0)%Z then Some (t, p)
      else if (cmp <? 0)%Z then
        p' ← push (mkFrame DRight k n c l) p;
        descend r key p'
      else
        p' ← push (mkFrame DLeft k n c r) p;
        descend l key p'
  end.

Inductive insert_result :=
| InsertNull                (* NULL: no memory, or a duplicate and TREE_NO_DUPS *)
| InsertUnique              (* TREE_ELEMENT_UNIQUE *)
| InsertElement (k : Key).  (* the element, new or old, that holds the key *)

Definition TREE_NO_DUPS : Z := 1.
Definition TREE_ONLY_DUPS : Z := 2.

(** [element->count++] on the 31-bit field, undone when it wraps to zero. *)
Definition bump_count (n : Z) : Z :=
  let n' := ((n + 1) mod 2 ^ 31)%Z in
  if (n' =? 0)%Z then ((n' - 1) mod 2 ^ 31)%Z else n'.

(** [alloc] says whether the allocator has memory. [alloc_size] is a [uint],
    [allocated] a [size_t] and [elements_in_tree] a [uint].  The recursive call after
    [reset_tree] finds an empty tree, so two levels are enough. *)
Fixpoint tree_insert (fuel : nat) (alloc : bool) (t : TREE) (key : Key)
    (key_size : Z) : option (insert_result * list free_call * TREE) :=
  match fuel with
  | O => None
  | S fuel =>
      '(e, p) ← descend (root t) key [];
      match e with
      | null_element =>
          if (Z.land (flag t) TREE_ONLY_DUPS =? 0)%Z then
            let alloc_size :=
              u32 (sizeof_TREE_ELEMENT + key_size + size_of_element t) in
            let a := u64 (allocated t + alloc_size) in
            if negb (memory_limit t =? 0)%Z && negb (elements_in_tree t =? 0)%Z
               && (a >? memory_limit t)%Z then
              let '(_, tr, t1) :=
                reset_tree true (set_root t (root t) (elements_in_tree t) a) in
              '(res, tr', t') ← tree_insert fuel alloc t1 key key_size;
              Some (res, tr ++ tr', t')
            else if alloc then
              r ← rb_insert (element null_element key 1 RED null_element) p;
              Some (InsertElement key, [],
                    set_root t r (u32 (elements_in_tree t + 1)) a)
            else
              Some (InsertNull, [], set_root t (root t) (elements_in_tree t) a)
          else Some (InsertUnique, [], t)
      | element l k n c r =>
          if (Z.land (flag t) TREE_NO_DUPS =? 0)%Z then
            Some (InsertElement k, [],
                  set_root t (plug (element l k (bump_count n) c r) p)
                           (elements_in_tree t) (allocated t))
          else Some (InsertNull, [], t)
      end
  end.

(** The walk to the leftmost element below the right child, which takes the
    place of a deleted element with two children. *)
Fixpoint leftmost (l : TREE_ELEMENT) (k : Key) (n : Z) (c : colour)
    (r : TREE_ELEMENT) (p : path) : option (Key * Z * colour * TREE_ELEMENT * path) :=
  match l with
  | null_element => Some (k, n, c, r, p)
  | element ll lk ln lc lr =>
      p' ← push (mkFrame DLeft k n c r) p;
      leftmost ll lk ln lc lr p'
  end.

(** The links of [tree_delete] and the rebalancing: the element found is
    [element l k n c r], below the path [p]. *)
Definition delete_links (l : TREE_ELEMENT) (k : Key) (n : Z) (c : colour)
    (r : TREE_ELEMENT) (p : path) : option TREE_ELEMENT :=
  match l, r with
  | null_element, _ =>
      if decide (c = BLACK) then rb_delete_fixup (length p + 2) r p
      else Some (plug r p)
  | _, null_element =>
      if decide (c = BLACK) then rb_delete_fixup (length p + 2) l p
      else Some (plug l p)
  | _, element rl rk rn rc rr =>
      p' ← push (mkFrame DRight k n c l) p;
      '(nk, nn, nc, nr, q) ← leftmost rl rk rn rc rr p';
      let inner := take (length q - length p') q in
      let q' := inner ++ mkFrame DRight nk nn c l :: p in
      if decide (nc = BLACK) then rb_delete_fixup (length q' + 2) nr q'
      else Some (plug nr q')
  end.

Definition tree_delete (t : TREE) (key : Key) (key_size : Z) :
    option (Z * list free_call * TREE) :=
  if with_delete t then
    '(e, p) ← descend (root t) key [];
    match e with
    | null_element => Some (1%Z, [], t)
    | element l k n c r =>
        root' ← delete_links l k n c r p;
        Some (0%Z, if has_free t then [FreeElement k] else [],
              set_root t root' (u32 (elements_in_tree t - 1))
                (u64 (allocated t - (sizeof_TREE_ELEMENT + size_of_element t + key_size))))
    end
  else Some (1%Z, [], t).

Fixpoint search_loop (t : TREE_ELEMENT) (key : Key) : option Key :=
  match t with
  | null_element => None
  | element l k _ _ r =>
      let cmp := compare k key in
      if (cmp =? 0)%Z then Some k
      else if (cmp <? 0)%Z then search_loop r key
      else search_loop l key
  end.

Definition tree_search (t : TREE) (key : Key) : option Key :=
  search_loop (root t) key.

(** ** Index scans

    A position [**last_pos] with the array of parents below it is an element
    and the frames above it. *)
Inductive ha_rkey_function :=
| HA_READ_KEY_EXACT | HA_READ_KEY_OR_NEXT | HA_READ_KEY_OR_PREV
| HA_READ_AFTER_KEY | HA_READ_BEFORE_KEY | HA_READ_PREFIX
| HA_READ_PREFIX_LAST | HA_READ_PREFIX_LAST_OR_PREV
| HA_READ_MBR_CONTAIN | HA_READ_MBR_INTERSECT | HA_READ_MBR_WITHIN
| HA_READ_MBR_DISJOINT | HA_READ_MBR_EQUAL.
#[global] Instance ha_rkey_function_eq_dec : EqDecision ha_rkey_function.
Proof. solve_decision. Defined.

Abbreviation position := (TREE_ELEMENT * path)%type.

Definition key_of (pos : option position) : option Key :=
  match pos with
  | Some (element _ k _ _ _, _) => Some k
  | _ => None
  end.

(** What the [switch] in the loop does with an equal key: the value [cmp]
    gets, and whether the element is remembered; [None] is [return NULL]. *)
Definition on_equal (f : ha_rkey_function) : option (Z * bool) :=
  match f with
  | HA_READ_KEY_EXACT | HA_READ_KEY_OR_NEXT | HA_READ_BEFORE_KEY
  | HA_READ_KEY_OR_PREV => Some (1%Z, true)
  | HA_READ_AFTER_KEY => Some ((-1)%Z, false)
  | HA_READ_PREFIX_LAST | HA_READ_PREFIX_LAST_OR_PREV => Some ((-1)%Z, true)
  | _ => None
  end.

(** The loop of [tree_search_key]: [last_equal_element],
    [last_left_step_parent] and [last_right_step_parent] at its end. *)
Fixpoint search_key_loop (f : ha_rkey_function) (t : TREE_ELEMENT) (key : Key)
    (p : path) (eq lft rgt : option position) :
    option (option position * option position * option position) :=
  match t with
  | null_element => Some (eq, lft, rgt)
  | element l k n c r =>
      let cmp := compare k key in
      '(cmp', eq') ← (if (cmp =? 0)%Z then
                        '(v, remember) ← on_equal f;
                        Some (v, if (remember : bool) then Some (t, p) else eq)
                      else Some (cmp, eq));
      if (cmp' <? 0)%Z then
        search_key_loop f r key (mkFrame DRight k n c l :: p) eq' lft (Some (t, p))
      else
        search_key_loop f l key (mkFrame DLeft k n c r :: p) eq' (Some (t, p)) rgt
  end.

Definition or_else {A} (a b : option A) : option A :=
  match a with Some _ => a | None => b end.

Definition tree_search_key (t : TREE) (key : Key) (f : ha_rkey_function) :
    option position :=
  match search_key_loop f (root t) key [] None None None with
  | None => None
  | Some (eq, lft, rgt) =>
      match f with
      | HA_READ_KEY_EXACT | HA_READ_PREFIX_LAST => eq
      | HA_READ_KEY_OR_NEXT => or_else eq lft
      | HA_READ_AFTER_KEY => lft
      | HA_READ_PREFIX_LAST_OR_PREV => or_else eq rgt
      | HA_READ_BEFORE_KEY => rgt
      | HA_READ_KEY_OR_PREV => or_else eq rgt
      | _ => None
      end
  end.

Definition child (d : dir) (t : TREE_ELEMENT) : TREE_ELEMENT :=
  match t, d with
  | null_element, _ => null_element
  | element l _ _ _ _, DLeft => l
  | element _ _ _ _ r, DRight => r
  end.

(** The frame left behind when the [d] child of an element is entered. *)
Definition frame_of (d : dir) (t : TREE_ELEMENT) : option frame :=
  match t, d with
  | null_element, _ => None
  | element l k n c r, DLeft => Some (mkFrame DLeft k n c r)
  | element l k n c r, DRight => Some (mkFrame DRight k n c l)
  end.

(** The while loop of [tree_search_edge], which [tree_search_next] repeats. *)
Fixpoint edge_loop (d : dir) (t : TREE_ELEMENT) (p : path) : position :=
  match t with
  | null_element => (null_element, p)
  | element l k n c r =>
      match d with
      | DLeft =>
          match l with
          | null_element => (t, p)
          | _ => edge_loop d l (mkFrame DLeft k n c r :: p)
          end
      | DRight =>
          match r with
          | null_element => (t, p)
          | _ => edge_loop d r (mkFrame DRight k n c l :: p)
          end
      end
  end.

Definition tree_search_edge (t : TREE) (d : dir) : position :=
  edge_loop d (root t) [].

(** The loop that climbs while [x] is its parent's child on the side [d]. *)
Fixpoint climb (d : dir) (x : TREE_ELEMENT) (p : path) : position :=
  match p with
  | [] => (null_element, [])
  | f :: p' =>
      match f_dir f, d with
      | DLeft, DLeft | DRight, DRight => climb d (fill f x) p'
      | _, _ => (fill f x, p')
      end
  end.

Definition tree_search_next (pos : position) (l_offs r_offs : dir) : position :=
  let '(x, p) := pos in
  match frame_of r_offs x with
  | None => pos
  | Some f =>
      match child r_offs x with
      | null_element => climb r_offs x p
      | c => edge_loop l_offs c (f :: p)
      end
  end.

Section Walk.
Context {S : Type} (action : Key → Z → S → Z * S).

Fixpoint tree_walk_left_root_right (t : TREE_ELEMENT) (s : S) : Z * S :=
  match t with
  | null_element => (0%Z, s)
  | element l k n _ r =>
      let '(e1, s1) := tree_walk_left_root_right l s in
      if (e1 =? 0)%Z then
        let '(e2, s2) := action k n s1 in
        if (e2 =? 0)%Z then tree_walk_left_root_right r s2 else (e2, s2)
      else (e1, s1)
  end.

Fixpoint tree_walk_right_root_left (t : TREE_ELEMENT) (s : S) : Z * S :=
  match t with
  | null_element => (0%Z, s)
  | element l k n _ r =>
      let '(e1, s1) := tree_walk_right_root_left r s in
      if (e1 =? 0)%Z then
        let '(e2, s2) := action k n s1 in
        if (e2 =? 0)%Z then tree_walk_right_root_left l s2 else (e2, s2)
      else (e1, s1)
  end.

Inductive TREE_WALK := left_root_right | right_root_left.

Definition tree_walk (t : TREE) (visit : TREE_WALK) (s : S) : Z * S :=
  match visit with
  | left_root_right => tree_walk_left_root_right (root t) s
  | right_root_left => tree_walk_right_root_left (root t) s
  end.
End Walk.

End Ops.

End Tree.
