(* ===== verification/TreeFacts.v ===== *)
(** * Correctness of [mysys/tree.c]

    The balance invariant, the in-order contents and the refinement of
    [tree_insert], [tree_delete], [tree_search], the index scans and the walks
    to sorted association lists. *)

From stdpp Require Import sorting.
From S2P Require Import Prelude MyBit Tree.

Section Balance.
Context {Key : Type}.
Implicit Types (t l r x w leaf : @TREE_ELEMENT Key) (p q : list (@frame Key)).

(** ** The red-black invariant, with the number of black elements per path *)

Inductive is_rb : TREE_ELEMENT → nat → Prop :=
| rb_null : is_rb null_element 0
| rb_red l (k : Key) c r n :
    is_rb l n → is_rb r n → colour_of l = BLACK → colour_of r = BLACK →
    is_rb (element l k c RED r) n
| rb_black l (k : Key) c r n :
    is_rb l n → is_rb r n → is_rb (element l k c BLACK r) (S n).

(** The frames above a subtree of black height [n]. *)
Inductive ctx : list (@frame Key) → nat → Prop :=
| ctx_nil n : ctx [] n
| ctx_black f p n :
    f_colour f = BLACK → is_rb (f_other f) n → ctx p (S n) → ctx (f :: p) n
| ctx_red f g p n :
    f_colour f = RED → is_rb (f_other f) n → colour_of (f_other f) = BLACK →
    f_colour g = BLACK → ctx (g :: p) n → ctx (f :: g :: p) n.

(** A red subtree may not be put under a red frame. *)
Definition fits (c : colour) (p : list (@frame Key)) : Prop :=
  c = BLACK ∨ match p with [] => True | f :: _ => f_colour f = BLACK end.

Lemma fill_black f t n :
  f_colour f = BLACK → is_rb (f_other f) n → is_rb t n → is_rb (fill f t) (S n).
Proof. destruct f as [[] k c [] o]; simpl; intros; try done; by constructor. Qed.

Lemma fill_red f t n :
  f_colour f = RED → is_rb (f_other f) n → is_rb t n →
  colour_of (f_other f) = BLACK → colour_of t = BLACK → is_rb (fill f t) n.
Proof. destruct f as [[] k c [] o]; simpl; intros; try done; by constructor. Qed.

Lemma colour_fill f t : colour_of (fill f t) = f_colour f.
Proof. by destruct f as [[] k c col o]. Qed.

Lemma ctx_plug p : ∀ n t,
  ctx p n → is_rb t n → fits (colour_of t) p →
  ∃ m, is_rb (plug t p) m ∧ (colour_of t = BLACK ∨ p ≠ [] → colour_of (plug t p) = BLACK).
Proof.
  induction p as [|f p IH]; intros n t Hc Ht Hf; simpl.
  { exists n. split; [done|]. by intros [|]. }
  inversion Hc; subst.
  - destruct (IH (S n) (fill f t)) as (m & Hm & Hb); [done|by apply fill_black|..].
    { left. by rewrite colour_fill. }
    exists m. split; [done|]. intros _. apply Hb. left. by rewrite colour_fill.
  - destruct Hf as [Hf|Hf]; [|congruence].
    destruct (IH n (fill f t)) as (m & Hm & Hb); [done|by apply fill_red|..].
    { right. done. }
    exists m. split; [done|]. intros _. apply Hb. by right.
Qed.

Lemma is_rb_blacken t n :
  is_rb t n → ∃ m, is_rb (set_colour BLACK t) m ∧ n ≤ m.
Proof.
  inversion 1; subst; simpl; eexists; (split; [by constructor|lia]).
Qed.

Lemma colour_blacken t : colour_of (set_colour BLACK t) = BLACK.
Proof. by destruct t. Qed.

(** ** Insertion keeps the balance *)

Lemma rb_insert_loop_balance p : ∀ leaf n,
  ctx p n → is_rb leaf n → colour_of leaf = RED →
  ∃ t m, rb_insert_loop leaf p = Some t ∧ is_rb t m.
Proof.
  induction p as [p IH] using (induction_ltof1 _ length); unfold ltof in IH.
  intros leaf n Hc Hl Hred. destruct p as [|par p1]; simpl; [by eauto|].
  destruct (decide (f_colour par = BLACK)) as [Hb|Hb].
  { destruct (ctx_plug (par :: p1) n leaf Hc Hl) as (m & Hm & _); [by right|].
    simpl in Hm. eauto. }
  inversion Hc as [|?|? par2 p2 ? _ Ho Hob Hg Hc2]; subst; [done|].
  inversion Hc2 as [|? ? ? _ Hy Hc3|]; subst; [|congruence].
  inversion Hl as [|ll lk lc lr ? Hll Hlr Hllb Hlrb|]; subst; [done| |done].
  destruct (decide (colour_of (f_other par2) = RED)) as [Hyr|Hyb].
  - apply (IH p2) with (n := S n); simpl; [lia|done| |].
    + inversion Hy; subst; simplify_eq/=;
        try (rewrite <-H in Hyr; done).
      all: destruct par2 as [[] ? ? ? ?]; simpl in *; subst; simpl;
        destruct par as [[] ? ? [] ?]; simpl in *; try done;
        repeat (constructor; try done).
    + destruct par2 as [[] ? ? ? ?]; done.
  - assert (Hyb' : colour_of (f_other par2) = BLACK)
      by (destruct (colour_of (f_other par2)); done).
    assert (∀ t, is_rb t (S n) → colour_of t = BLACK →
            ∃ t' m, Some (plug t p2) = Some t' ∧ is_rb t' m) as Hfin.
    { intros t Ht Hcol. destruct (ctx_plug p2 (S n) t Hc3 Ht) as (m & Hm & _);
        [by left|]. eauto. }
    destruct par2 as [[] ? ? ? y], par as [[] ? ? [] o]; simpl in *; try done;
      apply Hfin; repeat (constructor; try done).
Qed.

(** ** Deletion keeps the balance *)

(** The subtree [x] whose position expects black height [S n]: short by one,
    or a red element that only has to be blackened. *)
Definition short (x : TREE_ELEMENT) (n : nat) : Prop :=
  (colour_of x = BLACK ∧ is_rb x n) ∨
  (colour_of x = RED ∧ is_rb (set_colour BLACK x) (S n)).

(** A frame above the short subtree once its sibling is black, and the frames
    above it: [m] is the black height expected of the frame's element. *)
Definition fixup_ready (par : frame) (p : list frame) (n m : nat) : Prop :=
  is_rb (f_other par) (S n) ∧ colour_of (f_other par) = BLACK ∧ ctx p m ∧
  ((f_colour par = BLACK ∧ m = S (S n)) ∨
   (f_colour par = RED ∧ m = S n ∧ fits RED p ∧ p ≠ [])).

Lemma fixup_red_ready par p n :
  ctx (par :: p) (S n) → length p + 2 < MAX_TREE_HEIGHT →
  ∃ par' p' m, fixup_red par p = Some (par', p') ∧
    fixup_ready par' p' n m ∧ f_dir par' = f_dir par ∧
    ((par' = par ∧ p' = p) ∨ (f_colour par' = RED ∧ p' ≠ [])).
Proof.
  intros Hc Hlen. unfold fixup_red, push.
  inversion Hc as [|? ? ? Hb Ho Hp|? g ? ? Hr Ho Hob Hg Hp]; subst.
  - destruct (f_other par) as [|wl wk wn [] wr] eqn:Hw.
    + inversion Ho.
    + inversion Ho; subst.
      destruct par as [[] pk pn pc po]; simpl in *; subst;
        (rewrite decide_True by (simpl; lia)); simpl;
        eexists _, _, (S n); (split; [done|]); (split; [|split; [done|right; done]]);
        unfold fixup_ready; simpl; split_and!; try done;
        try (by apply ctx_black); right; split_and!; try done; by right.
    + exists par, p, (S (S n)). split_and!; try done; [|by left].
      unfold fixup_ready. rewrite Hw. split_and!; try done. by left.
  - assert (Heq : match f_other par with
                  | element _ _ _ RED _ => false | _ => true end = true).
    { destruct (f_other par) as [|? ? ? [] ?]; done. }
    exists par, (g :: p0), (S n). split_and!; try done; [| |by left].
    + by destruct (f_other par) as [|? ? ? [] ?].
    + unfold fixup_ready. split_and!; try done. right.
      split_and!; try done. by right.
Qed.

(** What one turn of the loop leaves: a subtree that is still short one level
    up, or a finished tree. *)
Definition turn_done (par : @frame Key) (m : nat)
    (res : @TREE_ELEMENT Key + @TREE_ELEMENT Key) : Prop :=
  match res with
  | inl x' => (∃ n', m = S n' ∧ short x' n') ∧ colour_of x' = f_colour par
  | inr t => ∃ h, is_rb t h
  end.

Lemma fixup_left_balance x par p n m :
  colour_of x = BLACK → is_rb x n → fixup_ready par p n m → f_dir par = DLeft →
  ∃ res, fixup_left x par p = Some res ∧ turn_done par m res.
Proof.
  intros Hxb Hx (Ho & Hob & Hp & Hm) Hd. unfold fixup_left.
  destruct par as [d pk pn pc w]; simpl in *; subst d.
  inversion Ho as [|? ? ? ? ? ? ? ? ?|wl wk wc wr ? Hwl Hwr]; subst; [done|].
  assert (Hfin : ∀ t, is_rb t m → colour_of t = pc → ∃ h, is_rb (plug t p) h).
  { intros t Ht Hc. destruct (ctx_plug p m t) as (h & Hh & _); try done; [|by eauto].
    rewrite Hc. destruct Hm as [[-> _]|(-> & _ & ? & _)]; [by left|done]. }
  case_decide as Hbb.
  - eexists; split; [done|]. simpl. split; [|done]. destruct Hbb as [Hlb Hrb].
    destruct Hm as [[-> ->]|(-> & -> & _)].
    + exists (S n). split; [done|]. left. split; [done|].
      repeat (constructor; try done).
    + exists n. split; [done|]. right. split; [done|].
      repeat (constructor; try done).
  - case_decide as Hrb.
    + inversion Hwl as [|ll lk lc lr ? ? ? Hllb Hlrb|]; subst; simpl in *;
        [tauto| |tauto].
      eexists; split; [done|]. simpl. apply Hfin; [|done].
      destruct Hm as [[-> ->]|(-> & -> & _)]; repeat (constructor; try done).
    + assert (Hrr : colour_of wr = RED) by (by destruct (colour_of wr)).
      inversion Hwr as [|rl rk rc rr ? ? ? Hrlb Hrrb|]; subst; simpl in *;
        [done| |done].
      eexists; split; [done|]. simpl. apply Hfin; [|done].
      destruct Hm as [[-> ->]|(-> & -> & _)]; repeat (constructor; try done).
Qed.

Lemma fixup_right_balance x par p n m :
  colour_of x = BLACK → is_rb x n → fixup_ready par p n m → f_dir par = DRight →
  ∃ res, fixup_right x par p = Some res ∧ turn_done par m res.
Proof.
  intros Hxb Hx (Ho & Hob & Hp & Hm) Hd. unfold fixup_right.
  destruct par as [d pk pn pc w]; simpl in *; subst d.
  inversion Ho as [|? ? ? ? ? ? ? ? ?|wl wk wc wr ? Hwl Hwr]; subst; [done|].
  assert (Hfin : ∀ t, is_rb t m → colour_of t = pc → ∃ h, is_rb (plug t p) h).
  { intros t Ht Hc. destruct (ctx_plug p m t) as (h & Hh & _); try done; [|by eauto].
    rewrite Hc. destruct Hm as [[-> _]|(-> & _ & ? & _)]; [by left|done]. }
  case_decide as Hbb.
  - eexists; split; [done|]. simpl. split; [|done]. destruct Hbb as [Hrb Hlb].
    destruct Hm as [[-> ->]|(-> & -> & _)].
    + exists (S n). split; [done|]. left. split; [done|].
      repeat (constructor; try done).
    + exists n. split; [done|]. right. split; [done|].
      repeat (constructor; try done).
  - case_decide as Hlb.
    + inversion Hwr as [|rl rk rc rr ? ? ? Hrlb Hrrb|]; subst; simpl in *;
        [tauto| |tauto].
      eexists; split; [done|]. simpl. apply Hfin; [|done].
      destruct Hm as [[-> ->]|(-> & -> & _)]; repeat (constructor; try done).
    + assert (Hlr : colour_of wl = RED) by (by destruct (colour_of wl)).
      inversion Hwl as [|ll lk lc lr ? ? ? Hllb Hlrb|]; subst; simpl in *;
        [done| |done].
      eexists; split; [done|]. simpl. apply Hfin; [|done].
      destruct Hm as [[-> ->]|(-> & -> & _)]; repeat (constructor; try done).
Qed.

(** One turn of the loop of [rb_delete_fixup]. *)
Lemma fixup_turn fuel x par p1 par' p' res :
  f_other par ≠ null_element → fixup_red par p1 = Some (par', p') →
  (match f_dir par with DLeft => fixup_left x par' p' | DRight => fixup_right x par' p' end) = Some res →
  match x, f_dir par, f_other par with
  | null_element, DRight, null_element => None
  | _, _, _ =>
      '(par', p') ← fixup_red par p1;
      r ← (match f_dir par with
           | DLeft => fixup_left x par' p'
           | DRight => fixup_right x par' p'
           end);
      match r with
      | inl x' => rb_delete_fixup fuel x' p'
      | inr t => Some (set_colour BLACK t)
      end
  end = match res with
        | inl x' => rb_delete_fixup fuel x' p'
        | inr t => Some (set_colour BLACK t)
        end.
Proof.
  intros Hoth Hred Hres. rewrite Hred. cbn [mbind option_bind].
  destruct x, (f_dir par), (f_other par); try done; rewrite Hres; done.
Qed.

Lemma rb_delete_fixup_balance fuel : ∀ x p n,
  short x n → ctx p (S n) →
  (colour_of x = RED ∧ 1 ≤ fuel ∨
   length p < fuel ∧ length p + 1 < MAX_TREE_HEIGHT) →
  ∃ t m, rb_delete_fixup fuel x p = Some t ∧ is_rb t m ∧ colour_of t = BLACK.
Proof.
  induction fuel as [|fuel IH]; intros x p n Hx Hp Hf; [lia|].
  cbn [rb_delete_fixup]. destruct p as [|par p1].
  { exists (set_colour BLACK x).
    destruct Hx as [[Hb Hx]|[Hr Hx]]; [|by eauto using colour_blacken].
    destruct (is_rb_blacken x n Hx) as (m & ? & _). eauto using colour_blacken. }
  case_decide as Hr.
  { destruct Hx as [[Hb Hx]|[_ Hx]]; [congruence|].
    destruct (ctx_plug (par :: p1) (S n) (set_colour BLACK x)) as (m & Hm & Hc);
      try done; [left; apply colour_blacken|]. exists (plug (set_colour BLACK x) (par :: p1)), m.
    split_and!; try done. apply Hc. by right. }
  destruct Hx as [[Hb Hx]|[Hr' _]]; [|done].
  destruct Hf as [[Hf _]|[Hf Hlen]]; [done|]. simpl in Hf, Hlen.
  destruct (fixup_red_ready par p1 n Hp) as (par' & p' & m & Hred & Hrdy & Hd & Hcase);
    [unfold MAX_TREE_HEIGHT in *; lia|].
  assert (Hoth : f_other par ≠ null_element).
  { intros Hn. inversion Hp; subst; rewrite Hn in *;
      match goal with H : is_rb null_element (S _) |- _ => inversion H end. }
  assert (∃ res, (match f_dir par with
                  | DLeft => fixup_left x par' p'
                  | DRight => fixup_right x par' p'
                  end) = Some res ∧ turn_done par' m res) as (res & Hres & Hdone).
  { destruct (f_dir par) eqn:Hdir.
    - by apply (fixup_left_balance x par' p' n m).
    - by apply (fixup_right_balance x par' p' n m). }
  rewrite (fixup_turn fuel x par p1 par' p' res Hoth Hred Hres). destruct res as [x'|t]; simpl in Hdone.
  - destruct Hdone as ((n' & -> & Hs) & Hcol). apply (IH x' p' n'); [done|apply Hrdy|].
    destruct Hcase as [[-> ->]|[Hcr _]].
    + right. lia.
    + left. split; [congruence|lia].
  - destruct Hdone as [h Hh]. destruct (is_rb_blacken t h Hh) as (m' & ? & _).
    eauto using colour_blacken.
Qed.

(** ** In-order contents *)

Fixpoint inorder (t : TREE_ELEMENT) : list (Key * Z) :=
  match t with
  | null_element => []
  | element l k n _ r => inorder l ++ (k, n) :: inorder r
  end.

Fixpoint before (p : list frame) : list (Key * Z) :=
  match p with
  | [] => []
  | f :: p =>
      before p ++
      match f_dir f with
      | DLeft => []
      | DRight => inorder (f_other f) ++ [(f_key f, f_count f)]
      end
  end.

Fixpoint after (p : list frame) : list (Key * Z) :=
  match p with
  | [] => []
  | f :: p =>
      match f_dir f with
      | DLeft => (f_key f, f_count f) :: inorder (f_other f)
      | DRight => []
      end ++ after p
  end.

Lemma inorder_fill f t :
  inorder (fill f t) =
  match f_dir f with
  | DLeft => inorder t ++ (f_key f, f_count f) :: inorder (f_other f)
  | DRight => inorder (f_other f) ++ (f_key f, f_count f) :: inorder t
  end.
Proof. by destruct f as [[] k n c o]. Qed.

Lemma inorder_plug p : ∀ t, inorder (plug t p) = before p ++ inorder t ++ after p.
Proof.
  induction p as [|f p IH]; intros t; simpl; [by rewrite app_nil_r|].
  rewrite IH, inorder_fill. destruct (f_dir f); simplify_list_eq; done.
Qed.

Lemma inorder_set_colour c t : inorder (set_colour c t) = inorder t.
Proof. by destruct t. Qed.

Lemma inorder_left_rotate t t' : left_rotate t = Some t' → inorder t' = inorder t.
Proof.
  destruct t as [|l k n c [|yl yk yn yc yr]]; intros [= <-]. simpl.
  by simplify_list_eq.
Qed.

Lemma inorder_right_rotate t t' : right_rotate t = Some t' → inorder t' = inorder t.
Proof.
  destruct t as [|[|xl xk xn xc xr] k n c r]; intros [= <-]. simpl.
  by simplify_list_eq.
Qed.

Lemma rb_insert_loop_inorder p : ∀ leaf t,
  rb_insert_loop leaf p = Some t → inorder t = inorder (plug leaf p).
Proof.
  induction p as [p IH] using (induction_ltof1 _ length); unfold ltof in IH.
  intros leaf t. destruct p as [|par p1]; cbn [rb_insert_loop]; [by intros [= ->]|].
  case_decide as Hb; [by intros [= <-]|].
  destruct p1 as [|par2 p2]; [done|]. case_decide as Hy.
  - intros Ht. rewrite (IH p2) with (2 := Ht) by (simpl; lia).
    cbn [plug]. rewrite !inorder_plug. do 2 f_equal.
    rewrite (inorder_fill par2), inorder_fill; cbn [f_dir f_key f_count f_other].
    by rewrite !inorder_set_colour.
  - intros Ht. cbn [plug]. rewrite inorder_plug.
    destruct (f_dir par2) eqn:Hd2; apply bind_Some in Ht as (par' & Hp' & Ht);
      apply bind_Some in Ht as (t' & Hrot & [= <-]).
    all: assert (inorder par' = inorder (fill par leaf)) as Hpar'
      by (destruct (f_dir par); simplify_eq;
          eauto using inorder_left_rotate, inorder_right_rotate).
    + apply inorder_right_rotate in Hrot. rewrite inorder_plug, Hrot.
      rewrite !(inorder_fill _ (set_colour _ _)), inorder_set_colour, Hpar'.
      by rewrite (inorder_fill par2), Hd2.
    + apply inorder_left_rotate in Hrot. rewrite inorder_plug, Hrot.
      rewrite !(inorder_fill _ (set_colour _ _)), inorder_set_colour, Hpar'.
      by rewrite (inorder_fill par2), Hd2.
Qed.

Lemma fixup_red_inorder par p par' p' x :
  fixup_red par p = Some (par', p') →
  inorder (plug (fill par' x) p') = inorder (plug (fill par x) p) ∧
  f_dir par' = f_dir par.
Proof.
  unfold fixup_red. destruct par as [d k n c [|wl wk wn [] wr]]; simpl;
    try by intros [= <- <-].
  destruct d; intros Hp; apply bind_Some in Hp as (? & _ & [= <- <-]);
    (split; [|done]); cbn [plug]; rewrite !inorder_plug;
    do 2 f_equal; rewrite !inorder_fill; simpl; by simplify_list_eq.
Qed.

Definition turn_inorder (x : TREE_ELEMENT) (par : frame) (p : list frame)
    (res : TREE_ELEMENT + TREE_ELEMENT) : Prop :=
  match res with
  | inl x' => inorder x' = inorder (fill par x)
  | inr t => inorder t = inorder (plug (fill par x) p)
  end.

Lemma fixup_left_inorder x par p res :
  f_dir par = DLeft → fixup_left x par p = Some res → turn_inorder x par p res.
Proof.
  destruct par as [d k n c [|wl wk wn wc wr]]; simpl; intros ->; [done|].
  unfold fixup_left; cbn [f_other f_key f_count f_colour]. case_decide; [by intros [= <-]|].
  intros H1. apply bind_Some in H1 as (w' & Hw & H1).
  assert (inorder w' = inorder (element wl wk wn wc wr)) as Hw'.
  { case_decide; [|by simplify_eq]. apply inorder_right_rotate in Hw. rewrite Hw.
    simpl. by rewrite inorder_set_colour. }
  destruct w' as [|wl' wk' wn' wc' wr']; [done|].
  apply bind_Some in H1 as (t & Ht & [= <-]). simpl.
  apply inorder_left_rotate in Ht. rewrite !inorder_plug, Ht. do 2 f_equal.
  simpl in *. by rewrite inorder_set_colour, Hw'.
Qed.

Lemma fixup_right_inorder x par p res :
  f_dir par = DRight → fixup_right x par p = Some res → turn_inorder x par p res.
Proof.
  destruct par as [d k n c [|wl wk wn wc wr]]; simpl; intros ->; [done|].
  unfold fixup_right; cbn [f_other f_key f_count f_colour]. case_decide; [by intros [= <-]|].
  intros H1. apply bind_Some in H1 as (w' & Hw & H1).
  assert (inorder w' = inorder (element wl wk wn wc wr)) as Hw'.
  { case_decide; [|by simplify_eq]. apply inorder_left_rotate in Hw. rewrite Hw.
    simpl. by rewrite inorder_set_colour. }
  destruct w' as [|wl' wk' wn' wc' wr']; [done|].
  apply bind_Some in H1 as (t & Ht & [= <-]). simpl.
  apply inorder_right_rotate in Ht. rewrite !inorder_plug, Ht. do 2 f_equal.
  simpl in *. by rewrite inorder_set_colour, Hw'.
Qed.

Lemma rb_delete_fixup_inorder fuel : ∀ x p t,
  rb_delete_fixup fuel x p = Some t → inorder t = inorder (plug x p).
Proof.
  induction fuel as [|fuel IH]; intros x p t; [done|].
  cbn [rb_delete_fixup]. destruct p as [|par p1].
  { intros [= <-]. apply inorder_set_colour. }
  case_decide as Hr.
  { intros [= <-]. cbn [plug]. rewrite !inorder_plug, !inorder_fill.
    by rewrite inorder_set_colour. }
  set (go := '(par', p') ← fixup_red par p1; _).
  intros Hgo. assert (go = Some t) as Hgo'.
  { destruct x, (f_dir par), (f_other par); done. }
  clear Hgo. apply bind_Some in Hgo' as ([par' p'] & Hred & Hgo).
  apply bind_Some in Hgo as (res & Hres & Hgo).
  destruct (fixup_red_inorder par p1 par' p' x Hred) as [Hin Hd].
  assert (turn_inorder x par' p' res) as Hti.
  { destruct (f_dir par); [by apply fixup_left_inorder|by apply fixup_right_inorder]. }
  cbn [plug]. rewrite <-Hin. destruct res as [x'|t']; simpl in Hti.
  - rewrite (IH _ _ _ Hgo), !inorder_plug, Hti. done.
  - injection Hgo as <-. by rewrite inorder_set_colour.
Qed.

(** ** Height: the array [parents] is large enough *)

Fixpoint height (t : @TREE_ELEMENT Key) : nat :=
  match t with
  | null_element => 0
  | element l _ _ _ r => S (height l `max` height r)
  end.

Lemma is_rb_height t n :
  is_rb t n → height t ≤ 2 * n + (if decide (colour_of t = RED) then 1 else 0).
Proof.
  induction 1 as [|l k c r n _ IHl _ IHr Hl Hr|l k c r n _ IHl _ IHr]; simpl;
    repeat case_decide; try done; try congruence; lia.
Qed.

Lemma is_rb_size t n : is_rb t n → (2 ^ Z.of_nat n ≤ Z.of_nat (length (inorder t)) + 1)%Z.
Proof.
  induction 1 as [|l k c r n _ IHl _ IHr Hl Hr|l k c r n _ IHl _ IHr];
    cbn [inorder]; [done|rewrite length_app; simpl; lia|].
  rewrite length_app; simpl. rewrite Nat2Z.inj_succ, Z.pow_succ_r by lia. lia.
Qed.

(** With fewer than [2^31] elements the height is at most 62. *)
Lemma rb_height_bound t n :
  is_rb t n → colour_of t = BLACK → (Z.of_nat (length (inorder t)) < 2 ^ 31)%Z →
  height t ≤ 62.
Proof.
  intros Hrb Hb Hlt. pose proof (is_rb_height t n Hrb) as Hh.
  rewrite decide_False in Hh by congruence.
  pose proof (is_rb_size t n Hrb) as Hs.
  assert (n ≤ 31); [|lia].
  destruct (decide (n ≤ 31)); [done|].
  pose proof (Z.pow_le_mono_r 2 32 (Z.of_nat n)). lia.
Qed.

(** ** The debug check *)

Lemma test_rb_tree_sound t n : test_rb_tree t = Some n → is_rb t n.
Proof.
  revert n; induction t as [|l IHl k c col r IHr]; intros n; simpl.
  { intros [= <-]. constructor. }
  case_decide as Hrr; [done|].
  destruct (test_rb_tree l) as [nl|]; [|done].
  destruct (test_rb_tree r) as [nr|]; [|done].
  case_decide as Heq; [|done]. subst nr.
  destruct col; simpl; intros [= <-].
  - rewrite Nat.add_0_r. constructor; eauto.
    + destruct (colour_of l); [|done]. destruct Hrr. auto.
    + destruct (colour_of r); [|done]. destruct Hrr. auto.
  - rewrite Nat.add_1_r. constructor; eauto.
Qed.

Lemma test_rb_tree_complete t n : is_rb t n → test_rb_tree t = Some n.
Proof.
  induction 1 as [|l k c r n _ IHl _ IHr Hl Hr|l k c r n _ IHl _ IHr];
    cbn [test_rb_tree]; [done|..]; rewrite ?IHl, ?IHr, ?Hl, ?Hr.
  - by rewrite decide_False, decide_True, Nat.add_0_r by intuition congruence.
  - by rewrite decide_False, decide_True, Nat.add_1_r by intuition congruence.
Qed.

(** [test_rb_tree] accepts exactly the trees whose red elements have black
    children and whose paths have equally many black elements, and returns
    that number. *)
Theorem test_rb_tree_iff t n : test_rb_tree t = Some n ↔ is_rb t n.
Proof. split; [apply test_rb_tree_sound|apply test_rb_tree_complete]. Qed.

End Balance.

(** ** Sorted association lists: what a tree promises to its clients *)

Section Assoc.
Context {Key : Type} (compare : Key → Key → Z) `{!TotalCmp compare}.
Implicit Types (l : list (Key * Z)) (key k : Key).

Definition keys_sorted l : Prop :=
  StronglySorted (λ a b, (compare a.1 b.1 < 0)%Z) l.
Definition lt_all key l : Prop := Forall (λ x, (compare x.1 key < 0)%Z) l.
Definition gt_all key l : Prop := Forall (λ x, (compare x.1 key > 0)%Z) l.

Fixpoint assoc_insert key l : list (Key * Z) :=
  match l with
  | [] => [(key, 1%Z)]
  | (k, n) :: l' =>
      if (compare k key =? 0)%Z then (k, bump_count n) :: l'
      else if (compare k key <? 0)%Z then (k, n) :: assoc_insert key l'
      else (key, 1%Z) :: (k, n) :: l'
  end.

Definition assoc_delete key l : list (Key * Z) :=
  List.filter (λ x, negb (compare x.1 key =? 0)%Z) l.

Definition assoc_find key l : option Key :=
  fst <$> List.find (λ x, (compare x.1 key =? 0)%Z) l.

Lemma StronglySorted_app_inv {A} (R : A → A → Prop) (l1 l2 : list A) :
  StronglySorted R (l1 ++ l2) →
  StronglySorted R l1 ∧ StronglySorted R l2 ∧
  ∀ x y, x ∈ l1 → y ∈ l2 → R x y.
Proof.
  induction l1 as [|a l1 IH]; simpl; intros Hs.
  - split_and!; [constructor|done|]. intros x y Hx. by apply not_elem_of_nil in Hx.
  - inversion Hs as [|? ? Hs' Ha]; subst.
    apply Forall_app in Ha as [Ha1 Ha2].
    destruct (IH Hs') as (H1 & H2 & H3). split_and!; [by constructor|done|].
    intros x y [->|Hx]%elem_of_cons Hy; [|by apply H3].
    rewrite Forall_forall in Ha2. apply Ha2. by apply list_elem_of_In.
Qed.

Lemma StronglySorted_app_intro {A} (R : A → A → Prop) (l1 l2 : list A) :
  StronglySorted R l1 → StronglySorted R l2 →
  (∀ x y, x ∈ l1 → y ∈ l2 → R x y) → StronglySorted R (l1 ++ l2).
Proof.
  induction l1 as [|a l1 IH]; simpl; intros H1 H2 H3; [done|].
  inversion H1; subst. constructor.
  - apply IH; try done. intros x y Hx Hy. apply H3; [by constructor 2|done].
  - apply Forall_app. split; [done|]. apply Forall_forall. intros y Hy.
    apply H3; [by constructor|]. by apply list_elem_of_In.
Qed.

Lemma assoc_insert_new key l1 l2 :
  lt_all key l1 → gt_all key l2 →
  assoc_insert key (l1 ++ l2) = l1 ++ (key, 1%Z) :: l2.
Proof.
  intros H1 H2. induction H1 as [|[k n] l1 Hk _ IH]; simpl in *.
  - destruct H2 as [|[k n] l2 Hk H2]; simpl in *; [done|].
    rewrite (proj2 (Z.eqb_neq _ _)), (proj2 (Z.ltb_ge _ _)) by lia. done.
  - rewrite (proj2 (Z.eqb_neq _ _)), (proj2 (Z.ltb_lt _ _)) by lia. by rewrite IH.
Qed.

Lemma assoc_insert_dup key k n l1 l2 :
  lt_all key l1 → compare k key = 0%Z →
  assoc_insert key (l1 ++ (k, n) :: l2) = l1 ++ (k, bump_count n) :: l2.
Proof.
  intros H1 Hk. induction H1 as [|[k' n'] l1 Hk' _ IH]; simpl in *.
  - rewrite Hk. done.
  - rewrite (proj2 (Z.eqb_neq _ _)), (proj2 (Z.ltb_lt _ _)) by lia. by rewrite IH.
Qed.

Lemma assoc_delete_keep key l :
  lt_all key l ∨ gt_all key l → assoc_delete key l = l.
Proof.
  intros [H|H]; induction H as [|[k n] l Hk _ IH]; unfold assoc_delete in *;
    simpl in *; try done;
    rewrite (proj2 (Z.eqb_neq _ _)) by lia; simpl; by rewrite IH.
Qed.

Lemma assoc_delete_found key k n l1 l2 :
  lt_all key l1 → gt_all key l2 → compare k key = 0%Z →
  assoc_delete key (l1 ++ (k, n) :: l2) = l1 ++ l2.
Proof.
  intros H1 H2 Hk.
  pose proof (assoc_delete_keep key l1) as E1.
  pose proof (assoc_delete_keep key l2) as E2.
  unfold assoc_delete in *. rewrite filter_app. simpl. rewrite Hk. simpl.
  rewrite E1, E2; tauto.
Qed.

Lemma assoc_find_found key k n l1 l2 :
  lt_all key l1 → compare k key = 0%Z → assoc_find key (l1 ++ (k, n) :: l2) = Some k.
Proof.
  intros H1 Hk. unfold assoc_find.
  induction H1 as [|[k' n'] l1 Hk' _ IH]; simpl in *; [by rewrite Hk|].
  rewrite (proj2 (Z.eqb_neq _ _)) by lia. done.
Qed.

Lemma assoc_find_none key l1 l2 :
  lt_all key l1 → gt_all key l2 → assoc_find key (l1 ++ l2) = None.
Proof.
  intros H1 H2. unfold assoc_find.
  induction H1 as [|[k' n'] l1 Hk' _ IH]; simpl in *.
  - induction H2 as [|[k' n'] l2 Hk' _ IH]; simpl in *; [done|].
    rewrite (proj2 (Z.eqb_neq _ _)) by lia. done.
  - rewrite (proj2 (Z.eqb_neq _ _)) by lia. done.
Qed.

(** The parts of a sorted list around an entry that compares equal to [key]. *)
Lemma sorted_around key k n l1 l2 :
  keys_sorted (l1 ++ (k, n) :: l2) → compare k key = 0%Z →
  lt_all key l1 ∧ gt_all key l2.
Proof.
  intros Hs Hk. apply StronglySorted_app_inv in Hs as (_ & H2 & H3).
  inversion H2 as [|? ? _ H4]; subst. split.
  - apply Forall_forall. intros [k' n'] Hin. simpl.
    apply (cmp_lt_trans_l compare _ k); [|lia].
    apply (H3 (k', n') (k, n)); [by apply list_elem_of_In|by constructor].
  - rewrite Forall_forall in H4. apply Forall_forall. intros [k' n'] Hin.
    specialize (H4 _ Hin). simpl in *.
    pose proof (cmp_lt_trans_r compare key k k'). pose proof (cmp_sgn k key).
    pose proof (cmp_sgn key k'). lia.
Qed.

Lemma sorted_replace k n n' l1 l2 :
  keys_sorted (l1 ++ (k, n) :: l2) → keys_sorted (l1 ++ (k, n') :: l2).
Proof.
  intros Hs. apply StronglySorted_app_inv in Hs as (H1 & H2 & H3).
  inversion H2; subst. apply StronglySorted_app_intro; [done|by constructor|].
  intros x y Hx [->|Hy]%elem_of_cons; [apply (H3 x (k, n)); [done|by constructor]|].
  apply H3; [done|by constructor 2].
Qed.

Lemma sorted_remove x l1 l2 : keys_sorted (l1 ++ x :: l2) → keys_sorted (l1 ++ l2).
Proof.
  intros Hs. apply StronglySorted_app_inv in Hs as (H1 & H2 & H3).
  inversion H2; subst. apply StronglySorted_app_intro; try done.
  intros a b Ha Hb. apply H3; [done|by constructor 2].
Qed.

Lemma sorted_add key n l1 l2 :
  keys_sorted (l1 ++ l2) → lt_all key l1 → gt_all key l2 →
  keys_sorted (l1 ++ (key, n) :: l2).
Proof.
  intros Hs Hl Hg. apply StronglySorted_app_inv in Hs as (H1 & H2 & H3).
  unfold lt_all, gt_all in *. rewrite Forall_forall in Hl, Hg.
  apply StronglySorted_app_intro; [done|constructor; [done|]|].
  - apply Forall_forall. intros [k m] Hin. specialize (Hg _ Hin). simpl in *.
    pose proof (cmp_sgn key k). lia.
  - intros x y Hx [->|Hy]%elem_of_cons; [|by apply H3].
    apply Hl. by apply list_elem_of_In.
Qed.

End Assoc.

(** ** The operations *)

Section Operations.
Context {Key : Type} (compare : Key → Key → Z) `{!TotalCmp compare}.
Implicit Types (t l r e : @TREE_ELEMENT Key) (p q : list (@frame Key)).

(** A subtree of colour [c] can stand below the path [p]. *)
Definition hangs (c : colour) p : Prop :=
  c = BLACK ∨ ∃ g p', p = g :: p' ∧ f_colour g = BLACK.

Lemma ctx_down l k n c r p m :
  is_rb (element l k n c r) m → ctx p m → hangs c p →
  ∃ m', is_rb l m' ∧ is_rb r m' ∧
    ctx (mkFrame DLeft k n c r :: p) m' ∧ ctx (mkFrame DRight k n c l :: p) m' ∧
    hangs (colour_of l) (mkFrame DLeft k n c r :: p) ∧
    hangs (colour_of r) (mkFrame DRight k n c l :: p).
Proof.
  intros Hrb Hc Hh. inversion Hrb; subst.
  - destruct Hh as [|(g & p' & -> & Hg)]; [done|]. exists m.
    split_and!; try done; try (by left); by apply ctx_red.
  - eexists. split_and!; try done; try (right; eauto); by apply ctx_black.
Qed.

Record descent (t : TREE_ELEMENT) p key e q : Prop := {
  ds_plug : plug e q = plug t p;
  ds_end : match e with null_element => True | element _ k _ _ _ => compare k key = 0%Z end;
  ds_lt : lt_all compare key (before q);
  ds_gt : gt_all compare key (after q);
  ds_ctx : ∃ m, is_rb e m ∧ ctx q m ∧ hangs (colour_of e) q;
  ds_len : length q + height e ≤ length p + height t;
}.

Lemma descend_spec t key : ∀ p m,
  is_rb t m → ctx p m → hangs (colour_of t) p →
  length p + height t < MAX_TREE_HEIGHT →
  keys_sorted compare (before p ++ inorder t ++ after p) →
  lt_all compare key (before p) → gt_all compare key (after p) →
  ∃ e q, descend compare t key p = Some (e, q) ∧ descent t p key e q.
Proof.
  induction t as [|l IHl k n c r IHr]; intros p m Hrb Hc Hh Hlen Hs Hlt Hgt.
  { exists null_element, p. split; [done|]. split; try done. by exists m. }
  cbn [descend]. case_match eqn:Hcmp.
  { apply Z.eqb_eq in Hcmp. eexists _, _; split; [done|]. split; try done.
    by exists m. }
  apply Z.eqb_neq in Hcmp. simpl in Hlen.
  destruct (ctx_down l k n c r p m Hrb Hc Hh) as (m' & Hl & Hr & Hcl & Hcr & Hhl & Hhr).
  unfold push. rewrite !decide_True by lia. cbn [mbind option_bind].
  simpl in Hs. case_match eqn:Hcmp2.
  - apply Z.ltb_lt in Hcmp2.
    destruct (IHr (mkFrame DRight k n c l :: p) m') as (e & q & Heq & Hds); try done.
    + simpl. lia.
    + simpl. by simplify_list_eq.
    + simpl. apply Forall_app. split; [done|]. apply Forall_app. split; [|by constructor].
      replace (before p ++ (inorder l ++ (k, n) :: inorder r) ++ after p)
        with ((before p ++ inorder l) ++ (k, n) :: (inorder r ++ after p)) in Hs
        by (by simplify_list_eq).
      apply (sorted_around compare k) in Hs as [Hb _]; [|apply cmp_refl; done].
      apply Forall_app in Hb as [_ Hb]. revert Hb. apply Forall_impl.
      intros [k' n']; simpl. intros Hk'. apply (cmp_lt_trans_l compare _ k); [done|lia].
    + exists e, q. split; [done|]. destruct Hds as [H1 H2 H3 H4 H5 H6].
      split; try done. simpl in *. lia.
  - apply Z.ltb_ge in Hcmp2.
    destruct (IHl (mkFrame DLeft k n c r :: p) m') as (e & q & Heq & Hds); try done.
    + simpl. lia.
    + simpl. by simplify_list_eq.
    + simpl. by rewrite app_nil_r.
    + simpl. constructor; [simpl; lia|]. apply Forall_app. split; [|done].
      replace (before p ++ (inorder l ++ (k, n) :: inorder r) ++ after p)
        with ((before p ++ inorder l) ++ (k, n) :: (inorder r ++ after p)) in Hs
        by (by simplify_list_eq).
      apply (sorted_around compare k) in Hs as [_ Hb]; [|apply cmp_refl; done].
      apply Forall_app in Hb as [Hb _]. revert Hb. apply Forall_impl.
      intros [k' n']; simpl. intros Hk'.
      pose proof (cmp_sgn k key). pose proof (cmp_sgn k k'). pose proof (cmp_sgn k' key).
      pose proof (cmp_lt_trans_l compare key k k'). lia.
    + exists e, q. split; [done|]. destruct Hds as [H1 H2 H3 H4 H5 H6].
      split; try done. simpl in *. lia.
Qed.

(** ** The invariant of a tree object *)

Record tree_ok (T : TREE) : Prop := {
  ok_balance : ∃ m, is_rb (root T) m;
  ok_root : colour_of (root T) = BLACK;
  ok_sorted : keys_sorted compare (inorder (root T));
  ok_count : elements_in_tree T = Z.of_nat (length (inorder (root T)));
}.

Lemma tree_ok_height T :
  tree_ok T → (elements_in_tree T < 2 ^ 31)%Z → height (root T) ≤ 62.
Proof.
  intros [[m Hm] Hb _ Hc] Hn. apply (rb_height_bound _ m); try done. lia.
Qed.

Lemma tree_descend T key :
  tree_ok T → (elements_in_tree T < 2 ^ 31)%Z →
  ∃ e q, descend compare (root T) key [] = Some (e, q) ∧
    descent (root T) [] key e q ∧ length q + height e ≤ 62.
Proof.
  intros Hok Hn. pose proof (tree_ok_height T Hok Hn) as Hh.
  destruct Hok as [[m Hm] Hb Hs Hc].
  destruct (descend_spec (root T) key [] m) as (e & q & Heq & Hds); try done.
  - constructor.
  - by left.
  - simpl. unfold MAX_TREE_HEIGHT. lia.
  - simpl. by rewrite app_nil_r.
  - by constructor.
  - by constructor.
  - exists e, q. split_and!; try done. destruct Hds. simpl in *. lia.
Qed.

Lemma descent_inorder t key e q :
  descent t [] key e q → inorder t = before q ++ inorder e ++ after q.
Proof. intros [Hp _ _ _ _ _]. simpl in Hp. by rewrite <-Hp, inorder_plug. Qed.

(** The contents around a found element. *)
Lemma descent_found T key l k n c r q :
  tree_ok T → descent (root T) [] key (element l k n c r) q →
  inorder (root T) = (before q ++ inorder l) ++ (k, n) :: (inorder r ++ after q) ∧
  lt_all compare key (before q ++ inorder l) ∧
  gt_all compare key (inorder r ++ after q) ∧ compare k key = 0%Z.
Proof.
  intros Hok Hds. pose proof (descent_inorder _ _ _ _ Hds) as Hin.
  assert (Hin' : inorder (root T) = (before q ++ inorder l) ++ (k, n) :: (inorder r ++ after q)).
  { rewrite Hin. simpl. by simplify_list_eq. }
  pose proof (ok_sorted _ Hok) as Hs. rewrite Hin' in Hs.
  pose proof (ds_end _ _ _ _ _ Hds) as Hk. simpl in Hk.
  destruct (sorted_around compare key k n _ _ Hs Hk). done.
Qed.

Lemma absent_find T key q :
  descent (root T) [] key null_element q → assoc_find compare key (inorder (root T)) = None.
Proof.
  intros Hds. rewrite (descent_inorder _ _ _ _ Hds). simpl. destruct Hds. by apply assoc_find_none.
Qed.

Lemma rb_insert_spec key q m :
  ctx q m → is_rb (@null_element Key) m →
  ∃ t, rb_insert (element null_element key 1 RED null_element) q = Some t ∧
    (∃ m', is_rb t m') ∧ colour_of t = BLACK ∧
    inorder t = before q ++ (key, 1%Z) :: after q.
Proof.
  intros Hc Hn. inversion Hn; subst. unfold rb_insert; simpl.
  destruct (rb_insert_loop_balance q (element null_element key 1 RED null_element) 0)
    as (t & m & Heq & Hm); [done|repeat constructor|done|].
  rewrite Heq; simpl. exists (set_colour BLACK t). split; [done|].
  destruct (is_rb_blacken t m Hm) as (m' & Hm' & _).
  split_and!; [by exists m'|apply colour_blacken|].
  rewrite inorder_set_colour, (rb_insert_loop_inorder q _ _ Heq), inorder_plug. done.
Qed.

(** The bytes that an insertion adds to [allocated]. *)
Definition entry_size (T : TREE) (key_size : Z) : Z :=
  u32 (sizeof_TREE_ELEMENT + key_size + size_of_element (Key := Key) T).

(** What [tree_insert] does to the contents, by the flags and the allocator, and
    to [allocated], which is [a] before and grows by [sz]. *)
Definition insert_effect (alloc : bool) (fl : Z) (key : Key) (sz : Z)
    (base : list (Key * Z)) (a : Z) (res : @insert_result Key) (T' : TREE) : Prop :=
  let contents' := inorder (root T') in
  match assoc_find compare key base with
  | Some k =>
      if (Z.land fl TREE_NO_DUPS =? 0)%Z then
        res = InsertElement k ∧ contents' = assoc_insert compare key base ∧ allocated T' = a
      else res = InsertNull ∧ contents' = base ∧ allocated T' = a
  | None =>
      if (Z.land fl TREE_ONLY_DUPS =? 0)%Z then
        if alloc then
          res = InsertElement key ∧ contents' = assoc_insert compare key base ∧ allocated T' = u64 (a + sz)
        else res = InsertNull ∧ contents' = base ∧ allocated T' = u64 (a + sz)
      else res = InsertUnique ∧ contents' = base ∧ allocated T' = a
  end.

Lemma colour_plug q : ∀ a b : @TREE_ELEMENT Key,
  colour_of a = colour_of b →
  colour_of (plug a q) = BLACK → colour_of (plug b q) = BLACK.
Proof.
  induction q as [|f q IH]; intros a b Hab; simpl; [congruence|].
  apply IH. by rewrite !colour_fill.
Qed.

(** The conditions under which an insertion first empties the tree: the memory
    limit, and a new key that may be added. *)
Definition over_limit (T : TREE) (key_size : Z) : bool :=
  negb (memory_limit T =? 0)%Z && negb (elements_in_tree (Key := Key) T =? 0)%Z &&
  (u64 (allocated T + entry_size T key_size) >? memory_limit T)%Z.

Definition empties (T : TREE) (key : Key) (key_size : Z) : bool :=
  match assoc_find compare key (inorder (root T)) with
  | None => (Z.land (flag T) TREE_ONLY_DUPS =? 0)%Z && over_limit T key_size
  | Some _ => false
  end.

Section Insertion.
Context (free_result : Key → Z).

Lemma tree_insert_found fuel alloc T key ks l k n c r q :
  tree_ok T → descend compare (root T) key [] = Some (element l k n c r, q) →
  descent (root T) [] key (element l k n c r) q →
  ∃ res T', tree_insert compare free_result (S fuel) alloc T key ks = Some (res, [], T') ∧
    tree_ok T' ∧ insert_effect alloc (flag T) key (entry_size T ks) (inorder (root T)) (allocated T) res T'.
Proof.
  intros Hok Heq Hds.
  destruct (descent_found T key l k n c r q Hok Hds) as (Hin & Hlt & Hgt & Hk).
  cbn [tree_insert]. rewrite Heq. cbn [mbind option_bind].
  unfold insert_effect. rewrite Hin, assoc_find_found by done.
  case_match.
  - eexists _, _; split; [done|]. cbn [root set_root].
    assert (Hin' : inorder (plug (element l k (bump_count n) c r) q) =
       (before q ++ inorder l) ++ (k, bump_count n) :: inorder r ++ after q).
    { rewrite inorder_plug. simpl. by simplify_list_eq. }
    split; [|split_and!; [done|by rewrite Hin', assoc_insert_dup by done|done]].
    destruct (ds_ctx _ _ _ _ _ Hds) as (m & Hm & Hc & Hh).
    destruct Hok as [_ Hroot Hs Hcnt]. split; cbn [root set_root elements_in_tree].
    + destruct (ctx_plug q m (element l k (bump_count n) c r)) as (m' & Hm' & _);
        [done|by inversion Hm; subst; constructor| |by exists m'].
      destruct Hh as [Hh|(g & p' & -> & Hg)]; [by left|by right].
    + pose proof (ds_plug _ _ _ _ _ Hds) as Hpl. simpl in Hpl.
      rewrite <-Hpl in Hroot. revert Hroot. by apply colour_plug.
    + rewrite Hin'. rewrite Hin in Hs. by apply (sorted_replace _ _ n).
    + rewrite Hin', Hcnt, Hin, !length_app. done.
  - eexists _, _; split; [done|]. rewrite Hin. done.
Qed.

(** No element found and the tree is not emptied first. *)
Lemma tree_insert_new fuel alloc T key ks q :
  tree_ok T → descend compare (root T) key [] = Some (null_element, q) →
  descent (root T) [] key null_element q → (elements_in_tree T < 2 ^ 31)%Z → over_limit T ks = false →
  ∃ res T', tree_insert compare free_result (S fuel) alloc T key ks = Some (res, [], T') ∧
    tree_ok T' ∧ insert_effect alloc (flag T) key (entry_size T ks) (inorder (root T)) (allocated T) res T'.
Proof.
  intros Hok Heq Hds Hn Hlim.
  pose proof (descent_inorder _ _ _ _ Hds) as Hin. simpl in Hin.
  destruct Hds as [_ _ Hlt Hgt (m & Hm & Hc & _) _].
  cbn [tree_insert]. rewrite Heq. cbn [mbind option_bind].
  unfold insert_effect. rewrite Hin, assoc_find_none, <-Hin by done.
  unfold over_limit, entry_size in Hlim. destruct Hok as [Hbal Hroot Hs Hcnt].
  case_match; [rewrite Hlim; destruct alloc|].
  - destruct (rb_insert_spec key q m Hc Hm) as (t & Ht & Hrb & Hb & Hint).
    rewrite Ht. cbn [mbind option_bind]. eexists _, _; split; [done|].
    cbn [root set_root]. split; [|split_and!; [done|by rewrite Hin, assoc_insert_new|done]].
    rewrite Hin in Hs. split; cbn [root set_root elements_in_tree]; try done.
    + rewrite Hint. by apply sorted_add.
    + rewrite Hcnt, Hin, length_app in Hn. rewrite Hint, Hcnt, Hin, !length_app. simpl. rewrite u32_small by lia. lia.
  - eexists _, _; split; [done|]. by split.
  - eexists _, _; split; [done|]. by split.
Qed.

(** No element found and the tree is emptied first: the call starts again. *)
Lemma tree_insert_emptied fuel alloc T key ks q :
  descend compare (root T) key [] = Some (null_element, q) →
  Z.land (flag T) TREE_ONLY_DUPS = 0%Z → over_limit T ks = true →
  tree_insert compare free_result (S fuel) alloc T key ks =
  '(res, tr', t') ← tree_insert compare free_result fuel alloc
                      (set_root T null_element 0 0) key ks;
  Some (res, (reset_tree free_result true T).1.2 ++ tr', t').
Proof.
  intros Heq Hf Hlim. cbn [tree_insert]. rewrite Heq. cbn [mbind option_bind].
  rewrite Hf. unfold over_limit, entry_size in Hlim. rewrite Hlim.
  unfold reset_tree, free_tree.
  cbn [with_delete set_root has_free root memory_limit].
  destruct (with_delete T), (has_free T);
    try destruct (delete_tree_element _ _ _ _); try destruct (memory_limit T =? 0)%Z;
    done.
Qed.

(** C18. [tree_insert] on a balanced, sorted tree of fewer than [2^31] elements:
    it never leaves the [parents] array, returns and keeps the invariant. When the
    key is new, may be added, and its entry would take the allocated bytes above the
    memory limit of a tree that has one and is not empty, the tree is emptied first,
    with the calls of the free callback that [reset_tree] makes; otherwise no
    callback is made. The result, the new contents and the allocated bytes are
    then those of an insertion into a sorted association list with counters. *)
Theorem tree_insert_correct alloc T key ks :
  tree_ok T → (elements_in_tree T < 2 ^ 31)%Z →
  ∃ res tr T',
    tree_insert compare free_result 2 alloc T key ks = Some (res, tr, T') ∧
    tree_ok T' ∧
    if empties T key ks then
      tr = (reset_tree free_result true T).1.2 ∧
      insert_effect alloc (flag T) key (entry_size T ks) [] 0 res T'
    else
      tr = [] ∧
      insert_effect alloc (flag T) key (entry_size T ks) (inorder (root T)) (allocated T) res T'.
Proof.
  intros Hok Hn. destruct (tree_descend T key Hok Hn) as (e & q & Heq & Hds & _).
  unfold empties. destruct e as [|l k n c r].
  - pose proof (descent_inorder _ _ _ _ Hds) as Hin. rewrite (absent_find T key q) by done.
    destruct (over_limit T ks) eqn:Hlim; last first.
    { rewrite andb_false_r. destruct (tree_insert_new 1 alloc T key ks q) as (res & T' & ? & ? & ?);
        [done..|]. by exists res, [], T'. }
    rewrite andb_true_r. destruct (Z.eqb_spec (Z.land (flag T) TREE_ONLY_DUPS) 0) as [Hf|Hf].
    + set (T1 := set_root T null_element 0 0).
      assert (Hok1 : tree_ok T1).
      { split; cbn; try done; [by exists 0; constructor|constructor]. }
      assert (Hds1 : descent (root T1) [] key null_element []).
      { split; try done; try (by constructor). exists 0.
        split_and!; [by constructor|by constructor|by left]. }
      destruct (tree_insert_new 0 alloc T1 key ks []) as (res & T' & Hi & Hok' & He);
        [done..|unfold over_limit; cbn; by destruct (memory_limit T =? 0)%Z|].
      exists res, ((reset_tree free_result true T).1.2 ++ []), T'. rewrite app_nil_r. split_and!; try done.
      rewrite (tree_insert_emptied 1 alloc T key ks q) by done. fold T1. rewrite Hi. cbn [mbind option_bind].
      by rewrite app_nil_r.
    + eexists _, _, T. cbn [tree_insert]. rewrite Heq. cbn [mbind option_bind].
      rewrite (proj2 (Z.eqb_neq _ _)) by done. split_and!; [done..|]. unfold insert_effect.
      rewrite (absent_find T key q) by done. by rewrite (proj2 (Z.eqb_neq _ _)).
  - destruct (descent_found T key l k n c r q Hok Hds) as (Hin & Hlt & Hgt & Hk).
    rewrite Hin, assoc_find_found, <-Hin by done.
    destruct (tree_insert_found 1 alloc T key ks l k n c r q) as (res & T' & ? & ? & ?); [done..|].
    by exists res, [], T'.
Qed.

End Insertion.

(** [tree_search] finds the stored key that compares equal, if there is one. *)
Lemma search_loop_spec t key :
  keys_sorted compare (inorder t) →
  search_loop compare t key = assoc_find compare key (inorder t).
Proof.
  induction t as [|l IHl k n c r IHr]; simpl; intros Hs; [done|].
  destruct (StronglySorted_app_inv _ _ _ Hs) as (Hsl & Hsr & _).
  inversion Hsr as [|? ? Hsr' _]; subst.
  assert (Happ : ∀ xs ys, assoc_find compare key (xs ++ ys) =
     or_else (assoc_find compare key xs) (assoc_find compare key ys)).
  { intros xs ys. unfold assoc_find. induction xs as [|[k' n'] xs IH]; simpl; [done|].
    by destruct (_ =? 0)%Z. }
  destruct (sorted_around compare k k n _ _ Hs (cmp_refl compare k)) as [Hlt Hgt].
  case_match eqn:Hc; [|case_match eqn:Hc2].
  - apply Z.eqb_eq in Hc. symmetry. apply assoc_find_found; [|done].
    by apply (sorted_around compare key k n _ _ Hs).
  - rewrite IHr, Happ by done. apply Z.ltb_lt in Hc2.
    replace (inorder l) with (inorder l ++ []) at 1 by apply app_nil_r.
    rewrite (assoc_find_none compare key (inorder l) []); simpl; [|..].
    + unfold assoc_find; simpl. by rewrite Hc.
    + revert Hlt. apply Forall_impl. intros [k' n'] Hk'. simpl in *.
      apply (cmp_lt_trans_l compare _ k); [done|lia].
    + constructor.
  - rewrite IHl, Happ by done. apply Z.ltb_ge in Hc2. apply Z.eqb_neq in Hc.
    destruct (assoc_find compare key (inorder l)); [done|]. simpl.
    symmetry. apply (assoc_find_none compare key [] ((k, n) :: inorder r)); [constructor|].
    constructor; [simpl; lia|].
    revert Hgt. apply Forall_impl. intros [k' n'] Hk'. simpl in *.
    pose proof (cmp_sgn k key). pose proof (cmp_sgn k k'). pose proof (cmp_sgn k' key).
    pose proof (cmp_lt_trans_l compare key k k'). lia.
Qed.

(** ** Deletion *)

(** Unlinking an element of colour [c] whose only child is [x]. *)
Definition unlink c x q : option TREE_ELEMENT :=
  if decide (c = BLACK) then rb_delete_fixup (length q + 2) x q
  else Some (plug x q).

Lemma unlink_spec c x q m :
  ctx q m → hangs c q → length q ≤ 62 →
  (c = BLACK ∧ (∃ n, m = S n ∧ is_rb x n) ∨ c = RED ∧ is_rb x m ∧ colour_of x = BLACK) →
  ∃ t, unlink c x q = Some t ∧ (∃ h, is_rb t h) ∧ colour_of t = BLACK ∧
    inorder t = before q ++ inorder x ++ after q.
Proof.
  intros Hc Hh Hlen Hx. unfold unlink.
  destruct Hx as [(-> & n & -> & Hx)|(-> & Hx & Hb)].
  - rewrite decide_True by done.
    destruct (rb_delete_fixup_balance (length q + 2) x q n) as (t & h & Heq & Hrb & Hcol).
    + destruct x as [|l k cnt [] r]; [by left|right|by left].
      split; [done|]. inversion Hx; subst. by constructor.
    + done.
    + right. unfold MAX_TREE_HEIGHT. lia.
    + exists t. split_and!; [done|by exists h|done|].
      by rewrite (rb_delete_fixup_inorder _ _ _ _ Heq), inorder_plug.
  - rewrite decide_False by done.
    destruct (ctx_plug q m x) as (h & Hrb & Hcol); [done..|by left|].
    exists (plug x q). split_and!; [done|by exists h|apply Hcol; by left|].
    apply inorder_plug.
Qed.

Lemma leftmost_spec l : ∀ k n c r p m,
  is_rb (element l k n c r) m → ctx p m → hangs c p →
  length p + height (element l k n c r) ≤ 62 →
  ∃ nk nn nc nr inner m',
    leftmost l k n c r p = Some (nk, nn, nc, nr, inner ++ p) ∧
    Forall (λ f, f_dir f = DLeft) inner ∧
    is_rb (element null_element nk nn nc nr) m' ∧ ctx (inner ++ p) m' ∧
    hangs nc (inner ++ p) ∧ length (inner ++ p) ≤ 62 ∧
    (nk, nn) :: inorder nr ++ after (inner ++ p) =
      inorder (element l k n c r) ++ after p.
Proof.
  induction l as [|ll IHll lk ln lc lr _]; intros k n c r p m Hrb Hc Hh Hlen.
  - exists k, n, c, r, [], m. simpl in *. split_and!; try done; try lia.
  - destruct (ctx_down _ k n c r p m Hrb Hc Hh) as (m' & Hl & _ & Hcl & _ & Hhl & _).
    cbn [leftmost]. unfold push. cbn [height] in Hlen.
    rewrite decide_True by (unfold MAX_TREE_HEIGHT; lia). cbn [mbind option_bind].
    destruct (IHll lk ln lc lr (mkFrame DLeft k n c r :: p) m')
      as (nk & nn & nc & nr & inner & m2 & Heq & Hd & Hrb2 & Hc2 & Hh2 & Hlen2 & Hin);
      [done..|cbn [length height]; lia|].
    exists nk, nn, nc, nr, (inner ++ [mkFrame DLeft k n c r]), m2.
    rewrite <-app_assoc. cbn [app]. split_and!; try done.
    + apply Forall_app. split; [done|]. by repeat constructor.
    + rewrite Hin. simpl. by simplify_list_eq.
Qed.

Lemma before_left inner p :
  Forall (λ f, f_dir f = DLeft) inner → before (inner ++ p) = before p.
Proof.
  induction 1 as [|f inner Hf _ IH]; simpl; [done|]. by rewrite Hf, app_nil_r.
Qed.

Lemma ctx_swap inner : ∀ f f' p m,
  f_colour f' = f_colour f → f_other f' = f_other f →
  ctx (inner ++ f :: p) m → ctx (inner ++ f' :: p) m.
Proof.
  induction inner as [|g inner IH]; simpl; intros f f' p m Hc Ho H.
  - inversion H; subst; [apply ctx_black|apply ctx_red]; congruence.
  - inversion H as [|? ? ? Hg Hgo Hr|? g' p' ? Hg Hgo Hob Hg' Hr Heq]; subst.
    + apply ctx_black; try done. by apply (IH f).
    + destruct inner as [|g2 inner]; simpl in *; simplify_eq.
      * apply ctx_red; try done; [congruence|]. by apply (IH f f').
      * apply ctx_red; try done. by apply (IH f f').
Qed.

Lemma hangs_swap inner f f' p c :
  f_colour f' = f_colour f →
  hangs c (inner ++ f :: p) → hangs c (inner ++ f' :: p).
Proof.
  intros Hc [->|(g & p' & Heq & Hg)]; [by left|right].
  destruct inner as [|g2 inner]; simplify_eq/=; eauto.
  eexists _, _. split; [done|]. congruence.
Qed.

Lemma after_swap inner f f' p :
  f_dir f = DRight → f_dir f' = DRight →
  after (inner ++ f :: p) = after (inner ++ f' :: p).
Proof.
  intros Hf Hf'. induction inner as [|g inner IH]; simpl; [by rewrite Hf, Hf'|].
  by rewrite IH.
Qed.

(** An element with two children: the leftmost element below its right child
    takes its place. *)
Lemma delete_two_children l k n c r q m rl rk rn rc rr :
  r = element rl rk rn rc rr →
  is_rb (element l k n c r) m → ctx q m → hangs c q →
  length q + height (element l k n c r) ≤ 62 →
  ∃ p' nk nn nc nr z t, push (mkFrame DRight k n c l) q = Some p' ∧
    leftmost rl rk rn rc rr p' = Some (nk, nn, nc, nr, z) ∧
    unlink nc nr (take (length z - length p') z ++ mkFrame DRight nk nn c l :: q) = Some t ∧
    (∃ h, is_rb t h) ∧ colour_of t = BLACK ∧
    inorder t = before q ++ inorder l ++ inorder r ++ after q.
Proof.
  intros -> Hrb Hc Hh Hlen.
  destruct (ctx_down _ k n c _ q m Hrb Hc Hh) as (m' & _ & Hr & _ & Hcr & _ & Hhr).
  simpl in Hlen. set (F := mkFrame DRight k n c l) in *.
  exists (F :: q). unfold push.
  rewrite decide_True by (unfold MAX_TREE_HEIGHT; lia).
  destruct (leftmost_spec rl rk rn rc rr (F :: q) m')
    as (nk & nn & nc & nr & inner & m2 & Heq & Hd & Hrb2 & Hc2 & Hh2 & Hlen2 & Hin);
    [done..|simpl; lia|].
  set (F' := mkFrame DRight nk nn c l).
  assert (Htake : take (length (inner ++ F :: q) - length (F :: q)) (inner ++ F :: q) = inner).
  { rewrite length_app, Nat.add_sub. by rewrite take_app_length. }
  destruct (unlink_spec nc nr (inner ++ F' :: q) m2) as (t & Ht & Hh' & Hb & Hint).
  - by apply (ctx_swap inner F).
  - by apply (hangs_swap inner F).
  - by rewrite length_app in *.
  - inversion Hrb2 as [|? ? ? ? ? Hn ? Hnb ?|? ? ? ? ? Hn ?]; subst.
    + by right.
    + left. split; [done|]. by eexists.
  - exists nk, nn, nc, nr, (inner ++ F :: q), t. rewrite Htake.
    split_and!; try done. rewrite Hint, before_left by done.
    rewrite (after_swap inner F' F) by done. simpl in Hin |- *.
    rewrite <-!app_assoc. do 2 f_equal. simpl. rewrite Hin. by simplify_list_eq.
Qed.

Lemma delete_links_spec l k n c r q m :
  is_rb (element l k n c r) m → ctx q m → hangs c q →
  length q + height (element l k n c r) ≤ 62 →
  ∃ t, delete_links l k n c r q = Some t ∧ (∃ h, is_rb t h) ∧ colour_of t = BLACK ∧
    inorder t = before q ++ inorder l ++ inorder r ++ after q.
Proof.
  intros Hm Hc Hh Hlen.
  destruct l as [|ll lk ln lc lr]; [|destruct r as [|rl rk rn rc rr]].
  - destruct (unlink_spec c r q m) as (t & Ht & ? & ? & Hi); try done;
      [simpl in Hlen; lia| |by exists t].
    inversion Hm as [|? ? ? ? ? H1 ?|? ? ? ? ? H1 ?]; subst; [by right|].
    left. split; [done|]. by eexists.
  - destruct (unlink_spec c (element ll lk ln lc lr) q m) as (t & Ht & ? & ? & Hi);
      try done; [simpl in Hlen; lia| |exists t; by rewrite Hi].
    inversion Hm as [|? ? ? ? ? H1 ?|? ? ? ? ? H1 ?]; subst; [by right|].
    left. split; [done|]. by eexists.
  - destruct (delete_two_children (element ll lk ln lc lr) k n c
      (element rl rk rn rc rr) q m rl rk rn rc rr)
      as (p' & nk & nn & nc & nr & z & t & Hp & Hl & Hu & ? & ? & ?); try done.
    exists t. unfold delete_links. rewrite Hp. cbn [mbind option_bind]. rewrite Hl.
    cbn [mbind option_bind]. done.
Qed.

(** C1. [tree_delete] on a balanced, sorted tree of fewer than [2^31] elements
    stays inside [parents], keeps the invariant, returns 1 and changes nothing
    when the key is absent or the tree does not allow deletions, and otherwise
    removes exactly the entry whose key compares equal. *)
Theorem tree_delete_correct T key ks :
  tree_ok T → (elements_in_tree T < 2 ^ 31)%Z →
  ∃ res tr T', tree_delete compare T key ks = Some (res, tr, T') ∧ tree_ok T' ∧
    match assoc_find compare key (inorder (root T)) with
    | Some k =>
        if with_delete T then
          res = 0%Z ∧ tr = (if has_free T then [FreeElement k] else []) ∧
          inorder (root T') = assoc_delete compare key (inorder (root T))
        else res = 1%Z ∧ tr = [] ∧ T' = T
    | None => res = 1%Z ∧ tr = [] ∧ T' = T
    end.
Proof.
  intros Hok Hn. unfold tree_delete.
  destruct (with_delete T) eqn:Hwd; last first.
  { eexists _, _, T. split_and!; try done. by case_match. }
  destruct (tree_descend T key Hok Hn) as (e & q & Heq & Hds & Hlen).
  rewrite Heq. cbn [mbind option_bind]. destruct e as [|l k n c r].
  { eexists _, _, T. split_and!; try done.
    rewrite (descent_inorder _ _ _ _ Hds). simpl. destruct Hds.
    by rewrite assoc_find_none. }
  destruct (descent_found T key l k n c r q Hok Hds) as (Hin & Hlt & Hgt & Hk).
  destruct (ds_ctx _ _ _ _ _ Hds) as (m & Hm & Hc & Hh).
  assert (Hfin : ∀ t a, (∃ h, is_rb t h) → colour_of t = BLACK →
     inorder t = before q ++ inorder l ++ inorder r ++ after q →
     tree_ok (set_root T t (u32 (elements_in_tree T - 1)) a) ∧
     inorder t = assoc_delete compare key (inorder (root T))).
  { intros t a Hrb Hb Hint. destruct Hok as [_ _ Hs Hcnt]. rewrite Hin in Hs.
    assert (Hint' : inorder t = (before q ++ inorder l) ++ inorder r ++ after q)
      by (rewrite Hint; by simplify_list_eq).
    split; [|by rewrite Hin, assoc_delete_found].
    split; cbn [root set_root elements_in_tree]; try done; rewrite Hint'.
    - by apply sorted_remove in Hs.
    - rewrite Hcnt, Hin, length_app in Hn. rewrite Hcnt, Hin, !length_app in *. simpl in *. rewrite length_app in *.
      rewrite u32_small by lia. lia. }
  destruct (delete_links_spec l k n c r q m) as (root' & Hr' & Hrb' & Hb' & Hint');
    [done..|].
  rewrite Hr'. cbn [mbind option_bind]. eexists _, _, _. split; [done|].
  destruct (Hfin root' (u64 (allocated T - (sizeof_TREE_ELEMENT + size_of_element T + ks))))
    as [Hok' Hdel]; [done..|].
  split; [done|]. rewrite Hin, assoc_find_found, <-Hin by done. by rewrite <-Hdel.
Qed.

(** [tree_search] finds the entry that compares equal, and only that. *)
Theorem tree_search_correct T key :
  tree_ok T →
  tree_search compare T key = assoc_find compare key (inorder (root T)).
Proof. intros [_ _ Hs _]. unfold tree_search. apply (search_loop_spec); assumption. Qed.

End Operations.
