(* ===== verification/TreeScan.v ===== *)
(** * Scans and walks of [mysys/tree.c]

    [tree_search_key] for the search flags it implements, [tree_search_next] in both
    directions, the walks with a callback, and the debug check
    [test_rb_tree], all stated on the in-order contents. *)

From stdpp Require Import sorting.
From S2P Require Import Prelude Tree TreeFacts.

Section Scan.
Context {Key : Type}.
Implicit Types (t l r x : @TREE_ELEMENT Key) (p q : list (@frame Key)).

(** ** Walks *)

(** Calling [action] on the entries of a list until it returns an error. *)
Fixpoint walk_list {S} (action : Key → Z → S → Z * S) (es : list (Key * Z)) (s : S) :
    Z * S :=
  match es with
  | [] => (0%Z, s)
  | (k, n) :: es' =>
      let '(e, s') := action k n s in
      if (e =? 0)%Z then walk_list action es' s' else (e, s')
  end.

Lemma walk_list_app {S} (action : Key → Z → S → Z * S) es1 es2 s :
  walk_list action (es1 ++ es2) s =
  let '(e, s') := walk_list action es1 s in
  if (e =? 0)%Z then walk_list action es2 s' else (e, s').
Proof.
  revert s; induction es1 as [|[k n] es1 IH]; intros s; simpl; [done|].
  destruct (action k n s) as [e s'] eqn:Ha. destruct (e =? 0)%Z eqn:He; [by rewrite IH|].
  by rewrite He.
Qed.

Lemma tree_walks_spec {S} (action : Key → Z → S → Z * S) t s :
  tree_walk_left_root_right action t s = walk_list action (inorder t) s ∧
  tree_walk_right_root_left action t s = walk_list action (reverse (inorder t)) s.
Proof.
  revert s; induction t as [|l IHl k n c r IHr]; intros s;
    cbn [inorder tree_walk_left_root_right tree_walk_right_root_left]; [done|].
  rewrite reverse_app, reverse_cons, <-app_assoc, !walk_list_app.
  rewrite (proj1 (IHl s)), (proj2 (IHr s)). split.
  - destruct (walk_list action (inorder l) s) as [e s1]. destruct (e =? 0)%Z; [|done].
    cbn [walk_list app]. destruct (action k n s1) as [e2 s2]. destruct (e2 =? 0)%Z; [|done].
    apply IHr.
  - destruct (walk_list action (reverse (inorder r)) s) as [e s1].
    destruct (e =? 0)%Z; [|done].
    cbn [walk_list app]. destruct (action k n s1) as [e2 s2]. destruct (e2 =? 0)%Z; [|done].
    apply IHl.
Qed.

(** [tree_walk] calls [action] on the contents in key order or in reverse
    order, with the counters, and stops at the first error, which it returns. *)
Theorem tree_walk_correct {S} (action : Key → Z → S → Z * S) T visit s :
  tree_walk action T visit s =
  walk_list action
    (match visit with
     | left_root_right => inorder (root T)
     | right_root_left => reverse (inorder (root T))
     end) s.
Proof. destruct visit; apply tree_walks_spec. Qed.

(** ** [tree_search_next] *)

(** The entries after and before the element of a position. *)
Definition following (pos : TREE_ELEMENT * list frame) : list (Key * Z) :=
  match pos with
  | (element _ _ _ _ r, p) => inorder r ++ after p
  | (null_element, _) => []
  end.
Definition preceding (pos : TREE_ELEMENT * list frame) : list (Key * Z) :=
  match pos with
  | (element l _ _ _ _, p) => before p ++ inorder l
  | (null_element, _) => []
  end.

(** [pos] stands on the entry [(k, n)] of the tree [t]. *)
Definition at_entry t (k : Key) (n : Z) (pos : TREE_ELEMENT * list frame) : Prop :=
  ∃ l c r q, pos = (element l k n c r, q) ∧ plug (element l k n c r) q = t.

Lemma edge_left_spec t : ∀ p,
  t ≠ null_element →
  ∃ k n, inorder t = (k, n) :: tail (inorder t) ∧
    at_entry (plug t p) k n (edge_loop DLeft t p) ∧
    following (edge_loop DLeft t p) = tail (inorder t) ++ after p.
Proof.
  induction t as [|l IHl k n c r IHr]; intros p Hne; [done|].
  cbn [edge_loop]. destruct l as [|ll lk ln lc lr].
  - exists k, n. simpl. split_and!; [done| |done]. by eexists _, _, _, _.
  - destruct (IHl (mkFrame DLeft k n c r :: p)) as (k' & n' & Hin & Hat & Hf); [done|].
    exists k', n'. split_and!; [|done|].
    + cbn [inorder] in *. rewrite Hin. done.
    + rewrite Hf. cbn [inorder] in *. rewrite Hin. simpl. by simplify_list_eq.
Qed.

Lemma edge_right_spec t : ∀ p,
  t ≠ null_element →
  ∃ k n pre, inorder t = pre ++ [(k, n)] ∧
    at_entry (plug t p) k n (edge_loop DRight t p) ∧
    preceding (edge_loop DRight t p) = before p ++ pre.
Proof.
  induction t as [|l IHl k n c r IHr]; intros p Hne; [done|].
  cbn [edge_loop]. destruct r as [|rl rk rn rc rr].
  - exists k, n, (inorder l). simpl. split_and!; [done| |done]. by eexists _, _, _, _.
  - destruct (IHr (mkFrame DRight k n c l :: p)) as (k' & n' & pre & Hin & Hat & Hf); [done|].
    exists k', n', (inorder l ++ (k, n) :: pre). split_and!; [|done|].
    + cbn [inorder] in *. rewrite Hin. by simplify_list_eq.
    + rewrite Hf. simpl. by simplify_list_eq.
Qed.

Lemma climb_right_spec p : ∀ x,
  match after p with
  | [] => (climb DRight x p).1 = null_element
  | (k, n) :: rest =>
      at_entry (plug x p) k n (climb DRight x p) ∧ following (climb DRight x p) = rest
  end.
Proof.
  induction p as [|[[] k n c o] p IH]; intros x; cbn -[fill]; [done| |].
  - split; [|done]. by eexists _, _, _, _.
  - apply IH.
Qed.

Lemma climb_left_spec p : ∀ x,
  match reverse (before p) with
  | [] => (climb DLeft x p).1 = null_element
  | (k, n) :: rest =>
      at_entry (plug x p) k n (climb DLeft x p) ∧
      reverse (preceding (climb DLeft x p)) = rest
  end.
Proof.
  induction p as [|[[] k n c o] p IH]; intros x; cbn -[fill reverse].
  - done.
  - rewrite app_nil_r. apply IH.
  - rewrite !reverse_app. cbn -[fill reverse]. 
    change (reverse [(k, n)]) with [(k, n)]. cbn -[reverse].
    split; [by eexists _, _, _, _|]. by rewrite reverse_app.
Qed.

(** C31. From an entry, [tree_search_next(.., left, right)] steps to the next entry
    of the same tree, and with the sides exchanged to the previous one; it
    returns [null_element] exactly at the end. *)
Theorem tree_search_next_correct t k n pos :
  at_entry t k n pos →
  match following pos with
  | [] => (tree_search_next pos DLeft DRight).1 = null_element
  | (k', n') :: rest =>
      at_entry t k' n' (tree_search_next pos DLeft DRight) ∧
      following (tree_search_next pos DLeft DRight) = rest
  end ∧
  match reverse (preceding pos) with
  | [] => (tree_search_next pos DRight DLeft).1 = null_element
  | (k', n') :: rest =>
      at_entry t k' n' (tree_search_next pos DRight DLeft) ∧
      reverse (preceding (tree_search_next pos DRight DLeft)) = rest
  end.
Proof.
  intros (l & c & r & q & -> & <-). split; cbn [following preceding].
  - cbn [tree_search_next frame_of child]. destruct r as [|rl rk rn rc rr].
    + cbn [inorder app]. apply climb_right_spec.
    + destruct (edge_left_spec (element rl rk rn rc rr) (mkFrame DRight k n c l :: q))
        as (k' & n' & Hin & Hat & Hf); [done|].
      rewrite Hin. cbn [app]. split; [done|]. rewrite Hf. done.
  - cbn [tree_search_next frame_of child]. destruct l as [|ll lk ln lc lr].
    + cbn [inorder]. rewrite app_nil_r. apply climb_left_spec.
    + destruct (edge_right_spec (element ll lk ln lc lr) (mkFrame DLeft k n c r :: q))
        as (k' & n' & pre & Hin & Hat & Hf); [done|].
      rewrite Hin, app_assoc, reverse_app.
      change (reverse [(k', n')]) with [(k', n')]. cbn [app].
      split; [done|]. rewrite Hf. cbn [before]. by rewrite app_nil_r.
Qed.

End Scan.

(** ** Releasing the elements *)

Section Free.
Context {Key : Type} (free_result : Key → Z).

(** Releasing the entries of a list, in order, up to the first one whose
    callback reports an error. *)
Fixpoint free_until_error (es : list (Key * Z)) : Z * list (@free_call Key) :=
  match es with
  | [] => (0%Z, [])
  | (k, _) :: es' =>
      if (free_result k =? 0)%Z then
        let '(e, tr) := free_until_error es' in (e, FreeElement k :: tr)
      else (free_result k, [FreeElement k])
  end.

Lemma free_until_error_app es1 es2 :
  free_until_error (es1 ++ es2) =
  let '(e1, tr1) := free_until_error es1 in
  if (e1 =? 0)%Z then
    let '(e2, tr2) := free_until_error es2 in (e2, tr1 ++ tr2)
  else (e1, tr1).
Proof.
  induction es1 as [|[k n] es1 IH]; simpl; [by destruct (free_until_error es2)|].
  destruct (free_result k =? 0)%Z eqn:Hk; [|by rewrite Hk].
  rewrite IH. destruct (free_until_error es1) as [e1 tr1].
  destruct (e1 =? 0)%Z; [|done]. by destruct (free_until_error es2).
Qed.

Lemma delete_tree_element_quiet free t abort :
  free = false ∨ abort = true →
  delete_tree_element free_result free t abort = (0%Z, []).
Proof.
  revert abort; induction t as [|l IHl k n c r IHr]; intros abort Hq; simpl; [done|].
  rewrite IHl by done. simpl. rewrite orb_false_r.
  assert (negb abort && free = false) as -> 
    by (by destruct Hq as [-> | ->]; rewrite ?andb_false_r).
  simpl. rewrite orb_false_r. by rewrite IHr.
Qed.

(** [delete_tree_element] calls the free callback on the elements in key
    order and stops calling it at the first error, which it returns; it calls
    nothing when there is no callback or the caller asked for an abort. *)
Theorem delete_tree_element_correct free t abort :
  delete_tree_element free_result free t abort =
  if free && negb abort then free_until_error (inorder t) else (0%Z, []).
Proof.
  destruct (decide (free = false ∨ abort = true)) as [Hq|Hq].
  { rewrite delete_tree_element_quiet by done.
    destruct free, abort; try done. by destruct Hq. }
  assert (free = true) as -> by (destruct free; intuition).
  assert (abort = false) as -> by (destruct abort; intuition).
  clear Hq. simpl. induction t as [|l IHl k n c r IHr]; simpl; [done|].
  rewrite free_until_error_app, IHl. simpl.
  destruct (free_until_error (inorder l)) as [e1 tr1].
  destruct (e1 =? 0)%Z eqn:He1; simpl.
  - destruct (free_result k =? 0)%Z eqn:He2; simpl.
    + rewrite ?He1, ?He2, IHr. by destruct (free_until_error (inorder r)).
    + rewrite delete_tree_element_quiet by auto. by rewrite ?He1, ?He2.
  - rewrite delete_tree_element_quiet by auto. rewrite ?He1. simpl. by rewrite app_nil_r.
Qed.
End Free.

(** ** [tree_search_key] *)

Section SearchKey.
Context {Key : Type} (compare : Key → Key → Z) (key : Key).
Implicit Types (t R : @TREE_ELEMENT Key) (es : list (Key * Z)) (p : list (@frame Key)).

(** The comparison of a search may see less of a key than the order of the tree
    does, a prefix of its parts for one, so that several entries may be equal to the
    search key; it only has to agree with the order: smaller entries, then equal
    ones, then larger ones. *)
Definition search_sorted es : Prop :=
  StronglySorted (λ x y, (Z.sgn (compare x.1 key) ≤ Z.sgn (compare y.1 key))%Z) es.

(** [pos] is on the first entry of [R] that satisfies [P], or is none and there is
    no such entry; the same for the last entry. *)
Definition first_at (P : Key → bool) R (pos : option (TREE_ELEMENT * list frame)) : Prop :=
  match pos with
  | Some pos => ∃ k n, at_entry R k n pos ∧ P k = true ∧ Forall (λ x, P x.1 = false) (preceding pos)
  | None => Forall (λ x, P x.1 = false) (inorder R)
  end.
Definition last_at (P : Key → bool) R (pos : option (TREE_ELEMENT * list frame)) : Prop :=
  match pos with
  | Some pos => ∃ k n, at_entry R k n pos ∧ P k = true ∧ Forall (λ x, P x.1 = false) (following pos)
  | None => Forall (λ x, P x.1 = false) (inorder R)
  end.

(** The flags of tables with spatial indexes and [HA_READ_PREFIX] are not implemented. *)
Definition implemented (f : ha_rkey_function) : bool :=
  match f with
  | HA_READ_PREFIX | HA_READ_MBR_CONTAIN | HA_READ_MBR_INTERSECT | HA_READ_MBR_WITHIN
  | HA_READ_MBR_DISJOINT | HA_READ_MBR_EQUAL => false
  | _ => true
  end.

(** What each implemented flag asks for, on the contents in order. *)
Definition search_key_spec (f : ha_rkey_function) R (pos : option (TREE_ELEMENT * list frame)) : Prop :=
  match f with
  | HA_READ_KEY_EXACT => first_at (λ k, compare k key =? 0)%Z R pos
  | HA_READ_KEY_OR_NEXT => first_at (λ k, compare k key >=? 0)%Z R pos
  | HA_READ_KEY_OR_PREV =>
      pos ≠ None ∧ first_at (λ k, compare k key =? 0)%Z R pos ∨
      Forall (λ x, (compare x.1 key =? 0)%Z = false) (inorder R) ∧ last_at (λ k, compare k key <? 0)%Z R pos
  | HA_READ_AFTER_KEY => first_at (λ k, compare k key >? 0)%Z R pos
  | HA_READ_BEFORE_KEY => last_at (λ k, compare k key <? 0)%Z R pos
  | HA_READ_PREFIX_LAST => last_at (λ k, compare k key =? 0)%Z R pos
  | HA_READ_PREFIX_LAST_OR_PREV => last_at (λ k, compare k key <=? 0)%Z R pos
  | _ => False
  end.

(** A position, if it is on an entry that is equal to the key. *)
Definition if_equal (pos : option (TREE_ELEMENT * list frame)) : option (TREE_ELEMENT * list frame) :=
  match key_of pos with
  | Some k => if (compare k key =? 0)%Z then pos else None
  | None => None
  end.

(** Before the loop enters [t], the entries before [t] are smaller (or equal, if
    [up], when equal keys send the loop to the right) and the entries behind it
    larger (or equal); [rgt] is on the last of the former and [lft] on the first
    of the latter, and [eq] on whichever of the two an equal entry would be. *)
Definition goes_right (up : bool) (k : Key) : bool :=
  if up then (compare k key <=? 0)%Z else (compare k key <? 0)%Z.

Record scan_state R t p (up remember : bool) (eq lft rgt : option (TREE_ELEMENT * list frame)) : Prop := {
  ss_plug : plug t p = R;
  ss_before : Forall (λ x, goes_right up x.1 = true) (before p);
  ss_after : Forall (λ x, goes_right up x.1 = false) (after p);
  ss_left : match lft with
            | Some pos => ∃ k n, at_entry R k n pos ∧ after p = (k, n) :: following pos
                            ∧ preceding pos = before p ++ inorder t
            | None => after p = []
            end;
  ss_right : match rgt with
             | Some pos => ∃ k n, at_entry R k n pos ∧ before p = preceding pos ++ [(k, n)]
                             ∧ following pos = inorder t ++ after p
             | None => before p = []
             end;
  ss_equal : remember = true → eq = if_equal (if up then rgt else lft);
}.

Lemma at_entry_key R k n pos : at_entry R k n pos → key_of (Some pos) = Some k.
Proof. by intros (l & c & r & q & -> & _). Qed.

Lemma if_equal_at R k n pos :
  at_entry R k n pos → if_equal (Some pos) = if (compare k key =? 0)%Z then Some pos else None.
Proof. intros Hat. unfold if_equal. by rewrite (at_entry_key _ _ _ _ Hat). Qed.

Lemma search_around es1 k n es2 :
  search_sorted (es1 ++ (k, n) :: es2) →
  Forall (λ x, (Z.sgn (compare x.1 key) ≤ Z.sgn (compare k key))%Z) es1 ∧
  Forall (λ x, (Z.sgn (compare k key) ≤ Z.sgn (compare x.1 key))%Z) es2.
Proof.
  intros Hs. destruct (StronglySorted_app_inv _ _ _ Hs) as (_ & Hr & Hlr).
  inversion Hr as [|? ? Hsr Hkr]; subst. split; [|done].
  apply Forall_forall. intros x Hx. apply (Hlr x (k, n)); [by apply list_elem_of_In|by constructor].
Qed.

(** The entries around the element that the loop is at. *)
Lemma scan_around R l k n c r p up remember eq lft rgt :
  search_sorted (inorder R) → scan_state R (element l k n c r) p up remember eq lft rgt →
  Forall (λ x, (Z.sgn (compare x.1 key) ≤ Z.sgn (compare k key))%Z) (before p ++ inorder l) ∧
  Forall (λ x, (Z.sgn (compare k key) ≤ Z.sgn (compare x.1 key))%Z) (inorder r ++ after p).
Proof.
  intros Hs [<- _ _ _ _ _]. apply (search_around _ k n). rewrite inorder_plug in Hs. simpl in Hs.
  by rewrite <-!app_assoc in *.
Qed.

Lemma goes_right_smaller up k es :
  goes_right up k = true → Forall (λ x, (Z.sgn (compare x.1 key) ≤ Z.sgn (compare k key))%Z) es →
  Forall (λ x, goes_right up x.1 = true) es.
Proof. intros Hk Hf. eapply list.Forall_impl; [exact Hf|]. intros x Hx. unfold goes_right in *. destruct up; lia. Qed.

Lemma goes_left_larger up k es :
  goes_right up k = false → Forall (λ x, (Z.sgn (compare k key) ≤ Z.sgn (compare x.1 key))%Z) es →
  Forall (λ x, goes_right up x.1 = false) es.
Proof. intros Hk Hf. eapply list.Forall_impl; [exact Hf|]. intros x Hx. unfold goes_right in *. destruct up; lia. Qed.

Lemma scan_right R l k n c r p up remember eq lft rgt :
  search_sorted (inorder R) → scan_state R (element l k n c r) p up remember eq lft rgt →
  goes_right up k = true →
  scan_state R r (mkFrame DRight k n c l :: p) up remember
    (if (compare k key =? 0)%Z && remember then Some (element l k n c r, p) else eq)
    lft (Some (element l k n c r, p)).
Proof.
  intros Hs Hst Hk. destruct (scan_around _ _ _ _ _ _ _ _ _ _ _ _ Hs Hst) as [Hlo Hhi].
  destruct Hst as [Hp Hb Ha Hl Hr He]. cbn [inorder] in *. split; cbn [before after f_dir f_key f_count f_other app].
  - done.
  - rewrite app_assoc, Forall_app. split; [by eapply goes_right_smaller|by constructor].
  - done.
  - destruct lft as [pos|]; [|done]. destruct Hl as (k' & n' & ? & ? & ->). exists k', n'.
    split_and!; [done..|]. by rewrite <-!app_assoc.
  - exists k, n. split_and!; [by eexists _, _, _, _|by rewrite ?app_assoc|done].
  - intros ->. rewrite andb_true_r, (He eq_refl). unfold goes_right in Hk. destruct up.
    + unfold if_equal at 2. cbn [key_of]. destruct (Z.eqb_spec (compare k key) 0); [done|].
      destruct rgt as [pos|]; [|done]. destruct Hr as (k' & n' & Hat & Hbp & _).
      rewrite (if_equal_at _ _ _ _ Hat). rewrite Hbp, !Forall_app in Hlo. destruct Hlo as [[_ Hk'%Forall_inv] _].
      simpl in Hk'. by rewrite (proj2 (Z.eqb_neq _ _)) by lia.
    + by rewrite (proj2 (Z.eqb_neq _ _)) by lia.
Qed.

Lemma scan_left R l k n c r p up remember eq lft rgt :
  search_sorted (inorder R) → scan_state R (element l k n c r) p up remember eq lft rgt →
  goes_right up k = false →
  scan_state R l (mkFrame DLeft k n c r :: p) up remember
    (if (compare k key =? 0)%Z && remember then Some (element l k n c r, p) else eq)
    (Some (element l k n c r, p)) rgt.
Proof.
  intros Hs Hst Hk. destruct (scan_around _ _ _ _ _ _ _ _ _ _ _ _ Hs Hst) as [Hlo Hhi].
  destruct Hst as [Hp Hb Ha Hl Hr He]. cbn [inorder] in *. split; cbn [before after f_dir f_key f_count f_other app].
  - done.
  - by rewrite app_nil_r.
  - constructor; [done|]. by eapply goes_left_larger.
  - exists k, n. split_and!; [by eexists _, _, _, _|done|by rewrite app_nil_r].
  - rewrite app_nil_r. destruct rgt as [pos|]; [|done]. destruct Hr as (k' & n' & ? & ? & ->). exists k', n'.
    split_and!; [done..|]. by rewrite <-!app_assoc.
  - intros ->. rewrite andb_true_r, (He eq_refl). unfold goes_right in Hk. destruct up.
    + by rewrite (proj2 (Z.eqb_neq _ _)) by lia.
    + unfold if_equal at 2. cbn [key_of]. destruct (Z.eqb_spec (compare k key) 0); [done|].
      destruct lft as [pos|]; [|done]. destruct Hl as (k' & n' & Hat & Hap & _).
      rewrite (if_equal_at _ _ _ _ Hat). rewrite Hap, Forall_app in Hhi. destruct Hhi as [_ Hk'%Forall_inv].
      simpl in Hk'. by rewrite (proj2 (Z.eqb_neq _ _)) by lia.
Qed.

(** The loop ends below some path, with the three positions of the end. *)
Lemma search_key_loop_spec R f v remember t : ∀ p eq lft rgt,
  search_sorted (inorder R) → on_equal f = Some (v, remember) →
  scan_state R t p (v <? 0)%Z remember eq lft rgt →
  ∃ p' eq' lft' rgt', search_key_loop compare f t key p eq lft rgt = Some (eq', lft', rgt') ∧
    scan_state R null_element p' (v <? 0)%Z remember eq' lft' rgt'.
Proof.
  induction t as [|l IHl k n c r IHr]; intros p eq lft rgt Hs Hf Hst.
  { by exists p, eq, lft, rgt. }
  cbn [search_key_loop]. rewrite Hf.
  set (eq2 := if (compare k key =? 0)%Z && remember then Some (element l k n c r, p) else eq).
  assert (Hgo : ∃ cmp, (if (compare k key =? 0)%Z
      then '(v, rm) ← Some (v, remember); Some (v, if (rm : bool) then Some (element l k n c r, p) else eq)
      else Some (compare k key, eq)) = Some (cmp, eq2) ∧ (cmp <? 0)%Z = goes_right (v <? 0)%Z k).
  { unfold eq2, goes_right. destruct (Z.eqb_spec (compare k key) 0) as [E|E]; cbn [mbind option_bind andb].
    - eexists. split; [done|]. rewrite E. by destruct (v <? 0)%Z.
    - eexists. split; [done|]. destruct (v <? 0)%Z; lia. }
  destruct Hgo as (cmp & -> & Hc). cbn [mbind option_bind]. rewrite Hc.
  destruct (goes_right _ k) eqn:Hk; [eapply IHr|eapply IHl]; try done; [by eapply scan_right|by eapply scan_left].
Qed.

(** The positions at the end of the loop. *)
Lemma scan_last R p up remember eq lft rgt :
  scan_state R null_element p up remember eq lft rgt → last_at (goes_right up) R rgt.
Proof.
  intros [Hp Hb Ha _ Hr _]. simpl in *. destruct rgt as [pos|]; simpl.
  - destruct Hr as (k & n & Hat & Hbp & ->). rewrite Hbp, Forall_app in Hb.
    destruct Hb as [_ Hk%Forall_inv]. by exists k, n.
  - rewrite <-Hp, inorder_plug, Hr. done.
Qed.

Lemma scan_first R p up remember eq lft rgt :
  scan_state R null_element p up remember eq lft rgt → first_at (λ k, negb (goes_right up k)) R lft.
Proof.
  intros [Hp Hb Ha Hl _ _]. simpl in *.
  assert (Hb' : Forall (λ x, negb (goes_right up x.1) = false) (before p)).
  { eapply list.Forall_impl; [exact Hb|]. intros x Hx. simpl in *. by rewrite Hx. }
  destruct lft as [pos|]; simpl.
  - destruct Hl as (k & n & Hat & Hap & ->). rewrite Hap in Ha. apply Forall_inv in Ha. exists k, n.
    simpl in Ha. rewrite Ha, app_nil_r. done.
  - rewrite <-Hp, inorder_plug, Hl. simpl. by rewrite app_nil_r.
Qed.

Lemma first_at_ext P Q R pos : (∀ k, P k = Q k) → first_at P R pos → first_at Q R pos.
Proof.
  intros HPQ. destruct pos as [pos|]; simpl.
  - intros (k & n & Hat & Hk & Hf). exists k, n. rewrite <-HPQ. split_and!; [done..|].
    eapply list.Forall_impl; [exact Hf|]. intros x. simpl. by rewrite HPQ.
  - intros Hf. eapply list.Forall_impl; [exact Hf|]. intros x. simpl. by rewrite HPQ.
Qed.

Lemma last_at_ext P Q R pos : (∀ k, P k = Q k) → last_at P R pos → last_at Q R pos.
Proof.
  intros HPQ. destruct pos as [pos|]; simpl.
  - intros (k & n & Hat & Hk & Hf). exists k, n. rewrite <-HPQ. split_and!; [done..|].
    eapply list.Forall_impl; [exact Hf|]. intros x. simpl. by rewrite HPQ.
  - intros Hf. eapply list.Forall_impl; [exact Hf|]. intros x. simpl. by rewrite HPQ.
Qed.

Lemma at_entry_inorder R k n pos :
  at_entry R k n pos → inorder R = preceding pos ++ (k, n) :: following pos.
Proof.
  intros (l & c & r & q & -> & <-). rewrite inorder_plug. simpl. by rewrite <-!app_assoc.
Qed.

(** The first entry that is not smaller is the first equal one, or there is none; the same for the last. *)
Lemma first_equal R pos :
  search_sorted (inorder R) → first_at (λ k, compare k key >=? 0)%Z R pos →
  first_at (λ k, compare k key =? 0)%Z R (if_equal pos).
Proof.
  intros Hs. destruct pos as [pos|]; simpl.
  - intros (k & n & Hat & Hk & Hf). rewrite (if_equal_at _ _ _ _ Hat).
    assert (Hpre : Forall (λ x, (compare x.1 key =? 0)%Z = false) (preceding pos)).
    { eapply list.Forall_impl; [exact Hf|]. intros x. simpl. lia. }
    destruct (Z.eqb_spec (compare k key) 0) as [E|E]; simpl.
    + exists k, n. split_and!; [done|lia|done].
    + rewrite (at_entry_inorder _ _ _ _ Hat) in *. destruct (search_around _ _ _ _ Hs) as [_ Hhi].
      rewrite Forall_app. split; [done|]. constructor; [simpl; lia|].
      eapply list.Forall_impl; [exact Hhi|]. intros x. simpl. lia.
  - intros Hf. eapply list.Forall_impl; [exact Hf|]. intros x. simpl. lia.
Qed.

Lemma last_equal R pos :
  search_sorted (inorder R) → last_at (λ k, compare k key <=? 0)%Z R pos →
  last_at (λ k, compare k key =? 0)%Z R (if_equal pos).
Proof.
  intros Hs. destruct pos as [pos|]; simpl.
  - intros (k & n & Hat & Hk & Hf). rewrite (if_equal_at _ _ _ _ Hat).
    assert (Hpost : Forall (λ x, (compare x.1 key =? 0)%Z = false) (following pos)).
    { eapply list.Forall_impl; [exact Hf|]. intros x. simpl. lia. }
    destruct (Z.eqb_spec (compare k key) 0) as [E|E]; simpl.
    + exists k, n. split_and!; [done|lia|done].
    + rewrite (at_entry_inorder _ _ _ _ Hat) in *. destruct (search_around _ _ _ _ Hs) as [Hlo _].
      rewrite Forall_app. split; [|constructor; [simpl; lia|done]].
      eapply list.Forall_impl; [exact Hlo|]. intros x. simpl. lia.
  - intros Hf. eapply list.Forall_impl; [exact Hf|]. intros x. simpl. lia.
Qed.

Lemma or_else_if_equal pos : or_else (if_equal pos) pos = pos.
Proof. unfold if_equal. destruct (key_of pos); [|done]. by destruct (_ =? 0)%Z, pos. Qed.

(** C28. [tree_search_key] for each of the seven search flags it implements, on a tree
    whose entries are smaller than, then equal to, then larger than the search key,
    several of which may be equal: it returns a position on the entry the flag asks
    for, and none exactly when there is no such entry. [HA_READ_KEY_EXACT] asks for
    the first equal entry, [HA_READ_PREFIX_LAST] for the last one,
    [HA_READ_KEY_OR_NEXT] for the first that is not smaller, [HA_READ_AFTER_KEY] for
    the first larger, [HA_READ_BEFORE_KEY] for the last smaller,
    [HA_READ_PREFIX_LAST_OR_PREV] for the last that is not larger, and
    [HA_READ_KEY_OR_PREV] for the first equal entry or else the last smaller. *)
Theorem tree_search_key_correct T f :
  search_sorted (inorder (root T)) → implemented f = true →
  search_key_spec f (root T) (tree_search_key compare T key f).
Proof.
  intros Hs Hi. unfold tree_search_key.
  assert (Hf : ∃ v remember, on_equal f = Some (v, remember)) by (destruct f; by eauto).
  destruct Hf as (v & remember & Hf).
  destruct (search_key_loop_spec (root T) f v remember (root T) [] None None None) as (p & eq & lft & rgt & -> & Hst);
    [done..|split; try done; [constructor..|intros _; by destruct (v <? 0)%Z]|].
  pose proof (scan_first _ _ _ _ _ _ _ Hst) as Hfirst. pose proof (scan_last _ _ _ _ _ _ _ Hst) as Hlast.
  pose proof (ss_equal _ _ _ _ _ _ _ _ Hst) as He. clear Hst.
  assert (Hge : (v <? 0)%Z = false → first_at (λ k, compare k key >=? 0)%Z (root T) lft).
  { intros Hv. revert Hfirst. apply first_at_ext. intros k. rewrite Hv. simpl. lia. }
  assert (Hgt : (v <? 0)%Z = true → first_at (λ k, compare k key >? 0)%Z (root T) lft).
  { intros Hv. revert Hfirst. apply first_at_ext. intros k. rewrite Hv. simpl. lia. }
  destruct f; try done; injection Hf as <- <-; cbn [search_key_spec]; simpl in He, Hge, Hgt, Hlast;
    rewrite ?He, ?or_else_if_equal by done; try done.
  - by apply first_equal, Hge.
  - by apply Hge.
  - pose proof (first_equal _ _ Hs (Hge eq_refl)) as Heq. destruct (if_equal lft) as [pos|]; simpl; [left|right]; done.
  - by apply Hgt.
  - by apply last_equal.
Qed.

(** In a tree that is sorted by the comparison of the search, all keys qualify. *)
Lemma keys_sorted_search `{!TotalCmp compare} es : keys_sorted compare es → search_sorted es.
Proof.
  unfold keys_sorted, search_sorted. induction 1 as [|x es Hs IH Hx]; constructor; [done|].
  eapply list.Forall_impl; [exact Hx|]. intros y Hy. simpl in Hy.
  pose proof (cmp_lt_trans_l compare x.1 y.1 key Hy). pose proof (cmp_trans x.1 y.1 key).
  pose proof (cmp_sgn x.1 key). pose proof (cmp_sgn y.1 key). lia.
Qed.

(** The other flags find nothing. *)
Lemma tree_search_key_other T f : implemented f = false → tree_search_key compare T key f = None.
Proof. intros Hf. unfold tree_search_key. repeat case_match; done. Qed.

End SearchKey.

(** ** Witnesses: a tree of three integer keys *)

Definition small_tree : @TREE Z :=
  mkTREE (element (element null_element 1%Z 1 RED null_element) 4%Z 2 BLACK
            (element null_element 9%Z 1 RED null_element)) 3 8 0 96 true 0 true.

Lemma small_tree_ok : tree_ok Zcmp small_tree.
Proof.
  split; try done.
  - exists 1. simpl. repeat constructor.
  - repeat constructor; done.
Qed.

Lemma tree_insert_correct_witness :
  ∃ res tr T', tree_insert Zcmp (λ _, 0%Z) 2 true small_tree 6%Z 4 = Some (res, tr, T') ∧
    tree_ok Zcmp T'.
Proof.
  destruct (tree_insert_correct Zcmp (λ _, 0%Z) true small_tree 6%Z 4)
    as (res & tr & T' & H & Hok & _); [exact small_tree_ok|done|].
  exists res, tr, T'. split; [exact H|exact Hok].
Defined.

Lemma tree_delete_correct_witness :
  ∃ res tr T', tree_delete Zcmp small_tree 4%Z 4 = Some (res, tr, T') ∧
    tree_ok Zcmp T'.
Proof.
  destruct (tree_delete_correct Zcmp small_tree 4%Z 4)
    as (res & tr & T' & H & Hok & _); [exact small_tree_ok|done|].
  exists res, tr, T'. split; [exact H|exact Hok].
Defined.

(** A search for the first digit: 41 and 45 are both equal to it. *)
Definition first_digit (k key : Z) : Z := (k / 10 - key)%Z.
Definition digit_tree : @TREE Z :=
  mkTREE (element (element null_element 41%Z 1 RED null_element) 45%Z 2 BLACK
            (element null_element 90%Z 1 RED null_element)) 3 8 0 96 true 0 true.

Lemma tree_search_key_correct_witness :
  key_of (tree_search_key first_digit digit_tree 4%Z HA_READ_PREFIX_LAST) = Some 45%Z ∧
  search_key_spec first_digit 4%Z HA_READ_PREFIX_LAST (root digit_tree)
    (tree_search_key first_digit digit_tree 4%Z HA_READ_PREFIX_LAST).
Proof.
  split; [done|]. apply (tree_search_key_correct first_digit 4%Z digit_tree HA_READ_PREFIX_LAST); [|done].
  repeat constructor; done.
Defined.

Lemma tree_search_correct_witness : tree_search Zcmp small_tree 4%Z = Some 4%Z.
Proof. apply (tree_search_correct Zcmp small_tree 4%Z). exact small_tree_ok. Defined.

Lemma tree_search_next_correct_witness :
  at_entry (root small_tree) 9%Z 1
    (tree_search_next (root small_tree, []) DLeft DRight).
Proof.
  apply (tree_search_next_correct (root small_tree) 4%Z 2 (root small_tree, [])).
  by eexists _, _, _, _.
Defined.
