(* ===== verification/Hash.v ===== *)
(** * Hash tables ([mysys/hash.c], [include/hash.h])

    A [HASH] is a linear hashing table: an array of links, one per record, in
    which the records of a bucket are chained by index.  The table grows by
    splitting one bucket per insertion and shrinks by merging one bucket per
    deletion, so the array is always full.

    Records are compared by address ([Rec]); the bytes a record holds, the hash
    function and the collation are parameters.  An index outside the array is
    [None].  Links are [uint32], [NO_RECORD] is the largest one. *)

From S2P Require Import Prelude.
Local Open Scope Z_scope.

Definition NO_RECORD : Z := 2 ^ 32 - 1.
Definition LOWFIND : Z := 1.
Definition LOWUSED : Z := 2.
Definition HIGHFIND : Z := 4.
Definition HIGHUSED : Z := 8.
Definition HASH_UNIQUE : Z := 1.

(** The bucket of a hash number in a table of [maxlength] buckets. *)
Definition my_hash_mask (hashnr buffmax maxlength : Z) : Z :=
  if Z.land hashnr (buffmax - 1) <? maxlength then Z.land hashnr (buffmax - 1)
  else Z.land hashnr ((Z.shiftr buffmax 1 - 1) mod 2 ^ 64).

Section Hash.
Context {Rec : Type} `{!EqDecision Rec}.

Record HASH_LINK := mkLINK {
  next : Z;
  hash_nr : Z;
  data : Rec;
}.

Definition set_next (x : HASH_LINK) (n : Z) : HASH_LINK := mkLINK n (hash_nr x) (data x).
Definition set_hash_nr (x : HASH_LINK) (h : Z) : HASH_LINK := mkLINK (next x) h (data x).
Definition set_data (x : HASH_LINK) (r : Rec) : HASH_LINK := mkLINK (next x) (hash_nr x) r.

Record HASH := mkHASH {
  key_offset : nat;
  key_length : nat;
  blength : Z;
  records : Z;
  flags : Z;
  array : list HASH_LINK;
  get_key : option (Rec → list Z * nat);
  has_free : bool;
}.

Definition set_table (h : HASH) (b n : Z) (a : list HASH_LINK) : HASH :=
  mkHASH (key_offset h) (key_length h) b n (flags h) a (get_key h) (has_free h).

(** Reading and writing [data[idx]]. *)
Definition rd (d : list HASH_LINK) (idx : Z) : option HASH_LINK := d !! Z.to_nat idx.
Definition wr (d : list HASH_LINK) (idx : Z) (x : HASH_LINK) : option (list HASH_LINK) :=
  if decide (Z.to_nat idx < length d)%nat then Some (<[Z.to_nat idx:=x]> d) else None.

Definition my_hash_rec_mask (pos : HASH_LINK) (buffmax maxlength : Z) : Z :=
  my_hash_mask (hash_nr pos) buffmax maxlength.

Definition my_hash_init2 (koff klen : nat) (gk : option (Rec → list Z * nat))
    (free_element : bool) (fl : Z) : HASH :=
  mkHASH koff klen 1 0 fl [] gk free_element.

(** The records handed to [hash->free], in order. *)
Definition my_hash_free_elements (h : HASH) : list Rec * HASH :=
  if records h =? 0 then ([], h)
  else
    (if has_free h then data <$> take (Z.to_nat (records h)) (array h) else [],
     set_table h (blength h) 0 (array h)).

Definition my_hash_free (h : HASH) : list Rec * HASH :=
  let '(tr, h') := my_hash_free_elements h in
  (tr, mkHASH (key_offset h') (key_length h') 0 (records h') (flags h') []
              (get_key h') false).

Definition my_hash_reset (h : HASH) : list Rec * HASH :=
  let '(tr, h') := my_hash_free_elements h in
  (tr, set_table h' 1 (records h') []).

Section Ops.
(** The bytes at a record, the hash function and the collation of the table,
    with the lengths they are called with. *)
Context (bytes_at : Rec → list Z).
Context (hash_function : list Z → nat → Z).
Context (my_strnncoll : list Z → nat → list Z → nat → Z).

Definition my_hash_key (h : HASH) (record : Rec) : list Z * nat :=
  match get_key h with
  | Some f => f record
  | None => (drop (key_offset h) (bytes_at record), key_length h)
  end.

Definition rec_hashnr (h : HASH) (record : Rec) : Z :=
  let '(key, length) := my_hash_key h record in hash_function key length.

(** [hashcmp() == 0]. *)
Definition hashcmp (h : HASH) (pos : HASH_LINK) (key : list Z) (length : nat) : bool :=
  let '(rec_key, rec_keylength) := my_hash_key h (data pos) in
  if decide (length = rec_keylength) then
    my_strnncoll rec_key rec_keylength key rec_keylength =? 0
  else false.

(** [length ? length : hash->key_length]. *)
Definition full_length (h : HASH) (length : nat) : nat :=
  if decide (length = 0%nat) then key_length h else length.

Fixpoint first_loop (fuel : nat) (h : HASH) (key : list Z) (length : nat)
    (flag : bool) (idx : Z) : option (option (Rec * Z)) :=
  match fuel with
  | O => None
  | S fuel =>
      pos ← rd (array h) idx;
      if hashcmp h pos key length then Some (Some (data pos, idx))
      else if flag && negb (my_hash_rec_mask pos (blength h) (records h) =? idx)
      then Some None
      else if next pos =? NO_RECORD then Some None
      else first_loop fuel h key length false (next pos)
  end.

(** The record found and [*current_record]; no record is [None] and
    [NO_RECORD]. *)
Definition my_hash_first_from_hash_value (h : HASH) (hash_value : Z) (key : list Z)
    (len : nat) : option (option Rec * Z) :=
  if records h =? 0 then Some (None, NO_RECORD)
  else
    let idx := my_hash_mask hash_value (blength h) (records h) in
    r ← first_loop (S (length (array h))) h key (full_length h len) true idx;
    Some (match r with Some (x, i) => (Some x, i) | None => (None, NO_RECORD) end).

Definition my_hash_first (h : HASH) (key : list Z) (length : nat) :
    option (option Rec * Z) :=
  my_hash_first_from_hash_value h (hash_function key (full_length h length)) key length.

Definition my_hash_search_using_hash_value (h : HASH) (hash_value : Z) (key : list Z)
    (length : nat) : option (option Rec) :=
  fst <$> my_hash_first_from_hash_value h hash_value key length.

Definition my_hash_search (h : HASH) (key : list Z) (length : nat) : option (option Rec) :=
  fst <$> my_hash_first h key length.

Fixpoint next_loop (fuel : nat) (h : HASH) (key : list Z) (length : nat) (idx : Z) :
    option (option Rec * Z) :=
  if idx =? NO_RECORD then Some (None, NO_RECORD)
  else
    match fuel with
    | O => None
    | S fuel =>
        pos ← rd (array h) idx;
        if hashcmp h pos key length then Some (Some (data pos), idx)
        else next_loop fuel h key length (next pos)
    end.

Definition my_hash_next (h : HASH) (key : list Z) (len : nat) (current_record : Z) :
    option (option Rec * Z) :=
  if current_record =? NO_RECORD then Some (None, current_record)
  else
    cur ← rd (array h) current_record;
    next_loop (length (array h)) h key (full_length h len) (next cur).

(** Change the link to [find], on the chain from [next_link], into [newlink]. *)
Fixpoint movelink (fuel : nat) (d : list HASH_LINK) (find next_link newlink : Z) :
    option (list HASH_LINK) :=
  match fuel with
  | O => None
  | S fuel =>
      old_link ← rd d next_link;
      if next old_link =? find then wr d next_link (set_next old_link newlink)
      else movelink fuel d find (next old_link) newlink
  end.

(** ** Insertion *)

(** The variables of the loop that splits a bucket: [gpos] with [rec_data] and
    [rec_hash_nr] is the last record that stays, [gpos2] the last that moves. *)
Record split_state := mkSplit {
  s_data : list HASH_LINK;
  s_flag : Z;
  s_empty : Z;
  s_gpos : Z;
  s_rec : Z * Rec;
  s_gpos2 : Z;
  s_rec2 : Z * Rec;
}.

Definition has (flag bit : Z) : bool := negb (Z.land flag bit =? 0).

(** One turn of the loop at the record [pos] of index [idx], which stays. *)
Definition split_low (s : split_state) (idx : Z) (pos : HASH_LINK) : option split_state :=
  let '(mkSplit d flag empty gpos rec gpos2 rec2) := s in
  let rec' := (hash_nr pos, data pos) in
  if negb (has flag LOWFIND) then
    if has flag HIGHFIND then
      Some (mkSplit d (Z.lor LOWFIND HIGHFIND) idx empty rec' gpos2 rec2)
    else Some (mkSplit d (Z.lor LOWFIND LOWUSED) empty idx rec' gpos2 rec2)
  else if negb (has flag LOWUSED) then
    d' ← wr d gpos (mkLINK idx rec.1 rec.2);
    Some (mkSplit d' (Z.lor (Z.land flag HIGHFIND) (Z.lor LOWFIND LOWUSED)) empty idx rec'
                  gpos2 rec2)
  else Some (mkSplit d flag empty idx rec' gpos2 rec2).

(** The same for a record that moves to the new bucket. *)
Definition split_high (s : split_state) (idx : Z) (pos : HASH_LINK) : option split_state :=
  let '(mkSplit d flag empty gpos rec gpos2 rec2) := s in
  let rec' := (hash_nr pos, data pos) in
  if negb (has flag HIGHFIND) then
    Some (mkSplit d (Z.lor (Z.land flag LOWFIND) HIGHFIND) idx gpos rec empty rec')
  else if negb (has flag HIGHUSED) then
    d' ← wr d gpos2 (mkLINK idx rec2.1 rec2.2);
    Some (mkSplit d' (Z.lor (Z.land flag LOWFIND) (Z.lor HIGHFIND HIGHUSED)) empty gpos rec
                  idx rec')
  else Some (mkSplit d flag empty gpos rec idx rec').

Fixpoint split_loop (fuel : nat) (blen nrec halfbuff first_index : Z) (s : split_state)
    (idx : Z) : option split_state :=
  match fuel with
  | O => None
  | S fuel =>
      pos ← rd (s_data s) idx;
      if (s_flag s =? 0) && negb (my_hash_mask (hash_nr pos) blen nrec =? first_index)
      then Some s
      else
        s' ← (if Z.land (hash_nr pos) halfbuff =? 0 then split_low s idx pos
              else split_high s idx pos);
        pos' ← rd (s_data s') idx;
        if next pos' =? NO_RECORD then Some s'
        else split_loop fuel blen nrec halfbuff first_index s' (next pos')
  end.

(** The loop and the two statements after it: the array and [empty]. *)
Definition split_bucket (d : list HASH_LINK) (blen nrec : Z) (spare : Rec) :
    option (list HASH_LINK * Z) :=
  let halfbuff := Z.shiftr blen 1 in
  let first_index := nrec - halfbuff in
  if first_index =? nrec then Some (d, nrec)
  else
    s ← split_loop (length d) blen nrec halfbuff first_index
          (mkSplit d 0 nrec 0 (0, spare) 0 (0, spare)) first_index;
    d1 ← (if Z.land (s_flag s) (Z.lor LOWFIND LOWUSED) =? LOWFIND then
            wr (s_data s) (s_gpos s) (mkLINK NO_RECORD (s_rec s).1 (s_rec s).2)
          else Some (s_data s));
    d2 ← (if Z.land (s_flag s) (Z.lor HIGHFIND HIGHUSED) =? HIGHFIND then
            wr d1 (s_gpos2 s) (mkLINK NO_RECORD (s_rec2 s).1 (s_rec2 s).2)
          else Some d1);
    Some (d2, s_empty s).

(** The rest of [my_hash_insert]: the record goes to the head of its bucket. *)
Definition place (d : list HASH_LINK) (blen nrec : Z) (empty : Z) (hash : Z)
    (record : Rec) : option (list HASH_LINK) :=
  let idx := my_hash_mask hash blen (nrec + 1) in
  if idx =? empty then wr d idx (mkLINK NO_RECORD hash record)
  else
    pos ← rd d idx;
    d1 ← wr d empty pos;
    let gpos := my_hash_rec_mask pos blen (nrec + 1) in
    if idx =? gpos then wr d1 idx (mkLINK (empty mod 2 ^ 32) hash record)
    else
      d2 ← wr d1 idx (set_next pos NO_RECORD);
      d3 ← movelink (length d) d2 idx gpos empty;
      pos' ← rd d3 idx;
      wr d3 idx (mkLINK (next pos') hash record).

(** [mem] is the uninitialised element [alloc_dynamic] appends, if there is
    memory.  The [bool] is the C result. *)
Definition my_hash_insert (h : HASH) (mem : option HASH_LINK) (record : Rec) :
    option (bool * HASH) :=
  let '(key, len) := my_hash_key h record in
  let current_hash_nr := hash_function key len in
  dup ← (if Z.land (flags h) HASH_UNIQUE =? 0 then Some None
         else my_hash_search_using_hash_value h current_hash_nr key len);
  match dup, mem with
  | Some _, _ => Some (true, h)
  | None, None => Some (true, h)
  | None, Some garbage =>
      '(d1, empty) ← split_bucket (array h ++ [garbage]) (blength h) (records h) record;
      d2 ← place d1 (blength h) (records h) empty current_hash_nr record;
      let n := records h + 1 in
      Some (false, set_table h (if n =? blength h then blength h + blength h else blength h)
                             n d2)
  end.

(** ** Deletion *)

(** The chain walk for the record itself: its index and [gpos], the index
    before it; the inner [None] is "not found". *)
Fixpoint find_record (fuel : nat) (d : list HASH_LINK) (record : Rec) (pos : Z)
    (gpos : option Z) : option (option (Z * option Z)) :=
  match fuel with
  | O => None
  | S fuel =>
      x ← rd d pos;
      if decide (data x = record) then Some (Some (pos, gpos))
      else if next x =? NO_RECORD then Some None
      else find_record fuel d record (next x) (Some pos)
  end.

(** Take the record at [pos] out of its chain: the array and the index that is
    free now. *)
Definition unlink (d : list HASH_LINK) (pos : Z) (gpos : option Z) :
    option (list HASH_LINK * Z) :=
  x ← rd d pos;
  match gpos with
  | Some g =>
      y ← rd d g;
      d' ← wr d g (set_next y (next x));
      Some (d', pos)
  | None =>
      if next x =? NO_RECORD then Some (d, pos)
      else
        y ← rd d (next x);
        d' ← wr d pos y;
        Some (d', next x)
  end.

(** Move the last link into the free one, merging the last bucket: [blength]
    and [nrec] are the values before the deletion, [blength'] and [nrec - 1]
    those after it. *)
Definition move_last (d : list HASH_LINK) (blength blength' nrec empty : Z) :
    option (list HASH_LINK) :=
  let lastpos := nrec - 1 in
  if empty =? lastpos then Some d
  else
    lastx ← rd d lastpos;
    let lastpos_hashnr := hash_nr lastx in
    let pos := my_hash_mask lastpos_hashnr blength' lastpos in
    if pos =? empty then wr d empty lastx
    else
      posx ← rd d pos;
      let pos_hashnr := hash_nr posx in
      let pos3 := my_hash_mask pos_hashnr blength' lastpos in
      if negb (pos =? pos3) then
        d1 ← wr d empty posx;
        d2 ← wr d1 pos lastx;
        movelink (length d) d2 pos pos3 empty
      else
        let pos2 := my_hash_mask lastpos_hashnr blength nrec in
        let same := pos2 =? my_hash_mask pos_hashnr blength nrec in
        if same && negb (pos2 =? lastpos) then
          d1 ← wr d empty lastx;
          movelink (length d) d1 lastpos pos empty
        else
          let idx := if same then pos else NO_RECORD in
          d1 ← wr d empty lastx;
          posx1 ← rd d1 pos;
          d2 ← movelink (length d) d1 idx empty (next posx1);
          posx2 ← rd d2 pos;
          wr d2 pos (set_next posx2 empty).

(** The C result, the record given to [hash->free], and the table. *)
Definition my_hash_delete (h : HASH) (record : Rec) :
    option (bool * option Rec * HASH) :=
  if records h =? 0 then Some (true, None, h)
  else
    let start := my_hash_mask (rec_hashnr h record) (blength h) (records h) in
    r ← find_record (length (array h)) (array h) record start None;
    match r with
    | None => Some (true, None, h)
    | Some (pos, gpos) =>
        let n := records h - 1 in
        let blength' :=
          if n <? Z.shiftr (blength h) 1 then Z.shiftr (blength h) 1 else blength h in
        '(d1, empty) ← unlink (array h) pos gpos;
        d2 ← move_last d1 (blength h) blength' (records h) empty;
        Some (false, if has_free h then Some record else None,
              set_table h blength' n (take (length d2 - 1) d2))
    end.

(** ** Update of a key *)

(** The duplicate check: is there another record than [record] with the key? *)
Fixpoint other_loop (fuel : nat) (h : HASH) (record : Rec) (key : list Z) (len : nat)
    (found : option Rec) (state : Z) : option bool :=
  match fuel with
  | O => None
  | S fuel =>
      match found with
      | None => Some false
      | Some r =>
          if decide (r = record) then
            '(found', state') ← my_hash_next h key len state;
            other_loop fuel h record key len found' state'
          else Some true
      end
  end.

Definition relink (d : list HASH_LINK) (blen nrec new_index idx : Z)
    (previous : option Z) (hash : Z) : option (list HASH_LINK) :=
  org_link ← rd d idx;
  '(d1, empty) ← unlink d idx previous;
  if new_index =? empty then
    d2 ← (if empty =? idx then Some d1 else wr d1 empty org_link);
    x ← rd d2 empty;
    wr d2 empty (mkLINK NO_RECORD hash (data x))
  else
    pos ← rd d1 new_index;
    let new_pos_index := my_hash_rec_mask pos blen nrec in
    if negb (new_index =? new_pos_index) then
      d2 ← wr d1 empty pos;
      d3 ← movelink (length d) d2 new_index new_pos_index empty;
      wr d3 new_index (mkLINK NO_RECORD hash (data org_link))
    else
      d2 ← wr d1 empty (mkLINK (next pos) hash (data org_link));
      pos' ← rd d2 new_index;
      wr d2 new_index (set_next pos' empty).

Definition my_hash_update (h : HASH) (record : Rec) (old_key : list Z)
    (old_key_length : nat) : option (bool * HASH) :=
  let '(new_key, len) := my_hash_key h record in
  let hash := hash_function new_key len in
  dup ← (if Z.land HASH_UNIQUE (flags h) =? 0 then Some false
         else
           '(found, state) ← my_hash_first_from_hash_value h hash new_key len;
           other_loop (S (length (array h))) h record new_key len found state);
  if (dup : bool) then Some (true, h)
  else
    let org_index :=
      my_hash_mask (hash_function old_key (full_length h old_key_length))
                   (blength h) (records h) in
    let new_index := my_hash_mask hash (blength h) (records h) in
    r ← find_record (length (array h)) (array h) record org_index None;
    match r with
    | None => Some (true, h)
    | Some (idx, previous) =>
        d ← (if org_index =? new_index then
               x ← rd (array h) idx; wr (array h) idx (set_hash_nr x hash)
             else relink (array h) (blength h) (records h) new_index idx previous hash);
        Some (false, set_table h (blength h) (records h) d)
    end.

Definition my_hash_element (h : HASH) (idx : Z) : option (option Rec) :=
  if idx <? records h then x ← rd (array h) idx; Some (Some (data x)) else Some None.

Definition my_hash_replace (h : HASH) (current_record : Z) (new_row : Rec) : option HASH :=
  if current_record =? NO_RECORD then Some h
  else
    x ← rd (array h) current_record;
    d ← wr (array h) current_record (set_data x new_row);
    Some (set_table h (blength h) (records h) d).

End Ops.

(** ** Iteration and the debug check *)

Section Iterate.
Context {St : Type} (action : Rec → St → bool * St).

Fixpoint iterate_loop (fuel : nat) (d : list HASH_LINK) (i : Z) (s : St) :
    option (bool * St) :=
  match fuel with
  | O => Some (false, s)
  | S fuel =>
      x ← rd d i;
      let '(stop, s') := action (data x) s in
      if (stop : bool) then Some (true, s') else iterate_loop fuel d (i + 1) s'
  end.

Definition my_hash_iterate (h : HASH) (s : St) : option (bool * St) :=
  iterate_loop (Z.to_nat (records h)) (array h) 0 s.
End Iterate.

End Hash.
