(* ===== verification/HashFacts.v ===== *)
(** * Correctness of the hash tables

    Chains as lists of slots, the invariant of a table with at most one free
    slot, and the steps from which insertion, deletion and update are made. *)

From stdpp Require Import sets functions.
From S2P Require Import Prelude Hash.
Local Open Scope Z_scope.

(** ** Buckets *)

(** The bucket of a hash number as a slot of the array. *)
Definition bucket (blen : Z) (n : nat) (h : Z) : nat :=
  Z.to_nat (my_hash_mask h blen (Z.of_nat n)).

Lemma land_mask h k : 0 ≤ k → Z.land h (2 ^ k - 1) = h mod 2 ^ k.
Proof. intros Hk. rewrite <-Z.land_ones by done. by rewrite Z.ones_equiv, Z.sub_1_r. Qed.

Lemma mask_nonneg h B n : 0 ≤ h → 0 ≤ my_hash_mask h B n.
Proof. intros Hh. unfold my_hash_mask. case_match; apply Z.land_nonneg; auto. Qed.

Lemma bucket_Z blen n h : 0 ≤ h → Z.of_nat (bucket blen n h) = my_hash_mask h blen (Z.of_nat n).
Proof. intros Hh. unfold bucket. pose proof (mask_nonneg h blen (Z.of_nat n) Hh). lia. Qed.

(** The bucket by the remainder, in a table of [half <= n < 2 * half] buckets. *)
Lemma mask_mod h k n :
  0 ≤ k < 63 → my_hash_mask h (2 ^ (k + 1)) n =
  if h mod 2 ^ (k + 1) <? n then h mod 2 ^ (k + 1) else h mod 2 ^ k.
Proof.
  intros Hk. unfold my_hash_mask. rewrite land_mask by lia.
  case_match; [done|]. rewrite Z.shiftr_div_pow2 by lia.
  rewrite Z.pow_add_r by lia. change (2 ^ 1) with 2. rewrite Z.div_mul by lia.
  assert (2 ^ k ≤ 2 ^ 63) by (apply Z.pow_le_mono_r; lia).
  assert (0 < 2 ^ k) by (apply Z.pow_pos_nonneg; lia).
  rewrite (Z.mod_small (2 ^ k - 1)) by lia. apply land_mask; lia.
Qed.

Lemma mod_half h k :
  0 ≤ k → h mod 2 ^ (k + 1) = h mod 2 ^ k ∨ h mod 2 ^ (k + 1) = h mod 2 ^ k + 2 ^ k.
Proof.
  intros Hk. assert (0 < 2 ^ k) by (apply Z.pow_pos_nonneg; lia).
  rewrite Z.pow_add_r by lia. change (2 ^ 1) with 2.
  rewrite Z.rem_mul_r by lia.
  pose proof (Z.mod_pos_bound (h `div` 2 ^ k) 2 ltac:(lia)).
  assert ((h `div` 2 ^ k) mod 2 = 0 \/ (h `div` 2 ^ k) mod 2 = 1) as [-> | ->] by lia; lia.
Qed.

(** The bit that separates the two halves. *)
Lemma land_half h k :
  0 ≤ k → (Z.land h (2 ^ k) =? 0) = (h mod 2 ^ (k + 1) <? 2 ^ k).
Proof.
  intros Hk. assert (0 < 2 ^ k) by (apply Z.pow_pos_nonneg; lia).
  assert (Hb : Z.land h (2 ^ k) = if Z.testbit h k then 2 ^ k else 0).
  { apply Z.bits_inj'. intros i Hi. rewrite Z.land_spec, Z.pow2_bits_eqb by lia.
    destruct (Z.eqb_spec k i) as [->|Hne].
    - destruct (Z.testbit h i); [|by rewrite Z.bits_0]. by rewrite Z.pow2_bits_true.
    - rewrite andb_false_r. destruct (Z.testbit h k); [|by rewrite Z.bits_0].
      by rewrite Z.pow2_bits_false. }
  rewrite Hb, Z.pow_add_r by lia. change (2 ^ 1) with 2. rewrite Z.rem_mul_r by lia.
  pose proof (Z.mod_pos_bound h (2 ^ k)). rewrite Z.testbit_eqb by lia.
  pose proof (Z.mod_pos_bound (h `div` 2 ^ k) 2).
  destruct (Z.eqb_spec ((h `div` 2 ^ k) mod 2) 1) as [->|Hn].
  - rewrite (proj2 (Z.eqb_neq _ _)) by lia. symmetry. apply Z.ltb_ge. lia.
  - replace ((h `div` 2 ^ k) mod 2) with 0 by lia. symmetry. apply Z.ltb_lt. lia.
Qed.

(** Adding a bucket to a table splits one of the old buckets by that bit. *)
Lemma mask_split h k n :
  0 ≤ k < 63 → 2 ^ k ≤ n < 2 ^ (k + 1) →
  my_hash_mask h (2 ^ (k + 1)) (n + 1) =
  if (my_hash_mask h (2 ^ (k + 1)) n =? n - 2 ^ k) && negb (Z.land h (2 ^ k) =? 0)
  then n else my_hash_mask h (2 ^ (k + 1)) n.
Proof.
  intros Hk Hn. rewrite !mask_mod, land_half by lia.
  pose proof (mod_half h k). pose proof (Z.mod_pos_bound h (2 ^ k)).
  pose proof (Z.mod_pos_bound h (2 ^ (k + 1))).
  assert (2 ^ (k + 1) = 2 * 2 ^ k) by (rewrite Z.pow_add_r by lia; lia).
  assert (0 < 2 ^ k) by (apply Z.pow_pos_nonneg; lia).
  repeat case_match; lia.
Qed.

(** Doubling [blength] when the table is full changes no bucket. *)
Lemma mask_double h k :
  0 ≤ k < 62 → my_hash_mask h (2 ^ (k + 1)) (2 ^ k) = my_hash_mask h (2 ^ k) (2 ^ k).
Proof.
  intros Hk. rewrite mask_mod by lia. pose proof (mod_half h k).
  assert (0 < 2 ^ k) by (apply Z.pow_pos_nonneg; lia).
  pose proof (Z.mod_pos_bound h (2 ^ k) ltac:(done)).
  unfold my_hash_mask. rewrite land_mask by lia. rewrite (proj2 (Z.ltb_lt (h mod 2 ^ k) _)) by lia.
  case_match; lia.
Qed.

Lemma mask_bound h k n :
  0 ≤ k < 63 → 2 ^ k ≤ n ≤ 2 ^ (k + 1) → my_hash_mask h (2 ^ (k + 1)) n < n.
Proof.
  intros Hk Hn. rewrite mask_mod by lia. pose proof (Z.mod_pos_bound h (2 ^ k)).
  assert (0 < 2 ^ k) by (apply Z.pow_pos_nonneg; lia). case_match; lia.
Qed.

(** ** Chains *)

Section Chains.
Context {Rec : Type} `{!EqDecision Rec}.
Implicit Types (d : list (@HASH_LINK Rec)) (x y : @HASH_LINK Rec) (l c : list nat)
  (i j b g e p : nat).

Abbreviation slot i := (Z.of_nat i).

Definition first_of l (z : Z) : Z := match l with [] => z | i :: _ => slot i end.

(** The slots [l] are linked in this order and the last link is [z]. *)
Fixpoint seg d l (z : Z) : Prop :=
  match l with
  | [] => True
  | i :: l' => (∃ x, d !! i = Some x ∧ next x = first_of l' z) ∧ seg d l' z
  end.

Definition rec_at d i : option (Z * Rec) := (λ x, (hash_nr x, data x)) <$> d !! i.

Lemma rd_slot d i : rd d (slot i) = d !! i.
Proof. unfold rd. by rewrite Nat2Z.id. Qed.

Lemma wr_slot d i x y : d !! i = Some y → wr d (slot i) x = Some (<[i:=x]> d).
Proof.
  intros Hi%lookup_lt_Some. unfold wr. rewrite Nat2Z.id. by rewrite decide_True by lia.
Qed.

Lemma wr_slot_lt d i x : (i < length d)%nat → wr d (slot i) x = Some (<[i:=x]> d).
Proof. intros [y Hy]%lookup_lt_is_Some. by apply (wr_slot d i x y). Qed.

Lemma seg_frame d d' l z : (∀ i, i ∈ l → d' !! i = d !! i) → seg d l z → seg d' l z.
Proof.
  induction l as [|i l IH]; simpl; [done|]. intros Hd [(x & Hx & Hn) Hs]. split.
  - exists x. rewrite Hd by (by left). done.
  - apply IH; [|done]. intros j Hj. apply Hd. by right.
Qed.

Lemma seg_insert d l z i x : i ∉ l → seg d l z → seg (<[i:=x]> d) l z.
Proof. intros Hi. apply seg_frame. intros j Hj. rewrite list_lookup_insert_ne; set_solver. Qed.

Lemma first_of_app l1 l2 z : first_of (l1 ++ l2) z = first_of l1 (first_of l2 z).
Proof. by destruct l1. Qed.

Lemma seg_app d l1 l2 z :
  seg d (l1 ++ l2) z ↔ seg d l1 (first_of l2 z) ∧ seg d l2 z.
Proof.
  induction l1 as [|i l1 IH]; simpl; [tauto|]. rewrite IH, first_of_app. tauto.
Qed.

Lemma seg_lookup d l z i : seg d l z → i ∈ l → is_Some (d !! i).
Proof.
  induction l as [|j l IH]; simpl; [set_solver|].
  intros [(x & Hx & _) Hs] [->|Hi]%elem_of_cons; [by eexists|by apply IH].
Qed.

(** Changing the link of the last slot of a segment. *)
Lemma seg_relink d l p z z' x :
  p ∉ l → d !! p = Some x → seg d (l ++ [p]) z →
  seg (<[p:=set_next x z']> d) (l ++ [p]) z'.
Proof.
  intros Hp Hx [H1 _]%seg_app. apply seg_app. split.
  - apply seg_insert; [done|]. done.
  - simpl. split; [|done]. exists (set_next x z'). split; [|done].
    apply list_lookup_insert_eq. by apply lookup_lt_Some in Hx.
Qed.

(** [movelink] changes the link of the slot before [find]. *)
Lemma movelink_spec d find new l : ∀ fuel z,
  (length l < fuel)%nat → ∀ p x,
  (∀ j, find = slot j → j ∉ l ++ [p]) → d !! p = Some x →
  seg d (l ++ [p]) find → z = first_of (l ++ [p]) find →
  movelink fuel d find z new = Some (<[p:=set_next x new]> d).
Proof.
  induction l as [|i l IH]; intros fuel z Hf p x Hfind Hx Hs ->;
    destruct fuel as [|fuel]; simpl in *; try lia.
  - destruct Hs as [(y & Hy & Hn) _]. assert (y = x) as -> by congruence.
    rewrite rd_slot, Hx; simpl. rewrite Hn, Z.eqb_refl. by apply (wr_slot _ _ _ x).
  - destruct Hs as [(y & Hy & Hn) Hs]. rewrite rd_slot, Hy; simpl. rewrite Hn.
    rewrite (proj2 (Z.eqb_neq _ _)); last first.
    { destruct l as [|j l]; simpl; intros Heq; eapply Hfind; try done; set_solver. }
    apply IH; try done; [lia|]. set_solver.
Qed.

(** ** Tables *)

(** The slots of a table of [m] links, at most one of which is free. *)
Definition slots (m : nat) (hole : option nat) : list nat :=
  filter (λ i, hole ≠ Some i) (seq 0 m).

Definition contents d (m : nat) (hole : option nat) : list (Z * Rec) :=
  omap (rec_at d) (slots m hole).

Lemma elem_of_slots m hole i : i ∈ slots m hole ↔ (i < m)%nat ∧ hole ≠ Some i.
Proof. unfold slots. rewrite list_elem_of_filter, elem_of_seq. intuition lia. Qed.

Lemma slots_NoDup m hole : NoDup (slots m hole).
Proof. apply list.NoDup_filter, NoDup_seq. Qed.

Lemma omap_agree {A B} (f g : A → option B) (xs : list A) :
  (∀ a, a ∈ xs → f a = g a) → omap f xs = omap g xs.
Proof.
  induction xs as [|a xs IH]; intros H; [done|]. cbn. rewrite H by (by left).
  destruct (g a); [f_equal|]; apply IH; intros; apply H; by right.
Qed.

Lemma contents_ext d d' m hole :
  (∀ i, (i < m)%nat → hole ≠ Some i → rec_at d' i = rec_at d i) →
  contents d' m hole = contents d m hole.
Proof.
  intros Hd. apply omap_agree. intros i [? ?]%elem_of_slots. by apply Hd.
Qed.

Lemma slots_take m p : (p < m)%nat → slots m None ≡ₚ p :: slots m (Some p).
Proof.
  intros Hp. apply NoDup_Permutation; [apply slots_NoDup| |].
  - constructor; [|apply slots_NoDup]. rewrite elem_of_slots. naive_solver.
  - intros i. rewrite elem_of_cons, !elem_of_slots.
    destruct (decide (i = p)) as [->|]; naive_solver.
Qed.

Lemma contents_fill d d' m e r :
  (e < m)%nat → rec_at d' e = Some r → (∀ i, i ≠ e → rec_at d' i = rec_at d i) →
  contents d' m None ≡ₚ r :: contents d m (Some e).
Proof.
  intros He Hr Hd. rewrite <-(contents_ext d d') by (intros; apply Hd; congruence).
  unfold contents. rewrite (slots_take m e He). cbn. by rewrite Hr.
Qed.

(** The record of slot [p] moves to the free slot [e]. *)
Lemma contents_move d d' m e p :
  (e < m)%nat → (p < m)%nat → e ≠ p → rec_at d' e = rec_at d p → is_Some (rec_at d p) →
  (∀ i, i ≠ e → i ≠ p → rec_at d' i = rec_at d i) →
  contents d' m (Some p) ≡ₚ contents d m (Some e).
Proof.
  intros He Hp Hne Hr [r Hs] Hd.
  set (rest := filter (λ i, i ≠ e ∧ i ≠ p) (seq 0 m)).
  assert (Hrest : ∀ i, i ∈ rest ↔ (i < m)%nat ∧ i ≠ e ∧ i ≠ p).
  { intros i. unfold rest. rewrite list_elem_of_filter, elem_of_seq. intuition lia. }
  assert (Hnd : NoDup rest) by apply list.NoDup_filter, NoDup_seq.
  assert (Hp' : slots m (Some p) ≡ₚ e :: rest).
  { apply NoDup_Permutation; [apply slots_NoDup|constructor; [rewrite Hrest; naive_solver|done]|].
    intros i. rewrite elem_of_cons, elem_of_slots, Hrest.
    destruct (decide (i = e)) as [->|]; naive_solver. }
  assert (He' : slots m (Some e) ≡ₚ p :: rest).
  { apply NoDup_Permutation; [apply slots_NoDup|constructor; [rewrite Hrest; naive_solver|done]|].
    intros i. rewrite elem_of_cons, elem_of_slots, Hrest.
    destruct (decide (i = p)) as [->|]; naive_solver. }
  unfold contents. rewrite Hp', He'. cbn. rewrite Hr, Hs. constructor.
  apply reflexive_eq. apply omap_agree. intros i (_ & ? & ?)%Hrest. by apply Hd.
Qed.

(** The chain of bucket [b] is linked, starts in slot [b] and holds records of
    that bucket. *)
Record chain_ok d (mk : Z → nat) b l : Prop := {
  co_seg : seg d l NO_RECORD;
  co_nodup : NoDup l;
  co_head : first_of l (slot b) = slot b;
  co_mask : ∀ i, i ∈ l → ∃ x, d !! i = Some x ∧ mk (hash_nr x) = b;
}.

(** The chains [ch] of all buckets hold every slot below [m] but the free one. *)
Record table d (mk : Z → nat) (m : nat) (hole : option nat) (ch : nat → list nat) : Prop := {
  t_chain : ∀ b, chain_ok d mk b (ch b);
  t_cover : ∀ i, ((i < m)%nat ∧ hole ≠ Some i) ↔ ∃ b, i ∈ ch b;
}.

Lemma chain_frame d d' mk b l :
  (∀ i, i ∈ l → d' !! i = d !! i) → chain_ok d mk b l → chain_ok d' mk b l.
Proof.
  intros Hd [Hs Hn Hh Hm]. split; try done; [by eapply seg_frame|].
  intros i Hi. rewrite Hd by done. by apply Hm.
Qed.

Lemma chain_nil d mk b : chain_ok d mk b [].
Proof. split; try done; [constructor|]. set_solver. Qed.

Section Table.
Context (d : list (@HASH_LINK Rec)) (mk : Z → nat) (m : nat) (hole : option nat)
  (ch : nat → list nat).
Hypothesis Ht : table d mk m hole ch.

Lemma table_disjoint i b b' : i ∈ ch b → i ∈ ch b' → b = b'.
Proof.
  intros Hb Hb'. destruct (co_mask _ _ _ _ (t_chain _ _ _ _ _ Ht b) i Hb) as (x & Hx & Hm).
  destruct (co_mask _ _ _ _ (t_chain _ _ _ _ _ Ht b') i Hb') as (x' & Hx' & Hm').
  assert (x = x') as -> by congruence. congruence.
Qed.

Lemma table_in i : (i < m)%nat → hole ≠ Some i →
  ∃ x, d !! i = Some x ∧ i ∈ ch (mk (hash_nr x)).
Proof.
  intros Hi Hh. destruct (proj1 (t_cover _ _ _ _ _ Ht i)) as [b Hb]; [done|].
  destruct (co_mask _ _ _ _ (t_chain _ _ _ _ _ Ht b) i Hb) as (x & Hx & <-). by exists x.
Qed.

Lemma table_lt i b : i ∈ ch b → (i < m)%nat ∧ hole ≠ Some i.
Proof. intros Hi. apply (t_cover _ _ _ _ _ Ht). by exists b. Qed.

Lemma table_mask i x b : d !! i = Some x → i ∈ ch b → mk (hash_nr x) = b.
Proof.
  intros Hx Hi. destruct (co_mask _ _ _ _ (t_chain _ _ _ _ _ Ht b) i Hi) as (y & Hy & Hm).
  by simplify_eq.
Qed.

(** A non-empty chain starts with its bucket. *)
Lemma table_head b : ch b = [] ∨ ∃ l, ch b = b :: l.
Proof.
  pose proof (co_head _ _ _ _ (t_chain _ _ _ _ _ Ht b)) as Hh.
  destruct (ch b) as [|i l]; [by left|right]. simpl in Hh. exists l. f_equal. lia.
Qed.

Lemma table_hole b : hole = Some b → ch b = [].
Proof.
  intros Hb. destruct (table_head b) as [|[l Hl]]; [done|].
  destruct (table_lt b b); [rewrite Hl; by left|done].
Qed.

(** A slot that holds a record of another bucket: its own bucket is empty, and
    the record is inside the other chain. *)
Lemma table_guest i x :
  (i < m)%nat → hole ≠ Some i → d !! i = Some x → mk (hash_nr x) ≠ i →
  ch i = [] ∧ ∃ l1 q l2, ch (mk (hash_nr x)) = (l1 ++ [q]) ++ i :: l2.
Proof.
  intros Hi Hh Hx Hne. destruct (table_in i Hi Hh) as (y & Hy & Hin).
  assert (y = x) as -> by congruence. split.
  - destruct (table_head i) as [|[l Hl]]; [done|]. destruct Hne.
    apply (table_mask i x i Hx). rewrite Hl. by left.
  - destruct (table_head (mk (hash_nr x))) as [Hl|[l Hl]]; [rewrite Hl in Hin; set_solver|].
    rewrite Hl in Hin |- *. apply elem_of_cons in Hin as [->|Hin]; [done|].
    apply list_elem_of_split in Hin as (l1 & l2 & ->).
    destruct (exists_last (l := mk (hash_nr x) :: l1)) as (l1' & q & Heq); [done|].
    exists l1', q, l2. change (?a :: ?b ++ ?c) with ((a :: b) ++ c). by rewrite Heq.
Qed.

(** The slot that holds a record of its own bucket. *)
Lemma table_host i x :
  (i < m)%nat → hole ≠ Some i → d !! i = Some x → mk (hash_nr x) = i →
  ∃ l, ch i = i :: l.
Proof.
  intros Hi Hh Hx Heq. destruct (table_in i Hi Hh) as (y & Hy & Hin).
  assert (y = x) as -> by congruence. rewrite Heq in Hin.
  destruct (table_head i) as [Hl|]; [rewrite Hl in Hin; set_solver|done].
Qed.

Lemma table_chain_length b : (length (ch b) ≤ m)%nat.
Proof.
  rewrite <-(length_seq m 0). apply submseteq_length, NoDup_submseteq.
  - apply (co_nodup _ _ _ _ (t_chain _ _ _ _ _ Ht b)).
  - intros i Hi. apply elem_of_seq. destruct (table_lt i b Hi). lia.
Qed.

(** Replacing the chains of two buckets. *)
Lemma table_upd2 d' mk' m' hole' b (c : nat) lb lc :
  b ≠ c →
  (∀ a i, a ≠ b → a ≠ c → i ∈ ch a → d' !! i = d !! i) →
  (∀ a i x, a ≠ b → a ≠ c → i ∈ ch a → d !! i = Some x → mk' (hash_nr x) = a) →
  chain_ok d' mk' b lb → chain_ok d' mk' c lc →
  (∀ i, ((i < m')%nat ∧ hole' ≠ Some i) ↔
     i ∈ lb ∨ i ∈ lc ∨ ((i < m)%nat ∧ hole ≠ Some i ∧ i ∉ ch b ∧ i ∉ ch c)) →
  table d' mk' m' hole' (<[b:=lb]> (<[c:=lc]> ch)).
Proof.
  intros Hbc Hd Hm Hb Hc Hcov. split.
  - intros a. destruct (decide (a = b)) as [->|Hab]; [by rewrite fn_lookup_insert|].
    rewrite fn_lookup_insert_ne by done.
    destruct (decide (a = c)) as [->|Hac]; [by rewrite fn_lookup_insert|].
    rewrite fn_lookup_insert_ne by done.
    destruct (t_chain _ _ _ _ _ Ht a) as [Hs Hn Hh Hma]. split; try done.
    + eapply seg_frame; [|done]. intros i. by apply Hd.
    + intros i Hi. destruct (Hma i Hi) as (x & Hx & _). exists x.
      rewrite (Hd a i) by done. split; [done|]. by eapply Hm.
  - intros i. rewrite Hcov. split.
    + intros [Hi|[Hi|(Hi & Hh & Hb' & Hc')]].
      * exists b. by rewrite fn_lookup_insert.
      * exists c. by rewrite fn_lookup_insert_ne, fn_lookup_insert.
      * destruct (proj1 (t_cover _ _ _ _ _ Ht i)) as [a Ha]; [done|].
        exists a. rewrite !fn_lookup_insert_ne; [done|..]; by intros <-.
    + intros [a Ha]. destruct (decide (a = b)) as [->|Hab]; [rewrite fn_lookup_insert in Ha; auto|].
      rewrite fn_lookup_insert_ne in Ha by done.
      destruct (decide (a = c)) as [->|Hac]; [rewrite fn_lookup_insert in Ha; auto|].
      rewrite fn_lookup_insert_ne in Ha by done. right; right.
      destruct (table_lt i a Ha) as [? ?]. split_and!; try done; intros Hi;
        [destruct Hab|destruct Hac]; by eapply table_disjoint.
Qed.

(** Replacing the chain of one bucket. *)
Lemma table_upd d' m' hole' b lb :
  (∀ a i, a ≠ b → i ∈ ch a → d' !! i = d !! i) →
  chain_ok d' mk b lb →
  (∀ i, ((i < m')%nat ∧ hole' ≠ Some i) ↔
     i ∈ lb ∨ ((i < m)%nat ∧ hole ≠ Some i ∧ i ∉ ch b)) →
  table d' mk m' hole' (<[b:=lb]> ch).
Proof.
  intros Hd Hb Hcov. split.
  - intros a. destruct (decide (a = b)) as [->|Hab]; [by rewrite fn_lookup_insert|].
    rewrite fn_lookup_insert_ne by done. eapply chain_frame; [|apply Ht].
    intros i. by apply Hd.
  - intros i. rewrite Hcov. split.
    + intros [Hi|(Hi & Hh & Hb')]; [exists b; by rewrite fn_lookup_insert|].
      destruct (proj1 (t_cover _ _ _ _ _ Ht i)) as [a Ha]; [done|].
      exists a. rewrite fn_lookup_insert_ne; [done|]. by intros <-.
    + intros [a Ha]. destruct (decide (a = b)) as [->|Hab]; [rewrite fn_lookup_insert in Ha; auto|].
      rewrite fn_lookup_insert_ne in Ha by done. right.
      destruct (table_lt i a Ha) as [? ?]. split_and!; try done. intros Hi.
      destruct Hab. by eapply table_disjoint.
Qed.

End Table.

(** ** The steps of the operations *)

Lemma rec_at_insert d i x : (i < length d)%nat → rec_at (<[i:=x]> d) i = Some (hash_nr x, data x).
Proof. intros Hi. unfold rec_at. by rewrite list_lookup_insert_eq. Qed.

Lemma rec_at_insert_ne d i j x : i ≠ j → rec_at (<[i:=x]> d) j = rec_at d j.
Proof. intros Hi. unfold rec_at. by rewrite list_lookup_insert_ne. Qed.

Lemma rec_at_relink d i j x z : d !! i = Some x → rec_at (<[i:=set_next x z]> d) j = rec_at d j.
Proof.
  intros Hx. destruct (decide (i = j)) as [<-|]; [|by apply rec_at_insert_ne].
  pose proof (lookup_lt_Some _ _ _ Hx). unfold rec_at. by rewrite list_lookup_insert_eq, Hx.
Qed.

Lemma mask_rec_at d d' (mk : Z → nat) b i j :
  rec_at d' j = rec_at d i → (∃ x, d !! i = Some x ∧ mk (hash_nr x) = b) →
  ∃ x, d' !! j = Some x ∧ mk (hash_nr x) = b.
Proof.
  unfold rec_at. intros Hr (x & Hx & Hm). rewrite Hx in Hr. simpl in Hr.
  destruct (d' !! j) as [y|]; [|done]. exists y. split; [done|]. simpl in Hr. congruence.
Qed.

(** Slot [e] takes the place of slot [p], after [q], in a chain. *)
Lemma seg_replace d D l1 q p l2 e x xq :
  seg d ((l1 ++ [q]) ++ p :: l2) NO_RECORD → NoDup ((l1 ++ [q]) ++ p :: l2) →
  e ∉ (l1 ++ [q]) ++ p :: l2 → d !! p = Some x → d !! q = Some xq → D !! e = Some x →
  (∀ i, i ≠ e → i ≠ p → D !! i = d !! i) →
  D !! q = Some xq ∧ seg D (l1 ++ [q]) (slot p) ∧ p ∉ l1 ++ [q] ∧ p ∉ l2 ∧
  seg (<[q:=set_next xq (slot e)]> D) ((l1 ++ [q]) ++ e :: l2) NO_RECORD ∧
  NoDup ((l1 ++ [q]) ++ e :: l2).
Proof.
  intros Hs Hn He Hx Hxq HDe HD.
  apply seg_app in Hs as [Hs1 [(x' & Hx' & Hnx) Hs2]]. assert (x' = x) as -> by congruence.
  apply list.NoDup_app in Hn as (Hnq & Hdisj & Hn2). apply list.NoDup_cons in Hn2 as [Hp2 Hn2].
  assert (Hp1 : p ∉ l1 ++ [q]). { intros Hi. apply (Hdisj p Hi). by left. }
  assert (Hq2 : q ∉ l2). { intros Hi. apply (Hdisj q); mem. }
  assert (Hql : q ∉ l1).
  { apply list.NoDup_app in Hnq as (_ & Hq & _). intros Hi. apply (Hq q Hi). by left. }
  assert (HDq : D !! q = Some xq). { rewrite HD; [done|mem|mem]. }
  assert (HsD : seg D (l1 ++ [q]) (slot p)).
  { eapply seg_frame; [|exact Hs1]. intros i Hi. apply HD; mem. }
  split_and!; try done.
  - apply seg_app. split; [by apply (seg_relink D _ _ (slot p))|]. split.
    + exists x. split; [|done]. rewrite list_lookup_insert_ne; [done|mem].
    + eapply seg_frame; [|exact Hs2]. intros i Hi.
      rewrite list_lookup_insert_ne by mem. apply HD; mem.
  - apply list.NoDup_app. split_and!; [done| |].
    + intros i Hi Hi2. specialize (Hdisj i Hi). mem.
    + apply list.NoDup_cons. split; [mem|done].
Qed.

(** The used entries when the entry [p] of a chain is replaced by the free entry [e]. *)
Lemma replace_members (l1 l2 : list nat) q p e m i :
  p ≠ e → (e < m)%nat → (p < m)%nat →
  (i ∈ (l1 ++ [q]) ++ p :: l2 → (i < m)%nat ∧ Some e ≠ Some i) →
  e ∉ (l1 ++ [q]) ++ p :: l2 → p ∉ l1 ++ [q] → p ∉ l2 →
  (i < m)%nat ∧ Some p ≠ Some i
  ↔ i ∈ (l1 ++ [q]) ++ e :: l2 ∨ (i < m)%nat ∧ Some e ≠ Some i ∧ i ∉ (l1 ++ [q]) ++ p :: l2.
Proof.
  intros Hpe He Hp.
  destruct (decide (i ∈ (l1 ++ [q]) ++ p :: l2)) as [Hd|Hd]; revert Hd;
  rewrite !elem_of_app, !elem_of_cons, !elem_of_nil;
  (destruct (decide (i = e)) as [->|]; [|destruct (decide (i = p)) as [->|]]);
  intuition congruence.
Qed.

(** A record that is not in its own bucket's slot moves to the free slot: its
    slot is written with [y] and the link to it is redirected. *)
Lemma table_move d mk m ch e p x y :
  table d mk m (Some e) ch → (m ≤ length d)%nat → (e < m)%nat → (p < m)%nat → p ≠ e →
  d !! p = Some x → mk (hash_nr x) ≠ p →
  ∃ d' lg, movelink (length d) (<[p:=y]> (<[e:=x]> d)) (slot p) (slot (mk (hash_nr x))) (slot e)
      = Some d' ∧
    table d' mk m (Some p) (<[mk (hash_nr x):=lg]> ch) ∧
    d' !! p = Some y ∧ length d' = length d ∧
    contents d' m (Some p) ≡ₚ contents d m (Some e) ∧
    (∀ i, i ≠ e → i ≠ p → i ∉ ch (mk (hash_nr x)) → d' !! i = d !! i).
Proof.
  intros Ht Hlen He Hp Hpe Hx Hg. set (g := mk (hash_nr x)) in *.
  destruct (table_guest _ _ _ _ _ Ht p x) as (_ & l1 & q & l2 & Hch); try done; [congruence|].
  fold g in Hch. destruct (t_chain _ _ _ _ _ Ht g) as [Hs Hn Hh Hm].
  rewrite Hch in Hs, Hn, Hh, Hm.
  assert (Hein : e ∉ (l1 ++ [q]) ++ p :: l2).
  { intros Hi. destruct (table_lt _ _ _ _ _ Ht e g); [by rewrite Hch|done]. }
  set (D := <[p:=y]> (<[e:=x]> d)).
  assert (HD : ∀ i, i ≠ e → i ≠ p → D !! i = d !! i).
  { intros i ? ?. unfold D. by rewrite !list_lookup_insert_ne. }
  assert (HDe : D !! e = Some x).
  { unfold D. rewrite list_lookup_insert_ne, list_lookup_insert_eq by (done || lia). done. }
  assert (HDp : D !! p = Some y).
  { unfold D. apply list_lookup_insert_eq. rewrite length_insert. lia. }
  destruct (Hm q) as (xq & Hxq & _); [mem|].
  destruct (seg_replace d D l1 q p l2 e x xq) as (HDq & HsD & Hp1 & Hp2 & Hs' & Hn'); try done.
  set (d' := <[q:=set_next xq (slot e)]> D) in *. set (lg := (l1 ++ [q]) ++ e :: l2) in *.
  assert (HR : ∀ j, rec_at d' j = rec_at D j) by (intros; by apply rec_at_relink).
  assert (Hqp : q ≠ p) by mem.
  assert (Hd' : ∀ i, i ≠ e → i ≠ p → i ∉ ch g → d' !! i = d !! i).
  { intros i ? ? Hi. rewrite Hch in Hi. unfold d'.
    rewrite list_lookup_insert_ne by mem. by apply HD. }
  exists d', lg. split_and!; try done.
  - apply movelink_spec with (l := l1); try done.
    + pose proof (table_chain_length _ _ _ _ _ Ht g) as Hl. rewrite Hch, !length_app in Hl.
      simpl in Hl. lia.
    + intros j Hj. assert (j = p) as -> by lia. done.
    + destruct l1; simpl in *; congruence.
  - apply (table_upd _ _ _ _ _ Ht).
    + intros a i Ha Hi. assert (i ∉ ch g) as Hig.
      { intros ?. destruct Ha. by eapply table_disjoint. }
      apply Hd'; [| |done]; intros ->.
      * by destruct (table_lt _ _ _ _ _ Ht e a).
      * apply Hig. rewrite Hch. mem.
    + split; try done; [by destruct l1|]. intros i Hi.
      destruct (decide (i = e)) as [->|Hie].
      * apply (mask_rec_at d _ _ _ p); [|by exists x]. rewrite HR.
        unfold rec_at. by rewrite HDe, Hx.
      * apply (mask_rec_at d _ _ _ i); [|apply Hm; unfold lg in Hi; mem].
        rewrite HR. unfold rec_at. rewrite HD; [done|done|]. unfold lg in Hi. mem.
    + intros i. rewrite Hch. apply replace_members; try done.
      intros Hi. apply (table_lt _ _ _ _ _ Ht i g). by rewrite Hch.
  - unfold d'. by rewrite list_lookup_insert_ne.
  - unfold d', D. by rewrite !length_insert.
  - apply contents_move; try done.
    + rewrite HR. unfold rec_at. by rewrite HDe, Hx.
    + unfold rec_at. rewrite Hx. by eexists.
    + intros i ? ?. rewrite HR. unfold rec_at. by rewrite HD.
Qed.

(** A record goes to the free slot of its own bucket. *)
Lemma table_fill d mk m ch p h r :
  table d mk m (Some p) ch → (m ≤ length d)%nat → (p < m)%nat → mk h = p →
  table (<[p:=mkLINK NO_RECORD h r]> d) mk m None (<[p:=[p]]> ch) ∧
  contents (<[p:=mkLINK NO_RECORD h r]> d) m None ≡ₚ (h, r) :: contents d m (Some p).
Proof.
  intros Ht Hlen Hp Hh. assert (Hpl : (p < length d)%nat) by lia. split.
  - pose proof (table_hole _ _ _ _ _ Ht p eq_refl) as Hnil.
    apply (table_upd _ _ _ _ _ Ht).
    + intros a i Ha Hi. rewrite list_lookup_insert_ne; [done|]. intros <-.
      by destruct (table_lt _ _ _ _ _ Ht p a).
    + split; simpl; [| |done|].
      * split; [|done]. eexists. by rewrite list_lookup_insert_eq.
      * apply NoDup_singleton.
      * intros i ->%list_elem_of_singleton. eexists. by rewrite list_lookup_insert_eq.
    + intros i. rewrite Hnil, list_elem_of_singleton, elem_of_nil.
      destruct (decide (i = p)) as [->|]; intuition congruence.
  - apply contents_fill; [done|by rewrite rec_at_insert|].
    intros i Hi. by apply rec_at_insert_ne.
Qed.

(** A record goes to the free slot [e], right after the head of its bucket [b];
    [y] and [z] are the new links of [b] and [e]. *)
Lemma table_second d mk m ch e b x y z :
  table d mk m (Some e) ch → (m ≤ length d)%nat → (e < m)%nat → (b < m)%nat → b ≠ e →
  d !! b = Some x → mk (hash_nr x) = b →
  next y = slot e → mk (hash_nr y) = b → next z = next x → mk (hash_nr z) = b →
  ∃ l, table (<[b:=y]> (<[e:=z]> d)) mk m None (<[b:=l]> ch).
Proof.
  intros Ht Hlen He Hb Hbe Hx Hm Hny Hmy Hnz Hmz.
  destruct (table_host _ _ _ _ _ Ht b x) as [t Hch]; [done|congruence|done|done|].
  destruct (t_chain _ _ _ _ _ Ht b) as [Hs Hn Hh Hmk]. rewrite Hch in Hs, Hn, Hmk.
  destruct Hs as [(x' & Hx' & Hnx) Hst]. assert (x' = x) as -> by congruence.
  apply list.NoDup_cons in Hn as [Hbt Hn].
  assert (Het : e ∉ t).
  { intros Hi. destruct (table_lt _ _ _ _ _ Ht e b); [rewrite Hch; mem|done]. }
  assert (HD : ∀ i, i ≠ b → i ≠ e → <[b:=y]> (<[e:=z]> d) !! i = d !! i).
  { intros i ? ?. by rewrite !list_lookup_insert_ne. }
  assert (HDb : <[b:=y]> (<[e:=z]> d) !! b = Some y).
  { apply list_lookup_insert_eq. rewrite length_insert. lia. }
  assert (HDe : <[b:=y]> (<[e:=z]> d) !! e = Some z).
  { rewrite list_lookup_insert_ne, list_lookup_insert_eq by (done || lia). done. }
  exists (b :: e :: t). apply (table_upd _ _ _ _ _ Ht).
  - intros a i Ha Hi. apply HD; intros ->.
    + destruct Ha. eapply (table_disjoint _ _ _ _ _ Ht); [done|]. rewrite Hch. mem.
    + by destruct (table_lt _ _ _ _ _ Ht e a).
  - split; [|constructor; [mem|by constructor]|done|].
    + split; [by exists y|]. split; [exists z; split; [done|congruence]|].
      eapply seg_frame; [|done]. intros i Hi. apply HD; mem.
    + intros i [->|[->|Hi]%elem_of_cons]%elem_of_cons; [by exists y|by exists z|].
      destruct (Hmk i) as (w & Hw & ?); [mem|]. exists w. rewrite HD by mem. done.
  - intros i. assert (Hlt : i ∈ b :: t → (i < m)%nat ∧ Some e ≠ Some i).
    { intros Hi. apply (table_lt _ _ _ _ _ Ht i b). by rewrite Hch. }
    rewrite Hch. revert Hlt. rewrite !elem_of_cons.
    destruct (decide (i ∈ t));
      (destruct (decide (i = e)) as [->|]; [|destruct (decide (i = b)) as [->|]]);
      intuition congruence.
Qed.

(** The slot before [p] in a chain, as [find_record] reports it. *)
Definition prev_of l1 : option Z := match list.last l1 with Some q => Some (slot q) | None => None end.

(** Taking a record out of its chain leaves a table with a free slot: first
    when it is not the head of the chain, then when it is. *)
Lemma unlink_inner d mk m ch b l1 q p l2 x xq :
  table d mk m None ch → (m ≤ length d)%nat → ch b = (l1 ++ [q]) ++ p :: l2 →
  d !! p = Some x → d !! q = Some xq →
  table (<[q:=set_next xq (next x)]> d) mk m (Some p) (<[b:=((l1 ++ [q]) ++ l2)]> ch) ∧
  contents d m None ≡ₚ
    (hash_nr x, data x) :: contents (<[q:=set_next xq (next x)]> d) m (Some p) ∧ q ≠ p.
Proof.
  intros Ht Hlen Hch Hx Hxq. destruct (t_chain _ _ _ _ _ Ht b) as [Hs Hn Hh Hmk].
  rewrite Hch in Hs, Hn, Hmk, Hh.
  apply seg_app in Hs as [Hs1 [(x' & Hx' & Hnx) Hs2]]. assert (x' = x) as -> by congruence.
  apply list.NoDup_app in Hn as (Hnq & Hdisj & Hn2). apply list.NoDup_cons in Hn2 as [Hp2 Hn2].
  assert (Hp1 : p ∉ l1 ++ [q]). { intros Hi. apply (Hdisj p Hi). by left. }
  assert (Hq2 : q ∉ l2). { intros Hi. apply (Hdisj q); mem. }
  assert (Hql : q ∉ l1).
  { apply list.NoDup_app in Hnq as (_ & Hq & _). intros Hi. apply (Hq q Hi). by left. }
  split_and!; [|..|mem].
  - apply (table_upd _ _ _ _ _ Ht).
    + intros a i Ha Hi. rewrite list_lookup_insert_ne; [done|]. intros <-. destruct Ha.
      eapply (table_disjoint _ _ _ _ _ Ht); [done|]. rewrite Hch. mem.
    + split.
      * apply seg_app. split; [rewrite Hnx; by apply (seg_relink d _ _ (slot p))|].
        apply seg_insert; [mem|done].
      * apply list.NoDup_app. split_and!; [done| |done].
        intros i Hi Hi2. apply (Hdisj i Hi). mem.
      * by destruct l1.
      * intros i Hi. apply (mask_rec_at d _ _ _ i); [by apply rec_at_relink|].
        apply Hmk. mem.
    + intros i. rewrite Hch.
      assert (Hlt : i ∈ (l1 ++ [q]) ++ p :: l2 → (i < m)%nat).
      { intros Hi. apply (table_lt _ _ _ _ _ Ht i b). by rewrite Hch. }
      revert Hlt Hp1 Hp2. rewrite !elem_of_app, !elem_of_cons, !elem_of_nil.
      destruct (decide (i ∈ l1)), (decide (i ∈ l2)), (decide (i = q));
        (destruct (decide (i = p)) as [->|]); intuition congruence.
  - apply contents_fill.
    + apply (table_lt _ _ _ _ _ Ht p b). rewrite Hch. mem.
    + unfold rec_at. by rewrite Hx.
    + intros i Hi. symmetry. by apply rec_at_relink.
Qed.

Lemma unlink_head d mk m ch b e l x y :
  table d mk m None ch → (m ≤ length d)%nat → ch b = b :: e :: l →
  d !! b = Some x → d !! e = Some y →
  table (<[b:=y]> d) mk m (Some e) (<[b:=(b :: l)]> ch) ∧
  contents d m None ≡ₚ (hash_nr x, data x) :: contents (<[b:=y]> d) m (Some e) ∧ e ≠ b ∧
  next x = slot e ∧ (e < m)%nat.
Proof.
  intros Ht Hlen Hch Hx Hy. destruct (t_chain _ _ _ _ _ Ht b) as [Hs Hn Hh Hmk].
  rewrite Hch in Hs, Hn, Hmk, Hh.
  destruct Hs as [(x' & Hx' & Hnx) [(y' & Hy' & Hny) Hs]].
  assert (x' = x) as -> by congruence. assert (y' = y) as -> by congruence.
  apply list.NoDup_cons in Hn as [Hb Hn]. apply list.NoDup_cons in Hn as [He Hn].
  assert (Heb : e ≠ b) by mem.
  assert (Hbm : (b < m)%nat). { apply (table_lt _ _ _ _ _ Ht b b). rewrite Hch. mem. }
  assert (Hem : (e < m)%nat). { apply (table_lt _ _ _ _ _ Ht e b). rewrite Hch. mem. }
  assert (Hbl : (b < length d)%nat) by lia.
  split_and!; try done.
  - apply (table_upd _ _ _ _ _ Ht).
    + intros a i Ha Hi. rewrite list_lookup_insert_ne; [done|]. intros <-. destruct Ha.
      eapply (table_disjoint _ _ _ _ _ Ht); [done|]. rewrite Hch. mem.
    + split; [|constructor; [mem|done]|done|].
      * split; [exists y; by rewrite list_lookup_insert_eq|]. apply seg_insert; [mem|done].
      * intros i Hi. destruct (decide (i = b)) as [->|].
        -- apply (mask_rec_at d _ _ _ e); [|apply Hmk; mem]. rewrite rec_at_insert by done.
           unfold rec_at. by rewrite Hy.
        -- apply (mask_rec_at d _ _ _ i); [by apply rec_at_insert_ne|apply Hmk; mem].
    + intros i. rewrite Hch.
      assert (Hlt : i ∈ b :: e :: l → (i < m)%nat).
      { intros Hi. apply (table_lt _ _ _ _ _ Ht i b). by rewrite Hch. }
      revert Hlt. rewrite !elem_of_cons.
      destruct (decide (i ∈ l)), (decide (i = b)); (destruct (decide (i = e)) as [->|]);
        intuition congruence.
  - rewrite (contents_move d _ m b e); try done.
    + apply contents_fill; [done|unfold rec_at; by rewrite Hx|done].
    + rewrite rec_at_insert by done. unfold rec_at. by rewrite Hy.
    + unfold rec_at. rewrite Hy. by eexists.
    + intros i ? ?. by apply rec_at_insert_ne.
Qed.

Lemma unlink_table_spec d mk m ch b l1 p l2 x :
  table d mk m None ch → (m ≤ length d)%nat → Z.of_nat m ≤ NO_RECORD →
  ch b = l1 ++ p :: l2 → d !! p = Some x →
  ∃ d' e l, unlink d (slot p) (prev_of l1) = Some (d', slot e) ∧ (e < m)%nat ∧
    table d' mk m (Some e) (<[b:=l]> ch) ∧ length d' = length d ∧
    contents d m None ≡ₚ (hash_nr x, data x) :: contents d' m (Some e) ∧
    (e = p → d' !! p = Some x).
Proof.
  intros Ht Hlen Hm Hch Hx. destruct (t_chain _ _ _ _ _ Ht b) as [Hs _ Hh _].
  assert (Hpm : (p < m)%nat). { apply (table_lt _ _ _ _ _ Ht p b). rewrite Hch. mem. }
  rewrite Hch in Hs, Hh. unfold unlink. rewrite rd_slot, Hx; simpl.
  destruct (decide (l1 = [])) as [->|Hne].
  - simpl in *. assert (p = b) as -> by lia. destruct Hs as [(x' & Hx' & Hnx) Hs].
    assert (x' = x) as -> by congruence. destruct l2 as [|e l]; simpl in Hnx.
    + rewrite Hnx, Z.eqb_refl. exists d, b, []. split_and!; try done.
      * apply (table_upd _ _ _ _ _ Ht); [done|apply chain_nil|].
        intros i. rewrite Hch, elem_of_cons, elem_of_nil. intuition congruence.
      * apply contents_fill; [done|unfold rec_at; by rewrite Hx|done].
    + destruct Hs as [(y & Hy & _) _].
      destruct (unlink_head d mk m ch b e l x y) as (? & ? & ? & ? & ?); try done.
      rewrite Hnx, (proj2 (Z.eqb_neq _ _)) by lia. rewrite rd_slot, Hy; simpl.
      rewrite (wr_slot _ _ _ x) by done. simpl.
      exists (<[b:=y]> d), e, (b :: l). split_and!; try done. by rewrite length_insert.
  - destruct (exists_last Hne) as (l1' & q & ->). unfold prev_of. rewrite list.last_snoc.
    destruct (seg_lookup d _ _ q Hs) as [xq Hxq]; [mem|].
    destruct (unlink_inner d mk m ch b l1' q p l2 x xq) as (? & ? & ?); try done.
    rewrite rd_slot, Hxq; simpl. rewrite (wr_slot _ _ _ xq) by done. simpl.
    eexists _, p, _. split_and!; try done; [by rewrite length_insert|].
    intros _. by rewrite list_lookup_insert_ne.
Qed.

End Chains.
