(* ===== verification/HashSplit.v ===== *)
(** * The split of a bucket in [my_hash_insert]

    The loop distributes the chain of the bucket that is split over two chains.
    The record it has read last for a chain is kept in variables and written to
    the array only when the chain goes on or ends; the invariant describes the
    array with those pending writes done. *)

From stdpp Require Import sets functions.
From S2P Require Import Prelude Hash HashFacts.
Local Open Scope Z_scope.

#[local] Arguments split_low : simpl never.
#[local] Arguments split_high : simpl never.

Section Split.
Context {Rec : Type} `{!EqDecision Rec}.
Implicit Types (d v : list (@HASH_LINK Rec)) (x y : @HASH_LINK Rec) (L H rem : list nat)
  (i j e g : nat) (r : Z * Rec).

Abbreviation slot i := (Z.of_nat i).
Definition link (z : Z) r : HASH_LINK := mkLINK z r.1 r.2.

(** One of the two chains being built, in the array [v] with the pending write
    of record [r] to slot [g] done. *)
Record side d v L g r (found used : bool) rem : Prop := {
  sd_none : found = false → L = [];
  sd_last : found = true → ∃ L0, L = L0 ++ [g] ∧ v !! g = Some (link NO_RECORD r);
  sd_seg : seg v L NO_RECORD;
  sd_used : used = true → found = true ∧ d !! g = Some (link (first_of rem NO_RECORD) r);
}.

(** The next record of the chain is in slot [idx]. *)
Definition extend v g r idx r' : list HASH_LINK :=
  <[idx:=link NO_RECORD r']> (<[g:=link (slot idx) r]> v).

Lemma side_extend d v L g r used idx rem d' r' :
  side d v L g r true used (idx :: rem) → idx ∉ L → NoDup L →
  (idx < length v)%nat → (g < length v)%nat →
  d' !! idx = Some (link (first_of rem NO_RECORD) r') →
  side d' (extend v g r idx r') (L ++ [idx]) idx r' true true rem.
Proof.
  intros [_ Hl Hs _] Hi Hn Hlen Hg Hidx. destruct (Hl eq_refl) as (L0 & -> & Hvg).
  apply list.NoDup_app in Hn as (_ & Hq & _).
  assert (Hg0 : g ∉ L0). { intros Hin. apply (Hq g Hin). mem. }
  assert (Hgi : idx ≠ g) by mem. unfold extend. split; try done.
  - intros _. exists (L0 ++ [g]). split; [done|].
    apply list_lookup_insert_eq. by rewrite length_insert.
  - rewrite <-app_assoc. apply seg_app in Hs as [Hs _]. apply seg_app. split.
    + simpl in *. apply seg_insert; [mem|]. apply seg_insert; [done|]. done.
    + simpl. split; [|split; [|done]].
      * eexists. rewrite list_lookup_insert_ne by done. rewrite list_lookup_insert_eq by done.
        done.
      * eexists. rewrite list_lookup_insert_eq by (by rewrite length_insert). done.
Qed.

(** The other chain is not touched. *)
Lemma side_other d v L g r found used idx rem d' v' :
  side d v L g r found used (idx :: rem) →
  (∀ i, i ∈ L → v' !! i = v !! i) → side d' v' L g r found false rem.
Proof.
  intros [Hn Hl Hs _] Hv. split; try done.
  - intros Hf. destruct (Hl Hf) as (L0 & -> & Hg). exists L0. split; [done|].
    rewrite Hv; [done|mem].
  - by eapply seg_frame.
Qed.

(** The first record of a chain goes to slot [g]. *)
Lemma side_first d v g r (used : bool) rem :
  (g < length v)%nat →
  (used = true → d !! g = Some (link (first_of rem NO_RECORD) r)) →
  side d (<[g:=link NO_RECORD r]> v) [g] g r true used rem.
Proof.
  intros Hg Hu. assert (<[g:=link NO_RECORD r]> v !! g = Some (link NO_RECORD r)) as Hgg
    by (by apply list_lookup_insert_eq).
  split; try done.
  - intros _. by exists [].
  - simpl. split; [|done]. by eexists.
  - intros Hused. split; [done|by apply Hu].
Qed.

(** ** The loop invariant *)

Section Loop.
(** The bucket [f] is split into [f] and the new bucket [n]; its chain is [c]. *)
Context (d0 : list (@HASH_LINK Rec)) (mk : Z → nat) (half : Z) (f n : nat) (c : list nat).
Hypothesis d0_length : length d0 = S n.
Hypothesis c_lt : ∀ i, i ∈ c → (i < n)%nat.

Record split_inv (s : split_state) (lf lu hf hu : bool) L H rem v e g g2 : Prop := {
  si_flag : s_flag s = Z.b2z lf + 2 * Z.b2z lu + 4 * Z.b2z hf + 8 * Z.b2z hu;
  si_empty : s_empty s = slot e;
  si_gpos : lf = true → s_gpos s = slot g;
  si_gpos2 : hf = true → s_gpos2 s = slot g2;
  si_low : side (s_data s) v L g (s_rec s) lf lu rem;
  si_high : side (s_data s) v H g2 (s_rec2 s) hf hu rem;
  si_used : lu && hu = false;
  si_rem : seg (s_data s) rem NO_RECORD;
  si_len : length (s_data s) = length d0 ∧ length v = length d0;
  si_virtual : ∀ i, (lf = true → i ≠ g) → (hf = true → i ≠ g2) → v !! i = s_data s !! i;
  si_nodup : NoDup (L ++ H ++ e :: rem);
  si_mem : ∀ i, i ∈ L ++ H ++ e :: rem ↔ i ∈ c ∨ i = n;
  si_frame : ∀ i, i ∉ c → i ≠ n → v !! i = d0 !! i;
  si_low_bits : ∀ i, i ∈ L → ∃ x, v !! i = Some x ∧ mk (hash_nr x) = f ∧
    Z.land (hash_nr x) half = 0;
  si_high_bits : ∀ i, i ∈ H → ∃ x, v !! i = Some x ∧ mk (hash_nr x) = f ∧
    Z.land (hash_nr x) half ≠ 0;
  si_rem_bits : ∀ i, i ∈ rem → ∃ x, v !! i = Some x ∧ mk (hash_nr x) = f;
  si_low_head : first_of L (slot f) = slot f;
  si_high_head : first_of H (slot n) = slot n;
  si_start : lf = false → hf = false → first_of rem (slot f) = slot f;
  si_free_low : lf = false → hf = true → e = f;
  si_free_high : hf = false → e = n;
  si_contents : contents v (S n) (Some e) ≡ₚ contents d0 (S n) (Some n);
}.

(** What the invariant says about the next slot. *)
Record next_slot (s : split_state) L H rem v e idx x : Prop := {
  nx_data : s_data s !! idx = Some x;
  nx_v : v !! idx = Some x;
  nx_next : next x = first_of rem NO_RECORD;
  nx_low : idx ∉ L;
  nx_high : idx ∉ H;
  nx_empty : idx ≠ e;
  nx_rem : idx ∉ rem;
  nx_mask : mk (hash_nr x) = f;
  nx_lt : (idx < length d0)%nat;
}.

Lemma split_next s lf lu hf hu L H idx rem v e g g2 :
  split_inv s lf lu hf hu L H (idx :: rem) v e g g2 →
  ∃ x, next_slot s L H rem v e idx x.
Proof.
  intros []. pose proof si_rem0 as [(x & Hx & Hn) _]. exists x.
  assert (Hp : idx :: L ++ H ++ e :: rem ≡ₚ L ++ H ++ e :: idx :: rem) by solve_Permutation.
  rewrite <-Hp in si_nodup0. apply list.NoDup_cons in si_nodup0 as [Hni _].
  assert (Hv : v !! idx = s_data s !! idx).
  { apply si_virtual0.
    - intros ->. destruct (sd_last _ _ _ _ _ _ _ _ si_low0 eq_refl) as (L0 & -> & _). mem.
    - intros ->. destruct (sd_last _ _ _ _ _ _ _ _ si_high0 eq_refl) as (L0 & -> & _). mem. }
  destruct (si_rem_bits0 idx) as (x' & Hx' & Hm); [mem|].
  assert (x' = x) as -> by congruence.
  split; try done; try mem.
  destruct si_len0 as [<- _]. by eapply lookup_lt_Some.
Qed.

(** The array after a step that appends slot [idx] to the chain that ends in
    [g]: [d'] is [d] with the link of [g] written. *)
Lemma extend_lookup v g r idx r' i :
  i ≠ idx → i ≠ g → extend v g r idx r' !! i = v !! i.
Proof. intros ? ?. unfold extend. by rewrite !list_lookup_insert_ne. Qed.

Lemma extend_rec_at v g r idx r' x i :
  v !! g = Some (link NO_RECORD r) → v !! idx = Some x → r' = (hash_nr x, data x) → g ≠ idx →
  rec_at (extend v g r idx r') i = rec_at v i.
Proof.
  intros Hg Hx -> Hne. unfold extend.
  pose proof (lookup_lt_Some _ _ _ Hx). pose proof (lookup_lt_Some _ _ _ Hg).
  destruct (decide (i = idx)) as [->|].
  { rewrite rec_at_insert by (by rewrite length_insert). unfold rec_at. by rewrite Hx. }
  rewrite rec_at_insert_ne by done. destruct (decide (i = g)) as [->|].
  { rewrite rec_at_insert by done. unfold rec_at. by rewrite Hg. }
  by rewrite rec_at_insert_ne.
Qed.

(** The bits of the slots of a chain depend on the records only. *)
Lemma bits_rec_at v v' (P : Z → Prop) i j :
  rec_at v' j = rec_at v i →
  (∃ x, v !! i = Some x ∧ P (hash_nr x)) → ∃ x, v' !! j = Some x ∧ P (hash_nr x).
Proof.
  unfold rec_at. intros Hr (x & Hx & Hp). rewrite Hx in Hr. simpl in Hr.
  destruct (v' !! j) as [y|]; [|done]. exists y. split; [done|].
  simpl in Hr. assert (hash_nr y = hash_nr x) as -> by congruence. done.
Qed.

(** The slots a step touches are those of the bucket and the new one. *)
Lemma perm_append_low L H e i rem : (L ++ [i]) ++ H ++ e :: rem ≡ₚ L ++ H ++ e :: i :: rem.
Proof. solve_Permutation. Qed.
Lemma perm_append_high L H e i rem : L ++ (H ++ [i]) ++ e :: rem ≡ₚ L ++ H ++ e :: i :: rem.
Proof. solve_Permutation. Qed.

Lemma extend_step (P : nat → Prop) d v L g r used idx rem x :
  side d v L g r true used (idx :: rem) → seg d (idx :: rem) NO_RECORD →
  d !! idx = Some x → v !! idx = Some x → idx ∉ L → NoDup L →
  (∀ i, i ∈ L → i ∉ rem) → length v = length d →
  (∀ i, i ≠ g → P i → v !! i = d !! i) →
  let r' := (hash_nr x, data x) in
  let d' := if used then d else <[g:=link (slot idx) r]> d in
  let v' := extend v g r idx r' in
  side d' v' (L ++ [idx]) idx r' true true rem ∧ seg d' rem NO_RECORD ∧
  d' !! idx = Some x ∧ length d' = length d ∧ length v' = length v ∧
  (∀ i, i ≠ idx → P i → v' !! i = d' !! i) ∧ (∀ i, rec_at v' i = rec_at v i) ∧
  g ∈ L ∧ (g < length d)%nat.
Proof.
  intros Hsd Hs Hx Hvx HiL Hn Hr Hlen Hv r' d' v'.
  destruct (sd_last _ _ _ _ _ _ _ _ Hsd eq_refl) as (L0 & HL & Hvg).
  assert (HgL : g ∈ L) by (subst L; mem).
  assert (Hgi : g ≠ idx) by (intros ->; done).
  assert (Hgl : (g < length d)%nat) by (rewrite <-Hlen; by eapply lookup_lt_Some).
  destruct Hs as [(x' & Hx' & Hnx) Hs]. assert (x' = x) as -> by congruence.
  assert (Hxl : x = link (first_of rem NO_RECORD) r').
  { destruct x; simpl in *. unfold link; simpl. by rewrite Hnx. }
  assert (Hd'i : d' !! idx = Some x) by (unfold d'; destruct used; by rewrite ?list_lookup_insert_ne).
  split_and!; try done.
  - eapply side_extend; try done; [by eapply lookup_lt_Some| |by rewrite <-Hxl].
    by rewrite Hlen.
  - eapply seg_frame; [|exact Hs]. intros i Hi. unfold d'. destruct used; [done|].
    rewrite list_lookup_insert_ne; [done|]. intros <-. by apply (Hr g).
  - unfold d'. destruct used; by rewrite ?length_insert.
  - unfold v', extend. by rewrite !length_insert.
  - intros i Hi HP. unfold v'. destruct (decide (i = g)) as [->|Hg].
    + unfold extend. rewrite list_lookup_insert_ne, list_lookup_insert_eq by (done || lia).
      unfold d'. destruct used; [|by rewrite list_lookup_insert_eq].
      destruct (sd_used _ _ _ _ _ _ _ _ Hsd eq_refl) as [_ Hg]. by rewrite Hg.
    + rewrite extend_lookup by done. unfold d'.
      destruct used; rewrite ?list_lookup_insert_ne by done; by apply Hv.
  - intros i. by eapply extend_rec_at.
Qed.

Lemma split_low_extend s lu hf hu L H idx rem v e g g2 x :
  split_inv s true lu hf hu L H (idx :: rem) v e g g2 → next_slot s L H rem v e idx x →
  Z.land (hash_nr x) half = 0 →
  ∃ s' v', split_low s (slot idx) x = Some s' ∧ s_data s' !! idx = Some x ∧
    split_inv s' true true hf false (L ++ [idx]) H rem v' e idx g2.
Proof.
  intros [] [] Hbit. destruct s as [d flag empty gpos rec gpos2 rec2]; simpl in *.
  destruct si_len0 as [Hld Hlv].
  pose proof si_nodup0 as (HnL & HdL & _)%list.NoDup_app.
  destruct (extend_step (λ i, hf = true → i ≠ g2) d v L g rec lu idx rem x)
    as (Hsd & Hsr & Hd'i & Hd'l & Hv'l & Hv' & HR & HgL & Hgl); try done; [| |auto|].
  { intros i Hi Hr. apply (HdL i Hi). mem. }
  { congruence. }
  set (d' := if lu then d else _) in *. set (v' := extend _ _ _ _ _) in *.
  exists (mkSplit d' (Z.b2z true + 2 * Z.b2z true + 4 * Z.b2z hf + 8 * Z.b2z false)
            empty (slot idx) (hash_nr x, data x) gpos2 rec2), v'.
  split_and!; [|done|].
  { rewrite si_flag0, (si_gpos0 eq_refl). unfold split_low, d'.
    destruct lu, hf, hu; try done; simpl; by rewrite (wr_slot_lt d) by lia. }
  assert (Hv'v : ∀ i, i ∉ L → i ≠ idx → v' !! i = v !! i).
  { intros i Hi Hne. apply extend_lookup; [done|]. by intros ->. }
  split; simpl; try done.
  - refine (side_other _ _ _ _ _ _ _ _ _ _ _ si_high0 _). intros i Hi. apply Hv'v; [|mem].
    intros HiL. apply (HdL i HiL). mem.
  - split; congruence.
  - intros i Hi1 Hi2. apply Hv'; auto.
  - by rewrite perm_append_low.
  - intros i. by rewrite perm_append_low.
  - intros i Hi1 Hi2. assert (Hi : i ∉ L ++ H ++ e :: idx :: rem) by (rewrite si_mem0; intuition).
    rewrite Hv'v; [by apply si_frame0|mem|mem].
  - intros i Hi. apply (bits_rec_at v _ (λ h, mk h = f ∧ Z.land h half = 0) i); [done|].
    apply elem_of_app in Hi as [Hi| ->%list_elem_of_singleton]; [auto|by exists x].
  - intros i Hi. apply (bits_rec_at v _ (λ h, mk h = f ∧ Z.land h half ≠ 0) i); auto.
  - intros i Hi. apply (bits_rec_at v _ (λ h, mk h = f) i); [done|]. apply si_rem_bits0. mem.
  - destruct L; [mem|done].
  - rewrite (contents_ext v); [done|]. intros; apply HR.
Qed.

Lemma split_high_extend s lf lu hu L H idx rem v e g g2 x :
  split_inv s lf lu true hu L H (idx :: rem) v e g g2 → next_slot s L H rem v e idx x →
  Z.land (hash_nr x) half ≠ 0 →
  ∃ s' v', split_high s (slot idx) x = Some s' ∧ s_data s' !! idx = Some x ∧
    split_inv s' lf false true true L (H ++ [idx]) rem v' e g idx.
Proof.
  intros [] [] Hbit. destruct s as [d flag empty gpos rec gpos2 rec2]; simpl in *.
  destruct si_len0 as [Hld Hlv].
  pose proof si_nodup0 as (HnL & HdL & HnH)%list.NoDup_app.
  apply list.NoDup_app in HnH as (HnH & HdH & _).
  destruct (extend_step (λ i, lf = true → i ≠ g) d v H g2 rec2 hu idx rem x)
    as (Hsd & Hsr & Hd'i & Hd'l & Hv'l & Hv' & HR & HgH & Hgl); try done; [| |auto|].
  { intros i Hi Hr. apply (HdH i Hi). mem. }
  { congruence. }
  set (d' := if hu then d else _) in *. set (v' := extend _ _ _ _ _) in *.
  exists (mkSplit d' (Z.b2z lf + 2 * Z.b2z false + 4 * Z.b2z true + 8 * Z.b2z true)
            empty gpos rec (slot idx) (hash_nr x, data x)), v'.
  split_and!; [|done|].
  { rewrite si_flag0, (si_gpos3 eq_refl). unfold split_high, d'.
    pose proof (sd_used _ _ _ _ _ _ _ _ si_low0).
    destruct lf, lu, hu; try done; simpl; try (by rewrite (wr_slot_lt d) by lia); naive_solver. }
  assert (Hv'v : ∀ i, i ∉ H → i ≠ idx → v' !! i = v !! i).
  { intros i Hi Hne. apply extend_lookup; [done|]. by intros ->. }
  split; simpl; try done.
  - refine (side_other _ _ _ _ _ _ _ _ _ _ _ si_low0 _). intros i Hi. apply Hv'v; [|mem].
    intros HiH. apply (HdL i Hi). mem.
  - split; congruence.
  - intros i Hi1 Hi2. apply Hv'; auto.
  - by rewrite perm_append_high.
  - intros i. by rewrite perm_append_high.
  - intros i Hi1 Hi2. assert (Hi : i ∉ L ++ H ++ e :: idx :: rem) by (rewrite si_mem0; intuition).
    rewrite Hv'v; [by apply si_frame0|mem|mem].
  - intros i Hi. apply (bits_rec_at v _ (λ h, mk h = f ∧ Z.land h half = 0) i); auto.
  - intros i Hi. apply (bits_rec_at v _ (λ h, mk h = f ∧ Z.land h half ≠ 0) i); [done|].
    apply elem_of_app in Hi as [Hi| ->%list_elem_of_singleton]; [auto|by exists x].
  - intros i Hi. apply (bits_rec_at v _ (λ h, mk h = f) i); [done|]. apply si_rem_bits0. mem.
  - destruct H; [mem|done].
  - rewrite (contents_ext v); [done|]. intros; apply HR.
Qed.

(** The first record of a chain moves from slot [idx] to the free slot [e]. *)
Lemma move_rec_at v e idx x i :
  v !! idx = Some x → (e < length v)%nat →
  rec_at (<[e:=link NO_RECORD (hash_nr x, data x)]> v) i =
  if decide (i = e) then rec_at v idx else rec_at v i.
Proof.
  intros Hx He. case_decide as Hi; subst.
  - rewrite rec_at_insert by done. unfold rec_at. by rewrite Hx.
  - by apply rec_at_insert_ne.
Qed.

Lemma split_contents_move v e idx x :
  length v = S n → v !! idx = Some x → (e < S n)%nat → idx ≠ e →
  contents (<[e:=link NO_RECORD (hash_nr x, data x)]> v) (S n) (Some idx) ≡ₚ
  contents v (S n) (Some e).
Proof.
  intros Hl Hx He Hne. pose proof (lookup_lt_Some _ _ _ Hx).
  apply contents_move; try done; [lia| | |].
  - rewrite (move_rec_at v e idx) by (done || lia). by rewrite decide_True.
  - unfold rec_at. rewrite Hx. by eexists.
  - intros i Hi _. rewrite (move_rec_at v e idx) by (done || lia). by rewrite decide_False.
Qed.

Lemma link_self x z : next x = z → x = link z (hash_nr x, data x).
Proof. intros <-. by destruct x. Qed.

(** The first record that stays, after one that moves. *)
Lemma split_low_first s lu hu L H idx rem v e g g2 x :
  split_inv s false lu true hu L H (idx :: rem) v e g g2 → next_slot s L H rem v e idx x →
  Z.land (hash_nr x) half = 0 → (e < S n)%nat →
  ∃ s' v', split_low s (slot idx) x = Some s' ∧ s_data s' !! idx = Some x ∧
    split_inv s' true false true false [f] H rem v' idx f g2.
Proof.
  intros [] [] Hbit Hes. destruct s as [d flag empty gpos rec gpos2 rec2]; simpl in *.
  destruct si_len0 as [Hld Hlv]. rewrite d0_length in Hld, Hlv.
  pose proof (sd_none _ _ _ _ _ _ _ _ si_low0 eq_refl) as ->.
  pose proof (si_free_low0 eq_refl eq_refl) as ->.
  assert (lu = false) as ->.
  { destruct lu; [|done]. by destruct (sd_used _ _ _ _ _ _ _ _ si_low0 eq_refl). }
  set (v' := <[f:=link NO_RECORD (hash_nr x, data x)]> v).
  assert (Hv'v : ∀ i, i ≠ f → v' !! i = v !! i) by (intros; by apply list_lookup_insert_ne).
  simpl in si_nodup0. pose proof si_nodup0 as (HnH & HdH & HnR)%list.NoDup_app.
  assert (HfH : f ∉ H) by (intros ?; eapply HdH; [done|mem]).
  apply list.NoDup_cons in HnR as [Hfr _].
  assert (Hperm : f :: H ++ idx :: rem ≡ₚ H ++ f :: idx :: rem) by solve_Permutation.
  exists (mkSplit d (Z.b2z true + 2 * Z.b2z false + 4 * Z.b2z true + 8 * Z.b2z false)
            (slot idx) (slot f) (hash_nr x, data x) gpos2 rec2), v'.
  split_and!; [|done|].
  { rewrite si_flag0, si_empty0. unfold split_low. by destruct hu. }
  split; simpl; try done.
  - apply side_first; [lia|done].
  - refine (side_other _ _ _ _ _ _ _ _ _ _ _ si_high0 _). intros i Hi. apply Hv'v. by intros ->.
  - apply si_rem0.
  - unfold v'. rewrite length_insert. lia.
  - intros i Hi1 Hi2. rewrite Hv'v by auto. auto.
  - by rewrite Hperm.
  - intros i. by rewrite Hperm.
  - intros i Hi1 Hi2. rewrite Hv'v; [by apply si_frame0|]. intros ->.
    assert (f ∈ H ++ f :: idx :: rem) as Hin by mem. apply si_mem0 in Hin. intuition.
  - intros i ->%list_elem_of_singleton. eexists. unfold v'.
    by rewrite list_lookup_insert_eq by lia.
  - intros i Hi. rewrite Hv'v by (by intros ->). auto.
  - intros i Hi. rewrite Hv'v by mem. apply si_rem_bits0. mem.
  - unfold v'. by rewrite split_contents_move.
Qed.

(** The first record that stays, before any that moves. *)
Lemma split_low_stay s lu hu L H idx rem v e g g2 x :
  split_inv s false lu false hu L H (idx :: rem) v e g g2 → next_slot s L H rem v e idx x →
  Z.land (hash_nr x) half = 0 →
  ∃ s' v', split_low s (slot idx) x = Some s' ∧ s_data s' !! idx = Some x ∧
    split_inv s' true true false false [f] [] rem v' e f g2.
Proof.
  intros [] [] Hbit. destruct s as [d flag empty gpos rec gpos2 rec2]; simpl in *.
  destruct si_len0 as [Hld Hlv]. rewrite d0_length in *.
  pose proof (sd_none _ _ _ _ _ _ _ _ si_low0 eq_refl) as ->.
  pose proof (sd_none _ _ _ _ _ _ _ _ si_high0 eq_refl) as ->.
  assert (lu = false) as ->.
  { destruct lu; [|done]. by destruct (sd_used _ _ _ _ _ _ _ _ si_low0 eq_refl). }
  assert (hu = false) as ->.
  { destruct hu; [|done]. by destruct (sd_used _ _ _ _ _ _ _ _ si_high0 eq_refl). }
  pose proof (si_start0 eq_refl eq_refl) as Hidx. assert (idx = f) as -> by lia.
  set (v' := <[f:=link NO_RECORD (hash_nr x, data x)]> v).
  assert (Hv'v : ∀ i, i ≠ f → v' !! i = v !! i) by (intros; by apply list_lookup_insert_ne).
  exists (mkSplit d (Z.b2z true + 2 * Z.b2z true + 4 * Z.b2z false + 8 * Z.b2z false)
            empty (slot f) (hash_nr x, data x) gpos2 rec2), v'.
  split_and!; [|done|].
  { rewrite si_flag0. done. }
  assert (Hperm : f :: e :: rem ≡ₚ e :: f :: rem) by constructor.
  split; simpl; try done.
  - apply side_first; [lia|]. intros _. rewrite nx_data0. f_equal. by apply link_self.
  - apply si_rem0.
  - unfold v'. rewrite length_insert. lia.
  - intros i Hi1 Hi2. rewrite Hv'v by auto. auto.
  - by rewrite Hperm.
  - intros i. by rewrite Hperm.
  - intros i Hi1 Hi2. rewrite Hv'v; [by apply si_frame0|]. intros ->.
    assert (f ∈ e :: f :: rem) as Hin by mem. apply si_mem0 in Hin. intuition.
  - intros i ->%list_elem_of_singleton. eexists. unfold v'.
    by rewrite list_lookup_insert_eq by lia.
  - intros i Hi. mem.
  - intros i Hi. rewrite Hv'v by (by intros ->). apply si_rem_bits0. mem.
  - rewrite (contents_ext v); [done|]. intros i _ _. unfold v'.
    rewrite (move_rec_at v f f) by (done || lia). by case_decide; subst.
Qed.

(** The first record that moves. *)
Lemma split_high_first s lf lu hu L H idx rem v e g g2 x :
  split_inv s lf lu false hu L H (idx :: rem) v e g g2 → next_slot s L H rem v e idx x →
  Z.land (hash_nr x) half ≠ 0 →
  ∃ s' v', split_high s (slot idx) x = Some s' ∧ s_data s' !! idx = Some x ∧
    split_inv s' lf false true false L [n] rem v' idx g n.
Proof.
  intros [] [] Hbit. destruct s as [d flag empty gpos rec gpos2 rec2]; simpl in *.
  destruct si_len0 as [Hld Hlv]. rewrite d0_length in *.
  pose proof (sd_none _ _ _ _ _ _ _ _ si_high0 eq_refl) as ->.
  assert (hu = false) as ->.
  { destruct hu; [|done]. by destruct (sd_used _ _ _ _ _ _ _ _ si_high0 eq_refl). }
  pose proof (si_free_high0 eq_refl) as ->.
  set (v' := <[n:=link NO_RECORD (hash_nr x, data x)]> v).
  assert (Hv'v : ∀ i, i ≠ n → v' !! i = v !! i) by (intros; by apply list_lookup_insert_ne).
  simpl in si_nodup0. pose proof si_nodup0 as (HnL & HdL & HnR)%list.NoDup_app.
  assert (HnLn : n ∉ L) by (intros ?; eapply HdL; [done|mem]).
  apply list.NoDup_cons in HnR as [Hnr _].
  exists (mkSplit d (Z.b2z lf + 2 * Z.b2z false + 4 * Z.b2z true + 8 * Z.b2z false)
            (slot idx) gpos rec (slot n) (hash_nr x, data x)), v'.
  split_and!; [|done|].
  { rewrite si_flag0, si_empty0. unfold split_high. by destruct lf, lu. }
  split; simpl; try done.
  - refine (side_other _ _ _ _ _ _ _ _ _ _ _ si_low0 _). intros i Hi. apply Hv'v. by intros ->.
  - apply side_first; [lia|done].
  - apply si_rem0.
  - unfold v'. rewrite length_insert. lia.
  - intros i Hi1 Hi2. rewrite Hv'v by auto. auto.
  - intros i Hi1 Hi2. rewrite Hv'v by done. by apply si_frame0.
  - intros i Hi. rewrite Hv'v by (by intros ->). auto.
  - intros i ->%list_elem_of_singleton. eexists. unfold v'.
    by rewrite list_lookup_insert_eq by lia.
  - intros i Hi. rewrite Hv'v by mem. apply si_rem_bits0. mem.
  - intros -> _. pose proof (si_start0 eq_refl eq_refl). lia.
  - unfold v'. rewrite split_contents_move; try done. lia.
Qed.

(** The invariant with [rem] left to do. *)
Definition split_at (s : split_state) rem : Prop :=
  ∃ lf lu hf hu L H v e g g2, split_inv s lf lu hf hu L H rem v e g g2.

Lemma split_at_lt s lf lu hf hu L H rem v e g g2 i :
  split_inv s lf lu hf hu L H rem v e g g2 → i ∈ e :: rem → (i < S n)%nat.
Proof.
  intros [] Hi. assert (i ∈ L ++ H ++ e :: rem) as Hin by mem.
  apply si_mem0 in Hin as [Hc| ->]; [apply c_lt in Hc|]; lia.
Qed.

Lemma split_step s idx rem :
  split_at s (idx :: rem) →
  ∃ x s', s_data s !! idx = Some x ∧ mk (hash_nr x) = f ∧ next x = first_of rem NO_RECORD ∧
    (if Z.land (hash_nr x) half =? 0 then split_low s (slot idx) x
     else split_high s (slot idx) x) = Some s' ∧
    s_data s' !! idx = Some x ∧ split_at s' rem.
Proof.
  intros (lf & lu & hf & hu & L & H & v & e & g & g2 & Hinv).
  destruct (split_next _ _ _ _ _ _ _ _ _ _ _ _ _ Hinv) as [x Hx].
  pose proof (split_at_lt _ _ _ _ _ _ _ _ _ _ _ _ e Hinv) as He.
  exists x. pose proof Hx as [? _ ? _ _ _ _ ? _].
  destruct (Z.eqb_spec (Z.land (hash_nr x) half) 0) as [Hb|Hb].
  - destruct lf; [|destruct hf].
    + destruct (split_low_extend _ _ _ _ _ _ _ _ _ _ _ _ _ Hinv Hx Hb) as (s' & v' & ? & ? & ?).
      exists s'. split_and!; try done. by eexists _, _, _, _, _, _, _, _, _, _.
    + destruct (split_low_first _ _ _ _ _ _ _ _ _ _ _ _ Hinv Hx Hb) as (s' & v' & ? & ? & ?);
        [apply He; mem|].
      exists s'. split_and!; try done. by eexists _, _, _, _, _, _, _, _, _, _.
    + destruct (split_low_stay _ _ _ _ _ _ _ _ _ _ _ _ Hinv Hx Hb) as (s' & v' & ? & ? & ?).
      exists s'. split_and!; try done. by eexists _, _, _, _, _, _, _, _, _, _.
  - destruct hf.
    + destruct (split_high_extend _ _ _ _ _ _ _ _ _ _ _ _ _ Hinv Hx Hb) as (s' & v' & ? & ? & ?).
      exists s'. split_and!; try done. by eexists _, _, _, _, _, _, _, _, _, _.
    + destruct (split_high_first _ _ _ _ _ _ _ _ _ _ _ _ _ Hinv Hx Hb) as (s' & v' & ? & ? & ?).
      exists s'. split_and!; try done. by eexists _, _, _, _, _, _, _, _, _, _.
Qed.

(** The loop runs to the end of the chain. *)
Lemma split_loop_spec blen nrec rem : ∀ fuel s idx,
  (length rem < fuel)%nat → split_at s (idx :: rem) → Z.of_nat (S n) ≤ NO_RECORD →
  (∀ h, mk h = f → my_hash_mask h blen nrec = slot f) →
  ∃ s', split_loop fuel blen nrec half (slot f) s (slot idx) = Some s' ∧ split_at s' [].
Proof.
  induction rem as [|idx' rem IH]; intros fuel s idx Hf Hat Hn Hmk;
    (destruct fuel as [|fuel]; [simpl in Hf; lia|]);
    destruct (split_step _ _ _ Hat) as (x & s' & Hx & Hm & Hnx & Hst & Hx' & Hat');
    cbn [split_loop]; rewrite rd_slot, Hx; cbn [mbind option_bind];
    rewrite (Hmk _ Hm), Z.eqb_refl, andb_false_r, Hst; cbn [mbind option_bind];
    rewrite rd_slot, Hx'; cbn [mbind option_bind]; rewrite Hnx; cbn [first_of].
  - rewrite Z.eqb_refl. by exists s'.
  - assert (idx' < S n)%nat.
    { destruct Hat' as (? & ? & ? & ? & ? & ? & ? & ? & ? & ? & Hinv).
      eapply split_at_lt; [exact Hinv|]. mem. }
    rewrite (proj2 (Z.eqb_neq _ _)) by lia. apply IH; try done. simpl in Hf. lia.
Qed.

(** Writing the last link of a side that is not written yet makes the array the virtual one. *)
Lemma finish_writes (v d : list (@HASH_LINK Rec)) (lf lu hf hu : bool) g g2 x x2 :
  (lf = true → v !! g = Some x ∧ (g < length d)%nat) → (hf = true → v !! g2 = Some x2 ∧ (g2 < length d)%nat) →
  (lf = true → hf = true → g ≠ g2) →
  (lf = true → lu = true → d !! g = Some x) → (hf = true → hu = true → d !! g2 = Some x2) →
  (∀ i, ¬ (lf = true ∧ i = g) → ¬ (hf = true ∧ i = g2) → v !! i = d !! i) →
  let d1 := if lf && negb lu then <[g:=x]> d else d in
  (if hf && negb hu then <[g2:=x2]> d1 else d1) = v.
Proof.
  intros Hlow Hhigh Hdis Hul Huh Hv d1. apply list_eq. intros i. unfold d1.
  assert (Hd1 : ¬ (lf = true ∧ i = g) → (if lf && negb lu then <[g:=x]> d else d) !! i = d !! i).
  { intros H1. destruct lf; [|done]. simpl. destruct lu; [done|]. simpl. rewrite list_lookup_insert_ne; [done|]. naive_solver. }
  destruct (decide (lf = true ∧ i = g)) as [[-> ->]|H1].
  - destruct (Hlow eq_refl) as (Hg & Hgl). rewrite Hg.
    destruct (hf && negb hu) eqn:Hb;
      [rewrite list_lookup_insert_ne by (destruct hf; [by apply not_eq_sym, Hdis|done])|];
      (destruct lu; simpl; [by apply Hul|by rewrite list_lookup_insert_eq by lia]).
  - specialize (Hd1 H1). destruct (decide (hf = true ∧ i = g2)) as [[-> ->]|H2].
    + destruct (Hhigh eq_refl) as (Hg & Hgl). rewrite Hg. destruct hu; simpl; [rewrite Hd1; by apply Huh|].
      apply list_lookup_insert_eq. destruct (lf && negb lu); rewrite ?length_insert; lia.
    + rewrite Hv by done. rewrite <-Hd1. destruct hf; [|done]. simpl. destruct hu; [done|]. simpl.
      rewrite list_lookup_insert_ne; [done|]. naive_solver.
Qed.

(** The statements after the loop carry out the pending writes. *)
Lemma split_finish s :
  split_at s [] →
  ∃ v e L H,
    (d1 ← (if Z.land (s_flag s) (Z.lor LOWFIND LOWUSED) =? LOWFIND then
             wr (s_data s) (s_gpos s) (mkLINK NO_RECORD (s_rec s).1 (s_rec s).2)
           else Some (s_data s));
     d2 ← (if Z.land (s_flag s) (Z.lor HIGHFIND HIGHUSED) =? HIGHFIND then
             wr d1 (s_gpos2 s) (mkLINK NO_RECORD (s_rec2 s).1 (s_rec2 s).2)
           else Some d1);
     Some (d2, s_empty s)) = Some (v, slot e) ∧
    ∃ s' lf lu hf hu g g2, split_inv s' lf lu hf hu L H [] v e g g2.
Proof.
  intros (lf & lu & hf & hu & L & H & v & e & g & g2 & Hinv). exists v, e, L, H.
  split; [|by eexists _, _, _, _, _, _, _].
  destruct Hinv. destruct s as [d flag empty gpos rec gpos2 rec2]; simpl in *.
  destruct si_len0 as [Hld Hlv].
  assert (Hlow : lf = true → v !! g = Some (link NO_RECORD rec) ∧ (g < length d0)%nat ∧ g ∈ L).
  { intros ->. destruct (sd_last _ _ _ _ _ _ _ _ si_low0 eq_refl) as (L0 & -> & Hg).
    split_and!; [done| |mem]. rewrite <-Hlv. by eapply lookup_lt_Some. }
  assert (Hhigh : hf = true → v !! g2 = Some (link NO_RECORD rec2) ∧ (g2 < length d0)%nat ∧ g2 ∈ H).
  { intros ->. destruct (sd_last _ _ _ _ _ _ _ _ si_high0 eq_refl) as (L0 & -> & Hg).
    split_and!; [done| |mem]. rewrite <-Hlv. by eapply lookup_lt_Some. }
  assert (Hdis : lf = true → hf = true → g ≠ g2).
  { intros Hl Hh ->. destruct (Hlow Hl) as (_ & _ & HL), (Hhigh Hh) as (_ & _ & HH).
    apply list.NoDup_app in si_nodup0 as (_ & Hd & _). apply (Hd g2 HL). mem. }
  set (d1 := if lf && negb lu then <[g:=link NO_RECORD rec]> d else d).
  assert (Hl1 : length d1 = length d0).
  { unfold d1. destruct (lf && negb lu); by rewrite ?length_insert. }
  set (d2 := if hf && negb hu then <[g2:=link NO_RECORD rec2]> d1 else d1).
  pose proof (sd_used _ _ _ _ _ _ _ _ si_low0) as Hul.
  pose proof (sd_used _ _ _ _ _ _ _ _ si_high0) as Huh.
  assert (Hd2 : d2 = v).
  { apply finish_writes.
    - intros Hl. rewrite Hld. by destruct (Hlow Hl) as (? & ? & _).
    - intros Hh. rewrite Hld. by destruct (Hhigh Hh) as (? & ? & _).
    - exact Hdis.
    - intros _ Hu. by destruct (Hul Hu).
    - intros _ Hu. by destruct (Huh Hu).
    - intros i H1 H2. apply si_virtual0; intros ? ->; [by apply H1|by apply H2]. }
  assert (E1 : (Z.land flag (Z.lor LOWFIND LOWUSED) =? LOWFIND) = lf && negb lu).
  { rewrite si_flag0. destruct lf, lu, hf, hu; naive_solver. }
  assert (E2 : (Z.land flag (Z.lor HIGHFIND HIGHUSED) =? HIGHFIND) = hf && negb hu).
  { rewrite si_flag0. destruct lf, lu, hf, hu; naive_solver. }
  assert (W1 : (if lf && negb lu then wr d gpos (mkLINK NO_RECORD rec.1 rec.2) else Some d) = Some d1).
  { unfold d1. destruct lf; [|done]. destruct lu; [done|]. simpl. rewrite si_gpos0 by done.
    apply wr_slot_lt. destruct (Hlow eq_refl) as (_ & ? & _). lia. }
  assert (W2 : (if hf && negb hu then wr d1 gpos2 (mkLINK NO_RECORD rec2.1 rec2.2) else Some d1) =
    Some d2).
  { unfold d2. destruct hf; [|done]. destruct hu; [done|]. simpl. rewrite si_gpos3 by done.
    apply wr_slot_lt. destruct (Hhigh eq_refl) as (_ & ? & _). lia. }
  rewrite E1, E2, W1. cbn [mbind option_bind]. rewrite W2. cbn [mbind option_bind].
  by rewrite Hd2, si_empty0.
Qed.

End Loop.
(** The state before the loop. *)
Lemma split_start d0 mk half f n t spare ch :
  length d0 = S n → table d0 mk (S n) (Some n) ch → ch f = f :: t →
  split_at d0 mk half f n (f :: t) (mkSplit d0 0 (slot n) 0 spare 0 spare) (f :: t).
Proof.
  intros Hlen Ht Hch. pose proof (t_chain _ _ _ _ _ Ht f) as [Hs Hn Hh Hm].
  rewrite Hch in Hs, Hn, Hm.
  assert (Hnin : n ∉ f :: t).
  { intros Hi. destruct (table_lt _ _ _ _ _ Ht n f); [by rewrite Hch|done]. }
  exists false, false, false, false, [], [], d0, n, 0%nat, 0%nat.
  split; try done; simpl.
  - constructor; [done|done].
  - intros i. rewrite (elem_of_cons _ i n). intuition.
  - intros i Hi. mem.
  - intros i Hi. mem.
Qed.

Lemma table_remask d mk mk' m hole ch :
  table d mk m hole ch →
  (∀ b i x, i ∈ ch b → d !! i = Some x → mk' (hash_nr x) = b) →
  table d mk' m hole ch.
Proof.
  intros Ht Hm. split; [|apply Ht]. intros b.
  destruct (t_chain _ _ _ _ _ Ht b) as [Hs Hn Hh Hmk]. split; try done.
  intros i Hi. destruct (Hmk i Hi) as (x & Hx & _). exists x. split; [done|]. by eapply Hm.
Qed.

(** The size of a table: [blength] is the power of two above [n]. *)
Definition size_ok (blen : Z) (n : nat) : Prop :=
  (blen = 1 ∧ n = 0%nat) ∨
  ∃ k, 0 ≤ k < 60 ∧ blen = 2 ^ (k + 1) ∧ 2 ^ k ≤ Z.of_nat n < 2 ^ (k + 1).

Lemma bucket_mask k n h :
  0 ≤ k < 60 → slot (bucket (2 ^ (k + 1)) n h) = my_hash_mask h (2 ^ (k + 1)) (Z.of_nat n).
Proof.
  intros Hk. unfold bucket. rewrite mask_mod by lia.
  pose proof (Z.mod_pos_bound h (2 ^ k)). pose proof (Z.mod_pos_bound h (2 ^ (k + 1))).
  assert (0 < 2 ^ k ∧ 0 < 2 ^ (k + 1)) by (split; apply Z.pow_pos_nonneg; lia).
  case_match; lia.
Qed.

(** A bucket of the larger table by the bucket of the smaller one. *)
Lemma bucket_split k n f h :
  0 ≤ k < 60 → 2 ^ k ≤ slot n < 2 ^ (k + 1) → slot f = slot n - 2 ^ k →
  bucket (2 ^ (k + 1)) (S n) h =
  if decide (bucket (2 ^ (k + 1)) n h = f ∧ Z.land h (2 ^ k) ≠ 0) then n
  else bucket (2 ^ (k + 1)) n h.
Proof.
  intros Hk Hn Hf. apply Nat2Z.inj. rewrite bucket_mask by done.
  replace (Z.of_nat (S n)) with (slot n + 1) by lia. rewrite mask_split by lia.
  pose proof (bucket_mask k n h Hk) as Hb.
  destruct (Z.eqb_spec (my_hash_mask h (2 ^ (k + 1)) (slot n)) (slot n - 2 ^ k)) as [He|He];
    destruct (Z.eqb_spec (Z.land h (2 ^ k)) 0) as [Hl|Hl]; simpl; case_decide; lia.
Qed.

(** The table after the split, from the two chains. *)
Lemma split_table k f n d ch v e L H s lf lu hf hu g g2 :
  let mk := bucket (2 ^ (k + 1)) n in
  0 ≤ k < 60 → 2 ^ k ≤ slot n < 2 ^ (k + 1) → slot f = slot n - 2 ^ k →
  table d mk (S n) (Some n) ch →
  split_inv d mk (2 ^ k) f n (ch f) s lf lu hf hu L H [] v e g g2 →
  table v (bucket (2 ^ (k + 1)) (S n)) (S n) (Some e) (<[f:=L]> (<[n:=H]> ch)).
Proof.
  intros mk Hk Hn Hf Ht []. assert (0 < 2 ^ k) by (apply Z.pow_pos_nonneg; lia).
  assert (Hnil : ch n = []) by (by apply (table_hole _ _ _ _ _ Ht)).
  assert (Hmk : ∀ h, bucket (2 ^ (k + 1)) (S n) h =
    if decide (mk h = f ∧ Z.land h (2 ^ k) ≠ 0) then n else mk h).
  { intros h. by apply bucket_split. }
  apply list.NoDup_app in si_nodup0 as (HnL & HdL & HnH).
  apply list.NoDup_app in HnH as (HnH & HdH & _).
  apply (table_upd2 _ _ _ _ _ Ht); [lia| | | | |].
  - intros a i Ha1 Ha2 Hi. apply si_frame0.
    + intros Hif. destruct Ha1. by eapply table_disjoint.
    + intros ->. by destruct (table_lt _ _ _ _ _ Ht n a).
  - intros a i x Ha1 Ha2 Hi Hx. pose proof (table_mask _ _ _ _ _ Ht i x a Hx Hi) as Hm.
    fold mk in Hm. rewrite Hmk, Hm, decide_False; [done|]. by intros [? _].
  - split; try done; [by apply si_low0|]. intros i Hi.
    destruct (si_low_bits0 i Hi) as (x & Hx & Hm & Hb). exists x. split; [done|].
    rewrite Hmk, decide_False; [done|]. by intros [_ ?].
  - split; try done; [by apply si_high0|]. intros i Hi.
    destruct (si_high_bits0 i Hi) as (x & Hx & Hm & Hb). exists x. split; [done|].
    by rewrite Hmk, decide_True.
  - intros i. rewrite Hnil.
    assert (Hlt : i ∈ ch f → (i < S n)%nat ∧ Some n ≠ Some i) by apply (table_lt _ _ _ _ _ Ht).
    specialize (si_mem0 i). rewrite !elem_of_app, list_elem_of_singleton in si_mem0.
    assert (He1 : e ∉ L) by (intros Hi; apply (HdL e Hi); mem).
    assert (He2 : e ∉ H) by (intros Hi; apply (HdH e Hi); mem).
    rewrite elem_of_nil. destruct (decide (i = e)) as [->|Hie].
    + split; [intuition congruence|]. intros [?|[?|?]]; [done|done|].
      destruct (proj1 si_mem0); [by right; right|naive_solver|].
      subst e. naive_solver.
    + destruct (decide (i ∈ ch f)), (decide (i = n)); intuition (lia || congruence).
Qed.

(** The split turns a table of [n] buckets, with the new slot free, into one of
    [n + 1] buckets with one free slot and the same records. *)
Lemma split_bucket_spec blen n d ch spare :
  size_ok blen n → length d = S n → Z.of_nat (S n) ≤ NO_RECORD →
  table d (bucket blen n) (S n) (Some n) ch →
  ∃ d' e ch', split_bucket d blen (Z.of_nat n) spare = Some (d', slot e) ∧ (e < S n)%nat ∧
    length d' = S n ∧ table d' (bucket blen (S n)) (S n) (Some e) ch' ∧
    contents d' (S n) (Some e) ≡ₚ contents d (S n) (Some n).
Proof.
  intros [[-> ->]|(k & Hk & -> & Hn)] Hlen Hno Ht.
  { exists d, 0%nat, ch. split_and!; try done; [lia|].
    apply (table_remask _ _ _ _ _ _ Ht). intros b i x Hi.
    destruct (table_lt _ _ _ _ _ Ht i b Hi). assert (i = 0%nat) as -> by lia. done. }
  unfold split_bucket. assert (0 < 2 ^ k) by (apply Z.pow_pos_nonneg; lia).
  assert (Hhalf : Z.shiftr (2 ^ (k + 1)) 1 = 2 ^ k).
  { rewrite Z.shiftr_div_pow2, Z.pow_add_r by lia. by rewrite Z.div_mul. }
  rewrite Hhalf. set (f := Z.to_nat (slot n - 2 ^ k)).
  assert (Hf : slot f = slot n - 2 ^ k) by lia. rewrite <-Hf.
  rewrite (proj2 (Z.eqb_neq _ _)) by lia.
  destruct (table_head _ _ _ _ _ Ht f) as [Hch|[t Hch]].
  - destruct (table_in _ _ _ _ _ Ht f) as (x & Hx & Hin); [lia|intros [=]; lia|].
    assert (Hne : bucket (2 ^ (k + 1)) n (hash_nr x) ≠ f).
    { intros Heq. rewrite Heq, Hch in Hin. mem. }
    rewrite Hlen. cbn [split_loop s_data s_flag]. rewrite rd_slot, Hx. cbn [mbind option_bind].
    rewrite <-bucket_mask by done. rewrite (proj2 (Z.eqb_neq (slot _) _)) by lia. cbn.
    exists d, n, ch. split_and!; try done; [lia|].
    apply (table_remask _ _ _ _ _ _ Ht). intros b i y Hi Hy.
    pose proof (table_mask _ _ _ _ _ Ht i y b Hy Hi) as Hm.
    rewrite (bucket_split k n f) by done. rewrite Hm, decide_False; [done|].
    intros [-> _]. rewrite Hch in Hi. mem.
  - pose proof (split_start d _ (2 ^ k) f n t (0, spare) ch Hlen Ht Hch) as Hat.
    assert (Hlt : ∀ i, i ∈ f :: t → (i < n)%nat).
    { intros i Hi. destruct (table_lt _ _ _ _ _ Ht i f) as [? Hne]; [by rewrite Hch|].
      assert (i ≠ n) by congruence. lia. }
    pose proof (table_chain_length _ _ _ _ _ Ht f) as Hcl. rewrite Hch in Hcl.
    destruct (split_loop_spec d (bucket (2 ^ (k + 1)) n) (2 ^ k) f n (f :: t) Hlen Hlt
      (2 ^ (k + 1)) (slot n) t (length d)
      (mkSplit d 0 (slot n) 0 (0, spare) 0 (0, spare)) f) as (s' & Hl & Hat');
      [simpl in Hcl; lia|done|done|intros h <-; by rewrite bucket_mask|].
    rewrite Hl. cbn [mbind option_bind].
    apply split_finish in Hat'; [|done..]. destruct Hat' as (v & e & L & H1 & Hfin & s2 & lf & lu & hf & hu & g
      & g2 & Hinv).
    rewrite Hfin. rewrite <-Hch in Hinv.
    exists v, e, (<[f:=L]> (<[n:=H1]> ch)). split_and!; [done| | | |].
    + rewrite Hch in Hinv. eapply split_at_lt; [done|exact Hlt|exact Hinv|mem].
    + destruct Hinv. destruct si_len0. congruence.
    + by eapply split_table.
    + apply Hinv.
Qed.

End Split.
