(* ===== verification/HashOps.v ===== *)
(** * The operations of the hash table

    Search, insertion, deletion and update against the contents of the table,
    the list of its records with their hash numbers. *)

From stdpp Require Import sets functions.
From S2P Require Import Prelude Hash HashFacts HashSplit.
Local Open Scope Z_scope.

Lemma filter_keep {A} (P : A → Prop) `{!∀ x, Decision (P x)} (xs : list A) :
  (∀ x, x ∈ xs → P x) → filter P xs = xs.
Proof.
  induction xs as [|x xs IH]; intros HP; [done|].
  rewrite filter_cons_True by (apply HP; by left). f_equal. apply IH.
  intros; apply HP; by right.
Qed.

Section Ops.
Context {Rec : Type} `{!EqDecision Rec}.
Implicit Types (d : list (@HASH_LINK Rec)) (x : @HASH_LINK Rec) (h : @HASH Rec)
  (i j b e : nat) (l : list nat) (record : Rec).

Abbreviation slot i := (Z.of_nat i).

(** The records of a table with their hash numbers. *)
Definition items h : list (Z * Rec) := (λ x, (hash_nr x, data x)) <$> array h.

(** The invariant of a table, apart from the keys. *)
Record hash_ok h : Prop := {
  ho_size : size_ok (blength h) (length (array h));
  ho_records : records h = Z.of_nat (length (array h));
  ho_bound : Z.of_nat (length (array h)) ≤ NO_RECORD;
  ho_table : ∃ ch, table (array h) (bucket (blength h) (length (array h)))
                         (length (array h)) None ch;
}.

Lemma slots_all m : slots m None = seq 0 m.
Proof.
  by apply filter_keep.
Qed.

Lemma contents_items d :
  contents d (length d) None = (λ x, (hash_nr x, data x)) <$> d.
Proof.
  unfold contents. rewrite slots_all. induction d as [|x d IH] using rev_ind; [done|].
  rewrite length_app, seq_app, omap_app, fmap_app, <-IH. f_equal.
  - apply omap_agree. intros i Hi%elem_of_seq. unfold rec_at.
    rewrite lookup_app_l by lia. done.
  - cbn. unfold rec_at. rewrite lookup_app_r, Nat.sub_diag by lia. done.
Qed.

Lemma bucket_ok blen n n' hash :
  size_ok blen n → (n' = n ∧ (0 < n)%nat) ∨ n' = S n →
  slot (bucket blen n' hash) = my_hash_mask hash blen (slot n') ∧ (bucket blen n' hash < n')%nat.
Proof.
  intros [[-> ->]|(k & Hk & -> & Hn)] Hn'.
  - destruct Hn' as [[_ ?]| ->]; [lia|]. unfold bucket, my_hash_mask. simpl.
    rewrite Z.land_0_r. simpl. lia.
  - pose proof (bucket_mask k n' hash Hk) as Hb. split; [done|].
    pose proof (mask_bound hash k (slot n')). lia.
Qed.

(** The last part of an insertion. *)
Lemma place_spec blen n d ch e hash record :
  size_ok blen n → length d = S n → (e < S n)%nat → Z.of_nat (S n) ≤ NO_RECORD →
  table d (bucket blen (S n)) (S n) (Some e) ch →
  ∃ d' ch', place d blen (Z.of_nat n) (slot e) hash record = Some d' ∧ length d' = S n ∧
    table d' (bucket blen (S n)) (S n) None ch' ∧
    contents d' (S n) None ≡ₚ (hash, record) :: contents d (S n) (Some e).
Proof.
  intros Hsz Hlen He Hno Ht. set (mk := bucket blen (S n)) in *.
  assert (Hmk : ∀ h : Z, my_hash_mask h blen (slot n + 1) = slot (mk h) ∧ (mk h < S n)%nat).
  { intros h. destruct (bucket_ok blen n (S n) h) as [Hb ?]; [done|by right|].
    fold mk in Hb. rewrite Hb. split; [f_equal; lia|done]. }
  unfold place. set (b := mk hash). destruct (Hmk hash) as [Hb Hbn]. fold b in Hb, Hbn.
  rewrite Hb. destruct (Z.eqb_spec (slot b) (slot e)) as [Heq|Hne].
  - assert (b = e) as <- by lia.
    destruct (table_fill d mk (S n) ch b hash record) as [Ht' Hc']; try done; [lia|].
    rewrite wr_slot_lt by lia. eexists _, _. split_and!; [done|by rewrite length_insert|done|done].
  - assert (Hbe : b ≠ e) by lia.
    destruct (table_in _ _ _ _ _ Ht b) as (x & Hx & Hin); [done|congruence|].
    rewrite rd_slot, Hx. cbn [mbind option_bind]. rewrite wr_slot_lt by lia.
    cbn [mbind option_bind]. unfold my_hash_rec_mask. rewrite (proj1 (Hmk _)).
    set (g := mk (hash_nr x)) in *.
    destruct (Z.eqb_spec (slot b) (slot g)) as [Hg|Hg].
    + assert (Hgb : mk (hash_nr x) = b) by lia.
      rewrite Z.mod_small by (unfold NO_RECORD in Hno; lia).
      set (y := mkLINK (slot e) hash record).
      destruct (table_second d mk (S n) ch e b x y x) as [l Ht']; try done; [lia|].
      rewrite wr_slot_lt by (rewrite length_insert; lia).
      eexists _, _. split_and!; [done|by rewrite !length_insert|done|].
      rewrite (contents_fill (<[e:=x]> d) _ (S n) b (hash, record)); [|done|..].
      * rewrite (contents_move d _ (S n) e b); try done.
        -- rewrite rec_at_insert by lia. unfold rec_at. by rewrite Hx.
        -- unfold rec_at. rewrite Hx. by eexists.
        -- intros i ? ?. by apply rec_at_insert_ne.
      * rewrite rec_at_insert by (rewrite length_insert; lia). done.
      * intros i Hi. by apply rec_at_insert_ne.
    + rewrite wr_slot_lt by (rewrite length_insert; lia). cbn [mbind option_bind].
      destruct (table_move d mk (S n) ch e b x (set_next x NO_RECORD))
        as (d' & lg & Hmv & Ht' & Hb' & Hl' & Hc' & _); try done; [lia|lia|].
      fold g in Hmv. rewrite Hmv. cbn [mbind option_bind]. rewrite rd_slot, Hb'.
      cbn [mbind option_bind set_next next]. rewrite wr_slot_lt by lia.
      destruct (table_fill d' mk (S n) (<[mk (hash_nr x):=lg]> ch) b hash record)
        as [Ht2 Hc2]; try done; [lia|].
      eexists _, _. split_and!; [done|rewrite length_insert; lia|done|]. by rewrite Hc2, Hc'.
Qed.

(** ** Search *)

Section Keys.
Context (bytes_at : Rec → list Z) (hash_function : list Z → nat → Z)
  (my_strnncoll : list Z → nat → list Z → nat → Z).

(** Keys that the collation does not tell apart have the same hash number. *)
Hypothesis coll_hash : ∀ k1 k2 n,
  my_strnncoll k1 n k2 n = 0 → hash_function k1 n = hash_function k2 n.

(** The stored hash number of a record is that of its key. *)
Definition hash_nr_ok h x : Prop :=
  hash_nr x = rec_hashnr bytes_at hash_function h (data x).

(** The first slot of a list whose record satisfies a test. *)
Definition find_slot d (P : HASH_LINK → bool) l : option (nat * HASH_LINK) :=
  head (omap (λ i, x ← d !! i; if P x then Some (i, x) else None) l).

Lemma find_slot_cons d P i x l :
  d !! i = Some x → find_slot d P (i :: l) = if P x then Some (i, x) else find_slot d P l.
Proof. intros Hx. unfold find_slot. cbn. rewrite Hx. cbn. by destruct (P x). Qed.

Lemma find_slot_Some d P l i x :
  find_slot d P l = Some (i, x) →
  ∃ l1 l2, l = l1 ++ i :: l2 ∧ d !! i = Some x ∧ P x = true ∧ find_slot d P l1 = None.
Proof.
  revert i x. induction l as [|j l IH]; intros i x; [done|].
  destruct (d !! j) as [y|] eqn:Hy.
  - rewrite (find_slot_cons _ _ _ y) by done. destruct (P y) eqn:HP.
    + intros [= -> ->]. by exists [], l.
    + intros (l1 & l2 & -> & Hx & HPx & Hn)%IH. exists (j :: l1), l2.
      split_and!; try done. by rewrite (find_slot_cons _ _ _ y), HP.
  - unfold find_slot at 1. cbn. rewrite Hy. cbn. intros (l1 & l2 & -> & Hx & HPx & Hn)%IH.
    exists (j :: l1), l2. split_and!; try done. unfold find_slot. cbn. by rewrite Hy.
Qed.

Lemma find_slot_None d P l i x :
  find_slot d P l = None → i ∈ l → d !! i = Some x → P x = false.
Proof.
  induction l as [|j l IH]; [intros _ ?; mem|]. intros Hf Hi Hx.
  destruct (d !! j) as [y|] eqn:Hy.
  - rewrite (find_slot_cons _ _ _ y) in Hf by done. destruct (P y) eqn:HP; [done|].
    apply elem_of_cons in Hi as [<-|Hi]; [congruence|by apply IH].
  - unfold find_slot in Hf. cbn in Hf. rewrite Hy in Hf. cbn in Hf.
    apply elem_of_cons in Hi as [<-|Hi]; [congruence|by apply IH].
Qed.

(** Walking a chain from its first slot. *)
Lemma first_loop_chain h key len l : ∀ fuel i,
  Z.of_nat (length (array h)) ≤ NO_RECORD →
  (length l < fuel)%nat → seg (array h) (i :: l) NO_RECORD →
  first_loop bytes_at my_strnncoll fuel h key len false (slot i) =
  Some ((λ r, (data r.2, slot r.1)) <$>
        find_slot (array h) (λ x, hashcmp bytes_at my_strnncoll h x key len) (i :: l)).
Proof.
  induction l as [|j l IH]; intros fuel i Hb Hf Hs; (destruct fuel as [|fuel]; [simpl in Hf; lia|]);
    destruct Hs as [(x & Hx & Hn) Hs]; cbn [first_loop]; rewrite rd_slot, Hx;
    cbn [mbind option_bind]; rewrite (find_slot_cons _ _ _ x) by done;
    (destruct (hashcmp _ _ _ _ _ _); [done|]); cbn [andb]; rewrite Hn; cbn [first_of].
  - by rewrite Z.eqb_refl.
  - destruct (seg_lookup _ _ _ j Hs) as [y Hy]; [by left|].
    apply lookup_lt_Some in Hy. rewrite (proj2 (Z.eqb_neq _ _)) by lia.
    apply IH; [done|simpl in Hf; lia|done].
Qed.

Lemma next_loop_chain h key len l : ∀ fuel,
  Z.of_nat (length (array h)) ≤ NO_RECORD →
  (length l ≤ fuel)%nat → seg (array h) l NO_RECORD →
  next_loop bytes_at my_strnncoll fuel h key len (first_of l NO_RECORD) =
  Some (match find_slot (array h) (λ x, hashcmp bytes_at my_strnncoll h x key len) l with
        | Some (i, x) => (Some (data x), slot i)
        | None => (None, NO_RECORD)
        end).
Proof.
  induction l as [|j l IH]; intros fuel Hb Hf Hs; [by destruct fuel|].
  destruct fuel as [|fuel]; [simpl in Hf; lia|].
  destruct Hs as [(x & Hx & Hn) Hs]. cbn [next_loop first_of].
  pose proof (lookup_lt_Some _ _ _ Hx). rewrite (proj2 (Z.eqb_neq _ _)) by lia.
  rewrite rd_slot, Hx. cbn [mbind option_bind]. rewrite (find_slot_cons _ _ _ x) by done.
  destruct (hashcmp _ _ _ _ _ _); [done|]. rewrite Hn. apply IH; [done|simpl in Hf; lia|done].
Qed.

(** A record whose key matches has the hash number of the key. *)
Lemma hashcmp_hash h x key len :
  hash_nr_ok h x → hashcmp bytes_at my_strnncoll h x key len = true →
  hash_nr x = hash_function key len.
Proof.
  unfold hash_nr_ok, rec_hashnr, hashcmp.
  destruct (my_hash_key bytes_at h (data x)) as [rk rl]. intros ->.
  case_decide as Hl; [|done]. subst rl. intros Hc%Z.eqb_eq. by apply coll_hash.
Qed.

(** The search from a hash number visits the chain of its bucket; [ex] is a
    record whose stored hash number may be out of date. *)
Lemma first_from_chain h ch hash key len :
  table (array h) (bucket (blength h) (length (array h))) (length (array h)) None ch →
  hash_ok h → records h ≠ 0 → 
  let b := bucket (blength h) (length (array h)) hash in
  let P x := hashcmp bytes_at my_strnncoll h x key (full_length h len) in
  (∃ l, ch b = b :: l ∧
    my_hash_first_from_hash_value bytes_at my_strnncoll h hash key len =
    Some (match find_slot (array h) P (ch b) with
          | Some (i, x) => (Some (data x), slot i)
          | None => (None, NO_RECORD)
          end)) ∨
  (ch b = [] ∧ ∃ x, array h !! b = Some x ∧
    b ∈ ch (bucket (blength h) (length (array h)) (hash_nr x)) ∧
    my_hash_first_from_hash_value bytes_at my_strnncoll h hash key len =
    Some (if P x then (Some (data x), slot b) else (None, NO_RECORD))).
Proof.
  intros Ht [Hsz Hrec Hb _] Hr0 b P. unfold my_hash_first_from_hash_value.
  rewrite (proj2 (Z.eqb_neq _ _)) by done. rewrite Hrec.
  destruct (bucket_ok (blength h) (length (array h)) (length (array h)) hash) as [Hbz Hbn];
    [done|left; split; [done|lia]|]. fold b in Hbz, Hbn. rewrite <-Hbz.
  destruct (table_in _ _ _ _ _ Ht b) as (x & Hx & Hin); [done|done|].
  set (mk := bucket (blength h) (length (array h))) in *.
  cbn [first_loop]. rewrite rd_slot, Hx. cbn [mbind option_bind].
  unfold my_hash_rec_mask. rewrite Hrec.
  destruct (bucket_ok (blength h) (length (array h)) (length (array h)) (hash_nr x)) as [Hxz _];
    [done|left; split; [done|lia]|]. fold mk in Hxz. rewrite <-Hxz.
  destruct (decide (mk (hash_nr x) = b)) as [Hm|Hm].
  - left. rewrite Hm in Hin. destruct (table_head _ _ _ _ _ Ht b) as [Hl|[l Hl]];
      [rewrite Hl in Hin; mem|]. exists l. split; [done|].
    rewrite Hl, (find_slot_cons _ _ _ x) by done. fold (P x).
    destruct (P x); [done|]. rewrite Hm, Z.eqb_refl. cbn [andb negb].
    pose proof (co_seg _ _ _ _ (t_chain _ _ _ _ _ Ht b)) as Hs. rewrite Hl in Hs.
    pose proof (table_chain_length _ _ _ _ _ Ht b) as Hcl. rewrite Hl in Hcl. simpl in Hcl.
    destruct Hs as [(x' & Hx' & Hn) Hs]. assert (x' = x) as -> by congruence.
    rewrite Hn. destruct l as [|j l]; cbn [first_of]; [by rewrite Z.eqb_refl|].
    destruct (seg_lookup _ _ _ j Hs) as [y Hy]; [by left|]. apply lookup_lt_Some in Hy.
    rewrite (proj2 (Z.eqb_neq _ _)) by lia.
    rewrite (first_loop_chain h key _ l) by (done || simpl in Hcl; lia).
    cbn [mbind option_bind]. by destruct (find_slot _ _ _) as [[? ?]|].
  - right. split.
    { destruct (table_guest _ _ _ _ _ Ht b x) as [Hn _]; try done. }
    exists x. split_and!; try done. fold (P x).
    destruct (P x); [done|]. by rewrite (proj2 (Z.eqb_neq _ _)) by lia.
Qed.

(** The records of the slots [l] that satisfy a test. *)
Definition hits d (P : HASH_LINK → bool) l : list Rec :=
  omap (λ i, x ← d !! i; if P x then Some (data x) else None) l.

Lemma hits_all d P : hits d P (seq 0 (length d)) = data <$> List.filter P d.
Proof.
  unfold hits. induction d as [|x d IH] using rev_ind; [done|].
  rewrite length_app, seq_app, omap_app, List.filter_app, fmap_app, <-IH. f_equal.
  - apply omap_agree. intros i Hi%elem_of_seq. rewrite lookup_app_l by lia. done.
  - cbn. rewrite lookup_app_r, Nat.sub_diag by lia. cbn. by destruct (P x).
Qed.

Lemma hits_none d P l :
  (∀ i x, i ∈ l → d !! i = Some x → P x = false) → hits d P l = [].
Proof.
  unfold hits. induction l as [|i l IH]; intros Hn; [done|]. cbn.
  rewrite IH by (intros; eapply Hn; [by right|done]).
  destruct (d !! i) as [x|] eqn:Hx; [|done]. cbn. by rewrite (Hn i x) by (done || by left).
Qed.

(** The slots outside [l] hold no hit. *)
Lemma hits_part d P l :
  NoDup l → (∀ i, i ∈ l → (i < length d)%nat) →
  (∀ i x, i ∉ l → d !! i = Some x → P x = false) →
  hits d P l ≡ₚ data <$> List.filter P d.
Proof.
  intros Hnd Hlt Hn. rewrite <-hits_all.
  set (rest := filter (λ i, i ∉ l) (seq 0 (length d))).
  assert (Hp : seq 0 (length d) ≡ₚ l ++ rest).
  { apply NoDup_Permutation; [apply NoDup_seq| |].
    - apply list.NoDup_app. split_and!; [done| |apply list.NoDup_filter, NoDup_seq].
      intros i Hi. unfold rest. rewrite list_elem_of_filter. intuition.
    - intros i. unfold rest. rewrite elem_of_app, list_elem_of_filter, elem_of_seq.
      specialize (Hlt i). destruct (decide (i ∈ l)); intuition lia. }
  unfold hits. rewrite Hp, omap_app.
  assert (omap (λ i, x ← d !! i; if P x then Some (data x) else None) rest = []) as ->.
  { apply (hits_none d P). intros i x [Hi _]%list_elem_of_filter. by apply Hn. }
  by rewrite app_nil_r.
Qed.

Lemma find_slot_hits d P l :
  match find_slot d P l with
  | Some (i, x) => ∃ l1 l2, l = l1 ++ i :: l2 ∧ d !! i = Some x ∧ hits d P l = data x :: hits d P l2
  | None => hits d P l = []
  end.
Proof.
  destruct (find_slot d P l) as [[i x]|] eqn:Hf.
  - apply find_slot_Some in Hf as (l1 & l2 & -> & Hx & HP & Hn). exists l1, l2.
    split_and!; try done. unfold hits. rewrite omap_app. fold (hits d P l1).
    rewrite (hits_none d P l1) by (intros; by eapply find_slot_None). cbn. rewrite Hx. cbn.
    by rewrite HP.
  - apply hits_none. intros. by eapply find_slot_None.
Qed.

(** All records with a key: [my_hash_first], then [my_hash_next] until it
    returns none. *)
Fixpoint rest_records (fuel : nat) h (key : list Z) (len : nat) (state : Z) : option (list Rec) :=
  '(r, state') ← my_hash_next bytes_at my_strnncoll h key len state;
  match r, fuel with
  | None, _ => Some []
  | Some _, O => None
  | Some x, S fuel => rs ← rest_records fuel h key len state'; Some (x :: rs)
  end.

Definition all_records h (key : list Z) (len : nat) : option (list Rec) :=
  '(r, state) ← my_hash_first bytes_at hash_function my_strnncoll h key len;
  match r with
  | None => Some []
  | Some x => rs ← rest_records (length (array h)) h key len state; Some (x :: rs)
  end.

Lemma my_hash_next_chain h key len i l :
  Z.of_nat (length (array h)) ≤ NO_RECORD → (length l ≤ length (array h))%nat →
  seg (array h) (i :: l) NO_RECORD →
  my_hash_next bytes_at my_strnncoll h key len (slot i) =
  Some (match find_slot (array h)
                (λ x, hashcmp bytes_at my_strnncoll h x key (full_length h len)) l with
        | Some (j, x) => (Some (data x), slot j)
        | None => (None, NO_RECORD)
        end).
Proof.
  intros Hb Hl [(x & Hx & Hn) Hs]. unfold my_hash_next. pose proof (lookup_lt_Some _ _ _ Hx).
  rewrite (proj2 (Z.eqb_neq _ _)) by lia. rewrite rd_slot, Hx. cbn [mbind option_bind].
  rewrite Hn. by apply next_loop_chain.
Qed.

Lemma rest_records_chain h key len : ∀ fuel l i,
  Z.of_nat (length (array h)) ≤ NO_RECORD → (length l ≤ fuel)%nat →
  (length l ≤ length (array h))%nat → seg (array h) (i :: l) NO_RECORD →
  rest_records fuel h key len (slot i) =
  Some (hits (array h) (λ x, hashcmp bytes_at my_strnncoll h x key (full_length h len)) l).
Proof.
  induction fuel as [|fuel IH]; intros l i Hb Hf Hla Hs; cbn [rest_records];
    rewrite (my_hash_next_chain h key len i l) by done; cbn [mbind option_bind];
    (match goal with |- context [find_slot ?d ?P l] => pose proof (find_slot_hits d P l) as Hh;
       destruct (find_slot d P l) as [[j x]|] end); try (by rewrite Hh).
  - destruct Hh as (l1 & l2 & -> & _). rewrite length_app in Hf. simpl in Hf. lia.
  - destruct Hh as (l1 & l2 & -> & Hx & Hh). rewrite length_app in Hf, Hla. simpl in Hf, Hla.
    rewrite IH with (l := l2); try done; try lia; [cbn; by rewrite Hh|].
    change (i :: l1 ++ j :: l2) with ((i :: l1) ++ j :: l2) in Hs.
    by apply seg_app in Hs as [_ Hs].
Qed.

Lemma all_records_spec h key len :
  hash_ok h → Forall (hash_nr_ok h) (array h) →
  ∃ rs, all_records h key len = Some rs ∧
    my_hash_search bytes_at hash_function my_strnncoll h key len = Some (head rs) ∧
    rs ≡ₚ data <$> List.filter
      (λ x, hashcmp bytes_at my_strnncoll h x key (full_length h len)) (array h).
Proof.
  intros Hok Hkeys. unfold my_hash_search, all_records, my_hash_first.
  set (P := λ x, hashcmp bytes_at my_strnncoll h x key (full_length h len)).
  destruct (decide (records h = 0)) as [H0|H0].
  { exists []. unfold my_hash_first_from_hash_value. rewrite H0. cbn. split_and!; try done.
    destruct Hok as [_ Hr _ _]. destruct (array h); [done|]. simpl in Hr. lia. }
  pose proof Hok as [Hsz Hrec Hb [ch Ht]].
  set (hash := hash_function key (full_length h len)).
  assert (Hbk : ∀ x, x ∈ array h → P x = true → hash_nr x = hash).
  { intros x Hx HP. apply (hashcmp_hash h x key); [|done].
    by eapply list.Forall_forall in Hkeys. }
  destruct (first_from_chain h ch hash key len Ht Hok H0) as [(l & Hl & Hf)|(Hl & x & Hx & Hin & Hf)];
    rewrite Hf; cbn [mbind option_bind fmap option_fmap option_map fst]; fold P in Hf |- *.
  - set (b := bucket (blength h) (length (array h)) hash) in *.
    pose proof (t_chain _ _ _ _ _ Ht b) as [Hs Hnd _ _].
    exists (hits (array h) P (ch b)). split_and!; [| |].
    + pose proof (table_chain_length _ _ _ _ _ Ht b) as Hcl.
      pose proof (find_slot_hits (array h) P (ch b)) as Hh.
      destruct (find_slot (array h) P (ch b)) as [[i x]|]; cbn; [|by rewrite Hh].
      destruct Hh as (l1 & l2 & Hch & Hx & Hh). rewrite Hch in Hs, Hcl.
      rewrite length_app in Hcl. simpl in Hcl.
      rewrite (rest_records_chain h key len (length (array h)) l2 i); try done; try lia;
        [cbn; by rewrite Hh|]. by apply seg_app in Hs as [_ Hs].
    + pose proof (find_slot_hits (array h) P (ch b)) as Hh.
      destruct (find_slot (array h) P (ch b)) as [[i x]|]; cbn; [|by rewrite Hh].
      destruct Hh as (l1 & l2 & _ & _ & Hh). by rewrite Hh.
    + apply hits_part; [done|intros i Hi; by apply (table_lt _ _ _ _ _ Ht i b)|].
      intros i x Hi Hx. destruct (P x) eqn:HP; [|done]. destruct Hi.
      pose proof (Hbk x ltac:(by eapply list_elem_of_lookup_2) HP) as Hh.
      destruct (table_in _ _ _ _ _ Ht i) as (x' & Hx' & Hin);
        [by eapply lookup_lt_Some|done|]. simplify_eq. by rewrite Hh in Hin.
  - assert (Hno : ∀ i y, array h !! i = Some y → P y = false).
    { intros i y Hy. destruct (P y) eqn:HP; [|done].
      pose proof (Hbk y ltac:(by eapply list_elem_of_lookup_2) HP) as Hh.
      destruct (table_in _ _ _ _ _ Ht i) as (y' & Hy' & Hyin);
        [by eapply lookup_lt_Some|done|]. simplify_eq. rewrite Hh, Hl in Hyin. mem. }
    pose proof (Hno _ _ Hx) as HPx. unfold P in HPx. rewrite HPx. exists []. split_and!; try done.
    rewrite <-hits_all, hits_none; [done|]. intros i y _ Hy. by eapply Hno.
Qed.

(** C30. Searching with [my_hash_first] and [my_hash_next] finds exactly the records
    whose key matches, each as often as it is stored; [my_hash_search] returns
    the first of them, and none only when there is none. *)
Theorem all_records_correct h key len :
  hash_ok h → Forall (hash_nr_ok h) (array h) →
  ∃ rs, all_records h key len = Some rs ∧
    my_hash_search bytes_at hash_function my_strnncoll h key len = Some (head rs) ∧
    rs ≡ₚ data <$> List.filter
      (λ x, hashcmp bytes_at my_strnncoll h x key (full_length h len)) (array h).
Proof. apply all_records_spec. Qed.

(** ** Insertion *)

(** The lengths that [get_key] returns are not replaced by [key_length]: with
    [get_key] the table has [key_length == 0]. *)
Definition key_lengths h : Prop :=
  ∀ record, full_length h (my_hash_key bytes_at h record).2 = (my_hash_key bytes_at h record).2.

(** The key of [record] is the key of the stored record [x]. *)
Definition same_key h record x : bool :=
  hashcmp bytes_at my_strnncoll h x (my_hash_key bytes_at h record).1
    (my_hash_key bytes_at h record).2.

(** The duplicate check finds a record exactly when there is one with the key. *)
Lemma duplicate_spec h record :
  hash_ok h → Forall (hash_nr_ok h) (array h) → key_lengths h →
  ∃ r, my_hash_search_using_hash_value bytes_at my_strnncoll h
         (rec_hashnr bytes_at hash_function h record)
         (my_hash_key bytes_at h record).1 (my_hash_key bytes_at h record).2 = Some r ∧
    (is_Some r ↔ Exists (λ x, same_key h record x = true) (array h)).
Proof.
  intros Hok Hk Hl. unfold rec_hashnr, same_key. specialize (Hl record).
  destruct (my_hash_key bytes_at h record) as [key len] eqn:Hkey. simpl in *.
  destruct (all_records_spec h key len Hok Hk) as (rs & _ & Hs & Hp).
  unfold my_hash_search, my_hash_first in Hs. rewrite Hl in Hs, Hp.
  unfold my_hash_search_using_hash_value. exists (head rs). split; [done|].
  rewrite list.Exists_exists. split.
  - destruct rs as [|r rs]; [by intros [? ?]|]. intros _.
    assert (Hin : r ∈ data <$> List.filter (λ x, hashcmp bytes_at my_strnncoll h x key len) (array h)).
    { rewrite <-Hp. by left. }
    apply list_elem_of_fmap in Hin as (x & _ & Hx). apply list_elem_of_In, filter_In in Hx as [? ?].
    exists x. split; [by apply list_elem_of_In|done].
  - intros (x & Hx & HP). destruct rs as [|r rs]; [|by eexists].
    apply Permutation_nil_l in Hp. symmetry in Hp. apply fmap_nil_inv in Hp.
    assert (x ∈ @nil (@HASH_LINK Rec)) as Hin; [|mem]. rewrite <-Hp.
    apply list_elem_of_In, filter_In. split; [by apply list_elem_of_In|done].
Qed.

Lemma size_ok_grow B n d ch :
  size_ok B n → Z.of_nat (S n) ≤ NO_RECORD → table d (bucket B (S n)) (S n) None ch →
  let B' := if Z.of_nat n + 1 =? B then B + B else B in
  size_ok B' (S n) ∧ table d (bucket B' (S n)) (S n) None ch.
Proof.
  intros Hsz Hno Ht B'. destruct Hsz as [[-> ->]|(k & Hk & -> & Hn)].
  - split; [right; exists 0; unfold B'; split_and!; done|]. eapply table_remask; [exact Ht|].
    intros b i x Hi Hx. rewrite <-(table_mask _ _ _ _ _ Ht i x b Hx Hi). unfold bucket, B'.
    f_equal. simpl. apply (mask_double _ 0). lia.
  - unfold B'. destruct (Z.eqb_spec (Z.of_nat n + 1) (2 ^ (k + 1))) as [He|He].
    + assert (k + 1 ≤ 32).
      { destruct (Z.le_gt_cases (k + 1) 32); [done|].
        assert (2 ^ 33 ≤ 2 ^ (k + 1)) by (apply Z.pow_le_mono_r; lia).
        unfold NO_RECORD in Hno. lia. }
      assert (H2 : 2 ^ (k + 1) + 2 ^ (k + 1) = 2 ^ (k + 1 + 1)).
      { rewrite (Z.pow_add_r 2 (k + 1)) by lia. lia. }
      rewrite H2. split; [right; exists (k + 1); split_and!; [lia|lia|done|lia|]|].
      * rewrite <-H2. lia.
      * eapply table_remask; [exact Ht|]. intros b i x Hi Hx.
        rewrite <-(table_mask _ _ _ _ _ Ht i x b Hx Hi). unfold bucket. f_equal.
        replace (Z.of_nat (S n)) with (2 ^ (k + 1)) by lia. apply mask_double. lia.
    + split; [|done]. right. exists k. split_and!; try lia; done.
Qed.

Lemma hash_nr_items h h' :
  key_offset h' = key_offset h → key_length h' = key_length h → get_key h' = get_key h →
  Forall (hash_nr_ok h') (array h') ↔
  Forall (λ p, p.1 = rec_hashnr bytes_at hash_function h p.2) (items h').
Proof.
  intros H1 H2 H3. unfold items. rewrite list.Forall_fmap.
  apply Forall_iff. intros x. unfold hash_nr_ok, rec_hashnr, my_hash_key. simpl.
  by rewrite H1, H2, H3.
Qed.

Lemma contents_append d x :
  contents (d ++ [x]) (S (length d)) (Some (length d)) = contents d (length d) None.
Proof.
  unfold contents. rewrite slots_all.
  assert (slots (S (length d)) (Some (length d)) = seq 0 (length d)) as ->.
  { unfold slots. rewrite seq_S, list.filter_app, filter_cons_False by auto.
    rewrite filter_keep; [by rewrite app_nil_r|]. intros i Hi%elem_of_seq [=]. lia. }
  apply omap_agree. intros i Hi%elem_of_seq. unfold rec_at. by rewrite lookup_app_l by lia.
Qed.

(** The table as it is after [alloc_dynamic]: the new slot is free. *)
Lemma table_append d mk ch x :
  table d mk (length d) None ch →
  table (d ++ [x]) mk (S (length d)) (Some (length d)) ch.
Proof.
  intros Ht. split.
  - intros b. eapply chain_frame; [|apply Ht]. intros i Hi.
    destruct (table_lt _ _ _ _ _ Ht i b Hi). by rewrite lookup_app_l.
  - intros i. rewrite <-(t_cover _ _ _ _ _ Ht i).
    destruct (decide (i = length d)) as [->|]; intuition (lia || congruence).
Qed.

Lemma my_hash_insert_spec h mem record :
  hash_ok h → Forall (hash_nr_ok h) (array h) → key_lengths h →
  Z.of_nat (length (array h)) < NO_RECORD →
  ∃ failed h', my_hash_insert bytes_at hash_function my_strnncoll h mem record = Some (failed, h') ∧
    hash_ok h' ∧ Forall (hash_nr_ok h') (array h') ∧
    let unique := negb (Z.land (flags h) HASH_UNIQUE =? 0) in
    let duplicate := Exists (λ x, same_key h record x = true) (array h) in
    if (failed : bool) then h' = h ∧ (mem = None ∨ unique = true ∧ duplicate)
    else items h' ≡ₚ (rec_hashnr bytes_at hash_function h record, record) :: items h ∧
         mem ≠ None ∧ (unique = true → ¬ duplicate).
Proof.
  intros Hok Hk Hl Hno. destruct (duplicate_spec h record Hok Hk Hl) as (r & Hs & Hr).
  unfold my_hash_insert. unfold rec_hashnr in *.
  destruct (my_hash_key bytes_at h record) as [key len] eqn:Hkey. simpl in Hs.
  set (unique := Z.land (flags h) HASH_UNIQUE =? 0).
  assert (∃ dup, (if unique then Some None else my_hash_search_using_hash_value bytes_at my_strnncoll
     h (hash_function key len) key len) = Some dup ∧ (unique = false → dup = r) ∧
     (unique = true → dup = None)) as (dup & -> & Hd1 & Hd2).
  { destruct unique; [by exists None|]. by exists r. }
  cbn [mbind option_bind]. destruct dup as [x|]; [|destruct mem as [garbage|]].
  - exists true, h. split_and!; try done. right.
    destruct unique; [by specialize (Hd2 eq_refl)|]. split; [done|].
    apply Hr. rewrite <-Hd1 by done. by eexists.
  - destruct Hok as [Hsz Hrec Hb [ch Ht]].
    pose proof (table_append _ _ _ garbage Ht) as Ht1.
    pose proof (contents_append (array h) garbage) as Hc1.
    set (n := length (array h)) in *. rewrite Hrec.
    destruct (split_bucket_spec (blength h) n (array h ++ [garbage]) ch record)
      as (d1 & e & ch1 & -> & He & Hl1 & Ht2 & Hc2); try done; [rewrite length_app; simpl; lia|lia|].
    cbn [mbind option_bind].
    destruct (place_spec (blength h) n d1 ch1 e (hash_function key len) record)
      as (d2 & ch2 & -> & Hl2 & Ht3 & Hc3); try done; [lia|].
    cbn [mbind option_bind]. eexists false, _. split; [done|].
    destruct (size_ok_grow (blength h) n d2 ch2) as [Hsz' Ht']; [done|lia|done|].
    assert (Hitems : (λ x, (hash_nr x, data x)) <$> d2 ≡ₚ
      (hash_function key len, record) :: items h).
    { rewrite <-contents_items, Hl2, Hc3, Hc2, Hc1. unfold items. by rewrite <-contents_items. }
    split_and!.
    + split; cbn [blength records array set_table]; rewrite ?Hl2; [done|lia|lia|by exists ch2].
    + rewrite hash_nr_items with (h := h) by done. unfold items. cbn [array set_table].
      rewrite Hitems. constructor; [simpl; unfold rec_hashnr; by rewrite Hkey|].
      by apply hash_nr_items.
    + done.
    + done.
    + intros Hu Hdup. destruct unique; [done|]. apply Hr in Hdup. rewrite <-Hd1 in Hdup by done. by destruct Hdup.
  - exists true, h. split_and!; try done. by left.
Qed.

(** C3. [my_hash_insert] refuses the record, and then leaves the table alone, only
    when there is no memory or when the table is unique and has a record with
    the same key; otherwise it adds exactly this record.  It stays inside the
    array and keeps the invariant. *)
Theorem my_hash_insert_correct h mem record :
  hash_ok h → Forall (hash_nr_ok h) (array h) → key_lengths h →
  Z.of_nat (length (array h)) < NO_RECORD →
  ∃ failed h', my_hash_insert bytes_at hash_function my_strnncoll h mem record = Some (failed, h') ∧
    hash_ok h' ∧ Forall (hash_nr_ok h') (array h') ∧
    let unique := negb (Z.land (flags h) HASH_UNIQUE =? 0) in
    let duplicate := Exists (λ x, same_key h record x = true) (array h) in
    if (failed : bool) then h' = h ∧ (mem = None ∨ unique = true ∧ duplicate)
    else items h' ≡ₚ (rec_hashnr bytes_at hash_function h record, record) :: items h ∧
         mem ≠ None ∧ (unique = true → ¬ duplicate).
Proof. apply my_hash_insert_spec. Qed.

End Keys.
End Ops.
