(* ===== verification/HashDelete.v ===== *)
(** * Deletion and update in the hash table *)

From stdpp Require Import sets functions.
From S2P Require Import Prelude Hash HashFacts HashSplit HashOps.
Local Open Scope Z_scope.

Section Delete.
Context {Rec : Type} `{!EqDecision Rec}.
Implicit Types (d : list (@HASH_LINK Rec)) (x : @HASH_LINK Rec) (h : @HASH Rec)
  (i j b e f : nat) (l : list nat) (record : Rec).

Abbreviation slot i := (Z.of_nat i).

(** ** Finding the record *)

Definition prev_or l (gpos : option Z) : option Z :=
  match list.last l with Some q => Some (slot q) | None => gpos end.

Lemma find_record_chain d record l : ∀ fuel i gpos,
  Z.of_nat (length d) ≤ NO_RECORD → (length l < fuel)%nat → seg d (i :: l) NO_RECORD →
  (∃ l1 p l2 x, i :: l = l1 ++ p :: l2 ∧ d !! p = Some x ∧ data x = record ∧
     find_record fuel d record (slot i) gpos = Some (Some (slot p, prev_or l1 gpos))) ∨
  (find_record fuel d record (slot i) gpos = Some None ∧
   ∀ j x, j ∈ i :: l → d !! j = Some x → data x ≠ record).
Proof.
  induction l as [|i' l IH]; intros fuel i gpos Hb Hf Hs; (destruct fuel as [|fuel]; [simpl in Hf; lia|]);
    destruct Hs as [(x & Hx & Hn) Hs]; cbn [find_record]; rewrite rd_slot, Hx;
    cbn [mbind option_bind]; (destruct (decide (data x = record)) as [Hd|Hd];
      [left; by eexists [], i, _, x|]); rewrite Hn; cbn [first_of].
  - rewrite Z.eqb_refl. right. split; [done|]. intros j y Hj Hy. mem.
  - destruct (seg_lookup _ _ _ i' Hs) as [y Hy]; [by left|]. pose proof (lookup_lt_Some _ _ _ Hy).
    rewrite (proj2 (Z.eqb_neq _ _)) by lia.
    destruct (IH fuel i' (Some (slot i))) as [(l1 & p & l2 & z & Heq & Hz & Hr & Hg)|[Hg Hno]];
      try done; [simpl in Hf; lia| |]; rewrite Hg.
    + left. exists (i :: l1), p, l2, z. rewrite Heq. split_and!; try done.
      do 3 f_equal. unfold prev_or. rewrite list.last_cons. by destruct (list.last l1).
    + right. split; [done|]. intros j z [->|Hj]%elem_of_cons Hz; [congruence|by eapply Hno].
Qed.

(** The walk for [record], all of whose copies are in bucket [b]. *)
Lemma locate d mk ch b record :
  table d mk (length d) None ch → Z.of_nat (length d) ≤ NO_RECORD → (b < length d)%nat →
  (∀ j x, d !! j = Some x → data x = record → mk (hash_nr x) = b) →
  (∃ l1 p l2 x, ch b = l1 ++ p :: l2 ∧ d !! p = Some x ∧ data x = record ∧
     find_record (length d) d record (slot b) None = Some (Some (slot p, prev_of l1))) ∨
  (find_record (length d) d record (slot b) None = Some None ∧
   ∀ j x, d !! j = Some x → data x ≠ record).
Proof.
  intros Ht Hno Hb Hrec. destruct (table_in _ _ _ _ _ Ht b) as (x & Hx & Hin); [done|done|].
  pose proof (t_chain _ _ _ _ _ Ht (mk (hash_nr x))) as [Hs _ _ _].
  pose proof (table_chain_length _ _ _ _ _ Ht (mk (hash_nr x))) as Hcl.
  destruct (decide (mk (hash_nr x) = b)) as [Hm|Hm].
  - rewrite Hm in *. destruct (table_head _ _ _ _ _ Ht b) as [Hl|[l Hl]]; [rewrite Hl in Hin; mem|].
    rewrite Hl in Hs, Hcl. simpl in Hcl.
    destruct (find_record_chain d record l (length d) b None)
      as [(l1 & p & l2 & y & Heq & Hy & Hr & Hg)|[Hg Hn]]; [done|lia|done| |].
    + left. exists l1, p, l2, y. by rewrite Hl, Heq.
    + right. split; [done|]. intros j y Hy Hr. destruct (table_in _ _ _ _ _ Ht j) as (y' & Hy' & Hj);
        [by eapply lookup_lt_Some|done|]. assert (y' = y) as -> by congruence.
      rewrite (Hrec j y Hy Hr), Hl in Hj. by eapply Hn.
  - right. destruct (table_guest _ _ _ _ _ Ht b x) as (Hnil & l1 & q & l2 & Hl); try done.
    assert (Hnone : ∀ j y, d !! j = Some y → data y ≠ record).
    { intros j y Hy Hr. destruct (table_in _ _ _ _ _ Ht j) as (y' & Hy' & Hj);
        [by eapply lookup_lt_Some|done|]. assert (y' = y) as -> by congruence.
      rewrite (Hrec j y Hy Hr), Hnil in Hj. mem. }
    split; [|done]. rewrite Hl in Hs, Hcl. apply seg_app in Hs as [_ Hs].
    rewrite !length_app in Hcl. simpl in Hcl.
    destruct (find_record_chain d record l2 (length d) b None)
      as [(l3 & p & l4 & y & _ & Hy & Hr & _)|[Hg _]]; [done|lia|done| |done].
    by destruct (Hnone p y Hy).
Qed.

(** ** Moving the last record *)

(** The buckets of a table that shrinks to [n] buckets: bucket [n] is merged
    into bucket [f]. *)
Lemma size_ok_shrink B n :
  size_ok B (S n) →
  let B' := if Z.of_nat (S n) - 1 <? Z.shiftr B 1 then Z.shiftr B 1 else B in
  size_ok B' n ∧
  ((0 < n)%nat → ∃ f, (f < n)%nat ∧ ∀ hash,
     slot (bucket B (S n) hash) = my_hash_mask hash B (Z.of_nat (S n)) ∧
     slot (bucket B' n hash) = my_hash_mask hash B' (Z.of_nat (S n) - 1) ∧
     (bucket B' n hash < n)%nat ∧
     bucket B' n hash = if decide (bucket B (S n) hash = n) then f else bucket B (S n) hash).
Proof.
  intros [[_ ?]|(k & Hk & -> & Hn)] B'; [done|].
  assert (Hhalf : Z.shiftr (2 ^ (k + 1)) 1 = 2 ^ k).
  { rewrite Z.shiftr_div_pow2, Z.pow_add_r by lia. by rewrite Z.div_mul. }
  assert (0 < 2 ^ k) by (apply Z.pow_pos_nonneg; lia).
  assert (Hk' : n = 0%nat ∧ B' = 1 ∨ ∃ k', 0 ≤ k' < 60 ∧ B' = 2 ^ (k' + 1) ∧
     2 ^ k' ≤ Z.of_nat n < 2 ^ (k' + 1) ∧
     ∀ hash, my_hash_mask hash (2 ^ (k + 1)) (Z.of_nat (S n)) = my_hash_mask hash B' (Z.of_nat (S n))).
  { unfold B'. rewrite Hhalf. destruct (Z.ltb_spec (Z.of_nat (S n) - 1) (2 ^ k)).
    - assert (Z.of_nat (S n) = 2 ^ k) as He by lia. destruct (decide (k = 0)) as [->|Hk0].
      + left. change (2 ^ 0) with 1 in *. lia.
      + right. exists (k - 1). replace (k - 1 + 1) with k by lia.
        assert (2 ^ k = 2 * 2 ^ (k - 1)) by (rewrite <-Z.pow_succ_r by lia; f_equal; lia).
        split_and!; try lia. intros hash. rewrite He. apply mask_double. lia.
    - right. exists k. split_and!; try lia; done. }
  destruct Hk' as [[-> HB]|(k' & Hk' & HB & Hn' & Hm)]; rewrite HB.
  - split; [by left|lia].
  - split; [right; by exists k'|]. intros H0. set (f := Z.to_nat (Z.of_nat n - 2 ^ k')).
    assert (0 < 2 ^ k') by (apply Z.pow_pos_nonneg; lia).
    assert (2 ^ (k' + 1) = 2 * 2 ^ k') by (rewrite <-Z.pow_succ_r by lia; f_equal; lia).
    exists f. split; [lia|]. intros hash. rewrite (bucket_mask k) by done.
    assert (Hb : bucket (2 ^ (k + 1)) (S n) hash = bucket (2 ^ (k' + 1)) (S n) hash).
    { unfold bucket. by rewrite Hm, HB. }
    pose proof (bucket_mask k' n hash Hk') as Hbn. pose proof (mask_bound hash k' (Z.of_nat n)).
    split_and!; [done|rewrite Hbn; f_equal; lia|lia|].
    rewrite Hb, (bucket_split k' n f) by (done || lia).
    destruct (decide (bucket (2 ^ (k' + 1)) n hash = f ∧ Z.land hash (2 ^ k') ≠ 0)) as [[? ?]|Hd].
    + by rewrite decide_True.
    + rewrite decide_False; [done|lia].
Qed.

(** [movelink] at the end of the segment from [e], then [f] in front of it. *)
Lemma splice D e A z B f x fuel :
  seg D (e :: A) z → seg D B NO_RECORD → D !! f = Some x →
  NoDup (f :: e :: A ++ B) → (∀ j, z = slot j → j ∉ e :: A) → (length A < fuel)%nat →
  ∃ d2, movelink fuel D z (slot e) (first_of B NO_RECORD) = Some d2 ∧ d2 !! f = Some x ∧
    length d2 = length D ∧
    seg (<[f:=set_next x (slot e)]> d2) (f :: e :: A ++ B) NO_RECORD ∧
    (∀ j, rec_at (<[f:=set_next x (slot e)]> d2) j = rec_at D j) ∧
    (∀ i, i ≠ f → i ∉ e :: A → <[f:=set_next x (slot e)]> d2 !! i = D !! i).
Proof.
  intros Hs HB Hx Hn Hz Hf.
  destruct (exists_last (l := e :: A)) as (l & p & Hl); [done|].
  destruct (seg_lookup _ _ _ p Hs) as [y Hy]; [rewrite Hl; mem|].
  apply list.NoDup_cons in Hn as [HfN Hn]. change (e :: A ++ B) with ((e :: A) ++ B) in *.
  apply list.NoDup_app in Hn as (HnA & HdA & HnB).
  assert (Hpin : p ∈ e :: A) by (rewrite Hl; mem).
  assert (Hpf : f ≠ p) by (intros ->; apply HfN; mem).
  assert (HpB : p ∉ B) by (by apply HdA).
  assert (HfA : f ∉ e :: A) by mem.
  assert (HfB : f ∉ B) by mem.
  set (d2 := <[p:=set_next y (first_of B NO_RECORD)]> D).
  assert (H2f : d2 !! f = Some x) by (unfold d2; by rewrite list_lookup_insert_ne).
  assert (Hpl : p ∉ l).
  { rewrite Hl in HnA. apply list.NoDup_app in HnA as (_ & Hd & _). intros Hin.
    apply (Hd p Hin). mem. }
  exists d2. split_and!; try done.
  - assert (slot e = first_of (e :: A) z) as -> by done. rewrite Hl in *.
    apply movelink_spec with (l := l); try done.
    apply (f_equal length) in Hl. rewrite length_app in Hl. simpl in Hl. lia.
  - unfold d2. by rewrite length_insert.
  - cbn [seg]. split.
    { exists (set_next x (slot e)). split; [|done]. apply list_lookup_insert_eq.
      by eapply lookup_lt_Some. }
    apply seg_insert; [mem|]. rewrite Hl. apply seg_app. split.
    + unfold d2. rewrite Hl in Hs. by apply (seg_relink D l p z).
    + by apply seg_insert.
  - intros j. rewrite rec_at_relink by done. unfold d2. by apply rec_at_relink.
  - intros i Hif Hi. rewrite list_lookup_insert_ne by done. unfold d2.
    rewrite list_lookup_insert_ne; [done|]. by intros <-.
Qed.

Section Last.
(** A table of [n + 1] buckets with the free slot [e]; [mk'] merges bucket [n]
    into bucket [f]. *)
Context (d : list (@HASH_LINK Rec)) (mk mk' : Z → nat) (n e f : nat) (ch : nat → list nat).
Hypothesis Hlen : length d = S n.
Hypothesis Hno : Z.of_nat (S n) ≤ NO_RECORD.
Hypothesis He : (e < S n)%nat.
Hypothesis Hf : (f < n)%nat.
Hypothesis Ht : table d mk (S n) (Some e) ch.
Hypothesis Hmk : ∀ hash, mk' hash = if decide (mk hash = n) then f else mk hash.

(** The table after the move, with the last slot free. *)
Definition moved d' : Prop :=
  length d' = S n ∧ (∃ ch', table d' mk' (S n) (Some n) ch') ∧
  contents d' (S n) (Some n) ≡ₚ contents d (S n) (Some e).

Lemma mk_other hash : mk hash ≠ n → mk' hash = mk hash.
Proof. intros Hm. rewrite Hmk. by rewrite decide_False. Qed.
Lemma mk_last hash : mk hash = n → mk' hash = f.
Proof. intros Hm. rewrite Hmk. by rewrite decide_True. Qed.

Lemma last_free : e = n → moved d.
Proof.
  intros Heq. pose proof Ht as Ht1. unfold moved. rewrite Heq in Ht1 |- *.
  split_and!; [done| |done]. exists ch. apply (table_remask _ mk _ _ _ _ Ht1).
  intros b i x Hi Hx. pose proof (table_mask _ _ _ _ _ Ht1 i x b Hx Hi) as Hm.
  rewrite mk_other; [done|]. rewrite Hm. intros ->.
  rewrite (table_hole _ _ _ _ _ Ht1 n eq_refl) in Hi. mem.
Qed.

(** The last slot holds a record of another bucket, which keeps its bucket. *)
Lemma last_guest x :
  e ≠ n → d !! n = Some x → mk (hash_nr x) ≠ n →
  ∃ d', movelink (length d) (<[e:=x]> d) (slot n) (slot (mk (hash_nr x))) (slot e) = Some d' ∧
    moved d'.
Proof.
  intros Hen Hx Hm.
  destruct (table_guest _ _ _ _ _ Ht n x) as [Hnil _]; try done; [lia|congruence|].
  destruct (table_move d mk (S n) ch e n x x) as (d' & lg & Hmv & Ht' & _ & Hl' & Hc' & _);
    try done; [lia|lia|].
  rewrite (list_insert_id (<[e:=x]> d) n x) in Hmv by (by rewrite list_lookup_insert_ne).
  exists d'. split; [done|]. split_and!; [lia| |done]. eexists.
  apply (table_remask _ mk _ _ _ _ Ht'). intros b i y Hi Hy.
  pose proof (table_mask _ _ _ _ _ Ht' i y b Hy Hi) as Hmy. rewrite mk_other; [done|].
  rewrite Hmy. intros ->. rewrite fn_lookup_insert_ne in Hi by done. rewrite Hnil in Hi. mem.
Qed.

(** The last bucket moves to the slot of bucket [f] when that one is free. *)
Lemma last_to_free x t d0 ch0 :
  length d0 = S n → table d0 mk (S n) (Some f) ch0 → d0 !! n = Some x → ch0 n = n :: t →
  (∃ ch', table (<[f:=x]> d0) mk' (S n) (Some n) ch') ∧
  contents (<[f:=x]> d0) (S n) (Some n) ≡ₚ contents d0 (S n) (Some f).
Proof.
  intros Hl0 Ht0 Hx Hch. assert (Hnf : ch0 f = []) by (by apply (table_hole _ _ _ _ _ Ht0)).
  destruct (t_chain _ _ _ _ _ Ht0 n) as [Hs Hnd _ Hm]. rewrite Hch in Hs, Hnd, Hm.
  destruct Hs as [(x' & Hx' & Hnx) Hs]. assert (x' = x) as -> by congruence.
  apply list.NoDup_cons in Hnd as [Hnt Hnd].
  assert (Hft : f ∉ t).
  { intros Hi. destruct (table_lt _ _ _ _ _ Ht0 f n); [rewrite Hch; mem|done]. }
  assert (Hfl : (f < length d0)%nat) by lia.
  split.
  - exists (<[f:=(f :: t)]> (<[n:=[]]> ch0)). apply (table_upd2 _ _ _ _ _ Ht0); [lia| | | |apply chain_nil|].
    + intros a i Ha1 Ha2 Hi. apply list_lookup_insert_ne. intros <-.
      by destruct (table_lt _ _ _ _ _ Ht0 f a).
    + intros a i y Ha1 Ha2 Hi Hy. pose proof (table_mask _ _ _ _ _ Ht0 i y a Hy Hi) as Hmy.
      rewrite mk_other; congruence.
    + split; [|by constructor|done|].
      * split; [exists x; split; [by apply list_lookup_insert_eq|done]|]. by apply seg_insert.
      * intros i [->|Hi]%elem_of_cons.
        -- exists x. split; [by apply list_lookup_insert_eq|]. apply mk_last.
           apply (table_mask _ _ _ _ _ Ht0 n); [done|rewrite Hch; mem].
        -- destruct (Hm i) as (y & Hy & Hmy); [mem|]. exists y.
           rewrite list_lookup_insert_ne by (by intros ->). split; [done|]. by apply mk_last.
    + intros i. rewrite Hnf, Hch, !elem_of_cons, elem_of_nil.
      assert (Hlt : i ∈ t → (i < S n)%nat ∧ Some f ≠ Some i).
      { intros Hi. apply (table_lt _ _ _ _ _ Ht0 i n). rewrite Hch. mem. }
      destruct (decide (i ∈ t)), (decide (i = n)), (decide (i = f)); subst;
        intuition (lia || congruence).
  - apply contents_move; try lia.
    + rewrite rec_at_insert by done. unfold rec_at. by rewrite Hx.
    + unfold rec_at. rewrite Hx. by eexists.
    + intros i ? ?. by apply rec_at_insert_ne.
Qed.

(** The entries of the buckets [n] and [f], which are merged. *)
Lemma merge_in A B i :
  (∀ i, i ∈ n :: f :: A ++ B ↔ i ∈ ch n ∨ i ∈ ch f) → i ∈ n :: f :: A ++ B →
  (i < S n)%nat ∧ i ≠ e ∧ ∃ w, d !! i = Some w ∧ (mk (hash_nr w) = n ∨ mk (hash_nr w) = f).
Proof.
  intros Hmem Hi. apply Hmem in Hi as [Hi|Hi];
    destruct (table_lt _ _ _ _ _ Ht _ _ Hi) as [? Hie];
    destruct (co_mask _ _ _ _ (t_chain _ _ _ _ _ Ht _) _ Hi) as (w & Hw & Hmw);
    (split_and!; [done|congruence|exists w; auto]).
Qed.

(** The used entries after the merge. *)
Lemma merge_members A B i :
  e ≠ n → NoDup (n :: f :: A ++ B) → (∀ i, i ∈ n :: f :: A ++ B ↔ i ∈ ch n ∨ i ∈ ch f) →
  (i < S n)%nat ∧ Some n ≠ Some i
  ↔ i ∈ f :: e :: A ++ B ∨ i ∈ [] ∨ (i < S n)%nat ∧ Some e ≠ Some i ∧ i ∉ ch f ∧ i ∉ ch n.
Proof.
  intros Hen [HnN _]%list.NoDup_cons Hmem. rewrite elem_of_nil, !elem_of_cons. split.
  - intros [Hi Hne]. destruct (decide (i = e)) as [->|]; [auto|].
    destruct (decide (i ∈ n :: f :: A ++ B)) as [Hd|Hd].
    + apply elem_of_cons in Hd as [->|Hd]; [done|]. apply elem_of_cons in Hd. tauto.
    + rewrite Hmem in Hd. right; right. split_and!; [done|congruence|tauto|tauto].
  - intros [[->|[->|Hi]]|[[]|(Hi & _ & Hnf & Hni)]].
    + split; [lia|]. intros [=]. lia.
    + split; [done|]. congruence.
    + destruct (merge_in A B i Hmem) as (? & _); [mem|]. split; [done|]. intros [= Hii]. subst i. mem.
    + split; [done|]. intros [= Hii]. subst i.
      assert (n ∈ ch n ∨ n ∈ ch f) as [?|?] by (apply Hmem; mem); done.
Qed.

Lemma merge_table x A B d3 :
  d !! n = Some x → e ≠ n → mk' (hash_nr x) = f → NoDup (n :: f :: A ++ B) →
  (∀ i, i ∈ n :: f :: A ++ B ↔ i ∈ ch n ∨ i ∈ ch f) →
  seg d3 (f :: e :: A ++ B) NO_RECORD →
  (∀ j, rec_at d3 j = if decide (j = e) then rec_at d n else rec_at d j) →
  (∀ i, i ≠ e → i ∉ f :: A → d3 !! i = d !! i) →
  table d3 mk' (S n) (Some n) (<[f:=(f :: e :: A ++ B)]> (<[n:=[]]> ch)).
Proof.
  intros Hx Hen Hmx Hnd Hmem Hs HR HF.
  assert (HeAB : e ∉ n :: f :: A ++ B) by (intros Hi; by destruct (merge_in A B e Hmem Hi) as (_ & ? & _)).
  apply (table_upd2 _ _ _ _ _ Ht); [lia| | | |apply chain_nil|intros i; by apply merge_members].
  - intros a i Ha1 Ha2 Hi. assert (i ∉ n :: f :: A ++ B) as Hni.
    { rewrite Hmem. intros [?|?]; [destruct Ha2|destruct Ha1]; by eapply table_disjoint. }
    assert (i ≠ e) by (intros ->; by destruct (table_lt _ _ _ _ _ Ht e a)). apply HF; [done|mem].
  - intros a i w Ha1 Ha2 Hi Hw. pose proof (table_mask _ _ _ _ _ Ht i w a Hw Hi) as Hmw.
    rewrite mk_other; congruence.
  - apply list.NoDup_cons in Hnd as [HnN [HfN Hnd]%list.NoDup_cons].
    split; [done|constructor; [mem|constructor; [mem|done]]|done|].
    intros i Hi. destruct (decide (i = e)) as [->|Hie].
    + apply (mask_rec_at d _ _ _ n); [by rewrite HR, decide_True|by exists x].
    + destruct (merge_in A B i Hmem) as (_ & _ & w & Hw & Hmw); [mem|].
      apply (mask_rec_at d _ _ _ i); [by rewrite HR, decide_False|].
      exists w. split; [done|]. destruct Hmw as [Hmw|Hmw]; [by apply mk_last|].
      rewrite mk_other; [done|lia].
Qed.

(** The last bucket is linked behind the record in the slot of bucket [f]:
    [A] follows it there and [B] are the other records of bucket [f]. *)
Lemma last_merge x y z A B :
  d !! n = Some x → e ≠ n → e ≠ f → d !! f = Some y →
  mk' (hash_nr x) = f → mk' (hash_nr y) = f → next x = first_of A z →
  seg d A z → seg d B NO_RECORD → NoDup (n :: f :: A ++ B) →
  (∀ j, z = slot j → j = f ∨ (S n ≤ j)%nat) →
  (∀ i, i ∈ n :: f :: A ++ B ↔ i ∈ ch n ∨ i ∈ ch f) →
  ∃ d2, movelink (length d) (<[e:=x]> d) z (slot e) (first_of B NO_RECORD) = Some d2 ∧
    d2 !! f = Some y ∧ moved (<[f:=set_next y (slot e)]> d2).
Proof.
  intros Hx Hen Hef Hy Hmx Hmy Hnx HsA HsB HND Hz Hmem.
  pose proof (λ i, merge_in A B i Hmem) as Hin.
  assert (HeAB : e ∉ n :: f :: A ++ B) by (intros Hi; by destruct (Hin e Hi) as (_ & ? & _)).
  pose proof HND as [HnN [HfN Hnd]%list.NoDup_cons]%list.NoDup_cons.
  set (D := <[e:=x]> d).
  assert (HDe : D !! e = Some x) by (apply list_lookup_insert_eq; lia).
  assert (HD : ∀ i, i ≠ e → D !! i = d !! i) by (intros; by apply list_lookup_insert_ne).
  destruct (splice D e A z B f y (length d)) as (d2 & Hmv & Hf2 & Hl2 & Hs2 & HR2 & HF2).
  - split; [by exists x|]. eapply seg_frame; [|exact HsA]. intros i Hi. apply HD. mem.
  - eapply seg_frame; [|exact HsB]. intros i Hi. apply HD. mem.
  - by rewrite HD.
  - constructor; [mem|]. constructor; [mem|done].
  - intros j [->|Hjn]%Hz Hj; [mem|]. apply elem_of_cons in Hj as [->|Hj]; [lia|].
    destruct (Hin j); [mem|lia].
  - assert (length A ≤ length (seq 0 n))%nat as Hla; [|rewrite length_seq in Hla; lia].
    apply submseteq_length, NoDup_submseteq; [by apply list.NoDup_app in Hnd as (? & _)|].
    intros i Hi. apply elem_of_seq. destruct (Hin i) as (? & _); [mem|].
    assert (i ≠ n) by mem. lia.
  - exists d2. split_and!; try done. set (d3 := <[f:=set_next y (slot e)]> d2) in *.
    assert (HR : ∀ j, rec_at d3 j = if decide (j = e) then rec_at d n else rec_at d j).
    { intros j. rewrite HR2. unfold rec_at. destruct (decide (j = e)) as [->|];
        [by rewrite HDe, Hx|by rewrite HD]. }
    unfold moved. split_and!.
    + unfold d3. rewrite length_insert, Hl2. unfold D. by rewrite length_insert.
    + exists (<[f:=(f :: e :: A ++ B)]> (<[n:=[]]> ch)). apply (merge_table x); try done.
      intros i Hie Hi. rewrite HF2 by mem. by apply HD.
    + apply contents_move; try (done || lia).
      * by rewrite HR, decide_True.
      * unfold rec_at. rewrite Hx. by eexists.
      * intros i ? ?. by rewrite HR, decide_False.
Qed.

Lemma last_merge_same x y :
  d !! n = Some x → e ≠ n → e ≠ f → d !! f = Some y →
  mk (hash_nr x) = n → mk (hash_nr y) = n →
  ∃ d2, movelink (length d) (<[e:=x]> d) (slot f) (slot e) (next y) = Some d2 ∧
    d2 !! f = Some y ∧ moved (<[f:=set_next y (slot e)]> d2).
Proof.
  intros Hx Hen Hef Hy Hmx Hmy.
  destruct (table_host _ _ _ _ _ Ht n x) as [t Hcn]; [lia|congruence|done|done|].
  destruct (table_guest _ _ _ _ _ Ht f y) as (Hcf & l1 & q & l2 & Hl); [lia|congruence|done|lia|].
  rewrite Hmy in Hl. destruct (t_chain _ _ _ _ _ Ht n) as [Hs Hnd _ _].
  assert (∃ A, ch n = n :: A ++ f :: l2) as [A HA].
  { rewrite Hl in Hcn |- *. destruct (l1 ++ [q]) as [|a A] eqn:Hq; [by destruct l1|].
    exists A. injection Hcn as -> _. done. }
  rewrite HA in Hs, Hnd. destruct Hs as [(x' & Hx' & Hnx) Hs]. assert (x' = x) as -> by congruence.
  apply seg_app in Hs as [HsA [(y' & Hy' & Hny) HsB]]. assert (y' = y) as -> by congruence.
  rewrite Hny. apply (last_merge x y (slot f) A l2); try done.
  - by apply mk_last.
  - by apply mk_last.
  - by destruct A.
  - assert (n :: f :: A ++ l2 ≡ₚ n :: A ++ f :: l2) as -> by solve_Permutation. done.
  - intros j Hj. left. lia.
  - intros i. rewrite HA, Hcf. assert (n :: f :: A ++ l2 ≡ₚ n :: A ++ f :: l2) as -> by solve_Permutation.
    rewrite elem_of_nil. tauto.
Qed.

(** The last bucket and bucket [f], with the record in slot [f] its own. *)
Lemma last_merge_two x y :
  d !! n = Some x → e ≠ n → e ≠ f → d !! f = Some y →
  mk (hash_nr x) = n → mk (hash_nr y) = f →
  ∃ d2, movelink (length d) (<[e:=x]> d) NO_RECORD (slot e) (next y) = Some d2 ∧
    d2 !! f = Some y ∧ moved (<[f:=set_next y (slot e)]> d2).
Proof.
  intros Hx Hen Hef Hy Hmx Hmy.
  destruct (table_host _ _ _ _ _ Ht n x) as [A Hcn]; [lia|congruence|done|done|].
  destruct (table_host _ _ _ _ _ Ht f y) as [B Hcf]; [lia|congruence|done|done|].
  destruct (t_chain _ _ _ _ _ Ht n) as [HsA HnA _ _].
  destruct (t_chain _ _ _ _ _ Ht f) as [HsB HnB _ _].
  assert (Hdis : ∀ i, i ∈ ch n → i ∈ ch f → False).
  { intros i Hi1 Hi2. pose proof (table_disjoint _ _ _ _ _ Ht i n f Hi1 Hi2). lia. }
  assert (Hp : n :: f :: A ++ B ≡ₚ ch n ++ ch f) by (rewrite Hcn, Hcf; solve_Permutation).
  rewrite Hcn in HsA. rewrite Hcf in HsB.
  destruct HsA as [(x' & Hx' & Hnx) HsA]. assert (x' = x) as -> by congruence.
  destruct HsB as [(y' & Hy' & Hny) HsB]. assert (y' = y) as -> by congruence.
  rewrite Hny. apply (last_merge x y NO_RECORD A B); try done.
  - by apply mk_last.
  - rewrite mk_other; lia.
  - rewrite Hp. apply list.NoDup_app. split_and!; [done| |done]. intros i ? ?. by eapply Hdis.
  - intros j Hj. right. lia.
  - intros i. rewrite Hp. apply elem_of_app.
Qed.

(** The slot of the bucket that the record in the last slot belongs to. *)
Lemma last_home x :
  d !! n = Some x → e ≠ n → mk (hash_nr x) ≠ n →
  mk (hash_nr x) ≠ e ∧ ∃ y, d !! mk (hash_nr x) = Some y ∧ mk (hash_nr y) = mk (hash_nr x).
Proof.
  intros Hx Hen Hm. set (p := mk (hash_nr x)) in *.
  assert (Hin : n ∈ ch p).
  { destruct (table_in _ _ _ _ _ Ht n) as (x' & Hx' & Hin); [lia|congruence|].
    assert (x' = x) as -> by congruence. done. }
  destruct (table_head _ _ _ _ _ Ht p) as [Hl|[l Hl]]; [rewrite Hl in Hin; mem|].
  assert (Hp : p ∈ ch p) by (rewrite Hl; mem). destruct (table_lt _ _ _ _ _ Ht p p Hp) as [_ Hpe].
  destruct (co_mask _ _ _ _ (t_chain _ _ _ _ _ Ht p) p Hp) as (y & Hy & Hmy).
  split; [congruence|by exists y].
Qed.

(** The last bucket moves to its new slot, from where another record is moved
    to the free slot if there is one. *)
Lemma last_to_own x :
  d !! n = Some x → mk (hash_nr x) = n → e = f → moved (<[f:=x]> d).
Proof.
  intros Hx Hm Hef. pose proof Ht as Ht1. rewrite Hef in Ht1.
  destruct (table_host _ _ _ _ _ Ht1 n x) as [t Hch]; [lia|intros [=]; lia|done|done|].
  destruct (last_to_free x t d ch Hlen Ht1 Hx Hch) as [Ht' Hc'].
  unfold moved. rewrite Hef. split_and!; [by rewrite length_insert|done|done].
Qed.

Lemma last_to_guest x y :
  d !! n = Some x → e ≠ n → mk (hash_nr x) = n → e ≠ f → d !! f = Some y → mk' (hash_nr y) ≠ f →
  ∃ d', movelink (length d) (<[f:=x]> (<[e:=y]> d)) (slot f) (slot (mk' (hash_nr y))) (slot e)
      = Some d' ∧ moved d'.
Proof.
  intros Hx Hen Hm Hef Hy Hmy.
  assert (Hyn : mk (hash_nr y) ≠ n) by (intros Heq; destruct Hmy; by apply mk_last).
  rewrite mk_other in * by done.
  destruct (table_move d mk (S n) ch e f y x) as (d' & lg & Hmv & Ht' & Hf' & Hl' & Hc' & HF');
    try done; [lia|lia|]. exists d'. split; [done|].
  destruct (table_host _ _ _ _ _ Ht n x) as [t Hch]; [lia|congruence|done|done|].
  assert (Hnx : d' !! n = Some x).
  { rewrite HF'; [done|done|lia|]. intros Hi.
    pose proof (table_mask _ _ _ _ _ Ht n x _ Hx Hi). congruence. }
  destruct (last_to_free x t d' (<[mk (hash_nr y):=lg]> ch)) as [Hta Hca]; try done; [lia| |].
  { by rewrite fn_lookup_insert_ne. }
  rewrite list_insert_id in Hta, Hca by done. unfold moved. split_and!; [lia|done|].
  by rewrite Hca, Hc'.
Qed.

Lemma move_last_spec B B' :
  (∀ hash, my_hash_mask hash B (Z.of_nat (S n)) = slot (mk hash) ∧
           my_hash_mask hash B' (Z.of_nat (S n) - 1) = slot (mk' hash) ∧ (mk' hash < n)%nat) →
  ∃ d2, move_last d B B' (Z.of_nat (S n)) (slot e) = Some d2 ∧ moved d2.
Proof.
  intros Hm. unfold move_last. assert (Hlp : Z.of_nat (S n) - 1 = slot n) by lia.
  destruct (Z.eqb_spec (slot e) (Z.of_nat (S n) - 1)) as [Hen|Hen].
  { exists d. split; [done|]. apply last_free. lia. }
  assert (Hne : e ≠ n) by lia. rewrite Hlp.
  assert (Hr : ∀ i, (i < S n)%nat → i ≠ e → ∃ x, d !! i = Some x).
  { intros i Hi Hie. destruct (table_in _ _ _ _ _ Ht i) as (x & Hx & _); [done|congruence|by exists x]. }
  destruct (Hr n) as [x Hx]; [lia|done|]. rewrite rd_slot, Hx. cbn [mbind option_bind].
  destruct (Hm (hash_nr x)) as (Hx1 & Hx2 & Hx3). rewrite Hlp in Hx2. rewrite Hx1, Hx2.
  destruct (decide (mk (hash_nr x) = n)) as [Hxn|Hxn].
  - rewrite (mk_last _ Hxn) in *. destruct (Z.eqb_spec (slot f) (slot e)) as [Hfe|Hfe].
    { rewrite wr_slot_lt by lia. eexists; split; [done|]. replace e with f by lia.
      apply last_to_own; [done|done|lia]. }
    destruct (Hr f) as [y Hy]; [lia|lia|]. rewrite rd_slot, Hy. cbn [mbind option_bind].
    destruct (Hm (hash_nr y)) as (Hy1 & Hy2 & Hy3). rewrite Hlp in Hy2. rewrite Hy1, Hy2.
    rewrite (wr_slot_lt d e y), (wr_slot_lt d e x) by lia. cbn [mbind option_bind].
    destruct (Z.eqb_spec (slot f) (slot (mk' (hash_nr y)))) as [Hpy|Hpy]; cbn [negb].
    + rewrite Hxn, Z.eqb_refl. cbn [negb]. rewrite andb_false_r.
      rewrite rd_slot, list_lookup_insert_ne, Hy by lia. cbn [mbind option_bind].
      assert (Hmy : mk' (hash_nr y) = f) by lia. rewrite Hmk in Hmy.
      destruct (Z.eqb_spec (slot n) (slot (mk (hash_nr y)))) as [Hyn|Hyn]; cbn [negb].
      * destruct (last_merge_same x y) as (d2 & -> & Hf2 & Hmv); try done; try lia.
        cbn [mbind option_bind]. rewrite rd_slot, Hf2. cbn [mbind option_bind].
        rewrite (wr_slot _ _ _ y) by done. by eexists.
      * case_decide; [lia|].
        destruct (last_merge_two x y) as (d2 & -> & Hf2 & Hmv); try done; try lia.
        cbn [mbind option_bind]. rewrite rd_slot, Hf2. cbn [mbind option_bind].
        rewrite (wr_slot _ _ _ y) by done. by eexists.
    + rewrite wr_slot_lt by (rewrite length_insert; lia). cbn [mbind option_bind].
      apply last_to_guest; try done; lia.
  - rewrite (mk_other _ Hxn) in *. destruct (last_home x) as (Hpe & y & Hy & Hmy); try done.
    rewrite (proj2 (Z.eqb_neq _ _)) by lia. rewrite rd_slot, Hy. cbn [mbind option_bind].
    destruct (Hm (hash_nr y)) as (Hy1 & Hy2 & Hy3). rewrite Hlp in Hy2. rewrite Hy1, Hy2.
    rewrite mk_other, Hmy by congruence. rewrite !Z.eqb_refl.
    rewrite (proj2 (Z.eqb_neq _ (slot n))) by lia. cbn [negb andb].
    rewrite wr_slot_lt by lia. cbn [mbind option_bind]. by apply last_guest.
Qed.

End Last.
Lemma table_truncate d mk n ch :
  length d = S n → table d mk (S n) (Some n) ch →
  table (take n d) mk n None ch ∧
  (λ x, (hash_nr x, data x)) <$> take n d = contents d (S n) (Some n).
Proof.
  intros Hl Ht. assert (Hln : length (take n d) = n) by (rewrite length_take; lia). split.
  - split.
    + intros b. eapply chain_frame; [|apply Ht]. intros i Hi.
      destruct (table_lt _ _ _ _ _ Ht i b Hi) as [? Hne]. rewrite lookup_take_lt; [done|].
      assert (i ≠ n) by congruence. lia.
    + intros i. rewrite <-(t_cover _ _ _ _ _ Ht i).
      destruct (decide (i = n)) as [->|]; intuition (lia || congruence).
  - rewrite <-contents_items, Hln.
    destruct (lookup_lt_is_Some_2 d n) as [x Hx]; [lia|].
    assert (Hd : d = take n d ++ [x]).
    { rewrite <-(take_drop n d) at 1. f_equal. rewrite (drop_S d x n) by done.
      by rewrite drop_ge by lia. }
    rewrite Hd at 2. pose proof (contents_append (take n d) x) as Hc. by rewrite Hln in Hc.
Qed.

(** ** The operations *)

Section Ops.
Context (bytes_at : Rec → list Z) (hash_function : list Z → nat → Z).
Abbreviation hash_nr_ok := (hash_nr_ok bytes_at hash_function).
Abbreviation rec_hashnr := (rec_hashnr bytes_at hash_function).

(** Taking the record in slot [p] out of the table. *)
Lemma remove_slot d B ch b l1 p l2 x :
  size_ok B (length d) → Z.of_nat (length d) ≤ NO_RECORD →
  table d (bucket B (length d)) (length d) None ch → ch b = l1 ++ p :: l2 → d !! p = Some x →
  let n := (length d - 1)%nat in
  let B' := if Z.of_nat (length d) - 1 <? Z.shiftr B 1 then Z.shiftr B 1 else B in
  ∃ d1 (e : Z) d2 ch2, unlink d (slot p) (prev_of l1) = Some (d1, e) ∧
    move_last d1 B B' (Z.of_nat (length d)) e = Some d2 ∧ length d2 = length d ∧
    size_ok B' n ∧ table (take n d2) (bucket B' n) n None ch2 ∧
    (λ x, (hash_nr x, data x)) <$> d ≡ₚ
      (hash_nr x, data x) :: ((λ x, (hash_nr x, data x)) <$> take n d2).
Proof.
  intros Hsz Hb Ht Hch Hx n' B'.
  destruct (unlink_table_spec d (bucket B (length d)) (length d) ch b l1 p l2 x Ht)
    as (d1 & e & l & Hun & He & Ht1 & Hl1 & Hc1 & _); try done.
  assert (∃ n, length d = S n) as [n Hn].
  { apply lookup_lt_Some in Hx. destruct (length d) as [|n]; [lia|by exists n]. }
  subst n' B'. rewrite <-contents_items. rewrite Hn in *. replace (S n - 1)%nat with n by lia.
  destruct (size_ok_shrink B n Hsz) as [Hsz' Hmerge].
  set (B' := if Z.of_nat (S n) - 1 <? Z.shiftr B 1 then _ else _) in *.
  assert (∃ d2, move_last d1 B B' (Z.of_nat (S n)) (slot e) = Some d2 ∧
    moved d1 (bucket B' n) n e d2) as (d2 & Hmv & Hl2 & [ch2 Ht2] & Hc2).
  { destruct (decide (n = 0%nat)) as [->|Hn0].
    - assert (e = 0%nat) as -> by lia. exists d1. split; [done|].
      split_and!; [done| |done]. exists (λ _, []). split; [intros; apply chain_nil|].
      intros i. split; [intros [? Hi]; assert (i = 0%nat) by lia; congruence|].
      intros [a Hi]. mem.
    - destruct Hmerge as (f & Hf & Hm); [lia|].
      apply (move_last_spec d1 (bucket B (S n)) (bucket B' n) n e f _ Hl1 Hb He Hf Ht1).
      + intros hash. by destruct (Hm hash) as (_ & _ & _ & ?).
      + intros hash. destruct (Hm hash) as (? & ? & ? & _). by split_and!. }
  destruct (table_truncate d2 _ n ch2 Hl2 Ht2) as [Ht3 Hi3].
  exists d1, (slot e), d2, ch2. split_and!; try done. by rewrite Hi3, Hc2, Hc1.
Qed.

(** [record] is not in the table. *)
Definition absent h record : Prop := Forall (λ x, data x ≠ record) (array h).

Lemma my_hash_delete_spec h record :
  hash_ok h → Forall (hash_nr_ok h) (array h) →
  ∃ failed freed h', my_hash_delete bytes_at hash_function h record = Some (failed, freed, h') ∧
    hash_ok h' ∧ Forall (hash_nr_ok h') (array h') ∧
    if (failed : bool) then h' = h ∧ freed = None ∧ absent h record
    else items h ≡ₚ (rec_hashnr h record, record) :: items h' ∧
         freed = if has_free h then Some record else None.
Proof.
  intros Hok Hk. pose proof Hok as [Hsz Hrec Hb [ch Ht]]. unfold my_hash_delete.
  destruct (Z.eqb_spec (records h) 0) as [H0|H0].
  { eexists true, None, h. split_and!; try done. unfold absent. destruct (array h); [constructor|].
    simpl in Hrec. lia. }
  rewrite Hrec. set (mk := bucket (blength h) (length (array h))) in *.
  destruct (bucket_ok (blength h) (length (array h)) (length (array h)) (rec_hashnr h record))
    as [Hbz Hbn]; [done|left; split; [done|lia]|]. fold mk in Hbz, Hbn. rewrite <-Hbz.
  destruct (locate (array h) mk ch (mk (rec_hashnr h record)) record)
    as [(l1 & p & l2 & x & Hch & Hx & Hr & ->)|[-> Hn]]; try done.
  { intros j x Hx <-. f_equal. by eapply Forall_lookup_1 in Hk. }
  2: { eexists true, None, h. split_and!; try done. apply list.Forall_forall.
       intros x [j Hj]%list_elem_of_lookup. by eapply Hn. }
  destruct (remove_slot (array h) (blength h) ch (mk (rec_hashnr h record)) l1 p l2 x)
    as (d1 & e & d2 & ch2 & Hun & Hmv & Hl2 & Hsz' & Ht3 & Hitems); try done.
  cbn [mbind option_bind]. rewrite Hun. cbn [mbind option_bind]. rewrite Hmv.
  cbn [mbind option_bind]. rewrite Hl2. set (n := (length (array h) - 1)%nat) in *.
  assert (hash_nr x = rec_hashnr h (data x)) as Hxh by (by eapply Forall_lookup_1 in Hk).
  rewrite Hxh, Hr in Hitems. fold (items h) in Hitems.
  assert (Hln : length (take n d2) = n) by (rewrite length_take; lia).
  eexists false, _, _. split; [done|]. split_and!; try done.
  - split; cbn [blength records array set_table]; rewrite ?Hln; [done|lia|lia|by exists ch2].
  - rewrite hash_nr_items with (h := h) by done. unfold items. cbn [array set_table].
    assert (Hall : Forall (λ p, p.1 = rec_hashnr h p.2) (items h)) by (by apply hash_nr_items).
    rewrite Hitems in Hall. by inversion Hall.
Qed.

(** C12. [my_hash_delete] reports "not found" exactly when the record is not in the
    table, and then leaves the table alone; otherwise it removes one entry of
    the record, merges the last bucket and hands the record to the free
    callback.  It stays inside the array and keeps the invariant. *)
Theorem my_hash_delete_correct h record :
  hash_ok h → Forall (hash_nr_ok h) (array h) →
  ∃ failed freed h', my_hash_delete bytes_at hash_function h record = Some (failed, freed, h') ∧
    hash_ok h' ∧ Forall (hash_nr_ok h') (array h') ∧
    if (failed : bool) then h' = h ∧ freed = None ∧ absent h record
    else items h ≡ₚ (rec_hashnr h record, record) :: items h' ∧
         freed = if has_free h then Some record else None.
Proof. apply my_hash_delete_spec. Qed.

End Ops.

(** ** Update of a key *)

(** Moving a record to another bucket. *)
Lemma relink_spec d mk ch B b l1 p l2 x hash :
  table d mk (length d) None ch → Z.of_nat (length d) ≤ NO_RECORD →
  ch b = l1 ++ p :: l2 → d !! p = Some x → (mk hash < length d)%nat →
  (∀ g, my_hash_mask g B (Z.of_nat (length d)) = slot (mk g)) →
  ∃ d' ch' R, relink d B (Z.of_nat (length d)) (slot (mk hash)) (slot p) (prev_of l1) hash = Some d' ∧
    length d' = length d ∧ table d' mk (length d) None ch' ∧
    contents d (length d) None ≡ₚ (hash_nr x, data x) :: R ∧
    contents d' (length d) None ≡ₚ (hash, data x) :: R.
Proof.
  intros Ht Hno Hch Hx Hnb Hm. unfold relink. rewrite rd_slot, Hx. cbn [mbind option_bind].
  destruct (unlink_table_spec d mk (length d) ch b l1 p l2 x Ht)
    as (d1 & e & l & -> & He & Ht1 & Hl1 & Hc1 & Hep); try done.
  cbn [mbind option_bind]. set (nb := mk hash) in *. set (m := length d) in *.
  destruct (Z.eqb_spec (slot nb) (slot e)) as [Hne|Hne].
  - assert (nb = e) as Hnbe by lia.
    assert (∃ d2, (if slot e =? slot p then Some d1 else wr d1 (slot e) x) = Some d2 ∧
      d2 = <[e:=x]> d1) as (d2 & -> & Hd2).
    { destruct (Z.eqb_spec (slot e) (slot p)) as [Heq|Heq].
      - exists d1. split; [done|]. rewrite list_insert_id; [done|].
        assert (e = p) as Hp by lia. rewrite Hp. by apply Hep.
      - rewrite wr_slot_lt by lia. by eexists. }
    cbn [mbind option_bind]. rewrite rd_slot, Hd2, list_lookup_insert_eq by lia.
    cbn [mbind option_bind]. rewrite wr_slot_lt by (rewrite length_insert; lia).
    rewrite list_insert_insert_eq.
    destruct (table_fill d1 mk m (<[b:=l]> ch) e hash (data x)) as [Ht2 Hc2]; try done; [lia|].
    eexists _, _, _. split_and!; [done|rewrite length_insert; lia|done|done|done].
  - assert (Hbe : nb ≠ e) by lia.
    destruct (table_in _ _ _ _ _ Ht1 nb) as (y & Hy & _); [done|congruence|].
    rewrite rd_slot, Hy. cbn [mbind option_bind]. unfold my_hash_rec_mask. rewrite Hm.
    rewrite (wr_slot_lt d1 e y), (wr_slot_lt d1 e (mkLINK (next y) hash (data x))) by lia.
    cbn [mbind option_bind].
    destruct (Z.eqb_spec (slot nb) (slot (mk (hash_nr y)))) as [Hg|Hg]; cbn [negb].
    + rewrite rd_slot, list_lookup_insert_ne, Hy by done. cbn [mbind option_bind].
      rewrite wr_slot_lt by (rewrite length_insert; lia).
      destruct (table_second d1 mk m (<[b:=l]> ch) e nb y (set_next y (slot e))
        (mkLINK (next y) hash (data x))) as [l' Ht2]; try done; simpl; try lia.
      eexists _, _, _. split_and!; [done|rewrite !length_insert; lia|done|done|].
      apply contents_fill; [done| |].
      * rewrite rec_at_relink by (by rewrite list_lookup_insert_ne). by rewrite rec_at_insert by lia.
      * intros i Hi. rewrite rec_at_relink by (by rewrite list_lookup_insert_ne).
        by apply rec_at_insert_ne.
    + destruct (table_move d1 mk m (<[b:=l]> ch) e nb y y)
        as (d3 & lg & Hmv & Ht3 & Hy3 & Hl3 & Hc3 & _); try done; try lia.
      rewrite (list_insert_id (<[e:=y]> d1)) in Hmv by (by rewrite list_lookup_insert_ne).
      rewrite Hl1 in Hmv. fold m in Hmv |- *. rewrite Hmv. cbn [mbind option_bind].
      rewrite (wr_slot _ _ _ y) by done.
      destruct (table_fill d3 mk m (<[mk (hash_nr y):=lg]> (<[b:=l]> ch)) nb hash (data x))
        as [Ht4 Hc4]; try done; [lia|].
      eexists _, _, _. split_and!; [done|rewrite length_insert; lia|done|done|].
      by rewrite Hc4, Hc3.
Qed.

Section Update.
Context (bytes_at : Rec → list Z) (hash_function : list Z → nat → Z)
  (my_strnncoll : list Z → nat → list Z → nat → Z).
Hypothesis coll_hash : ∀ k1 k2 n,
  my_strnncoll k1 n k2 n = 0 → hash_function k1 n = hash_function k2 n.
Abbreviation hash_nr_ok := (hash_nr_ok bytes_at hash_function).
Abbreviation rec_hashnr := (rec_hashnr bytes_at hash_function).
Abbreviation same_key := (same_key bytes_at my_strnncoll).

(** The walk of the duplicate check over a chain. *)
Lemma other_loop_chain h record key len : ∀ fuel l,
  Z.of_nat (length (array h)) ≤ NO_RECORD → (length l < fuel)%nat →
  (length l ≤ length (array h))%nat → seg (array h) l NO_RECORD →
  let P x := hashcmp bytes_at my_strnncoll h x key (full_length h len) in
  let r := match find_slot (array h) P l with
           | Some (i, x) => (Some (data x), slot i)
           | None => (None, NO_RECORD)
           end in
  other_loop bytes_at my_strnncoll fuel h record key len r.1 r.2 =
  Some (bool_decide (Exists (λ r, r ≠ record) (hits (array h) P l))).
Proof.
  induction fuel as [|fuel IH]; intros l Hb Hf Hla Hs P; [lia|]. cbn [other_loop].
  pose proof (find_slot_hits (array h) P l) as Hh.
  destruct (find_slot (array h) P l) as [[i x]|]; cbn [fst snd].
  - destruct Hh as (l1 & l2 & -> & Hx & ->). rewrite length_app in Hf, Hla. simpl in Hf, Hla.
    destruct (decide (data x = record)) as [Hr|Hr].
    + apply seg_app in Hs as [_ Hs].
      rewrite (my_hash_next_chain bytes_at my_strnncoll h key len i l2) by (done || lia).
      cbn [mbind option_bind]. fold P. destruct Hs as [_ Hs].
      specialize (IH l2 Hb ltac:(lia) ltac:(lia) Hs). cbv zeta in IH. fold P in IH.
      destruct (find_slot (array h) P l2) as [[j y]|]; cbn [fst snd] in IH |- *; rewrite IH;
        f_equal; apply bool_decide_ext; rewrite Exists_cons; intuition.
    + f_equal. symmetry. apply bool_decide_eq_true. rewrite Exists_cons. by left.
  - by rewrite Hh.
Qed.

Lemma exists_hits d (P : HASH_LINK → bool) record l :
  Exists (λ r, r ≠ record) (hits d P l) ↔
  ∃ i x, i ∈ l ∧ d !! i = Some x ∧ P x = true ∧ data x ≠ record.
Proof.
  rewrite list.Exists_exists. unfold hits. split.
  - intros (r & Hr & Hne). apply list_elem_of_omap in Hr as (i & Hi & Hx).
    apply bind_Some in Hx as (x & Hx & Hp). exists i, x. destruct (P x) eqn:HP; [|done].
    injection Hp as <-. done.
  - intros (i & x & Hi & Hx & HP & Hne). exists (data x). split; [|done].
    apply list_elem_of_omap. exists i. split; [done|]. rewrite Hx. cbn. by rewrite HP.
Qed.

(** The keys of the table while [record] has a new key: its stored hash number
    is still [old_hash]. *)
Definition keys_but h record (old_hash : Z) : Prop :=
  Forall (λ x, if decide (data x = record) then hash_nr x = old_hash else hash_nr_ok h x) (array h).

Definition other_with_key h record : Prop :=
  Exists (λ x, data x ≠ record ∧ same_key h record x = true) (array h).

#[global] Instance other_with_key_dec h record : Decision (other_with_key h record).
Proof. unfold other_with_key. apply _. Defined.

Lemma other_with_key_iff h record :
  other_with_key h record ↔ ∃ i x, array h !! i = Some x ∧ data x ≠ record ∧
    hashcmp bytes_at my_strnncoll h x (my_hash_key bytes_at h record).1
      (my_hash_key bytes_at h record).2 = true.
Proof.
  unfold other_with_key, HashOps.same_key. rewrite list.Exists_exists. split.
  - intros (x & [i Hx]%list_elem_of_lookup & ? & ?). by exists i, x.
  - intros (i & x & Hx & ? & ?). exists x. split; [by eapply list_elem_of_lookup_2|done].
Qed.

(** The records with the key are all in the bucket of its hash number. *)
Lemma other_hits h record old_hash ch l key len :
  table (array h) (bucket (blength h) (length (array h))) (length (array h)) None ch →
  keys_but h record old_hash → my_hash_key bytes_at h record = (key, len) → full_length h len = len →
  (∀ i, i ∈ ch (bucket (blength h) (length (array h)) (hash_function key len)) → i ∈ l) →
  bool_decide (Exists (λ r, r ≠ record)
    (hits (array h) (λ x, hashcmp bytes_at my_strnncoll h x key (full_length h len)) l)) =
  bool_decide (other_with_key h record).
Proof.
  intros Ht Hk Ekey Hl Hsub. apply bool_decide_ext. rewrite exists_hits, other_with_key_iff, Ekey, Hl. cbn [fst snd]. split.
  - intros (i & x & _ & Hx & HP & Hne). by exists i, x.
  - intros (i & x & Hx & Hne & HP). exists i, x. split_and!; try done. apply Hsub.
    eapply Forall_lookup_1 in Hk; [|done]. rewrite decide_False in Hk by done.
    assert (hash_nr x = hash_function key len) as <- by (eapply hashcmp_hash; done).
    destruct (table_in _ _ _ _ _ Ht i) as (x' & Hx' & Hin); [by eapply lookup_lt_Some|done|]. by simplify_eq.
Qed.

Lemma other_check_spec h record old_hash :
  hash_ok h → records h ≠ 0 → key_lengths bytes_at h → keys_but h record old_hash →
  let '(key, len) := my_hash_key bytes_at h record in
  ('(found, state) ← my_hash_first_from_hash_value bytes_at my_strnncoll h
      (hash_function key len) key len;
   other_loop bytes_at my_strnncoll (S (length (array h))) h record key len found state) =
  Some (bool_decide (other_with_key h record)).
Proof.
  intros Hok H0 Hl Hk. pose proof Hok as [Hsz Hrec Hb [ch Ht]]. specialize (Hl record).
  destruct (my_hash_key bytes_at h record) as [key len] eqn:Ekey. simpl in Hl.
  set (hash := hash_function key len).
  set (P := λ x, hashcmp bytes_at my_strnncoll h x key (full_length h len)).
  set (mk := bucket (blength h) (length (array h))) in *.
  assert (Hspec : ∀ l, (∀ i, i ∈ ch (mk hash) → i ∈ l) →
    bool_decide (Exists (λ r, r ≠ record) (hits (array h) P l)) = bool_decide (other_with_key h record))
    by (intros l; by apply (other_hits h record old_hash ch l key len)).
  destruct (first_from_chain bytes_at my_strnncoll h ch hash key len Ht Hok H0)
    as [(l & Hch & ->)|(Hch & x & Hx & Hxin & ->)]; cbn [mbind option_bind]; fold P.
  - fold mk in Hch |- *. pose proof (other_loop_chain h record key len (S (length (array h)))
      (ch (mk hash)) Hb) as Hlp.
    cbv zeta in Hlp. fold P in Hlp.
    pose proof (table_chain_length _ _ _ _ _ Ht (mk hash)).
    rewrite <-(Hspec (ch (mk hash))) by done. rewrite <-Hlp; [|lia|lia|apply Ht].
    by destruct (find_slot (array h) P (ch (mk hash))) as [[i y]|].
  - fold mk in Hch, Hxin, Hx |- *. set (b := mk hash) in *.
    pose proof (t_chain _ _ _ _ _ Ht (mk (hash_nr x))) as [Hs _ _ _].
    pose proof (table_chain_length _ _ _ _ _ Ht (mk (hash_nr x))) as Hcl.
    apply list_elem_of_split in Hxin as (l1 & l2 & Hl2). rewrite Hl2 in Hs, Hcl.
    apply seg_app in Hs as [_ Hs]. rewrite length_app in Hcl. simpl in Hcl.
    destruct (P x) eqn:HP; pose proof HP as HP'; unfold P in HP'; rewrite HP'; clear HP'.
    + pose proof (other_loop_chain h record key len (S (length (array h))) (b :: l2) Hb) as Hlp.
      cbv zeta in Hlp. fold P in Hlp. rewrite (find_slot_cons _ _ _ x) in Hlp by done. rewrite HP in Hlp.
      rewrite <-(Hspec (b :: l2)); [apply Hlp; simpl; (done || lia)|].
      intros i Hi. rewrite Hch in Hi. mem.
    + rewrite <-(Hspec []); [|intros i Hi; by rewrite Hch in Hi]. done.
Qed.

Lemma seg_next d d' l z :
  (∀ i x, i ∈ l → d !! i = Some x → ∃ x', d' !! i = Some x' ∧ next x' = next x) →
  seg d l z → seg d' l z.
Proof.
  induction l as [|i l IH]; [done|]. intros Hd [(x & Hx & Hn) Hs]. split.
  - destruct (Hd i x) as (x' & Hx' & Hn'); [by left|done|]. exists x'. split; [done|congruence].
  - apply IH; [|done]. intros j y Hj. apply Hd. by right.
Qed.

(** A record that stays in its bucket gets a new hash number. *)
Lemma table_set_hash d mk m ch b p x hash :
  table d mk m None ch → p ∈ ch b → d !! p = Some x → mk hash = b →
  table (<[p:=set_hash_nr x hash]> d) mk m None ch.
Proof.
  intros Ht Hp Hx Hm. pose proof (lookup_lt_Some _ _ _ Hx).
  split; [|apply Ht]. intros a. destruct (t_chain _ _ _ _ _ Ht a) as [Hs Hn Hh Hmk].
  split; try done.
  - eapply seg_next; [|exact Hs]. intros i y Hi Hy. destruct (decide (i = p)) as [->|].
    + rewrite list_lookup_insert_eq by done. eexists. split; [done|]. simpl. congruence.
    + rewrite list_lookup_insert_ne by done. by exists y.
  - intros i Hi. destruct (decide (i = p)) as [->|].
    + rewrite list_lookup_insert_eq by done. eexists. split; [done|]. simpl. rewrite Hm.
      by eapply table_disjoint.
    + rewrite list_lookup_insert_ne by done. by apply Hmk.
Qed.

Lemma unchanged_slot d x i hash m :
  d !! i = Some x → (i < m)%nat →
  ∃ R, contents d m None ≡ₚ (hash_nr x, data x) :: R ∧
       contents (<[i:=set_hash_nr x hash]> d) m None ≡ₚ (hash, data x) :: R.
Proof.
  intros Hx Hi. exists (contents d m (Some i)). pose proof (lookup_lt_Some _ _ _ Hx). split.
  - apply contents_fill; [done|unfold rec_at; by rewrite Hx|done].
  - apply contents_fill; [done|by rewrite rec_at_insert|]. intros j Hj. by apply rec_at_insert_ne.
Qed.

(** Both branches of the update of the links: the record keeps its bucket or
    moves to another one. *)
Lemma rehash_spec d mk ch B b l1 p l2 x hash :
  table d mk (length d) None ch → Z.of_nat (length d) ≤ NO_RECORD →
  ch b = l1 ++ p :: l2 → d !! p = Some x → (mk hash < length d)%nat →
  (∀ g, my_hash_mask g B (Z.of_nat (length d)) = slot (mk g)) →
  ∃ d' ch' R,
    (if slot b =? slot (mk hash) then
       y ← rd d (slot p); wr d (slot p) (set_hash_nr y hash)
     else relink d B (Z.of_nat (length d)) (slot (mk hash)) (slot p) (prev_of l1) hash) = Some d' ∧
    length d' = length d ∧ table d' mk (length d) None ch' ∧
    contents d (length d) None ≡ₚ (hash_nr x, data x) :: R ∧
    contents d' (length d) None ≡ₚ (hash, data x) :: R.
Proof.
  intros Ht Hb Hch Hx Hmk Hbk. destruct (Z.eqb_spec (slot b) (slot (mk hash))) as [Hsame|Hdiff];
    [|by eapply relink_spec].
  rewrite rd_slot, Hx. cbn [mbind option_bind]. rewrite (wr_slot _ _ _ x) by done.
  destruct (unchanged_slot d x p hash (length d)) as (R & HR1 & HR2);
    [done|by eapply lookup_lt_Some|].
  exists (<[p:=set_hash_nr x hash]> d), ch, R. split_and!; try done; [by rewrite length_insert|].
  apply (table_set_hash _ _ _ _ b); try done; [rewrite Hch; mem|lia].
Qed.


End Update.
End Delete.

(** ** Iteration and reset *)

Section Iterate.
Context {Rec : Type} `{!EqDecision Rec}.

(** Calling [action] on a list of records until it returns true. *)
Fixpoint iterate_list {St} (action : Rec → St → bool * St) (rs : list Rec) (s : St) : bool * St :=
  match rs with
  | [] => (false, s)
  | r :: rs' =>
      let '(stop, s') := action r s in
      if (stop : bool) then (true, s') else iterate_list action rs' s'
  end.

Lemma iterate_loop_spec {St} (action : Rec → St → bool * St) d n : ∀ k s,
  (k + n = length d)%nat →
  iterate_loop action n d (Z.of_nat k) s = Some (iterate_list action (data <$> drop k d) s).
Proof.
  induction n as [|n IH]; intros k s Hk; cbn [iterate_loop].
  { by rewrite drop_ge by lia. }
  destruct (lookup_lt_is_Some_2 d k) as [x Hx]; [lia|].
  rewrite rd_slot, Hx, (drop_S _ x) by done. cbn.
  destruct (action (data x) s) as [[] s']; [done|].
  replace (Z.of_nat k + 1) with (Z.of_nat (S k)) by lia. apply IH. lia.
Qed.

Lemma empty_table_ok (h : @HASH Rec) : records h = 0 → hash_ok (set_table h 1 (records h) []).
Proof.
  intros H0. split; cbn; try done; [by left|]. exists (λ _, []).
  split; [intros; apply chain_nil|]. intros i. split; [lia|]. intros [b Hi]. mem.
Qed.

Lemma my_hash_reset_spec (h : @HASH Rec) :
  hash_ok h →
  (my_hash_reset h).1 = (if has_free h then data <$> array h else []) ∧
  hash_ok (my_hash_reset h).2 ∧ array (my_hash_reset h).2 = [].
Proof.
  intros [Hsz Hrec Hb _]. unfold my_hash_reset, my_hash_free_elements. rewrite Hrec.
  destruct (Z.eqb_spec (Z.of_nat (length (array h))) 0) as [H0|H0]; cbn [fst snd].
  - split_and!; [|apply empty_table_ok; lia|done]. destruct (array h); [by destruct (has_free h)|done].
  - rewrite Nat2Z.id, firstn_all. split_and!; [done|by apply empty_table_ok|done].
Qed.

(** [my_hash_iterate] calls the action on every record, in the order of the
    array, until it returns true; [my_hash_reset] hands every record to the free
    callback and leaves an empty table that satisfies the invariant. *)
Theorem my_hash_iterate_reset_correct {St} (action : Rec → St → bool * St) h s :
  hash_ok h →
  my_hash_iterate action h s = Some (iterate_list action (data <$> array h) s) ∧
  (my_hash_reset h).1 = (if has_free h then data <$> array h else []) ∧
  hash_ok (my_hash_reset h).2 ∧ array (my_hash_reset h).2 = [].
Proof.
  intros Hok. split; [|by apply my_hash_reset_spec]. destruct Hok as [_ Hrec _ _].
  unfold my_hash_iterate. rewrite Hrec, Nat2Z.id.
  pose proof (iterate_loop_spec action (array h) (length (array h)) 0 s) as H. by apply H.
Qed.

End Iterate.

(** ** Witnesses: two records whose hash numbers share a bucket *)

Definition small_bytes (r : nat) : list Z := [Z.of_nat r].
Definition small_hash (key : list Z) (_ : nat) : Z := match key with z :: _ => z | [] => 0 end.
Definition small_coll (k1 : list Z) (_ : nat) (k2 : list Z) (_ : nat) : Z :=
  if decide (k1 = k2) then 0 else 1.

Definition small_table : @HASH nat :=
  mkHASH 0 1 4 2 HASH_UNIQUE [mkLINK 1 2 2%nat; mkLINK NO_RECORD 4 4%nat] None true.

Lemma small_coll_hash k1 k2 n :
  small_coll k1 n k2 n = 0 → small_hash k1 n = small_hash k2 n.
Proof. unfold small_coll. by case_decide; subst. Qed.

Lemma small_table_ok : hash_ok small_table.
Proof.
  split; try done.
  - right. exists 1. simpl. lia.
  - exists (λ b, if decide (b = 0%nat) then [0; 1]%nat else []). split.
    + intros b. destruct (decide (b = 0%nat)) as [->|]; [|apply chain_nil]. split; try done.
      * simpl. split; [eexists; split; reflexivity|]. split; [eexists; split; reflexivity|done].
      * repeat constructor; mem.
      * intros i Hi. assert (i = 0%nat ∨ i = 1%nat) as [-> | ->] by mem;
          eexists; split; reflexivity.
    + intros i. simpl. split.
      * intros [Hi _]. exists 0%nat. rewrite decide_True by done. 
        destruct i as [|[|i]]; [mem|mem|lia].
      * intros [b Hi]. destruct (decide (b = 0%nat)); [|mem].
        assert (i = 0%nat ∨ i = 1%nat) as [-> | ->] by mem; split; (lia || done).
Qed.

Lemma small_table_keys : Forall (hash_nr_ok small_bytes small_hash small_table) (array small_table).
Proof. repeat constructor. Qed.

Lemma small_key_lengths : key_lengths small_bytes small_table.
Proof. intros r. reflexivity. Qed.

Lemma all_records_correct_witness :
  ∃ rs, all_records small_bytes small_hash small_coll small_table [4] 1 = Some rs ∧
    my_hash_search small_bytes small_hash small_coll small_table [4] 1 = Some (head rs) ∧
    rs ≡ₚ data <$> List.filter
      (λ x, hashcmp small_bytes small_coll small_table x [4] (full_length small_table 1))
      (array small_table).
Proof.
  apply (all_records_correct small_bytes small_hash small_coll small_coll_hash small_table [4] 1);
    [exact small_table_ok|exact small_table_keys].
Defined.

Lemma my_hash_insert_correct_witness :
  ∃ failed h', my_hash_insert small_bytes small_hash small_coll small_table
      (Some (mkLINK 0 0 0%nat)) 6%nat = Some (failed, h') ∧ hash_ok h'.
Proof.
  destruct (my_hash_insert_correct small_bytes small_hash small_coll small_coll_hash small_table
    (Some (mkLINK 0 0 0%nat)) 6%nat) as (failed & h' & H & Hok & _);
    [exact small_table_ok|exact small_table_keys|exact small_key_lengths|vm_compute; reflexivity|].
  exists failed, h'. split; [exact H|exact Hok].
Defined.

Lemma my_hash_delete_correct_witness :
  ∃ failed freed h', my_hash_delete small_bytes small_hash small_table 2%nat = Some (failed, freed, h') ∧
    hash_ok h'.
Proof.
  destruct (my_hash_delete_correct small_bytes small_hash small_table 2%nat)
    as (failed & freed & h' & H & Hok & _); [exact small_table_ok|exact small_table_keys|].
  exists failed, freed, h'. split; [exact H|exact Hok].
Defined.

(** Record 4 now has the key 7; its stored hash number is that of the key 4. *)
Definition new_bytes (r : nat) : list Z := if decide (r = 4%nat) then [7] else [Z.of_nat r].


Lemma my_hash_iterate_reset_correct_witness :
  my_hash_iterate (λ r (s : list nat), (false, r :: s)) small_table [] =
  Some (iterate_list (λ r (s : list nat), (false, r :: s)) (data <$> array small_table) []).
Proof.
  apply (my_hash_iterate_reset_correct (λ r (s : list nat), (false, r :: s)) small_table []).
  exact small_table_ok.
Defined.
