(* ===== verification/HashRun.v ===== *)
(** * Runs of a unique hash table

    Any sequence of insertions, deletions and resets of a table made with
    [HASH_UNIQUE] keeps its invariant and refines a list of records with
    different keys. *)

From stdpp Require Import sets functions.
From S2P Require Import Prelude Hash HashFacts HashSplit HashOps HashDelete.
Local Open Scope Z_scope.

(** ** Lists of pairwise unrelated elements *)

Definition apart {A} (R : A → A → bool) (l : list A) : Prop :=
  ∀ i j x y, l !! i = Some x → l !! j = Some y → i ≠ j → R x y = false.

Lemma apart_perm {A} (R : A → A → bool) l l' : l' ≡ₚ l → apart R l → apart R l'.
Proof.
  intros (_ & f & Hf & Hl)%Permutation_inj H i j x y Hi Hj Hij. rewrite Hl in Hi, Hj.
  apply (H (f i) (f j)); [done..|]. intros ?%Hf. done.
Qed.

Lemma apart_cons {A} (R : A → A → bool) x l :
  (∀ y z, R y z = false → R z y = false) → Forall (λ y, R x y = false) l → apart R l → apart R (x :: l).
Proof.
  intros Hs Hx Hl i j y z. rewrite list.Forall_lookup in Hx. destruct i as [|i], j as [|j]; cbn; [done| | |].
  - intros [= <-] Hz _. by eapply Hx.
  - intros Hy [= <-] _. apply Hs. by eapply Hx.
  - intros Hy Hz Hij. eapply Hl; [done..|]. congruence.
Qed.

Lemma apart_tail {A} (R : A → A → bool) x l : apart R (x :: l) → apart R l.
Proof. intros H i j y z Hi Hj Hij. apply (H (S i) (S j)); [done..|]. congruence. Qed.

Lemma apart_head {A} (R : A → A → bool) x l : apart R (x :: l) → Forall (λ y, R x y = false) l.
Proof. intros H. apply list.Forall_lookup. intros i y Hi. by apply (H 0%nat (S i)). Qed.

Section Run.
Context {Rec : Type} `{!EqDecision Rec}.
Context (bytes_at : Rec → list Z) (hash_function : list Z → nat → Z)
  (my_strnncoll : list Z → nat → list Z → nat → Z).
Implicit Types (h : @HASH Rec) (record : Rec).

(** A collation is an equivalence that the hash function respects. *)
Hypothesis coll_hash : ∀ k1 k2 n, my_strnncoll k1 n k2 n = 0 → hash_function k1 n = hash_function k2 n.
Hypothesis coll_refl : ∀ k n, my_strnncoll k n k n = 0.
Hypothesis coll_sym : ∀ k1 k2 n, my_strnncoll k1 n k2 n = 0 → my_strnncoll k2 n k1 n = 0.

Abbreviation key h := (my_hash_key bytes_at h).

(** Two records with the same key. *)
Definition equal_keys h (r x : Rec) : bool :=
  hashcmp bytes_at my_strnncoll h (mkLINK 0 0 x) (key h r).1 (key h r).2.

Lemma equal_keys_refl h r : equal_keys h r r = true.
Proof.
  unfold equal_keys, hashcmp. cbn [data]. destruct (key h r) as [k n]. cbn. rewrite decide_True by done.
  by rewrite coll_refl.
Qed.

Lemma equal_keys_sym h r x : equal_keys h r x = false → equal_keys h x r = false.
Proof.
  unfold equal_keys, hashcmp. cbn [data]. destruct (key h r) as [k n], (key h x) as [k' n']. cbn.
  destruct (decide (n = n')) as [->|]; [|by rewrite decide_False]. rewrite decide_True by done.
  rewrite !Z.eqb_neq. intros H E. by apply H, coll_sym.
Qed.

(** The parts of a table that operations do not change. *)
Definition same_kind h h' : Prop :=
  key_offset h' = key_offset h ∧ key_length h' = key_length h ∧ flags h' = flags h ∧ get_key h' = get_key h.

Lemma insert_kind h mem record f h' :
  my_hash_insert bytes_at hash_function my_strnncoll h mem record = Some (f, h') → same_kind h h'.
Proof.
  unfold my_hash_insert. destruct (key h record) as [k n].
  destruct (if Z.land _ _ =? 0 then _ else _) as [[dup|]|]; cbn [mbind option_bind]; [by intros [= _ <-]| |done].
  destruct mem as [g|]; [|by intros [= _ <-]].
  destruct (split_bucket _ _ _ _) as [[d1 e]|]; cbn [mbind option_bind]; [|done].
  destruct (place _ _ _ _ _ _) as [d2|]; cbn [mbind option_bind]; [|done]. by intros [= _ <-].
Qed.

Lemma delete_kind h record f freed h' :
  my_hash_delete bytes_at hash_function h record = Some (f, freed, h') → same_kind h h'.
Proof.
  unfold my_hash_delete. destruct (_ =? _); [by intros [= _ _ <-]|].
  destruct (find_record _ _ _ _ _) as [[[pos gpos]|]|]; cbn [mbind option_bind]; [|by intros [= _ _ <-]|done].
  destruct (unlink _ _ _) as [[d1 e]|]; cbn [mbind option_bind]; [|done].
  destruct (move_last _ _ _ _ _) as [d2|]; cbn [mbind option_bind]; [|done]. by intros [= _ _ <-].
Qed.

Lemma reset_kind h : same_kind h (my_hash_reset h).2.
Proof. unfold my_hash_reset, my_hash_free_elements. by destruct (records h =? 0). Qed.

Lemma kind_key h h' r : same_kind h h' → key h' r = key h r.
Proof. intros (E1 & E2 & _ & E3). unfold my_hash_key. by rewrite E1, E2, E3. Qed.

Lemma kind_equal_keys h h' r x : same_kind h h' → equal_keys h' r x = equal_keys h r x.
Proof. intros K. unfold equal_keys, hashcmp. cbn [data]. by rewrite !(kind_key h h') by done. Qed.

(** ** Calls *)

Inductive hash_call := Insert (mem : option (@HASH_LINK Rec)) (record : Rec) | Delete (record : Rec) | Reset.

(** The return value of a call and the table after it. *)
Definition hash_exec h (c : hash_call) : option (bool * @HASH Rec) :=
  match c with
  | Insert mem record => my_hash_insert bytes_at hash_function my_strnncoll h mem record
  | Delete record => '(f, _, h') ← my_hash_delete bytes_at hash_function h record; Some (f, h')
  | Reset => Some (false, (my_hash_reset h).2)
  end.

Fixpoint hash_run h (cs : list hash_call) : option (list bool * @HASH Rec) :=
  match cs with
  | [] => Some ([], h)
  | c :: cs => '(f, h) ← hash_exec h c; '(fs, h) ← hash_run h cs; Some (f :: fs, h)
  end.

(** The same on a list of records. *)
Definition list_exec h0 (l : list Rec) (c : hash_call) : bool * list Rec :=
  match c with
  | Insert mem record =>
      if existsb (equal_keys h0 record) l then (true, l)
      else match mem with None => (true, l) | Some _ => (false, record :: l) end
  | Delete record => if decide (record ∈ l) then (false, filter (.≠ record) l) else (true, l)
  | Reset => (false, [])
  end.

Fixpoint list_run h0 (l : list Rec) (cs : list hash_call) : list bool * list Rec :=
  match cs with
  | [] => ([], l)
  | c :: cs => let '(f, l) := list_exec h0 l c in let '(fs, l) := list_run h0 l cs in (f :: fs, l)
  end.

(** The table of kind [h0] has the records [l], with different keys. *)
Record holds (h0 h : @HASH Rec) (l : list Rec) : Prop := {
  hd_ok : hash_ok h;
  hd_nrs : Forall (hash_nr_ok bytes_at hash_function h) (array h);
  hd_kind : same_kind h0 h;
  hd_perm : data <$> array h ≡ₚ l;
  hd_apart : apart (equal_keys h0) l;
}.

Lemma existsb_false {A} (P : A → bool) l : existsb P l = false ↔ Forall (λ x, P x = false) l.
Proof.
  rewrite <- not_true_iff_false, existsb_exists, list.Forall_forall. setoid_rewrite list_elem_of_In.
  setoid_rewrite <- not_true_iff_false. naive_solver.
Qed.

Section Steps.
Context (h0 : @HASH Rec).
Hypothesis unique : Z.land (flags h0) HASH_UNIQUE ≠ 0.
(** With [get_key] the table has no key length. *)
Hypothesis lengths : get_key h0 = None ∨ key_length h0 = 0%nat.

Lemma kind_lengths h : same_kind h0 h → key_lengths bytes_at h.
Proof.
  intros K r. destruct K as (_ & E1 & _ & E2). unfold full_length, my_hash_key. rewrite E1, E2.
  destruct lengths as [-> | ->]; cbn; case_decide; [done|done|by symmetry|done].
Qed.

(** A record with the key is in the table exactly when it is in the list. *)
Lemma same_key_list h l record :
  holds h0 h l → Exists (λ x, same_key bytes_at my_strnncoll h record x = true) (array h)
    ↔ existsb (equal_keys h0 record) l = true.
Proof.
  intros [_ _ K P _]. rewrite existsb_exists, list.Exists_exists. split.
  - intros (x & Hx & E). exists (data x). split.
    + apply list_elem_of_In. rewrite <- P. by apply list_elem_of_fmap_2.
    + rewrite <- (kind_equal_keys h0 h) by done. exact E.
  - intros (r & Hr & E). apply list_elem_of_In in Hr. rewrite <- P in Hr.
    apply list_elem_of_fmap in Hr as (x & -> & Hx). exists x. split; [done|].
    rewrite <- (kind_equal_keys h0 h) in E by done. exact E.
Qed.

Lemma holds_insert h l mem record :
  holds h0 h l → Z.of_nat (length l) < NO_RECORD →
  ∃ h', hash_exec h (Insert mem record) = Some ((list_exec h0 l (Insert mem record)).1, h')
    ∧ holds h0 h' (list_exec h0 l (Insert mem record)).2.
Proof.
  intros H HL. pose proof H as [Hok Hn K P HA]. cbn [hash_exec list_exec].
  destruct (my_hash_insert_spec bytes_at hash_function my_strnncoll coll_hash h mem record) as (f & h' & E & Hok' & Hn' & HF);
    [done|done|by apply kind_lengths|by rewrite <- (length_fmap data), P|].
  exists h'. rewrite E. cbv zeta in HF. pose proof (same_key_list h l record H) as Ek.
  assert (K' : same_kind h0 h') by (apply insert_kind in E; unfold same_kind in *; intuition congruence).
  assert (EU : negb (Z.land (flags h) HASH_UNIQUE =? 0) = true).
  { destruct K as (_ & _ & -> & _). by apply negb_true_iff, Z.eqb_neq. }
  rewrite EU in HF. destruct (existsb (equal_keys h0 record) l) eqn:Ex.
  - destruct f; [destruct HF as [-> _]; by split|]. destruct HF as (_ & _ & HF). exfalso. apply HF; [done|by apply Ek].
  - destruct f.
    + destruct HF as [-> [->|[_ ?%Ek]]]; [|done]. by split.
    + destruct HF as (Hi & Hm & _). destruct mem as [g|]; [|done]. split; [done|]. split; try done.
      * apply (fmap_Permutation snd) in Hi. unfold items in Hi. rewrite fmap_cons, <- !list_fmap_compose in Hi.
        rewrite <- P. exact Hi.
      * apply apart_cons; [apply equal_keys_sym|by apply existsb_false|done].
Qed.

Lemma holds_delete h l record :
  holds h0 h l →
  ∃ h', hash_exec h (Delete record) = Some ((list_exec h0 l (Delete record)).1, h')
    ∧ holds h0 h' (list_exec h0 l (Delete record)).2.
Proof.
  intros H. pose proof H as [Hok Hn K P HA]. cbn [hash_exec list_exec].
  destruct (my_hash_delete_spec bytes_at hash_function h record Hok Hn) as (f & freed & h' & E & Hok' & Hn' & HF).
  exists h'. rewrite E. cbn [mbind option_bind].
  assert (K' : same_kind h0 h') by (apply delete_kind in E; unfold same_kind in *; intuition congruence).
  destruct f.
  - destruct HF as (-> & _ & Ha). rewrite decide_False; [by split|]. rewrite <- P.
    intros (x & -> & Hx)%list_elem_of_fmap. unfold absent in Ha. rewrite list.Forall_forall in Ha. by apply (Ha x).
  - destruct HF as (Hi & _). apply (fmap_Permutation snd) in Hi. unfold items in Hi.
    rewrite fmap_cons, <- !list_fmap_compose in Hi. change (data <$> array h ≡ₚ record :: (data <$> array h')) in Hi.
    rewrite P in Hi. rewrite decide_True by (rewrite Hi; by left). split; [done|].
    pose proof (apart_perm _ _ _ (symmetry Hi) HA) as HA'.
    assert (Hd : data <$> array h' ≡ₚ filter (.≠ record) l).
    { rewrite Hi, filter_cons_False by (intros E'; by apply E'). rewrite filter_keep; [done|].
      apply apart_head in HA'. intros x Hx ->. rewrite list.Forall_forall in HA'.
      specialize (HA' _ Hx). by rewrite equal_keys_refl in HA'. }
    split; try done. eapply apart_perm; [by symmetry|]. by eapply apart_tail.
Qed.

Lemma holds_reset h l :
  holds h0 h l →
  ∃ h', hash_exec h Reset = Some ((list_exec h0 l Reset).1, h') ∧ holds h0 h' (list_exec h0 l Reset).2.
Proof.
  intros [Hok Hn K P HA]. destruct (my_hash_reset_spec h Hok) as (_ & Hok' & E). eexists. split; [done|].
  pose proof (reset_kind h) as K'. split; [done|by rewrite E|unfold same_kind in *; intuition congruence|by rewrite E|done].
Qed.

Lemma holds_exec h l c :
  holds h0 h l → Z.of_nat (length l) < NO_RECORD →
  ∃ h', hash_exec h c = Some ((list_exec h0 l c).1, h') ∧ holds h0 h' (list_exec h0 l c).2
    ∧ (length (list_exec h0 l c).2 ≤ S (length l))%nat.
Proof.
  intros H HL. assert (HN : (length (list_exec h0 l c).2 ≤ S (length l))%nat).
  { destruct c; cbn [list_exec]; [|pose proof (length_filter (.≠ record) l); by case_decide; cbn; lia|cbn; lia].
    repeat case_match; cbn; lia. }
  destruct c as [mem record|record|].
  - destruct (holds_insert h l mem record H HL) as (h' & ? & ?). eauto.
  - destruct (holds_delete h l record H) as (h' & ? & ?). eauto.
  - destruct (holds_reset h l H) as (h' & ? & ?). eauto.
Qed.

(** In a table with different keys the search for the key of a record finds it. *)
Lemma holds_search h l r :
  holds h0 h l → r ∈ l →
  my_hash_search bytes_at hash_function my_strnncoll h (key h r).1 (key h r).2 = Some (Some r).
Proof.
  intros [Hok Hn K P HA] Hr.
  destruct (all_records_spec bytes_at hash_function my_strnncoll coll_hash h (key h r).1 (key h r).2 Hok Hn)
    as (rs & _ & -> & Hrs). f_equal.
  assert (Hel : ∀ y, y ∈ rs ↔ y ∈ l ∧ equal_keys h0 r y = true).
  { intros y. rewrite Hrs, <- P, !list_elem_of_fmap. setoid_rewrite list_elem_of_In. setoid_rewrite filter_In.
    rewrite (kind_lengths h K r). setoid_rewrite <- (kind_equal_keys h0 h r); [|done]. split.
    - intros (x & -> & Hx & E). split; [by exists x|exact E].
    - intros ((x & -> & Hx) & E). exists x. split_and!; [done..|exact E]. }
  destruct rs as [|y rs].
  { exfalso. apply (not_elem_of_nil r), Hel. split; [done|apply equal_keys_refl]. }
  cbn. f_equal. destruct (proj1 (Hel y)) as [Hy E]; [by left|].
  apply list_elem_of_lookup in Hr as [i Hi], Hy as [j Hj].
  destruct (decide (i = j)) as [->|Hij]; [congruence|]. by rewrite (HA i j r y) in E.
Qed.

Lemma holds_run h l cs :
  holds h0 h l → Z.of_nat (length l + length cs) ≤ NO_RECORD →
  ∃ h', hash_run h cs = Some ((list_run h0 l cs).1, h') ∧ holds h0 h' (list_run h0 l cs).2.
Proof.
  revert h l. induction cs as [|c cs IH]; intros h l H HL; [by exists h|]. cbn [hash_run list_run length] in *.
  destruct (holds_exec h l c H ltac:(lia)) as (h1 & E & H1 & HN). rewrite E. cbn [mbind option_bind].
  destruct (list_exec h0 l c) as [f l1]. cbn [fst snd] in *.
  destruct (IH h1 l1 H1 ltac:(lia)) as (h' & E' & H'). rewrite E'. cbn [mbind option_bind].
  destruct (list_run h0 l1 cs) as [fs l2]. by exists h'.
Qed.

Lemma holds_new koff klen gk fe fl : h0 = my_hash_init2 koff klen gk fe fl → holds h0 h0 [].
Proof.
  intros ->. split; [|done..]. exact (empty_table_ok (my_hash_init2 koff klen gk fe fl) eq_refl).
Qed.
End Steps.

(** C14. A new table with [HASH_UNIQUE], after any sequence of insertions, with or
    without memory, deletions and resets: every call returned what it
    returns on a list of records without duplicate keys, the table has exactly
    the records of the list and is well formed, no two of them have the
    same key, and searching for the key of a record finds this record. *)
Theorem unique_table_invariant koff klen gk fe fl cs :
  gk = None ∨ klen = 0%nat → Z.land fl HASH_UNIQUE ≠ 0 → Z.of_nat (length cs) ≤ NO_RECORD →
  let h0 := my_hash_init2 koff klen gk fe fl in
  ∃ h, hash_run h0 cs = Some ((list_run h0 [] cs).1, h)
    ∧ data <$> array h ≡ₚ (list_run h0 [] cs).2
    ∧ hash_ok h ∧ apart (equal_keys h0) (data <$> array h)
    ∧ ∀ r, r ∈ data <$> array h →
        my_hash_search bytes_at hash_function my_strnncoll h (key h r).1 (key h r).2 = Some (Some r).
Proof.
  intros Hl Hu HL h0. destruct (holds_run h0 Hu Hl h0 [] cs) as (h & E & H); [by eapply holds_new|done|].
  exists h. split; [done|]. pose proof H as [Hok _ _ P HA]. split_and!; [done..| |].
  - by eapply apart_perm.
  - intros r Hr. rewrite P in Hr. by apply (holds_search h0 Hl h _ r H).
Qed.
End Run.

(** Two insertions of the same key, a full memory and a deletion. *)
Lemma unique_table_invariant_witness :
  let cs := [Insert (Some (mkLINK 0 0 0%nat)) 5%nat; Insert (Some (mkLINK 0 0 0%nat)) 6%nat;
             Insert (Some (mkLINK 0 0 0%nat)) 5%nat; Insert None 7%nat; Delete 5%nat] in
  let h0 := my_hash_init2 0 1 None false HASH_UNIQUE in
  ∃ h, hash_run small_bytes small_hash small_coll h0 cs = Some ([false; false; true; true; false], h)
    ∧ data <$> array h ≡ₚ [6%nat].
Proof.
  intros cs h0.
  destruct (unique_table_invariant small_bytes small_hash small_coll small_coll_hash
    ltac:(intros; unfold small_coll; by rewrite decide_True)
    ltac:(intros k1 k2 n; unfold small_coll; by repeat case_decide) 0 1 None false HASH_UNIQUE cs)
    as (h & E & P & _); [by left|done|done|].
  exists h. split; [exact E|exact P].
Defined.
