(* ===== verification/ThrLock.v ===== *)
(** * Table locks: the code of [mysys/thr_lock.c]

    A [THR_LOCK] has four intrusive lists of requests: active and waiting
    reads, active and waiting writes.  The scheduling code is written here once,
    over the interface [ListStore] of the list operations it performs; the file
    ThrLinks gives the implementation by pointers, the file ThrSpec the
    specification by lists.  A [THR_LOCK_DATA] is named by a number.

    Waiting is split in the two halves between which the mutex is released:
    [wait_enter] up to [mysql_cond_timedwait], [wait_leave] after the loop.
    The callbacks of the storage engine and the signalled conditions are logged
    in order; the answer of a callback may depend on the whole log. *)

From stdpp Require Import functions.
From S2P Require Import Prelude.

(** ** Lock types ([include/thr_lock.h]) *)

Inductive thr_lock_type :=
  | TL_IGNORE | TL_UNLOCK | TL_READ_DEFAULT | TL_READ
  | TL_READ_WITH_SHARED_LOCKS | TL_READ_HIGH_PRIORITY | TL_READ_NO_INSERT
  | TL_READ_SKIP_LOCKED | TL_WRITE_ALLOW_WRITE | TL_WRITE_CONCURRENT_INSERT
  | TL_WRITE_DELAYED | TL_WRITE_DEFAULT | TL_WRITE_LOW_PRIORITY
  | TL_WRITE_SKIP_LOCKED | TL_WRITE | TL_WRITE_ONLY.

Abbreviation TL_FIRST_WRITE := TL_WRITE_ALLOW_WRITE.

#[export] Instance thr_lock_type_eq : EqDecision thr_lock_type.
Proof. solve_decision. Defined.

(** The numeric value of the enumerator. *)
Definition tl (t : thr_lock_type) : Z :=
  match t with
  | TL_IGNORE => -1 | TL_UNLOCK => 0 | TL_READ_DEFAULT => 1 | TL_READ => 2
  | TL_READ_WITH_SHARED_LOCKS => 3 | TL_READ_HIGH_PRIORITY => 4
  | TL_READ_NO_INSERT => 5 | TL_READ_SKIP_LOCKED => 6
  | TL_WRITE_ALLOW_WRITE => 7 | TL_WRITE_CONCURRENT_INSERT => 8
  | TL_WRITE_DELAYED => 9 | TL_WRITE_DEFAULT => 10 | TL_WRITE_LOW_PRIORITY => 11
  | TL_WRITE_SKIP_LOCKED => 12 | TL_WRITE => 13 | TL_WRITE_ONLY => 14
  end.

Declare Scope tl_scope.
Delimit Scope tl_scope with tl.
Notation "a =? b" := (bool_decide (a =@{thr_lock_type} b)) : tl_scope.
Notation "a <=? b" := (Z.leb (tl a) (tl b)) : tl_scope.
Notation "a <? b" := (Z.ltb (tl a) (tl b)) : tl_scope.

Inductive enum_thr_lock_result :=
  | THR_LOCK_SUCCESS | THR_LOCK_ABORTED | THR_LOCK_WAIT_TIMEOUT | THR_LOCK_DEADLOCK.

Definition THR_LOCK_LATE_PRIV : Z := 1.
Definition THR_LOCK_MERGE_PRIV : Z := 2.
Definition THR_UNLOCK_UPDATE_STATUS : Z := 1.

(** ** Requests, lists and the lock *)

(** [THR_LOCK_DATA] without its links: [cond] tells whether the pointer is
    set, [owner] is the address of the [THR_LOCK_INFO]. *)
Record THR_LOCK_DATA := mk_data {
  owner : nat;
  type : thr_lock_type;
  cond : bool;
  status_param : nat;
  priority : Z;
}.

(** The four [st_lock_list]s of a lock. *)
Inductive lock_list := Read_wait | Read | Write_wait | Write.

#[export] Instance lock_list_eq : EqDecision lock_list.
Proof. solve_decision. Defined.

(** Calls that leave the lock: conditions signalled, engine callbacks. *)
Inductive event :=
  | Signal (data : nat)
  | Get_status (param : nat) (concurrent_insert : bool)
  | Check_status (param : nat)
  | Update_status (param : nat)
  | Restore_status (param : nat)
  | Start_trans (param : nat).

(** [THR_LOCK], over the representation [P] of its lists. *)
Record THR_LOCK (P : Type) := mk_lock {
  lists : P;
  datas : nat → THR_LOCK_DATA;
  read_no_write_count : Z;
  write_lock_count : Z;
  log : list event;
}.
Arguments mk_lock {P}.
Arguments lists {P}.
Arguments datas {P}.
Arguments read_no_write_count {P}.
Arguments write_lock_count {P}.
Arguments log {P}.

(** The callbacks and settings of the lock and the globals of the module.
    [None] is the null callback. *)
Record lock_env := mk_env {
  get_status : option (list event → nat → bool → bool);
  check_status : option (list event → nat → bool);
  has_update_status : bool;
  has_restore_status : bool;
  start_trans : option (list event → nat → bool);
  allow_multiple_concurrent_insert : bool;
  thr_upgraded_concurrent_insert_lock : thr_lock_type;
  max_write_lock_count : Z;
  thread_id : nat → Z;
}.

Section lock_state.
Context {P : Type}.
Implicit Type s : THR_LOCK P.

Definition on_lists (f : P → option P) s : option (THR_LOCK P) :=
  p ← f (lists s);
  Some (mk_lock p (datas s) (read_no_write_count s) (write_lock_count s) (log s)).

Definition set_data (d : nat) (x : THR_LOCK_DATA) s :=
  mk_lock (lists s) (<[d:=x]> (datas s)) (read_no_write_count s)
    (write_lock_count s) (log s).

Definition set_type d t s :=
  let x := datas s d in
  set_data d (mk_data (owner x) t (cond x) (status_param x) (priority x)) s.

Definition set_cond d c s :=
  let x := datas s d in
  set_data d (mk_data (owner x) (type x) c (status_param x) (priority x)) s.

Definition set_read_no_write_count n s :=
  mk_lock (lists s) (datas s) n (write_lock_count s) (log s).

Definition set_write_lock_count n s :=
  mk_lock (lists s) (datas s) (read_no_write_count s) n (log s).

Definition emit (e : event) s :=
  mk_lock (lists s) (datas s) (read_no_write_count s) (write_lock_count s)
    (log s ++ [e]).

(** [data->cond=0; mysql_cond_signal(cond)]. *)
Definition mark_free d s := emit (Signal d) (set_cond d false s).

(** A request is released from [read_wait] into [read]. *)
Definition release_reader s d :=
  let s := if (type (datas s d) =? TL_READ_NO_INSERT)%tl
           then set_read_no_write_count ((read_no_write_count s + 1) mod 2 ^ 32)%Z s
           else s in
  mark_free d s.

(** A waiting request is aborted: type, signal, condition. *)
Definition kill d s := mark_free d (set_type d TL_UNLOCK s).
End lock_state.

(** ** What the scheduler does to the lists

    [append q d] is [( *q.last)=d; d->prev=q.last; q.last=&d->next], which leaves
    [d->next] as it is; [append_null] also clears it; [unlink q d] is
    [if (( *d->prev)=d->next) d->next->prev=d->prev; else q.last=d->prev];
    [push_front] is the insertion at the head in [thr_upgrade_write_delay_lock].
    The last four are the loops over a whole list. *)
Class ListStore (P : Type) := {
  first : lock_list → P → option nat;
  reset_next : nat → P → option P;
  append : lock_list → nat → P → option P;
  append_null : lock_list → nat → P → option P;
  push_front : lock_list → nat → P → option P;
  unlink : lock_list → nat → P → option P;
  has_old_lock : nat → (nat → THR_LOCK_DATA) → lock_list → nat → P → option bool;
  free_all_read_locks : nat → bool → THR_LOCK P → option (THR_LOCK P);
  abort_list : nat → lock_list → THR_LOCK P → option (THR_LOCK P);
  abort_thread_list : nat → (nat → bool) → lock_list → bool * THR_LOCK P →
                      option (bool * THR_LOCK P);
}.

Section scheduler.
Context {P : Type} `{!ListStore P}.
Context (fuel : nat) (env : lock_env).
Implicit Types (s : THR_LOCK P) (d data : nat).

Abbreviation ty s d := (type (datas s d)).
Abbreviation top q s := (first q (lists s)).
Abbreviation set o := (bool_decide (is_Some o)).

Definition call_get_status (d : nat) (ci : bool) s : bool * THR_LOCK P :=
  match get_status env with
  | None => (false, s)
  | Some f =>
    let p := status_param (datas s d) in
    (f (log s) p ci, emit (Get_status p ci) s)
  end.

(** Calling the null pointer has no result. *)
Definition call_check_status (d : nat) s : option (bool * THR_LOCK P) :=
  f ← check_status env;
  let p := status_param (datas s d) in
  Some (f (log s) p, emit (Check_status p) s).

(** *** Waiting *)

(** [wait_for_lock] up to the wait. *)
Definition wait_enter (wait : lock_list) data (in_wait_list : bool) s
    : option (THR_LOCK P) :=
  s ← if in_wait_list then Some s else on_lists (append wait data) s;
  Some (set_cond data true s).

(** The wait loop.  Each wake-up comes with [data->cond] and the return code
    seen then, and with [thread_var->abort] as the next test of the loop reads
    it; no result means that the thread still waits. *)
Fixpoint wait_loop (in_wait_list abort : bool)
    (wakes : list (bool * bool * bool)) : option enum_thr_lock_result :=
  if negb abort || in_wait_list then
    match wakes with
    | [] => None
    | (cond, timed_out, abort) :: wakes =>
      if negb cond then Some THR_LOCK_ABORTED
      else if timed_out then Some THR_LOCK_WAIT_TIMEOUT
      else wait_loop in_wait_list abort wakes
    end
  else Some THR_LOCK_ABORTED.

(** *** [wake_up_waiters] *)

(** The [for (;;)] loop that starts writers when no lock is in use; returns the
    last request that was started. *)
Fixpoint start_writers (n : nat) data s : option (nat * THR_LOCK P) :=
  match n with
  | O => None
  | S n =>
    s ← on_lists (unlink Write_wait data) s;
    s ← on_lists (append_null Write data) s;
    s ← (if (ty s data =? TL_WRITE_CONCURRENT_INSERT)%tl then
           '(bad, s) ← call_check_status data s;
           Some (if bad : bool then set_type data TL_WRITE s else s)
         else Some s);
    let s := mark_free data s in
    match top Write_wait s with
    | Some next =>
      if (ty s data =? TL_WRITE_ALLOW_WRITE)%tl
         && (ty s next =? TL_WRITE_ALLOW_WRITE)%tl
      then start_writers n next s
      else Some (data, s)
    | None => Some (data, s)
    end
  end.

(** The [do ... while] loop that starts writers beside the readers. *)
Fixpoint join_writers (n : nat) (lock_type : thr_lock_type) data s
    : option (THR_LOCK P) :=
  match n with
  | O => None
  | S n =>
    s ← on_lists (unlink Write_wait data) s;
    s ← on_lists (append_null Write data) s;
    let s := mark_free data s in
    match top Write_wait s with
    | Some next =>
      if (lock_type =? TL_WRITE_ALLOW_WRITE)%tl
         && (ty s next =? TL_WRITE_ALLOW_WRITE)%tl
      then join_writers n lock_type next s
      else Some s
    | None => Some s
    end
  end.

Definition concurrent_type (t : thr_lock_type) : bool :=
  (t =? TL_WRITE_CONCURRENT_INSERT)%tl || (t =? TL_WRITE_ALLOW_WRITE)%tl.

(** [if (lock->read_wait.data) free_all_read_locks(...)]. *)
Definition free_waiting_readers (using_concurrent_insert : bool) s
    : option (THR_LOCK P) :=
  match top Read_wait s with
  | None => Some s
  | Some _ => free_all_read_locks fuel using_concurrent_insert s
  end.

(** [lock->write_lock_count++ > max_write_lock_count], which resets the count. *)
Definition count_writer s : bool * THR_LOCK P :=
  let count := write_lock_count s in
  let s := set_write_lock_count ((count + 1) mod 2 ^ 64)%Z s in
  if (max_write_lock_count env <? count)%Z then (true, set_write_lock_count 0 s)
  else (false, s).

(** No write lock is active and no read lock either. *)
Definition wake_idle s : option (THR_LOCK P) :=
  match top Write_wait s with
  | None => free_waiting_readers false s
  | Some data =>
    let readers_first :=
      match top Read_wait s with
      | None => false
      | Some r => (TL_READ_HIGH_PRIORITY <=? ty s r)%tl
      end in
    if negb (ty s data =? TL_WRITE_LOW_PRIORITY)%tl || negb readers_first then
      let '(too_many, s) := count_writer s in
      if too_many && set (top Read_wait s) then free_all_read_locks fuel false s
      else
        '(data, s) ← start_writers fuel data s;
        if (TL_WRITE_LOW_PRIORITY <=? ty s data)%tl then Some s
        else free_waiting_readers (concurrent_type (ty s data)) s
    else free_waiting_readers (concurrent_type (ty s data)) s
  end.

(** No write lock is active, but there are read locks. *)
Definition wake_beside_readers s : option (THR_LOCK P) :=
  match top Write_wait s with
  | Some data =>
    let lock_type := ty s data in
    if (lock_type <=? TL_WRITE_DELAYED)%tl
       && (negb (concurrent_type lock_type) || (read_no_write_count s =? 0)%Z)
    then
      '(bad, s) ← (if (lock_type =? TL_WRITE_CONCURRENT_INSERT)%tl
                   then call_check_status data s else Some (false, s));
      if bad : bool then free_waiting_readers false (set_type data TL_WRITE s)
      else
        s ← join_writers fuel lock_type data s;
        free_waiting_readers (concurrent_type lock_type) s
    else Some s
  | None => free_waiting_readers false s
  end.

Definition wake_up_waiters s : option (THR_LOCK P) :=
  if set (top Write s) then Some s
  else if set (top Read s) then wake_beside_readers s
  else wake_idle s.

(** [wait_for_lock] after the wait loop broke with [result]. *)
Definition wait_leave (wait : lock_list) data (result : enum_thr_lock_result) s
    : option (THR_LOCK P * enum_thr_lock_result) :=
  if cond (datas s data) then
    s ← on_lists (unlink wait data) s;
    s ← wake_up_waiters (set_type data TL_UNLOCK s);
    Some (s, result)
  else if (ty s data =? TL_UNLOCK)%tl then Some (s, result)
  else
    let '(bad, s) :=
      call_get_status data (ty s data =? TL_WRITE_CONCURRENT_INSERT)%tl s in
    Some (s, if bad : bool then THR_LOCK_ABORTED else THR_LOCK_SUCCESS).

(** *** [thr_lock]

    The second component is the result of a request that is decided at once;
    there is none for a request that has started to wait. *)

Abbreviation outcome := (option (THR_LOCK P * option enum_thr_lock_result)).

Definition answer (r : bool * THR_LOCK P) : outcome :=
  Some (r.2, Some (if r.1 then THR_LOCK_ABORTED else THR_LOCK_SUCCESS)).

Definition grant_read data s : outcome :=
  s ← on_lists (append Read data) s;
  let s := if (ty s data =? TL_READ_NO_INSERT)%tl
           then set_read_no_write_count ((read_no_write_count s + 1) mod 2 ^ 32)%Z s
           else s in
  answer (call_get_status data false s).

Definition grant_write data (concurrent_insert : bool) s : outcome :=
  s ← on_lists (append Write data) s;
  answer (call_get_status data concurrent_insert s).

(** [data->type=TL_UNLOCK; result= THR_LOCK_ABORTED]. *)
Definition deny data s : outcome :=
  Some (set_type data TL_UNLOCK s, Some THR_LOCK_ABORTED).

Definition enter_queue (wait : lock_list) data s : outcome :=
  s ← wait_enter wait data false s;
  Some (s, None).

(** Request for a read lock. *)
Definition thr_lock_read data s : outcome :=
  let lock_type := ty s data in
  match top Write s with
  | Some w =>
    if bool_decide (owner (datas s data) = owner (datas s w))
       || ((ty s w <=? TL_WRITE_DELAYED)%tl
           && ((lock_type <=? TL_READ_HIGH_PRIORITY)%tl
               || negb (ty s w =? TL_WRITE_CONCURRENT_INSERT)%tl))
    then grant_read data s
    else if (ty s w =? TL_WRITE_ONLY)%tl then deny data s
    else enter_queue Read_wait data s
  | None =>
    let unimportant :=
      match top Write_wait s with
      | None => true
      | Some w => (ty s w <=? TL_WRITE_LOW_PRIORITY)%tl
      end in
    free ← (if unimportant || (lock_type =? TL_READ_HIGH_PRIORITY)%tl
            then Some true
            else has_old_lock fuel (datas s) Read (owner (datas s data)) (lists s));
    if free : bool then grant_read data s else enter_queue Read_wait data s
  end.

(** A write request while there is a write lock [w]. *)
Definition thr_lock_second_write data w s : outcome :=
  let lock_type := ty s data in
  if (ty s w =? TL_WRITE_ONLY)%tl
     && negb (bool_decide (owner (datas s data) = owner (datas s w)))
  then deny data s
  else
    shared ← (if ((lock_type =? TL_WRITE_ALLOW_WRITE)%tl
                  || ((lock_type =? TL_WRITE_CONCURRENT_INSERT)%tl
                      && allow_multiple_concurrent_insert env
                      && (read_no_write_count s =? 0)%Z))
                 && negb (set (top Write_wait s))
                 && (ty s w =? lock_type)%tl
                 && (read_no_write_count s =? 0)%Z
              then Some true
              else has_old_lock fuel (datas s) Write (owner (datas s data)) (lists s));
    if shared : bool
    then grant_write data (lock_type =? TL_WRITE_CONCURRENT_INSERT)%tl s
    else enter_queue Write_wait data s.

(** A write request while there is none. *)
Definition thr_lock_only_write data s : outcome :=
  if set (top Write_wait s) then enter_queue Write_wait data s
  else
    '(concurrent_insert, s) ←
      (if (ty s data =? TL_WRITE_CONCURRENT_INSERT)%tl then
         '(bad, s) ← call_check_status data s;
         Some (if bad : bool
               then (false, set_type data (thr_upgraded_concurrent_insert_lock env) s)
               else (true, s))
       else Some (false, s));
    let lock_type := ty s data in
    if negb (set (top Read s))
       || ((lock_type <=? TL_WRITE_DELAYED)%tl
           && (negb (concurrent_type lock_type) || (read_no_write_count s =? 0)%Z))
    then grant_write data concurrent_insert s
    else enter_queue Write_wait data s.

(** Request for a write lock. *)
Definition thr_lock_write data s : outcome :=
  let delayed := (ty s data =? TL_WRITE_DELAYED)%tl in
  if delayed && match top Write s with
                | Some w => (ty s w =? TL_WRITE_ONLY)%tl | None => false end
  then deny data s
  else if delayed && (set (top Write s) || set (top Read s)) then
    s ← on_lists (append Write_wait data) s;
    Some (set_cond data true s, Some THR_LOCK_SUCCESS)
  else
    let s := if (ty s data =? TL_WRITE_CONCURRENT_INSERT)%tl
                && negb (set (check_status env))
             then set_type data (thr_upgraded_concurrent_insert_lock env) s
             else s in
    match top Write s with
    | Some w => thr_lock_second_write data w s
    | None => thr_lock_only_write data s
    end.

(** The request is [data->type]. *)
Definition thr_lock data (new_owner : nat) s : outcome :=
  s ← on_lists (reset_next data) s;
  let x := datas s data in
  let s := set_data data
    (mk_data new_owner (type x) false (status_param x)
       (Z.land (priority x) (Z.lnot THR_LOCK_LATE_PRIV))) s in
  if (ty s data <? TL_FIRST_WRITE)%tl
  then thr_lock_read data s else thr_lock_write data s.

(** *** Release *)

(** The list whose [last] pointer [thr_unlock] corrects when [data] is the last
    element of its list. *)
Definition unlock_list (x : THR_LOCK_DATA) : lock_list :=
  if (type x <=? TL_READ_NO_INSERT)%tl then Read
  else if (type x =? TL_WRITE_DELAYED)%tl && cond x then Write_wait
  else Write.

Definition unlock_status (x : THR_LOCK_DATA) (unlock_flags : Z) s : THR_LOCK P :=
  if (Z.land unlock_flags THR_UNLOCK_UPDATE_STATUS =? 0)%Z then s
  else if (TL_WRITE_CONCURRENT_INSERT <=? type x)%tl then
    if has_update_status env then emit (Update_status (status_param x)) s else s
  else
    if has_restore_status env then emit (Restore_status (status_param x)) s else s.

Definition thr_unlock data (unlock_flags : Z) s : option (THR_LOCK P) :=
  let x := datas s data in
  s ← on_lists (unlink (unlock_list x) data) s;
  let s := unlock_status x unlock_flags s in
  let s := if (type x =? TL_READ_NO_INSERT)%tl
           then set_read_no_write_count
                  ((read_no_write_count s - 1) mod 2 ^ 32)%Z s
           else s in
  wake_up_waiters (set_type data TL_UNLOCK s).

(** *** Aborts, downgrade and the delayed-insert handler *)

(** The upgrade of the active lock concerns the first write lock. *)
Definition thr_abort_locks (upgrade_lock : bool) s : option (THR_LOCK P) :=
  s ← abort_list fuel Read_wait s;
  s ← abort_list fuel Write_wait s;
  Some (match top Write s with
        | Some w => if upgrade_lock then set_type w TL_WRITE_ONLY s else s
        | None => s
        end).

Definition thr_abort_locks_for_thread (id : Z) s : option (bool * THR_LOCK P) :=
  let mine := λ o, (thread_id env o =? id)%Z in
  r ← abort_thread_list fuel mine Read_wait (false, s);
  '(found, s) ← abort_thread_list fuel mine Write_wait r;
  s ← wake_up_waiters s;
  Some (found, s).

Definition thr_downgrade_write_lock data (new_lock_type : thr_lock_type) s
    : THR_LOCK P :=
  set_type data new_lock_type s.

Definition call_start_trans data s : bool * THR_LOCK P :=
  match start_trans env with
  | None => (false, s)
  | Some f =>
    let p := status_param (datas s data) in
    (f (log s) p, emit (Start_trans p) s)
  end.

(** [if ((data->next=q.data)) ...; q.data=data] after the removal from [write]. *)
Definition requeue data s : option (THR_LOCK P) :=
  s ← on_lists (unlink Write data) s;
  on_lists (push_front Write_wait data) s.

(** Up to the wait; the [my_bool] is the value returned at once. *)
Definition thr_upgrade_write_delay_lock data (new_lock_type : thr_lock_type) s
    : option (THR_LOCK P * option bool) :=
  if (ty s data =? TL_UNLOCK)%tl || (TL_WRITE_LOW_PRIORITY <=? ty s data)%tl
  then Some (s, Some (ty s data =? TL_UNLOCK)%tl)
  else
    let s := set_type data new_lock_type s in
    if negb (cond (datas s data)) then
      if negb (set (top Read s)) then
        let s := (call_get_status data false s).2 in
        let s := (call_start_trans data s).2 in
        Some (s, Some false)
      else
        s ← requeue data s;
        s ← wait_enter Write_wait data true s;
        Some (s, None)
    else
      s ← wait_enter Write_wait data true s;
      Some (s, None).

(** The value returned after [wait_for_lock] gave [res]. *)
Definition upgrade_result data (res : enum_thr_lock_result) s : bool * THR_LOCK P :=
  match res with
  | THR_LOCK_SUCCESS => call_start_trans data s
  | _ => (false, s)
  end.

(** The part of [thr_reschedule_write_lock] under the mutex; the lock type is
    the one to upgrade to again, if there were readers to let through. *)
Definition reschedule_section data s : option (THR_LOCK P * option thr_lock_type) :=
  if negb (set (top Read_wait s)) then Some (s, None)
  else
    let write_lock_type := ty s data in
    let s := set_type data TL_WRITE_DELAYED s in
    let s := if has_update_status env
             then emit (Update_status (status_param (datas s data))) s else s in
    s ← requeue data s;
    let s := set_cond data true s in
    s ← free_all_read_locks fuel false s;
    Some (s, Some write_lock_type).

(** Both critical sections, when nobody takes the mutex in between. *)
Definition thr_reschedule_write_lock data s : option (THR_LOCK P * option bool) :=
  '(s, again) ← reschedule_section data s;
  match again with
  | None => Some (s, Some false)
  | Some write_lock_type => thr_upgrade_write_delay_lock data write_lock_type s
  end.
End scheduler.

(** [thr_lock_data_init]. *)
Definition thr_lock_data_init (param : nat) : THR_LOCK_DATA :=
  mk_data 0 TL_UNLOCK false param 0.
