(* ===== verification/ThrLinks.v ===== *)
(** * Table locks: the linked lists of [mysys/thr_lock.c]

    The implementation of the [ListStore] interface by pointers.  [st_lock_list]
    is a head [data] and a pointer [last] to the cell that ends the list;
    [THR_LOCK_DATA] has [next] and a pointer [prev] to the cell that refers to
    it.  A cell of type [THR_LOCK_DATA*] is the [data] field of a list or the
    [next] field of a request. *)

From stdpp Require Import functions.
From S2P Require Import Prelude ThrLock.

(** The addresses of the cells: [&lock->q.data] and [&d->next]. *)
Inductive cell_addr :=
  | Head (q : lock_list)
  | Next (d : nat).

#[export] Instance cell_addr_eq : EqDecision cell_addr.
Proof. solve_decision. Defined.

Record links := mk_links {
  cell : cell_addr → option nat;
  prev : nat → cell_addr;
  last_cell : lock_list → cell_addr;
}.

Module Links.

Definition store (c : cell_addr) (v : option nat) (m : links) : links :=
  mk_links (<[c:=v]> (cell m)) (prev m) (last_cell m).

Definition set_prev (d : nat) (c : cell_addr) (m : links) : links :=
  mk_links (cell m) (<[d:=c]> (prev m)) (last_cell m).

Definition set_last (q : lock_list) (c : cell_addr) (m : links) : links :=
  mk_links (cell m) (prev m) (<[q:=c]> (last_cell m)).

(** [thr_lock_init]. *)
Definition thr_lock_init : links :=
  mk_links (λ _, None) (λ _, Head Read) Head.

Definition first (q : lock_list) (m : links) : option nat := cell m (Head q).

Definition reset_next (d : nat) (m : links) : option links :=
  Some (store (Next d) None m).

Definition append (q : lock_list) (d : nat) (m : links) : option links :=
  let m := store (last_cell m q) (Some d) m in
  let m := set_prev d (last_cell m q) m in
  Some (set_last q (Next d) m).

Definition append_null (q : lock_list) (d : nat) (m : links) : option links :=
  m ← append q d m;
  reset_next d m.

Definition unlink (q : lock_list) (d : nat) (m : links) : option links :=
  let m := store (prev m d) (cell m (Next d)) m in
  Some (match cell m (prev m d) with
        | Some n => set_prev n (prev m d) m
        | None => set_last q (prev m d) m
        end).

Definition push_front (q : lock_list) (d : nat) (m : links) : option links :=
  let m := store (Next d) (cell m (Head q)) m in
  let m := match cell m (Next d) with
           | Some n => set_prev n (Next d) m
           | None => set_last q (Next d) m
           end in
  let m := set_prev d (Head q) m in
  Some (store (Head q) (Some d) m).

Fixpoint old_lock_loop (n : nat) (info : nat → THR_LOCK_DATA) (o : nat) (m : links)
    (data : option nat) : option bool :=
  match data, n with
  | None, _ => Some false
  | Some _, O => None
  | Some d, S n =>
    if bool_decide (owner (info d) = o) then Some true
    else old_lock_loop n info o m (cell m (Next d))
  end.

Definition has_old_lock (n : nat) (info : nat → THR_LOCK_DATA) (q : lock_list)
    (o : nat) (m : links) : option bool :=
  old_lock_loop n info o m (first q m).

(** The [do ... while] loop of [free_all_read_locks]: a request that cannot be
    freed is linked away from the read chain, back into the read_wait chain. *)
Fixpoint free_loop (n : nat) (using_concurrent_insert : bool) (data : nat)
    (s : THR_LOCK links) : option (THR_LOCK links) :=
  match n with
  | O => None
  | S n =>
    s ← (if (type (datas s data) =? TL_READ_NO_INSERT)%tl && using_concurrent_insert
         then
           s ← on_lists (unlink Read data) s;
           on_lists (append Read_wait data) s
         else Some (release_reader s data));
    match cell (lists s) (Next data) with
    | None => Some s
    | Some next => free_loop n using_concurrent_insert next s
    end
  end.

(** [( *lock->read.last)=data; data->prev=lock->read.last;
    lock->read.last=lock->read_wait.last; lock->read_wait.last= &lock->read_wait.data]. *)
Definition splice (data : nat) (m : links) : option links :=
  let m := store (last_cell m Read) (Some data) m in
  let m := set_prev data (last_cell m Read) m in
  let m := set_last Read (last_cell m Read_wait) m in
  Some (set_last Read_wait (Head Read_wait) m).

Definition free_all_read_locks (n : nat) (using_concurrent_insert : bool)
    (s : THR_LOCK links) : option (THR_LOCK links) :=
  data ← first Read_wait (lists s);
  s ← on_lists (splice data) s;
  s ← free_loop n using_concurrent_insert data s;
  s ← on_lists (λ m, Some (store (last_cell m Read_wait) None m)) s;
  Some (if bool_decide (is_Some (first Read_wait (lists s))) then s
        else set_write_lock_count 0 s).

(** The loops of [thr_abort_locks]. *)
Fixpoint abort_loop (n : nat) (data : option nat) (s : THR_LOCK links)
    : option (THR_LOCK links) :=
  match data, n with
  | None, _ => Some s
  | Some _, O => None
  | Some d, S n =>
    let s := kill d s in
    abort_loop n (cell (lists s) (Next d)) s
  end.

Definition abort_list (n : nat) (q : lock_list) (s : THR_LOCK links)
    : option (THR_LOCK links) :=
  s ← abort_loop n (first q (lists s)) s;
  on_lists (λ m, Some (store (Head q) None (set_last q (Head q) m))) s.

(** The loops of [thr_abort_locks_for_thread]. *)
Fixpoint abort_thread_loop (n : nat) (mine : nat → bool) (q : lock_list)
    (data : option nat) (r : bool * THR_LOCK links)
    : option (bool * THR_LOCK links) :=
  match data, n with
  | None, _ => Some r
  | Some _, O => None
  | Some d, S n =>
    let '(found, s) := r in
    r ← (if mine (owner (datas s d)) then
           s ← on_lists (unlink q d) (kill d s);
           Some (true, s)
         else Some (found, s));
    abort_thread_loop n mine q (cell (lists r.2) (Next d)) r
  end.

Definition abort_thread_list (n : nat) (mine : nat → bool) (q : lock_list)
    (r : bool * THR_LOCK links) : option (bool * THR_LOCK links) :=
  abort_thread_loop n mine q (first q (lists r.2)) r.

End Links.

#[export] Instance links_store : ListStore links := {|
  first := Links.first;
  reset_next := Links.reset_next;
  append := Links.append;
  append_null := Links.append_null;
  push_front := Links.push_front;
  unlink := Links.unlink;
  has_old_lock := Links.has_old_lock;
  free_all_read_locks := Links.free_all_read_locks;
  abort_list := Links.abort_list;
  abort_thread_list := Links.abort_thread_list;
|}.
