(* ===== verification/ThrSpec.v ===== *)
(** * Table locks: the specification of the lists of a lock

    The contract of the [ListStore] interface: every list is a sequence of
    requests, every operation acts on the sequences, and an operation is
    undefined where the C code would follow or corrupt a dangling link: linking
    in a request that is already linked, unlinking one that is not in the list
    named, walking an empty list that must not be empty. *)

From stdpp Require Import functions.
From S2P Require Import Prelude ThrLock.

(** [fresh d] records that [d->next] was cleared since [d] was last linked. *)
Record seqs := mk_seqs {
  elements : lock_list → list nat;
  fresh : nat → bool;
}.

(** Is the request in one of the lists? *)
Definition linked (a : seqs) (d : nat) : bool :=
  bool_decide (d ∈ elements a Read_wait) || bool_decide (d ∈ elements a Read)
  || bool_decide (d ∈ elements a Write_wait) || bool_decide (d ∈ elements a Write).

Module Seqs.

Definition empty : seqs := mk_seqs (λ _, []) (λ _, false).

Definition put (q : lock_list) (l : list nat) (a : seqs) : seqs :=
  mk_seqs (<[q:=l]> (elements a)) (fresh a).

Definition set_fresh (d : nat) (b : bool) (a : seqs) : seqs :=
  mk_seqs (elements a) (<[d:=b]> (fresh a)).

Definition first (q : lock_list) (a : seqs) : option nat := head (elements a q).

Definition reset_next (d : nat) (a : seqs) : option seqs :=
  if linked a d then None else Some (set_fresh d true a).

Definition append_null (q : lock_list) (d : nat) (a : seqs) : option seqs :=
  if linked a d then None
  else Some (put q (elements a q ++ [d]) (set_fresh d false a)).

Definition append (q : lock_list) (d : nat) (a : seqs) : option seqs :=
  if fresh a d then append_null q d a else None.

Definition push_front (q : lock_list) (d : nat) (a : seqs) : option seqs :=
  if linked a d then None
  else Some (put q (d :: elements a q) (set_fresh d false a)).

Definition unlink (q : lock_list) (d : nat) (a : seqs) : option seqs :=
  if bool_decide (d ∈ elements a q)
  then Some (put q (filter (.≠ d) (elements a q)) a) else None.

Definition has_old_lock (_ : nat) (info : nat → THR_LOCK_DATA) (q : lock_list)
    (o : nat) (a : seqs) : option bool :=
  Some (existsb (λ d, bool_decide (owner (info d) = o)) (elements a q)).

(** The requests that [free_all_read_locks] must leave waiting. *)
Definition held_back (using_concurrent_insert : bool) (s : THR_LOCK seqs) (d : nat)
    : bool :=
  (type (datas s d) =? TL_READ_NO_INSERT)%tl && using_concurrent_insert.

Definition free_all_read_locks (_ : nat) (using_concurrent_insert : bool)
    (s : THR_LOCK seqs) : option (THR_LOCK seqs) :=
  let a := lists s in
  let waiting := elements a Read_wait in
  let freed := filter (λ d, negb (held_back using_concurrent_insert s d)) waiting in
  let back := filter (held_back using_concurrent_insert s) waiting in
  if bool_decide (waiting = []) then None
  else
    let s := foldl release_reader s freed in
    s ← on_lists (λ a, Some (put Read_wait back
                               (put Read (elements a Read ++ freed) a))) s;
    Some (if bool_decide (back = []) then set_write_lock_count 0 s else s).

Definition abort_list (_ : nat) (q : lock_list) (s : THR_LOCK seqs)
    : option (THR_LOCK seqs) :=
  let s := foldl (λ s d, kill d s) s (elements (lists s) q) in
  on_lists (λ a, Some (put q [] a)) s.

Definition abort_thread_list (_ : nat) (mine : nat → bool) (q : lock_list)
    (r : bool * THR_LOCK seqs) : option (bool * THR_LOCK seqs) :=
  let '(found, s) := r in
  let hit := λ d, mine (owner (datas s d)) in
  let l := elements (lists s) q in
  s ← on_lists (λ a, Some (put q (filter (λ d, negb (hit d)) l) a))
        (foldl (λ s d, kill d s) s (filter hit l));
  Some (found || existsb hit l, s).

End Seqs.

#[export] Instance seqs_store : ListStore seqs := {|
  first := Seqs.first;
  reset_next := Seqs.reset_next;
  append := Seqs.append;
  append_null := Seqs.append_null;
  push_front := Seqs.push_front;
  unlink := Seqs.unlink;
  has_old_lock := Seqs.has_old_lock;
  free_all_read_locks := Seqs.free_all_read_locks;
  abort_list := Seqs.abort_list;
  abort_thread_list := Seqs.abort_thread_list;
|}.
