(* ===== verification/ThrRefine.v ===== *)
(** * Table locks: the pointer lists implement the sequences

    [rep m a] says that the linked lists [m] hold the sequences [a].  Every
    operation of the interface preserves it, and so does, by one simulation
    argument, every routine of the scheduler. *)

From stdpp Require Import functions.
From S2P Require Import Prelude ThrLock ThrLinks ThrSpec.

(** ** List segments *)

(** From the cell [p] through the requests [l] to a cell that holds [v]. *)
Fixpoint lseg (m : links) (p : cell_addr) (l : list nat) (v : option nat) : Prop :=
  match l with
  | [] => cell m p = v
  | d :: l => cell m p = Some d ∧ prev m d = p ∧ lseg m (Next d) l v
  end.

(** The cell that ends the segment, and all its cells. *)
Fixpoint final (p : cell_addr) (l : list nat) : cell_addr :=
  match l with
  | [] => p
  | d :: l => final (Next d) l
  end.

Definition cells (p : cell_addr) (l : list nat) : list cell_addr := p :: (Next <$> l).

(** What the cell before [l] holds. *)
Definition hd_or (l : list nat) (v : option nat) : option nat :=
  match l with [] => v | d :: _ => Some d end.

Lemma final_in p l : final p l ∈ cells p l.
Proof.
  unfold cells. revert p. induction l as [|d l IH]; intros p; cbn; [mem|].
  right. apply IH.
Qed.

Lemma final_app p l1 l2 : final p (l1 ++ l2) = final (final p l1) l2.
Proof. revert p. induction l1; intros p; cbn; auto. Qed.

Lemma final_end p p' l d : final p (l ++ [d]) = final p' (l ++ [d]).
Proof. by rewrite !final_app. Qed.

Lemma cells_final_app p l1 l2 c : c ∈ cells (final p l1) l2 → c ∈ cells p (l1 ++ l2).
Proof.
  unfold cells. rewrite fmap_app. intros [->|Hc]%elem_of_cons; [|mem].
  pose proof (final_in p l1) as Hf. unfold cells in Hf. mem.
Qed.

Lemma NoDup_cells q l : NoDup l → NoDup (cells (Head q) l).
Proof.
  intros Hnd. constructor.
  - rewrite list_elem_of_fmap. intros (? & ? & _). done.
  - apply NoDup_fmap_2; [|done]. congruence.
Qed.

Lemma lseg_first m p l v : lseg m p l v → cell m p = hd_or l v.
Proof. destruct l; cbn; tauto. Qed.

Lemma lseg_final m p l v : lseg m p l v → cell m (final p l) = v.
Proof. revert p. induction l as [|d l IH]; intros p; cbn; [done|]. intros (_ & _ & ?). auto. Qed.

Lemma lseg_app m p l1 l2 v :
  lseg m p (l1 ++ l2) v ↔ lseg m p l1 (hd_or l2 v) ∧ lseg m (final p l1) l2 v.
Proof.
  revert p. induction l1 as [|d l1 IH]; intros p; cbn.
  - split; [|tauto]. intros H. by split; [apply lseg_first|].
  - rewrite IH. tauto.
Qed.

Lemma lseg_frame m m' p l v :
  lseg m p l v →
  (∀ c, c ∈ cells p l → cell m' c = cell m c) →
  (∀ d, d ∈ l → prev m' d = prev m d) →
  lseg m' p l v.
Proof.
  unfold cells. revert p. induction l as [|d l IH]; intros p Hl Hc Hp; cbn in *.
  - rewrite Hc; [done|mem].
  - destruct Hl as (H1 & H2 & H3). split_and!; [rewrite Hc; [done|mem]|rewrite Hp; [done|mem]|].
    apply IH; [done|intros; apply Hc; mem|intros; apply Hp; mem].
Qed.

(** Only the cell at the end changes. *)
Lemma lseg_end m m' p l v v' :
  lseg m p l v → NoDup (cells p l) →
  cell m' (final p l) = v' →
  (∀ c, c ∈ cells p l → c ≠ final p l → cell m' c = cell m c) →
  (∀ d, d ∈ l → prev m' d = prev m d) →
  lseg m' p l v'.
Proof.
  unfold cells. revert p. induction l as [|d l IH]; intros p Hl Hnd Hf Hc Hp; cbn in *; [done|].
  destruct Hl as (H1 & H2 & H3). apply list.NoDup_cons in Hnd as [Hn Hnd].
  assert (Hpf : p ≠ final (Next d) l).
  { intros ->. apply Hn. apply (final_in (Next d) l). }
  split_and!; [rewrite Hc; [done|mem|done]|rewrite Hp; [done|mem]|].
  apply IH; [done|done|done|intros; apply Hc; [mem|done]|intros; apply Hp; mem].
Qed.

(** ** The representation of the lists *)

Record rep (m : links) (a : seqs) : Prop := {
  rep_seg q : lseg m (Head q) (elements a q) None;
  rep_last q : last_cell m q = final (Head q) (elements a q);
  rep_nodup q : NoDup (elements a q);
  rep_disj q q' d : d ∈ elements a q → d ∈ elements a q' → q = q';
  rep_fresh d : fresh a d = true → linked a d = false ∧ cell m (Next d) = None;
}.

Lemma linked_spec a d : linked a d = true ↔ ∃ q, d ∈ elements a q.
Proof.
  unfold linked. rewrite !orb_true_iff, !bool_decide_eq_true. split.
  - intros [[[?|?]|?]|?]; eauto.
  - intros ([] & ?); tauto.
Qed.

Lemma not_linked a d : linked a d = false ↔ ∀ q, d ∉ elements a q.
Proof.
  rewrite <-not_true_iff_false, linked_spec. split; [|intros H (q & ?); by apply (H q)].
  intros H q Hq. eauto.
Qed.

Lemma cells_disj m a q q' c :
  rep m a → c ∈ cells (Head q) (elements a q) → c ∈ cells (Head q') (elements a q') → q = q'.
Proof.
  intros R. unfold cells. rewrite !elem_of_cons, !list_elem_of_fmap.
  intros [->|(d & -> & Hd)] [?|(d' & ? & Hd')]; simplify_eq; [done|].
  by eapply rep_disj.
Qed.

Lemma rep_put m m' a q l f :
  rep m a →
  lseg m' (Head q) l None → last_cell m' q = final (Head q) l → NoDup l →
  (∀ d q', d ∈ l → d ∈ elements a q' → q' = q) →
  (∀ q', q' ≠ q → last_cell m' q' = last_cell m q') →
  (∀ q' c, q' ≠ q → c ∈ cells (Head q') (elements a q') → cell m' c = cell m c) →
  (∀ q' d, q' ≠ q → d ∈ elements a q' → prev m' d = prev m d) →
  (∀ d, f d = true → d ∉ l ∧ (∀ q', q' ≠ q → d ∉ elements a q') ∧ cell m' (Next d) = None) →
  rep m' (mk_seqs (<[q:=l]> (elements a)) f).
Proof.
  intros R Hl Hlast Hnd Hd Hq Hc Hp Hf.
  assert (He : ∀ q', q' ≠ q → (<[q:=l]> (elements a)) q' = elements a q')
    by (intros; by rewrite fn_lookup_insert_ne).
  split; cbn.
  - intros q'. destruct (decide (q' = q)) as [->|Hne]; [by rewrite fn_lookup_insert|].
    rewrite He by done. eapply lseg_frame; [by apply R|by eauto..].
  - intros q'. destruct (decide (q' = q)) as [->|Hne]; [by rewrite fn_lookup_insert|].
    rewrite He, Hq by done. apply R.
  - intros q'. destruct (decide (q' = q)) as [->|Hne]; [by rewrite fn_lookup_insert|].
    rewrite He by done. by eapply rep_nodup.
  - intros q1 q2 d.
    destruct (decide (q1 = q)) as [->|H1], (decide (q2 = q)) as [->|H2];
      rewrite ?fn_lookup_insert, ?He by done; eauto using rep_disj.
    intros ? ?; symmetry; eauto.
  - intros d Hfd. destruct (Hf d Hfd) as (Hdl & Hdq & Hn). split; [|done].
    apply not_linked. intros q'. cbn.
    destruct (decide (q' = q)) as [->|Hne]; rewrite ?fn_lookup_insert, ?He by done; auto.
Qed.

(** What one reads in a store that was updated. *)
Lemma cell_store m c v c' : cell (Links.store c v m) c' = if decide (c' = c) then v else cell m c'.
Proof. cbn. case_decide; subst; [apply fn_lookup_insert|by apply fn_lookup_insert_ne]. Qed.

Lemma prev_set_prev m d c d' :
  prev (Links.set_prev d c m) d' = if decide (d' = d) then c else prev m d'.
Proof. cbn. case_decide; subst; [apply fn_lookup_insert|by apply fn_lookup_insert_ne]. Qed.

Lemma last_set_last m q c q' :
  last_cell (Links.set_last q c m) q' = if decide (q' = q) then c else last_cell m q'.
Proof. cbn. case_decide; subst; [apply fn_lookup_insert|by apply fn_lookup_insert_ne]. Qed.

Lemma cell_set_prev m d c : cell (Links.set_prev d c m) = cell m.
Proof. done. Qed.
Lemma cell_set_last m q c : cell (Links.set_last q c m) = cell m.
Proof. done. Qed.
Lemma prev_store m c v : prev (Links.store c v m) = prev m.
Proof. done. Qed.
Lemma prev_set_last m q c : prev (Links.set_last q c m) = prev m.
Proof. done. Qed.
Lemma last_store m c v : last_cell (Links.store c v m) = last_cell m.
Proof. done. Qed.
Lemma last_set_prev m d c : last_cell (Links.set_prev d c m) = last_cell m.
Proof. done. Qed.

#[global] Arguments Links.store : simpl never.
#[global] Arguments Links.set_prev : simpl never.
#[global] Arguments Links.set_last : simpl never.

Create HintDb links discriminated.
#[export] Hint Rewrite cell_store prev_set_prev last_set_last cell_set_prev cell_set_last
  prev_store prev_set_last last_store last_set_prev : links.

(** Evaluates the fields of an updated store, with all case distinctions. *)
Ltac links := repeat (progress autorewrite with links); repeat case_decide; simplify_eq; try done.

(** The reading of a cell or link of another list. *)
Lemma other_cell m a q q' c :
  rep m a → q' ≠ q → c ∈ cells (Head q') (elements a q') →
  c ≠ final (Head q) (elements a q).
Proof. intros R Hne Hc ->. apply Hne. eapply cells_disj; eauto using final_in. Qed.

Lemma next_in_cells q l d : Next d ∈ cells (Head q) l ↔ d ∈ l.
Proof.
  unfold cells. rewrite elem_of_cons, list_elem_of_fmap. split; [|by eauto].
  intros [?|(? & ? & ?)]; naive_solver.
Qed.

(** Linking [d] in at the end, given what the new store reads. *)
Lemma link_last m m' a q d :
  rep m a → linked a d = false →
  (∀ c, cell m' c = if decide (c = Next d) then None
                    else if decide (c = final (Head q) (elements a q)) then Some d
                    else cell m c) →
  (∀ x, prev m' x = if decide (x = d) then final (Head q) (elements a q) else prev m x) →
  (∀ q', last_cell m' q' = if decide (q' = q) then Next d else last_cell m q') →
  rep m' (Seqs.put q (elements a q ++ [d]) (Seqs.set_fresh d false a)).
Proof.
  intros R Hli Hc Hp Hl. rewrite not_linked in Hli.
  assert (Hfin : Next d ≠ final (Head q) (elements a q)).
  { intros E. apply (Hli q), (next_in_cells q). rewrite E. apply final_in. }
  assert (Hnd : ∀ q' x, x ∈ elements a q' → x ≠ d) by (intros q' x Hx ->; by apply Hli in Hx).
  assert (Hnc : ∀ q' c, c ∈ cells (Head q') (elements a q') → c ≠ Next d)
    by (intros q' c H1 ->; by apply next_in_cells, Hli in H1).
  apply (rep_put m _ a); cbn [elements fresh]; [done|..].
  - apply lseg_app; split; [|cbn; rewrite !Hc, Hp; by repeat case_decide].
    eapply lseg_end; [by apply R|by apply NoDup_cells, R|rewrite Hc; by repeat case_decide|..].
    + intros c Hin Hne. rewrite Hc. apply Hnc in Hin. by repeat case_decide.
    + intros x Hx%Hnd. rewrite Hp. by case_decide.
  - rewrite final_app, Hl. by case_decide.
  - apply list.NoDup_app. split_and!; [by eapply rep_nodup| |apply NoDup_singleton].
    intros x Hx ->%list_elem_of_singleton. by apply Hli in Hx.
  - intros x q' [Hx| ->%list_elem_of_singleton]%elem_of_app Hq'; [by eapply rep_disj|].
    by apply Hli in Hq'.
  - intros q' ?. rewrite Hl. by case_decide.
  - intros q' c Hne Hin. rewrite Hc. pose proof (other_cell _ _ _ _ _ R Hne Hin).
    apply Hnc in Hin. by repeat case_decide.
  - intros q' x Hne Hx%Hnd. rewrite Hp. by case_decide.
  - intros x Hx. cbn in Hx. destruct (decide (x = d)) as [->|Hxd].
    { by rewrite fn_lookup_insert in Hx. }
    rewrite fn_lookup_insert_ne in Hx by done.
    destruct (rep_fresh _ _ R x Hx) as [Hlx Hnx]. rewrite not_linked in Hlx.
    split_and!; [|done|].
    { intros [?|?%list_elem_of_singleton]%elem_of_app; [by apply (Hlx q)|done]. }
    rewrite Hc. repeat case_decide; simplify_eq; [|done].
    exfalso. apply (Hlx q), (next_in_cells q). rewrite H0. apply final_in.
Qed.

Lemma append_rep m a q d a' :
  rep m a → Seqs.append q d a = Some a' → ∃ m', Links.append q d m = Some m' ∧ rep m' a'.
Proof.
  unfold Seqs.append, Seqs.append_null. intros R H.
  destruct (fresh a d) eqn:Hfr, (linked a d) eqn:Hli; simplify_eq/=.
  destruct (rep_fresh _ _ R d Hfr) as [_ Hnull].
  eexists. split; [reflexivity|]. rewrite last_store, (rep_last _ _ R q).
  apply link_last with m; [done|done|intros; links..].
  exfalso. rewrite not_linked in Hli. apply (Hli q), (next_in_cells q). rewrite <-H0. apply final_in.
Qed.

Lemma append_null_rep m a q d a' :
  rep m a → Seqs.append_null q d a = Some a' →
  ∃ m', Links.append_null q d m = Some m' ∧ rep m' a'.
Proof.
  unfold Seqs.append_null. intros R H. destruct (linked a d) eqn:Hli; simplify_eq/=.
  eexists. split; [reflexivity|]. rewrite last_store, (rep_last _ _ R q).
  apply link_last with m; [done|done|intros; links..].
Qed.

Lemma reset_next_rep m a d a' :
  rep m a → Seqs.reset_next d a = Some a' →
  ∃ m', Links.reset_next d m = Some m' ∧ rep m' a'.
Proof.
  unfold Seqs.reset_next. intros R H. destruct (linked a d) eqn:Hli; simplify_eq/=.
  eexists. split; [reflexivity|]. rewrite not_linked in Hli.
  split; cbn [elements fresh]; try apply R.
  - intros q. eapply lseg_frame; [by apply R|intros c Hc; links|done].
    by apply next_in_cells, Hli in Hc.
  - intros x Hx. cbn in Hx. destruct (decide (x = d)) as [->|Hxd].
    + split; [by apply not_linked|links].
    + rewrite fn_lookup_insert_ne in Hx by done.
      destruct (rep_fresh _ _ R x Hx) as [Hlx Hnx]. split; [done|links].
Qed.

Lemma filter_remove (l1 l2 : list nat) d :
  NoDup (l1 ++ d :: l2) → filter (.≠ d) (l1 ++ d :: l2) = l1 ++ l2.
Proof.
  intros Hnd. rewrite list.filter_app, filter_cons_False by naive_solver.
  apply list.NoDup_app in Hnd as (_ & H12 & [Hd _]%list.NoDup_cons).
  f_equal; apply filter_all; intros x Hx ->; [|done].
  apply (H12 d Hx). mem.
Qed.

(** Unlinking [d], given what the new store reads. *)
Lemma link_out m m' p l1 d l2 :
  lseg m p (l1 ++ d :: l2) None → NoDup (cells p (l1 ++ d :: l2)) → NoDup (l1 ++ d :: l2) →
  (∀ c, c ≠ final p l1 → cell m' c = cell m c) →
  cell m' (final p l1) = cell m (Next d) →
  (∀ x, cell m (Next d) ≠ Some x → prev m' x = prev m x) →
  (∀ x, cell m (Next d) = Some x → prev m' x = final p l1) →
  lseg m' p (l1 ++ l2) None.
Proof.
  intros (Hl1 & Hl2)%lseg_app Hcnd Hnd Hc Hf Hp Hp'. destruct Hl2 as (_ & _ & Hl2).
  pose proof (lseg_first _ _ _ _ Hl2) as Hnext. rewrite Hnext in *.
  assert (H1 : NoDup (cells p l1)).
  { unfold cells in *. rewrite fmap_app in Hcnd.
    rewrite app_comm_cons in Hcnd. by apply list.NoDup_app in Hcnd as (? & _). }
  assert (H2 : ∀ c, c ∈ cells (Next d) l2 → c ≠ final p l1).
  { intros c Hin ->. pose proof (final_in p l1) as Hfi. unfold cells in *.
    rewrite fmap_app, app_comm_cons in Hcnd.
    apply list.NoDup_app in Hcnd as (_ & Hx & _). by eapply Hx. }
  apply list.NoDup_app in Hnd as (_ & H12 & [Hd Hnd2]%list.NoDup_cons).
  apply lseg_app. split.
  - eapply lseg_end; [done..|by intros; apply Hc|].
    intros x Hx. apply Hp. destruct l2; [done|]. cbn. intros [= ->]. apply (H12 x Hx). mem.
  - destruct l2 as [|n l2]; [done|]. cbn in *. split_and!; [done|by apply Hp'|].
    destruct Hl2 as (_ & _ & Hl2). apply list.NoDup_cons in Hnd2 as [Hn _].
    eapply lseg_frame; [done|intros c Hin; apply Hc, H2; right; apply Hin|].
    intros x Hx. apply Hp. intros [= ->]. done.
Qed.

Lemma unlink_eq q d m :
  Links.unlink q d m
  = Some (match cell m (Next d) with
          | Some n => Links.set_prev n (prev m d) (Links.store (prev m d) (Some n) m)
          | None => Links.set_last q (prev m d) (Links.store (prev m d) None m)
          end).
Proof.
  unfold Links.unlink. cbn zeta. rewrite cell_store, prev_store, decide_True by done.
  by destruct (cell m (Next d)).
Qed.

Lemma unlink_rep m a q d a' :
  rep m a → Seqs.unlink q d a = Some a' → ∃ m', Links.unlink q d m = Some m' ∧ rep m' a'.
Proof.
  unfold Seqs.unlink. intros R H. case_bool_decide as Hd; simplify_eq.
  apply list_elem_of_split in Hd as (l1 & l2 & Hl).
  pose proof (rep_nodup _ _ R q) as Hnd. pose proof (rep_seg _ _ R q) as Hseg.
  rewrite Hl in *. rewrite filter_remove by done.
  pose proof (proj1 (lseg_app _ _ _ _ _) Hseg) as (_ & _ & Hprev & Hl2).
  pose proof (lseg_first _ _ _ _ Hl2) as Hnext.
  assert (Hfin : final (Head q) l1 ≠ Next d).
  { intros E. apply (NoDup_cells q) in Hnd. unfold cells in Hnd.
    rewrite fmap_app, app_comm_cons in Hnd. apply list.NoDup_app in Hnd as (_ & Hx & _).
    apply (Hx (Next d)); [rewrite <-E; apply (final_in (Head q) l1)|left]. }
  assert (Hother : ∀ q' x, q' ≠ q → x ∈ elements a q' → x ∉ l1 ++ d :: l2).
  { intros q' x Hne Hx Hin. apply Hne. eapply rep_disj; eauto. by rewrite Hl. }
  rewrite unlink_eq, Hprev. eexists. split; [reflexivity|].
  apply (rep_put m _ a); [done|..].
  - apply (link_out m _ _ l1 d l2); [done|by apply NoDup_cells|done|..];
      destruct (cell m (Next d)) eqn:E; intros; links; congruence.
  - rewrite Hnext. destruct l2 as [|n l2]; cbn; links; [by rewrite app_nil_r|].
    rewrite (rep_last _ _ R q), Hl, !final_app. done.
  - rewrite <-(filter_remove l1 l2 d) by done. by apply list.NoDup_filter.
  - intros x q' Hx Hq'. eapply rep_disj; [done..|]. rewrite Hl. mem.
  - intros q' Hne. rewrite Hnext. destruct l2; cbn; links.
  - intros q' c Hne Hc. rewrite Hnext.
    assert (c ≠ final (Head q) l1).
    { intros ->. apply Hne. eapply cells_disj; [done..|]. rewrite Hl.
      apply cells_final_app. left. }
    destruct l2; cbn; links.
  - intros q' x Hne Hx. apply (Hother q' x Hne) in Hx. rewrite Hnext. destruct l2; cbn; links. mem.
  - intros x Hx. destruct (rep_fresh _ _ R x Hx) as [Hlx Hnx]. rewrite not_linked in Hlx.
    pose proof (Hlx q) as Hq. rewrite Hl in Hq. split_and!; [mem|done|].
    assert (Next x ≠ final (Head q) l1).
    { intros E. apply Hq, (next_in_cells q). rewrite E. apply cells_final_app. left. }
    rewrite Hnext. destruct l2; cbn; links.
Qed.

Lemma push_front_rep m a q d a' :
  rep m a → Seqs.push_front q d a = Some a' →
  ∃ m', Links.push_front q d m = Some m' ∧ rep m' a'.
Proof.
  unfold Seqs.push_front. intros R H. destruct (linked a d) eqn:Hli; simplify_eq/=.
  rewrite not_linked in Hli. pose proof (rep_seg _ _ R q) as Hseg.
  eexists. split; [reflexivity|]. rewrite (lseg_first _ _ _ _ Hseg).
  rewrite cell_store, decide_True by done.
  assert (Hnd : ∀ q' x, x ∈ elements a q' → x ≠ d) by (intros q' x Hx ->; by apply Hli in Hx).
  apply (rep_put m _ a); [done|..].
  - cbn [lseg]. destruct (elements a q) as [|n l] eqn:Hl; cbn [lseg hd_or] in *; [split_and!; links|].
    destruct Hseg as (H1 & H2 & H3). pose proof (rep_nodup _ _ R q) as Hn. rewrite Hl in Hn.
    apply list.NoDup_cons in Hn as [Hn _].
    assert (n ≠ d) by (apply (Hnd q); rewrite Hl; left).
    split_and!; try (links; fail).
    eapply lseg_frame; [done|..].
    + intros c Hc. assert (c ≠ Head q ∧ c ≠ Next d) as [??]; [|links].
      unfold cells in Hc. rewrite elem_of_cons, list_elem_of_fmap in Hc.
      destruct Hc as [->|(x & -> & Hx)]; [naive_solver|split; [done|]].
      intros [= ->]. apply (Hnd q d); [|done]. rewrite Hl. by right.
    + intros x Hx. assert (x ≠ d) by (apply (Hnd q); rewrite Hl; by right).
      assert (x ≠ n) by congruence. links.
  - destruct (elements a q) as [|n l] eqn:Hl; cbn; links.
    rewrite (rep_last _ _ R q), Hl. done.
  - constructor; [apply Hli|by eapply rep_nodup].
  - intros x q' [->|Hx]%elem_of_cons Hq'; [by apply Hli in Hq'|by eapply rep_disj].
  - intros q' Hne. destruct (elements a q); cbn; links.
  - intros q' c Hne Hc. assert (c ≠ Head q ∧ c ≠ Next d) as [??].
    { split; intros ->; [|by apply next_in_cells, Hli in Hc].
      unfold cells in Hc. rewrite elem_of_cons, list_elem_of_fmap in Hc. naive_solver. }
    destruct (elements a q); cbn; links.
  - intros q' x Hne Hx. assert (x ≠ d) by eauto.
    destruct (elements a q) as [|n l] eqn:Hl; cbn; links.
    exfalso. apply Hne. eapply rep_disj; [done..|]. rewrite Hl. left.
  - intros x Hx. cbn in Hx. destruct (decide (x = d)) as [->|Hxd].
    { by rewrite fn_lookup_insert in Hx. }
    rewrite fn_lookup_insert_ne in Hx by done.
    destruct (rep_fresh _ _ R x Hx) as [Hlx Hnx]. rewrite not_linked in Hlx.
    split_and!; [pose proof (Hlx q); mem|done|]. destruct (elements a q); cbn; links.
Qed.

(** ** Stores that read the same *)

Definition links_eq (m m' : links) : Prop :=
  (∀ c, cell m c = cell m' c) ∧ (∀ d, prev m d = prev m' d)
  ∧ (∀ q, last_cell m q = last_cell m' q).

Definition seqs_eq (a a' : seqs) : Prop :=
  (∀ q, elements a q = elements a' q) ∧ (∀ d, fresh a d = fresh a' d).

#[export] Instance links_eq_equiv : Equivalence links_eq.
Proof.
  unfold links_eq. split; [by intros m|by intros m m' (?&?&?)|].
  intros m1 m2 m3 (H1&H2&H3) (H4&H5&H6). split_and!; intros; etrans; eauto.
Qed.

#[export] Instance seqs_eq_equiv : Equivalence seqs_eq.
Proof.
  unfold seqs_eq. split; [by intros a|by intros a a' (?&?)|].
  intros a1 a2 a3 (H1&H2) (H3&H4). split_and!; intros; etrans; eauto.
Qed.

Lemma linked_eq a a' d : seqs_eq a a' → linked a d = linked a' d.
Proof. intros [H _]. unfold linked. by rewrite !H. Qed.

#[export] Instance rep_proper : Proper (links_eq ==> seqs_eq ==> iff) rep.
Proof.
  assert (∀ m m' a a', links_eq m m' → seqs_eq a a' → rep m a → rep m' a') as Himp.
  { intros m m' a a' (Hc & Hp & Hl) Ha R. pose proof Ha as [He Hf]. split.
    - intros q. rewrite <-He. eapply lseg_frame; [by apply R|by auto..].
    - intros q. rewrite <-He, <-Hl. apply R.
    - intros q. rewrite <-He. by eapply rep_nodup.
    - intros q q' d. rewrite <-!He. by eapply rep_disj.
    - intros d. rewrite <-Hf, <-Hc, <-(linked_eq a a') by done. by apply rep_fresh. }
  intros m m' Hm a a' Ha. split; apply Himp; done.
Qed.

(** ** Walking a list *)

Lemma old_lock_loop_spec m info o p l n :
  lseg m p l None → length l ≤ n →
  Links.old_lock_loop n info o m (hd_or l None)
  = Some (existsb (λ d, bool_decide (owner (info d) = o)) l).
Proof.
  revert p n. induction l as [|d l IH]; intros p [|n] Hl Hn; cbn in *; try done; try lia.
  destruct Hl as (_ & _ & Hl). case_bool_decide; [done|].
  rewrite (lseg_first _ _ _ _ Hl). cbn. eapply IH; [done|lia].
Qed.

(** ** [free_all_read_locks] *)

(** While the loop runs the cell that ends [read_wait] holds a stale pointer. *)
Definition close (m : links) : links := Links.store (last_cell m Read_wait) None m.

Lemma unlink_close m a d :
  rep (close m) a → d ∈ elements a Read →
  ∃ m1 m1', Links.unlink Read d m = Some m1 ∧ Links.unlink Read d (close m) = Some m1'
    ∧ links_eq m1' (close m1) ∧ last_cell m1 Read_wait = last_cell m Read_wait
    ∧ cell m1 (Next d) = cell (close m) (Next d).
Proof.
  intros R Hd. set (w := last_cell m Read_wait).
  pose proof (rep_last _ _ R Read_wait) as Hw. unfold close in Hw. rewrite last_store in Hw.
  apply list_elem_of_split in Hd as (l1 & l2 & Hl).
  pose proof (rep_seg _ _ R Read) as Hseg. rewrite Hl in Hseg.
  pose proof (proj1 (lseg_app _ _ _ _ _) Hseg) as (_ & _ & Hprev & _).
  pose proof (rep_nodup _ _ R Read) as Hnd. rewrite Hl in Hnd.
  assert (Hin : ∀ c, c ∈ cells (Head Read) (l1 ++ d :: l2) → c ≠ w).
  { intros c Hc. unfold w. rewrite Hw. rewrite <-Hl in Hc. eapply other_cell; [done| |done]. done. }
  assert (Hfi : final (Head Read) l1 ∈ cells (Head Read) (l1 ++ d :: l2))
    by (apply cells_final_app; left).
  assert (Next d ≠ w) by (apply Hin, next_in_cells; mem).
  assert (final (Head Read) l1 ≠ w) by (by apply Hin).
  assert (Hfd : Next d ≠ final (Head Read) l1).
  { intros E. apply (NoDup_cells Read) in Hnd. unfold cells in Hnd.
    rewrite fmap_app, app_comm_cons in Hnd. apply list.NoDup_app in Hnd as (_ & Hx & _).
    apply (Hx (Next d)); [rewrite E; apply (final_in (Head Read) l1)|left]. }
  unfold close in Hprev. rewrite prev_store in Hprev.
  rewrite !unlink_eq. unfold close. rewrite prev_store, Hprev, cell_store.
  fold w. rewrite (decide_False (P := Next d = w)) by done.
  do 2 eexists. split_and!; [reflexivity|reflexivity|..];
    destruct (cell m (Next d)) eqn:E; unfold links_eq; split_and?; intros; links.
Qed.

(** The lists after [d] moved from [read] to the end of [read_wait]. *)
Definition moved_back (d : nat) (a : seqs) : seqs :=
  Seqs.put Read_wait (elements a Read_wait ++ [d])
    (Seqs.put Read (filter (.≠ d) (elements a Read)) a).

Lemma elements_put q l a q' :
  elements (Seqs.put q l a) q' = if decide (q' = q) then l else elements a q'.
Proof. cbn. case_decide; subst; [apply fn_lookup_insert|by apply fn_lookup_insert_ne]. Qed.

Lemma move_back m a d :
  rep (close m) a → d ∈ elements a Read →
  ∃ m1 m2, Links.unlink Read d m = Some m1 ∧ Links.append Read_wait d m1 = Some m2
    ∧ rep (close m2) (moved_back d a) ∧ cell m2 (Next d) = cell (close m) (Next d).
Proof.
  intros R Hd. destruct (unlink_close m a d R Hd) as (m1 & m1' & H1 & H1' & Heq & Hw & Hc).
  destruct (unlink_rep _ _ Read d (Seqs.put Read (filter (.≠ d) (elements a Read)) a) R)
    as (m1'' & ? & R1); [unfold Seqs.unlink; by rewrite bool_decide_true|].
  simplify_eq. rewrite Heq in R1.
  assert (Hli : linked (Seqs.put Read (filter (.≠ d) (elements a Read)) a) d = false).
  { apply not_linked. intros q. rewrite elements_put. case_decide; subst.
    - rewrite list_elem_of_filter. naive_solver.
    - intros Hq. by pose proof (rep_disj _ _ R _ _ _ Hd Hq). }
  destruct (append_null_rep _ _ Read_wait d
    (Seqs.put Read_wait (elements a Read_wait ++ [d])
      (Seqs.set_fresh d false (Seqs.put Read (filter (.≠ d) (elements a Read)) a))) R1)
    as (m2 & Hm2 & R2).
  { unfold Seqs.append_null. rewrite Hli, elements_put. done. }
  exists m1. eexists. split_and!; [done|reflexivity|..].
  - injection Hm2 as <-. revert R2. apply rep_proper.
    + unfold close, links_eq. rewrite ?last_store, Hw. split_and!; intros; links.
    + split; [done|]. intros x. cbn. destruct (decide (x = d)) as [->|].
      * rewrite fn_lookup_insert. destruct (fresh a d) eqn:Hf; [|done].
        apply (rep_fresh _ _ R) in Hf as [Hf _].
        rewrite not_linked in Hf. by apply Hf in Hd.
      * by rewrite fn_lookup_insert_ne.
  - rewrite last_store, Hw, <-Hc. links. exfalso.
    pose proof (rep_last _ _ R Read_wait) as Hl. unfold close in Hl. rewrite last_store in Hl.
    assert (Next d ∈ cells (Head Read) (elements a Read)) as Hn by by apply next_in_cells.
    apply (other_cell _ _ Read_wait Read (Next d) R); [done|done|]. congruence.
Qed.

(** Scalars, request attributes and log of two locks. *)
Definition same_regs {P Q} (s : THR_LOCK P) (t : THR_LOCK Q) : Prop :=
  datas s = datas t ∧ read_no_write_count s = read_no_write_count t
  ∧ write_lock_count s = write_lock_count t ∧ log s = log t.

Lemma same_regs_refl {P} (s : THR_LOCK P) : same_regs s s.
Proof. by split_and!. Qed.

Lemma same_regs_set_data {P Q} (s : THR_LOCK P) (t : THR_LOCK Q) d x :
  same_regs s t → same_regs (set_data d x s) (set_data d x t).
Proof. intros (H1 & H2 & H3 & H4). unfold same_regs. cbn. by rewrite H1, H2, H3, H4. Qed.

Lemma same_regs_emit {P Q} (s : THR_LOCK P) (t : THR_LOCK Q) e :
  same_regs s t → same_regs (emit e s) (emit e t).
Proof. intros (H1 & H2 & H3 & H4). unfold same_regs. cbn. by rewrite H1, H2, H3, H4. Qed.

Lemma same_regs_mark_free {P Q} (s : THR_LOCK P) (t : THR_LOCK Q) d :
  same_regs s t → same_regs (mark_free d s) (mark_free d t).
Proof.
  intros H. apply same_regs_emit. unfold set_cond. pose proof H as (E & _). rewrite E.
  by apply same_regs_set_data.
Qed.

Lemma same_regs_kill {P Q} (s : THR_LOCK P) (t : THR_LOCK Q) d :
  same_regs s t → same_regs (kill d s) (kill d t).
Proof.
  intros H. apply same_regs_mark_free. unfold set_type. pose proof H as (E & _). rewrite E.
  by apply same_regs_set_data.
Qed.

Lemma same_regs_release {P Q} (s : THR_LOCK P) (t : THR_LOCK Q) d :
  same_regs s t → same_regs (release_reader s d) (release_reader t d).
Proof.
  intros H. apply same_regs_mark_free. pose proof H as (H1 & H2 & H3 & H4). rewrite H1.
  case_bool_decide; [|done]. unfold same_regs. cbn. by rewrite H2.
Qed.

Lemma foldl_kill_regs {P Q} l (s : THR_LOCK P) (t : THR_LOCK Q) :
  same_regs s t →
  same_regs (foldl (λ s d, kill d s) s l) (foldl (λ s d, kill d s) t l).
Proof. revert s t. induction l; intros s t H; cbn; auto using same_regs_kill. Qed.

Lemma foldl_release_regs {P Q} l (s : THR_LOCK P) (t : THR_LOCK Q) :
  same_regs s t → same_regs (foldl release_reader s l) (foldl release_reader t l).
Proof. revert s t. induction l; intros s t H; cbn; auto using same_regs_release. Qed.

Lemma lists_release {P} (s : THR_LOCK P) d : lists (release_reader s d) = lists s.
Proof. unfold release_reader. by case_bool_decide. Qed.

Lemma lists_foldl_release {P} l (s : THR_LOCK P) :
  lists (foldl release_reader s l) = lists s.
Proof. revert s. induction l as [|d l IH]; intros s; cbn; [done|]. by rewrite IH, lists_release. Qed.

Lemma lists_foldl_kill {P} l (s : THR_LOCK P) :
  lists (foldl (λ s d, kill d s) s l) = lists s.
Proof. revert s. induction l as [|d l IH]; intros s; cbn; [done|]. by rewrite IH. Qed.

Lemma type_release {P} (s : THR_LOCK P) d x :
  type (datas (release_reader s d) x) = type (datas s x).
Proof.
  unfold release_reader, mark_free, set_cond, emit, set_data.
  case_bool_decide; cbn; (destruct (decide (x = d)) as [->|];
    [by rewrite fn_lookup_insert|by rewrite fn_lookup_insert_ne]).
Qed.

Lemma close_next m a d :
  rep (close m) a → d ∈ elements a Read → cell m (Next d) = cell (close m) (Next d).
Proof.
  intros R Hd. unfold close. rewrite cell_store. case_decide as E; [|done].
  pose proof (rep_last _ _ R Read_wait) as Hl. unfold close in Hl. rewrite last_store in Hl.
  exfalso. apply (other_cell _ _ Read_wait Read (Next d) R); [done|by apply next_in_cells|].
  congruence.
Qed.

(** One iteration: the request [d] stays in [read] or goes back. *)
Lemma free_loop_step (uci b : bool) s a R d rest :
  b = (type (datas s d) =? TL_READ_NO_INSERT)%tl && uci →
  rep (close (lists s)) a → elements a Read = R ++ d :: rest →
  ∃ s1 a1,
    (if b then s ← on_lists (Links.unlink Read d) s; on_lists (Links.append Read_wait d) s
     else Some (release_reader s d)) = Some s1
    ∧ rep (close (lists s1)) a1 ∧ cell (lists s1) (Next d) = hd_or rest None
    ∧ elements a1 Read = (R ++ if b then [] else [d]) ++ rest
    ∧ elements a1 Read_wait = elements a Read_wait ++ (if b then [d] else [])
    ∧ (∀ q, q ≠ Read → q ≠ Read_wait → elements a1 q = elements a q)
    ∧ (∀ x, fresh a1 x = fresh a x)
    ∧ same_regs s1 (if b then s else release_reader s d).
Proof.
  intros Hb Rp HR.
  assert (Hd : d ∈ elements a Read) by (rewrite HR; mem).
  assert (Hnext : cell (close (lists s)) (Next d) = hd_or rest None).
  { pose proof (rep_seg _ _ Rp Read) as Hs. rewrite HR in Hs.
    apply lseg_app in Hs as (_ & _ & _ & Hs). by apply lseg_first in Hs. }
  destruct b.
  - destruct (move_back _ _ _ Rp Hd) as (m1 & m2 & H1 & H2 & R2 & Hc).
    unfold on_lists. rewrite H1. cbn [mbind option_bind lists]. rewrite H2. cbn [mbind option_bind].
    do 2 eexists. split_and!; [reflexivity|exact R2|cbn [lists]; congruence|..].
    + unfold moved_back. rewrite !elements_put, decide_False, decide_True, HR by done.
      pose proof (rep_nodup _ _ Rp Read) as Hnd. rewrite HR in Hnd.
      rewrite filter_remove by done. by rewrite app_nil_r.
    + unfold moved_back. by rewrite !elements_put, decide_True.
    + intros q H3 H4. unfold moved_back. by rewrite !elements_put, !decide_False.
    + done.
    + by split_and!.
  - exists (release_reader s d), a. rewrite lists_release, (close_next _ _ _ Rp Hd), HR.
    rewrite app_nil_r, <-app_assoc. by split_and!.
Qed.

Lemma free_loop_spec uci (back : nat → bool) n s a R d rest :
  (∀ x, back x = (type (datas s x) =? TL_READ_NO_INSERT)%tl && uci) →
  rep (close (lists s)) a → elements a Read = R ++ d :: rest → length (d :: rest) ≤ n →
  ∃ s' a', Links.free_loop n uci d s = Some s' ∧ rep (close (lists s')) a'
    ∧ elements a' Read = R ++ filter (λ x, negb (back x)) (d :: rest)
    ∧ elements a' Read_wait = elements a Read_wait ++ filter back (d :: rest)
    ∧ (∀ q, q ≠ Read → q ≠ Read_wait → elements a' q = elements a q)
    ∧ (∀ x, fresh a' x = fresh a x)
    ∧ same_regs s' (foldl release_reader s (filter (λ x, negb (back x)) (d :: rest))).
Proof.
  revert n s a R d. induction rest as [|d' rest IH]; intros [|n] s a R d Hback Rp HR Hn;
    cbn [length] in Hn; try lia;
    destruct (free_loop_step uci (back d) s a R d _ (Hback d) Rp HR)
      as (s1 & a1 & H1 & R1 & Hc & H3 & H4 & H5 & H6 & H7);
    cbn [Links.free_loop]; rewrite <-Hback, H1; cbn [mbind option_bind]; rewrite Hc; cbn [hd_or].
  - exists s1, a1. rewrite !filter_cons, !filter_nil in *. rewrite H3, H4.
    split_and!; [done|done| | |done|done|]; destruct (back d); cbn; rewrite ?app_nil_r; done.
  - assert (Hty : ∀ x, type (datas s1 x) = type (datas s x)).
    { intros x. destruct H7 as (-> & _). destruct (back d); [done|apply type_release]. }
    destruct (IH n s1 a1 (R ++ if back d then [] else [d]) d')
      as (s' & a' & Hl & R' & G3 & G4 & G5 & G6 & G7); [|done|done|cbn; lia|].
    { intros x. by rewrite Hty. }
    exists s', a'. rewrite H4 in G4.
    rewrite (filter_cons _ d), (filter_cons back d).
    split_and!; [done|done|rewrite G3|rewrite G4| | |]; try by (destruct (back d); cbn; rewrite <-?app_assoc).
    + intros q Hq1 Hq2. by rewrite G5, H5.
    + intros x. by rewrite G6.
    + destruct G7 as (G71 & G72 & G73 & G74).
      pose proof (foldl_release_regs (filter (λ x, negb (back x)) (d' :: rest)) _ _ H7)
        as (K1 & K2 & K3 & K4).
      unfold same_regs. rewrite G71, G72, G73, G74. destruct (back d); cbn; by split_and!.
Qed.

(** Emptying a list. *)
Lemma clear_rep m a q :
  rep m a → rep (Links.store (Head q) None (Links.set_last q (Head q) m)) (Seqs.put q [] a).
Proof.
  intros R. assert (Hne : ∀ q' c, q' ≠ q → c ∈ cells (Head q') (elements a q') → c ≠ Head q).
  { intros q' c Hq Hc ->. unfold cells in Hc. rewrite elem_of_cons, list_elem_of_fmap in Hc.
    naive_solver. }
  apply (rep_put m _ a); [done|cbn; links|cbn; links|constructor|..].
  - intros x q' Hx. by apply not_elem_of_nil in Hx.
  - intros. links.
  - intros q' c Hq Hc. apply Hne in Hc; [|done]. links.
  - done.
  - intros x Hx. destruct (rep_fresh _ _ R x Hx) as [Hl Hc]. rewrite not_linked in Hl.
    split_and!; [apply not_elem_of_nil|done|links].
Qed.

(** Hanging a chain of unlinked requests at the end of a list. *)
Lemma link_segment m a q d rest :
  rep m a → (∀ x, x ∈ d :: rest → linked a x = false ∧ fresh a x = false) →
  NoDup (d :: rest) → lseg m (Next d) rest None →
  rep (Links.set_last q (final (Next d) rest)
         (Links.set_prev d (final (Head q) (elements a q))
            (Links.store (final (Head q) (elements a q)) (Some d) m)))
      (Seqs.put q (elements a q ++ d :: rest) a).
Proof.
  intros R Hu Hnd Hs.
  assert (Hu' : ∀ q' x, x ∈ elements a q' → x ∉ d :: rest).
  { intros q' x Hx [Hl _]%Hu. rewrite not_linked in Hl. by apply Hl in Hx. }
  assert (Hdc : ∀ x, x ∈ d :: rest → Next x ≠ final (Head q) (elements a q)).
  { intros x Hx E. apply (Hu' q x); [|done]. apply (next_in_cells q). rewrite E. apply final_in. }
  apply list.NoDup_cons in Hnd as Hd. destruct Hd as [Hd Hnd'].
  apply (rep_put m _ a); [done|..].
  - apply lseg_app. split; [|cbn [lseg]; split_and!; [links..|]].
    + eapply lseg_end; [by apply R|by apply NoDup_cells, R|links|intros; links|].
      intros x Hx. apply Hu' in Hx. links. mem.
    + eapply lseg_frame; [exact Hs| |intros x Hx; links].
      intros c Hc. assert (c ≠ final (Head q) (elements a q)) by
        (unfold cells in Hc; rewrite elem_of_cons, list_elem_of_fmap in Hc;
         destruct Hc as [->|(x & -> & Hx)]; apply Hdc; mem). links.
  - rewrite final_app. links.
  - apply list.NoDup_app. split_and!; [apply R| |done]. intros x Hx. by apply (Hu' q).
  - intros x q' [Hx|Hx]%elem_of_app Hq'; [by eapply rep_disj|by apply Hu' in Hq'].
  - intros. links.
  - intros q' c Hq Hc. pose proof (other_cell _ _ _ _ _ R Hq Hc). links.
  - intros q' x Hq Hx. apply Hu' in Hx. links. mem.
  - intros x Hx. destruct (rep_fresh _ _ R x Hx) as [Hl Hc]. rewrite not_linked in Hl.
    split_and!; [|done|].
    + intros [Hin|Hin]%elem_of_app; [by apply Hl in Hin|]. apply Hu in Hin as [_ ?].
      cbn in Hx. congruence.
    + links. exfalso. apply (Hl q), (next_in_cells q). rewrite H. apply final_in.
Qed.

Lemma splice_rep m a d rest :
  rep m a → elements a Read_wait = d :: rest →
  ∃ m1, Links.splice d m = Some m1
    ∧ rep (close m1)
        (Seqs.put Read (elements a Read ++ d :: rest) (Seqs.put Read_wait [] a)).
Proof.
  intros R Hw. unfold Links.splice. rewrite last_store, (rep_last _ _ R Read).
  rewrite last_set_prev, last_store, (rep_last _ _ R Read_wait), Hw. cbn [final].
  eexists. split; [reflexivity|].
  pose proof (clear_rep _ _ Read_wait R) as R0.
  pose proof (rep_seg _ _ R Read_wait) as Hs. rewrite Hw in Hs. destruct Hs as (_ & _ & Hs).
  pose proof (rep_nodup _ _ R Read_wait) as Hnd. rewrite Hw in Hnd.
  eapply rep_proper; [| |apply (link_segment _ _ Read d rest R0)].
  - rewrite elements_put, decide_False by done. unfold close.
    rewrite last_set_last, decide_True by done. unfold links_eq. split_and!; intros; links.
    pose proof (final_in (Head Read) (elements a Read)) as Hf. rewrite <-H0 in Hf.
    unfold cells in Hf. rewrite elem_of_cons, list_elem_of_fmap in Hf. naive_solver.
  - by rewrite elements_put, decide_False.
  - intros x Hx. rewrite <-Hw in Hx. split.
    + apply not_linked. intros q. rewrite elements_put. case_decide; [apply not_elem_of_nil|].
      intros Hq. by pose proof (rep_disj _ _ R _ _ _ Hx Hq).
    + cbn. destruct (fresh a x) eqn:Hf; [|done]. apply (rep_fresh _ _ R) in Hf as [Hf _].
      rewrite not_linked in Hf. by apply Hf in Hx.
  - done.
  - eapply lseg_frame; [exact Hs| |done]. intros c Hc. links.
    unfold cells in Hc. rewrite elem_of_cons, list_elem_of_fmap in Hc. naive_solver.
Qed.

(** ** Simulation of locks *)

(** [n] bounds the numbers of the requests, hence the length of the lists. *)
Record sim (n : nat) (s : THR_LOCK links) (t : THR_LOCK seqs) : Prop := {
  sim_rep : rep (lists s) (lists t);
  sim_regs : same_regs s t;
  sim_bound q d : d ∈ elements (lists t) q → d < n;
}.

(** Where the specification is defined, the implementation agrees. *)
Definition refines {A B} (R : A → B → Prop) (x : option A) (y : option B) : Prop :=
  ∀ b, y = Some b → ∃ a, x = Some a ∧ R a b.

Lemma refines_ret {A B} (R : A → B → Prop) a b : R a b → refines R (Some a) (Some b).
Proof. intros H ? [= <-]. eauto. Qed.

Lemma refines_refl {A} (x : option A) : refines eq x x.
Proof. intros b ->. eauto. Qed.

Lemma refines_bind {A B C D} (R : A → B → Prop) (Q : C → D → Prop) x y f g :
  refines R x y → (∀ a b, R a b → refines Q (f a) (g b)) →
  refines Q (x ≫= f) (y ≫= g).
Proof.
  intros H1 H2 c Hc. apply bind_Some in Hc as (b & Hb & Hg).
  destruct (H1 b Hb) as (a & -> & Hab). by apply (H2 a b).
Qed.

Lemma bounded_length (l : list nat) n : NoDup l → (∀ d, d ∈ l → d < n) → length l ≤ n.
Proof.
  intros Hnd Hb. rewrite <-(length_seq n 0). apply submseteq_length, NoDup_submseteq; [done|].
  intros x Hx%Hb. apply elem_of_seq. lia.
Qed.

Lemma sim_length n s t q : sim n s t → length (elements (lists t) q) ≤ n.
Proof. intros []. apply bounded_length; eauto using rep_nodup. Qed.

Lemma sim_first n s t q :
  sim n s t → Links.first q (lists s) = Seqs.first q (lists t).
Proof.
  intros [R _ _]. unfold Links.first, Seqs.first. rewrite (lseg_first _ _ _ _ (rep_seg _ _ R q)).
  by destruct (elements (lists t) q).
Qed.

(** An operation on the lists alone. *)
Lemma sim_on_lists n s t f g :
  sim n s t →
  (∀ a', g (lists t) = Some a' →
     ∃ m', f (lists s) = Some m' ∧ rep m' a' ∧ ∀ q d, d ∈ elements a' q → d < n) →
  refines (sim n) (on_lists f s) (on_lists g t).
Proof.
  intros [R G B] H t' Ht. unfold on_lists in *.
  destruct (g (lists t)) as [a'|] eqn:E; [|done]. destruct (H a' eq_refl) as (m' & -> & R' & B').
  simplify_eq/=. eexists. split; [reflexivity|]. by split.
Qed.

Lemma elem_put_app (q : lock_list) (l : list nat) (a : seqs) (n : nat) :
  (∀ q x, x ∈ elements a q → x < n) → (∀ x, x ∈ l → x < n) →
  ∀ q' x, x ∈ elements (Seqs.put q l a) q' → x < n.
Proof. intros H1 H2 q' x. rewrite elements_put. case_decide; eauto. Qed.

Section list_ops.
Context (n : nat) (s : THR_LOCK links) (t : THR_LOCK seqs) (Hst : sim n s t).

Lemma sim_reset d : refines (sim n) (on_lists (Links.reset_next d) s) (on_lists (Seqs.reset_next d) t).
Proof.
  apply sim_on_lists; [done|]. intros a' Ha. pose proof Hst as [R _ B].
  destruct (reset_next_rep _ _ _ _ R Ha) as (m' & ? & ?). exists m'. split_and!; [done..|].
  unfold Seqs.reset_next in Ha. destruct (linked _ d); [done|]. by injection Ha as <-.
Qed.

Lemma sim_append_null q d :
  d < n →
  refines (sim n) (on_lists (Links.append_null q d) s) (on_lists (Seqs.append_null q d) t).
Proof.
  intros Hd. apply sim_on_lists; [done|]. intros a' Ha. pose proof Hst as [R _ B].
  destruct (append_null_rep _ _ _ _ _ R Ha) as (m' & ? & ?). exists m'. split_and!; [done..|].
  unfold Seqs.append_null in Ha. destruct (linked _ d); [done|]. injection Ha as <-.
  apply elem_put_app; [done|]. intros x [Hx| ->%list_elem_of_singleton]%elem_of_app; eauto.
Qed.

Lemma sim_append q d :
  d < n → refines (sim n) (on_lists (Links.append q d) s) (on_lists (Seqs.append q d) t).
Proof.
  intros Hd. apply sim_on_lists; [done|]. intros a' Ha. pose proof Hst as [R _ B].
  destruct (append_rep _ _ _ _ _ R Ha) as (m' & ? & ?). exists m'. split_and!; [done..|].
  unfold Seqs.append, Seqs.append_null in Ha.
  destruct (fresh (lists t) d), (linked (lists t) d); try done. injection Ha as <-.
  apply elem_put_app; [done|]. intros x [Hx| ->%list_elem_of_singleton]%elem_of_app; eauto.
Qed.

Lemma sim_push_front q d :
  d < n →
  refines (sim n) (on_lists (Links.push_front q d) s) (on_lists (Seqs.push_front q d) t).
Proof.
  intros Hd. apply sim_on_lists; [done|]. intros a' Ha. pose proof Hst as [R _ B].
  destruct (push_front_rep _ _ _ _ _ R Ha) as (m' & ? & ?). exists m'. split_and!; [done..|].
  unfold Seqs.push_front in Ha. destruct (linked _ d); [done|]. injection Ha as <-.
  apply elem_put_app; [done|]. intros x [->|Hx]%elem_of_cons; eauto.
Qed.

Lemma sim_unlink q d :
  refines (sim n) (on_lists (Links.unlink q d) s) (on_lists (Seqs.unlink q d) t).
Proof.
  apply sim_on_lists; [done|]. intros a' Ha. pose proof Hst as [R _ B].
  destruct (unlink_rep _ _ _ _ _ R Ha) as (m' & ? & ?). exists m'. split_and!; [done..|].
  unfold Seqs.unlink in Ha. case_bool_decide; [|done]. injection Ha as <-.
  apply elem_put_app; [done|]. intros x [_ Hx]%list_elem_of_filter. eauto.
Qed.

Lemma sim_has_old_lock q o :
  Links.has_old_lock n (datas s) q o (lists s) = Seqs.has_old_lock n (datas t) q o (lists t).
Proof.
  unfold Links.has_old_lock, Seqs.has_old_lock. pose proof (sim_length n s t q Hst) as Hlen.
  destruct Hst as [R (E & _) _]. rewrite E. unfold Links.first.
  pose proof (rep_seg _ _ R q) as Hs. rewrite (lseg_first _ _ _ _ Hs).
  by eapply old_lock_loop_spec.
Qed.

End list_ops.
