(* ===== verification/ThrSim.v ===== *)
(** * Table locks: the scheduler on pointers simulates the scheduler on sequences

    The loops that walk a whole list, then, operation by operation, every
    routine of the scheduler: if the specification of the lists gives a result,
    the pointer code gives the same result, scalars, log and answer included. *)

From stdpp Require Import functions.
From S2P Require Import Prelude ThrLock ThrLinks ThrSpec ThrRefine.

(** ** Loops over a list *)

Lemma on_lists_Some {P} (f : P → option P) (s : THR_LOCK P) p :
  f (lists s) = Some p →
  on_lists f s = Some (mk_lock p (datas s) (read_no_write_count s) (write_lock_count s) (log s)).
Proof. unfold on_lists. by intros ->. Qed.

Section loops.
Context (n : nat) (s : THR_LOCK links) (t : THR_LOCK seqs) (Hst : sim n s t).

Lemma sim_free_all uci :
  refines (sim n) (Links.free_all_read_locks n uci s) (Seqs.free_all_read_locks n uci t).
Proof.
  unfold Links.free_all_read_locks, Seqs.free_all_read_locks.
  pose proof Hst as [R G B]. pose proof (sim_length n s t Read_wait Hst) as Hlen.
  pose proof (lseg_first _ _ _ _ (rep_seg _ _ R Read_wait)) as Hfst.
  change (cell (lists s) (Head Read_wait)) with (Links.first Read_wait (lists s)) in Hfst.
  destruct (elements (lists t) Read_wait) as [|d rest] eqn:Hw; [done|].
  rewrite Hfst. cbn [hd_or mbind option_bind]. rewrite bool_decide_false by done.
  destruct (splice_rep _ _ d rest R Hw) as (m1 & Hm1 & R1).
  rewrite (on_lists_Some _ _ _ Hm1). cbn [mbind option_bind].
  edestruct (free_loop_spec uci (Seqs.held_back uci t) n
    (mk_lock m1 (datas s) (read_no_write_count s) (write_lock_count s) (log s)))
    as (s' & a' & -> & R' & E1 & E2 & E3 & E4 & E5);
    [|exact R1|by rewrite elements_put, decide_True|done|].
  { intros x. unfold Seqs.held_back. cbn [datas]. by destruct G as (-> & _). }
  rewrite !elements_put in E2. cbn [decide mbind option_bind app] in *.
  set (freed := filter _ (d :: rest)) in *. set (back := filter _ (d :: rest)) in E2 |- *.
  assert (E6 : same_regs s' (foldl release_reader t freed)).
  { unfold same_regs. destruct E5 as (-> & -> & -> & ->). by apply foldl_release_regs. }
  unfold on_lists. rewrite lists_foldl_release. cbn [mbind option_bind lists]. fold (close (lists s')).
  assert (Hf : Links.first Read_wait (close (lists s')) = head back).
  { unfold Links.first. rewrite (lseg_first _ _ _ _ (rep_seg _ _ R' Read_wait)).
    rewrite E2. cbn. by destruct back. }
  rewrite Hf. apply refines_ret.
  assert (S0 : sim n
     (mk_lock (close (lists s')) (datas s') (read_no_write_count s') (write_lock_count s') (log s'))
     (mk_lock (Seqs.put Read_wait back (Seqs.put Read (elements (lists t) Read ++ freed) (lists t)))
        (datas (foldl release_reader t freed)) (read_no_write_count (foldl release_reader t freed))
        (write_lock_count (foldl release_reader t freed)) (log (foldl release_reader t freed)))).
  { split; cbn [lists].
    - revert R'. apply rep_proper; [done|]. split; [|by intros; rewrite E4].
      by intros []; rewrite ?E1, ?E2, ?E3 by done; rewrite !elements_put.
    - destruct E6 as (?&?&?&?). by split_and!.
    - apply elem_put_app; [apply elem_put_app; [done|]|]; intros x Hx.
      + apply elem_of_app in Hx as [Hx|[_ Hx]%list_elem_of_filter]; [by eauto|].
        rewrite <-Hw in Hx. eauto.
      + apply list_elem_of_filter in Hx as [_ Hx]. rewrite <-Hw in Hx. eauto. }
  destruct back; cbn [head]; [rewrite bool_decide_false by (by intros [? ?])|by rewrite bool_decide_true].
  destruct S0 as [Q1 (?&?&?&?) Q3]. by split.
Qed.

Lemma abort_loop_spec p l s0 k :
  lseg (lists s0) p l None → length l ≤ k →
  Links.abort_loop k (hd_or l None) s0 = Some (foldl (λ s d, kill d s) s0 l).
Proof.
  revert p s0 k. induction l as [|d l IH]; intros p s0 [|k] Hl Hk; cbn in *; try done; try lia.
  destruct Hl as (_ & _ & Hl). rewrite (lseg_first _ _ _ _ Hl). eapply IH; [done|lia].
Qed.

Lemma sim_abort_list q :
  refines (sim n) (Links.abort_list n q s) (Seqs.abort_list n q t).
Proof.
  unfold Links.abort_list, Seqs.abort_list. pose proof Hst as [R G B].
  pose proof (rep_seg _ _ R q) as Hs. unfold Links.first. rewrite (lseg_first _ _ _ _ Hs).
  erewrite abort_loop_spec; [|done|by eapply sim_length]. cbn [mbind option_bind].
  unfold on_lists. rewrite !lists_foldl_kill. apply refines_ret. split; cbn [lists].
  - by apply clear_rep.
  - destruct (foldl_kill_regs (elements (lists t) q) s t G) as (?&?&?&?). by split_and!.
  - apply elem_put_app; [done|]. intros x Hx. by apply not_elem_of_nil in Hx.
Qed.

End loops.

(** A request never refers to itself. *)
Lemma prev_not_next m a q d : rep m a → d ∈ elements a q → prev m d ≠ Next d.
Proof.
  intros R Hd. pose proof (rep_nodup _ _ R q) as Hnd.
  apply list_elem_of_split in Hd as (l1 & l2 & Hl).
  pose proof (rep_seg _ _ R q) as Hs. rewrite Hl in *.
  apply lseg_app in Hs as (_ & _ & -> & _). intros E.
  apply (NoDup_cells q) in Hnd. unfold cells in Hnd.
  rewrite fmap_app, app_comm_cons in Hnd. apply list.NoDup_app in Hnd as (_ & Hx & _).
  apply (Hx (Next d)); [rewrite <-E; apply (final_in (Head q) l1)|left].
Qed.

(** One iteration of [thr_abort_locks_for_thread]. *)
Lemma abort_thread_step q s0 a R d rest (b : bool) :
  rep (lists s0) a → elements a q = R ++ d :: rest →
  ∃ s1, (if b then on_lists (Links.unlink q d) (kill d s0) else Some s0) = Some s1
    ∧ rep (lists s1) (Seqs.put q ((R ++ if b then [] else [d]) ++ rest) a)
    ∧ cell (lists s1) (Next d) = hd_or rest None
    ∧ same_regs s1 (if b then kill d s0 else s0).
Proof.
  intros Rp HR. pose proof (rep_nodup _ _ Rp q) as Hnd. rewrite HR in Hnd.
  assert (Hd : d ∈ elements a q) by (rewrite HR; mem).
  pose proof (rep_seg _ _ Rp q) as Hs. rewrite HR in Hs.
  apply lseg_app in Hs as (_ & _ & _ & Hs). apply lseg_first in Hs.
  destruct b.
  - destruct (unlink_rep _ _ q d (Seqs.put q (filter (.≠ d) (elements a q)) a) Rp)
      as (m1 & Hm1 & R1); [unfold Seqs.unlink; by rewrite bool_decide_true|].
    rewrite HR, filter_remove in R1 by done.
    eexists. split_and!; [by apply on_lists_Some|cbn [lists]; by rewrite app_nil_r| |by split_and!].
    cbn [lists]. pose proof (prev_not_next _ _ _ _ Rp Hd). rewrite unlink_eq in Hm1.
    injection Hm1 as <-. rewrite <-Hs. destruct (cell (lists s0) (Next d)) eqn:E; links.
  - exists s0. split_and!; [done| |done|apply same_regs_refl]. revert Rp. apply rep_proper; [done|].
    rewrite <-app_assoc. cbn [app]. rewrite <-HR. split; [|done].
    intros q'. rewrite elements_put. case_decide; by subst.
Qed.

Lemma owner_kill {P} (s : THR_LOCK P) d x : owner (datas (kill d s) x) = owner (datas s x).
Proof.
  unfold kill, mark_free, set_cond, set_type, emit, set_data. cbn.
  destruct (decide (x = d)) as [->|]; [by rewrite !fn_lookup_insert|by rewrite !fn_lookup_insert_ne].
Qed.

Lemma abort_thread_loop_spec mine (hit : nat → bool) q k R todo found s0 a :
  (∀ x, hit x = mine (owner (datas s0 x))) →
  rep (lists s0) a → elements a q = R ++ todo → length todo ≤ k →
  ∃ s', Links.abort_thread_loop k mine q (hd_or todo None) (found, s0)
        = Some (found || existsb hit todo, s')
    ∧ rep (lists s') (Seqs.put q (R ++ filter (λ x, negb (hit x)) todo) a)
    ∧ same_regs s' (foldl (λ s d, kill d s) s0 (filter hit todo)).
Proof.
  revert k R found s0 a. induction todo as [|d rest IH]; intros [|k] R found s0 a Hh Rp HR Hk;
    cbn [length] in Hk; try lia.
  1-2: exists s0; cbn; rewrite orb_false_r; split_and!; [done| |apply same_regs_refl];
    revert Rp; apply rep_proper; [done|]; split; [|done]; rewrite <-HR; intros q';
    rewrite elements_put; case_decide; by subst.
  destruct (abort_thread_step q s0 a R d rest (hit d) Rp HR) as (s1 & H1 & R1 & Hc & G1).
  cbn [Links.abort_thread_loop hd_or]. rewrite <-Hh.
  replace (if hit d then _ else _) with (Some (found || hit d, s1)).
  2:{ destruct (hit d); [cbn [mbind option_bind]|by injection H1 as ->; rewrite orb_false_r].
      rewrite H1. cbn. by rewrite orb_true_r. }
  cbn [mbind option_bind snd]. rewrite Hc.
  destruct (IH k (R ++ if hit d then [] else [d]) (found || hit d) s1
    (Seqs.put q ((R ++ if hit d then [] else [d]) ++ rest) a)) as (s' & -> & R' & G');
    [|done|by rewrite elements_put, decide_True|lia|].
  { intros x. rewrite Hh. destruct G1 as (-> & _). destruct (hit d); [|done]. by rewrite owner_kill. }
  exists s'. cbn [existsb]. rewrite orb_assoc. split_and!; [done|..].
  - revert R'. apply rep_proper; [done|]. split; [|done].
    intros q'. rewrite !elements_put. case_decide; [|done].
    rewrite filter_cons. destruct (hit d); cbn; by rewrite ?app_nil_r, <-?app_assoc.
  - pose proof (foldl_kill_regs (filter hit rest) _ _ G1) as (K1 & K2 & K3 & K4).
    destruct G' as (G'1 & G'2 & G'3 & G'4). unfold same_regs.
    rewrite G'1, G'2, G'3, G'4, filter_cons. destruct (hit d); cbn; by split_and!.
Qed.

Definition sim_pair {A} (n : nat) (x : A * THR_LOCK links) (y : A * THR_LOCK seqs) : Prop :=
  x.1 = y.1 ∧ sim n x.2 y.2.

Lemma sim_abort_thread n s t q mine found :
  sim n s t →
  refines (sim_pair n) (Links.abort_thread_list n mine q (found, s))
    (Seqs.abort_thread_list n mine q (found, t)).
Proof.
  intros Hst. unfold Links.abort_thread_list, Seqs.abort_thread_list.
  pose proof Hst as [R G B]. pose proof (rep_seg _ _ R q) as Hs.
  cbn [snd]. unfold Links.first. rewrite (lseg_first _ _ _ _ Hs).
  destruct (abort_thread_loop_spec mine (λ d, mine (owner (datas t d))) q n []
    (elements (lists t) q) found s (lists t)) as (s' & -> & R' & G'); [|done|done|by eapply sim_length|].
  { intros x. by destruct G as (-> & _). }
  unfold on_lists. cbn [mbind option_bind]. rewrite lists_foldl_kill. apply refines_ret.
  split; [done|]. cbn [snd]. split; cbn [lists].
  - done.
  - pose proof (foldl_kill_regs (filter (λ d, mine (owner (datas t d))) (elements (lists t) q)) _ _ G)
      as (K1 & K2 & K3 & K4).
    destruct G' as (G1 & G2 & G3 & G4). unfold same_regs. cbn. rewrite G1, G2, G3, G4. by split_and!.
  - apply elem_put_app; [done|]. intros x [_ Hx]%list_elem_of_filter. eauto.
Qed.

(** ** The scheduler *)

Create HintDb sim discriminated.

Section primitives.
Context (n : nat) (s : THR_LOCK links) (t : THR_LOCK seqs) (Hst : sim n s t).

Lemma sim_datas : datas s = datas t.
Proof. by destruct Hst as [_ (?&?&?&?) _]. Qed.
Lemma sim_rnw : read_no_write_count s = read_no_write_count t.
Proof. by destruct Hst as [_ (?&?&?&?) _]. Qed.
Lemma sim_wlc : write_lock_count s = write_lock_count t.
Proof. by destruct Hst as [_ (?&?&?&?) _]. Qed.
Lemma sim_log : log s = log t.
Proof. by destruct Hst as [_ (?&?&?&?) _]. Qed.
Lemma sim_top q : first q (lists s) = first q (lists t).
Proof. by apply sim_first with n. Qed.
Lemma sim_top_bound q d : first q (lists t) = Some d → d < n.
Proof.
  cbn. unfold Seqs.first. intros H. destruct Hst as [_ _ B]. apply (B q).
  destruct (elements _ q); simplify_eq/=. left.
Qed.

Lemma sim_set_data d x : sim n (set_data d x s) (set_data d x t).
Proof. destruct Hst as [R G B]. split; [done| |done]. by apply same_regs_set_data. Qed.
Lemma sim_set_type d x : sim n (set_type d x s) (set_type d x t).
Proof. unfold set_type. rewrite sim_datas. apply sim_set_data. Qed.
Lemma sim_set_cond d x : sim n (set_cond d x s) (set_cond d x t).
Proof. unfold set_cond. rewrite sim_datas. apply sim_set_data. Qed.
Lemma sim_set_rnw x : sim n (set_read_no_write_count x s) (set_read_no_write_count x t).
Proof. destruct Hst as [R (?&?&?&?) B]. split; [done|by split_and!|done]. Qed.
Lemma sim_set_wlc x : sim n (set_write_lock_count x s) (set_write_lock_count x t).
Proof. destruct Hst as [R (?&?&?&?) B]. split; [done|by split_and!|done]. Qed.
Lemma sim_emit e : sim n (emit e s) (emit e t).
Proof. destruct Hst as [R G B]. split; [done| |done]. by apply same_regs_emit. Qed.
Lemma sim_mark_free d : sim n (mark_free d s) (mark_free d t).
Proof. destruct Hst as [R G B]. split; [done| |done]. by apply same_regs_mark_free. Qed.

Lemma ref_reset d : refines (sim n) (on_lists (reset_next d) s) (on_lists (reset_next d) t).
Proof. by apply sim_reset. Qed.
Lemma ref_append q d :
  d < n → refines (sim n) (on_lists (append q d) s) (on_lists (append q d) t).
Proof. by apply sim_append. Qed.
Lemma ref_append_null q d :
  d < n → refines (sim n) (on_lists (append_null q d) s) (on_lists (append_null q d) t).
Proof. by apply sim_append_null. Qed.
Lemma ref_push_front q d :
  d < n → refines (sim n) (on_lists (push_front q d) s) (on_lists (push_front q d) t).
Proof. by apply sim_push_front. Qed.
Lemma ref_unlink q d : refines (sim n) (on_lists (unlink q d) s) (on_lists (unlink q d) t).
Proof. by apply sim_unlink. Qed.
Lemma ref_free_all b :
  refines (sim n) (free_all_read_locks n b s) (free_all_read_locks n b t).
Proof. by apply sim_free_all. Qed.
Lemma ref_abort_list q : refines (sim n) (abort_list n q s) (abort_list n q t).
Proof. by apply sim_abort_list. Qed.
Lemma sim_old_lock q o :
  has_old_lock n (datas t) q o (lists s) = has_old_lock n (datas t) q o (lists t).
Proof. rewrite <-sim_datas at 1. by apply sim_has_old_lock. Qed.
End primitives.

#[export] Hint Resolve sim_set_data sim_set_type sim_set_cond sim_set_rnw sim_set_wlc
  sim_emit sim_mark_free ref_reset ref_append ref_append_null ref_push_front ref_unlink
  ref_free_all ref_abort_list sim_top_bound : sim.

(** Reads of the pointer state become reads of the sequences. *)
Ltac sim_read :=
  repeat match goal with
    | H : sim ?n ?s ?t |- context [datas ?s] => rewrite (sim_datas n s t H)
    | H : sim ?n ?s ?t |- context [read_no_write_count ?s] => rewrite (sim_rnw n s t H)
    | H : sim ?n ?s ?t |- context [write_lock_count ?s] => rewrite (sim_wlc n s t H)
    | H : sim ?n ?s ?t |- context [log ?s] => rewrite (sim_log n s t H)
    | H : sim ?n ?s ?t |- context [first ?q (lists ?s)] => rewrite (sim_top n s t H q)
    | H : sim ?n ?s ?t |- context [has_old_lock ?n _ ?q ?o (lists ?s)] =>
        rewrite (sim_old_lock n s t H q o)
    end.

(** One step of a simulation proof: both sides have the same shape. *)
Ltac sim_step :=
  sim_read;
  match goal with
  | |- refines _ (Some _) (Some _) => apply refines_ret
  | |- refines _ (_ ≫= _) (_ ≫= _) => eapply refines_bind; [|intros ? ? ?]
  | |- refines _ (if ?b then _ else _) _ => destruct b eqn:?
  | |- refines _ (match ?x with _ => _ end) _ => destruct x eqn:?
  end.

Section scheduler_sim.
Context (n : nat) (env : lock_env).
Implicit Types (s : THR_LOCK links) (t : THR_LOCK seqs).

Lemma sim_call_get_status s t d ci :
  sim n s t → sim_pair n (call_get_status env d ci s) (call_get_status env d ci t).
Proof.
  intros H. unfold call_get_status. sim_read. destruct (get_status env); split; cbn; eauto with sim.
Qed.

Lemma ref_check_status s t d :
  sim n s t → refines (sim_pair n) (call_check_status env d s) (call_check_status env d t).
Proof.
  intros H. unfold call_check_status. sim_read. destruct (check_status env); [|done].
  apply refines_ret. split; cbn; eauto with sim.
Qed.

Lemma ref_start_writers k s t d :
  sim n s t → d < n → refines (sim_pair n) (start_writers env k d s) (start_writers env k d t).
Proof.
  revert s t d. induction k as [|k IH]; intros s t d H Hd; cbn [start_writers]; [done|].
  sim_step; [by eauto with sim|]. sim_step; [by eauto with sim|].
  eapply (refines_bind (sim n)).
  { sim_step; [|by apply refines_ret]. eapply refines_bind; [by apply ref_check_status|].
    intros [b1 s1] [b2 t1] [E G]. cbn in E, G. subst b2. apply refines_ret.
    destruct b1; eauto with sim. }
  intros s1 t1 G. assert (G2 : sim n (mark_free d s1) (mark_free d t1)) by eauto with sim.
  cbn zeta. sim_step; [sim_step|]; [eauto with sim| |]; by apply refines_ret.
Qed.

Lemma ref_join_writers k lt s t d :
  sim n s t → d < n → refines (sim n) (join_writers k lt d s) (join_writers k lt d t).
Proof.
  revert s t d. induction k as [|k IH]; intros s t d H Hd; cbn [join_writers]; [done|].
  sim_step; [by eauto with sim|]. sim_step; [by eauto with sim|].
  assert (H2 : sim n (mark_free d a0) (mark_free d b0)) by eauto with sim.
  cbn zeta. sim_step; [sim_step|]; [eauto with sim| |]; by apply refines_ret.
Qed.

Lemma ref_free_waiting s t b :
  sim n s t → refines (sim n) (free_waiting_readers n b s) (free_waiting_readers n b t).
Proof. intros H. unfold free_waiting_readers. sim_step; [by eauto with sim|by apply refines_ret]. Qed.

Lemma sim_count_writer s t : sim n s t → sim_pair n (count_writer env s) (count_writer env t).
Proof.
  intros H. unfold count_writer. sim_read. destruct (_ <? _)%Z; split; cbn [fst snd]; eauto with sim.
Qed.

Lemma ref_wake_idle s t :
  sim n s t → refines (sim n) (wake_idle n env s) (wake_idle n env t).
Proof.
  intros H. unfold wake_idle. sim_step; [|by apply ref_free_waiting].
  sim_read. set (c1 := negb _ || negb _). destruct c1; [|by apply ref_free_waiting].
  pose proof (sim_count_writer s t H) as [E1 H1].
  destruct (count_writer env s) as [m s1], (count_writer env t) as [m' t1].
  cbn in E1, H1. subst m'. sim_step; [by eauto with sim|].
  eapply refines_bind; [by apply ref_start_writers; eauto with sim|].
  intros [d1 s2] [d2 t2] [E H2]. cbn in E, H2. subst d2.
  sim_step; [by apply refines_ret|by apply ref_free_waiting].
Qed.

Lemma ref_wake_beside s t :
  sim n s t → refines (sim n) (wake_beside_readers n env s) (wake_beside_readers n env t).
Proof.
  intros H. unfold wake_beside_readers. sim_step; [|by apply ref_free_waiting].
  sim_read. sim_step; [|by apply refines_ret].
  eapply (refines_bind (sim_pair n)).
  { sim_step; [by apply ref_check_status|by apply refines_ret]. }
  intros [b1 s2] [b2 t2] [E H2]. cbn in E, H2. subst b2.
  sim_step; [by apply ref_free_waiting; eauto with sim|].
  eapply refines_bind; [by apply ref_join_writers; eauto with sim|].
  intros. by apply ref_free_waiting.
Qed.

Lemma ref_wake_up s t :
  sim n s t → refines (sim n) (wake_up_waiters n env s) (wake_up_waiters n env t).
Proof.
  intros H. unfold wake_up_waiters. sim_step; [by apply refines_ret|].
  sim_step; [by apply ref_wake_beside|by apply ref_wake_idle].
Qed.

(** *** Requests *)

Definition sim_out {A} (x : THR_LOCK links * A) (y : THR_LOCK seqs * A) : Prop :=
  sim n x.1 y.1 ∧ x.2 = y.2.

Lemma ref_answer x y :
  sim_pair n x y → refines sim_out (answer x) (answer y).
Proof. intros [E H]. apply refines_ret. split; [done|]. cbn. by rewrite E. Qed.

Lemma ref_grant_read s t d :
  sim n s t → d < n → refines sim_out (grant_read env d s) (grant_read env d t).
Proof.
  intros H Hd. unfold grant_read. sim_step; [by eauto with sim|]. sim_read.
  apply ref_answer, sim_call_get_status. destruct (bool_decide _); eauto with sim.
Qed.

Lemma ref_grant_write s t d ci :
  sim n s t → d < n → refines sim_out (grant_write env d ci s) (grant_write env d ci t).
Proof.
  intros H Hd. unfold grant_write. sim_step; [by eauto with sim|].
  by apply ref_answer, sim_call_get_status.
Qed.

Lemma ref_deny s t d : sim n s t → refines sim_out (deny d s) (deny d t).
Proof. intros H. apply refines_ret. split; cbn; eauto with sim. Qed.

Lemma ref_wait_enter s t q d b :
  sim n s t → d < n → refines (sim n) (wait_enter q d b s) (wait_enter q d b t).
Proof.
  intros H Hd. unfold wait_enter. eapply (refines_bind (sim n)).
  - destruct b; [by apply refines_ret|eauto with sim].
  - intros. apply refines_ret. eauto with sim.
Qed.

Lemma ref_enter_queue s t q d :
  sim n s t → d < n → refines sim_out (enter_queue q d s) (enter_queue q d t).
Proof.
  intros H Hd. unfold enter_queue. eapply refines_bind; [by apply ref_wait_enter|].
  intros. apply refines_ret. by split.
Qed.
End scheduler_sim.

#[export] Hint Resolve sim_call_get_status ref_check_status ref_wake_up ref_grant_read
  ref_grant_write ref_deny ref_enter_queue ref_wait_enter : sim.

Section operations_sim.
Context (n : nat) (env : lock_env).
Implicit Types (s : THR_LOCK links) (t : THR_LOCK seqs).

Lemma ref_thr_lock_read s t d :
  sim n s t → d < n → refines (sim_out n) (thr_lock_read n env d s) (thr_lock_read n env d t).
Proof.
  intros H Hd. unfold thr_lock_read. sim_step.
  - sim_read. repeat (sim_step; [by eauto with sim|]). eauto with sim.
  - sim_read. eapply (refines_bind eq).
    + apply refines_refl.
    + intros b ? <-. destruct b; eauto with sim.
Qed.

Lemma ref_thr_lock_second_write s t d w :
  sim n s t → d < n →
  refines (sim_out n) (thr_lock_second_write n env d w s) (thr_lock_second_write n env d w t).
Proof.
  intros H Hd. unfold thr_lock_second_write. sim_read. sim_step; [by eauto with sim|].
  eapply (refines_bind eq).
  - apply refines_refl.
  - intros b ? <-. destruct b; eauto with sim.
Qed.

Lemma ref_thr_lock_only_write s t d :
  sim n s t → d < n →
  refines (sim_out n) (thr_lock_only_write env d s) (thr_lock_only_write env d t).
Proof.
  intros H Hd. unfold thr_lock_only_write. sim_read. sim_step; [by eauto with sim|].
  eapply (refines_bind (sim_pair n)).
  - sim_step; [|by apply refines_ret]. eapply refines_bind; [by eauto with sim|].
    intros [b s1] [? t1] [E H1]. cbn in E, H1. subst. apply refines_ret.
    destruct b0; split; cbn; eauto with sim.
  - intros [b s1] [? t1] [E H1]. cbn in E, H1. subst. sim_read. sim_step; eauto with sim.
Qed.

Lemma ref_thr_lock_write s t d :
  sim n s t → d < n → refines (sim_out n) (thr_lock_write n env d s) (thr_lock_write n env d t).
Proof.
  intros H Hd. unfold thr_lock_write. sim_read. sim_step; [by eauto with sim|].
  sim_step.
  - eapply refines_bind; [by eauto with sim|]. intros. apply refines_ret. split; cbn; eauto with sim.
  - cbn zeta. destruct (bool_decide _ && negb _).
    + assert (H1 : sim n (set_type d (thr_upgraded_concurrent_insert_lock env) s)
        (set_type d (thr_upgraded_concurrent_insert_lock env) t)) by eauto with sim.
      sim_step; [by apply ref_thr_lock_second_write|by apply ref_thr_lock_only_write].
    + sim_step; [by apply ref_thr_lock_second_write|by apply ref_thr_lock_only_write].
Qed.

Lemma ref_thr_lock s t d o :
  sim n s t → d < n → refines (sim_out n) (thr_lock n env d o s) (thr_lock n env d o t).
Proof.
  intros H Hd. unfold thr_lock. sim_step; [by eauto with sim|]. sim_read.
  match goal with |- context [set_data d ?x b] =>
    assert (H1 : sim n (set_data d x a) (set_data d x b)) by eauto with sim end.
  cbn zeta. sim_read. sim_step; [by apply ref_thr_lock_read|by apply ref_thr_lock_write].
Qed.

Lemma sim_unlock_status s t x flags :
  sim n s t → sim n (unlock_status env x flags s) (unlock_status env x flags t).
Proof.
  intros H. unfold unlock_status. repeat case_match; eauto with sim.
Qed.

Lemma ref_thr_unlock s t d flags :
  sim n s t → refines (sim n) (thr_unlock n env d flags s) (thr_unlock n env d flags t).
Proof.
  intros H. unfold thr_unlock. sim_read. sim_step; [by eauto with sim|].
  pose proof (sim_unlock_status _ _ (datas t d) flags H0) as H1. cbn zeta. sim_read.
  apply ref_wake_up. destruct (bool_decide _); eauto with sim.
Qed.

Lemma ref_wait_leave s t q d r :
  sim n s t → refines (sim_out n) (wait_leave n env q d r s) (wait_leave n env q d r t).
Proof.
  intros H. unfold wait_leave. sim_step; [|sim_step].
  - sim_step; [by eauto with sim|]. eapply refines_bind; [by eauto with sim|].
    intros. apply refines_ret. by split.
  - apply refines_ret. by split.
  - pose proof (sim_call_get_status n env s t d
      (bool_decide (type (datas t d) = TL_WRITE_CONCURRENT_INSERT)) H) as [E H1].
    destruct (call_get_status env d _ s), (call_get_status env d _ t). cbn in E, H1. subst.
    apply refines_ret. by split.
Qed.

Lemma ref_thr_abort_locks s t b :
  sim n s t → refines (sim n) (thr_abort_locks n b s) (thr_abort_locks n b t).
Proof.
  intros H. unfold thr_abort_locks. sim_step; [by eauto with sim|]. sim_step; [by eauto with sim|].
  sim_read. apply refines_ret. repeat case_match; eauto with sim.
Qed.

Lemma ref_thr_abort_for_thread s t id :
  sim n s t →
  refines (sim_pair n) (thr_abort_locks_for_thread n env id s) (thr_abort_locks_for_thread n env id t).
Proof.
  intros H. unfold thr_abort_locks_for_thread.
  eapply (refines_bind (sim_pair n)); [by apply sim_abort_thread|].
  intros [b1 s1] [? t1] [E H1]. cbn in E, H1. subst.
  eapply (refines_bind (sim_pair n)); [by apply sim_abort_thread|].
  intros [b2 s2] [? t2] [E H2]. cbn in E, H2. subst.
  eapply refines_bind; [by eauto with sim|]. intros. apply refines_ret. by split.
Qed.

Lemma sim_call_start_trans s t d :
  sim n s t → sim_pair n (call_start_trans env d s) (call_start_trans env d t).
Proof.
  intros H. unfold call_start_trans. sim_read. destruct (start_trans env); split; cbn; eauto with sim.
Qed.

Lemma ref_requeue s t d :
  sim n s t → d < n → refines (sim n) (requeue d s) (requeue d t).
Proof. intros H Hd. unfold requeue. sim_step; eauto with sim. Qed.

Lemma ref_upgrade s t d nt :
  sim n s t → d < n →
  refines (sim_out n) (thr_upgrade_write_delay_lock env d nt s)
    (thr_upgrade_write_delay_lock env d nt t).
Proof.
  intros H Hd. unfold thr_upgrade_write_delay_lock. sim_read.
  sim_step; [apply refines_ret; by split|].
  assert (H1 : sim n (set_type d nt s) (set_type d nt t)) by eauto with sim.
  cbn zeta. sim_step; [sim_step|].
  - apply refines_ret. split; [|done]. cbn [fst].
    pose proof (sim_call_get_status n env _ _ d false H1) as [_ H2].
    by apply (sim_call_start_trans _ _ d).
  - eapply refines_bind; [by apply ref_requeue|]. intros.
    eapply refines_bind; [by eauto with sim|]. intros. apply refines_ret. by split.
  - eapply refines_bind; [by eauto with sim|]. intros. apply refines_ret. by split.
Qed.

Lemma ref_reschedule s t d :
  sim n s t → d < n →
  refines (sim_out n) (reschedule_section n env d s) (reschedule_section n env d t).
Proof.
  intros H Hd. unfold reschedule_section. sim_read. sim_step; [apply refines_ret; by split|].
  assert (H1 : sim n (set_type d TL_WRITE_DELAYED s) (set_type d TL_WRITE_DELAYED t))
    by eauto with sim.
  cbn zeta. sim_read. eapply (refines_bind (sim n)).
  { apply ref_requeue; [|done]. destruct (has_update_status env); eauto with sim. }
  intros. eapply refines_bind; [by eauto with sim|]. intros. apply refines_ret. by split.
Qed.
End operations_sim.
