(* ===== verification/ThrInv.v ===== *)
(** * Table locks: the invariant of a lock

    What holds of the four lists of a [THR_LOCK] between two critical sections:
    the lists are disjoint, every request is in a list that fits its type,
    [read_no_write_count] counts, the active locks are compatible.  The lemmas
    say how linking, unlinking and retyping one request affect it. *)

From stdpp Require Import functions.
From S2P Require Import Prelude ThrLock ThrSpec ThrRefine.

(** ** Kinds of lock types *)

(** Read requests: up to [TL_READ_NO_INSERT]; see [skip_locked_corrupts] for
    [TL_READ_SKIP_LOCKED]. *)
Definition read_type (t : thr_lock_type) : bool :=
  (TL_READ_DEFAULT <=? t)%tl && (t <=? TL_READ_NO_INSERT)%tl.

(** Write requests: all but [TL_WRITE_DEFAULT], which is for the parser only. *)
Definition write_type (t : thr_lock_type) : bool :=
  (TL_FIRST_WRITE <=? t)%tl && negb (t =? TL_WRITE_DEFAULT)%tl.

(** Write locks that admit no lock of another owner. *)
Definition exclusive (t : thr_lock_type) : bool := (TL_WRITE_DELAYED <? t)%tl.

Ltac types := unfold read_type, write_type, exclusive, concurrent_type in *; cbn in *.

(** ** Compatible locks *)

(** The active write locks [ws] and read locks [rs]: owners may differ only
    between write locks that allow writes or concurrent inserts; whoever reads
    beside an exclusive lock owns it; exclusive locks precede the others; a
    delayed lock is alone.  [mixed] says that some owner has made a request while it
    had a write lock; until then all write locks have one type, and a lock that
    forbids inserts and a concurrent insert have one owner. *)
Record compat (mixed : Prop) (ws rs : list THR_LOCK_DATA) : Prop := {
  cp_owner w w' : w ∈ ws → w' ∈ ws → owner w ≠ owner w' → concurrent_type (type w) = true;
  cp_read w r : w ∈ ws → r ∈ rs → exclusive (type w) = true → owner r = owner w;
  cp_order x w : sublist [x; w] ws → exclusive (type w) = true → exclusive (type x) = true;
  cp_delayed w : w ∈ ws → type w = TL_WRITE_DELAYED → ws = [w];
  cp_same w w' : w ∈ ws → w' ∈ ws → mixed ∨ type w = type w';
  cp_insert w r : w ∈ ws → r ∈ rs → type w = TL_WRITE_CONCURRENT_INSERT → type r = TL_READ_NO_INSERT →
    mixed ∨ owner r = owner w;
}.

Section compat.
Context (mixed : Prop).
#[local] Abbreviation compat := (compat mixed).

Lemma compat_mono (mixed' : Prop) ws rs : (mixed → mixed') → compat ws rs → ThrInv.compat mixed' ws rs.
Proof.
  intros Hm C. split; try apply C.
  - intros w w' H1 H2. destruct (cp_same _ _ _ C w w' H1 H2); auto.
  - intros w r H1 H2 H3 H4. destruct (cp_insert _ _ _ C w r H1 H2 H3 H4); auto.
Qed.

Lemma compat_sublist ws ws' rs rs' :
  compat ws rs → sublist ws' ws → (∀ r, r ∈ rs' → r ∈ rs) → compat ws' rs'.
Proof.
  intros C Hs Hr. assert (Hw : ∀ w, w ∈ ws' → w ∈ ws) by (intros; by eapply elem_of_sublist).
  split.
  - intros. eapply (cp_owner _ _ _ C w w'); auto.
  - intros. eapply (cp_read _ _ _ C); auto.
  - intros x w H1. apply (cp_order _ _ _ C). by etrans.
  - intros w H1 H2. pose proof (cp_delayed _ _ _ C w (Hw w H1) H2) as E. rewrite E in Hs.
    apply sublist_cons_r in Hs as [Hs|(l & -> & Hs)].
    + apply sublist_nil_r in Hs. subst. by apply not_elem_of_nil in H1.
    + apply sublist_nil_r in Hs. by subst.
  - intros. apply (cp_same _ _ _ C); auto.
  - intros. apply (cp_insert _ _ _ C); auto.
Qed.

Lemma compat_nil rs : compat [] rs.
Proof.
  split; intros.
  1,2,4,5,6: by apply not_elem_of_nil in H.
  apply sublist_nil_r in H. done.
Qed.

Lemma compat_reader ws rs r :
  compat ws rs → (∀ w, w ∈ ws → exclusive (type w) = true → owner r = owner w) →
  (∀ w, w ∈ ws → type w = TL_WRITE_CONCURRENT_INSERT → type r = TL_READ_NO_INSERT → mixed ∨ owner r = owner w) →
  compat ws (rs ++ [r]).
Proof.
  intros C H Hi. split; try apply C;
    intros w r' Hw [Hr| ->%list_elem_of_singleton]%elem_of_app; (by eapply C) || auto.
Qed.

Lemma compat_readers ws rs rs' :
  compat ws rs → (∀ w, w ∈ ws → exclusive (type w) = false) →
  (∀ w r, w ∈ ws → r ∈ rs' → type w = TL_WRITE_CONCURRENT_INSERT → type r = TL_READ_NO_INSERT →
     mixed ∨ owner r = owner w) →
  compat ws rs'.
Proof.
  intros C H Hi. split; try apply C; [|done]. intros w r Hw _ He. apply H in Hw. congruence.
Qed.

Lemma sublist_pair_snoc {A} (x y z : A) l :
  sublist [x; y] (l ++ [z]) → sublist [x; y] l ∨ (x ∈ l ∧ y = z).
Proof.
  rewrite sublist_app_r. intros (l1 & l2 & E & H1 & H2).
  apply sublist_cons_r in H2 as [H2|(l3 & -> & H2)]; apply sublist_nil_r in H2; subst.
  - rewrite app_nil_r in E. subst. by left.
  - destruct l1 as [|a [|b l1]]; simplify_eq/=; [|by destruct l1].
    right. split; [|done]. eapply elem_of_sublist; [|done]. left.
Qed.

Lemma compat_writer ws rs w :
  compat ws rs →
  (∀ w', w' ∈ ws → owner w' ≠ owner w →
     concurrent_type (type w') = true ∧ concurrent_type (type w) = true) →
  (exclusive (type w) = true → (∀ r, r ∈ rs → owner r = owner w)
     ∧ (∀ w', w' ∈ ws → exclusive (type w') = true)) →
  (∀ w', w' ∈ ws → type w' ≠ TL_WRITE_DELAYED ∧ type w ≠ TL_WRITE_DELAYED) →
  (∀ w', w' ∈ ws → mixed ∨ type w' = type w) →
  (∀ r, r ∈ rs → type w = TL_WRITE_CONCURRENT_INSERT → type r = TL_READ_NO_INSERT → mixed ∨ owner r = owner w) →
  compat (ws ++ [w]) rs.
Proof.
  intros C Ho He Hd Hs Hi. split.
  - intros w1 w2 [H1| ->%list_elem_of_singleton]%elem_of_app [H2| ->%list_elem_of_singleton]%elem_of_app;
      [by apply C|by apply Ho| |done]. intros. apply (Ho w2 H2). congruence.
  - intros w1 r [H1| ->%list_elem_of_singleton]%elem_of_app Hr; [by apply C|].
    intros Hx. by apply He.
  - intros x y [G|[Hx ->]]%sublist_pair_snoc; [by apply C|]. intros H. by apply He.
  - intros w1 [H1| ->%list_elem_of_singleton]%elem_of_app Ht; [by apply Hd in H1 as [? _]|].
    destruct ws as [|w' ws]; [done|]. by destruct (Hd w') as [_ ?]; [left|].
  - intros w1 w2 [H1| ->%list_elem_of_singleton]%elem_of_app [H2| ->%list_elem_of_singleton]%elem_of_app;
      [by apply C|by apply Hs| |by right]. destruct (Hs w2 H2); [by left|by right].
  - intros w1 r [H1| ->%list_elem_of_singleton]%elem_of_app Hr; [by apply C|by apply Hi].
Qed.
End compat.

(** ** The invariant of the lists *)

Section invariant.
Context (n : nat) (env : lock_env) (mixed : Prop).

(** A request fits the list it is in.  A waiting concurrent insert will be
    checked with [check_status], which must exist then. *)
Definition fits (q : lock_list) (x : THR_LOCK_DATA) : Prop :=
  match q with
  | Read_wait => read_type (type x) = true ∧ cond x = true
  | Read => read_type (type x) = true ∧ cond x = false
  | Write_wait => write_type (type x) = true ∧ cond x = true
      ∧ (type x = TL_WRITE_CONCURRENT_INSERT → is_Some (check_status env))
  | Write => write_type (type x) = true ∧ cond x = false
  end.

Definition no_insert (D : nat → THR_LOCK_DATA) (d : nat) : bool :=
  (type (D d) =? TL_READ_NO_INSERT)%tl.

Record core (E : lock_list → list nat) (D : nat → THR_LOCK_DATA) (c : Z) : Prop := {
  co_nodup q : NoDup (E q);
  co_disj q q' d : d ∈ E q → d ∈ E q' → q = q';
  co_bound q d : d ∈ E q → d < n;
  co_fits q d : d ∈ E q → fits q (D d);
  co_count : c = Z.of_nat (length (filter (no_insert D) (E Read)));
  co_compat : compat mixed (D <$> E Write) (D <$> E Read);
}.

(** Only the sequences and the attributes of linked requests matter. *)
Lemma core_ext E E' D D' c c' :
  core E D c → (∀ q, E' q = E q) → (∀ q d, d ∈ E q → D' d = D d) → c' = c → core E' D' c'.
Proof.
  intros C HE HD ->. split.
  - intros q. rewrite HE. apply C.
  - intros q q' d. rewrite !HE. apply C.
  - intros q d. rewrite HE. apply C.
  - intros q d. rewrite HE. intros Hd. rewrite (HD q d Hd). by apply C.
  - rewrite HE, (co_count _ _ _ C). f_equal. f_equal. apply filter_ext_in.
    intros d Hd. unfold no_insert. by rewrite (HD Read d Hd).
  - rewrite !HE.
    rewrite (list_fmap_ext D' D (E Write)), (list_fmap_ext D' D (E Read)); [apply C|..];
      intros i d Hi%list_elem_of_lookup_2; by eapply HD.
Qed.

(** A request leaves its list. *)
Lemma core_unlink E D c q d :
  core E D c → d ∈ E q →
  core (<[q:=filter (.≠ d) (E q)]> E) D
    (c - if bool_decide (q = Read) && no_insert D d then 1 else 0).
Proof.
  intros C Hd. set (E' := <[q:=filter (.≠ d) (E q)]> E).
  assert (Hs : ∀ q', sublist (E' q') (E q')).
  { intros q'. unfold E'. destruct (decide (q' = q)) as [->|Hne].
    - rewrite fn_lookup_insert. apply sublist_filter.
    - by rewrite fn_lookup_insert_ne. }
  assert (Hin : ∀ q' x, x ∈ E' q' → x ∈ E q') by (intros; by eapply elem_of_sublist).
  split.
  - intros q'. eapply sublist_NoDup; [apply C|apply Hs].
  - intros q1 q2 x H1%Hin H2%Hin. by eapply C.
  - intros q' x Hx%Hin. by eapply C.
  - intros q' x Hx%Hin. by apply C.
  - rewrite (co_count _ _ _ C). unfold E'. case_bool_decide as Hq; [subst q|].
    + apply list_elem_of_split in Hd as (l1 & l2 & Hl).
      pose proof (co_nodup _ _ _ C Read) as Hnd. rewrite Hl in Hnd.
      rewrite fn_lookup_insert, Hl, filter_remove by done.
      rewrite !list.filter_app, filter_cons.
      destruct (no_insert D d); cbn [andb]; case_decide; cbn [Is_true] in *; try tauto;
        rewrite !length_app; cbn [length]; lia.
    + rewrite fn_lookup_insert_ne by done. cbn. lia.
  - eapply compat_sublist; [apply C|apply fmap_sublist, Hs|].
    intros r (x & -> & Hx)%list_elem_of_fmap. apply list_elem_of_fmap_2. by apply Hin.
Qed.

Lemma fmap_insert_fresh (D : nat → THR_LOCK_DATA) d x (l : list nat) :
  d ∉ l → <[d:=x]> D <$> l = D <$> l.
Proof.
  intros Hd. apply list_fmap_ext. intros i y Hy%list_elem_of_lookup_2.
  rewrite fn_lookup_insert_ne; [done|]. by intros ->.
Qed.

(** A request that was in no list enters [q], with the attributes [x]. *)
Lemma core_link E D c q d x l :
  core E D c → (∀ q', d ∉ E q') → d < n → fits q x → l ≡ₚ d :: E q →
  compat mixed (<[d:=x]> D <$> (<[q:=l]> E) Write) (<[d:=x]> D <$> (<[q:=l]> E) Read) →
  core (<[q:=l]> E) (<[d:=x]> D)
    (c + if bool_decide (q = Read) && (type x =? TL_READ_NO_INSERT)%tl then 1 else 0).
Proof.
  intros C Hd Hn Hx Hl Hcp. set (E' := <[q:=l]> E) in *.
  assert (Hq : ∀ q', q' ≠ q → E' q' = E q') by (intros; unfold E'; by rewrite fn_lookup_insert_ne).
  assert (Hqq : E' q = l) by (unfold E'; by rewrite fn_lookup_insert).
  assert (Hin : ∀ q' y, y ∈ E' q' → y ∈ E q' ∨ q' = q ∧ y = d).
  { intros q' y. destruct (decide (q' = q)) as [->|Hne]; [rewrite Hqq, Hl|rewrite Hq by done]; mem. }
  split; [..|done].
  - intros q'. destruct (decide (q' = q)) as [->|Hne]; [rewrite Hqq, Hl|rewrite Hq by done; apply C].
    constructor; [apply Hd|apply C].
  - intros q1 q2 y [H1|[E1 E2]]%Hin [H2|[E3 E4]]%Hin; [by eapply C| | |congruence].
    + rewrite E4 in H1. by apply Hd in H1.
    + rewrite E2 in H2. by apply Hd in H2.
  - intros q' y [H1|[-> ->]]%Hin; [by eapply C|done].
  - intros q' y [H1|[-> ->]]%Hin; [|by rewrite fn_lookup_insert].
    rewrite fn_lookup_insert_ne; [by apply C|]. intros ->. by apply Hd in H1.
  - rewrite (co_count _ _ _ C).
    assert (Hf : filter (no_insert (<[d:=x]> D)) (E Read) = filter (no_insert D) (E Read)).
    { apply filter_ext_in. intros y Hy. unfold no_insert.
      rewrite fn_lookup_insert_ne; [done|]. intros ->. by apply Hd in Hy. }
    case_bool_decide as Hqr; [subst q|rewrite Hq, Hf by done; cbn; lia].
    rewrite Hqq, Hl, filter_cons, Hf.
    replace (no_insert (<[d:=x]> D) d) with (type x =? TL_READ_NO_INSERT)%tl
      by (unfold no_insert; by rewrite fn_lookup_insert).
    destruct (type x =? TL_READ_NO_INSERT)%tl; cbn [andb]; case_decide; cbn [Is_true] in *; try tauto;
      cbn [length]; lia.
Qed.

Lemma core_wait E D c q d x l :
  core E D c → (∀ q', d ∉ E q') → d < n → fits q x → l ≡ₚ d :: E q →
  q = Read_wait ∨ q = Write_wait →
  core (<[q:=l]> E) (<[d:=x]> D) c.
Proof.
  intros C Hd Hn Hx Hl Hq.
  replace c with (c + if bool_decide (q = Read) && (type x =? TL_READ_NO_INSERT)%tl then 1 else 0)%Z
    by (rewrite bool_decide_false by (destruct Hq; congruence); cbn [andb]; lia).
  apply core_link; try done. rewrite !fn_lookup_insert_ne by (destruct Hq; congruence).
  rewrite !fmap_insert_fresh by apply Hd. apply C.
Qed.

Lemma core_read E D c d x :
  core E D c → (∀ q', d ∉ E q') → d < n → fits Read x →
  (∀ w, w ∈ E Write → exclusive (type (D w)) = true → owner x = owner (D w)) →
  (∀ w, w ∈ E Write → type (D w) = TL_WRITE_CONCURRENT_INSERT → type x = TL_READ_NO_INSERT →
     mixed ∨ owner x = owner (D w)) →
  core (<[Read:=E Read ++ [d]]> E) (<[d:=x]> D)
    (c + if (type x =? TL_READ_NO_INSERT)%tl then 1 else 0).
Proof.
  intros C Hd Hn Hx Hw Hi.
  apply core_link; try done; [by rewrite (comm (++))|].
  rewrite fn_lookup_insert, fn_lookup_insert_ne by done.
  rewrite fmap_app, (fmap_insert_fresh D d x (E Read)), (fmap_insert_fresh D d x (E Write))
    by apply Hd. cbn. rewrite fn_lookup_insert.
  apply compat_reader; [apply C|..]; intros w (y & -> & Hy)%list_elem_of_fmap; [by apply Hw|by apply Hi].
Qed.

Lemma core_write E D c d x :
  core E D c → (∀ q', d ∉ E q') → d < n → fits Write x →
  (∀ w, w ∈ E Write → owner (D w) ≠ owner x →
     concurrent_type (type (D w)) = true ∧ concurrent_type (type x) = true) →
  (exclusive (type x) = true → (∀ r, r ∈ E Read → owner (D r) = owner x)
     ∧ (∀ w, w ∈ E Write → exclusive (type (D w)) = true)) →
  (∀ w, w ∈ E Write → type (D w) ≠ TL_WRITE_DELAYED ∧ type x ≠ TL_WRITE_DELAYED) →
  (∀ w, w ∈ E Write → mixed ∨ type (D w) = type x) →
  (∀ r, r ∈ E Read → type x = TL_WRITE_CONCURRENT_INSERT → type (D r) = TL_READ_NO_INSERT →
     mixed ∨ owner (D r) = owner x) →
  core (<[Write:=E Write ++ [d]]> E) (<[d:=x]> D) c.
Proof.
  intros C Hd Hn Hx H1 H2 H3 H4 H5.
  replace c with (c + if bool_decide (Write = Read) && (type x =? TL_READ_NO_INSERT)%tl then 1 else 0)%Z
    by (rewrite bool_decide_false by done; cbn [andb]; lia).
  apply core_link; try done; [by rewrite (comm (++))|].
  rewrite fn_lookup_insert, fn_lookup_insert_ne by done.
  rewrite fmap_app, (fmap_insert_fresh D d x (E Read)), (fmap_insert_fresh D d x (E Write))
    by apply Hd. cbn. rewrite fn_lookup_insert.
  apply compat_writer; [apply C|..].
  - intros w (y & -> & Hy)%list_elem_of_fmap. by apply H1.
  - intros He. destruct (H2 He) as [G1 G2].
    split; [intros r (y & -> & Hy)%list_elem_of_fmap|intros w (y & -> & Hy)%list_elem_of_fmap]; auto.
  - intros w (y & -> & Hy)%list_elem_of_fmap. by apply H3.
  - intros w (y & -> & Hy)%list_elem_of_fmap. by apply H4.
  - intros r (y & -> & Hy)%list_elem_of_fmap. by apply H5.
Qed.
End invariant.

Lemma core_mono n env (mixed mixed' : Prop) E D c :
  (mixed → mixed') → core n env mixed E D c → core n env mixed' E D c.
Proof. intros Hm C. split; try apply C. eapply compat_mono; [exact Hm|apply C]. Qed.
