(* ===== verification/ThrWake.v ===== *)
(** * Table locks: waking up waiters

    From any state that satisfies the invariant, [wake_up_waiters] returns, keeps
    the invariant, and leaves no request waiting that could be served: this is
    the absence of lost wake-ups that the other operations then maintain. *)

From stdpp Require Import functions.
From S2P Require Import Prelude ThrLock ThrSpec ThrRefine ThrInv.

Abbreviation els s q := (elements (lists s) q).
Abbreviation ty s d := (type (datas s d)).

Section wake.
Context (n : nat) (env : lock_env) (mixed : Prop) (Hn : (Z.of_nat n < 2 ^ 32)%Z).
Implicit Types s : THR_LOCK seqs.

Definition ok s : Prop := core n env mixed (elements (lists s)) (datas s) (read_no_write_count s).

Lemma ok_read_length s : ok s → length (els s Read) ≤ n.
Proof. intros C. apply bounded_length; [apply C|]. intros d. apply C. Qed.

(** Waking up only moves requests from a waiting list to the active one. *)
Record evolves s s' : Prop := {
  ev_read d : d ∈ els s Read → d ∈ els s' Read;
  ev_write d : d ∈ els s Write → d ∈ els s' Write;
  ev_read_wait d : d ∈ els s Read_wait → d ∈ els s' Read_wait ∨ d ∈ els s' Read;
  ev_write_wait d : d ∈ els s Write_wait → d ∈ els s' Write_wait ∨ d ∈ els s' Write;
  ev_idle d : (∀ q, d ∉ els s q) → (∀ q, d ∉ els s' q) ∧ datas s' d = datas s d;
}.

#[global] Instance evolves_preorder : PreOrder evolves.
Proof.
  split; [by split; auto|]. intros s1 s2 s3 A B. split.
  - intros d H. by apply B, A.
  - intros d H. by apply B, A.
  - intros d H. destruct (ev_read_wait _ _ A d H); [by apply B|right; by apply B].
  - intros d H. destruct (ev_write_wait _ _ A d H); [by apply B|right; by apply B].
  - intros d [H1 H2]%(ev_idle _ _ A). apply (ev_idle _ _ B) in H1 as [H1 H3]. by rewrite H3.
Qed.

(** ** Releasing the waiting readers *)

Definition freed_data (l : list nat) (D : nat → THR_LOCK_DATA) (x : nat) : THR_LOCK_DATA :=
  if decide (x ∈ l)
  then mk_data (owner (D x)) (type (D x)) false (status_param (D x)) (priority (D x))
  else D x.

Lemma datas_release {P} (s : THR_LOCK P) d :
  datas (release_reader s d)
  = <[d:=mk_data (owner (datas s d)) (type (datas s d)) false (status_param (datas s d))
        (priority (datas s d))]> (datas s).
Proof. unfold release_reader. by case_bool_decide. Qed.

Lemma datas_foldl_release {P} l (s : THR_LOCK P) x :
  datas (foldl release_reader s l) x = freed_data l (datas s) x.
Proof.
  unfold freed_data. revert s. induction l as [|d l IH]; intros s; cbn [foldl].
  - by rewrite decide_False by apply not_elem_of_nil.
  - rewrite IH, datas_release. destruct (decide (x = d)) as [->|Hne].
    + rewrite fn_lookup_insert, (decide_True (P := d ∈ d :: l)) by left. by case_decide.
    + rewrite fn_lookup_insert_ne by done. repeat case_decide; try done; mem.
Qed.

Lemma rnw_foldl_release {P} l (s : THR_LOCK P) :
  (0 ≤ read_no_write_count s)%Z →
  (read_no_write_count s + Z.of_nat (length l) < 2 ^ 32)%Z →
  read_no_write_count (foldl release_reader s l)
  = (read_no_write_count s + Z.of_nat (length (filter (no_insert (datas s)) l)))%Z.
Proof.
  revert s. induction l as [|d l IH]; intros s H0 H1; cbn [foldl length] in *; [cbn; lia|].
  assert (Hr : read_no_write_count (release_reader s d)
    = (read_no_write_count s + if no_insert (datas s) d then 1 else 0)%Z).
  { unfold release_reader, no_insert. case_bool_decide; cbn; [apply Z.mod_small; lia|lia]. }
  assert (Hf : filter (no_insert (datas (release_reader s d))) l = filter (no_insert (datas s)) l).
  { apply filter_ext_in. intros x _. unfold no_insert. by rewrite type_release. }
  rewrite IH, Hf, Hr, filter_cons by (rewrite Hr; destruct (no_insert _ d); lia).
  destruct (no_insert (datas s) d); case_decide; cbn [Is_true] in *; try tauto; cbn [length]; lia.
Qed.

Lemma freed_data_out l D x : x ∉ l → freed_data l D x = D x.
Proof. intros. unfold freed_data. by rewrite decide_False. Qed.

Lemma core_free E D c freed back :
  core n env mixed E D c → (∀ w, w ∈ E Write → exclusive (type (D w)) = false) →
  (∀ w r, w ∈ E Write → r ∈ freed → type (D w) = TL_WRITE_CONCURRENT_INSERT → type (D r) ≠ TL_READ_NO_INSERT) →
  sublist freed (E Read_wait) → sublist back (E Read_wait) → (∀ x, x ∈ freed → x ∉ back) →
  core n env mixed (<[Read_wait:=back]> (<[Read:=E Read ++ freed]> E)) (freed_data freed D)
    (c + Z.of_nat (length (filter (no_insert D) freed))).
Proof.
  intros C Hx Hni Hf Hb Hfb. set (E' := <[Read_wait:=back]> (<[Read:=E Read ++ freed]> E)).
  assert (Hfw : ∀ x, x ∈ freed → x ∈ E Read_wait) by (intros; by eapply elem_of_sublist).
  assert (Hin : ∀ q x, x ∈ E' q → q = Read ∧ x ∈ freed ∨ x ∉ freed ∧ x ∈ E q).
  { intros q x. unfold E'. destruct q.
    2: rewrite fn_lookup_insert_ne, fn_lookup_insert, elem_of_app by done;
      intros [H|H]; [right; split; [|done]|by left].
    3-4: rewrite !fn_lookup_insert_ne by done; intros H; right; split; [|done].
    2-4: intros G%Hfw; by pose proof (co_disj _ _ _ _ _ _ C _ _ _ G H).
    rewrite fn_lookup_insert. right. split; [intros G; by apply (Hfb x)|by eapply elem_of_sublist]. }
  split.
  - intros []; unfold E'.
    + rewrite fn_lookup_insert. eapply sublist_NoDup; [apply C|done].
    + rewrite fn_lookup_insert_ne, fn_lookup_insert by done. apply list.NoDup_app.
      split_and!; [apply C| |eapply sublist_NoDup; [apply C|done]].
      intros x H G%Hfw. by pose proof (co_disj _ _ _ _ _ _ C _ _ _ H G).
    + rewrite !fn_lookup_insert_ne by done. apply C.
    + rewrite !fn_lookup_insert_ne by done. apply C.
  - intros q1 q2 x [[-> H1]|[H1 G1]]%Hin [[-> H2]|[H2 G2]]%Hin; try done. by eapply C.
  - intros q x [[-> H1%Hfw]|[_ H1]]%Hin; by eapply C.
  - intros q x [[-> H1]|[H1 G1]]%Hin; [|rewrite freed_data_out by done; by apply C].
    unfold freed_data. rewrite decide_True by done. cbn.
    apply Hfw, (co_fits _ _ _ _ _ _ C) in H1 as [H1 _]. done.
  - unfold E'. rewrite fn_lookup_insert_ne, fn_lookup_insert by done.
    rewrite (co_count _ _ _ _ _ _ C), list.filter_app, length_app, Nat2Z.inj_add.
    f_equal; f_equal; f_equal; apply filter_ext_in; intros x _; unfold no_insert, freed_data;
      by case_decide.
  - unfold E'. rewrite !fn_lookup_insert_ne, fn_lookup_insert by done.
    rewrite (list_fmap_ext (freed_data freed D) D (E Write)).
    + eapply compat_readers; [apply C|intros w (y & -> & Hy)%list_elem_of_fmap; auto|].
      intros w r (y & -> & Hy)%list_elem_of_fmap (z & -> & Hz)%list_elem_of_fmap Hw Hr.
      assert (Hty : type (D z) = TL_READ_NO_INSERT ∧ owner (freed_data freed D z) = owner (D z))
        by (unfold freed_data in *; by case_decide). destruct Hty as [Hty ->].
      apply elem_of_app in Hz as [Hz|Hz]; [|by destruct (Hni y z Hy Hz Hw)].
      apply (cp_insert _ _ _ (co_compat _ _ _ _ _ _ C) (D y) (D z)); auto using list_elem_of_fmap_2.
    + intros i x Hi%list_elem_of_lookup_2. apply freed_data_out. intros G%Hfw.
      by pose proof (co_disj _ _ _ _ _ _ C _ _ _ G Hi).
Qed.

Lemma filter_split_sublist (f : nat → bool) l :
  sublist (filter (λ x, negb (f x)) l) l ∧ sublist (filter f l) l
  ∧ (∀ x, x ∈ filter (λ x, negb (f x)) l → x ∉ filter f l).
Proof.
  split_and!; [apply sublist_filter..|]. intros x [H _]%list_elem_of_filter [G _]%list_elem_of_filter.
  by destruct (f x).
Qed.

Lemma free_evolves (f : nat → bool) s s' :
  elements (lists s')
  = <[Read_wait:=filter f (els s Read_wait)]>
      (<[Read:=els s Read ++ filter (λ x, negb (f x)) (els s Read_wait)]> (elements (lists s))) →
  (∀ x, datas s' x = freed_data (filter (λ x, negb (f x)) (els s Read_wait)) (datas s) x) →
  evolves s s'.
Proof.
  intros HE HD.
  assert (HR : els s' Read = els s Read ++ filter (λ x, negb (f x)) (els s Read_wait))
    by (by rewrite HE, fn_lookup_insert_ne, fn_lookup_insert).
  assert (HW : els s' Read_wait = filter f (els s Read_wait)) by (by rewrite HE, fn_lookup_insert).
  assert (Ho : ∀ q, q = Write ∨ q = Write_wait → els s' q = els s q)
    by (intros q Hq; rewrite HE, !fn_lookup_insert_ne by (destruct Hq; congruence); done).
  split.
  - intros d H. rewrite HR, elem_of_app. by left.
  - intros d. by rewrite Ho by auto.
  - intros d H. rewrite HR, HW, elem_of_app, !list_elem_of_filter.
    destruct (f d); [left|right; right]; by split.
  - intros d. rewrite Ho by auto. by left.
  - intros d Hd. rewrite HD, freed_data_out by (rewrite list_elem_of_filter; intros [_ H]; by apply Hd in H).
    split; [|done]. intros []; rewrite ?HR, ?HW, ?Ho by auto; try apply Hd.
    + rewrite list_elem_of_filter. intros [_ H]. by apply Hd in H.
    + rewrite elem_of_app, list_elem_of_filter. intros [H|[_ H]]; by apply Hd in H.
Qed.

(** Readers can be released when no exclusive lock is active. *)
Lemma free_all_ok fuel uci s :
  ok s → els s Read_wait ≠ [] → (∀ w, w ∈ els s Write → exclusive (ty s w) = false) →
  (uci = false → ∀ w, w ∈ els s Write → ty s w ≠ TL_WRITE_CONCURRENT_INSERT) →
  ∃ s', free_all_read_locks fuel uci s = Some s' ∧ ok s'
    ∧ els s' Write = els s Write ∧ els s' Write_wait = els s Write_wait
    ∧ (∀ x, ty s' x = ty s x) ∧ (read_no_write_count s ≤ read_no_write_count s')%Z
    ∧ (uci = false → els s' Read_wait = [] ∧ els s' Read ≠ [])
    ∧ (els s Read ≠ [] → els s' Read ≠ []) ∧ evolves s s'.
Proof.
  intros C Hw Hx Hu. cbn [free_all_read_locks seqs_store]. unfold Seqs.free_all_read_locks.
  rewrite bool_decide_false by done. unfold on_lists. rewrite lists_foldl_release.
  cbn [mbind option_bind]. eexists. split; [reflexivity|].
  set (f := Seqs.held_back uci s). pose proof (filter_split_sublist f (els s Read_wait)) as (F1 & F2 & F3).
  set (freed := filter (λ x, negb (f x)) (els s Read_wait)) in *.
  assert (Hni : ∀ w r, w ∈ els s Write → r ∈ freed → ty s w = TL_WRITE_CONCURRENT_INSERT → ty s r ≠ TL_READ_NO_INSERT).
  { intros w r Hw' [Hr _]%list_elem_of_filter Hci Hr'. destruct uci; [|by destruct (Hu eq_refl w Hw')].
    unfold f, Seqs.held_back in Hr. by rewrite Hr' in Hr. }
  pose proof (core_free _ _ _ freed _ C Hx Hni F1 F2 F3) as C'. pose proof (ok_read_length s C) as Hl.
  assert (Hc : (0 ≤ read_no_write_count s ∧ read_no_write_count s + Z.of_nat (length freed) < 2 ^ 32)%Z).
  { assert (length (els s Read ++ freed) ≤ n) as Hlen.
    { apply bounded_length; [|intros d; pose proof (co_bound _ _ _ _ _ _ C' Read d) as B;
        rewrite fn_lookup_insert_ne, fn_lookup_insert in B by done; done].
      pose proof (co_nodup _ _ _ _ _ _ C' Read) as B.
      by rewrite fn_lookup_insert_ne, fn_lookup_insert in B. }
    rewrite length_app in Hlen. pose proof (co_count _ _ _ _ _ _ C) as Hct.
    pose proof (length_filter (no_insert (datas s)) (els s Read)). lia. }
  pose proof (rnw_foldl_release freed s (proj1 Hc) (proj2 Hc)) as Hr.
  case_bool_decide as Hb; cbn [lists datas read_no_write_count set_write_lock_count elements Seqs.put];
    (split_and!;
     [ eapply core_ext; [exact C'|done| |done]; intros; apply datas_foldl_release
     | by rewrite !fn_lookup_insert_ne | by rewrite !fn_lookup_insert_ne
     | intros x; rewrite datas_foldl_release; unfold freed_data; by case_decide
     | lia
     | intros ->; rewrite fn_lookup_insert, fn_lookup_insert_ne, fn_lookup_insert by done
     | rewrite fn_lookup_insert_ne, fn_lookup_insert by done; by destruct (els s Read)
     | by apply (free_evolves f); [|apply datas_foldl_release] ]).
  2: destruct Hb; apply filter_none; intros x _; unfold f, Seqs.held_back; rewrite andb_false_r; by intros [].
  split; [done|]. subst freed. rewrite filter_all by (intros; unfold f, Seqs.held_back; by rewrite andb_false_r).
  by destruct (els s Read).
Qed.

(** ** No lost wake-up *)

(** Nobody waits for a lock that nobody holds, and readers wait only for
    writers, active or waiting. *)
Record awake s : Prop := {
  aw_idle : els s Write = [] → els s Read = [] → els s Write_wait = [];
  aw_readers : els s Write = [] → els s Write_wait = [] → els s Read_wait = [];
}.

Lemma free_waiting_ok fuel uci s :
  ok s → (∀ w, w ∈ els s Write → exclusive (ty s w) = false) →
  (uci = false → ∀ w, w ∈ els s Write → ty s w ≠ TL_WRITE_CONCURRENT_INSERT) →
  ∃ s', free_waiting_readers fuel uci s = Some s' ∧ ok s'
    ∧ els s' Write = els s Write ∧ els s' Write_wait = els s Write_wait
    ∧ (∀ x, ty s' x = ty s x) ∧ (read_no_write_count s ≤ read_no_write_count s')%Z
    ∧ (uci = false → els s' Read_wait = [] ∧ (els s Read_wait ≠ [] → els s' Read ≠ []))
    ∧ (els s Read ≠ [] → els s' Read ≠ []) ∧ evolves s s'.
Proof.
  intros C Hx Hu. unfold free_waiting_readers. cbn [first seqs_store]. unfold Seqs.first.
  destruct (els s Read_wait) as [|d l] eqn:E; cbn [head].
  - exists s. split_and!; try done.
  - destruct (free_all_ok fuel uci s C) as (s' & H1 & H2 & H3 & H4 & H5 & H6 & H7 & H8 & H9);
      [by rewrite E|done|done|].
    exists s'. split_and!; try done. intros ->. by destruct H7.
Qed.

(** ** Starting a waiting writer *)

(** The lists after [d] has moved from [write_wait] to [write]. *)
Definition started (d : nat) (E : lock_list → list nat) : lock_list → list nat :=
  <[Write:=E Write ++ [d]]> (<[Write_wait:=filter (.≠ d) (E Write_wait)]> E).

Definition granted (t : thr_lock_type) (x : THR_LOCK_DATA) : THR_LOCK_DATA :=
  mk_data (owner x) t false (status_param x) (priority x).

Lemma unlinked_after E D c q d q' :
  core n env mixed E D c → d ∈ E q → d ∉ (<[q:=filter (.≠ d) (E q)]> E) q'.
Proof.
  intros C Hd. destruct (decide (q' = q)) as [->|Hne].
  - rewrite fn_lookup_insert, list_elem_of_filter. naive_solver.
  - rewrite fn_lookup_insert_ne by done. intros H. apply Hne. by eapply C.
Qed.

Lemma move_writer s d :
  ok s → d ∈ els s Write_wait →
  ∃ s1 s2, on_lists (unlink Write_wait d) s = Some s1
    ∧ on_lists (append_null Write d) s1 = Some s2
    ∧ elements (lists s2) = started d (elements (lists s)) ∧ datas s2 = datas s
    ∧ read_no_write_count s2 = read_no_write_count s ∧ log s2 = log s.
Proof.
  intros C Hd. unfold on_lists. cbn [unlink append_null seqs_store]. unfold Seqs.unlink.
  rewrite bool_decide_true by done. cbn [mbind option_bind]. do 2 eexists. split; [reflexivity|].
  cbn [lists]. unfold Seqs.append_null.
  replace (linked _ d) with false.
  2:{ symmetry. apply not_linked. intros q. by apply (unlinked_after _ _ _ _ _ _ C). }
  cbn [mbind option_bind]. split; [reflexivity|]. cbn. unfold started.
  by rewrite (fn_lookup_insert_ne _ Write_wait Write).
Qed.

(** No active lock forbids inserts, if [t] is one. *)
Definition inserts_free s (t : thr_lock_type) : Prop :=
  t = TL_WRITE_CONCURRENT_INSERT → ∀ r, r ∈ els s Read → ty s r ≠ TL_READ_NO_INSERT.

Lemma core_started s d t :
  ok s → d ∈ els s Write_wait → write_type t = true →
  els s Write = [] ∧ (exclusive t = true → els s Read = []) ∧ inserts_free s t
  ∨ t = TL_WRITE_ALLOW_WRITE ∧ (∀ w, w ∈ els s Write → ty s w = TL_WRITE_ALLOW_WRITE) →
  core n env mixed (started d (elements (lists s))) (<[d:=granted t (datas s d)]> (datas s))
    (read_no_write_count s).
Proof.
  intros C Hd Ht H. pose proof (core_unlink _ _ _ _ _ _ _ _ C Hd) as C1.
  rewrite bool_decide_false, Z.sub_0_r in C1 by done.
  set (E1 := <[Write_wait:=_]> _) in C1.
  assert (HW : E1 Write = els s Write) by (unfold E1; by rewrite fn_lookup_insert_ne).
  assert (HR : E1 Read = els s Read) by (unfold E1; by rewrite fn_lookup_insert_ne).
  unfold started. rewrite <-HW. apply (core_write _ _ _ E1); try done; cbn [granted type owner].
  - intros q. by apply (unlinked_after _ _ _ _ _ _ C).
  - by apply C in Hd.
  - intros w Hw. rewrite HW in Hw. destruct H as [[E _]|[-> E]].
    + rewrite E in Hw. by apply not_elem_of_nil in Hw.
    + by rewrite (E w Hw).
  - intros He. destruct H as [(E1' & E2 & _)|[-> _]]; [|done]. rewrite HW, HR, E1', E2 by done.
    split; intros x Hx; by apply not_elem_of_nil in Hx.
  - intros w Hw. rewrite HW in Hw. destruct H as [[E _]|[-> E]].
    + rewrite E in Hw. by apply not_elem_of_nil in Hw.
    + by rewrite (E w Hw).
  - intros w Hw. rewrite HW in Hw. destruct H as [[E _]|[-> E]].
    + rewrite E in Hw. by apply not_elem_of_nil in Hw.
    + right. by apply E.
  - intros r Hr Hci Hno. rewrite HR in Hr. destruct H as [(_ & _ & H)|[-> _]]; [|done]. by destruct (H Hci r Hr).
Qed.

Lemma started_tail d l E :
  E Write_wait = d :: l → NoDup (d :: l) → started d E Write_wait = l.
Proof.
  intros HE [Hd _]%list.NoDup_cons. unfold started. rewrite fn_lookup_insert_ne, fn_lookup_insert, HE by done.
  rewrite filter_cons_False by naive_solver. apply filter_all. intros x Hx ->. done.
Qed.

(** The request [d] is now active with type [t]. *)
Record did_start (s s' : THR_LOCK seqs) (d : nat) (t : thr_lock_type) : Prop := {
  ds_lists : elements (lists s') = started d (elements (lists s));
  ds_datas x : datas s' x = (<[d:=granted t (datas s d)]> (datas s)) x;
  ds_count : read_no_write_count s' = read_no_write_count s;
}.

Lemma mark_free_started s s3 d t :
  elements (lists s3) = started d (elements (lists s)) →
  (∀ x, datas s3 x = (<[d:=mk_data (owner (datas s d)) t (cond (datas s d)) (status_param (datas s d))
     (priority (datas s d))]> (datas s)) x) →
  read_no_write_count s3 = read_no_write_count s →
  did_start s (mark_free d s3) d t.
Proof.
  intros H1 H2 H3. split; [done| |done]. intros x. unfold mark_free, set_cond, set_data, emit. cbn [datas].
  rewrite (H2 d), fn_lookup_insert. cbn.
  destruct (decide (x = d)) as [->|Hne]; [by rewrite !fn_lookup_insert|].
  rewrite !fn_lookup_insert_ne by done. by rewrite H2, fn_lookup_insert_ne.
Qed.

Lemma insert_self {A} (D : nat → A) d y x : y = D d → D x = (<[d:=y]> D) x.
Proof.
  intros ->. destruct (decide (x = d)) as [->|]; [by rewrite fn_lookup_insert|by rewrite fn_lookup_insert_ne].
Qed.

(** The body of the loop of [start_writers], up to the signal. *)
Lemma start_one s d :
  ok s → d ∈ els s Write_wait →
  ∃ s1 s2 s3 t, on_lists (unlink Write_wait d) s = Some s1
    ∧ on_lists (append_null Write d) s1 = Some s2
    ∧ (if (ty s2 d =? TL_WRITE_CONCURRENT_INSERT)%tl
       then '(bad, s) ← call_check_status env d s2;
            Some (if bad : bool then set_type d TL_WRITE s else s)
       else Some s2) = Some s3
    ∧ did_start s (mark_free d s3) d t ∧ write_type t = true
    ∧ (ty s d = TL_WRITE_ALLOW_WRITE → t = TL_WRITE_ALLOW_WRITE).
Proof.
  intros C Hd. destruct (move_writer s d C Hd) as (s1 & s2 & H1 & H2 & E2 & D2 & R2 & _).
  pose proof (co_fits _ _ _ _ _ _ C _ _ Hd) as (Ht & _ & Hcs).
  assert (Hsame : did_start s (mark_free d s2) d (ty s d)).
  { apply mark_free_started; [done| |done]. intros x. rewrite D2. apply insert_self. by destruct (datas s d). }
  exists s1, s2. rewrite D2. case_bool_decide as Hci; [|by exists s2, (ty s d)].
  destruct (Hcs Hci) as [f Hf]. unfold call_check_status. rewrite Hf. cbn [mbind option_bind].
  destruct (f _ _).
  2:{ eexists _, (ty s d). split_and!; [done..| |done|done]. destruct Hsame as [? ? ?]. by split. }
  eexists _, TL_WRITE. split_and!; [done..| |done|congruence].
  apply mark_free_started; [done| |done]. intros x. cbn. by rewrite D2.
Qed.

Lemma did_start_ok s s' d t :
  ok s → d ∈ els s Write_wait → write_type t = true → did_start s s' d t →
  els s Write = [] ∧ (exclusive t = true → els s Read = []) ∧ inserts_free s t
  ∨ t = TL_WRITE_ALLOW_WRITE ∧ (∀ w, w ∈ els s Write → ty s w = TL_WRITE_ALLOW_WRITE) →
  ok s'.
Proof.
  intros C Hd Ht [H1 H2 H3] H. unfold ok. rewrite H1, H3.
  eapply core_ext; [by apply core_started|done|by intros|done].
Qed.

Lemma did_start_type s s' d t x :
  did_start s s' d t → ty s' x = if decide (x = d) then t else ty s x.
Proof.
  intros [_ H _]. rewrite H. case_decide; subst; [by rewrite fn_lookup_insert|by rewrite fn_lookup_insert_ne].
Qed.

Lemma did_start_write s s' d t : did_start s s' d t → els s' Write = els s Write ++ [d].
Proof. intros [H _ _]. rewrite H. unfold started. by rewrite fn_lookup_insert. Qed.

Lemma did_start_other s s' d t q :
  did_start s s' d t → q = Read ∨ q = Read_wait → els s' q = els s q.
Proof.
  intros [H _ _] Hq. rewrite H. unfold started. by rewrite !fn_lookup_insert_ne by (destruct Hq; congruence).
Qed.

Lemma top_els q s : first q (lists s) = head (els s q).
Proof. done. Qed.

Lemma did_start_evolves s s' d t :
  d ∈ els s Write_wait → did_start s s' d t → evolves s s'.
Proof.
  intros Hin Hds. pose proof (did_start_write _ _ _ _ Hds) as HW.
  assert (HWw : els s' Write_wait = filter (.≠ d) (els s Write_wait))
    by (rewrite (ds_lists _ _ _ _ Hds); unfold started;
        by rewrite fn_lookup_insert_ne, fn_lookup_insert).
  pose proof (did_start_other _ _ _ _ Read Hds (or_introl eq_refl)) as HR.
  pose proof (did_start_other _ _ _ _ Read_wait Hds (or_intror eq_refl)) as HRw.
  split.
  - intros x. by rewrite HR.
  - intros x H. rewrite HW, elem_of_app. by left.
  - intros x H. rewrite HRw. by left.
  - intros x H. rewrite HW, HWw, elem_of_app, list_elem_of_filter, list_elem_of_singleton.
    destruct (decide (x = d)); [right; by right|by left].
  - intros x Hx. assert (x ≠ d) by (intros ->; by apply Hx in Hin). split.
    + intros []; rewrite ?HW, ?HWw, ?HR, ?HRw; try apply Hx.
      * rewrite list_elem_of_filter. intros [_ H']. by apply Hx in H'.
      * rewrite elem_of_app, list_elem_of_singleton. intros [H'|H']; [by apply Hx in H'|done].
    + rewrite (ds_datas _ _ _ _ Hds). by rewrite fn_lookup_insert_ne.
Qed.

(** A writer may start alone, or beside writers that allow it. *)
Definition may_start s d : Prop :=
  els s Write = [] ∨ ty s d = TL_WRITE_ALLOW_WRITE
    ∧ (∀ w, w ∈ els s Write → ty s w = TL_WRITE_ALLOW_WRITE).

Lemma after_start s s' d t l :
  ok s → els s Read = [] ∨ exclusive t = false ∧ inserts_free s t → els s Write_wait = d :: l → may_start s d →
  did_start s s' d t → write_type t = true → (ty s d = TL_WRITE_ALLOW_WRITE → t = TL_WRITE_ALLOW_WRITE) →
  ok s' ∧ els s' Write_wait = l ∧ els s' Write ≠ [] ∧ ty s' d = t
  ∧ (exclusive t = false → ∀ w, w ∈ els s' Write → exclusive (ty s' w) = false)
  ∧ (t ≠ TL_WRITE_CONCURRENT_INSERT → ∀ w, w ∈ els s' Write → ty s' w ≠ TL_WRITE_CONCURRENT_INSERT)
  ∧ (t = TL_WRITE_ALLOW_WRITE → ∀ w, w ∈ els s' Write → ty s' w = TL_WRITE_ALLOW_WRITE)
  ∧ evolves s s'.
Proof.
  intros C HR HW Hm Hds Ht Haw. pose proof (did_start_write _ _ _ _ Hds) as HW'.
  assert (Hd : d ∈ els s Write_wait) by (rewrite HW; left).
  assert (Hty : ∀ w, w ∈ els s' Write → ty s' w = t ∨ ty s' w = TL_WRITE_ALLOW_WRITE).
  { intros w. rewrite HW', elem_of_app, list_elem_of_singleton, (did_start_type _ _ _ _ w Hds).
    case_decide; [by left|]. intros [Hw|?]; [|done]. destruct Hm as [Hm|[_ Hm]]; [|right; by apply Hm].
    rewrite Hm in Hw. by apply not_elem_of_nil in Hw. }
  split_and!.
  - eapply did_start_ok; [done..|]. destruct Hm as [Hm|[Hm1 Hm2]]; [left|right; auto].
    split; [done|]. destruct HR as [HR|[HR Hf]]; [|by split; [congruence|]].
    split; [done|]. intros _ r Hr. rewrite HR in Hr. by apply not_elem_of_nil in Hr.
  - rewrite (ds_lists _ _ _ _ Hds). apply started_tail; [done|]. rewrite <-HW. apply C.
  - rewrite HW'. by destruct (els s Write).
  - by rewrite (did_start_type _ _ _ _ d Hds), decide_True.
  - intros He w Hw. destruct (Hty w Hw) as [->| ->]; done.
  - intros He w Hw. destruct (Hty w Hw) as [->| ->]; done.
  - intros -> w Hw. by destruct (Hty w Hw).
  - by eapply did_start_evolves.
Qed.

Lemma start_writers_ok k s d l :
  ok s → els s Read = [] → els s Write_wait = d :: l → length (d :: l) ≤ k → may_start s d →
  ∃ d' s', start_writers env k d s = Some (d', s') ∧ ok s' ∧ els s' Write ≠ []
    ∧ write_type (ty s' d') = true
    ∧ (exclusive (ty s' d') = false → ∀ w, w ∈ els s' Write → exclusive (ty s' w) = false)
    ∧ (ty s' d' ≠ TL_WRITE_CONCURRENT_INSERT → ∀ w, w ∈ els s' Write → ty s' w ≠ TL_WRITE_CONCURRENT_INSERT)
    ∧ evolves s s'.
Proof.
  revert k s d. induction l as [|d2 l IH]; intros [|k] s d C HR HW Hk Hm; cbn [length] in Hk; try lia;
    destruct (start_one s d C) as (s1 & s2 & s3 & t & H1 & H2 & H3 & Hds & Ht & Haw);
    try (rewrite HW; left);
    cbn [start_writers]; rewrite H1; cbn [mbind option_bind]; rewrite H2; cbn [mbind option_bind];
    rewrite H3; cbn [mbind option_bind]; set (s4 := mark_free d s3) in *;
    destruct (after_start s s4 d t _ C (or_introl HR) HW Hm Hds Ht Haw) as (C4 & HW4 & Hne & Hty & Hx & Hci & Hall & Hev);
    rewrite top_els, HW4; cbn [head].
  - exists d, s4. rewrite Hty. by split_and!.
  - destruct (bool_decide _ && bool_decide _) eqn:Haa; [|exists d, s4; rewrite Hty; by split_and!].
    apply andb_prop in Haa as [Ha1%bool_decide_eq_true Ha2%bool_decide_eq_true].
    destruct (IH k s4 d2) as (d' & s' & G1 & G2 & G3 & G4 & G5 & G6 & G7); try done.
    + by rewrite (did_start_other _ _ _ _ _ Hds) by auto.
    + cbn; lia.
    + right. split; [done|]. apply Hall. congruence.
    + exists d', s'. split_and!; try done. by etrans.
Qed.

Lemma join_writers_ok k s d l lt :
  ok s → exclusive lt = false → inserts_free s lt → ty s d = lt → els s Write_wait = d :: l → length (d :: l) ≤ k →
  may_start s d →
  ∃ s', join_writers k lt d s = Some s' ∧ ok s' ∧ els s' Write ≠ []
    ∧ (∀ w, w ∈ els s' Write → exclusive (ty s' w) = false)
    ∧ (lt ≠ TL_WRITE_CONCURRENT_INSERT → ∀ w, w ∈ els s' Write → ty s' w ≠ TL_WRITE_CONCURRENT_INSERT)
    ∧ evolves s s'.
Proof.
  revert k s d. induction l as [|d2 l IH]; intros [|k] s d C Hlt Hfree Hd HW Hk Hm; cbn [length] in Hk; try lia;
    (assert (Hin : d ∈ els s Write_wait) by (rewrite HW; left));
    destruct (move_writer s d C Hin) as (s1 & s2 & H1 & H2 & E2 & D2 & R2 & _);
    cbn [join_writers]; rewrite H1; cbn [mbind option_bind]; rewrite H2; cbn [mbind option_bind];
    (assert (Hds : did_start s (mark_free d s2) d lt) by
      (apply mark_free_started; [done| |done]; intros x; rewrite D2; apply insert_self;
       rewrite <-Hd; by destruct (datas s d)));
    pose proof (co_fits _ _ _ _ _ _ C _ _ Hin) as (Ht & _); rewrite Hd in Ht;
    destruct (after_start s (mark_free d s2) d lt _ C (or_intror (conj Hlt Hfree)) HW Hm Hds Ht)
      as (C4 & HW4 & Hne & Hty & Hx & Hci & Hall & Hev); try congruence;
    rewrite top_els, HW4; cbn [head].
  - eexists. split_and!; [done..|auto|auto|done].
  - destruct (bool_decide _ && bool_decide _) eqn:Haa; [|eexists; split_and!; [done..|auto|auto|done]].
    apply andb_prop in Haa as [Ha1%bool_decide_eq_true Ha2%bool_decide_eq_true].
    destruct (IH k (mark_free d s2) d2) as (s' & G1 & G2 & G3 & G4 & G5 & G6); try done.
    + intros ->. done.
    + congruence.
    + cbn; lia.
    + right. split; [done|by apply Hall].
    + exists s'. split_and!; try done. by etrans.
Qed.

(** ** [wake_up_waiters] *)

Lemma ok_length s q : ok s → length (els s q) ≤ n.
Proof. intros C. apply bounded_length; [apply C|]. intros d. apply C. Qed.

Lemma awake_write s : els s Write ≠ [] → awake s.
Proof. by split. Qed.

Lemma awake_read s : els s Read ≠ [] → els s Write_wait ≠ [] ∨ els s Read_wait = [] → awake s.
Proof. intros H1 H2. split; [done|]. by destruct H2. Qed.

(** A waiting request changes its attributes. *)
Lemma core_set E D c q d x :
  core n env mixed E D c → d ∈ E q → q = Read_wait ∨ q = Write_wait → fits env q x →
  core n env mixed E (<[d:=x]> D) c.
Proof.
  intros C Hd Hq Hx.
  assert (Hne : ∀ q' y, q' ≠ q → y ∈ E q' → y ≠ d) by (intros q' y H1 H2 ->; apply H1; by eapply C).
  assert (Hf : ∀ l : list nat, (∀ y, y ∈ l → y ≠ d) → <[d:=x]> D <$> l = D <$> l).
  { intros l Hl. apply list_fmap_ext. intros i y Hy%list_elem_of_lookup_2%Hl. by rewrite fn_lookup_insert_ne. }
  split; try apply C.
  - intros q' y Hy. destruct (decide (y = d)) as [->|Hyd].
    + rewrite fn_lookup_insert. by rewrite (co_disj _ _ _ _ _ _ C _ _ _ Hy Hd).
    + rewrite fn_lookup_insert_ne by done. by apply C.
  - rewrite (co_count _ _ _ _ _ _ C). f_equal. f_equal. apply filter_ext_in. intros y Hy.
    unfold no_insert. rewrite fn_lookup_insert_ne; [done|]. apply not_eq_sym, (Hne Read); [|done].
    destruct Hq; congruence.
  - rewrite (Hf (E Write)), (Hf (E Read)); [apply C|intros y; apply Hne; destruct Hq; congruence..].
Qed.

Lemma set_type_ok s d t :
  ok s → d ∈ els s Write_wait → write_type t = true → t ≠ TL_WRITE_CONCURRENT_INSERT →
  ok (set_type d t s).
Proof.
  intros C Hd Ht Hci. unfold ok. cbn. eapply core_set; [done..|by right|].
  pose proof (co_fits _ _ _ _ _ _ C _ _ Hd) as (_ & ? & _). by split_and!.
Qed.

Lemma not_exclusive t : write_type t = true → (TL_WRITE_LOW_PRIORITY <=? t)%tl = false → exclusive t = false.
Proof. by destruct t. Qed.

Lemma wake_idle_ok s :
  ok s → els s Write = [] → els s Read = [] →
  ∃ s', wake_idle n env s = Some s' ∧ ok s' ∧ awake s' ∧ evolves s s'.
Proof.
  intros C HW HR. assert (Hx : ∀ w, w ∈ els s Write → exclusive (ty s w) = false)
    by (rewrite HW; intros w Hw; by apply not_elem_of_nil in Hw).
  assert (Hu : false = false → ∀ w, w ∈ els s Write → ty s w ≠ TL_WRITE_CONCURRENT_INSERT)
    by (rewrite HW; intros _ w Hw; by apply not_elem_of_nil in Hw).
  unfold wake_idle. rewrite !top_els. destruct (els s Write_wait) as [|d l] eqn:Hd; cbn [head].
  { destruct (free_waiting_ok n false s C Hx Hu) as (s' & H1 & H2 & H3 & H4 & _ & _ & H7 & _ & H9).
    exists s'. split_and!; try done. split; [by rewrite H4|]. intros _ _. by apply H7. }
  match goal with |- context [if negb _ || negb ?b then _ else _] => destruct (negb _ || negb b) eqn:Hcnd end.
  - destruct (count_writer env s) as [many s1] eqn:Hcw.
    assert (∃ k, s1 = set_write_lock_count k s) as [k ->].
    { unfold count_writer in Hcw. case_match; simplify_eq; eauto. }
    assert (Hk : evolves s (set_write_lock_count k s)) by (by split; auto).
    destruct (many && _) eqn:Hm.
    + apply andb_prop in Hm as [_ Hm%bool_decide_eq_true].
      destruct (free_all_ok n false (set_write_lock_count k s) C) as (s' & H1 & H2 & H3 & H4 & _ & _ & H7 & _ & H9).
      { intros E. rewrite top_els, E in Hm. by destruct Hm. }
      { done. }
      { done. }
      exists s'. split_and!; [done..| |by etrans]. destruct H7 as [H7 H8]; [done|]. apply awake_read; auto.
    + destruct (start_writers_ok n (set_write_lock_count k s) d l) as (d' & s' & H1 & H2 & H3 & H4 & H5 & H7 & H6);
        [done|done|done|rewrite <-Hd; by apply ok_length|by left|].
      rewrite H1. cbn [mbind option_bind]. destruct (Z.leb _ _) eqn:Hlow.
      { exists s'. split_and!; [done..|by apply awake_write|by etrans]. }
      destruct (free_waiting_ok n (concurrent_type (ty s' d')) s' H2) as (s2 & G1 & G2 & G3 & _ & _ & _ & _ & _ & G9).
      { by apply H5, not_exclusive. }
      { intros Hc. apply H7. intros E. by rewrite E in Hc. }
      exists s2. split_and!; [done..|apply awake_write; by rewrite G3|]. etrans; [exact Hk|]. by etrans.
  - apply orb_false_elim in Hcnd as [Hlow%negb_false_iff%bool_decide_eq_true Hrf%negb_false_iff].
    rewrite Hlow. destruct (free_waiting_ok n false s C Hx Hu) as (s' & H1 & H2 & H3 & H4 & _ & _ & H7 & _ & H9).
    exists s'. split_and!; try done. destruct (H7 eq_refl) as [H8 H10]. apply awake_read; [|auto].
    apply H10. by destruct (els s Read_wait).
Qed.

(** [read_no_write_count] tells whether a lock forbids inserts. *)
Lemma no_insert_readers s t :
  ok s → negb (concurrent_type t) || (read_no_write_count s =? 0)%Z = true → inserts_free s t.
Proof.
  intros C [H|H%Z.eqb_eq]%orb_true_iff Ht r Hr Hno; [by rewrite Ht in H|].
  rewrite (co_count _ _ _ _ _ _ C) in H.
  assert (Hin : r ∈ filter (no_insert (datas s)) (els s Read)).
  { apply list_elem_of_filter. split; [|done]. unfold no_insert. by rewrite Hno. }
  destruct (filter _ _); [by apply not_elem_of_nil in Hin|cbn in H; lia].
Qed.

Lemma wake_beside_ok s :
  ok s → els s Write = [] → els s Read ≠ [] →
  ∃ s', wake_beside_readers n env s = Some s' ∧ ok s' ∧ awake s' ∧ evolves s s'.
Proof.
  intros C HW HR. assert (Hx : ∀ w, w ∈ els s Write → exclusive (ty s w) = false)
    by (rewrite HW; intros w Hw; by apply not_elem_of_nil in Hw).
  assert (Hu : false = false → ∀ w, w ∈ els s Write → ty s w ≠ TL_WRITE_CONCURRENT_INSERT)
    by (rewrite HW; intros _ w Hw; by apply not_elem_of_nil in Hw).
  unfold wake_beside_readers. rewrite !top_els. destruct (els s Write_wait) as [|d l] eqn:Hd; cbn [head].
  { destruct (free_waiting_ok n false s C Hx Hu) as (s' & H1 & H2 & H3 & H4 & _ & _ & H7 & H8 & H9).
    exists s'. split_and!; try done. apply awake_read; [auto|]. right. by apply H7. }
  assert (Hin : d ∈ els s Write_wait) by (rewrite Hd; left).
  pose proof (co_fits _ _ _ _ _ _ C _ _ Hin) as (Ht & _ & Hcs).
  destruct (_ && (_ || _)) eqn:Hcnd.
  2:{ exists s. split_and!; try done. apply awake_read; [done|left; by rewrite Hd]. }
  apply andb_prop in Hcnd as [Hle Hins].
  assert (∃ b e, (if (ty s d =? TL_WRITE_CONCURRENT_INSERT)%tl then call_check_status env d s
     else Some (false, s)) = Some (b, mk_lock (lists s) (datas s) (read_no_write_count s) (write_lock_count s) e))
    as (bad & e & ->).
  { case_bool_decide as Hci; [|destruct s; by eexists _, _]. destruct (Hcs Hci) as [f Hf].
    unfold call_check_status. rewrite Hf. by eexists _, _. }
  cbn [mbind option_bind]. set (s1 := mk_lock _ _ _ _ _).
  assert (C1 : ok s1) by done.
  assert (Hev1 : evolves s s1) by (by split; auto).
  destruct bad.
  - destruct (free_waiting_ok n false (set_type d TL_WRITE s1)) as (s' & H1 & H2 & H3 & H4 & _ & _ & H7 & H8 & H9).
    { by apply set_type_ok. }
    { cbn. rewrite HW. intros w Hw. by apply not_elem_of_nil in Hw. }
    { cbn. rewrite HW. intros _ w Hw. by apply not_elem_of_nil in Hw. }
    exists s'. split_and!; try done; [apply awake_read; [by apply H8|right; by apply H7]|].
    etrans; [|exact H9]. split; auto. intros x Hx'. split; [done|]. cbn.
    rewrite fn_lookup_insert_ne; [done|]. intros ->. by apply Hx' in Hin.
  - destruct (join_writers_ok n s1 d l (ty s d)) as (s2 & H1 & H2 & H3 & H4 & H6 & H5);
      [done|by destruct (ty s d)|by apply no_insert_readers|done|done|rewrite <-Hd; by apply ok_length|by left|].
    rewrite H1. cbn [mbind option_bind].
    destruct (free_waiting_ok n (concurrent_type (ty s d)) s2 H2 H4) as (s' & G1 & G2 & G3 & _ & _ & _ & _ & _ & G9).
    { intros Hc. apply H6. intros E. by rewrite E in Hc. }
    exists s'. split_and!; [done..|apply awake_write; by rewrite G3|]. etrans; [exact Hev1|]. by etrans.
Qed.

Lemma wake_up_spec s :
  ok s → ∃ s', wake_up_waiters n env s = Some s' ∧ ok s' ∧ awake s' ∧ evolves s s'.
Proof.
  intros C. unfold wake_up_waiters. rewrite !top_els.
  destruct (els s Write) as [|w lw] eqn:HW; cbn [head].
  - destruct (els s Read) as [|r lr] eqn:HR; cbn [head].
    + by apply wake_idle_ok.
    + apply wake_beside_ok; [done..|by rewrite HR].
  - exists s. split_and!; try done. apply awake_write. by rewrite HW.
Qed.
End wake.
