(* ===== verification/ThrRequest.v ===== *)
(** * Table locks: [thr_lock]

    A request is answered at once or queued; in both cases the lock keeps its
    invariant and no waiter is forgotten. *)

From stdpp Require Import functions.
From S2P Require Import Prelude ThrLock ThrSpec ThrRefine ThrInv ThrWake.

Section request.
Context (n : nat) (env : lock_env) (mixed : Prop) (Hn : (Z.of_nat n < 2 ^ 32)%Z).
Implicit Types s : THR_LOCK seqs.

(** The type that replaces a concurrent insert the engine does not support. *)
Definition upgraded_ok : Prop :=
  thr_upgraded_concurrent_insert_lock env = TL_WRITE
  ∨ thr_upgraded_concurrent_insert_lock env = TL_WRITE_LOW_PRIORITY.

Definition effective_type (t : thr_lock_type) : thr_lock_type :=
  if (t =? TL_WRITE_CONCURRENT_INSERT)%tl && negb (bool_decide (is_Some (check_status env)))
  then thr_upgraded_concurrent_insert_lock env else t.

(** [t] is no stronger than [t']. *)
Definition no_stronger (t t' : thr_lock_type) : Prop :=
  (tl t ≤ tl t')%Z ∨ t = TL_WRITE ∧ t' = TL_WRITE_LOW_PRIORITY.

(** What the caller guarantees: the request is free, its type is one that may
    reach the lock manager, and write requests of one owner come in order of
    decreasing strength (the assertion of [thr_lock], for all locks held). *)
Record request s (d o : nat) : Prop := {
  rq_free q : d ∉ els s q;
  rq_bound : d < n;
  rq_type : read_type (ty s d) = true ∨ write_type (ty s d) = true;
  rq_order w : write_type (ty s d) = true → w ∈ els s Write → owner (datas s w) = o →
    ty s w ≠ TL_WRITE_DELAYED ∧ no_stronger (effective_type (ty s d)) (ty s w);
}.

Definition inv s : Prop := ok n env mixed s ∧ awake s.

(** The request [d], and only it, has been added to the end of [q]. *)
Record placed s s' (d : nat) (q : lock_list) : Prop := {
  pl_lists : elements (lists s') = <[q:=els s q ++ [d]]> (elements (lists s));
  pl_datas x : x ≠ d → datas s' x = datas s x;
}.

(** Nothing but attributes of [d] has changed. *)
Record untouched s s' (d : nat) : Prop := {
  un_lists : elements (lists s') = elements (lists s);
  un_datas x : x ≠ d → datas s' x = datas s x;
}.

Definition answered (r : option enum_thr_lock_result) : Prop :=
  r = Some THR_LOCK_SUCCESS ∨ r = Some THR_LOCK_ABORTED ∧ is_Some (get_status env).

(** The possible outcomes of a request. *)
Inductive outcome s s' (d : nat) (r : option enum_thr_lock_result) : Prop :=
  | Granted q : q = Read ∨ q = Write → placed s s' d q → answered r → outcome s s' d r
  | Delayed : placed s s' d Write_wait → ty s' d = TL_WRITE_DELAYED →
      r = Some THR_LOCK_SUCCESS → outcome s s' d r
  | Queued q : q = (if read_type (ty s d) then Read_wait else Write_wait) →
      placed s s' d q → r = None → outcome s s' d r
  | Denied : untouched s s' d → ty s' d = TL_UNLOCK → r = Some THR_LOCK_ABORTED →
      outcome s s' d r.

(** Attributes of a request that is in no list do not matter. *)
Lemma free_ok s s' d :
  ok n env mixed s → (∀ q, d ∉ els s q) → untouched s s' d →
  read_no_write_count s' = read_no_write_count s → ok n env mixed s'.
Proof.
  intros C Hd [H1 H2] H3. unfold ok. rewrite H1, H3. eapply core_ext; [exact C|done| |done].
  intros q x Hx. apply H2. intros ->. by apply Hd in Hx.
Qed.

Lemma append_seqs q d s :
  fresh (lists s) d = true → (∀ q, d ∉ els s q) →
  ∃ p, on_lists (append q d) s
       = Some (mk_lock p (datas s) (read_no_write_count s) (write_lock_count s) (log s))
    ∧ elements p = <[q:=els s q ++ [d]]> (elements (lists s)).
Proof.
  intros Hf Hd. unfold on_lists. cbn [append seqs_store]. unfold Seqs.append, Seqs.append_null.
  rewrite Hf. replace (linked _ d) with false by (symmetry; by apply not_linked).
  cbn [mbind option_bind]. by eexists.
Qed.

Lemma answer_spec s d ci :
  ∃ s' r, answer (call_get_status env d ci s) = Some (s', r) ∧ answered r
    ∧ lists s' = lists s ∧ datas s' = datas s ∧ read_no_write_count s' = read_no_write_count s.
Proof.
  unfold answer, call_get_status, answered. destruct (get_status env) as [f|]; cbn.
  - destruct (f _ _ _); (eexists _, _; split_and!; [done| |done..]); eauto.
  - eexists _, _. split_and!; [done| |done..]. by left.
Qed.

(** ** The four ends of [thr_lock] *)

Section ends.
Context (s : THR_LOCK seqs) (d : nat) (C : ok n env mixed s) (Hd : ∀ q, d ∉ els s q) (Hdn : d < n).

Lemma deny_spec : awake s →
  ∃ s' r, deny d s = Some (s', r) ∧ inv s' ∧ outcome s s' d r.
Proof.
  intros [A1 A2]. unfold deny. eexists _, _. split; [reflexivity|].
  assert (U : untouched s (set_type d TL_UNLOCK s) d).
  { split; [done|]. intros x Hx. cbn. by rewrite fn_lookup_insert_ne. }
  split; [split; [by eapply free_ok|by split]|]. apply Denied; [done| |done].
  cbn. by rewrite fn_lookup_insert.
Qed.

Hypothesis Hfr : fresh (lists s) d = true.

Lemma grant_read_spec :
  awake s → fits env Read (datas s d) →
  (∀ w, w ∈ els s Write → exclusive (ty s w) = true → owner (datas s d) = owner (datas s w)) →
  (∀ w, w ∈ els s Write → ty s w = TL_WRITE_CONCURRENT_INSERT → ty s d = TL_READ_NO_INSERT →
     mixed ∨ owner (datas s d) = owner (datas s w)) →
  ∃ s' r, grant_read env d s = Some (s', r) ∧ inv s' ∧ outcome s s' d r.
Proof.
  intros [A1 A2] Hfit Hex Hins. unfold grant_read.
  destruct (append_seqs Read d s Hfr Hd) as (p & -> & Hp). cbn [mbind option_bind datas].
  pose proof (core_read _ _ _ _ _ _ _ (datas s d) C Hd Hdn Hfit Hex Hins) as C'.
  assert (Hlen : (read_no_write_count s + 1 < 2 ^ 32)%Z ∧ (0 ≤ read_no_write_count s)%Z).
  { assert (length (els s Read ++ [d]) ≤ n) as Hl.
    { apply bounded_length; [pose proof (co_nodup _ _ _ _ _ _ C' Read) as B|
        intros x; pose proof (co_bound _ _ _ _ _ _ C' Read x) as B];
        by rewrite fn_lookup_insert in B. }
    rewrite length_app in Hl. cbn in Hl. rewrite (co_count _ _ _ _ _ _ C).
    pose proof (length_filter (no_insert (datas s)) (els s Read)). lia. }
  match goal with |- context [call_get_status env d false ?x] => set (s1 := x) end.
  assert (H1 : elements (lists s1) = <[Read:=els s Read ++ [d]]> (elements (lists s)) ∧ datas s1 = datas s
    ∧ read_no_write_count s1 = (read_no_write_count s + if (ty s d =? TL_READ_NO_INSERT)%tl then 1 else 0)%Z).
  { unfold s1. destruct (bool_decide _); cbn [lists datas read_no_write_count set_read_no_write_count];
      (split_and!; [done..|]); [apply Z.mod_small; lia|lia]. }
  destruct H1 as (E1 & D1 & R1).
  destruct (answer_spec s1 d false) as (s' & r & -> & Hr & L' & D' & R').
  exists s', r. split; [done|].
  assert (Hpl : placed s s' d Read) by (split; [by rewrite L', E1|intros; by rewrite D', D1]).
  split; [split|by apply (Granted _ _ _ _ Read); [left| |]].
  - unfold ok. rewrite L', D', R', E1, D1, R1. eapply core_ext; [exact C'|done| |done].
    intros q x _. by apply insert_self.
  - split; rewrite L', E1; [rewrite fn_lookup_insert; by destruct (els s Read)|].
    by rewrite !fn_lookup_insert_ne.
Qed.

Lemma grant_write_spec ci :
  fits env Write (datas s d) →
  (∀ w, w ∈ els s Write → owner (datas s w) ≠ owner (datas s d) →
     concurrent_type (ty s w) = true ∧ concurrent_type (ty s d) = true) →
  (exclusive (ty s d) = true → (∀ r, r ∈ els s Read → owner (datas s r) = owner (datas s d))
     ∧ (∀ w, w ∈ els s Write → exclusive (ty s w) = true)) →
  (∀ w, w ∈ els s Write → ty s w ≠ TL_WRITE_DELAYED ∧ ty s d ≠ TL_WRITE_DELAYED) →
  (∀ w, w ∈ els s Write → mixed ∨ ty s w = ty s d) →
  (∀ r, r ∈ els s Read → ty s d = TL_WRITE_CONCURRENT_INSERT → ty s r = TL_READ_NO_INSERT →
     mixed ∨ owner (datas s r) = owner (datas s d)) →
  ∃ s' r, grant_write env d ci s = Some (s', r) ∧ inv s' ∧ outcome s s' d r.
Proof.
  intros Hfit H1 H2 H3 H4 H5. unfold grant_write.
  destruct (append_seqs Write d s Hfr Hd) as (p & -> & Hp). cbn [mbind option_bind].
  pose proof (core_write _ _ _ _ _ _ _ (datas s d) C Hd Hdn Hfit H1 H2 H3 H4 H5) as C'.
  match goal with |- context [call_get_status env d ci ?x] =>
    destruct (answer_spec x d ci) as (s' & r & -> & Hr & L' & D' & R') end.
  cbn in L', D', R'. exists s', r. split; [done|].
  assert (Hpl : placed s s' d Write) by (split; [by rewrite L'|intros; by rewrite D']).
  split; [split|by apply (Granted _ _ _ _ Write); [right| |]].
  - unfold ok. rewrite L', D', R', Hp. eapply core_ext; [exact C'|done| |done].
    intros q x _. by apply insert_self.
  - apply awake_write. rewrite L', Hp, fn_lookup_insert. by destruct (els s Write).
Qed.

(** The request waits in [q]; somebody must be there to wake it up. *)
Lemma wait_core q s' :
  q = Read_wait ∨ q = Write_wait →
  fits env q (mk_data (owner (datas s d)) (ty s d) true (status_param (datas s d)) (priority (datas s d))) →
  awake s → els s Write ≠ [] ∨ (if bool_decide (q = Read_wait) then els s Write_wait else els s Read) ≠ [] →
  elements (lists s') = <[q:=els s q ++ [d]]> (elements (lists s)) →
  datas s' = <[d:=mk_data (owner (datas s d)) (ty s d) true (status_param (datas s d))
                (priority (datas s d))]> (datas s) →
  read_no_write_count s' = read_no_write_count s →
  inv s' ∧ placed s s' d q ∧ ty s' d = ty s d.
Proof.
  intros Hq Hfit [A1 A2] Hw HE HD HR. split_and!; [split| |].
  - unfold ok. rewrite HE, HD, HR. apply core_wait; try done. by rewrite (comm (++)).
  - split; rewrite HE; destruct Hq as [-> | ->];
      rewrite ?fn_lookup_insert, ?fn_lookup_insert_ne by done; try done; case_bool_decide; try done.
    + intros H1 H2. by destruct Hw.
    + intros H1 H2. by destruct Hw.
    + intros _. by destruct (els s Write_wait).
  - split; [done|]. intros x Hx. by rewrite HD, fn_lookup_insert_ne.
  - by rewrite HD, fn_lookup_insert.
Qed.

Lemma enter_queue_spec q :
  q = (if read_type (ty s d) then Read_wait else Write_wait) →
  fits env q (mk_data (owner (datas s d)) (ty s d) true (status_param (datas s d)) (priority (datas s d))) →
  awake s → els s Write ≠ [] ∨ (if bool_decide (q = Read_wait) then els s Write_wait else els s Read) ≠ [] →
  ∃ s' r, enter_queue q d s = Some (s', r) ∧ inv s' ∧ outcome s s' d r.
Proof.
  intros Hq Hfit A Hw. unfold enter_queue, wait_enter.
  assert (Hq' : q = Read_wait ∨ q = Write_wait) by (destruct (read_type (ty s d)); auto).
  destruct (append_seqs q d s Hfr Hd) as (p & -> & Hp). cbn [mbind option_bind].
  eexists _, _. split; [reflexivity|].
  match goal with |- inv ?x ∧ _ => destruct (wait_core q x) as (H1 & H2 & H3); [done..|] end.
  split; [exact H1|]. by apply (Queued _ _ _ _ q).
Qed.

Lemma queue_delayed_spec :
  ty s d = TL_WRITE_DELAYED → awake s → els s Write ≠ [] ∨ els s Read ≠ [] →
  ∃ s' r, (s ← on_lists (append Write_wait d) s; Some (set_cond d true s, Some THR_LOCK_SUCCESS))
      = Some (s', r) ∧ inv s' ∧ outcome s s' d r.
Proof.
  intros Ht A Hw.
  destruct (append_seqs Write_wait d s Hfr Hd) as (p & -> & Hp). cbn [mbind option_bind].
  eexists _, _. split; [reflexivity|].
  match goal with |- inv ?x ∧ _ => destruct (wait_core Write_wait x) as (H1 & H2 & H3);
    [by right|cbn; by rewrite Ht|done..|] end.
  split; [exact H1|]. apply Delayed; [exact H2|by rewrite <-Ht, <-H3|done].
Qed.
End ends.

Lemma no_stronger_concurrent t t' :
  no_stronger t t' → write_type t = true → concurrent_type t' = true → concurrent_type t = true.
Proof. intros [H|[-> ->]]; [|done]. destruct t, t'; cbn in *; try done; lia. Qed.

Lemma no_stronger_exclusive t t' :
  no_stronger t t' → exclusive t = true → exclusive t' = true.
Proof. intros [H|[-> ->]]; [|done]. destruct t, t'; cbn in *; try done; lia. Qed.

Lemma write_not_read t : write_type t = true → read_type t = false.
Proof. by destruct t. Qed.

(** ** What the head of the write list says about the others *)

Lemma head_exclusive s w l x :
  ok n env mixed s → els s Write = w :: l → x ∈ els s Write → exclusive (ty s x) = true →
  exclusive (ty s w) = true.
Proof.
  intros C HW Hx He. rewrite HW in Hx. apply elem_of_cons in Hx as [->|Hx]; [done|].
  apply (cp_order _ _ _ (co_compat _ _ _ _ _ _ C) (datas s w) (datas s x)); [|done].
  rewrite HW. cbn. by apply sublist_skip, singleton_sublist_l, list_elem_of_fmap_2.
Qed.

(** Exclusive locks have one owner. *)
Lemma exclusive_owner s w x :
  ok n env mixed s → x ∈ els s Write → w ∈ els s Write → exclusive (ty s x) = true →
  owner (datas s w) = owner (datas s x).
Proof.
  intros C Hx Hw He. destruct (decide (owner (datas s w) = owner (datas s x))) as [|Hne]; [done|].
  pose proof (cp_owner _ _ _ (co_compat _ _ _ _ _ _ C) (datas s x) (datas s w)) as H.
  exfalso. assert (concurrent_type (ty s x) = true) as Hc by (apply H; auto using list_elem_of_fmap_2).
  by destruct (ty s x).
Qed.

(** Where the head allows concurrent writes all others do. *)
Lemma head_concurrent s w l x :
  ok n env mixed s → els s Write = w :: l → concurrent_type (ty s w) = true → x ∈ els s Write →
  concurrent_type (ty s x) = true.
Proof.
  intros C HW Hc Hx. destruct (exclusive (ty s x)) eqn:He.
  { apply (head_exclusive s w l x C HW Hx) in He. by destruct (ty s w). }
  pose proof (co_fits _ _ _ _ _ _ C _ _ Hx) as [Ht _].
  destruct (decide (ty s x = TL_WRITE_DELAYED)) as [Hdl|Hdl]; [|by destruct (ty s x)].
  pose proof (cp_delayed _ _ _ (co_compat _ _ _ _ _ _ C) (datas s x)) as H.
  specialize (H (list_elem_of_fmap_2 _ _ _ Hx) Hdl). rewrite HW in H. injection H as H _.
  rewrite H, Hdl in Hc. done.
Qed.

Lemma outcome_trans s s1 s' d r :
  untouched s s1 d → read_type (ty s1 d) = read_type (ty s d) → outcome s1 s' d r → outcome s s' d r.
Proof.
  intros [U1 U2] Ht [q Hq [P1 P2] Hr|[P1 P2] Hty Hr|q Hq [P1 P2] Hr|[P1 P2] Hty Hr].
  - apply (Granted _ _ _ _ q); [done| |done]. split; [by rewrite P1, U1|]. intros. by rewrite P2, U2.
  - apply Delayed; [|done..]. split; [by rewrite P1, U1|]. intros. by rewrite P2, U2.
  - apply (Queued _ _ _ _ q); [by rewrite <-Ht| |done]. split; [by rewrite P1, U1|]. intros. by rewrite P2, U2.
  - apply Denied; [|done..]. split; [by rewrite P1, U1|]. intros. by rewrite P2, U2.
Qed.

(** ** The branches of [thr_lock] *)

Section branches.
Context (s : THR_LOCK seqs) (d : nat) (C : ok n env mixed s) (A : awake s).
Context (Hd : ∀ q, d ∉ els s q) (Hdn : d < n) (Hfr : fresh (lists s) d = true).
Context (Hcond : cond (datas s d) = false).
Context (Hmix : ∀ w, w ∈ els s Write → owner (datas s w) = owner (datas s d) → mixed).

Lemma thr_lock_read_spec :
  read_type (ty s d) = true →
  ∃ s' r, thr_lock_read n env d s = Some (s', r) ∧ inv s' ∧ outcome s s' d r.
Proof.
  intros Ht. unfold thr_lock_read. rewrite !top_els.
  assert (Hq : els s Write ≠ [] ∨ els s Write_wait ≠ [] →
    ∃ s' r, enter_queue Read_wait d s = Some (s', r) ∧ inv s' ∧ outcome s s' d r).
  { intros Hne. apply enter_queue_spec; try done. by rewrite Ht. }
  destruct (els s Write) as [|w l] eqn:HW; cbn [head].
  - cbn [has_old_lock seqs_store]. unfold Seqs.has_old_lock.
    assert (Hg : ∃ s' r, grant_read env d s = Some (s', r) ∧ inv s' ∧ outcome s s' d r).
    { apply grant_read_spec; try done; rewrite HW; intros w Hw; by apply not_elem_of_nil in Hw. }
    destruct (els s Write_wait) as [|w lw] eqn:Hww; cbn [head]; [done|].
    destruct (_ || _); cbn [mbind option_bind]; [done|]. destruct (existsb _ _); [done|]. apply Hq. by right.
  - match goal with |- context [if ?b || ?c then _ else _] => destruct (b || c) eqn:Hcnd end.
    + assert (Hw : w ∈ els s Write) by (rewrite HW; left).
      apply orb_true_iff in Hcnd as [Hown%bool_decide_eq_true|[Hle Hni]%andb_prop].
      * apply grant_read_spec; try done.
        -- intros x Hx He. rewrite Hown. by apply (exclusive_owner s w x C Hx).
        -- intros x Hx _ _. left. apply (Hmix w); [left|done].
      * apply grant_read_spec; try done.
        -- intros x Hx He. apply (head_exclusive s w l x C HW Hx) in He. by destruct (ty s w).
        -- intros x Hx Hci Hr. left.
           destruct (cp_same _ _ _ (co_compat _ _ _ _ _ _ C) (datas s w) (datas s x)) as [|E];
             [auto using list_elem_of_fmap_2..|].
           by rewrite E, Hci, Hr in Hni.
    + destruct (ty s w =? TL_WRITE_ONLY)%tl; [by apply deny_spec|]. apply Hq. by left.
Qed.

Hypothesis Hwt : write_type (ty s d) = true.
Hypothesis Hci : ty s d = TL_WRITE_CONCURRENT_INSERT → is_Some (check_status env).

Lemma fits_write_wait :
  fits env Write_wait (mk_data (owner (datas s d)) (ty s d) true (status_param (datas s d))
                         (priority (datas s d))).
Proof. done. Qed.

(** Joining the writers that hold the lock. *)
Lemma join_writers_spec w l :
  els s Write = w :: l → ty s d ≠ TL_WRITE_DELAYED →
  (∃ x, x ∈ els s Write ∧ owner (datas s x) = owner (datas s d)) →
  (∀ x, x ∈ els s Write → owner (datas s x) = owner (datas s d) →
     ty s x ≠ TL_WRITE_DELAYED ∧ no_stronger (ty s d) (ty s x)) →
  ∀ ci, ∃ s' r, grant_write env d ci s = Some (s', r) ∧ inv s' ∧ outcome s s' d r.
Proof.
  intros HW Hnd (x & Hx & Hox) Hord ci. destruct (Hord x Hx Hox) as [Hxd Hle].
  pose proof (co_compat _ _ _ _ _ _ C) as CP.
  assert (Hother : ∀ y, y ∈ els s Write → owner (datas s y) ≠ owner (datas s d) →
    concurrent_type (ty s y) = true ∧ concurrent_type (ty s d) = true).
  { intros y Hy Hne. pose proof (list_elem_of_fmap_2 (datas s) _ _ Hx) as Gx.
    pose proof (list_elem_of_fmap_2 (datas s) _ _ Hy) as Gy.
    split; [apply (cp_owner _ _ _ CP _ _ Gy Gx); congruence|].
    assert (Hc : concurrent_type (ty s x) = true) by (apply (cp_owner _ _ _ CP _ _ Gx Gy); congruence).
    by eapply no_stronger_concurrent. }
  apply grant_write_spec; try done.
  - intros He. pose proof (no_stronger_exclusive _ _ Hle He) as Hex.
    split.
    + intros r Hr. rewrite <-Hox. apply (cp_read _ _ _ CP (datas s x) (datas s r));
        auto using list_elem_of_fmap_2.
    + intros y Hy. destruct (decide (owner (datas s y) = owner (datas s d))) as [Ho|Ho].
      * destruct (Hord y Hy Ho) as [_ Hly]. by eapply no_stronger_exclusive.
      * apply Hother in Hy as [_ Hc]; [|done]. clear -Hc He. by destruct (ty s d).
  - intros y Hy. split; [|done]. intros Hdl.
    pose proof (cp_delayed _ _ _ CP (datas s y) (list_elem_of_fmap_2 _ _ _ Hy) Hdl) as E.
    pose proof (list_elem_of_fmap_2 (datas s) _ _ Hx) as Gx. rewrite E in Gx.
    apply list_elem_of_singleton in Gx. congruence.
  - intros y _. left. by apply (Hmix x).
  - intros r _ _ _. left. by apply (Hmix x).
Qed.

Lemma thr_lock_second_write_spec w l :
  els s Write = w :: l → ty s d ≠ TL_WRITE_DELAYED →
  (∀ x, x ∈ els s Write → owner (datas s x) = owner (datas s d) →
     ty s x ≠ TL_WRITE_DELAYED ∧ no_stronger (ty s d) (ty s x)) →
  ∃ s' r, thr_lock_second_write n env d w s = Some (s', r) ∧ inv s' ∧ outcome s s' d r.
Proof.
  intros HW Hnd Hord. unfold thr_lock_second_write. destruct (_ && negb _); [by apply deny_spec|].
  rewrite !top_els. cbn [has_old_lock seqs_store]. unfold Seqs.has_old_lock.
  destruct (_ && _) eqn:Hq; cbn [mbind option_bind].
  - apply andb_prop in Hq as [[[Hq _]%andb_prop Hw%bool_decide_eq_true]%andb_prop Hno].
    assert (Hc : concurrent_type (ty s d) = true) by (clear -Hq; by destruct (ty s d)).
    assert (Hall : ∀ x, x ∈ els s Write → concurrent_type (ty s x) = true).
    { intros x. apply (head_concurrent s w l x C HW). by rewrite Hw. }
    apply grant_write_spec; try done.
    + intros x Hx _. auto.
    + intros He. clear -Hc He. by destruct (ty s d).
    + intros x Hx%Hall. split; [|done]. intros E. by rewrite E in Hx.
    + intros x Hx. rewrite <-Hw. apply (cp_same _ _ _ (co_compat _ _ _ _ _ _ C) (datas s x) (datas s w));
        apply list_elem_of_fmap_2; [done|]. rewrite HW. left.
    + intros r Hr Hi Hn'. destruct (no_insert_readers n env mixed s (ty s d) C) with r; try done.
      by rewrite Hno, orb_true_r.
  - destruct (existsb _ _) eqn:He.
    + apply existsb_exists in He as (x & Hx & Ho%bool_decide_eq_true).
      apply (join_writers_spec w l); try done. exists x. split; [|done]. by apply list_elem_of_In.
    + apply enter_queue_spec; try done; [by rewrite write_not_read|]. left. by rewrite HW.
Qed.

(** Nobody writes and nobody waits to write. *)
Lemma first_write_spec ci :
  els s Write = [] → (exclusive (ty s d) = true → els s Read = []) → inserts_free s (ty s d) →
  ∃ s' r, grant_write env d ci s = Some (s', r) ∧ inv s' ∧ outcome s s' d r.
Proof.
  intros HW HR Hf. apply grant_write_spec; try done; rewrite ?HW.
  - intros w Hw. by apply not_elem_of_nil in Hw.
  - intros He. rewrite HR by done. split; intros w Hw; by apply not_elem_of_nil in Hw.
  - intros w Hw. by apply not_elem_of_nil in Hw.
  - intros w Hw. by apply not_elem_of_nil in Hw.
  - intros r Hr Hi Hn'. by destruct (Hf Hi r Hr).
Qed.
End branches.

(** The states in which a request of a given type can be decided. *)
Record ready s (d : nat) : Prop := {
  rd_ok : ok n env mixed s;
  rd_awake : awake s;
  rd_free q : d ∉ els s q;
  rd_bound : d < n;
  rd_fresh : fresh (lists s) d = true;
  rd_cond : cond (datas s d) = false;
}.

Lemma ready_retype s d t :
  ready s d → ready (set_type d t s) d ∧ untouched s (set_type d t s) d.
Proof.
  intros [H1 [A1 A2] H2 H3 H4 H5].
  assert (U : untouched s (set_type d t s) d).
  { split; [done|]. intros x Hx. cbn. by rewrite fn_lookup_insert_ne. }
  split; [|done]. split; [by eapply free_ok|by split|done..|].
  cbn. by rewrite fn_lookup_insert.
Qed.

Lemma ready_emit s d e : ready s d → ready (emit e s) d ∧ untouched s (emit e s) d.
Proof. intros [H1 [A1 A2] H2 H3 H4 H5]. split; [split|]; try done; by split. Qed.

Lemma untouched_trans s1 s2 s3 d : untouched s1 s2 d → untouched s2 s3 d → untouched s1 s3 d.
Proof. intros [A1 A2] [B1 B2]. split; [by rewrite B1, A1|]. intros. by rewrite B2, A2. Qed.

(** The check of a concurrent insert in [thr_lock_only_write]. *)
Lemma check_insert_spec s d :
  upgraded_ok → ready s d → write_type (ty s d) = true →
  (ty s d = TL_WRITE_CONCURRENT_INSERT → is_Some (check_status env)) →
  ∃ ci s1,
    (if (ty s d =? TL_WRITE_CONCURRENT_INSERT)%tl then
       '(bad, s) ← call_check_status env d s;
       Some (if bad : bool
             then (false, set_type d (thr_upgraded_concurrent_insert_lock env) s)
             else (true, s))
     else Some (false, s)) = Some (ci, s1)
    ∧ ready s1 d ∧ untouched s s1 d ∧ write_type (ty s1 d) = true
    ∧ (ty s1 d = TL_WRITE_CONCURRENT_INSERT → is_Some (check_status env)).
Proof.
  intros Hup Rd Ht Hcs. case_bool_decide as Hci; [|by exists false, s].
  destruct (Hcs Hci) as [f Hf]. unfold call_check_status. rewrite Hf. cbn [mbind option_bind].
  destruct (ready_emit s d (Check_status (status_param (datas s d))) Rd) as [Rd1 U1].
  destruct (f _ _); [|eexists true, _; split_and!; [done..|by eauto]].
  destruct (ready_retype _ d (thr_upgraded_concurrent_insert_lock env) Rd1) as [Rd2 U2].
  eexists false, _. split_and!; [done|done|by eapply untouched_trans|..];
    cbn; rewrite fn_lookup_insert; destruct Hup as [-> | ->]; done.
Qed.

Lemma thr_lock_only_write_spec s d :
  upgraded_ok → ready s d → write_type (ty s d) = true → els s Write = [] →
  (ty s d = TL_WRITE_CONCURRENT_INSERT → is_Some (check_status env)) →
  ∃ s' r, thr_lock_only_write env d s = Some (s', r) ∧ inv s' ∧ outcome s s' d r.
Proof.
  intros Hup Rd Ht HW Hcs. pose proof Rd as [C A Hd Hdn Hfr Hc]. unfold thr_lock_only_write.
  rewrite top_els. destruct (els s Write_wait) as [|w l] eqn:Hww; cbn [head].
  - destruct (check_insert_spec s d Hup Rd Ht Hcs) as (ci & s1 & -> & Rd1 & U1 & Ht1 & Hcs1).
    cbn [mbind option_bind]. pose proof Rd1 as [C1 A1 Hd1 _ Hfr1 Hc1].
    assert (HW1 : els s1 Write = []) by (by rewrite (un_lists _ _ _ U1)).
    rewrite top_els. destruct (negb _ || _) eqn:Hg.
    + destruct (first_write_spec s1 d C1 Hd1 Hdn Hfr1 Hc1 Ht1 ci HW1) as (s' & r & H1 & H2 & H3).
      { intros He. apply orb_true_iff in Hg as [Hg|[Hg _]%andb_prop].
        - by destruct (els s1 Read).
        - by destruct (ty s1 d). }
      { apply orb_true_iff in Hg as [Hg|[_ Hg]%andb_prop]; [|by apply (no_insert_readers n env mixed)].
        intros _ x Hx. destruct (els s1 Read); [by apply not_elem_of_nil in Hx|done]. }
      exists s', r. split_and!; [done..|eapply outcome_trans; [exact U1|by rewrite !write_not_read|done]].
    + destruct (enter_queue_spec s1 d C1 Hd1 Hdn Hfr1 Write_wait) as (s' & r & H1 & H2 & H3);
        [by rewrite write_not_read|done|done| |].
      { right. rewrite bool_decide_false by done. apply orb_false_elim in Hg as [Hg _].
        by destruct (els s1 Read). }
      exists s', r. split_and!; [done..|eapply outcome_trans; [exact U1|by rewrite !write_not_read|done]].
  - apply enter_queue_spec; try done; [by rewrite write_not_read|]. right. rewrite bool_decide_false by done.
    intros HR. by rewrite (aw_idle _ A HW HR) in Hww.
Qed.

Lemma thr_lock_write_spec s d :
  upgraded_ok → ready s d → write_type (ty s d) = true →
  (∀ x, x ∈ els s Write → owner (datas s x) = owner (datas s d) →
     ty s x ≠ TL_WRITE_DELAYED ∧ no_stronger (effective_type (ty s d)) (ty s x)) →
  (∀ x, x ∈ els s Write → owner (datas s x) = owner (datas s d) → mixed) →
  ∃ s' r, thr_lock_write n env d s = Some (s', r) ∧ inv s' ∧ outcome s s' d r.
Proof.
  intros Hup Rd Ht Hord Hmix. pose proof Rd as [C A Hd Hdn Hfr Hc]. unfold thr_lock_write.
  destruct (_ && match _ with Some _ => _ | None => _ end); [by apply deny_spec|].
  destruct (_ && (_ || _)) eqn:Hdel.
  { apply andb_prop in Hdel as [Hdel%bool_decide_eq_true Hne]. rewrite !top_els in Hne.
    apply queue_delayed_spec; try done. destruct (els s Write); [right|by left]. by destruct (els s Read). }
  match goal with |- context [first Write (lists ?x)] => set (s1 := x) end.
  assert (H1 : ready s1 d ∧ untouched s s1 d ∧ ty s1 d = effective_type (ty s d)
    ∧ owner (datas s1 d) = owner (datas s d)).
  { unfold s1, effective_type. destruct (_ && negb _); [|by split_and!].
    destruct (ready_retype s d (thr_upgraded_concurrent_insert_lock env) Rd).
    split_and!; [done..|by cbn; rewrite fn_lookup_insert|by cbn; rewrite fn_lookup_insert]. }
  destruct H1 as (Rd1 & U1 & Et & Eo). clearbody s1. pose proof Rd1 as [C1 A1 Hd1 _ Hfr1 Hc1].
  assert (Ht1 : write_type (ty s1 d) = true ∧ (ty s1 d = TL_WRITE_CONCURRENT_INSERT → is_Some (check_status env))).
  { rewrite Et. unfold effective_type. destruct (_ && negb _) eqn:E.
    - destruct Hup as [-> | ->]; done.
    - split; [done|]. intros Hci. rewrite Hci in E. cbn in E. apply negb_false_iff, bool_decide_eq_true in E. done. }
  destruct Ht1 as [Ht1 Hcs1]. rewrite top_els. destruct (els s1 Write) as [|w l] eqn:HW; cbn [head].
  - destruct (thr_lock_only_write_spec s1 d) as (s' & r & H1 & H2 & H3); try done.
    exists s', r. split_and!; [done..|eapply outcome_trans; [exact U1|by rewrite !write_not_read|done]].
  - pose proof (un_lists _ _ _ U1) as UL.
    assert (Hmix1 : ∀ x, x ∈ els s1 Write → owner (datas s1 x) = owner (datas s1 d) → mixed).
    { intros x Hx Ho. assert (x ≠ d) by (intros ->; by apply Hd1 in Hx).
      rewrite (un_datas _ _ _ U1 x) in Ho by done. apply (Hmix x); [by rewrite <-UL|congruence]. }
    destruct (thr_lock_second_write_spec s1 d C1 A1 Hd1 Hdn Hfr1 Hc1 Hmix1 Ht1 Hcs1 w l HW) as (s' & r & H1 & H2 & H3).
    { intros E. rewrite Et in E.
      assert (Hdel' : ty s d = TL_WRITE_DELAYED).
      { clear -E Hup. unfold effective_type in E. destruct (_ && negb _); [|done]. destruct Hup; congruence. }
      rewrite Hdel' in Hdel. cbn in Hdel. rewrite !top_els in Hdel. rewrite <-UL, HW in Hdel. done. }
    { intros x Hx Ho. assert (x ≠ d) by (intros ->; by apply Hd1 in Hx).
      rewrite (un_datas _ _ _ U1 x) in Ho |- * by done. rewrite Et. apply Hord; [by rewrite <-UL|congruence]. }
    exists s', r. split_and!; [done..|eapply outcome_trans; [exact U1|by rewrite !write_not_read|done]].
Qed.

(** [thr_lock] always decides; see [outcome]. *)
Lemma thr_lock_spec s d o :
  upgraded_ok → inv s → request s d o →
  (∀ x, x ∈ els s Write → owner (datas s x) = o → mixed) →
  ∃ s' r, thr_lock n env d o s = Some (s', r) ∧ inv s' ∧ outcome s s' d r.
Proof.
  intros Hup [C A] [Hd Hdn Ht Hord] Hmix. unfold thr_lock, on_lists.
  cbn [reset_next seqs_store]. unfold Seqs.reset_next.
  replace (linked (lists s) d) with false by (symmetry; by apply not_linked).
  cbn [mbind option_bind]. set (x := mk_data _ _ _ _ _).
  match goal with |- context [set_data d x ?y] => set (s1 := set_data d x y) end.
  assert (U : untouched s s1 d).
  { split; [done|]. intros y Hy. cbn. by rewrite fn_lookup_insert_ne. }
  assert (Dd : datas s1 d = x) by (cbn; by rewrite fn_lookup_insert).
  assert (Rd : ready s1 d).
  { split; [by eapply free_ok|by destruct A; split|done|done|cbn; by rewrite fn_lookup_insert|by rewrite Dd]. }
  assert (Hmix1 : ∀ y, y ∈ els s1 Write → owner (datas s1 y) = owner (datas s1 d) → mixed).
  { intros y Hy Ho. assert (y ≠ d) by (intros ->; by apply Hd in Hy).
    rewrite (un_datas _ _ _ U y) in Ho by done. rewrite Dd in Ho. by apply (Hmix y). }
  destruct Ht as [Ht|Ht].
  - assert (Hr : read_type (ty s1 d) = true) by (by rewrite Dd).
    replace (_ <? _)%tl with true by (rewrite Dd; unfold x; cbn; by destruct (ty s d)).
    destruct Rd as [C1 A1 Hd1 _ Hfr1 Hc1].
    destruct (thr_lock_read_spec s1 d C1 A1 Hd1 Hdn Hfr1 Hc1 Hmix1 Hr) as (s' & r & H1 & H2 & H3).
    exists s', r. split_and!; [done..|eapply outcome_trans; [exact U|by rewrite Dd|done]].
  - assert (Hr : write_type (ty s1 d) = true) by (by rewrite Dd).
    replace (_ <? _)%tl with false by (rewrite Dd; unfold x; cbn; by destruct (ty s d)).
    destruct (thr_lock_write_spec s1 d Hup Rd Hr) as (s' & r & H1 & H2 & H3).
    { intros y Hy Ho. assert (y ≠ d) by (intros ->; by apply Hd in Hy).
      rewrite (un_datas _ _ _ U y) in Ho |- * by done. rewrite Dd in Ho |- *. by apply Hord. }
    { done. }
    exists s', r. split_and!; [done..|eapply outcome_trans; [exact U|by rewrite Dd|done]].
Qed.
End request.
