(* ===== verification/ThrProtocol.v ===== *)
(** * Table locks: the protocol of requests, waits, releases and aborts

    Every operation of the lock manager preserves the invariant of the lock; the
    operations are then the steps of a transition system in which threads also
    wait inside [wait_for_lock].  In every reachable state exclusive locks
    exclude, nobody waits for a lock that nobody holds, and a thread that comes
    back from its wait knows what it has. *)

From stdpp Require Import functions.
From S2P Require Import Prelude ThrLock ThrSpec ThrRefine ThrInv ThrWake ThrRequest.

Section operations.
Context (n : nat) (env : lock_env) (mixed : Prop) (Hn : (Z.of_nat n < 2 ^ 32)%Z).
Implicit Types s : THR_LOCK seqs.

Abbreviation ok := (ok n env mixed).
Abbreviation inv := (inv n env mixed).

(** Fewer requests, with the same attributes as before. *)
Lemma core_sub E E' D D' c :
  core n env mixed E D c → (∀ q, sublist (E' q) (E q)) → E' Read = E Read →
  (∀ q d, d ∈ E' q → D' d = D d) → core n env mixed E' D' c.
Proof.
  intros C Hs HR HD. assert (Hin : ∀ q x, x ∈ E' q → x ∈ E q) by (intros; by eapply elem_of_sublist).
  eapply (core_ext _ _ _ E' E' D); [|done|done|done]. split.
  - intros q. eapply sublist_NoDup; [apply C|apply Hs].
  - intros q1 q2 x H1%Hin H2%Hin. by eapply C.
  - intros q x Hx%Hin. by eapply C.
  - intros q x Hx%Hin. by apply C.
  - rewrite HR. apply C.
  - rewrite HR. eapply compat_sublist; [apply C|apply fmap_sublist, Hs|done].
Qed.

Lemma elem_of_length_pos {A} (x : A) l : x ∈ l → 0 < length l.
Proof. intros H. destruct l; [by apply not_elem_of_nil in H|cbn; lia]. Qed.

(** ** Release *)

Lemma unlink_seqs q d s :
  d ∈ els s q →
  on_lists (unlink q d) s
  = Some (mk_lock (Seqs.put q (filter (.≠ d) (els s q)) (lists s)) (datas s)
            (read_no_write_count s) (write_lock_count s) (log s)).
Proof.
  intros Hd. unfold on_lists. cbn [unlink seqs_store]. unfold Seqs.unlink.
  by rewrite bool_decide_true.
Qed.

(** The state after [d] has left the list [q] and been marked unlocked. *)
Record removed s s' (d : nat) (q : lock_list) : Prop := {
  rm_lists : elements (lists s') = <[q:=filter (.≠ d) (els s q)]> (elements (lists s));
  rm_datas x : x ≠ d → datas s' x = datas s x;
  rm_type : ty s' d = TL_UNLOCK;
}.

Lemma removed_unlinked s s' d q :
  ok s → d ∈ els s q → removed s s' d q → ∀ q', d ∉ els s' q'.
Proof. intros C Hd [H _ _] q'. rewrite H. by eapply unlinked_after. Qed.

Lemma removed_ok s s' d q :
  ok s → d ∈ els s q → removed s s' d q →
  read_no_write_count s'
  = (read_no_write_count s - if bool_decide (q = Read) && no_insert (datas s) d then 1 else 0)%Z →
  ok s'.
Proof.
  intros C Hd R Hc. pose proof (removed_unlinked _ _ _ _ C Hd R) as Hu. destruct R as [H1 H2 _].
  unfold ThrWake.ok. rewrite H1, Hc. eapply core_ext; [by apply core_unlink|done| |done].
  intros q' x Hx. apply H2. intros ->. apply (Hu q'). by rewrite H1.
Qed.

(** A lock that is held, or a delayed one that is queued. *)
Definition held s (d : nat) (q : lock_list) : Prop :=
  d ∈ els s q ∧ (q = Read ∨ q = Write ∨ q = Write_wait ∧ ty s d = TL_WRITE_DELAYED).

Lemma unlock_list_held s d q : ok s → held s d q → unlock_list (datas s d) = q.
Proof.
  intros C [Hd Hq]. pose proof (co_fits _ _ _ _ _ _ C _ _ Hd) as Hf. unfold unlock_list.
  destruct Hq as [->|[->|[-> Ht]]]; cbn in Hf.
  - destruct Hf as [Hf _]. by destruct (ty s d).
  - destruct Hf as [Hf Hc]. rewrite Hc, andb_false_r. by destruct (ty s d).
  - destruct Hf as (_ & Hc & _). by rewrite Hc, Ht.
Qed.

Lemma unlock_status_same x flags s :
  lists (unlock_status env x flags s) = lists s ∧ datas (unlock_status env x flags s) = datas s
  ∧ read_no_write_count (unlock_status env x flags s) = read_no_write_count s.
Proof. unfold unlock_status. repeat case_match; done. Qed.

Lemma thr_unlock_spec s d q flags :
  ok s → held s d q →
  ∃ s1 s', thr_unlock n env d flags s = Some s' ∧ inv s' ∧ removed s s1 d q ∧ evolves s1 s'.
Proof.
  intros C Hh. pose proof Hh as [Hd _]. unfold thr_unlock.
  rewrite (unlock_list_held s d q C Hh), unlink_seqs by done. cbn [mbind option_bind].
  match goal with |- context [unlock_status env ?x flags ?y] =>
    destruct (unlock_status_same x flags y) as (L2 & D2 & R2); set (s2 := unlock_status env x flags y) in * end.
  cbn in L2, D2, R2.
  match goal with |- context [wake_up_waiters n env (set_type d TL_UNLOCK ?x)] => set (s3 := x) end.
  assert (H3 : lists s3 = lists s2 ∧ datas s3 = datas s2 ∧ read_no_write_count s3
    = (read_no_write_count s - if bool_decide (q = Read) && no_insert (datas s) d then 1 else 0)%Z).
  { unfold s3. case_bool_decide as Hni; cbn [set_read_no_write_count lists datas read_no_write_count].
    - split_and!; [done..|]. rewrite R2. unfold no_insert. rewrite Hni.
      assert (Hq : q = Read).
      { pose proof (unlock_list_held s d q C Hh) as Hu. unfold unlock_list in Hu. by rewrite Hni in Hu. }
      subst q. rewrite !bool_decide_true by done. cbn [andb]. apply Z.mod_small.
      pose proof (ok_read_length n env mixed s C) as Hl. rewrite (co_count _ _ _ _ _ _ C).
      pose proof (length_filter (no_insert (datas s)) (els s Read)).
      assert (Hp : d ∈ filter (no_insert (datas s)) (els s Read))
        by (apply list_elem_of_filter; split; [unfold no_insert; by rewrite Hni|done]).
      apply elem_of_length_pos in Hp. lia.
    - split_and!; [done..|]. unfold no_insert. rewrite (bool_decide_false _ Hni), andb_false_r. lia. }
  destruct H3 as (L3 & D3 & R3).
  assert (Hrm : removed s (set_type d TL_UNLOCK s3) d q).
  { split; cbn; rewrite ?L3, ?L2, ?D3, ?D2; [done| |by rewrite fn_lookup_insert].
    intros x Hx. by rewrite fn_lookup_insert_ne. }
  assert (C3 : ok (set_type d TL_UNLOCK s3)) by (by eapply removed_ok).
  destruct (wake_up_spec n env mixed Hn _ C3) as (s' & H1 & H2 & H3 & H4).
  eexists _, s'. split_and!; [done|by split|exact Hrm|done].
Qed.

(** ** The end of a wait *)

(** Where a thread inside [wait_for_lock] on the list [q] may find its request:
    still waiting, granted, or aborted. *)
Definition active (q : lock_list) : lock_list :=
  match q with Read_wait => Read | Write_wait => Write | q => q end.

Inductive wait_state s (d : nat) (q : lock_list) : Prop :=
  | Still_waiting : d ∈ els s q → wait_state s d q
  | Was_granted : d ∈ els s (active q) → wait_state s d q
  | Was_aborted : (∀ q', d ∉ els s q') → cond (datas s d) = false → ty s d = TL_UNLOCK →
      wait_state s d q.

Definition wait_list (q : lock_list) : Prop := q = Read_wait ∨ q = Write_wait.

#[global] Instance wait_list_dec q : Decision (wait_list q).
Proof. unfold wait_list. apply _. Defined.

Lemma call_get_status_same d ci s :
  ∃ b s', call_get_status env d ci s = (b, s') ∧ lists s' = lists s ∧ datas s' = datas s
    ∧ read_no_write_count s' = read_no_write_count s ∧ (get_status env = None → b = false).
Proof. unfold call_get_status. destruct (get_status env); eexists _, _; by split_and!. Qed.

Lemma fits_active q x :
  wait_list q → fits env (active q) x → cond x = false ∧ type x ≠ TL_UNLOCK.
Proof. intros [-> | ->] [Ht Hc]; (split; [done|]); intros E; rewrite E in Ht; done. Qed.

Lemma fits_waiting q x : wait_list q → fits env q x → cond x = true.
Proof. by intros [-> | ->]; cbn; [intros [_ ?]|intros (_ & ? & _)]. Qed.

Lemma wait_leave_spec s d q r :
  inv s → wait_list q → wait_state s d q →
  ∃ s' r', wait_leave n env q d r s = Some (s', r') ∧ inv s'
    ∧ (d ∈ els s' (active q) ∧ elements (lists s') = elements (lists s) ∧ datas s' = datas s
         ∧ (r' = THR_LOCK_SUCCESS ∨ r' = THR_LOCK_ABORTED ∧ is_Some (get_status env))
       ∨ s' = s ∧ (∀ q', d ∉ els s' q') ∧ r' = r
       ∨ ∃ s1, removed s s1 d q ∧ evolves s1 s' ∧ (∀ q', d ∉ els s' q') ∧ r' = r).
Proof.
  intros [C [A1 A2]] Hq Hw. unfold wait_leave. destruct Hw as [Hd|Hd|Hd Hc Ht].
  - rewrite (fits_waiting q _ Hq (co_fits _ _ _ _ _ _ C _ _ Hd)), unlink_seqs by done. cbn [mbind option_bind].
    match goal with |- context [wake_up_waiters n env ?x] => set (s1 := x) end.
    assert (Hrm : removed s s1 d q).
    { split; cbn; [done| |by rewrite fn_lookup_insert]. intros x Hx. by rewrite fn_lookup_insert_ne. }
    assert (C1 : ok s1).
    { eapply removed_ok; [done..|]. rewrite bool_decide_false by (destruct Hq; congruence). cbn. lia. }
    destruct (wake_up_spec n env mixed Hn s1 C1) as (s' & -> & C' & A' & Ev). cbn [mbind option_bind].
    exists s', r. split_and!; [done|by split|]. right; right. exists s1. split_and!; [done..| |done].
    by apply (ev_idle _ _ Ev), (removed_unlinked s s1 d q).
  - destruct (fits_active q _ Hq (co_fits _ _ _ _ _ _ C _ _ Hd)) as [-> Ht].
    rewrite (bool_decide_false _ Ht).
    destruct (call_get_status_same d (ty s d =? TL_WRITE_CONCURRENT_INSERT)%tl s) as (b & s' & -> & L & D & R & Hb).
    eexists s', _. split; [reflexivity|]. split; [split|left; split_and!].
    + unfold ThrWake.ok. by rewrite L, D, R.
    + split; by rewrite L.
    + by rewrite L.
    + by rewrite L.
    + done.
    + destruct b; [|by left]. right. split; [done|]. destruct (get_status env); [done|by discriminate Hb].
  - rewrite Hc, bool_decide_true by done. exists s, r. split_and!; [done|done|]. right; left. done.
Qed.

(** ** Aborts *)

Lemma datas_foldl_kill l s x :
  datas (foldl (λ s d, kill d s) s l) x
  = if decide (x ∈ l)
    then mk_data (owner (datas s x)) TL_UNLOCK false (status_param (datas s x)) (priority (datas s x))
    else datas s x.
Proof.
  revert s. induction l as [|d l IH]; intros s; cbn [foldl].
  - by rewrite decide_False by apply not_elem_of_nil.
  - rewrite IH. unfold kill, mark_free, set_cond, set_type, emit, set_data. cbn.
    destruct (decide (x = d)) as [->|Hne].
    + rewrite !fn_lookup_insert, (decide_True (P := d ∈ d :: l)) by left. by case_decide.
    + rewrite !fn_lookup_insert_ne by done. repeat case_decide; try done; mem.
Qed.

Lemma rnw_foldl_kill l s :
  read_no_write_count (foldl (λ s d, kill d s) s l) = read_no_write_count s.
Proof. revert s. induction l as [|d l IH]; intros s; cbn [foldl]; [done|]. by rewrite IH. Qed.

(** The requests that satisfy [hit] have left the waiting lists. *)
Record aborted s s' (hit : nat → bool) : Prop := {
  ab_list q : els s' q = if bool_decide (wait_list q) then filter (λ d, negb (hit d)) (els s q) else els s q;
  ab_datas x : datas s' x
    = if decide (hit x = true ∧ (x ∈ els s Read_wait ∨ x ∈ els s Write_wait))
      then mk_data (owner (datas s x)) TL_UNLOCK false (status_param (datas s x)) (priority (datas s x))
      else datas s x;
  ab_count : read_no_write_count s' = read_no_write_count s;
}.

Lemma aborted_ok s s' hit : ok s → aborted s s' hit → ok s'.
Proof.
  intros C [H1 H2 H3]. unfold ThrWake.ok. rewrite H3. eapply core_sub; [exact C|..].
  - intros q. rewrite H1. case_bool_decide; [apply sublist_filter|done].
  - rewrite H1. rewrite bool_decide_false; [done|]. intros [?|?]; congruence.
  - intros q d Hd. rewrite H2. case_decide as Hc; [exfalso|done]. rewrite H1 in Hd.
    destruct Hc as [Hh Hw]. case_bool_decide as Hq.
    + apply list_elem_of_filter in Hd as [Hd _]. by rewrite Hh in Hd.
    + apply Hq. destruct Hw as [Hw|Hw]; [left|right]; by eapply C.
Qed.

(** One of the loops of the abort routines. *)
Record killed s s' (q : lock_list) (hit : nat → bool) : Prop := {
  ki_list : elements (lists s') = <[q:=filter (λ d, negb (hit d)) (els s q)]> (elements (lists s));
  ki_datas x : datas s' x
    = if decide (x ∈ filter hit (els s q))
      then mk_data (owner (datas s x)) TL_UNLOCK false (status_param (datas s x)) (priority (datas s x))
      else datas s x;
  ki_count : read_no_write_count s' = read_no_write_count s;
}.

Lemma abort_list_killed q s :
  ∃ s', abort_list n q s = Some s' ∧ killed s s' q (λ _, true).
Proof.
  cbn [abort_list seqs_store]. unfold Seqs.abort_list, on_lists. rewrite lists_foldl_kill.
  cbn [mbind option_bind]. eexists. split; [reflexivity|].
  split; cbn [lists elements Seqs.put datas read_no_write_count].
  - rewrite filter_none; [done|]. by intros x _ [].
  - intros x. rewrite filter_all by done. apply datas_foldl_kill.
  - apply rnw_foldl_kill.
Qed.

Lemma abort_thread_killed q mine b s :
  ∃ b' s', abort_thread_list n mine q (b, s) = Some (b', s')
    ∧ killed s s' q (λ d, mine (owner (datas s d))).
Proof.
  cbn [abort_thread_list seqs_store]. unfold Seqs.abort_thread_list, on_lists. rewrite lists_foldl_kill.
  cbn [mbind option_bind]. eexists _, _. split; [reflexivity|].
  split; cbn [lists elements Seqs.put datas read_no_write_count];
    [done|apply datas_foldl_kill|apply rnw_foldl_kill].
Qed.

Lemma killed_aborted s s1 s2 hit hit' :
  killed s s1 Read_wait hit → killed s1 s2 Write_wait hit' →
  (∀ d, d ∈ els s Write_wait → hit' d = hit d) →
  (∀ d, d ∈ els s Read_wait → d ∉ els s Write_wait) → aborted s s2 hit.
Proof.
  intros [A1 A2 A3] [B1 B2 B3] Hh Hdj.
  assert (HW1 : els s1 Write_wait = els s Write_wait) by (by rewrite A1, fn_lookup_insert_ne).
  assert (Hf : filter hit' (els s Write_wait) = filter hit (els s Write_wait)
    ∧ filter (λ d, negb (hit' d)) (els s Write_wait) = filter (λ d, negb (hit d)) (els s Write_wait)).
  { split; apply filter_ext_in; intros d Hd; by rewrite Hh. }
  rewrite HW1 in *. destruct Hf as [Hf1 Hf2]. rewrite Hf2 in B1.
  split; [|intros x; rewrite B2, A2, Hf1|by rewrite B3].
  - intros q. rewrite B1. destruct q; rewrite ?fn_lookup_insert, ?fn_lookup_insert_ne, ?A1 by done;
      rewrite ?fn_lookup_insert, ?fn_lookup_insert_ne by done; case_bool_decide as Hq; try done;
      try (destruct Hq; congruence); by destruct Hq; (by left) || by right.
  - repeat case_decide; rewrite ?list_elem_of_filter in *; try done;
      destruct (hit x) eqn:E; naive_solver.
Qed.

(** ** [thr_abort_locks] and [thr_abort_locks_for_thread] *)

Lemma thr_abort_locks_spec s :
  inv s → ∃ s', thr_abort_locks n false s = Some s' ∧ inv s' ∧ aborted s s' (λ _, true).
Proof.
  intros [C A]. unfold thr_abort_locks.
  destruct (abort_list_killed Read_wait s) as (s1 & -> & K1). cbn [mbind option_bind].
  destruct (abort_list_killed Write_wait s1) as (s2 & -> & K2). cbn [mbind option_bind].
  exists s2. assert (Hab : aborted s s2 (λ _, true)).
  { eapply killed_aborted; [done..|]. intros d H1 H2. by pose proof (co_disj _ _ _ _ _ _ C _ _ _ H1 H2). }
  split_and!; [by case_match|split; [by eapply aborted_ok|]|done].
  assert (Hnil : ∀ q, wait_list q → els s2 q = []).
  { intros q Hq. rewrite (ab_list _ _ _ Hab), bool_decide_true by done. apply filter_none. by intros x _ []. }
  split; intros _ _; apply Hnil; [by right|by left].
Qed.

Lemma thr_abort_for_thread_spec s id :
  inv s → ∃ found s1 s', thr_abort_locks_for_thread n env id s = Some (found, s') ∧ inv s'
    ∧ aborted s s1 (λ d, (thread_id env (owner (datas s d)) =? id)%Z) ∧ evolves s1 s'.
Proof.
  intros [C A]. unfold thr_abort_locks_for_thread.
  destruct (abort_thread_killed Read_wait (λ o, thread_id env o =? id)%Z false s) as (b1 & s1 & -> & K1).
  cbn [mbind option_bind].
  destruct (abort_thread_killed Write_wait (λ o, thread_id env o =? id)%Z b1 s1) as (b2 & s2 & -> & K2).
  cbn [mbind option_bind].
  assert (Hab : aborted s s2 (λ d, (thread_id env (owner (datas s d)) =? id)%Z)).
  { eapply killed_aborted; [exact K1|exact K2|..].
    - intros d _. cbn beta. rewrite (ki_datas _ _ _ _ K1). by case_decide.
    - intros d H1 H2. by pose proof (co_disj _ _ _ _ _ _ C _ _ _ H1 H2). }
  destruct (wake_up_spec n env mixed Hn s2) as (s' & -> & C' & A' & Ev); [by eapply aborted_ok|].
  cbn [mbind option_bind]. exists b2, s2, s'. by split_and!.
Qed.

(** ** The delayed-insert handler and the downgrade *)

(** The only write lock changes its type. *)
Lemma core_retype E D c d x :
  core n env mixed E D c → E Write = [d] → fits env Write x →
  (∀ r, r ∈ E Read → owner (D r) = owner x) →
  core n env mixed E (<[d:=x]> D) c.
Proof.
  intros C HW Hx He. assert (Hd : d ∈ E Write) by (rewrite HW; left).
  assert (Hne : ∀ q y, q ≠ Write → y ∈ E q → y ≠ d) by (intros q y H1 H2 ->; apply H1; by eapply C).
  split; try apply C.
  - intros q y Hy. destruct (decide (y = d)) as [->|Hyd].
    + rewrite fn_lookup_insert. by rewrite (co_disj _ _ _ _ _ _ C _ _ _ Hy Hd).
    + rewrite fn_lookup_insert_ne by done. by apply C.
  - rewrite (co_count _ _ _ _ _ _ C). f_equal. f_equal. apply filter_ext_in. intros y Hy.
    unfold no_insert. rewrite fn_lookup_insert_ne; [done|]. by apply not_eq_sym, (Hne Read).
  - rewrite HW. cbn. rewrite fn_lookup_insert, fmap_insert_fresh by (intros G; by eapply Hne in G).
    apply (compat_writer _ []); [apply compat_nil|..].
    + intros w Hw. by apply not_elem_of_nil in Hw.
    + intros Hex. split; [|intros w Hw; by apply not_elem_of_nil in Hw].
      intros r (y & -> & Hy)%list_elem_of_fmap. by apply He.
    + intros w Hw. by apply not_elem_of_nil in Hw.
    + intros w Hw. by apply not_elem_of_nil in Hw.
    + intros r (y & -> & Hy)%list_elem_of_fmap _ _. right. by apply He.
Qed.

Lemma thr_downgrade_spec s d t :
  inv s → els s Write = [d] → ty s d = TL_WRITE_ONLY → write_type t = true →
  inv (thr_downgrade_write_lock d t s).
Proof.
  intros [C A] HW Ht Hwt. assert (Hd : d ∈ els s Write) by (rewrite HW; left).
  split; [|apply awake_write; cbn; by rewrite HW]. unfold ThrWake.ok. cbn. apply core_retype; [done..| |].
  - by destruct (co_fits _ _ _ _ _ _ C _ _ Hd).
  - intros r Hr. cbn. apply (cp_read _ _ _ (co_compat _ _ _ _ _ _ C) (datas s d) (datas s r));
      [by apply list_elem_of_fmap_2..|by rewrite Ht].
Qed.

Lemma filter_single (d : nat) : filter (.≠ d) [d] = [].
Proof. by rewrite filter_cons_False by naive_solver. Qed.

(** The write lock of [d] has gone back to the head of the queue. *)
Record requeued s s' (d : nat) (t : thr_lock_type) : Prop := {
  re_lists : elements (lists s')
    = <[Write_wait:=d :: els s Write_wait]> (<[Write:=[]]> (elements (lists s)));
  re_datas x : datas s' x
    = (<[d:=mk_data (owner (datas s d)) t true (status_param (datas s d)) (priority (datas s d))]> (datas s)) x;
  re_count : read_no_write_count s' = read_no_write_count s;
}.

Lemma requeued_ok s s' d t :
  ok s → els s Write = [d] → write_type t = true → t ≠ TL_WRITE_CONCURRENT_INSERT →
  requeued s s' d t → ok s'.
Proof.
  intros C HW Ht Hci [H1 H2 H3]. assert (Hd : d ∈ els s Write) by (rewrite HW; left).
  pose proof (core_unlink _ _ _ _ _ _ _ _ C Hd) as C1.
  rewrite HW, bool_decide_false, Z.sub_0_r, filter_single in C1 by done.
  assert (Hu : ∀ q, d ∉ (<[Write:=[]]> (elements (lists s))) q).
  { intros q. destruct (decide (q = Write)) as [->|Hne].
    - rewrite fn_lookup_insert. apply not_elem_of_nil.
    - rewrite fn_lookup_insert_ne by done. intros G. apply Hne. by eapply C. }
  unfold ThrWake.ok. rewrite H1, H3.
  replace (els s Write_wait) with ((<[Write:=[]]> (elements (lists s))) Write_wait)
    by (by rewrite fn_lookup_insert_ne).
  eapply core_ext; [eapply core_wait; [exact C1|exact Hu|by eapply C|..]|done|intros q x _; apply H2|done].
  - by split_and!.
  - done.
  - by right.
Qed.

Lemma requeue_seqs s s0 d :
  ok s0 → lists s = lists s0 → els s Write = [d] →
  ∃ p, requeue d s = Some (mk_lock p (datas s) (read_no_write_count s) (write_lock_count s) (log s))
    ∧ elements p = <[Write_wait:=d :: els s Write_wait]> (<[Write:=[]]> (elements (lists s))).
Proof.
  intros C Hl HW. assert (Hd : d ∈ els s Write) by (rewrite HW; left). unfold requeue.
  rewrite unlink_seqs by done. cbn [mbind option_bind]. unfold on_lists.
  cbn [push_front seqs_store lists]. unfold Seqs.push_front.
  replace (linked _ d) with false.
  2:{ symmetry. apply not_linked. intros q. rewrite Hl in *. by apply (unlinked_after _ _ _ _ _ _ _ _ _ C). }
  cbn [mbind option_bind]. eexists. split; [reflexivity|]. cbn.
  rewrite (fn_lookup_insert_ne _ Write Write_wait) by done.
  by rewrite HW, filter_single.
Qed.

(** Nothing has changed for the requests other than [d]. *)
Definition others s s' (d : nat) : Prop :=
  ∀ x, x ≠ d → (∀ q, x ∈ els s' q ↔ x ∈ els s q) ∧ datas s' x = datas s x.

Lemma requeued_others s s' d t : els s Write = [d] → requeued s s' d t → others s s' d.
Proof.
  intros HW [H1 H2 _] x Hx. split; [|by rewrite H2, fn_lookup_insert_ne].
  intros []; rewrite H1, ?fn_lookup_insert, ?fn_lookup_insert_ne by done;
    rewrite ?fn_lookup_insert, ?fn_lookup_insert_ne by done; try done.
  - rewrite elem_of_cons. naive_solver.
  - rewrite HW, elem_of_nil, list_elem_of_singleton. naive_solver.
Qed.

Lemma requeued_waiting s s' d t : requeued s s' d t → d ∈ els s' Write_wait.
Proof. intros [H1 _ _]. rewrite H1, fn_lookup_insert. left. Qed.

Lemma call_start_trans_same d s :
  lists (call_start_trans env d s).2 = lists s ∧ datas (call_start_trans env d s).2 = datas s
  ∧ read_no_write_count (call_start_trans env d s).2 = read_no_write_count s.
Proof. unfold call_start_trans. by destruct (start_trans env). Qed.

(** The lock is upgraded at once, or its upgrade waits. *)
Inductive upgraded s s' (d : nat) (t : thr_lock_type) (r : option bool) : Prop :=
  | Upgraded : r = Some false → els s' Write = [d] → els s' Read = [] → ty s' d = t →
      others s s' d → upgraded s s' d t r
  | Upgrade_waits : r = None → d ∈ els s' Write_wait → others s s' d → upgraded s s' d t r.

Lemma upgrade_waiting_spec s d t :
  inv s → write_type t = true → exclusive t = true → d ∈ els s Write_wait →
  inv (set_cond d true (set_type d t s)).
Proof.
  intros [C [A1 A2]] Ht He Hd. split; [|by split].
  pose proof (set_type_ok n env mixed s d t C Hd Ht) as C1.
  assert (C2 : ok (set_type d t s)) by (apply C1; intros ->; done).
  unfold ThrWake.ok. cbn. eapply core_set; [exact C2|exact Hd|by right|].
  cbn. rewrite fn_lookup_insert. cbn. split_and!; [done..|]. intros ->. done.
Qed.

Lemma delayed_alone s d :
  ok s → d ∈ els s Write → ty s d = TL_WRITE_DELAYED → els s Write = [d].
Proof.
  intros C Hd Ht. pose proof (cp_delayed _ _ _ (co_compat _ _ _ _ _ _ C) _ (list_elem_of_fmap_2 _ _ _ Hd) Ht) as E.
  destruct (els s Write) as [|w [|w' l]]; cbn in E; simplify_eq.
  by apply list_elem_of_singleton in Hd as ->.
Qed.

(** There are no readers: the lock is upgraded in place. *)
Lemma upgrade_now s d t :
  ok s → write_type t = true → els s Write = [d] → els s Read = [] →
  let s1 := (call_get_status env d false (set_type d t s)).2 in
  let s' := (call_start_trans env d s1).2 in
  inv s' ∧ upgraded s s' d t (Some false).
Proof.
  intros C Ht HW HR. cbn zeta.
  destruct (call_get_status_same d false (set_type d t s)) as (b & s1 & -> & L1 & D1 & R1 & _). cbn [snd].
  destruct (call_start_trans_same d s1) as (L2 & D2 & R2).
  assert (Hd : d ∈ els s Write) by (rewrite HW; left).
  split; [split|].
  - unfold ThrWake.ok. rewrite L2, D2, R2, L1, D1, R1. cbn. apply core_retype; [done|done| |].
    + by destruct (co_fits _ _ _ _ _ _ C _ _ Hd).
    + rewrite HR. intros r Hr. by apply not_elem_of_nil in Hr.
  - apply awake_write. rewrite L2, L1. cbn. by rewrite HW.
  - apply Upgraded; [done|by rewrite L2, L1|by rewrite L2, L1|
      rewrite D2, D1; cbn; by rewrite fn_lookup_insert|].
    intros x Hx. rewrite L2, L1, D2, D1. cbn. by rewrite fn_lookup_insert_ne.
Qed.

(** There are readers: the lock goes back to the queue and waits. *)
Lemma upgrade_requeue s d t :
  ok s → write_type t = true → exclusive t = true → els s Write = [d] → els s Read ≠ [] →
  ∃ s', (s ← requeue d (set_type d t s); s ← wait_enter Write_wait d true s; Some (s, None))
        = Some (s', None (A := bool)) ∧ inv s' ∧ upgraded s s' d t None.
Proof.
  intros C Ht He HW HR.
  assert (Hd : d ∈ els s Write) by (rewrite HW; left). pose proof (co_fits _ _ _ _ _ _ C _ _ Hd) as [_ Hc].
  destruct (requeue_seqs (set_type d t s) s d C eq_refl HW) as (p & -> & Hp). cbn [mbind option_bind wait_enter].
  eexists. split; [reflexivity|]. match goal with |- inv ?x ∧ _ => set (s' := x) end.
  assert (Hre : requeued s s' d t).
  { split; [done| |done]. intros x. cbn. rewrite fn_lookup_insert. cbn.
    destruct (decide (x = d)) as [->|]; [by rewrite !fn_lookup_insert|by rewrite !fn_lookup_insert_ne]. }
  split; [split|apply Upgrade_waits; [done|by eapply requeued_waiting|by eapply requeued_others]].
  - eapply requeued_ok; [done..| |exact Hre]. intros ->. done.
  - apply awake_read; rewrite (re_lists _ _ _ _ Hre).
    + by rewrite !fn_lookup_insert_ne.
    + left. by rewrite fn_lookup_insert.
Qed.

Lemma upgrade_spec s d t :
  inv s → write_type t = true → exclusive t = true →
  d ∈ els s Write ∨ d ∈ els s Write_wait → ty s d = TL_WRITE_DELAYED →
  ∃ s' r, thr_upgrade_write_delay_lock env d t s = Some (s', r) ∧ inv s' ∧ upgraded s s' d t r.
Proof.
  intros HI Ht He Hd Hdl. pose proof HI as [C A]. unfold thr_upgrade_write_delay_lock. rewrite Hdl.
  replace (_ || _) with false by done.
  assert (Hc1 : cond (datas (set_type d t s) d) = cond (datas s d)) by (cbn; by rewrite fn_lookup_insert).
  cbn zeta. rewrite Hc1, top_els. destruct Hd as [Hd|Hd].
  - pose proof (co_fits _ _ _ _ _ _ C _ _ Hd) as [_ Hc]. rewrite Hc. cbn [negb].
    pose proof (delayed_alone s d C Hd Hdl) as HW. change (els (set_type d t s) Read) with (els s Read).
    destruct (els s Read) as [|r0 lr] eqn:HR; cbn [head].
    + rewrite bool_decide_false by (by intros [? ?]). cbn [negb].
      destruct (upgrade_now s d t C Ht HW HR) as [H1 H2]. eexists _, _. split_and!; [reflexivity|exact H1|exact H2].
    + rewrite bool_decide_true by (by eexists). cbn [negb].
      destruct (upgrade_requeue s d t C Ht He HW) as (s' & H1 & H2 & H3); [by rewrite HR|]. by exists s', None.
  - pose proof (co_fits _ _ _ _ _ _ C _ _ Hd) as (_ & Hc & _). rewrite Hc. cbn [negb mbind option_bind wait_enter].
    eexists _, _. split; [reflexivity|]. split; [by apply upgrade_waiting_spec|].
    apply Upgrade_waits; [done|done|]. intros x Hx. cbn. by rewrite !fn_lookup_insert_ne.
Qed.

Lemma reschedule_spec s d :
  inv s → els s Write = [d] →
  ∃ s' r, reschedule_section n env d s = Some (s', r) ∧ inv s'
    ∧ (s' = s ∧ r = None
       ∨ r = Some (ty s d) ∧ ty s' d = TL_WRITE_DELAYED ∧ d ∈ els s' Write_wait
         ∧ ∃ s1, others s s1 d ∧ d ∈ els s1 Write_wait ∧ evolves s1 s').
Proof.
  intros HI HW. pose proof HI as [C A]. unfold reschedule_section. rewrite top_els.
  destruct (els s Read_wait) as [|r0 lr] eqn:HR; cbn [head].
  { exists s, None. split_and!; [done..|]. by left. }
  replace (negb _) with false by (by rewrite bool_decide_true by (by eexists)).
  match goal with |- context [requeue d ?x] => set (s1 := x) end.
  assert (H1 : lists s1 = lists s ∧ datas s1 = datas (set_type d TL_WRITE_DELAYED s)
    ∧ read_no_write_count s1 = read_no_write_count s) by (unfold s1; by destruct (has_update_status env)).
  destruct H1 as (L1 & D1 & R1). clearbody s1.
  destruct (requeue_seqs s1 s d C L1) as (p & -> & Hp); [by rewrite L1|]. cbn [mbind option_bind].
  match goal with |- context [free_all_read_locks n false ?x] => set (s2 := x) end.
  assert (Hre : requeued s s2 d TL_WRITE_DELAYED).
  { split; [cbn; by rewrite Hp, L1| |done]. intros x. cbn. rewrite D1. cbn. rewrite fn_lookup_insert. cbn.
    destruct (decide (x = d)) as [->|]; [by rewrite !fn_lookup_insert|by rewrite !fn_lookup_insert_ne]. }
  pose proof (re_lists _ _ _ _ Hre) as L2. pose proof (requeued_waiting _ _ _ _ Hre) as Hw.
  assert (C2 : ok s2) by (by apply (requeued_ok s s2 d TL_WRITE_DELAYED)).
  destruct (free_all_ok n env mixed Hn n false s2 C2) as (s' & -> & C' & E1 & E2 & E3 & _ & E5 & _ & Ev).
  { rewrite L2, !fn_lookup_insert_ne, HR by done. done. }
  { rewrite L2, fn_lookup_insert_ne, fn_lookup_insert by done. intros w Hx. by apply not_elem_of_nil in Hx. }
  { rewrite L2, fn_lookup_insert_ne, fn_lookup_insert by done. intros _ w Hx. by apply not_elem_of_nil in Hx. }
  cbn [mbind option_bind]. exists s', (Some (ty s d)). destruct (E5 eq_refl) as [E6 E7].
  split_and!; [done|split; [done|apply awake_read; auto]|]. right. split_and!; [done| |by rewrite E2|].
  - rewrite E3, (re_datas _ _ _ _ Hre). by rewrite fn_lookup_insert.
  - exists s2. split_and!; [by eapply requeued_others|done|done].
Qed.
End operations.
