(* ===== verification/ThrSystem.v ===== *)
(** * Table locks: the lock manager as a transition system

    The calls threads make on one lock, interleaved in any order.  The calls a
    thread may make are those the callers in the server make; they are stated
    in [allowed].  The properties of the lock manager are theorems about the
    states reachable by such calls. *)

From stdpp Require Import functions.
From S2P Require Import Prelude ThrLock ThrLinks ThrSpec ThrRefine ThrSim ThrInv ThrWake.
From S2P Require Import ThrRequest ThrProtocol.

(** ** Calls *)

Inductive call :=
  | Lock (data owner : nat) (t : thr_lock_type)
  | Leave_wait (data : nat) (q : lock_list) (r : enum_thr_lock_result)
  | Unlock (data : nat) (flags : Z)
  | Abort_all
  | Abort_thread (id : Z)
  | Downgrade (data : nat) (t : thr_lock_type)
  | Upgrade (data : nat) (t : thr_lock_type)
  | Reschedule (data : nat).

Inductive ret :=
  | Locked (r : option enum_thr_lock_result)
  | Left (r : enum_thr_lock_result)
  | Found (b : bool)
  | Upgrade_ret (r : option bool)
  | Again (r : option thr_lock_type)
  | Done.

(** The routine behind each call; [Lock] first sets [data->type]. *)
Definition exec {P} `{!ListStore P} (fuel : nat) (env : lock_env) (c : call) (s : THR_LOCK P)
    : option (THR_LOCK P * ret) :=
  match c with
  | Lock d o t => '(s, r) ← thr_lock fuel env d o (set_type d t s); Some (s, Locked r)
  | Leave_wait d q r => '(s, r) ← wait_leave fuel env q d r s; Some (s, Left r)
  | Unlock d flags => s ← thr_unlock fuel env d flags s; Some (s, Done)
  | Abort_all => s ← thr_abort_locks fuel false s; Some (s, Done)
  | Abort_thread id => '(b, s) ← thr_abort_locks_for_thread fuel env id s; Some (s, Found b)
  | Downgrade d t => Some (thr_downgrade_write_lock d t s, Done)
  | Upgrade d t => '(s, r) ← thr_upgrade_write_delay_lock env d t s; Some (s, Upgrade_ret r)
  | Reschedule d => '(s, r) ← reschedule_section fuel env d s; Some (s, Again r)
  end.

(** Which list each thread inside [wait_for_lock] waits on, by request. *)
Abbreviation waits := (nat → option lock_list).

Definition update_waits (c : call) (r : ret) (w : waits) : waits :=
  match c, r with
  | Lock d _ t, Locked None => <[d:=Some (if read_type t then Read_wait else Write_wait)]> w
  | Leave_wait d _ _, _ => <[d:=None]> w
  | Upgrade d _, Upgrade_ret None => <[d:=Some Write_wait]> w
  | _, _ => w
  end.

(** A sequence of calls and its answers. *)
Fixpoint run {P} `{!ListStore P} (fuel : nat) (env : lock_env) (cs : list call) (s : THR_LOCK P)
    : option (list ret * THR_LOCK P) :=
  match cs with
  | [] => Some ([], s)
  | c :: cs =>
    '(s, r) ← exec fuel env c s;
    '(rs, s) ← run fuel env cs s;
    Some (r :: rs, s)
  end.

Section system.
Context (n : nat) (env : lock_env).

(** What the callers guarantee. *)
Definition allowed (s : THR_LOCK seqs) (w : waits) (c : call) : Prop :=
  match c with
  | Lock d o t => w d = None ∧ request n env (set_type d t s) d o
  | Leave_wait d q _ => w d = Some q
  | Unlock d _ => w d = None ∧ ∃ q, held s d q
  | Abort_all | Abort_thread _ => True
  | Downgrade d t => els s Write = [d] ∧ ty s d = TL_WRITE_ONLY ∧ write_type t = true
  | Upgrade d t => w d = None ∧ (d ∈ els s Write ∨ d ∈ els s Write_wait)
      ∧ ty s d = TL_WRITE_DELAYED ∧ write_type t = true ∧ exclusive t = true
  | Reschedule d => w d = None ∧ els s Write = [d]
  end.

Inductive step : THR_LOCK seqs * waits → call → ret → THR_LOCK seqs * waits → Prop :=
  | do_call s w c s' r :
      allowed s w c → exec n env c s = Some (s', r) → step (s, w) c r (s', update_waits c r w).

(** Sequences of calls with their answers. *)
Inductive steps (x : THR_LOCK seqs * waits) : list (call * ret) → THR_LOCK seqs * waits → Prop :=
  | steps_nil : steps x [] x
  | steps_snoc y z l c r : steps x l y → step y c r z → steps x (l ++ [(c, r)]) z.

(** [thr_lock_init], with requests that [thr_lock_data_init] has set up. *)
Definition init_lock {P} (p : P) : THR_LOCK P :=
  mk_lock p (λ d, thr_lock_data_init d) 0 0 [].

Definition reachable (l : list (call * ret)) (s : THR_LOCK seqs) (w : waits) : Prop :=
  steps (init_lock Seqs.empty, λ _, None) l (s, w).

(** Some owner has requested a lock while it held an active write lock. *)
Definition mixes (l : list (call * ret)) : Prop :=
  ∃ l1 d o t r l2 s w x, l = l1 ++ (Lock d o t, r) :: l2 ∧ reachable l1 s w
    ∧ x ∈ els s Write ∧ owner (datas s x) = o.

(** ** The invariant of the system *)

Hypothesis Hn : (Z.of_nat n < 2 ^ 32)%Z.
Hypothesis Hup : upgraded_ok env.

Section invariant.
Context (mixed : Prop).

(** Only such a request may set [mixed]. *)
Definition may_mix (s : THR_LOCK seqs) (c : call) : Prop :=
  match c with
  | Lock _ o _ => ∀ x, x ∈ els s Write → owner (datas s x) = o → mixed
  | _ => True
  end.

Record sys_inv (s : THR_LOCK seqs) (w : waits) : Prop := {
  si_lock : inv n env mixed s;
  si_waits d q : w d = Some q → wait_list q ∧ wait_state s d q;
}.

Lemma wait_evolves s s' d q :
  evolves s s' → wait_list q → wait_state s d q → wait_state s' d q.
Proof.
  intros Ev Hq [H|H|H1 H2 H3].
  - destruct Hq as [-> | ->]; [destruct (ev_read_wait _ _ Ev d H)|destruct (ev_write_wait _ _ Ev d H)];
      (by apply Still_waiting) || by apply Was_granted.
  - apply Was_granted. destruct Hq as [-> | ->]; by apply Ev.
  - destruct (ev_idle _ _ Ev d H1) as [H4 H5]. apply Was_aborted; [done|by rewrite H5..].
Qed.

Lemma wait_others s s' d x q : others s s' d → x ≠ d → wait_state s x q → wait_state s' x q.
Proof.
  intros Ho Hx Hw. destruct (Ho x Hx) as [H1 H2]. destruct Hw as [H|H|H3 H4 H5].
  - apply Still_waiting. by apply H1.
  - apply Was_granted. by apply H1.
  - apply Was_aborted; [intros q' G%H1; by apply H3 in G|by rewrite H2..].
Qed.

Lemma removed_others s s' d q : removed s s' d q → others s s' d.
Proof.
  intros [H1 H2 _] x Hx. split; [|by apply H2]. intros q'. rewrite H1.
  destruct (decide (q' = q)) as [->|Hne]; [rewrite fn_lookup_insert, list_elem_of_filter; naive_solver|].
  by rewrite fn_lookup_insert_ne.
Qed.

Lemma placed_others s s' d q : placed s s' d q → others s s' d.
Proof.
  intros [H1 H2] x Hx. split; [|by apply H2]. intros q'. rewrite H1.
  destruct (decide (q' = q)) as [->|Hne]; [|by rewrite fn_lookup_insert_ne].
  rewrite fn_lookup_insert, elem_of_app, list_elem_of_singleton. naive_solver.
Qed.

Lemma untouched_others s s' d : untouched s s' d → others s s' d.
Proof. intros [H1 H2] x Hx. split; [|by apply H2]. intros q. by rewrite H1. Qed.

Lemma others_trans s1 s2 s3 d : others s1 s2 d → others s2 s3 d → others s1 s3 d.
Proof.
  intros A B x Hx. destruct (A x Hx) as [A1 A2], (B x Hx) as [B1 B2].
  split; [intros q; by rewrite B1|congruence].
Qed.

Lemma outcome_others s s' d r : outcome env s s' d r → others s s' d.
Proof. intros []; eauto using placed_others, untouched_others. Qed.

Lemma wait_aborted s s' hit d q :
  ok n env mixed s → aborted s s' hit → wait_list q → wait_state s d q → wait_state s' d q.
Proof.
  intros C [H1 H2 H3] Hq [H|H|G1 G2 G3].
  - destruct (hit d) eqn:Hh.
    + assert (Hw : d ∈ els s Read_wait ∨ d ∈ els s Write_wait) by (destruct Hq as [-> | ->]; auto).
      apply Was_aborted; [|by rewrite H2, decide_True by done..].
      intros q'. rewrite H1. case_bool_decide as Hq'.
      * rewrite list_elem_of_filter. intros [G _]. by rewrite Hh in G.
      * intros G. apply Hq'. by rewrite (co_disj _ _ _ _ _ _ C _ _ _ G H).
    + apply Still_waiting. rewrite H1, bool_decide_true by done. apply list_elem_of_filter. by rewrite Hh.
  - apply Was_granted. rewrite H1, bool_decide_false; [done|]. by destruct Hq as [-> | ->]; intros [?|?].
  - assert (Hd : datas s' d = datas s d).
    { rewrite H2, decide_False; [done|]. intros [_ [?|?]]; by eapply G1. }
    apply Was_aborted; [|by rewrite Hd..]. intros q'. rewrite H1. case_bool_decide; [|done].
    rewrite list_elem_of_filter. intros [_ G]. by apply G1 in G.
Qed.

Lemma init_inv : inv n env mixed (init_lock Seqs.empty).
Proof.
  split; [|by split]. split; cbn; try done.
  - intros _. constructor.
  - intros q q' d Hd. by apply not_elem_of_nil in Hd.
  - intros q d Hd. by apply not_elem_of_nil in Hd.
  - intros q d Hd. by apply not_elem_of_nil in Hd.
  - apply compat_nil.
Qed.

(** A change that concerns [d] and, for the others, only lets waiters through. *)
Lemma waits_after s s1 s' (w : waits) d :
  sys_inv s w → others s s1 d → evolves s1 s' →
  ∀ x q, x ≠ d → w x = Some q → wait_list q ∧ wait_state s' x q.
Proof.
  intros [_ Hw] Ho Ev x q Hx Hq. destruct (Hw x q Hq) as [H1 H2]. split; [done|].
  eapply wait_evolves; [done..|]. by eapply wait_others.
Qed.

Lemma insert_waits (w : waits) d v x q :
  (<[d:=v]> w) x = Some q → x = d ∧ v = Some q ∨ x ≠ d ∧ w x = Some q.
Proof.
  destruct (decide (x = d)) as [->|Hne]; [rewrite fn_lookup_insert|rewrite fn_lookup_insert_ne by done]; auto.
Qed.

Lemma exec_lock s w d o t :
  sys_inv s w → allowed s w (Lock d o t) → may_mix s (Lock d o t) →
  ∃ s' r, exec n env (Lock d o t) s = Some (s', r) ∧ sys_inv s' (update_waits (Lock d o t) r w)
    ∧ ∃ r', r = Locked r' ∧ outcome env (set_type d t s) s' d r'.
Proof.
  intros Hs [Hw Hrq] Hmix. pose proof Hs as [[C A] HW]. cbn [exec].
  assert (U : untouched s (set_type d t s) d).
  { split; [done|]. intros x Hx. cbn. by rewrite fn_lookup_insert_ne. }
  assert (I1 : inv n env mixed (set_type d t s)).
  { split; [eapply free_ok; [done|apply Hrq|done|done]|]. destruct A. by split. }
  assert (Hmix1 : ∀ x, x ∈ els (set_type d t s) Write → owner (datas (set_type d t s) x) = o → mixed).
  { intros x Hx. rewrite (un_datas _ _ _ U x); [by apply Hmix|]. intros ->. by apply (rq_free _ _ _ _ _ Hrq) in Hx. }
  destruct (thr_lock_spec n env mixed Hn _ d o Hup I1 Hrq Hmix1) as (s' & r & -> & I' & Ho). cbn [mbind option_bind].
  exists s', (Locked r). split_and!; [done| |by eauto].
  assert (Hoth : others s s' d).
  { eapply others_trans; [by apply untouched_others|by eapply outcome_others]. }
  pose proof (waits_after s s' s' w d Hs Hoth (reflexivity s')) as Hk.
  split; [done|]. intros x q. cbn [update_waits]. destruct r as [r|].
  - intros Hq. apply Hk; [|done]. intros ->. congruence.
  - intros [[-> E]|[Hx Hq]]%insert_waits; [|by apply Hk]. injection E as <-.
    destruct Ho as [? ? ? [?|[? ?]]|? ? ?|q Hq Hpl _|? ? ?]; try done.
    cbn in Hq. rewrite fn_lookup_insert in Hq. cbn in Hq. subst q.
    split; [destruct (read_type t); [by left|by right]|].
    apply Still_waiting. rewrite (pl_lists _ _ _ _ Hpl), fn_lookup_insert. mem.
Qed.

Lemma exec_leave s w d q r0 :
  sys_inv s w → w d = Some q →
  ∃ s' r', exec n env (Leave_wait d q r0) s = Some (s', Left r') ∧ sys_inv s' (<[d:=None]> w)
    ∧ (d ∈ els s' (active q) ∧ (r' = THR_LOCK_SUCCESS ∨ r' = THR_LOCK_ABORTED ∧ is_Some (get_status env))
       ∨ (∀ q', d ∉ els s' q') ∧ r' = r0).
Proof.
  intros Hs Hd. pose proof Hs as [HI HW]. destruct (HW d q Hd) as [Hq Hws]. cbn [exec].
  destruct (wait_leave_spec n env mixed Hn s d q r0 HI Hq Hws) as (s' & r' & -> & I' & Hcase).
  cbn [mbind option_bind]. exists s', r'. split; [done|].
  assert (Hk : ∃ s1, others s s1 d ∧ evolves s1 s').
  { destruct Hcase as [(_ & E1 & E2 & _)|[(-> & _)|(s1 & H1 & H2 & _)]].
    - exists s'. split; [|done]. intros x _. by rewrite E1, E2.
    - by exists s.
    - exists s1. split; [by eapply removed_others|done]. }
  destruct Hk as (s1 & Ho & Ev). split; [split; [done|]|].
  - intros x p [[_ ?]|[Hx Hp]]%insert_waits; [done|]. by apply (waits_after s s1 s' w d Hs Ho Ev).
  - destruct Hcase as [(H1 & _ & _ & H2)|[(-> & H1 & H2)|(_ & _ & _ & H1 & H2)]]; auto.
Qed.

Lemma exec_unlock s w d flags :
  sys_inv s w → allowed s w (Unlock d flags) →
  ∃ s', exec n env (Unlock d flags) s = Some (s', Done) ∧ sys_inv s' w ∧ (∀ q, d ∉ els s' q).
Proof.
  intros Hs [Hw (q & Hh)]. pose proof Hs as [[C A] HW]. cbn [exec].
  destruct (thr_unlock_spec n env mixed Hn s d q flags C Hh) as (s1 & s' & -> & I' & Hrm & Ev).
  cbn [mbind option_bind]. exists s'. split; [done|]. split; [split; [done|]|].
  - intros x p Hx. apply (waits_after s s1 s' w d Hs (removed_others _ _ _ _ Hrm) Ev); [|done].
    intros ->. congruence.
  - apply (ev_idle _ _ Ev). eapply removed_unlinked; [exact C|by destruct Hh|done].
Qed.

Lemma exec_delayed s w d c :
  sys_inv s w → allowed s w c → (∃ t, c = Upgrade d t) ∨ c = Reschedule d →
  ∃ s' r, exec n env c s = Some (s', r) ∧ sys_inv s' (update_waits c r w).
Proof.
  intros Hs Ha [[t ->]| ->]; pose proof Hs as [HI HW]; cbn [exec].
  - destruct Ha as (Hw & Hd & Hdl & Ht & He).
    destruct (upgrade_spec n env mixed s d t HI Ht He Hd Hdl) as (s' & r & -> & I' & Hu). cbn [mbind option_bind].
    exists s', (Upgrade_ret r). split; [done|]. split; [done|]. intros x q. cbn [update_waits].
    destruct Hu as [-> _ _ _ Ho| -> Hin Ho].
    + intros Hx. apply (waits_after s s' s' w d Hs Ho (reflexivity s')); [|done]. intros ->. congruence.
    + intros [[-> E]|[Hx Hq]]%insert_waits; [|by apply (waits_after s s' s' w d Hs Ho (reflexivity s'))].
      injection E as <-. split; [by right|by apply Still_waiting].
  - destruct Ha as (Hw & HWr).
    destruct (reschedule_spec n env mixed Hn s d HI HWr) as (s' & r & -> & I' & Hc). cbn [mbind option_bind].
    exists s', (Again r). split; [done|]. split; [done|]. intros x q. cbn [update_waits]. intros Hx.
    destruct Hc as [[-> _]|(_ & _ & _ & s1 & Ho & _ & Ev)]; [by apply HW|].
    apply (waits_after s s1 s' w d Hs Ho Ev); [|done]. intros ->. congruence.
Qed.

(** Every allowed call returns and preserves the invariant. *)
Lemma exec_ok s w c :
  sys_inv s w → allowed s w c → may_mix s c →
  ∃ s' r, exec n env c s = Some (s', r) ∧ sys_inv s' (update_waits c r w).
Proof.
  intros Hs Ha Hm. destruct c as [d o t|d q r|d flags| |id|d t|d t|d].
  - destruct (exec_lock s w d o t Hs Ha Hm) as (s' & r & ? & ? & _). eauto.
  - destruct (exec_leave s w d q r Hs Ha) as (s' & r' & ? & ? & _). eauto.
  - destruct (exec_unlock s w d flags Hs Ha) as (s' & ? & ? & _). eauto.
  - pose proof Hs as [HI HW]. destruct (thr_abort_locks_spec n env mixed s HI) as (s' & E & I' & Hab).
    exists s', Done. cbn [exec]. rewrite E. split; [done|]. split; [done|].
    intros x q [H1 H2]%HW. split; [done|]. destruct HI. by eapply wait_aborted.
  - pose proof Hs as [HI HW].
    destruct (thr_abort_for_thread_spec n env mixed Hn s id HI) as (b & s1 & s' & E & I' & Hab & Ev).
    exists s', (Found b). cbn [exec]. rewrite E. split; [done|]. split; [done|].
    intros x q [H1 H2]%HW. split; [done|]. destruct HI. eapply wait_evolves; [done..|]. by eapply wait_aborted.
  - pose proof Hs as [HI HW]. destruct Ha as (H1 & H2 & H3). eexists _, _. split; [reflexivity|].
    split; [by apply thr_downgrade_spec|]. intros x q [G1 G2]%HW. split; [done|].
    assert (Hd : d ∈ els s Write) by (rewrite H1; left). destruct HI as [C _].
    destruct G2 as [G|G|G3 G4 G5]; [by apply Still_waiting|by apply Was_granted|].
    apply Was_aborted; [done|..]; cbn; rewrite fn_lookup_insert_ne; try done; intros ->; by apply G3 in Hd.
  - by apply (exec_delayed s w d); eauto.
  - by apply (exec_delayed s w d); eauto.
Qed.

End invariant.

Lemma sys_inv_mono (mixed mixed' : Prop) s w : (mixed → mixed') → sys_inv mixed s w → sys_inv mixed' s w.
Proof.
  intros Hm [[C A] HW]. split; [split; [|done]|done]. unfold ok. eapply core_mono; [exact Hm|exact C].
Qed.

Lemma mixes_snoc l c r s w : reachable l s w → may_mix (mixes (l ++ [(c, r)])) s c.
Proof. intros Hr. destruct c; try done. intros x Hx Ho. by eexists l, _, _, _, _, [], s, w, x. Qed.

Lemma mixes_app l l' : mixes l → mixes (l ++ l').
Proof.
  intros (l1 & d & o & t & r & l2 & s & w & x & -> & H). exists l1, d, o, t, r, (l2 ++ l'), s, w, x.
  split; [|done]. by rewrite <-app_assoc.
Qed.

Lemma reachable_inv l s w : reachable l s w → sys_inv (mixes l) s w.
Proof.
  unfold reachable. remember (s, w) as x eqn:E. intros H. revert s w E.
  induction H as [|y z l c r Hs IH Hst]; intros s w E; simplify_eq.
  - split; [apply init_inv|done].
  - inversion Hst as [s0 w0 c0 s1 r0 Ha He]; simplify_eq.
    pose proof (sys_inv_mono _ _ _ _ (mixes_app l [(c, r)]) (IH _ _ eq_refl)) as Hi.
    destruct (exec_ok _ s0 w0 c Hi Ha (mixes_snoc l c r s0 w0 Hs)) as (s2 & r2 & E2 & H2).
    by rewrite E2 in He; simplify_eq.
Qed.

(** ** The pointer code *)

Lemma refines_map {A B C D} (R : A → B → Prop) (Q : C → D → Prop) x y f g :
  refines R x y → (∀ a b, R a b → Q (f a) (g b)) →
  refines Q (a ← x; Some (f a)) (b ← y; Some (g b)).
Proof. intros H1 H2. eapply refines_bind; [done|]. intros a b Hab. apply refines_ret. auto. Qed.

Lemma exec_sim s t w c :
  sim n s t → allowed t w c → refines (sim_out n) (exec n env c s) (exec n env c t).
Proof.
  intros H Ha. destruct c as [d o tt|d q r|d flags| |id|d tt|d tt|d]; cbn [exec].
  - destruct Ha as [_ [_ Hd _ _]]. eapply refines_bind; [by apply ref_thr_lock; eauto with sim|].
    intros [s1 r1] [t1 r2] [H1 E]. cbn in H1, E. subst. apply refines_ret. by split.
  - eapply refines_bind; [by apply ref_wait_leave|].
    intros [s1 r1] [t1 r2] [H1 E]. cbn in H1, E. subst. apply refines_ret. by split.
  - eapply refines_map; [by apply ref_thr_unlock|]. intros. by split.
  - eapply refines_map; [by apply ref_thr_abort_locks|]. intros. by split.
  - eapply refines_bind; [by apply ref_thr_abort_for_thread|].
    intros [b1 s1] [b2 t1] [E H1]. cbn in H1, E. subst. apply refines_ret. by split.
  - apply refines_ret. split; [|done]. cbn. by apply sim_set_type.
  - assert (Hd : d < n) by (destruct Ha as (_ & [Hd|Hd] & _); by eapply sim_bound).
    eapply refines_bind; [by apply ref_upgrade|].
    intros [s1 r1] [t1 r2] [H1 E]. cbn in H1, E. subst. apply refines_ret. by split.
  - assert (Hd : d < n).
    { destruct Ha as (_ & HW). eapply (sim_bound _ _ _ H Write). rewrite HW. left. }
    eapply refines_bind; [by apply ref_reschedule|].
    intros [s1 r1] [t1 r2] [H1 E]. cbn in H1, E. subst. apply refines_ret. by split.
Qed.

Lemma run_snoc {P} `{!ListStore P} cs c (s s1 s2 : THR_LOCK P) rs r :
  run n env cs s = Some (rs, s1) → exec n env c s1 = Some (s2, r) →
  run n env (cs ++ [c]) s = Some (rs ++ [r], s2).
Proof.
  revert s rs. induction cs as [|c0 cs IH]; intros s rs H1 H2; cbn [run app] in *.
  - simplify_eq. rewrite H2. done.
  - destruct (exec n env c0 s) as [[s0 r0]|]; [|done]. cbn [mbind option_bind] in *.
    destruct (run n env cs s0) as [[rs0 s3]|] eqn:E; [|done]. cbn in H1. simplify_eq.
    by erewrite IH.
Qed.

Lemma init_sim : sim n (init_lock Links.thr_lock_init) (init_lock Seqs.empty).
Proof.
  split; [|by split_and!|intros q d Hd; by apply not_elem_of_nil in Hd].
  split; cbn; try done.
  - intros q. constructor.
  - intros q q' d Hd. by apply not_elem_of_nil in Hd.
Qed.

Lemma steps_sim l s w :
  reachable l s w →
  ∃ p, run n env l.*1 (init_lock Links.thr_lock_init) = Some (l.*2, p) ∧ sim n p s.
Proof.
  unfold reachable. remember (s, w) as x eqn:E. intros H. revert s w E.
  induction H as [|y z l c r Hs IH Hst]; intros s w E; simplify_eq.
  - exists (init_lock Links.thr_lock_init). split; [done|apply init_sim].
  - inversion Hst as [s0 w0 c0 s1 r0 Ha He]; simplify_eq.
    destruct (IH s0 w0 eq_refl) as (p & Hr & Hp).
    destruct (exec_sim p s0 w0 c Hp Ha _ He) as ([p1 r1] & He1 & H1 & E1). cbn in H1, E1. subst r1.
    exists p1. split; [|done]. rewrite !fmap_app. cbn. by eapply run_snoc.
Qed.
End system.

(** ** Properties of the lock manager *)

(** C2. Which active locks of different owners exclude each other, in every state that
    any number of threads reach by the calls they may make ([allowed]; in
    particular no [TL_READ_SKIP_LOCKED] request). Beside an active write lock
    there is a lock of another owner only if the write lock is not exclusive; two
    write locks of different owners both allow concurrent writes or inserts; and a
    lock that forbids inserts ([TL_READ_NO_INSERT]) and a concurrent insert of
    another owner are active together only if some owner has made a request while
    it held a write lock on the table, which the code grants without comparing
    it with all other locks. *)
Theorem exclusive_locks_exclude n env l s w d x :
  (Z.of_nat n < 2 ^ 32)%Z → upgraded_ok env → reachable n env l s w →
  d ∈ els s Write → x ∈ els s Read ∨ x ∈ els s Write →
  owner (datas s x) ≠ owner (datas s d) →
  exclusive (ty s d) = false
  ∧ (x ∈ els s Write → concurrent_type (ty s d) = true ∧ concurrent_type (ty s x) = true)
  ∧ (x ∈ els s Read → ty s d = TL_WRITE_CONCURRENT_INSERT → ty s x = TL_READ_NO_INSERT → mixes n env l).
Proof.
  intros Hn Hup Hr Hd Hx Ho. destruct (reachable_inv n env Hn Hup l s w Hr) as [[C _] _].
  pose proof (co_compat _ _ _ _ _ _ C) as CP. pose proof (list_elem_of_fmap_2 (datas s) _ _ Hd) as Gd.
  split_and!.
  - destruct (exclusive (ty s d)) eqn:He; [|done]. destruct Hx as [Hx|Hx]; destruct Ho.
    + apply (cp_read _ _ _ CP (datas s d) (datas s x)); auto using list_elem_of_fmap_2.
    + by apply (exclusive_owner n env (mixes n env l) s x d C Hd Hx).
  - intros Hw. pose proof (list_elem_of_fmap_2 (datas s) _ _ Hw) as Gx.
    split; [apply (cp_owner _ _ _ CP _ _ Gd Gx)|apply (cp_owner _ _ _ CP _ _ Gx Gd)]; congruence.
  - intros Hw Hi Hni. pose proof (list_elem_of_fmap_2 (datas s) _ _ Hw) as Gx.
    by destruct (cp_insert _ _ _ CP _ _ Gd Gx Hi Hni).
Qed.

(** C19. No wake-up is lost: in every reachable state, if a request waits then
    some lock is active, and if a read request waits then a write lock is
    active or a write request waits. *)
Theorem no_lost_wakeup n env l s w x :
  (Z.of_nat n < 2 ^ 32)%Z → upgraded_ok env → reachable n env l s w →
  x ∈ els s Read_wait ∨ x ∈ els s Write_wait →
  (els s Read ≠ [] ∨ els s Write ≠ [])
  ∧ (x ∈ els s Read_wait → els s Write ≠ [] ∨ els s Write_wait ≠ []).
Proof.
  intros Hn Hup Hr Hx. destruct (reachable_inv n env Hn Hup l s w Hr) as [[_ [A1 A2]] _].
  destruct (els s Write) as [|a la]; [|by split; intros; (left + right)].
  assert (Hrw : x ∈ els s Read_wait → els s Write_wait ≠ []).
  { intros G E. rewrite (A2 eq_refl E) in G. by apply not_elem_of_nil in G. }
  split; [|auto]. left. intros E. rewrite (A1 eq_refl E) in *.
  destruct Hx as [Hx|Hx]; [by apply Hrw in Hx|by apply not_elem_of_nil in Hx].
Qed.



(** C33. Every call that [allowed] permits, in every state that such calls reach,
    returns: the routines never walk off a list, call a missing callback, or
    unlink a request from the wrong list.  The calls are the ones whose callers keep
    the rules of the lock; a request is not of type [TL_READ_SKIP_LOCKED], whose
    release corrupts the end of the write list ([skip_locked_corrupts]). *)
Theorem allowed_calls_return n env l s w c :
  (Z.of_nat n < 2 ^ 32)%Z → upgraded_ok env → reachable n env l s w → allowed n env s w c →
  ∃ s' r, step n env (s, w) c r (s', update_waits c r w).
Proof.
  intros Hn Hup Hr Ha. pose proof (reachable_inv n env Hn Hup l s w Hr) as Hs.
  pose proof (sys_inv_mono n env _ True _ _ (λ _, I) Hs) as Hs1.
  destruct (exec_ok n env Hn Hup True s w c Hs1 Ha) as (s' & r & H & _); [by destruct c|]. exists s', r. by constructor.
Qed.

(** A thread that leaves [wait_for_lock] knows where it stands: it returns
    success exactly when it holds the lock, and otherwise its request is in no
    list (engines without a [get_status] callback). *)
Theorem wait_result_correct n env l s w d q r0 :
  (Z.of_nat n < 2 ^ 32)%Z → upgraded_ok env → reachable n env l s w → w d = Some q →
  get_status env = None → r0 ≠ THR_LOCK_SUCCESS →
  ∃ s' r, exec n env (Leave_wait d q r0) s = Some (s', Left r)
    ∧ (r = THR_LOCK_SUCCESS ↔ d ∈ els s' (active q))
    ∧ (r ≠ THR_LOCK_SUCCESS → r = r0 ∧ ∀ q', d ∉ els s' q').
Proof.
  intros Hn Hup Hr Hw Hg H0. pose proof (reachable_inv n env Hn Hup l s w Hr) as Hs.
  destruct (exec_leave n env Hn _ s w d q r0 Hs Hw) as (s' & r & H & _ & Hc). exists s', r.
  rewrite Hg in Hc. split; [done|]. destruct Hc as [(H1 & [->|[_ [? ?]]])|(H1 & ->)]; [by split|done|].
  split; [|done]. split; [done|]. intros G. by apply H1 in G.
Qed.

(** A request is granted and then is the last active lock of its kind, or
    queued as the last one waiting, or denied and left unlocked; nothing changes
    for any other request. *)
Theorem lock_outcome n env l s w d o t :
  (Z.of_nat n < 2 ^ 32)%Z → upgraded_ok env → reachable n env l s w →
  allowed n env s w (Lock d o t) →
  ∃ s' r, exec n env (Lock d o t) s = Some (s', Locked r)
    ∧ outcome env (set_type d t s) s' d r ∧ others s s' d.
Proof.
  intros Hn Hup Hr Ha. pose proof (reachable_inv n env Hn Hup l s w Hr) as Hs.
  pose proof (sys_inv_mono n env _ True _ _ (λ _, I) Hs) as Hs1.
  destruct (exec_lock n env Hn Hup True s w d o t Hs1 Ha) as (s' & ? & H & _ & r & -> & Ho); [done|].
  exists s', r. split_and!; [done..|]. eapply others_trans; [|by eapply outcome_others].
  apply untouched_others. split; [done|]. intros x Hx. cbn. by rewrite fn_lookup_insert_ne.
Qed.
