(* ===== verification/ThrDemo.v ===== *)
(** * Table locks: runs of the lock manager

    Concrete runs that reach the situations the theorems of ThrSystem speak
    about, and runs of the pointer code that show where [thr_lock.c] departs
    from its own comments. *)

From stdpp Require Import functions.
From S2P Require Import Prelude ThrLock ThrLinks ThrSpec ThrRefine ThrSim ThrInv ThrWake.
From S2P Require Import ThrRequest ThrProtocol ThrSystem.

(** An engine without callbacks, and one that allows concurrent inserts. *)
Definition plain_env : lock_env :=
  mk_env None None false false None false TL_WRITE (2 ^ 64 - 1) Z.of_nat.

Definition insert_env : lock_env :=
  mk_env None (Some (λ _ _, false)) false false None true TL_WRITE (2 ^ 64 - 1) Z.of_nat.

Lemma plain_upgraded : upgraded_ok plain_env.
Proof. by left. Qed.

Lemma small_bound : (Z.of_nat 8 < 2 ^ 32)%Z.
Proof. done. Qed.

(** Owner 1 writes, owner 2 waits to read. *)
Definition demo_calls : list (call * ret) :=
  [(Lock 0 1 TL_WRITE, Locked (Some THR_LOCK_SUCCESS)); (Lock 1 2 TL_READ, Locked None)].

Definition after (env : lock_env) (cs : list call) : THR_LOCK seqs :=
  match run 8 env cs (init_lock Seqs.empty) with
  | Some (_, s) => s
  | None => init_lock Seqs.empty
  end.

Definition demo_state : THR_LOCK seqs := after plain_env demo_calls.*1.

Definition demo_waits : nat → option lock_list := <[1:=Some Read_wait]> (λ _, None).

(** The first two requests of a run: a write, then a read. *)
Lemma write_then_read env o1 t1 o2 t2 r1 r2 :
  write_type t1 = true → read_type t2 = true →
  exec 8 env (Lock 0 o1 t1) (init_lock Seqs.empty) = Some (after env [Lock 0 o1 t1], Locked (Some r1)) →
  (∀ q, 1 ∉ els (after env [Lock 0 o1 t1]) q) →
  exec 8 env (Lock 1 o2 t2) (after env [Lock 0 o1 t1])
  = Some (after env [Lock 0 o1 t1; Lock 1 o2 t2], Locked r2) →
  reachable 8 env [(Lock 0 o1 t1, Locked (Some r1)); (Lock 1 o2 t2, Locked r2)]
    (after env [Lock 0 o1 t1; Lock 1 o2 t2])
    (update_waits (Lock 1 o2 t2) (Locked r2) (λ _, None)).
Proof.
  intros H1 H2 E1 Hf E2.
  apply (steps_snoc _ _ _ (after env [Lock 0 o1 t1], λ _, None) _ [(Lock 0 o1 t1, Locked (Some r1))]).
  - apply (steps_snoc _ _ _ (init_lock Seqs.empty, λ _, None) _ []); [constructor|].
    apply (do_call _ _ _ (λ _, None) (Lock 0 o1 t1) _ (Locked (Some r1))); [|done].
    split; [done|]. split; [intros []; apply not_elem_of_nil|lia|by right|].
    intros w _ Hw. by apply not_elem_of_nil in Hw.
  - apply (do_call _ _ _ (λ _, None) (Lock 1 o2 t2) _ (Locked r2)); [|done].
    split; [done|]. split; [done|lia| |]; cbn; rewrite fn_lookup_insert; cbn; [by left|].
    intros w Hw. by rewrite write_not_read in H2.
Qed.

Ltac not_in := intros []; vm_compute; intros H; repeat (inversion H as [|? ? ? G]; clear H; rename G into H).

Lemma demo_reachable : reachable 8 plain_env demo_calls demo_state demo_waits.
Proof. apply write_then_read; [done|done|vm_compute; reflexivity|not_in|vm_compute; reflexivity]. Qed.

(** Owner 1 inserts, owner 2 reads beside it. *)
Definition share_calls : list (call * ret) :=
  [(Lock 0 1 TL_WRITE_CONCURRENT_INSERT, Locked (Some THR_LOCK_SUCCESS));
   (Lock 1 2 TL_READ, Locked (Some THR_LOCK_SUCCESS))].

Definition share_state : THR_LOCK seqs := after insert_env share_calls.*1.

Lemma share_reachable : reachable 8 insert_env share_calls share_state (λ _, None).
Proof. apply write_then_read; [done|done|vm_compute; reflexivity|not_in|vm_compute; reflexivity]. Qed.

(** ** The theorems at work *)

Lemma exclusive_locks_exclude_witness :
  exclusive (ty share_state 0) = false.
Proof.
  apply (exclusive_locks_exclude 8 insert_env share_calls share_state (λ _, None) 0 1).
  - reflexivity.
  - left. reflexivity.
  - exact share_reachable.
  - vm_compute. left.
  - left. vm_compute. left.
  - vm_compute. discriminate.
Defined.

Lemma no_lost_wakeup_witness :
  (els demo_state Read ≠ [] ∨ els demo_state Write ≠ [])
  ∧ (1 ∈ els demo_state Read_wait → els demo_state Write ≠ [] ∨ els demo_state Write_wait ≠ []).
Proof.
  apply (no_lost_wakeup 8 plain_env demo_calls demo_state demo_waits 1).
  - reflexivity.
  - left. reflexivity.
  - exact demo_reachable.
  - left. vm_compute. left.
Defined.



Lemma allowed_calls_return_witness :
  ∃ s' r, step 8 plain_env (demo_state, demo_waits) (Unlock 0 0) r
            (s', update_waits (Unlock 0 0) r demo_waits).
Proof.
  apply (allowed_calls_return 8 plain_env demo_calls demo_state demo_waits (Unlock 0 0));
    [reflexivity|left; reflexivity|exact demo_reachable|].
  split; [reflexivity|]. exists Write. split; [vm_compute; left|right; left; reflexivity].
Defined.

Lemma wait_result_correct_witness :
  ∃ s' r, exec 8 plain_env (Leave_wait 1 Read_wait THR_LOCK_WAIT_TIMEOUT) demo_state = Some (s', Left r)
    ∧ (r = THR_LOCK_SUCCESS ↔ 1 ∈ els s' (active Read_wait))
    ∧ (r ≠ THR_LOCK_SUCCESS → r = THR_LOCK_WAIT_TIMEOUT ∧ ∀ q', 1 ∉ els s' q').
Proof.
  apply (wait_result_correct 8 plain_env demo_calls demo_state demo_waits 1 Read_wait);
    [reflexivity|left; reflexivity|exact demo_reachable|reflexivity|reflexivity|discriminate].
Defined.

Lemma lock_outcome_witness :
  ∃ s' r, exec 8 plain_env (Lock 2 3 TL_READ) demo_state = Some (s', Locked r)
    ∧ outcome plain_env (set_type 2 TL_READ demo_state) s' 2 r ∧ others demo_state s' 2.
Proof.
  apply (lock_outcome 8 plain_env demo_calls demo_state demo_waits 2 3 TL_READ);
    [reflexivity|left; reflexivity|exact demo_reachable|].
  split; [reflexivity|]. split; [not_in|lia|left; reflexivity|discriminate].
Defined.

(** ** Departures from the comments *)

Definition answers (env : lock_env) (cs : list call) : option (list ret) :=
  fst <$> run 8 env cs (init_lock Links.thr_lock_init).

(** [thr_unlock] tests [lock_type <= TL_READ_NO_INSERT] to find the list of a
    read lock, but [thr_lock] also takes [TL_READ_SKIP_LOCKED] as a read lock.
    After such a lock has been released the read and write lists are mixed up,
    and a read lock is granted although another thread holds [TL_WRITE]; with
    [TL_READ] instead the same read request waits. *)
Theorem skip_locked_corrupts :
  answers plain_env [Lock 0 1 TL_READ_SKIP_LOCKED; Unlock 0 0; Lock 1 2 TL_WRITE; Lock 2 3 TL_READ]
  = Some [Locked (Some THR_LOCK_SUCCESS); Done; Locked (Some THR_LOCK_SUCCESS);
          Locked (Some THR_LOCK_SUCCESS)]
  ∧ answers plain_env [Lock 0 1 TL_READ; Unlock 0 0; Lock 1 2 TL_WRITE; Lock 2 3 TL_READ]
  = Some [Locked (Some THR_LOCK_SUCCESS); Done; Locked (Some THR_LOCK_SUCCESS); Locked None].
Proof. split; vm_compute; reflexivity. Qed.

(** [thr_upgrade_write_delay_lock] returns 0, its value for success, when the
    wait for the lock timed out: the request is then in no list, its type is
    [TL_UNLOCK], and the caller goes on as if it had the lock. *)
Theorem upgrade_timeout_reports_success :
  ∃ p, run 8 plain_env
         [Lock 0 1 TL_READ; Lock 1 2 TL_WRITE_DELAYED; Upgrade 1 TL_WRITE;
          Leave_wait 1 Write_wait THR_LOCK_WAIT_TIMEOUT] (init_lock Links.thr_lock_init)
       = Some ([Locked (Some THR_LOCK_SUCCESS); Locked (Some THR_LOCK_SUCCESS); Upgrade_ret None;
                Left THR_LOCK_WAIT_TIMEOUT], p)
    ∧ (upgrade_result plain_env 1 THR_LOCK_WAIT_TIMEOUT p).1 = false
    ∧ type (datas p 1) = TL_UNLOCK
    ∧ cell (lists p) (Head Write) = None ∧ cell (lists p) (Head Write_wait) = None.
Proof. eexists. split; [vm_compute; reflexivity|]. by vm_compute. Qed.

(** The compatibility matrix of [thr_lock] says that [TL_READ_NO_INSERT] is
    not granted beside [TL_WRITE_CONCURRENT_INSERT].  The code looks at the first
    write lock only: when that one is [TL_WRITE_ALLOW_WRITE] the read lock is
    granted although owner 2 is inserting. *)
Theorem no_insert_beside_insert :
  answers insert_env
    [Lock 0 1 TL_WRITE_CONCURRENT_INSERT; Lock 1 1 TL_WRITE_ALLOW_WRITE;
     Lock 2 2 TL_WRITE_CONCURRENT_INSERT; Unlock 0 0; Lock 3 3 TL_READ_NO_INSERT]
  = Some [Locked (Some THR_LOCK_SUCCESS); Locked (Some THR_LOCK_SUCCESS);
          Locked (Some THR_LOCK_SUCCESS); Done; Locked (Some THR_LOCK_SUCCESS)].
Proof. vm_compute. reflexivity. Qed.

(** A thread may wait for itself: owner 2 inserts beside owner 1 and then asks
    to read without inserts, as [sort_locks] orders the two requests.  When
    owner 1 has gone, the only active lock is owner 2's own, and yet its read
    request waits on, because [wake_up_waiters] does nothing while a write lock
    is active.  When owner 2 inserts alone the same request is granted. *)
Theorem insert_waits_for_itself :
  (∃ s, run 8 insert_env
     [Lock 0 1 TL_WRITE_CONCURRENT_INSERT; Lock 1 2 TL_WRITE_CONCURRENT_INSERT;
      Lock 2 2 TL_READ_NO_INSERT; Unlock 0 0] (init_lock Seqs.empty)
   = Some ([Locked (Some THR_LOCK_SUCCESS); Locked (Some THR_LOCK_SUCCESS); Locked None; Done], s)
   ∧ els s Write = [1] ∧ els s Read = [] ∧ els s Read_wait = [2] ∧ els s Write_wait = []
   ∧ owner (datas s 1) = 2 ∧ owner (datas s 2) = 2)
  ∧ answers insert_env [Lock 1 2 TL_WRITE_CONCURRENT_INSERT; Lock 2 2 TL_READ_NO_INSERT]
  = Some [Locked (Some THR_LOCK_SUCCESS); Locked (Some THR_LOCK_SUCCESS)].
Proof. split; [eexists; split; [vm_compute; reflexivity|by vm_compute]|vm_compute; reflexivity]. Qed.
