(* ===== verification/RwLock.v ===== *)
(** * The readers/writer lock that prefers readers (mysys/thr_rwlock.c)

    [rw_pr_rdlock], [rw_pr_wrlock] and [rw_pr_unlock] run in any number of
    threads.  A thread is at one statement of one of these functions, or
    outside of them; statements of different threads interleave in any order.
    The mutex and the condition variable behave as POSIX says: [pthread_mutex_lock]
    waits for the mutex to be free, [pthread_cond_wait] releases it while it waits,
    [pthread_cond_signal] ends the waiting of one thread if any waits, and a wait may also end
    without a signal. *)

From S2P Require Import Prelude MyBit.

#[local] Open Scope Z_scope.

(** ** The code *)

Notation tid := nat (only parsing).

Record rw_pr_lock_t := mk_lock {
  lock : option tid; (* the owner of the mutex *)
  active_readers : Z;
  writers_waiting_readers : Z;
  active_writer : bool;
}.

Definition rw_pr_init : rw_pr_lock_t := mk_lock None 0 0 false.

(** The next statement of a thread in a function; what is waited for comes first. *)
Inductive rdlock_pc := Rd_mutex_lock | Rd_count | Rd_mutex_unlock.
Inductive wrlock_pc :=
  Wr_mutex_lock | Wr_if | Wr_count | Wr_while | Wr_cond_wait | Wr_waiting | Wr_signalled | Wr_uncount | Wr_active.
Inductive unlock_pc :=
  Un_if | Un_active | Un_if_waiting | Un_mutex_lock | Un_count | Un_if_last | Un_cond_signal | Un_mutex_unlock.

(** The lock a thread holds when it calls [rw_pr_unlock]; the function does not see it. *)
Inductive held := Rd | Wr.

Inductive pc :=
  | Outside
  | Has (h : held)
  | In_rdlock (p : rdlock_pc)
  | In_wrlock (p : wrlock_pc)
  | In_unlock (h : held) (p : unlock_pc).

#[export] Instance rdlock_pc_eq_dec : EqDecision rdlock_pc.
Proof. solve_decision. Defined.
#[export] Instance wrlock_pc_eq_dec : EqDecision wrlock_pc.
Proof. solve_decision. Defined.
#[export] Instance unlock_pc_eq_dec : EqDecision unlock_pc.
Proof. solve_decision. Defined.
#[export] Instance held_eq_dec : EqDecision held.
Proof. solve_decision. Defined.
#[export] Instance pc_eq_dec : EqDecision pc.
Proof. solve_decision. Defined.

(** [pthread_mutex_lock] of a free mutex, [pthread_mutex_unlock] by its owner. *)
Definition mutex_lock (t : tid) (l : rw_pr_lock_t) : option rw_pr_lock_t :=
  match lock l with
  | None => Some (mk_lock (Some t) (active_readers l) (writers_waiting_readers l) (active_writer l))
  | Some _ => None
  end.

Definition mutex_unlock (t : tid) (l : rw_pr_lock_t) : option rw_pr_lock_t :=
  if decide (lock l = Some t)
  then Some (mk_lock None (active_readers l) (writers_waiting_readers l) (active_writer l)) else None.

Definition set_readers (n : Z) (l : rw_pr_lock_t) : rw_pr_lock_t :=
  mk_lock (lock l) (u32 n) (writers_waiting_readers l) (active_writer l).
Definition set_waiting (n : Z) (l : rw_pr_lock_t) : rw_pr_lock_t :=
  mk_lock (lock l) (active_readers l) (u32 n) (active_writer l).
Definition set_writer (b : bool) (l : rw_pr_lock_t) : rw_pr_lock_t :=
  mk_lock (lock l) (active_readers l) (writers_waiting_readers l) b.

Definition rw_pr_rdlock (t : tid) (l : rw_pr_lock_t) (p : rdlock_pc) : option (rw_pr_lock_t * pc) :=
  match p with
  | Rd_mutex_lock => l ← mutex_lock t l; Some (l, In_rdlock Rd_count)
  | Rd_count => Some (set_readers (active_readers l + 1) l, In_rdlock Rd_mutex_unlock)
  | Rd_mutex_unlock => l ← mutex_unlock t l; Some (l, Has Rd)
  end.

Definition rw_pr_wrlock (t : tid) (l : rw_pr_lock_t) (p : wrlock_pc) : option (rw_pr_lock_t * pc) :=
  match p with
  | Wr_mutex_lock => l ← mutex_lock t l; Some (l, In_wrlock Wr_if)
  | Wr_if => Some (l, In_wrlock (if active_readers l =? 0 then Wr_active else Wr_count))
  | Wr_count => Some (set_waiting (writers_waiting_readers l + 1) l, In_wrlock Wr_while)
  | Wr_while => Some (l, In_wrlock (if active_readers l =? 0 then Wr_uncount else Wr_cond_wait))
  | Wr_cond_wait => l ← mutex_unlock t l; Some (l, In_wrlock Wr_waiting)
  | Wr_waiting => None
  | Wr_signalled => l ← mutex_lock t l; Some (l, In_wrlock Wr_while)
  | Wr_uncount => Some (set_waiting (writers_waiting_readers l - 1) l, In_wrlock Wr_active)
  | Wr_active => Some (set_writer true l, Has Wr)
  end.

Definition rw_pr_unlock (t : tid) (l : rw_pr_lock_t) (h : held) (p : unlock_pc) : option (rw_pr_lock_t * pc) :=
  match p with
  | Un_if => Some (l, In_unlock h (if active_writer l then Un_active else Un_mutex_lock))
  | Un_active => Some (set_writer false l, In_unlock h Un_if_waiting)
  | Un_if_waiting =>
    Some (l, In_unlock h (if writers_waiting_readers l =? 0 then Un_mutex_unlock else Un_cond_signal))
  | Un_mutex_lock => l ← mutex_lock t l; Some (l, In_unlock h Un_count)
  | Un_count => Some (set_readers (active_readers l - 1) l, In_unlock h Un_if_last)
  | Un_if_last =>
    Some (l, In_unlock h (if (active_readers l =? 0) && negb (writers_waiting_readers l =? 0)
                          then Un_cond_signal else Un_mutex_unlock))
  | Un_cond_signal => Some (l, In_unlock h Un_mutex_unlock)
  | Un_mutex_unlock => l ← mutex_unlock t l; Some (l, Outside)
  end.

(** ** Threads *)

(** The statement of a thread; [None]: it has to wait, or is outside the functions. *)
Definition statement (t : tid) (l : rw_pr_lock_t) (p : pc) : option (rw_pr_lock_t * pc) :=
  match p with
  | Outside | Has _ => None
  | In_rdlock p => rw_pr_rdlock t l p
  | In_wrlock p => rw_pr_wrlock t l p
  | In_unlock h p => rw_pr_unlock t l h p
  end.

Record system := mk_system { rw : rw_pr_lock_t; threads : list pc }.

Definition waiting : pc := In_wrlock Wr_waiting.
Definition signalled : pc := In_wrlock Wr_signalled.

(** A wait ends. *)
Definition end_wait (u : tid) (ths : list pc) : option (list pc) :=
  if decide (ths !! u = Some waiting) then Some (<[u := signalled]> ths) else None.

(** [pthread_cond_signal] wakes the thread [u]; without a thread it is lost. *)
Definition cond_signal (u : option tid) (ths : list pc) : option (list pc) :=
  match u with
  | Some u => end_wait u ths
  | None => if decide (waiting ∈ ths) then None else Some ths
  end.

Definition signals (p : pc) : bool :=
  match p with In_unlock _ Un_cond_signal => true | _ => false end.

(** A call, one statement of a thread with the thread that a signal in it wakes,
    or the end of a wait that nobody signalled. *)
Inductive event := Rdlock (t : tid) | Wrlock (t : tid) | Unlock (t : tid) | Run (t : tid) (woken : option tid) | Spurious (t : tid).

Definition step (s : system) (e : event) : option system :=
  match e with
  | Rdlock t =>
    if decide (threads s !! t = Some Outside)
    then Some (mk_system (rw s) (<[t := In_rdlock Rd_mutex_lock]> (threads s))) else None
  | Wrlock t =>
    if decide (threads s !! t = Some Outside)
    then Some (mk_system (rw s) (<[t := In_wrlock Wr_mutex_lock]> (threads s))) else None
  | Unlock t =>
    match threads s !! t with
    | Some (Has h) => Some (mk_system (rw s) (<[t := In_unlock h Un_if]> (threads s)))
    | _ => None
    end
  | Run t woken =>
    p ← threads s !! t;
    '(l, p') ← statement t (rw s) p;
    let ths := <[t := p']> (threads s) in
    ths ← (if signals p then cond_signal woken ths else Some ths);
    Some (mk_system l ths)
  | Spurious t => ths ← end_wait t (threads s); Some (mk_system (rw s) ths)
  end.

Fixpoint run (s : system) (es : list event) : option system :=
  match es with [] => Some s | e :: es => s ← step s e; run s es end.

(** [n] threads that have not called anything yet. *)
Definition start (n : nat) : system := mk_system rw_pr_init (replicate n Outside).
