(* ===== verification/RwLockInv.v ===== *)
(** * What the readers/writer lock guarantees

    One invariant of all threads: who owns the mutex, what the counters count,
    and that somebody will wake a waiting writer. *)

From S2P Require Import Prelude MyBit RwLock.

#[local] Open Scope Z_scope.

(** ** Where a thread can be *)

(** The thread owns the mutex. *)
Definition owns (p : pc) : bool :=
  match p with
  | In_rdlock p => match p with Rd_mutex_lock => false | _ => true end
  | In_wrlock p => match p with Wr_mutex_lock | Wr_waiting | Wr_signalled => false | _ => true end
  | In_unlock Rd p => match p with Un_if | Un_mutex_lock => false | _ => true end
  | In_unlock Wr _ => true
  | Has h => bool_decide (h = Wr)
  | Outside => false
  end.

(** It is counted in [active_readers], [writers_waiting_readers]. *)
Definition reads (p : pc) : bool :=
  match p with
  | In_rdlock Rd_mutex_unlock | Has Rd | In_unlock Rd (Un_if | Un_mutex_lock | Un_count) => true
  | _ => false
  end.

Definition waits (p : pc) : bool :=
  match p with
  | In_wrlock (Wr_while | Wr_cond_wait | Wr_waiting | Wr_signalled | Wr_uncount) => true
  | _ => false
  end.

(** It has set [active_writer]. *)
Definition writes (p : pc) : bool :=
  match p with Has Wr | In_unlock Wr (Un_if | Un_active) => true | _ => false end.

(** It goes the branch of [rw_pr_unlock] for the lock it has. *)
Definition possible (p : pc) : bool :=
  match p with
  | In_unlock Rd (Un_active | Un_if_waiting) | In_unlock Wr (Un_mutex_lock | Un_count | Un_if_last) => false
  | _ => true
  end.

(** It has seen that there are no readers, or some. *)
Definition saw_none (p : pc) : bool :=
  match p with In_wrlock (Wr_uncount | Wr_active) => true | p => writes p end.
Definition saw_some (p : pc) : bool :=
  match p with In_wrlock (Wr_count | Wr_cond_wait) => true | _ => false end.

(** Without readers, it will signal or become the writer, who signals. *)
Definition will_signal (p : pc) : bool :=
  match p with
  | In_wrlock (Wr_if | Wr_while | Wr_signalled | Wr_uncount | Wr_active) | Has Wr
  | In_unlock Wr (Un_if | Un_active | Un_if_waiting) | In_unlock Rd Un_if_last | In_unlock _ Un_cond_signal => true
  | _ => false
  end.

(** ** Counting threads *)

Definition count (f : pc → bool) (ths : list pc) : Z := Z.of_nat (length (filter (λ p, f p = true) ths)).

Lemma count_insert f ths t p p' :
  ths !! t = Some p → count f (<[t := p']> ths) = count f ths + Z.b2z (f p') - Z.b2z (f p).
Proof.
  intros H. unfold count. pose proof (lookup_lt_Some _ _ _ H). rewrite insert_take_drop by done.
  rewrite <- (take_drop_middle ths t p H) at 3. rewrite !list.filter_app, !length_app, !list.filter_cons.
  destruct (f p'), (f p); repeat case_decide; try done; cbn [length Z.b2z]; lia.
Qed.

Lemma count_bound f ths : 0 ≤ count f ths ≤ Z.of_nat (length ths).
Proof. unfold count. pose proof (list.length_filter (λ p, f p = true) ths). lia. Qed.

Lemma count_pos f ths t p : ths !! t = Some p → f p = true → 0 < count f ths.
Proof.
  intros H Hf. unfold count. assert (Hp : p ∈ filter (λ p, f p = true) ths) by (apply list_elem_of_filter; eauto using list_elem_of_lookup_2).
  destruct (filter _ ths); [by apply not_elem_of_nil in Hp|cbn; lia].
Qed.

Lemma count_exists f ths : count f ths ≠ 0 → ∃ t p, ths !! t = Some p ∧ f p = true.
Proof.
  unfold count. intros H. destruct (filter _ ths) as [|p l] eqn:E; [done|].
  assert (Hp : p ∈ filter (λ p, f p = true) ths) by (rewrite E; left).
  apply list_elem_of_filter in Hp as [Hf [t Ht]%list_elem_of_lookup_1]. eauto.
Qed.

(** ** The invariant *)

(** Some thread will signal. *)
Definition signal_due (ths : list pc) : Prop := ∃ t p, ths !! t = Some p ∧ will_signal p = true.

Definition owner_writes (l : rw_pr_lock_t) (ths : list pc) : bool :=
  match lock l with Some t => from_option writes false (ths !! t) | None => false end.

Record Inv (s : system) : Prop := {
  inv_threads : Z.of_nat (length (threads s)) < 2 ^ 32;
  inv_readers : active_readers (rw s) = count reads (threads s);
  inv_waiting : writers_waiting_readers (rw s) = count waits (threads s);
  inv_owner t p : threads s !! t = Some p → owns p = true ↔ lock (rw s) = Some t;
  inv_owned t : lock (rw s) = Some t → (t < length (threads s))%nat;
  inv_writer : active_writer (rw s) = owner_writes (rw s) (threads s);
  inv_possible t p : threads s !! t = Some p → possible p = true;
  inv_none t p : threads s !! t = Some p → saw_none p = true → active_readers (rw s) = 0;
  inv_some t p : threads s !! t = Some p → saw_some p = true → active_readers (rw s) ≠ 0;
  inv_signal : waiting ∈ threads s → active_readers (rw s) = 0 → signal_due (threads s);
}.

(** How a statement passes the mutex on. *)
Definition mutex_step (t : tid) (o : option tid) (b : bool) (o' : option tid) (b' : bool) : Prop :=
  o' = o ∧ b' = b
  ∨ o = None ∧ b = false ∧ o' = Some t ∧ b' = true
  ∨ o = Some t ∧ b = true ∧ o' = None ∧ b' = false.

Lemma writes_owns p : writes p = true → owns p = true.
Proof. by destruct p as [|[]|[]|[]|[] []]. Qed.

Lemma saw_none_owns p : saw_none p = true → owns p = true.
Proof. by destruct p as [|[]|[]|[]|[] []]. Qed.

Lemma saw_some_owns p : saw_some p = true → owns p = true.
Proof. by destruct p as [|[]|[]|[]|[] []]. Qed.

(** A thread goes from [p] to [p'] and the lock from [l] to [l']. *)
Lemma inv_move l l' ths t p p' :
  Inv (mk_system l ths) → ths !! t = Some p →
  mutex_step t (lock l) (owns p) (lock l') (owns p') →
  active_readers l' = active_readers l + Z.b2z (reads p') - Z.b2z (reads p) →
  writers_waiting_readers l' = writers_waiting_readers l + Z.b2z (waits p') - Z.b2z (waits p) →
  (active_readers l' = active_readers l ∨ owns p = true) →
  active_writer l' = (if owns p || owns p' then writes p' else active_writer l) →
  possible p' = true → (saw_none p' = true → active_readers l' = 0) → (saw_some p' = true → active_readers l' ≠ 0) →
  (waiting ∈ <[t := p']> ths → active_readers l' = 0 → signal_due (<[t := p']> ths)) →
  Inv (mk_system l' (<[t := p']> ths)).
Proof.
  intros I Hp M Er Ew Hr Ea Hpo Hn Hs Hd. pose proof (lookup_lt_Some _ _ _ Hp) as Ht.
  assert (Hother : ∀ u q, <[t := p']> ths !! u = Some q → u = t ∧ q = p' ∨ u ≠ t ∧ ths !! u = Some q).
  { intros u q Hu. destruct (decide (u = t)) as [->|Hne].
    - left. rewrite list_lookup_insert_eq in Hu by done. by injection Hu.
    - right. by rewrite list_lookup_insert_ne in Hu by done. }
  assert (Howner : ∀ u q, ths !! u = Some q → u ≠ t → owns q = true → owns p = false).
  { intros u q Hu Hne Hq%(inv_owner _ I u q Hu). destruct (owns p) eqn:E; [|done].
    apply (inv_owner _ I t p Hp) in E. cbn in *. congruence. }
  destruct I as [Hlen Hrd Hw Ho Hod Hwr Hps Hno Hso Hsig]; cbn [rw threads] in *. split; cbn [rw threads]; try done.
  - by rewrite length_insert.
  - rewrite (count_insert _ _ _ _ _ Hp). lia.
  - rewrite (count_insert _ _ _ _ _ Hp). lia.
  - intros u q [[-> ->]|[Hne Hu]]%Hother; [specialize (Ho t p Hp)|specialize (Ho u q Hu)];
      destruct M as [[-> Eb]|[(Eo & Eb & -> & Eb')|(Eo & Eb & -> & Eb')]]; rewrite ?Eb', ?Eb, ?Eo in *; try done.
    + rewrite Ho. split; congruence.
    + rewrite Ho. split; congruence.
  - intros u Hu. rewrite length_insert. destruct M as [[E _]|[(_ & _ & E & _)|(_ & _ & E & _)]]; rewrite E in Hu; [by apply Hod| |done].
    by injection Hu as <-.
  - rewrite Ea. unfold owner_writes in *. specialize (Ho t p Hp).
    destruct M as [[-> Eb]|[(Eo & Eb & -> & Eb')|(Eo & Eb & -> & Eb')]]; rewrite ?Eb', ?Eb in *.
    + rewrite orb_diag. destruct (owns p) eqn:E.
      * rewrite (proj1 Ho eq_refl). by rewrite list_lookup_insert_eq.
      * rewrite Hwr. destruct (lock l) as [u|] eqn:El; [|done].
        rewrite list_lookup_insert_ne; [done|]. intros ->. discriminate (proj2 Ho eq_refl).
    + by rewrite list_lookup_insert_eq.
    + cbn. destruct (writes p') eqn:E; [|done]. apply writes_owns in E. congruence.
  - intros u q [[-> ->]|[Hne Hu]]%Hother; eauto.
  - intros u q [[-> ->]|[Hne Hu]]%Hother Hq; [eauto|].
    pose proof (Howner u q Hu Hne (saw_none_owns q Hq)) as Hf. destruct Hr as [->|]; [eauto|congruence].
  - intros u q [[-> ->]|[Hne Hu]]%Hother Hq; [eauto|].
    pose proof (Howner u q Hu Hne (saw_some_owns q Hq)) as Hf. destruct Hr as [->|]; [eauto|congruence].
Qed.

(** ** Statements keep the invariant *)

Lemma due_here ths t p : ths !! t = Some p → will_signal p = true → signal_due ths.
Proof. by exists t, p. Qed.

Lemma due_move l ths t p p' r' :
  Inv (mk_system l ths) → ths !! t = Some p →
  will_signal p' = true ∨ r' ≠ 0 ∨ ((r' = 0 → active_readers l = 0) ∧ will_signal p = false ∧ p' ≠ waiting)
    ∨ writers_waiting_readers l = 0 ∧ p' ≠ waiting →
  waiting ∈ <[t := p']> ths → r' = 0 → signal_due (<[t := p']> ths).
Proof.
  intros I Hp H Hw Hr. pose proof (lookup_lt_Some _ _ _ Hp) as Ht.
  assert (Hold : p' ≠ waiting → ∃ u, u ≠ t ∧ ths !! u = Some waiting).
  { intros Hne. apply list_elem_of_lookup_1 in Hw as [u Hu]. exists u. destruct (decide (u = t)) as [->|].
    - rewrite list_lookup_insert_eq in Hu by done. congruence.
    - by rewrite list_lookup_insert_ne in Hu. }
  destruct H as [H|[H|[(H0 & Hf & Hne)|(H0 & Hne)]]]; [|done| |].
  - apply (due_here _ t p'); [by apply list_lookup_insert_eq|done].
  - destruct (Hold Hne) as (u & _ & Hu). destruct (inv_signal _ I) as (v & q & Hv & Hq); [by eapply list_elem_of_lookup_2|by apply H0|].
    apply (due_here _ v q); [|done]. cbn in Hv. rewrite list_lookup_insert_ne; [done|]. intros ->. congruence.
  - destruct (Hold Hne) as (u & _ & Hu). pose proof (inv_waiting _ I) as E. cbn in E.
    pose proof (count_pos waits ths u waiting Hu eq_refl). lia.
Qed.

Lemma mutex_lock_Some t l l' :
  mutex_lock t l = Some l' → lock l = None ∧ l' = mk_lock (Some t) (active_readers l) (writers_waiting_readers l) (active_writer l).
Proof. unfold mutex_lock. destruct (lock l); [done|]. by intros [= <-]. Qed.

Lemma mutex_unlock_Some t l l' :
  mutex_unlock t l = Some l' → lock l = Some t ∧ l' = mk_lock None (active_readers l) (writers_waiting_readers l) (active_writer l).
Proof. unfold mutex_unlock. case_decide; [|done]. by intros [= <-]. Qed.

(** The threads that do not own the mutex have not set [active_writer]. *)
Lemma free_no_writer s : Inv s → lock (rw s) = None → active_writer (rw s) = false.
Proof. intros I E. rewrite (inv_writer _ I). unfold owner_writes. by rewrite E. Qed.

Lemma writer_is_owner s t p : Inv s → threads s !! t = Some p → owns p = true → active_writer (rw s) = writes p.
Proof.
  intros I Hp Ho. rewrite (inv_writer _ I). unfold owner_writes.
  apply (inv_owner _ I t p Hp) in Ho as ->. by rewrite Hp.
Qed.

(** A thread that reads excludes a writer. *)
Lemma reader_no_writer s t p : Inv s → threads s !! t = Some p → reads p = true → active_writer (rw s) = false.
Proof.
  intros I Hp Hr. rewrite (inv_writer _ I). unfold owner_writes. destruct (lock (rw s)) as [u|]; [|done].
  destruct (threads s !! u) as [q|] eqn:Hu; [|done]. cbn. destruct (writes q) eqn:E; [|done].
  pose proof (inv_none _ I u q Hu) as H. rewrite (inv_readers _ I) in H.
  pose proof (count_pos reads _ t p Hp Hr). assert (saw_none q = true) by (by destruct q as [|[]|[]|[]|[] []]). lia.
Qed.

Lemma reads_counted s t p : Inv s → threads s !! t = Some p → reads p = true → 0 < active_readers (rw s).
Proof. intros I Hp Hr. rewrite (inv_readers _ I). by eapply count_pos. Qed.

Lemma waits_counted s t p : Inv s → threads s !! t = Some p → waits p = true → 0 < writers_waiting_readers (rw s).
Proof. intros I Hp Hr. rewrite (inv_waiting _ I). by eapply count_pos. Qed.

(** Another thread to count does not overflow the counters. *)
Lemma reads_room s t p : Inv s → threads s !! t = Some p → reads p = false → 0 ≤ active_readers (rw s) < 2 ^ 32 - 1.
Proof.
  intros I Hp Hr. rewrite (inv_readers _ I). pose proof (count_insert reads _ _ _ (Has Rd) Hp) as E.
  pose proof (count_bound reads (<[t := Has Rd]> (threads s))) as B. rewrite length_insert in B.
  pose proof (count_bound reads (threads s)). pose proof (inv_threads _ I). rewrite Hr in E. cbn in E. lia.
Qed.

Lemma waits_room s t p : Inv s → threads s !! t = Some p → waits p = false → 0 ≤ writers_waiting_readers (rw s) < 2 ^ 32 - 1.
Proof.
  intros I Hp Hr. rewrite (inv_waiting _ I). pose proof (count_insert waits _ _ _ waiting Hp) as E.
  pose proof (count_bound waits (<[t := waiting]> (threads s))) as B. rewrite length_insert in B.
  pose proof (count_bound waits (threads s)). pose proof (inv_threads _ I). rewrite Hr in E. cbn in E. lia.
Qed.

Lemma counters_bounded s : Inv s → active_readers (rw s) < 2 ^ 32 ∧ writers_waiting_readers (rw s) < 2 ^ 32.
Proof.
  intros I. rewrite (inv_readers _ I), (inv_waiting _ I). pose proof (inv_threads _ I).
  pose proof (count_bound reads (threads s)). pose proof (count_bound waits (threads s)). lia.
Qed.

(** What the invariant says of a thread, as far as its place in the code decides it. *)
Record facts (l : rw_pr_lock_t) (p : pc) : Prop := {
  f_bounds : 0 ≤ active_readers l < 2 ^ 32 ∧ 0 ≤ writers_waiting_readers l < 2 ^ 32;
  f_free : lock l = None → active_writer l = false;
  f_owner : owns p = true → active_writer l = writes p;
  f_reader : reads p = true → active_writer l = false ∧ 0 < active_readers l;
  f_waits : waits p = true → 0 < writers_waiting_readers l;
  f_reads_room : reads p = false → active_readers l < 2 ^ 32 - 1;
  f_waits_room : waits p = false → writers_waiting_readers l < 2 ^ 32 - 1;
  f_none : saw_none p = true → active_readers l = 0;
  f_some : saw_some p = true → active_readers l ≠ 0;
  f_possible : possible p = true;
}.

Lemma inv_facts l ths t p : Inv (mk_system l ths) → ths !! t = Some p → facts l p.
Proof.
  intros I Hp. split.
  - destruct (counters_bounded _ I). pose proof (inv_readers _ I). pose proof (inv_waiting _ I).
    pose proof (count_bound reads ths). pose proof (count_bound waits ths). cbn in *. lia.
  - by apply (free_no_writer _ I).
  - by apply (writer_is_owner _ t p I).
  - intros Hr. split; [by apply (reader_no_writer _ t p I)|by apply (reads_counted _ t p I)].
  - by apply (waits_counted _ t p I).
  - intros Hr. by apply (reads_room _ t p I Hp) in Hr as [_ ?].
  - intros Hr. by apply (waits_room _ t p I Hp) in Hr as [_ ?].
  - by apply (inv_none _ I t p Hp).
  - by apply (inv_some _ I t p Hp).
  - by apply (inv_possible _ I t p Hp).
Qed.

(** The obligations of [inv_move] for one statement. *)
Ltac mutex_case :=
  match goal with
  | H : (mutex_lock ?t ?l ≫= _) = Some _ |- _ =>
    destruct (mutex_lock t l) eqn:?M; [|done]; apply mutex_lock_Some in M as [M ->]
  | H : (mutex_unlock ?t ?l ≫= _) = Some _ |- _ =>
    destruct (mutex_unlock t l) eqn:?M; [|done]; apply mutex_unlock_Some in M as [M ->]
  | _ => idtac
  end.

Ltac solve_move :=
  unfold mutex_step; cbn -[u32 Z.pow count] in *; rewrite ?u32_small by lia; try done; try lia;
  first [left; split; done | right; left; split_and!; done | right; right; split_and!; done | intuition (done || lia) | idtac].

Ltac statement_cases H :=
  mutex_case; injection H as <- <-;
  repeat match goal with |- context [Z.eqb ?a 0] => destruct (Z.eqb_spec a 0) end;
  try match goal with |- context [if active_writer ?l then _ else _] => destruct (active_writer l) eqn:? end.

Ltac statement_inv I Hp H :=
  statement_cases H; apply (inv_move _ _ _ _ _ _ I Hp); try (apply (due_move _ _ _ _ _ _ I Hp)); solve_move.

Lemma rdlock_inv l ths t p l' p' :
  Inv (mk_system l ths) → ths !! t = Some (In_rdlock p) → rw_pr_rdlock t l p = Some (l', p') →
  Inv (mk_system l' (<[t := p']> ths)).
Proof.
  intros I Hp H. destruct (inv_facts _ _ _ _ I Hp) as [[] ?????????].
  destruct p; cbn [rw_pr_rdlock] in H; statement_inv I Hp H.
Qed.

Lemma wrlock_inv l ths t p l' p' :
  Inv (mk_system l ths) → ths !! t = Some (In_wrlock p) → rw_pr_wrlock t l p = Some (l', p') →
  Inv (mk_system l' (<[t := p']> ths)).
Proof.
  intros I Hp H. destruct (inv_facts _ _ _ _ I Hp) as [[] ?????????].
  destruct p; cbn [rw_pr_wrlock] in H; [..|done| | |]; statement_inv I Hp H.
Qed.

Lemma unlock_inv l ths t h p l' p' :
  Inv (mk_system l ths) → ths !! t = Some (In_unlock h p) → rw_pr_unlock t l h p = Some (l', p') → p ≠ Un_cond_signal →
  Inv (mk_system l' (<[t := p']> ths)).
Proof.
  intros I Hp H Hne. destruct (inv_facts _ _ _ _ I Hp) as [[] ?????????].
  destruct h, p; try done; cbn [rw_pr_unlock] in H; statement_inv I Hp H.
Qed.

(** The end of a wait, with or without a signal. *)
Lemma end_wait_inv l ths u :
  Inv (mk_system l ths) → ths !! u = Some waiting → Inv (mk_system l (<[u := signalled]> ths)).
Proof.
  intros I Hu. destruct (inv_facts _ _ _ _ I Hu) as [[] ?????????].
  apply (inv_move _ _ _ _ _ _ I Hu); try (apply (due_move _ _ _ _ _ _ I Hu)); solve_move.
Qed.

Lemma signal_inv l ths ths' t h u :
  Inv (mk_system l ths) → ths !! t = Some (In_unlock h Un_cond_signal) →
  cond_signal u (<[t := In_unlock h Un_mutex_unlock]> ths) = Some ths' → Inv (mk_system l ths').
Proof.
  intros I Hp H. assert (Hmove : ∀ ths, Inv (mk_system l ths) → ths !! t = Some (In_unlock h Un_cond_signal) →
    (waiting ∈ <[t := In_unlock h Un_mutex_unlock]> ths → active_readers l = 0 → signal_due (<[t := In_unlock h Un_mutex_unlock]> ths)) →
    Inv (mk_system l (<[t := In_unlock h Un_mutex_unlock]> ths))).
  { clear. intros ths I Hp Hd. destruct (inv_facts _ _ _ _ I Hp) as [[] ?????????].
    apply (inv_move _ _ _ _ _ _ I Hp); try done; destruct h; solve_move. }
  destruct u as [u|]; cbn in H.
  - unfold end_wait in H. case_decide as Hu; [|done]. injection H as <-.
    assert (Hne : u ≠ t) by (intros ->; rewrite list_lookup_insert_eq in Hu by (by eapply lookup_lt_Some); done).
    rewrite list_lookup_insert_ne in Hu by done. rewrite list_insert_insert_ne by done.
    apply Hmove; [by apply end_wait_inv|by rewrite list_lookup_insert_ne|]. intros _ _.
    apply (due_here _ u signalled); [|done]. rewrite list_lookup_insert_ne by done.
    apply list_lookup_insert_eq. by eapply lookup_lt_Some.
  - case_decide as Hw; [done|]. injection H as <-. by apply Hmove.
Qed.

(** A call of a function starts at its first statement. *)
Lemma call_inv l ths t p p' :
  Inv (mk_system l ths) → ths !! t = Some p →
  p = Outside ∧ (p' = In_rdlock Rd_mutex_lock ∨ p' = In_wrlock Wr_mutex_lock) ∨ (∃ h, p = Has h ∧ p' = In_unlock h Un_if) →
  Inv (mk_system l (<[t := p']> ths)).
Proof.
  intros I Hp H. destruct (inv_facts _ _ _ _ I Hp) as [[] ?????????].
  destruct H as [[-> [->| ->]]|([] & -> & ->)];
    apply (inv_move _ _ _ _ _ _ I Hp); try (apply (due_move _ _ _ _ _ _ I Hp)); solve_move.
Qed.

Lemma step_inv s e s' : Inv s → step s e = Some s' → Inv s'.
Proof.
  destruct s as [l ths]. intros I H. destruct e as [t|t|t|t u|t]; cbn [step rw threads] in H.
  - case_decide; [|done]. injection H as <-. by apply (call_inv _ _ _ Outside); auto.
  - case_decide; [|done]. injection H as <-. by apply (call_inv _ _ _ Outside); auto.
  - destruct (ths !! t) as [p|] eqn:Hp; [|done]. destruct p as [|h| | |]; try done. injection H as <-.
    apply (call_inv _ _ _ (Has h)); eauto.
  - destruct (ths !! t) as [p|] eqn:Hp; [|done]. cbn [mbind option_bind] in H.
    destruct (statement t l p) as [[l' p']|] eqn:E; [|done]. cbn [mbind option_bind] in H.
    destruct (signals p) eqn:Es.
    + destruct p as [| | | |h []]; try done. cbn in E. injection E as <- <-.
      destruct (cond_signal u _) as [ths'|] eqn:Ec; [|done]. injection H as <-. by eapply signal_inv.
    + injection H as <-. destruct p as [| |p|p|h p]; try done; cbn [statement] in E.
      * by eapply rdlock_inv.
      * by eapply wrlock_inv.
      * eapply unlock_inv; [done..|]. by intros ->.
  - unfold end_wait in H. case_decide as Hw; [|done]. injection H as <-. by apply end_wait_inv.
Qed.

Lemma start_inv n : Z.of_nat n < 2 ^ 32 → Inv (start n).
Proof.
  intros Hn. assert (Ho : ∀ t p, replicate n Outside !! t = Some p → p = Outside) by (by intros t p [-> _]%lookup_replicate).
  assert (Hc : ∀ f, f Outside = false → count f (replicate n Outside) = 0).
  { intros f Hf. unfold count. rewrite filter_none; [done|]. intros x [-> _]%elem_of_replicate. congruence. }
  split; cbn [start rw threads rw_pr_init active_readers writers_waiting_readers].
  - by rewrite length_replicate.
  - by rewrite Hc.
  - by rewrite Hc.
  - by intros t p ->%Ho.
  - done.
  - done.
  - by intros t p ->%Ho.
  - by intros t p ->%Ho.
  - by intros t p ->%Ho.
  - by intros [Hw _]%elem_of_replicate.
Qed.

Lemma run_inv s es s' : Inv s → run s es = Some s' → Inv s'.
Proof.
  revert s. induction es as [|e es IH]; intros s I H; cbn [run] in H; [by injection H as <-|].
  destruct (step s e) as [s1|] eqn:E; [|done]. by apply (IH s1); [eapply step_inv|].
Qed.
