(* ===== verification/RwLockSpec.v ===== *)
(** * The contract of the readers/writer lock

    Mutual exclusion, freedom from data races, and progress, for any number of
    threads and any schedule; with schedules that show each of them at work. *)

From S2P Require Import Prelude MyBit RwLock RwLockInv.

#[local] Open Scope Z_scope.

(** The system can get into the state [s]. *)
Definition reachable (n : nat) (s : system) : Prop := ∃ es, run (start n) es = Some s.

Lemma rw_reachable_inv n s : Z.of_nat n < 2 ^ 32 → reachable n s → Inv s.
Proof. intros Hn [es H]. eapply run_inv; [by apply start_inv|done]. Qed.

(** A thread has the lock [h] from the return of [rw_pr_rdlock] or [rw_pr_wrlock] to its call
    of [rw_pr_unlock]. *)
Definition has_lock (s : system) (t : tid) (h : held) : Prop :=
  threads s !! t = Some (Has h) ∨ threads s !! t = Some (In_unlock h Un_if).

(** C10. In every state that threads can get into, a thread with the write lock
    is the only one that has the lock in any mode. *)
Theorem rwlock_excludes n s t u h :
  Z.of_nat n < 2 ^ 32 → reachable n s → has_lock s t Wr → has_lock s u h → u = t.
Proof.
  intros Hn Hr Ht Hu. pose proof (rw_reachable_inv n s Hn Hr) as I.
  assert (∃ p, threads s !! t = Some p ∧ writes p = true) as (p & Hp & Hw) by (destruct Ht; eauto).
  assert (∃ q, threads s !! u = Some q ∧ (if h is Rd then reads q else writes q) = true) as (q & Hq & Hh)
    by (destruct h, Hu; eauto).
  assert (Ho : lock (rw s) = Some t) by (by apply (inv_owner _ I t p Hp), writes_owns).
  destruct h.
  - pose proof (reader_no_writer s u q I Hq Hh) as E.
    rewrite (writer_is_owner s t p I Hp (writes_owns p Hw)) in E. congruence.
  - apply writes_owns, (inv_owner _ I u q Hq) in Hh. congruence.
Qed.

(** ** Data races *)

Inductive field := Readers | Waiting | Writer.

#[export] Instance field_eq_dec : EqDecision field.
Proof. solve_decision. Defined.

(** The fields that the next statement of a thread reads, and those that it writes. *)
Definition reads_field (p : pc) : list field :=
  match p with
  | In_rdlock Rd_count | In_wrlock (Wr_if | Wr_while) | In_unlock _ Un_count => [Readers]
  | In_wrlock (Wr_count | Wr_uncount) | In_unlock _ Un_if_waiting => [Waiting]
  | In_unlock _ Un_if => [Writer]
  | In_unlock _ Un_if_last => [Readers; Waiting]
  | _ => []
  end.

Definition writes_field (p : pc) : list field :=
  match p with
  | In_rdlock Rd_count | In_unlock _ Un_count => [Readers]
  | In_wrlock (Wr_count | Wr_uncount) => [Waiting]
  | In_wrlock Wr_active | In_unlock _ Un_active => [Writer]
  | _ => []
  end.

(** A statement that accesses a field does so with the mutex, except for the
    test in [rw_pr_unlock] by a reader. *)
Lemma access_owns p f : possible p = true → f ∈ reads_field p ++ writes_field p → owns p = true ∨ p = In_unlock Rd Un_if ∧ f = Writer.
Proof.
  intros Hp Hf. destruct p as [|[]|[]|[]|[] []]; cbn in *; try (by left); try (by apply not_elem_of_nil in Hf); try done.
  right. by apply list_elem_of_singleton in Hf.
Qed.

(** C22. Although [rw_pr_unlock] reads [active_writer] without the mutex, no statement
    writes a field while another thread is about to read or write it. *)
Theorem rwlock_race_free n s t u p q f :
  Z.of_nat n < 2 ^ 32 → reachable n s → threads s !! t = Some p → threads s !! u = Some q → t ≠ u →
  f ∈ writes_field p → f ∉ reads_field q ++ writes_field q.
Proof.
  intros Hn Hr Hp Hq Hne Hf Hg. pose proof (rw_reachable_inv n s Hn Hr) as I.
  assert (Op : owns p = true).
  { destruct (access_owns p f (inv_possible _ I t p Hp)) as [|[-> _]]; [apply elem_of_app; by right|done|].
    by apply not_elem_of_nil in Hf. }
  apply (inv_owner _ I t p Hp) in Op as Ht.
  destruct (access_owns q f (inv_possible _ I u q Hq) Hg) as [Oq%(inv_owner _ I u q Hq)|[-> ->]]; [congruence|].
  pose proof (reads_counted s u _ I Hq eq_refl) as H0.
  assert (saw_none p = true) as H1%(inv_none _ I t p Hp); [|lia].
  pose proof (inv_possible _ I t p Hp). destruct p as [|[]|[]|[]|[] []]; cbn in *; try done; by apply not_elem_of_nil in Hf || (apply list_elem_of_singleton in Hf; done).
Qed.

(** ** Progress *)

(** The owner of the mutex can go on, unless it returned from [rw_pr_wrlock]. *)
Lemma owner_runs s t p :
  Inv s → threads s !! t = Some p → owns p = true → p ≠ Has Wr → ∃ u s', step s (Run t u) = Some s'.
Proof.
  intros I Hp Ho Hne. apply (inv_owner _ I t p Hp) in Ho as Hl. cbn [step]. rewrite Hp. cbn [mbind option_bind].
  assert (∃ l' p', statement t (rw s) p = Some (l', p')) as (l' & p' & ->).
  { assert (∃ l', mutex_unlock t (rw s) = Some l') as [l' E] by (unfold mutex_unlock; rewrite decide_True by done; eauto).
    pose proof (inv_possible _ I t p Hp). destruct p as [|[]|[]|[]|[] []]; try done; cbn; rewrite ?E; eauto. }
  cbn [mbind option_bind]. destruct (signals p); [|exists None; eauto].
  destruct (decide (waiting ∈ <[t := p']> (threads s))) as [Hw|Hw].
  - apply list_elem_of_lookup_1 in Hw as [u Hu]. exists (Some u). cbn. unfold end_wait. rewrite decide_True by done. eauto.
  - exists None. cbn. rewrite decide_False by done. eauto.
Qed.

(** Without an owner, so can every thread but those that wait. *)
Lemma free_runs s t p :
  Inv s → lock (rw s) = None → threads s !! t = Some p → p ≠ Outside → p ≠ waiting → (∀ h, p ≠ Has h) →
  ∃ s', step s (Run t None) = Some s'.
Proof.
  intros I Hl Hp Hout Hw Hh. assert (Ho : owns p = false).
  { destruct (owns p) eqn:E; [|done]. apply (inv_owner _ I t p Hp) in E. congruence. }
  assert (∃ l', mutex_lock t (rw s) = Some l') as [l' E] by (unfold mutex_lock; rewrite Hl; eauto).
  cbn [step]. rewrite Hp. cbn [mbind option_bind].
  destruct p as [|h|[]|[]|[] []]; try done; try (by destruct (Hh h)); cbn; rewrite ?E; cbn; eauto.
Qed.

(** C20. When no thread has the lock and some thread is in a function, some thread in
    a function can go on without the end of a wait that nobody signalled:
    no wakeup is lost and there is no deadlock. *)
Theorem rwlock_progress n s t p :
  Z.of_nat n < 2 ^ 32 → reachable n s → (∀ u h, ¬ has_lock s u h) → threads s !! t = Some p → p ≠ Outside →
  ∃ u woken s', step s (Run u woken) = Some s'.
Proof.
  intros Hn Hr Hno Hp Hout. pose proof (rw_reachable_inv n s Hn Hr) as I.
  assert (Hhas : ∀ u q h, threads s !! u = Some q → q ≠ Has h) by (intros u q h Hq ->; apply (Hno u h); by left).
  destruct (lock (rw s)) as [o|] eqn:Hl.
  - destruct (lookup_lt_is_Some_2 _ _ (inv_owned _ I o Hl)) as [q Hq].
    destruct (owner_runs s o q I Hq) as (u & s' & E); [by apply (inv_owner _ I o q Hq)|by apply (Hhas o)|eauto].
  - assert (Hrun : ∀ u q, threads s !! u = Some q → q ≠ Outside → q ≠ waiting → ∃ u woken s', step s (Run u woken) = Some s').
    { intros u q Hq Ho Hw. destruct (free_runs s u q) as [s' E]; eauto. }
    destruct (decide (p = waiting)) as [->|Hw]; [|by apply (Hrun t p)].
    destruct (decide (active_readers (rw s) = 0)) as [H0|H0].
    + destruct (inv_signal _ I) as (v & q & Hv & Hq); [by eapply list_elem_of_lookup_2|done|].
      apply (Hrun v q Hv); by intros ->.
    + rewrite (inv_readers _ I) in H0. apply count_exists in H0 as (v & q & Hv & Hq). apply (Hrun v q Hv); by intros ->.
Qed.

(** ** Schedules *)

Definition runs (t : tid) (k : nat) : list event := replicate k (Run t None).

(** Thread 0 reads, threads 1 and 2 want to write and wait. *)
Definition two_wait : list event :=
  Rdlock 0 :: runs 0 3 ++ Wrlock 1 :: runs 1 5 ++ Wrlock 2 :: runs 2 5.

(** Thread 0 unlocks and wakes thread 1. *)
Definition reader_leaves : list event := two_wait ++ Unlock 0 :: runs 0 4 ++ [Run 0 (Some 1%nat)].

(** The mutex is released and thread 1 gets the write lock. *)
Definition writer_enters : list event := reader_leaves ++ runs 0 1 ++ runs 1 4.

Definition after (n : nat) (es : list event) : system := default (start n) (run (start n) es).

Lemma after_reachable n es : is_Some (run (start n) es) → reachable n (after n es).
Proof. intros [s E]. exists es. unfold after. by rewrite E. Qed.

Ltac reached := apply after_reachable; vm_compute; by eexists.

Example two_wait_state :
  after 3 two_wait = mk_system (mk_lock None 1 2 false) [Has Rd; waiting; waiting].
Proof. by vm_compute. Qed.

(** A reader does not wait for the writers that wait. *)
Example reader_overtakes :
  after 4 (two_wait ++ Rdlock 3 :: runs 3 3) = mk_system (mk_lock None 2 2 false) [Has Rd; waiting; waiting; Has Rd].
Proof. by vm_compute. Qed.

Lemma rwlock_excludes_witness :
  has_lock (after 3 writer_enters) 1 Wr ∧ ∀ u h, has_lock (after 3 writer_enters) u h → u = 1%nat.
Proof.
  assert (H : has_lock (after 3 writer_enters) 1 Wr) by (left; by vm_compute).
  split; [exact H|]. intros u h. apply (rwlock_excludes 3 (after 3 writer_enters) 1 u h); [done|reached|exact H].
Defined.

(** Thread 0 tests [active_writer] while thread 3 counts itself as a reader. *)
Lemma rwlock_race_free_witness :
  Readers ∉ reads_field (In_unlock Rd Un_if) ++ writes_field (In_unlock Rd Un_if).
Proof.
  apply (rwlock_race_free 4 (after 4 (two_wait ++ Rdlock 3 :: runs 3 1 ++ [Unlock 0])) 3 0 (In_rdlock Rd_count));
    [done|reached|by vm_compute|by vm_compute|done|left].
Defined.

Lemma rwlock_progress_witness : ∃ u woken s', step (after 3 reader_leaves) (Run u woken) = Some s'.
Proof.
  apply (rwlock_progress 3 (after 3 reader_leaves) 2 waiting); [done|reached| |by vm_compute|done].
  intros [|[|[|u]]] h [H|H]; vm_compute in H; congruence.
Defined.
