(* ===== verification/IntStr.v ===== *)
(** * Printing and reading integers (strings/int2str.c, strings/longlong2str.c, strings/my_strtoll10.c)

    Characters are bytes as numbers.  A function that prints into [dst] is the list of
    the characters it writes there, with the NUL at the end; the pointer it returns
    points to that NUL.  A function that reads a string gets the bytes in memory from [nptr] on,
    and pointers are indices.  [None] is undefined behaviour: a read or a
    write outside of an array, or a loop that does not end. *)

From S2P Require Import Prelude MyBit.

#[local] Open Scope Z_scope.

(** An element of an array. *)
Definition at_ (a : list Z) (i : Z) : option Z := if i <? 0 then None else a !! Z.to_nat i.

(** "0123456789ABCDEFGHIJKLMNOPQRSTUVWXYZ", and in lower case *)
Definition _dig_vec_upper : list Z := seqZ 48 10 ++ seqZ 65 26 ++ [0].
Definition _dig_vec_lower : list Z := seqZ 48 10 ++ seqZ 97 26 ++ [0].

(** ** Printing *)

(** [*--p = c] in [char buffer[65]], whose end [p] is. *)
Definition push (c : Z) (p : list Z) : option (list Z) :=
  if (length p <? 65)%nat then Some (c :: p) else None.

Section printing.
(** The width of [long]: 64 bits, or 32 where [ll2str] is not [int2str]. *)
Context (long_bits : Z).

Definition ulong (x : Z) : Z := x mod 2 ^ long_bits.
Definition slong (x : Z) : Z := (x + 2 ^ (long_bits - 1)) mod 2 ^ long_bits - 2 ^ (long_bits - 1).
Definition LONG_MAX : Z := 2 ^ (long_bits - 1) - 1.

(** [while (val != 0)] of [int2str] and [ll2str]; [ldiv] divides in the same way. *)
Fixpoint digit_loop (fuel : nat) (dig_vec : list Z) (radix val : Z) (p : list Z) : option (list Z) :=
  match fuel with
  | O => None
  | S fuel =>
    if val =? 0 then Some p else
    let new_val := Z.quot val radix in
    c ← at_ dig_vec (u8 (val - new_val * radix));
    p ← push c p;
    digit_loop fuel dig_vec radix new_val p
  end.

(** The sign, and what remains to be printed. *)
Definition take_sign (val uval neg : Z) (signed : bool) : list Z * Z :=
  if signed && (val <? 0) then ([45], neg) else ([], uval).

(** [Some None]: the radix is bad and nothing is written. *)
Definition int2str (val radix : Z) (upcase : bool) : option (option (list Z)) :=
  let dig_vec := if upcase then _dig_vec_upper else _dig_vec_lower in
  let uval := ulong val in
  if (radix <? 0) && ((radix <? -36) || (-2 <? radix)) || negb (radix <? 0) && ((36 <? radix) || (radix <? 2))
  then Some None
  else
    let '(sign, uval) := take_sign val uval (ulong (0 - uval)) (radix <? 0) in
    let radix := if radix <? 0 then - radix else radix in
    let new_val := slong (uval / radix) in
    c ← at_ dig_vec (u8 (ulong (uval - ulong (ulong new_val * radix))));
    p ← push c [0];
    p ← digit_loop 65 dig_vec radix new_val p;
    Some (Some (sign ++ p)).

(** [while (val != 0)] of [int10_to_str]. *)
Fixpoint digit10_loop (fuel : nat) (val : Z) (p : list Z) : option (list Z) :=
  match fuel with
  | O => None
  | S fuel =>
    if val =? 0 then Some p else
    let new_val := Z.quot val 10 in
    p ← push (u8 (48 + s8 (val - new_val * 10))) p;
    digit10_loop fuel new_val p
  end.

Definition int10_to_str (val radix : Z) : option (list Z) :=
  let uval := ulong val in
  let '(sign, uval) := take_sign val uval (ulong (0 - uval)) (radix <? 0) in
  let new_val := slong (uval / 10) in
  p ← push (u8 (48 + s8 (ulong (uval - ulong (ulong new_val * 10))))) [0];
  p ← digit10_loop 65 new_val p;
  Some (sign ++ p).

(** [while (uval > (ulonglong) LONG_MAX)] *)
Fixpoint ll_loop (fuel : nat) (dig_vec : list Z) (radix uval : Z) (p : list Z) : option (Z * list Z) :=
  match fuel with
  | O => None
  | S fuel =>
    if uval <=? LONG_MAX then Some (uval, p) else
    let quo := uval / radix in
    c ← at_ dig_vec (u32 (uval - quo * radix));
    p ← push c p;
    ll_loop fuel dig_vec radix quo p
  end.

Definition ll_digits (dig_vec : list Z) (radix uval : Z) : option (list Z) :=
  if uval =? 0 then Some [48; 0] else
  '(uval, p) ← ll_loop 65 dig_vec radix uval [0];
  digit_loop 65 dig_vec radix (slong uval) p.

Definition ll2str (val radix : Z) (upcase : bool) : option (option (list Z)) :=
  let dig_vec := if upcase then _dig_vec_upper else _dig_vec_lower in
  let uval := u64 val in
  if (radix <? 0) && ((radix <? -36) || (-2 <? radix)) || negb (radix <? 0) && ((36 <? radix) || (radix <? 2))
  then Some None
  else
    let '(sign, uval) := take_sign val uval (u64 (0 - uval)) (radix <? 0) in
    p ← ll_digits dig_vec (if radix <? 0 then - radix else radix) uval;
    Some (Some (sign ++ p)).

Definition longlong10_to_str (val radix : Z) : option (list Z) :=
  let uval := u64 val in
  let '(sign, uval) := take_sign val uval (u64 (0 - uval)) (radix <? 0) in
  p ← ll_digits _dig_vec_upper 10 uval;
  Some (sign ++ p).
End printing.

(** ** Reading *)

Definition MY_ERRNO_EDOM : Z := 33.
Definition MY_ERRNO_ERANGE : Z := 34.
Definition _MY_SPC : Z := 8.

Definition ctype_latin1 : list Z :=
  [0;
   32; 32; 32; 32; 32; 32; 32; 32; 32; 40; 40; 40; 40; 40; 32; 32;
   32; 32; 32; 32; 32; 32; 32; 32; 32; 32; 32; 32; 32; 32; 32; 32;
   72; 16; 16; 16; 16; 16; 16; 16; 16; 16; 16; 16; 16; 16; 16; 16;
   132; 132; 132; 132; 132; 132; 132; 132; 132; 132; 16; 16; 16; 16; 16; 16;
   16; 129; 129; 129; 129; 129; 129; 1; 1; 1; 1; 1; 1; 1; 1; 1;
   1; 1; 1; 1; 1; 1; 1; 1; 1; 1; 1; 16; 16; 16; 16; 16;
   16; 130; 130; 130; 130; 130; 130; 2; 2; 2; 2; 2; 2; 2; 2; 2;
   2; 2; 2; 2; 2; 2; 2; 2; 2; 2; 2; 16; 16; 16; 16; 32;
   16; 0; 16; 2; 16; 16; 16; 16; 16; 16; 1; 16; 1; 0; 1; 0;
   0; 16; 16; 16; 16; 16; 16; 16; 16; 16; 2; 16; 2; 0; 2; 1;
   72; 16; 16; 16; 16; 16; 16; 16; 16; 16; 16; 16; 16; 16; 16; 16;
   16; 16; 16; 16; 16; 16; 16; 16; 16; 16; 16; 16; 16; 16; 16; 16;
   1; 1; 1; 1; 1; 1; 1; 1; 1; 1; 1; 1; 1; 1; 1; 1;
   1; 1; 1; 1; 1; 1; 1; 16; 1; 1; 1; 1; 1; 1; 1; 2;
   2; 2; 2; 2; 2; 2; 2; 2; 2; 2; 2; 2; 2; 2; 2; 2;
   2; 2; 2; 2; 2; 2; 2; 16; 2; 2; 2; 2; 2; 2; 2; 2].

Definition my_isspace (c : Z) : bool := negb (Z.land (nth (S (Z.to_nat (u8 c))) ctype_latin1 0) _MY_SPC =? 0).

Definition INIT_CNT : Z := 9.
Definition MAX_NEGATIVE_NUMBER : Z := 0x8000000000000000.
Definition ULONGLONG_MAX : Z := 2 ^ 64 - 1.
Definition LFACTOR : Z := 1000000000.
Definition LFACTOR1 : Z := 10000000000.
Definition LFACTOR2 : Z := 100000000000.
Definition lfactor : list Z := [1; 10; 100; 1000; 10000; 100000; 1000000; 10000000; 100000000].

(** The value returned, [*error] and [*endptr]. *)
Definition conversion : Type := Z * Z * Z.

(** [for ( ; s < end && my_isspace(..) ; ) s++] *)
Fixpoint skip_spaces (fuel : nat) (str : list Z) (s end_ : Z) : option Z :=
  match fuel with
  | O => None
  | S fuel =>
    if s <? end_ then
      c ← at_ str s;
      if my_isspace c then skip_spaces fuel str (s + 1) end_ else Some s
    else Some s
  end.

(** Up to the first character that is no space; [Some None]: the string ends before it. *)
Fixpoint skip_spaces0 (fuel : nat) (str : list Z) (s : Z) : option (option Z) :=
  match fuel with
  | O => None
  | S fuel =>
    c ← at_ str s;
    if c =? 0 then Some None
    else if my_isspace c then skip_spaces0 fuel str (s + 1) else Some (Some s)
  end.

(** [do { if (++s == end) goto end_i; } while ( *s == '0')]; [None] inside is the jump. *)
Fixpoint skip_zeros (fuel : nat) (str : list Z) (s end_ : Z) : option (option Z) :=
  match fuel with
  | O => None
  | S fuel =>
    if s + 1 =? end_ then Some None else
    c ← at_ str (s + 1);
    if c =? 48 then skip_zeros fuel str (s + 1) end_ else Some (Some (s + 1))
  end.

(** The digit [c= ( *s-'0')], if it is one. *)
Definition digit_at (str : list Z) (s : Z) : option (option Z) :=
  c ← at_ str s; let c := u8 (c - 48) in Some (if 9 <? c then None else Some c).

(** [do { .. } while (++s != n_end)]: whether a character that is no digit stopped it,
    [s] and the number read. *)
Fixpoint read_digits (fuel : nat) (str : list Z) (s n_end i : Z) : option (bool * Z * Z) :=
  match fuel with
  | O => None
  | S fuel =>
    c ← digit_at str s;
    match c with
    | None => Some (true, s, i)
    | Some c =>
      let i := u64 (i * 10 + c) in
      if s + 1 =? n_end then Some (false, s + 1, i) else read_digits fuel str (s + 1) n_end i
    end
  end.

Definition overflow (negative : bool) (endptr : Z) : conversion :=
  (if negative then - 2 ^ 63 else s64 ULONGLONG_MAX, MY_ERRNO_ERANGE, endptr).

Definition no_conv : conversion := (0, MY_ERRNO_EDOM, 0).

(** [negative ? -((longlong) li) : (longlong) li], without overflow *)
Definition signed_result (negative : bool) (error li s : Z) : option conversion :=
  if negative then v ← i64 (- s64 li); Some (v, error, s) else Some (s64 li, error, s).

(** The digits after the first 18: from [k=c] on *)
Definition read_last (str : list Z) (end_ : Z) (negative : bool) (error cutoff cutoff2 cutoff3 i j k s : Z) : option conversion :=
  c ← (if s + 1 =? end_ then Some None else digit_at str (s + 1));
  match c with
  | None =>
    let li := u64 (i * LFACTOR1 + j * 10 + k) in
    if negative && (MAX_NEGATIVE_NUMBER <? li) then Some (overflow negative (s + 1))
    else if negative && (li =? MAX_NEGATIVE_NUMBER) then Some (- 2 ^ 63, error, s + 1)
    else signed_result negative error li (s + 1)
  | Some c =>
    let k := u64 (k * 10 + c) in
    let s := s + 2 in
    c ← (if s =? end_ then Some None else digit_at str s);
    if (if c is Some _ then true else false)
       || (cutoff <? i) || (i =? cutoff) && ((cutoff2 <? j) || (j =? cutoff2) && (cutoff3 <? k))
    then Some (overflow negative s)
    else Some (s64 (u64 (i * LFACTOR2 + j * 100 + k)), error, s)
  end.

(** The second nine digits: from [j= 0] on *)
Definition read_second (str : list Z) (end_ : Z) (negative : bool) (error cutoff cutoff2 cutoff3 i s : Z) : option conversion :=
  let start := s in
  let true_end := s + INIT_CNT in
  let n_end := if end_ <? true_end then end_ else true_end in
  '(stopped, s, j) ← read_digits 9 str s n_end 0;
  let end_i_and_j :=
    f ← at_ lfactor (s - start);
    signed_result negative error (u64 (i * f + j)) s in
  let end3 := signed_result negative error (u64 (i * LFACTOR + j)) s in
  if (stopped : bool) then end_i_and_j
  else if s =? end_ then if s =? true_end then end3 else end_i_and_j
  else
    c ← digit_at str s;
    match c with
    | None => end3
    | Some k => read_last str end_ negative error cutoff cutoff2 cutoff3 i j k s
    end.

(** The first nine digits, behind the first one: [for (; s != n_end ; s++)] and on *)
Definition read_first (str : list Z) (end_ : Z) (negative : bool) (error cutoff cutoff2 cutoff3 i s n_end : Z) : option conversion :=
  let n_end := if end_ <? n_end then end_ else n_end in
  '(stopped, s, i) ← (if s =? n_end then Some (false, s, i) else read_digits 9 str s n_end i);
  if (stopped : bool) || (s =? end_) then signed_result negative error i s
  else read_second str end_ negative error cutoff cutoff2 cutoff3 i s.

(** From the check for a sign on *)
Definition read_number (str : list Z) (s end_ : Z) : option conversion :=
  c ← at_ str s;
  let negative := c =? 45 in
  let error := if negative then -1 else 0 in
  let s := if (c =? 45) || (c =? 43) then s + 1 else s in
  if ((c =? 45) || (c =? 43)) && (s =? end_) then Some no_conv else
  let limit := if negative then MAX_NEGATIVE_NUMBER else ULONGLONG_MAX in
  let cutoff := limit / LFACTOR2 in
  let cutoff2 := limit mod LFACTOR2 / 100 in
  let cutoff3 := limit mod 100 in
  c ← at_ str s;
  if c =? 48 then
    z ← skip_zeros (length str) str s end_;
    match z with
    | None => signed_result negative error 0 end_
    | Some s => read_first str end_ negative error cutoff cutoff2 cutoff3 0 s (s + INIT_CNT)
    end
  else
    c ← digit_at str s;
    match c with
    | None => Some no_conv
    | Some c => read_first str end_ negative error cutoff cutoff2 cutoff3 c (s + 1) (s + 1 + INIT_CNT - 1)
    end.

(** [endptr]: where the string ends, or no pointer for a string that ends with NUL. *)
Definition my_strtoll10 (str : list Z) (endptr : option Z) : option conversion :=
  match endptr with
  | Some end_ =>
    s ← skip_spaces (S (length str)) str 0 end_;
    if s =? end_ then Some no_conv else read_number str s end_
  | None =>
    s ← skip_spaces0 (length str) str 0;
    match s with
    | None => Some no_conv
    | Some s => read_number str s (s + 65535)
    end
  end.
