(* ===== verification/IntStrPrint.v ===== *)
(** * What the printing functions print

    Numerals in a base, and that the loops of int2str.c and longlong2str.c
    print the numeral of a number without leaving their buffer. *)

From S2P Require Import Prelude MyBit IntStr.

#[local] Open Scope Z_scope.

(** ** Numerals *)

(** The number that digits stand for, the first one the most significant. *)
Definition num_in (b : Z) (ds : list Z) : Z := foldl (λ n d, n * b + d) 0 ds.

(** The digits of [n] without leading zeroes; none for 0. *)
Record digits_of (b n : Z) (ds : list Z) : Prop := {
  dg_range : Forall (λ d, 0 ≤ d < b) ds;
  dg_value : num_in b ds = n;
  dg_first : head ds ≠ Some 0;
}.

(** The numeral of [n], with one digit for 0. *)
Definition numeral (b n : Z) (ds : list Z) : Prop := if n =? 0 then ds = [0] else digits_of b n ds.

Lemma num_in_snoc b ds d : num_in b (ds ++ [d]) = num_in b ds * b + d.
Proof. unfold num_in. by rewrite foldl_app. Qed.

Lemma num_in_app b l k : num_in b (l ++ k) = num_in b l * b ^ Z.of_nat (length k) + num_in b k.
Proof.
  induction k as [|d k IH] using rev_ind; [rewrite app_nil_r; cbn; lia|].
  rewrite app_assoc, !num_in_snoc, IH, length_app. cbn [length].
  replace (Z.of_nat (length k + 1)) with (Z.of_nat (length k) + 1) by lia. rewrite Z.pow_add_r, Z.pow_1_r by lia. ring.
Qed.

Lemma num_in_cons b d l : num_in b (d :: l) = d * b ^ Z.of_nat (length l) + num_in b l.
Proof. apply (num_in_app b [d] l). Qed.

Lemma num_in_bound b ds : 0 < b → Forall (λ d, 0 ≤ d < b) ds → 0 ≤ num_in b ds < b ^ Z.of_nat (length ds).
Proof.
  intros Hb. induction ds as [|d ds IH] using rev_ind; [cbn; lia|]. intros [H Hd%Forall_inv]%Forall_app.
  specialize (IH H). cbn beta in Hd. rewrite num_in_snoc, length_app. cbn [length].
  replace (Z.of_nat (length ds + 1)) with (Z.of_nat (length ds) + 1) by lia. rewrite Z.pow_add_r, Z.pow_1_r by lia. set (B := b ^ Z.of_nat (length ds)) in *. split; [nia|].
  assert (num_in b ds * b ≤ (B - 1) * b) by (apply Z.mul_le_mono_nonneg_r; lia). lia.
Qed.

(** One more digit. *)
Lemma digits_snoc b n ds : 0 < b → 0 < n → digits_of b (n / b) ds → digits_of b n (ds ++ [n mod b]).
Proof.
  intros Hb Hn [Hr Hv Hf]. pose proof (Z.mod_pos_bound n b Hb). split.
  - apply Forall_app. by rewrite Forall_singleton.
  - rewrite num_in_snoc, Hv. pose proof (Z.div_mod n b). lia.
  - destruct ds as [|d ds]; [|done]. cbn in *. intros [= E]. pose proof (Z.div_mod n b). lia.
Qed.

Lemma digits_nil b : digits_of b 0 [].
Proof. by split. Qed.

(** ** The loops *)

(** [f] gives the characters of digits below [b]. *)
Definition digit_chars (b : Z) (dig_vec : list Z) (f : Z → Z) : Prop :=
  ∀ d, 0 ≤ d < b → at_ dig_vec d = Some (f d).

Lemma push_ok c p : (length p < 65)%nat → push c p = Some (c :: p).
Proof. intros H. unfold push. by rewrite (proj2 (Nat.ltb_lt _ _)). Qed.

(** The last digit of a number that is not negative. *)
Lemma quot_digit b v : 0 < b → 0 ≤ v → Z.quot v b = v / b ∧ v - v / b * b = v mod b.
Proof. intros Hb Hv. split; [by apply Z.quot_div_nonneg|]. pose proof (Z.div_mod v b). lia. Qed.

Lemma digit_loop_spec b dig_vec f k fuel v p :
  2 ≤ b ≤ 36 → digit_chars b dig_vec f → 0 ≤ v < 2 ^ Z.of_nat k → (length p + k ≤ 65)%nat → (k < fuel)%nat →
  ∃ ds, digit_loop fuel dig_vec b v p = Some ((f <$> ds) ++ p) ∧ digits_of b v ds.
Proof.
  intros Hb Hf. revert k v p. induction fuel as [|fuel IH]; intros k v p Hv Hp Hk; [lia|]. cbn [digit_loop].
  destruct (Z.eqb_spec v 0) as [->|Hv0]; [exists []; split; [done|apply digits_nil]|].
  destruct k as [|k]; [cbn in Hv; lia|]. rewrite Nat2Z.inj_succ, Z.pow_succ_r in Hv by lia.
  destruct (quot_digit b v) as [-> ->]; [lia..|]. pose proof (Z.mod_pos_bound v b ltac:(lia)) as Hm.
  replace (u8 (v mod b)) with (v mod b) by (unfold u8; rewrite (Z.mod_small (v mod b)); lia).
  rewrite Hf by done. cbn [mbind option_bind]. rewrite push_ok by lia. cbn [mbind option_bind].
  assert (Hq : 0 ≤ v / b < 2 ^ Z.of_nat k).
  { split; [apply Z.div_pos; lia|]. apply Z.div_lt_upper_bound; [lia|]. pose proof (Z.pow_pos_nonneg 2 (Z.of_nat k)). nia. }
  destruct (IH k (v / b) (f (v mod b) :: p)) as (ds & E & Hd); [done|cbn; lia|lia|].
  exists (ds ++ [v mod b]). split; [rewrite E, fmap_app, <- app_assoc; done|]. apply digits_snoc; [lia|lia|done].
Qed.

(** The characters of the digits. *)
Lemma upper_digits b : b ≤ 36 → digit_chars b _dig_vec_upper (λ d, if d <? 10 then 48 + d else 55 + d).
Proof.
  intros Hb d Hd. assert (Hall : forallb (λ d, bool_decide (at_ _dig_vec_upper d = Some (if d <? 10 then 48 + d else 55 + d))) (seqZ 0 36) = true)
    by (by vm_compute).
  rewrite forallb_forall in Hall. eapply bool_decide_eq_true_1, Hall, list_elem_of_In, elem_of_seqZ. lia.
Qed.

Lemma lower_digits b : b ≤ 36 → digit_chars b _dig_vec_lower (λ d, if d <? 10 then 48 + d else 87 + d).
Proof.
  intros Hb d Hd. assert (Hall : forallb (λ d, bool_decide (at_ _dig_vec_lower d = Some (if d <? 10 then 48 + d else 87 + d))) (seqZ 0 36) = true)
    by (by vm_compute).
  rewrite forallb_forall in Hall. eapply bool_decide_eq_true_1, Hall, list_elem_of_In, elem_of_seqZ. lia.
Qed.

Definition digit_char (upcase : bool) (d : Z) : Z := if d <? 10 then 48 + d else if upcase then 55 + d else 87 + d.

Lemma dig_vec_chars (upcase : bool) b :
  b ≤ 36 → digit_chars b (if upcase then _dig_vec_upper else _dig_vec_lower) (digit_char upcase).
Proof. destruct upcase; [apply upper_digits|apply lower_digits]. Qed.

Lemma decimal_char d : 0 ≤ d < 10 → at_ _dig_vec_upper d = Some (48 + d).
Proof. intros H. rewrite (upper_digits 10) by lia. by rewrite (proj2 (Z.ltb_lt d 10)) by lia. Qed.

Lemma decimal_byte d : 0 ≤ d < 10 → u8 (48 + s8 d) = 48 + d.
Proof. intros H. unfold u8, s8. rewrite (Z.mod_small (d + _)) by lia. rewrite Z.mod_small; lia. Qed.

(** The loop for base 10 is an instance of the other one. *)
Lemma digit10_loop_eq fuel v p : 0 ≤ v → digit10_loop fuel v p = digit_loop fuel _dig_vec_upper 10 v p.
Proof.
  revert v p. induction fuel as [|fuel IH]; intros v p Hv; [done|]. cbn [digit10_loop digit_loop].
  destruct (v =? 0); [done|]. destruct (quot_digit 10 v) as [-> ->]; [lia..|].
  pose proof (Z.mod_pos_bound v 10 ltac:(lia)) as Hm.
  replace (u8 (v mod 10)) with (v mod 10) by (unfold u8; rewrite (Z.mod_small (v mod 10)); lia).
  rewrite decimal_byte by done.
  rewrite decimal_char by done. cbn [mbind option_bind]. destruct (push _ p) as [p'|]; [|done]. apply IH. apply Z.div_pos; lia.
Qed.

(** ** The functions *)

(** The text of a number: its sign if it is negative, the numeral, NUL. *)
Definition text (upcase : bool) (b v : Z) (s : list Z) : Prop :=
  ∃ ds, numeral b (Z.abs v) ds ∧ s = (if v <? 0 then [45] else []) ++ (digit_char upcase <$> ds) ++ [0].

Section printing.
Context (long_bits : Z) (Hbits : 1 ≤ long_bits ≤ 64).

(** The first digit, and the others in a loop. *)
Lemma first_digit_spec b u : 2 ≤ b → 0 ≤ u < 2 ^ long_bits →
  slong long_bits (u / b) = u / b ∧ ulong long_bits (u - ulong long_bits (ulong long_bits (u / b) * b)) = u mod b
  ∧ 0 ≤ u / b < 2 ^ (long_bits - 1).
Proof.
  intros Hb Hu. replace (2 ^ long_bits) with (2 * 2 ^ (long_bits - 1)) in Hu
    by (rewrite <- Z.pow_succ_r by lia; f_equal; lia).
  assert (Hq : 0 ≤ u / b < 2 ^ (long_bits - 1)).
  { split; [apply Z.div_pos; lia|]. apply Z.div_lt_upper_bound; nia. }
  assert (E : 2 ^ long_bits = 2 * 2 ^ (long_bits - 1)) by (rewrite <- Z.pow_succ_r by lia; f_equal; lia).
  unfold slong, ulong. rewrite E. pose proof (Z.mod_pos_bound u b ltac:(lia)). pose proof (Z.div_mod u b ltac:(lia)).
  rewrite !(Z.mod_small (u / b)) by lia. rewrite (Z.mod_small (u / b * b)) by lia. rewrite !(Z.mod_small (u - _)) by lia.
  split_and!; [rewrite Z.mod_small; lia|lia|lia|lia].
Qed.

Lemma int_body_spec upcase b u :
  2 ≤ b ≤ 36 → 0 ≤ u < 2 ^ long_bits →
  let dig_vec := if (upcase : bool) then _dig_vec_upper else _dig_vec_lower in
  ∃ ds, numeral b u ds ∧
    (c ← at_ dig_vec (u8 (ulong long_bits (u - ulong long_bits (ulong long_bits (slong long_bits (u / b)) * b))));
     p ← push c [0]; digit_loop 65 dig_vec b (slong long_bits (u / b)) p) = Some ((digit_char upcase <$> ds) ++ [0]).
Proof.
  intros Hb Hu dig_vec. destruct (first_digit_spec b u) as (Eq & Ed & Hq); [lia|done|]. rewrite Eq, Ed.
  pose proof (Z.mod_pos_bound u b ltac:(lia)) as Hm. replace (u8 (u mod b)) with (u mod b) by (unfold u8; rewrite (Z.mod_small (u mod b)); lia).
  rewrite (dig_vec_chars upcase b) by lia. cbn [mbind option_bind]. rewrite push_ok by (cbn; lia). cbn [mbind option_bind].
  assert (Hk : 2 ^ (long_bits - 1) ≤ 2 ^ Z.of_nat 63) by (apply Z.pow_le_mono_r; lia).
  destruct (digit_loop_spec b dig_vec (digit_char upcase) 63 65 (u / b) [digit_char upcase (u mod b); 0]) as (ds & -> & Hd);
    [done|apply dig_vec_chars; lia|lia|cbn; lia|lia|].
  exists (ds ++ [u mod b]). split; [|by rewrite fmap_app, <- app_assoc]. unfold numeral.
  destruct (Z.eqb_spec u 0) as [->|H0]; [|apply digits_snoc; [lia|lia|done]].
  rewrite Z.mod_0_l by lia. destruct ds as [|d ds]; [done|]. destruct Hd as [Hr Hv Hf]. exfalso.
  apply list.Forall_cons in Hr as [Hr0 Hr]. rewrite num_in_cons in Hv. rewrite Z.div_0_l in Hv by lia.
  pose proof (num_in_bound b ds ltac:(lia) Hr). pose proof (Z.pow_pos_nonneg b (Z.of_nat (length ds)) ltac:(lia) ltac:(lia)).
  cbn in Hf. assert (d ≠ 0) by congruence. nia.
Qed.

(** A loop over the digits that stops at [LONG_MAX], and one over the rest. *)
Lemma ll_loop_spec b dig_vec f k fuel v p :
  2 ≤ b ≤ 36 → digit_chars b dig_vec f → 0 ≤ v < 2 ^ Z.of_nat k → (length p + k ≤ 65)%nat → (k < fuel)%nat →
  ∃ w q ds, ll_loop long_bits fuel dig_vec b v p = Some (w, (f <$> ds) ++ p) ∧ 0 ≤ w ≤ LONG_MAX long_bits
    ∧ w < 2 ^ Z.of_nat q ∧ (q + length ds ≤ k)%nat ∧ (∀ ds', digits_of b w ds' → digits_of b v (ds' ++ ds)).
Proof.
  intros Hb Hf. revert k v p. induction fuel as [|fuel IH]; intros k v p Hv Hp Hk; [lia|]. cbn [ll_loop].
  destruct (Z.leb_spec v (LONG_MAX long_bits)) as [Hle|Hgt].
  { exists v, k, []. split_and!; try done; try lia; [cbn; lia|]. intros ds'. by rewrite app_nil_r. }
  assert (0 < 2 ^ (long_bits - 1)) by (apply Z.pow_pos_nonneg; lia). unfold LONG_MAX in Hgt.
  destruct k as [|k]; [cbn in Hv; lia|]. rewrite Nat2Z.inj_succ, Z.pow_succ_r in Hv by lia.
  destruct (quot_digit b v) as [_ ->]; [lia..|]. pose proof (Z.mod_pos_bound v b ltac:(lia)) as Hm.
  replace (u32 (v mod b)) with (v mod b) by (unfold u32; rewrite (Z.mod_small (v mod b)); lia).
  rewrite Hf by done. cbn [mbind option_bind]. rewrite push_ok by lia. cbn [mbind option_bind].
  assert (Hq : 0 ≤ v / b < 2 ^ Z.of_nat k).
  { split; [apply Z.div_pos; lia|]. apply Z.div_lt_upper_bound; [lia|]. pose proof (Z.pow_pos_nonneg 2 (Z.of_nat k)). nia. }
  destruct (IH k (v / b) (f (v mod b) :: p)) as (w & q & ds & E & Hw & Hwq & Hl & Hd); [done|cbn; lia|lia|].
  exists w, q, (ds ++ [v mod b]). split; [rewrite E, fmap_app, <- app_assoc; done|]. split_and!; try lia.
  - rewrite length_app. cbn [length]. lia.
  - intros ds' Hds. rewrite app_assoc. apply digits_snoc; [lia|lia|by apply Hd].
Qed.

Lemma ll_digits_spec upcase b u :
  2 ≤ b ≤ 36 → 0 ≤ u < 2 ^ 64 →
  ∃ ds, numeral b u ds
    ∧ ll_digits long_bits (if (upcase : bool) then _dig_vec_upper else _dig_vec_lower) b u = Some ((digit_char upcase <$> ds) ++ [0]).
Proof.
  intros Hb Hu. unfold ll_digits, numeral. destruct (Z.eqb_spec u 0) as [->|H0]; [by exists [0]|].
  destruct (ll_loop_spec b _ (digit_char upcase) 64 65 u [0] Hb (dig_vec_chars upcase b ltac:(lia))) as (w & q & ds & -> & Hw & Hwq & Hl & Hd);
    [lia|cbn; lia|lia|]. cbn [mbind option_bind].
  assert (slong long_bits w = w) as ->.
  { unfold slong, LONG_MAX in *. assert (E : 2 ^ long_bits = 2 * 2 ^ (long_bits - 1)) by (rewrite <- Z.pow_succ_r by lia; f_equal; lia).
    rewrite E, Z.mod_small; lia. }
  destruct (digit_loop_spec b _ (digit_char upcase) q 65 w ((digit_char upcase <$> ds) ++ [0]) Hb (dig_vec_chars upcase b ltac:(lia)))
    as (ds' & -> & Hd'); [lia|rewrite length_app, length_fmap; cbn [length]; lia|lia|].
  exists (ds' ++ ds). split; [by apply Hd|]. by rewrite fmap_app, <- app_assoc.
Qed.

(** The sign and the absolute value. *)
Lemma take_sign_spec w val (signed : bool) :
  1 ≤ w → - 2 ^ (w - 1) ≤ val < 2 ^ (w - 1) →
  let v := if signed then val else val mod 2 ^ w in
  take_sign val (val mod 2 ^ w) ((0 - val mod 2 ^ w) mod 2 ^ w) signed = (if v <? 0 then [45] else [], Z.abs v)
  ∧ 0 ≤ Z.abs v < 2 ^ w.
Proof.
  intros Hw Hv v. assert (E : 2 ^ w = 2 * 2 ^ (w - 1)) by (rewrite <- Z.pow_succ_r by lia; f_equal; lia).
  pose proof (Z.mod_pos_bound val (2 ^ w) ltac:(lia)) as Hm. unfold take_sign, v. destruct signed; cbn [andb].
  - destruct (Z.ltb_spec val 0); (split; [f_equal|lia]).
    + rewrite (Zminus_mod_idemp_r 0), Z.mod_small; lia.
    + rewrite Z.mod_small; lia.
  - rewrite (proj2 (Z.ltb_ge _ _)) by lia. split; [f_equal; lia|lia].
Qed.

(** The radix that the functions accept. *)
Definition good_radix (radix : Z) : bool := (2 <=? Z.abs radix) && (Z.abs radix <=? 36).

Lemma radix_test radix :
  (radix <? 0) && ((radix <? -36) || (-2 <? radix)) || negb (radix <? 0) && ((36 <? radix) || (radix <? 2)) = negb (good_radix radix).
Proof.
  unfold good_radix. destruct (Z.ltb_spec radix 0), (Z.ltb_spec radix (-36)), (Z.ltb_spec (-2) radix), (Z.ltb_spec 36 radix), (Z.ltb_spec radix 2),
    (Z.leb_spec 2 (Z.abs radix)), (Z.leb_spec (Z.abs radix) 36); cbn; lia || done.
Qed.

Lemma radix_abs radix : (if radix <? 0 then - radix else radix) = Z.abs radix.
Proof. destruct (Z.ltb_spec radix 0); lia. Qed.

(** A number that is printed is signed if the radix is negative. *)
Definition shown (w radix val : Z) : Z := if radix <? 0 then val else val mod 2 ^ w.

Lemma int2str_spec val radix upcase :
  - 2 ^ (long_bits - 1) ≤ val < 2 ^ (long_bits - 1) →
  if good_radix radix
  then ∃ s, int2str long_bits val radix upcase = Some (Some s) ∧ text upcase (Z.abs radix) (shown long_bits radix val) s
  else int2str long_bits val radix upcase = Some None.
Proof.
  intros Hv. unfold int2str. rewrite radix_test, radix_abs. destruct (good_radix radix) eqn:Er; [|done]. cbn [negb].
  apply andb_true_iff in Er as [?%Z.leb_le ?%Z.leb_le].
  destruct (take_sign_spec long_bits val (radix <? 0) ltac:(lia) Hv) as [E Hr]. unfold ulong at 1 2 3. rewrite E.
  destruct (int_body_spec upcase (Z.abs radix) (Z.abs (shown long_bits radix val))) as (ds & Hn & Ed); [lia|done|].
  eexists. split; [|exists ds; split; [exact Hn|reflexivity]].
  unfold shown in *. destruct (at_ _ _) as [c|]; [|done]. cbn [mbind option_bind] in *.
  destruct (push c [0]); [|done]. cbn [mbind option_bind] in *. rewrite Ed. done.
Qed.

Lemma int10_to_str_spec val radix :
  - 2 ^ (long_bits - 1) ≤ val < 2 ^ (long_bits - 1) →
  ∃ s, int10_to_str long_bits val radix = Some s ∧ text true 10 (shown long_bits radix val) s.
Proof.
  intros Hv. unfold int10_to_str. destruct (take_sign_spec long_bits val (radix <? 0) ltac:(lia) Hv) as [E Hr].
  unfold ulong at 1 2 3. rewrite E. set (u := Z.abs _) in *.
  destruct (int_body_spec true 10 u) as (ds & Hn & Ed); [lia|done|]. eexists. split; [|exists ds; split; [exact Hn|reflexivity]].
  destruct (first_digit_spec 10 u ltac:(lia) Hr) as (Eq & Em & Hq). rewrite Eq in *. rewrite Em in Ed.
  pose proof (Z.mod_pos_bound u 10 ltac:(lia)) as Hm. rewrite Em, decimal_byte by lia.
  replace (u8 (u mod 10)) with (u mod 10) in Ed by (unfold u8; rewrite (Z.mod_small (u mod 10)); lia).
  rewrite decimal_char in Ed by done. cbn [mbind option_bind] in Ed. destruct (push _ [0]); [|done]. cbn [mbind option_bind] in *.
  by rewrite digit10_loop_eq, Ed by lia.
Qed.

Lemma ll2str_spec val radix upcase :
  - 2 ^ 63 ≤ val < 2 ^ 63 →
  if good_radix radix
  then ∃ s, ll2str long_bits val radix upcase = Some (Some s) ∧ text upcase (Z.abs radix) (shown 64 radix val) s
  else ll2str long_bits val radix upcase = Some None.
Proof.
  intros Hv. unfold ll2str. rewrite radix_test, radix_abs. destruct (good_radix radix) eqn:Er; [|done]. cbn [negb].
  apply andb_true_iff in Er as [?%Z.leb_le ?%Z.leb_le].
  destruct (take_sign_spec 64 val (radix <? 0) ltac:(lia) Hv) as [E Hr]. unfold u64. rewrite E.
  destruct (ll_digits_spec upcase (Z.abs radix) (Z.abs (shown 64 radix val))) as (ds & Hn & Ed); [lia|done|].
  unfold shown in *. rewrite Ed. eexists. split; [done|by exists ds].
Qed.

Lemma longlong10_to_str_spec val radix :
  - 2 ^ 63 ≤ val < 2 ^ 63 →
  ∃ s, longlong10_to_str long_bits val radix = Some s ∧ text true 10 (shown 64 radix val) s.
Proof.
  intros Hv. unfold longlong10_to_str. destruct (take_sign_spec 64 val (radix <? 0) ltac:(lia) Hv) as [E Hr]. unfold u64. rewrite E.
  destruct (ll_digits_spec true 10 (Z.abs (shown 64 radix val))) as (ds & Hn & Ed); [lia|done|].
  unfold shown in *. rewrite Ed. eexists. split; [done|by exists ds].
Qed.
End printing.
