(* ===== verification/IntStrRead.v ===== *)
(** * What [my_strtoll10] reads

    A reference that takes all digits of the string and compares their value with
    the limit; [my_strtoll10], which reads them nine at a time, agrees with it. *)

From S2P Require Import Prelude MyBit IntStr IntStrPrint.

#[local] Open Scope Z_scope.

(** ** The reference *)

Fixpoint take_while (f : Z → bool) (l : list Z) : list Z :=
  match l with x :: l => if f x then x :: take_while f l else [] | [] => [] end.

Definition is_digit (c : Z) : bool := (48 <=? c) && (c <=? 57).

Definition limit (negative : bool) : Z := if negative then 2 ^ 63 else 2 ^ 64 - 1.

(** The result for the digits [D] behind leading zeroes, at [p]: [longlong] stands for
    both signed and unsigned numbers, and the end is behind the last digit. *)
Definition convert (negative : bool) (D : list Z) (p : Z) : conversion :=
  let v := num_in 10 D in
  let stop := p + Z.of_nat (length D) in
  if v <=? limit negative then (if negative then - v else s64 v, if negative then -1 else 0, stop)
  else overflow negative stop.

Definition sign_of (l : list Z) : bool * nat :=
  match l with c :: _ => (c =? 45, if (c =? 45) || (c =? 43) then 1%nat else 0%nat) | [] => (false, 0%nat) end.

(** The digits behind spaces and a sign, and those that are not leading zeroes. *)
Definition all_digits (l : list Z) : list Z :=
  let spaces := length (take_while my_isspace l) in
  take_while is_digit (drop (spaces + (sign_of (drop spaces l)).2) l).
Definition significant (l : list Z) : list Z := drop (length (take_while (Z.eqb 48) (all_digits l))) (all_digits l).

(** Spaces, a sign, zeroes and other digits, up to the first character that is no digit. *)
Definition parse10 (l : list Z) : conversion :=
  let spaces := length (take_while my_isspace l) in
  let '(negative, sign) := sign_of (drop spaces l) in
  if bool_decide (all_digits l = []) then no_conv
  else
    let zeroes := length (take_while (Z.eqb 48) (all_digits l)) in
    convert negative ((λ c, c - 48) <$> significant l) (Z.of_nat (spaces + sign + zeroes)).

(** Of a number with more than 20 significant digits the code reads no more than 20. *)
Definition stop_early (l : list Z) (r : conversion) : conversion :=
  let '(v, error, stop) := r in (v, error, stop - Z.of_nat (length (significant l) - 20)).

(** The same with the end behind the first 20 of the digits [D], if there are more of them. *)
Definition convert20 (negative : bool) (D : list Z) (p : Z) : conversion :=
  let v := num_in 10 D in
  if v <=? limit negative
  then (if negative then - v else s64 v, if negative then -1 else 0, p + Z.of_nat (length D))
  else overflow negative (p + Z.of_nat (Nat.min 20 (length D))).

Definition read10 (l : list Z) : conversion :=
  let spaces := length (take_while my_isspace l) in
  let '(negative, sign) := sign_of (drop spaces l) in
  let digits := take_while is_digit (drop (spaces + sign) l) in
  if bool_decide (digits = []) then no_conv
  else
    let zeroes := length (take_while (Z.eqb 48) digits) in
    convert20 negative ((λ c, c - 48) <$> drop zeroes digits) (Z.of_nat (spaces + sign + zeroes)).

(** ** Digits in memory *)

(** From [p] on there are the digits [D], and then the string ends or goes on with something else. *)
Record digits_at (str : list Z) (p end_ : Z) (D : list Z) : Prop := {
  da_digit i d : D !! i = Some d → 0 ≤ d ≤ 9 ∧ at_ str (p + Z.of_nat i) = Some (48 + d);
  da_stop : p + Z.of_nat (length D) = end_
    ∨ p + Z.of_nat (length D) < end_ ∧ ∃ c, at_ str (p + Z.of_nat (length D)) = Some c ∧ 9 < u8 (c - 48);
}.

Lemma digit_at_digit str p end_ D i d :
  digits_at str p end_ D → D !! i = Some d → digit_at str (p + Z.of_nat i) = Some (Some d).
Proof.
  intros [H _] Hi. apply H in Hi as [Hd E]. unfold digit_at. rewrite E. cbn [mbind option_bind].
  replace (48 + d - 48) with d by lia. unfold u8. rewrite Z.mod_small by lia. by rewrite (proj2 (Z.ltb_ge _ _)) by lia.
Qed.

Lemma digit_at_stop str p end_ D :
  digits_at str p end_ D → p + Z.of_nat (length D) < end_ → digit_at str (p + Z.of_nat (length D)) = Some None.
Proof.
  intros [_ [H|(_ & c & E & Hc)]] Hlt; [lia|]. unfold digit_at. rewrite E. cbn [mbind option_bind].
  by rewrite (proj2 (Z.ltb_lt _ _)) by lia.
Qed.

Lemma digits_range str p end_ D : digits_at str p end_ D → Forall (λ d, 0 ≤ d < 10) D.
Proof. intros [H _]. apply list.Forall_lookup. intros i d Hi. apply H in Hi. lia. Qed.

(** The digits at an index are in front of the end. *)
Lemma digits_end str p end_ D : digits_at str p end_ D → p + Z.of_nat (length D) ≤ end_.
Proof. intros [_ [->|[? _]]]; lia. Qed.

Lemma read_digits_spec str p end_ D q n fuel i :
  digits_at str p end_ D → (q ≤ length D)%nat → (0 < n ≤ fuel)%nat → p + Z.of_nat (q + n) ≤ end_ →
  0 ≤ i → (i + 1) * 10 ^ Z.of_nat n ≤ 2 ^ 64 →
  let ds := take n (drop q D) in
  read_digits fuel str (p + Z.of_nat q) (p + Z.of_nat (q + n)) i
  = Some (bool_decide (length ds < n)%nat, p + Z.of_nat (q + length ds), i * 10 ^ Z.of_nat (length ds) + num_in 10 ds).
Proof.
  intros H. revert q n i. induction fuel as [|fuel IH]; intros q n i Hq Hn He Hi Hb; [lia|]. cbn [read_digits].
  destruct n as [|n]; [lia|]. rewrite Nat2Z.inj_succ, Z.pow_succ_r in Hb by lia.
  assert (0 < 10 ^ Z.of_nat n) by (apply Z.pow_pos_nonneg; lia).
  destruct (D !! q) as [d|] eqn:Ed.
  - rewrite (digit_at_digit _ _ _ _ _ _ H Ed). cbn [mbind option_bind]. destruct (da_digit _ _ _ _ H q d Ed) as [Hd _].
    pose proof (lookup_lt_Some _ _ _ Ed). rewrite (drop_S D d q Ed). cbn [take length].
    assert (Hu : u64 (i * 10 + d) = i * 10 + d) by (apply u64_small; nia). rewrite Hu, num_in_cons.
    destruct (Z.eqb_spec (p + Z.of_nat q + 1) (p + Z.of_nat (q + S n))) as [E|E].
    + assert (n = 0%nat) as -> by lia. rewrite take_0. cbn [length]. rewrite bool_decide_eq_false_2 by lia.
      f_equal. f_equal; [f_equal; lia|cbn; lia].
    + replace (p + Z.of_nat q + 1) with (p + Z.of_nat (S q)) by lia. replace (q + S n)%nat with (S q + n)%nat by lia.
      rewrite IH by (lia || nia). f_equal. f_equal; [f_equal; [apply bool_decide_ext; lia|lia]|].
      rewrite Nat2Z.inj_succ, Z.pow_succ_r by lia. ring.
  - apply lookup_ge_None in Ed. assert (q = length D) as -> by lia. rewrite drop_all. cbn [take length].
    rewrite (digit_at_stop _ _ _ _ H) by lia. cbn [mbind option_bind]. rewrite bool_decide_eq_true_2 by lia.
    f_equal. f_equal; [f_equal; lia|cbn; lia].
Qed.

(** ** Nine digits at a time *)

Lemma num_lower D d l : D = d :: l → 0 < d → Forall (λ d, 0 ≤ d < 10) D → 10 ^ Z.of_nat (length l) ≤ num_in 10 D.
Proof.
  intros -> Hd [_ H]%list.Forall_cons. rewrite num_in_cons. pose proof (num_in_bound 10 l ltac:(lia) H).
  assert (0 < 10 ^ Z.of_nat (length l)) by (apply Z.pow_pos_nonneg; lia). nia.
Qed.

Lemma s64_neg v : 0 ≤ v < 2 ^ 63 → i64 (- s64 v) = Some (- v).
Proof. intros H. rewrite s64_small by lia. apply i64_ok. lia. Qed.

Section reading.
Context (str : list Z) (p end_ : Z) (D : list Z) (negative : bool).
Context (H : digits_at str p end_ D) (Hhead : head D ≠ Some 0).

#[local] Notation error := (if negative then -1 else 0).
#[local] Notation cutoff := (limit negative / LFACTOR2).
#[local] Notation cutoff2 := (limit negative mod LFACTOR2 / 100).
#[local] Notation cutoff3 := (limit negative mod 100).

(** Up to 18 digits every number fits. *)
Lemma convert_small li s :
  (length D ≤ 18)%nat → li = num_in 10 D → s = p + Z.of_nat (length D) →
  signed_result negative error (u64 li) s = Some (convert20 negative D p).
Proof.
  intros HD -> ->. pose proof (num_in_bound 10 D ltac:(lia) (digits_range _ _ _ _ H)) as Hv.
  assert (10 ^ Z.of_nat (length D) ≤ 10 ^ 18) by (apply Z.pow_le_mono_r; lia).
  unfold signed_result, convert20. rewrite u64_small by lia. rewrite (proj2 (Z.leb_le _ _)) by (unfold limit; destruct negative; lia).
  destruct negative; [|done]. rewrite s64_neg by lia. done.
Qed.

(** The value of the first digits, the next ones and the rest. *)
Lemma num_split q n : num_in 10 (take (q + n) D)
  = num_in 10 (take q D) * 10 ^ Z.of_nat (length (take n (drop q D))) + num_in 10 (take n (drop q D)).
Proof. by rewrite <- take_take_drop, num_in_app. Qed.

Lemma num_next q d : D !! q = Some d → num_in 10 (take (S q) D) = num_in 10 (take q D) * 10 + d.
Proof. intros E. by rewrite (take_S_r _ _ _ E), num_in_snoc. Qed.

Lemma head_lower : (0 < length D)%nat → 10 ^ (Z.of_nat (length D) - 1) ≤ num_in 10 D.
Proof.
  intros HD. pose proof (digits_range _ _ _ _ H) as Hr. destruct D as [|d l] eqn:E; [done|].
  assert (0 < d) by (apply list.Forall_cons in Hr as [? _]; cbn in Hhead; assert (d ≠ 0) by congruence; lia).
  pose proof (num_lower (d :: l) d l eq_refl ltac:(lia) Hr). cbn [length] in *. by replace (Z.of_nat (S (length l)) - 1) with (Z.of_nat (length l)) by lia.
Qed.

Lemma prefix_bound q : (q ≤ length D)%nat → 0 ≤ num_in 10 (take q D) < 10 ^ Z.of_nat q.
Proof.
  intros Hq. pose proof (num_in_bound 10 (take q D) ltac:(lia) (Forall_take _ _ _ (digits_range _ _ _ _ H))) as Hb.
  by rewrite length_take_le in Hb.
Qed.

(** 19 digits fit, unless they are too many for a negative number. *)
Lemma convert_19 : length D = 19%nat →
  let li := u64 (num_in 10 D) in
  (if negative && (MAX_NEGATIVE_NUMBER <? li) then Some (overflow negative (p + 19))
   else if negative && (li =? MAX_NEGATIVE_NUMBER) then Some (- 2 ^ 63, error, p + 19)
   else signed_result negative error li (p + 19)) = Some (convert20 negative D p).
Proof.
  intros HD li. pose proof (num_in_bound 10 D ltac:(lia) (digits_range _ _ _ _ H)) as Hv. rewrite HD in Hv.
  unfold li. rewrite u64_small by lia. unfold convert20, limit, signed_result, MAX_NEGATIVE_NUMBER. rewrite HD.
  destruct negative; cbn [andb].
  - change 0x8000000000000000 with (2 ^ 63). destruct (Z.ltb_spec (2 ^ 63) (num_in 10 D)).
    + rewrite (proj2 (Z.leb_gt _ _)) by lia. done.
    + rewrite (proj2 (Z.leb_le _ _)) by lia. destruct (Z.eqb_spec (num_in 10 D) (2 ^ 63)) as [->|]; [done|].
      rewrite s64_neg by lia. done.
  - rewrite (proj2 (Z.leb_le _ _)) by lia. done.
Qed.

(** With 20 digits the parts are compared with those of the limit. *)
Lemma convert_20 i j k :
  length D = 20%nat → num_in 10 D = i * LFACTOR2 + j * 100 + k → 0 ≤ i → 0 ≤ j < 1000000000 → 0 ≤ k < 100 →
  (if (cutoff <? i) || (i =? cutoff) && ((cutoff2 <? j) || (j =? cutoff2) && (cutoff3 <? k))
   then Some (overflow negative (p + 20))
   else Some (s64 (u64 (i * LFACTOR2 + j * 100 + k)), error, p + 20)) = Some (convert20 negative D p).
Proof.
  intros HD Ev Hi Hj Hk. pose proof (head_lower ltac:(lia)) as Hl. rewrite HD in Hl. cbn in Hl.
  pose proof (num_in_bound 10 D ltac:(lia) (digits_range _ _ _ _ H)) as Hv.
  assert (Hc : (cutoff <? i) || (i =? cutoff) && ((cutoff2 <? j) || (j =? cutoff2) && (cutoff3 <? k)) = negb (num_in 10 D <=? limit negative)).
  { rewrite Ev. unfold LFACTOR2 in *. destruct negative; unfold limit.
    - change (2 ^ 63 / 100000000000) with 92233720. change (2 ^ 63 mod 100000000000 / 100) with 368547758. change (2 ^ 63 mod 100) with 8.
      repeat match goal with |- context [?a <? ?b] => destruct (Z.ltb_spec a b) | |- context [?a =? ?b] => destruct (Z.eqb_spec a b)
        | |- context [?a <=? ?b] => destruct (Z.leb_spec a b) end; cbn; lia.
    - change ((2 ^ 64 - 1) / 100000000000) with 184467440. change ((2 ^ 64 - 1) mod 100000000000 / 100) with 737095516. change ((2 ^ 64 - 1) mod 100) with 15.
      repeat match goal with |- context [?a <? ?b] => destruct (Z.ltb_spec a b) | |- context [?a =? ?b] => destruct (Z.eqb_spec a b)
        | |- context [?a <=? ?b] => destruct (Z.leb_spec a b) end; cbn; lia. }
  rewrite Hc. unfold convert20. rewrite HD. destruct (Z.leb_spec (num_in 10 D) (limit negative)) as [Hle|Hgt]; cbn [negb]; [|done].
  unfold limit in Hle. destruct negative; [lia|]. rewrite <- Ev, u64_small by lia. done.
Qed.

(** More than 20 digits never fit. *)
Lemma convert_more : (21 ≤ length D)%nat → convert20 negative D p = overflow negative (p + 20).
Proof.
  intros HD. pose proof (head_lower ltac:(lia)) as Hl. assert (10 ^ 20 ≤ 10 ^ (Z.of_nat (length D) - 1)) by (apply Z.pow_le_mono_r; lia).
  unfold convert20. rewrite (proj2 (Z.leb_gt _ _)) by (unfold limit; destruct negative; lia). by rewrite Nat.min_l by lia.
Qed.

(** What stands at the index of a digit or behind the last one. *)
Lemma next_digit i : (i ≤ length D)%nat →
  (if p + Z.of_nat i =? end_ then Some None else digit_at str (p + Z.of_nat i)) = Some (D !! i).
Proof.
  intros Hi. pose proof (digits_end _ _ _ _ H) as He. destruct (D !! i) as [d|] eqn:Ed.
  - pose proof (lookup_lt_Some _ _ _ Ed). rewrite (proj2 (Z.eqb_neq _ _)) by lia. by apply (digit_at_digit _ _ _ _ _ _ H).
  - apply lookup_ge_None in Ed. assert (i = length D) as -> by lia. destruct (Z.eqb_spec (p + Z.of_nat (length D)) end_); [done|].
    apply (digit_at_stop _ _ _ _ H). lia.
Qed.

Lemma read_last_spec k :
  D !! 18%nat = Some k →
  read_last str end_ negative error cutoff cutoff2 cutoff3 (num_in 10 (take 9 D)) (num_in 10 (take 9 (drop 9 D))) k (p + 18)
  = Some (convert20 negative D p).
Proof.
  intros Ek. pose proof (lookup_lt_Some _ _ _ Ek) as H18. destruct (da_digit _ _ _ _ H _ _ Ek) as [Hk _].
  pose proof (num_split 9 9) as E18. rewrite length_take_le in E18 by (rewrite length_drop; lia). cbn [Nat.add] in E18. change (Z.of_nat 9) with 9 in E18.
  pose proof (num_next 18 k Ek) as E19. rewrite E18 in E19.
  pose proof (prefix_bound 9 ltac:(lia)) as Bi. set (i := num_in 10 (take 9 D)) in *. set (j := num_in 10 (take 9 (drop 9 D))) in *.
  assert (Bj : 0 ≤ j < 10 ^ 9).
  { pose proof (num_in_bound 10 (take 9 (drop 9 D)) ltac:(lia)) as Hb. rewrite length_take_le in Hb by (rewrite length_drop; lia).
    apply Hb, Forall_take, Forall_drop, (digits_range _ _ _ _ H). }
  unfold read_last. replace (p + 18 + 1) with (p + Z.of_nat 19) by lia. rewrite next_digit by lia. cbn [mbind option_bind].
  destruct (D !! 19%nat) as [c|] eqn:Ec.
  - pose proof (lookup_lt_Some _ _ _ Ec) as H19. destruct (da_digit _ _ _ _ H _ _ Ec) as [Hc _].
    pose proof (num_next 19 c Ec) as E20. rewrite E19 in E20. rewrite (u64_small (k * 10 + c)) by lia.
    replace (p + 18 + 2) with (p + Z.of_nat 20) by lia. rewrite next_digit by lia. cbn [mbind option_bind].
    destruct (D !! 20%nat) as [x|] eqn:Ex.
    + apply lookup_lt_Some in Ex. cbn [orb]. by rewrite convert_more by lia.
    + apply lookup_ge_None in Ex. cbn [orb]. apply convert_20; try lia.
      rewrite take_ge in E20 by lia. rewrite E20. unfold LFACTOR2. lia.
  - apply lookup_ge_None in Ec. rewrite take_ge in E19 by lia.
    replace (i * LFACTOR1 + j * 10 + k) with (num_in 10 D) by (rewrite E19; unfold LFACTOR1; lia). apply convert_19. lia.
Qed.

Lemma read_second_spec :
  (9 ≤ length D)%nat → p + 9 < end_ →
  read_second str end_ negative error cutoff cutoff2 cutoff3 (num_in 10 (take 9 D)) (p + 9) = Some (convert20 negative D p).
Proof.
  intros HD He. unfold read_second. set (n := Nat.min 9 (Z.to_nat (end_ - (p + 9)))).
  assert ((if end_ <? p + 9 + INIT_CNT then end_ else p + 9 + INIT_CNT) = p + Z.of_nat (9 + n)) as ->.
  { unfold INIT_CNT. destruct (Z.ltb_spec end_ (p + 9 + 9)); lia. }
  replace (p + 9) with (p + Z.of_nat 9) at 1 by lia.
  assert (Hpow : 10 ^ Z.of_nat n ≤ 10 ^ 9) by (apply Z.pow_le_mono_r; lia).
  rewrite (read_digits_spec _ _ _ _ 9 n 9 0 H) by lia. cbn [mbind option_bind]. rewrite Z.mul_0_l, Z.add_0_l.
  pose proof (num_split 9 n) as Es. pose proof (digits_end _ _ _ _ H) as Hend.
  set (ds := take n (drop 9 D)) in *. assert (Hds : length ds = Nat.min n (length D - 9)) by (unfold ds; by rewrite length_take, length_drop).
  assert (Hij : (length D < 18)%nat → length D = (9 + length ds)%nat →
    (f ← at_ lfactor (p + Z.of_nat (9 + length ds) - (p + 9));
     signed_result negative error (u64 (num_in 10 (take 9 D) * f + num_in 10 ds)) (p + Z.of_nat (9 + length ds))) = Some (convert20 negative D p)).
  { intros Hlt Hlen. replace (p + Z.of_nat (9 + length ds) - (p + 9)) with (Z.of_nat (length ds)) by lia.
    assert (at_ lfactor (Z.of_nat (length ds)) = Some (10 ^ Z.of_nat (length ds))) as ->.
    { destruct (length ds) as [|[|[|[|[|[|[|[|[|]]]]]]]]]; try done. lia. }
    apply convert_small; [lia| |lia]. rewrite take_ge in Es by lia. by rewrite Es. }
  assert (Hend3 : length D = 18%nat → n = 9%nat →
    signed_result negative error (u64 (num_in 10 (take 9 D) * LFACTOR + num_in 10 ds)) (p + Z.of_nat (9 + length ds)) = Some (convert20 negative D p)).
  { intros Hlen Hn. apply convert_small; [lia| |lia]. rewrite take_ge in Es by lia. rewrite Es. by replace (length ds) with 9%nat by lia. }
  destruct (bool_decide_reflect (length ds < n)%nat) as [Hst|Hst].
  - apply Hij; lia.
  - destruct (Z.eqb_spec (p + Z.of_nat (9 + length ds)) end_) as [E|E].
    + destruct (Z.eqb_spec (p + Z.of_nat (9 + length ds)) (p + 9 + INIT_CNT)); unfold INIT_CNT in *; [apply Hend3; lia|apply Hij; lia].
    + assert (Hn : n = 9%nat) by lia. pose proof (next_digit 18 ltac:(lia)) as Ek.
      replace (9 + length ds)%nat with 18%nat in * by lia. rewrite (proj2 (Z.eqb_neq _ _)) in Ek by done. rewrite Ek. cbn [mbind option_bind].
      destruct (D !! 18%nat) as [k|] eqn:Ed.
      * unfold ds. rewrite Hn. by apply read_last_spec.
      * apply lookup_ge_None in Ed. apply Hend3; lia.
Qed.

Lemma read_first_spec m :
  (m ≤ 1)%nat → (m ≤ length D)%nat → p + Z.of_nat m < end_ ∨ m = 1%nat →
  read_first str end_ negative error cutoff cutoff2 cutoff3 (num_in 10 (take m D)) (p + Z.of_nat m) (p + 9) = Some (convert20 negative D p).
Proof.
  intros Hm HD He. unfold read_first. pose proof (digits_end _ _ _ _ H) as Hend.
  set (n := Nat.min (9 - m) (Z.to_nat (end_ - (p + Z.of_nat m)))).
  assert ((if end_ <? p + 9 then end_ else p + 9) = p + Z.of_nat (m + n)) as -> by (destruct (Z.ltb_spec end_ (p + 9)); lia).
  assert (Hu : (length D ≤ 18)%nat → u64 (num_in 10 D) = num_in 10 D).
  { intros Hlen. pose proof (num_in_bound 10 D ltac:(lia) (digits_range _ _ _ _ H)) as Hv.
    assert (10 ^ Z.of_nat (length D) ≤ 10 ^ 18) by (apply Z.pow_le_mono_r; lia). apply u64_small. lia. }
  destruct (Z.eqb_spec (p + Z.of_nat m) (p + Z.of_nat (m + n))) as [E|E]; cbn [mbind option_bind].
  - assert (m = 1%nat ∧ length D = 1%nat) as [-> Hlen] by lia. rewrite (proj2 (Z.eqb_eq _ _)) by lia. cbn [orb].
    rewrite take_ge, <- Hu by lia. apply convert_small; lia.
  - pose proof (prefix_bound m HD) as Hb. assert (10 ^ Z.of_nat m ≤ 10 ^ 1) by (apply Z.pow_le_mono_r; lia).
    assert (Hpow : 10 ^ Z.of_nat n ≤ 10 ^ 9) by (apply Z.pow_le_mono_r; lia).
    rewrite (read_digits_spec _ _ _ _ m n 9 _ H) by (lia || nia). cbn [mbind option_bind].
    pose proof (num_split m n) as Es. rewrite <- Es.
    set (ds := take n (drop m D)) in *. assert (Hds : length ds = Nat.min n (length D - m)) by (unfold ds; by rewrite length_take, length_drop).
    destruct (bool_decide_reflect (length ds < n)%nat) as [Hst|Hst]; cbn [orb].
    + rewrite take_ge, <- Hu by lia. apply convert_small; lia.
    + destruct (Z.eqb_spec (p + Z.of_nat (m + length ds)) end_) as [E'|E'].
      * rewrite take_ge, <- Hu by lia. apply convert_small; lia.
      * replace (m + n)%nat with 9%nat by lia. replace (p + Z.of_nat (m + length ds)) with (p + 9) by lia.
        apply read_second_spec; lia.
Qed.
End reading.

(** ** The whole string *)

Lemma take_while_prefix f l : take (length (take_while f l)) l = take_while f l.
Proof. induction l as [|x l IH]; [done|]. cbn. destruct (f x); [|done]. cbn. by rewrite IH. Qed.

Lemma take_while_all f l x : x ∈ take_while f l → f x = true.
Proof.
  induction l as [|y l IH]; cbn; [by intros ?%not_elem_of_nil|]. destruct (f y) eqn:E; [|by intros ?%not_elem_of_nil].
  intros [->|Hx]%elem_of_cons; auto.
Qed.

Lemma take_while_next f l x : l !! length (take_while f l) = Some x → f x = false.
Proof. induction l as [|y l IH]; cbn; [done|]. destruct (f y) eqn:E; cbn; [done|]. congruence. Qed.

Lemma take_while_le f l : (length (take_while f l) ≤ length l)%nat.
Proof. induction l as [|y l IH]; cbn; [lia|]. destruct (f y); cbn; lia. Qed.

Lemma take_while_sub f g l : (∀ x, f x = true → g x = true) → take_while f (take_while g l) = take_while f l.
Proof.
  intros Hfg. induction l as [|x l IH]; [done|]. cbn. destruct (g x) eqn:Eg; cbn; [by rewrite IH|].
  destruct (f x) eqn:Ef; [|done]. apply Hfg in Ef. congruence.
Qed.

Lemma no_digit_byte c : 0 ≤ c < 256 → is_digit c = false → 9 < u8 (c - 48).
Proof.
  unfold is_digit, u8. intros Hc. destruct (Z.leb_spec 48 c), (Z.leb_spec c 57); cbn; try done; intros _.
  - rewrite Z.mod_small; lia.
  - rewrite <- (Z.mod_unique (c - 48) (2 ^ 8) (-1) (c + 208)); lia.
  - lia.
Qed.

Section strings.
(** The string [l] in memory, up to [end_] or up to a NUL in front of it. *)
Context (l post : list Z) (end_ : Z).
Context (Hbytes : Forall (λ c, 0 ≤ c < 256) l).
Context (Hend : end_ = Z.of_nat (length l) ∨ Z.of_nat (length l) < end_ ∧ ∃ post', post = 0 :: post').

Lemma at_string i c : l !! i = Some c → at_ (l ++ post) (Z.of_nat i) = Some c.
Proof.
  intros E. unfold at_. rewrite (proj2 (Z.ltb_ge _ _)), Nat2Z.id by lia. rewrite lookup_app_l; [done|by eapply lookup_lt_Some].
Qed.

Lemma at_end : Z.of_nat (length l) ≠ end_ → at_ (l ++ post) (Z.of_nat (length l)) = Some 0.
Proof.
  intros Hne. destruct Hend as [->|(_ & post' & ->)]; [done|]. unfold at_. rewrite (proj2 (Z.ltb_ge _ _)), Nat2Z.id by lia.
  by rewrite list_lookup_middle.
Qed.

Lemma string_end : Z.of_nat (length l) ≤ end_.
Proof. destruct Hend as [->|[? _]]; lia. Qed.

(** The digits from an index on, behind their leading zeroes. *)
Definition string_digits (q : nat) : list Z := take_while is_digit (drop q l).
Definition string_zeroes (q : nat) : nat := length (take_while (Z.eqb 48) (string_digits q)).
Definition string_number (q : nat) : list Z := (λ c, c - 48) <$> drop (string_zeroes q) (string_digits q).

Lemma string_digit q i c : string_digits q !! i = Some c → l !! (q + i)%nat = Some c ∧ 48 ≤ c ≤ 57.
Proof.
  intros E. assert (Hc : is_digit c = true) by (by eapply take_while_all, list_elem_of_lookup_2).
  apply andb_true_iff in Hc as [?%Z.leb_le ?%Z.leb_le]. split; [|lia]. unfold string_digits in E.
  rewrite <- take_while_prefix in E. apply lookup_take_Some in E as [E _]. by rewrite lookup_drop in E.
Qed.

Lemma digits_le q : (length (string_digits q) ≤ length l - q)%nat.
Proof. unfold string_digits. rewrite <- length_drop. apply take_while_le. Qed.

Lemma zeroes_le q : (string_zeroes q ≤ length (string_digits q))%nat.
Proof. apply take_while_le. Qed.

Lemma length_string_number q : length (string_number q) = (length (string_digits q) - string_zeroes q)%nat.
Proof. unfold string_number. by rewrite length_fmap, length_drop. Qed.

Lemma string_digits_at q : (q ≤ length l)%nat →
  digits_at (l ++ post) (Z.of_nat (q + string_zeroes q)) end_ (string_number q).
Proof.
  intros Hq. pose proof (digits_le q). pose proof (zeroes_le q). split.
  - intros i d Hd. unfold string_number in Hd. rewrite list_lookup_fmap, lookup_drop in Hd.
    destruct (string_digits q !! _) as [c|] eqn:E; [|done]. injection Hd as <-. apply string_digit in E as [E Hc].
    split; [lia|]. rewrite <- Nat2Z.inj_add. replace (48 + (c - 48)) with c by lia.
    apply at_string. by rewrite <- Nat.add_assoc.
  - rewrite length_string_number, <- Nat2Z.inj_add. replace (q + string_zeroes q + _)%nat with (q + length (string_digits q))%nat by lia.
    destruct (l !! (q + length (string_digits q))%nat) as [c|] eqn:E.
    + right. apply lookup_lt_Some in E as Hlt. pose proof string_end. split; [lia|]. exists c. split; [by apply at_string|].
      apply (no_digit_byte c); [by eapply (Forall_lookup_1 _ _ _ _ Hbytes)|]. rewrite <- lookup_drop in E. by apply take_while_next in E.
    + apply lookup_ge_None in E. assert (q + length (string_digits q) = length l)%nat as -> by lia.
      destruct (decide (Z.of_nat (length l) = end_)) as [Heq|Hne]; [by left|right]. pose proof string_end. split; [lia|].
      exists 0. split; [by apply at_end|done].
Qed.

Lemma string_number_head q : head (string_number q) ≠ Some 0.
Proof.
  unfold string_number. rewrite head_lookup, list_lookup_fmap, lookup_drop, Nat.add_0_r. intros E.
  destruct (string_digits q !! _) as [c|] eqn:Ec; [|done]. apply take_while_next in Ec. cbn in E.
  apply Z.eqb_neq in Ec. injection E. lia.
Qed.

Lemma skip_spaces_spec fuel q :
  end_ = Z.of_nat (length l) → (q ≤ length l)%nat → (length l - q < fuel)%nat →
  skip_spaces fuel (l ++ post) (Z.of_nat q) end_ = Some (Z.of_nat (q + length (take_while my_isspace (drop q l)))).
Proof.
  intros He. revert q. induction fuel as [|fuel IH]; intros q Hq Hf; [lia|]. cbn [skip_spaces].
  destruct (l !! q) as [c|] eqn:E.
  - apply lookup_lt_Some in E as Hlt. rewrite (proj2 (Z.ltb_lt _ _)) by lia. rewrite (at_string q c E). cbn [mbind option_bind].
    rewrite (drop_S _ _ _ E). cbn [take_while]. destruct (my_isspace c); cbn [length].
    + replace (Z.of_nat q + 1) with (Z.of_nat (S q)) by lia. rewrite IH by lia. f_equal. lia.
    + f_equal. lia.
  - apply lookup_ge_None in E. rewrite (proj2 (Z.ltb_ge _ _)), drop_ge by lia. cbn. f_equal. lia.
Qed.

Lemma skip_zeros_spec fuel q :
  (q < length l)%nat → (length l - q ≤ fuel)%nat →
  let z := (S q + length (take_while (Z.eqb 48) (drop (S q) l)))%nat in
  skip_zeros fuel (l ++ post) (Z.of_nat q) end_ = Some (if Z.of_nat z =? end_ then None else Some (Z.of_nat z)).
Proof.
  revert q. induction fuel as [|fuel IH]; intros q Hq Hf; [lia|]. cbn [skip_zeros].
  replace (Z.of_nat q + 1) with (Z.of_nat (S q)) by lia. pose proof string_end as He.
  destruct (l !! S q) as [c|] eqn:E.
  - apply lookup_lt_Some in E as Hlt. rewrite (proj2 (Z.eqb_neq _ _)) by lia. rewrite (at_string (S q) c E). cbn [mbind option_bind].
    rewrite (drop_S _ _ _ E). cbn [take_while]. rewrite (Z.eqb_sym 48 c). destruct (c =? 48); cbn [length].
    + rewrite IH by lia. cbv zeta. by replace (S (S q) + length (take_while (Z.eqb 48) (drop (S (S q)) l)))%nat
        with (S q + S (length (take_while (Z.eqb 48) (drop (S (S q)) l))))%nat by lia.
    + rewrite Nat.add_0_r, (proj2 (Z.eqb_neq _ _)) by lia. done.
  - apply lookup_ge_None in E. rewrite drop_ge by lia. cbn [take_while length]. rewrite Nat.add_0_r.
    destruct (Z.eqb_spec (Z.of_nat (S q)) end_) as [Heq|Hne]; [done|]. replace (S q) with (length l) in * by lia.
    by rewrite at_end.
Qed.

(** The result from the sign on, which is at the index [q]. *)
Definition number_from (q : nat) : conversion :=
  let '(negative, sign) := sign_of (drop q l) in
  if bool_decide (string_digits (q + sign) = []) then no_conv
  else convert20 negative (string_number (q + sign)) (Z.of_nat (q + sign + string_zeroes (q + sign))).

(** The digits behind the sign, which start at [q]. *)
Lemma read_digits_from (negative : bool) q :
  (q ≤ length l)%nat → Z.of_nat q ≠ end_ →
  (c ← at_ (l ++ post) (Z.of_nat q);
   if c =? 48 then
     z ← skip_zeros (length (l ++ post)) (l ++ post) (Z.of_nat q) end_;
     match z with
     | None => signed_result negative (if negative then -1 else 0) 0 end_
     | Some s => read_first (l ++ post) end_ negative (if negative then -1 else 0) (limit negative / LFACTOR2)
         (limit negative mod LFACTOR2 / 100) (limit negative mod 100) 0 s (s + INIT_CNT)
     end
   else
     c ← digit_at (l ++ post) (Z.of_nat q);
     match c with
     | None => Some no_conv
     | Some c => read_first (l ++ post) end_ negative (if negative then -1 else 0) (limit negative / LFACTOR2)
         (limit negative mod LFACTOR2 / 100) (limit negative mod 100) c (Z.of_nat q + 1) (Z.of_nat q + 1 + INIT_CNT - 1)
     end)
  = Some (if bool_decide (string_digits q = []) then no_conv
          else convert20 negative (string_number q) (Z.of_nat (q + string_zeroes q))).
Proof.
  intros Hq Hne. pose proof (string_digits_at q Hq) as Hda. pose proof (string_number_head q) as Hh. pose proof string_end as He.
  destruct (l !! q) as [c|] eqn:Ec.
  - apply lookup_lt_Some in Ec as Hlt. rewrite (at_string q c Ec). cbn [mbind option_bind].
    assert (Hc : 0 ≤ c < 256) by (by apply (Forall_lookup_1 _ _ _ _ Hbytes Ec)).
    assert (Ed : drop q l = c :: drop (S q) l) by (by apply drop_S).
    destruct (Z.eqb_spec c 48) as [->|Hc0].
    + rewrite skip_zeros_spec by (rewrite ?length_app; lia). cbv zeta. cbn [mbind option_bind].
      assert (Hz : (S q + length (take_while (Z.eqb 48) (drop (S q) l)))%nat = (q + string_zeroes q)%nat).
      { unfold string_zeroes, string_digits. rewrite take_while_sub, Ed; [cbn; lia|]. by intros x <-%Z.eqb_eq. }
      rewrite Hz. rewrite bool_decide_eq_false_2 by (unfold string_digits; rewrite Ed; done).
      destruct (Z.eqb_spec (Z.of_nat (q + string_zeroes q)) end_) as [Heq|Hne'].
      * pose proof (digits_end _ _ _ _ Hda). assert (string_number q = []) as E0 by (apply length_zero_iff_nil; lia).
        rewrite <- (convert_small _ _ _ _ negative Hda 0 end_); [done|rewrite E0; cbn; lia|by rewrite E0|rewrite E0; cbn [length]; lia].
      * pose proof (digits_end _ _ _ _ Hda).
        rewrite <- (read_first_spec _ _ _ _ negative Hda Hh 0) by lia. rewrite take_0. unfold INIT_CNT. f_equal; done || lia.
    + destruct (is_digit c) eqn:Hd.
      * assert (Hz0 : string_zeroes q = 0%nat).
        { unfold string_zeroes, string_digits. rewrite take_while_sub, Ed by (by intros x <-%Z.eqb_eq). cbn [take_while].
          by rewrite (proj2 (Z.eqb_neq 48 c)) by lia. }
        assert (En : string_number q !! 0%nat = Some (c - 48)).
        { unfold string_number. rewrite Hz0. unfold string_digits. rewrite Ed. cbn. by rewrite Hd. }
        pose proof (digit_at_digit _ _ _ _ _ _ Hda En) as Ed0. rewrite Hz0, Nat.add_0_r in *.
        replace (Z.of_nat q + Z.of_nat 0) with (Z.of_nat q) in Ed0 by lia. rewrite Ed0. cbn [mbind option_bind].
        rewrite bool_decide_eq_false_2 by (unfold string_digits; rewrite Ed; cbn; by rewrite Hd).
        rewrite <- (read_first_spec _ _ _ _ negative Hda Hh 1) by (try (apply lookup_lt_Some in En); lia).
        rewrite (take_S_r _ _ _ En). cbn [take app]. unfold INIT_CNT. f_equal; done || lia.
      * rewrite bool_decide_eq_true_2 by (unfold string_digits; rewrite Ed; cbn; by rewrite Hd).
        unfold digit_at. rewrite (at_string q c Ec). cbn [mbind option_bind].
        by rewrite (proj2 (Z.ltb_lt _ _)) by (by apply no_digit_byte).
  - apply lookup_ge_None in Ec. assert (q = length l) as -> by lia. unfold digit_at. rewrite !at_end by done. cbn [mbind option_bind].
    rewrite bool_decide_eq_true_2; [done|]. unfold string_digits. by rewrite drop_all.
Qed.

Lemma read_number_spec q : (q < length l)%nat → read_number (l ++ post) (Z.of_nat q) end_ = Some (number_from q).
Proof.
  intros Hq. pose proof string_end as He. destruct (lookup_lt_is_Some_2 l q Hq) as [c Ec].
  unfold read_number, number_from. rewrite (at_string q c Ec), (drop_S _ _ _ Ec). cbn [mbind option_bind sign_of].
  set (k := if (c =? 45) || (c =? 43) then 1%nat else 0%nat).
  assert (Es : (if (c =? 45) || (c =? 43) then Z.of_nat q + 1 else Z.of_nat q) = Z.of_nat (q + k)) by (unfold k; destruct (_ || _); lia).
  rewrite Es. destruct (Z.eqb_spec (Z.of_nat (q + k)) end_) as [Heq|Hne].
  - assert ((c =? 45) || (c =? 43) = true) as -> by (destruct ((c =? 45) || (c =? 43)) eqn:E; [done|unfold k in Heq; rewrite ?E in Heq; lia]).
    cbn [andb]. rewrite bool_decide_eq_true_2; [done|]. unfold string_digits. rewrite drop_ge by lia. done.
  - rewrite andb_false_r. assert (Hk : (q + k ≤ length l)%nat) by (unfold k; destruct (_ || _); lia).
    rewrite <- (read_digits_from (c =? 45) (q + k) Hk Hne). unfold limit. by destruct (c =? 45).
Qed.
End strings.

Lemma skip_spaces0_spec l post fuel q :
  (∀ c, c ∈ l → c ≠ 0) → (q ≤ length l)%nat → (length l - q < fuel)%nat →
  let s := (q + length (take_while my_isspace (drop q l)))%nat in
  skip_spaces0 fuel (l ++ 0 :: post) (Z.of_nat q) = Some (if (s =? length l)%nat then None else Some (Z.of_nat s)).
Proof.
  intros H0. revert q. induction fuel as [|fuel IH]; intros q Hq Hf; [lia|]. cbn [skip_spaces0].
  destruct (l !! q) as [c|] eqn:E.
  - apply lookup_lt_Some in E as Hlt. rewrite (at_string l _ q c E). cbn [mbind option_bind].
    rewrite (proj2 (Z.eqb_neq c 0)) by (by eapply H0, list_elem_of_lookup_2). rewrite (drop_S _ _ _ E). cbn [take_while].
    destruct (my_isspace c); cbn [length].
    + replace (Z.of_nat q + 1) with (Z.of_nat (S q)) by lia. rewrite IH by lia. cbv zeta.
      by replace (S q + length (take_while my_isspace (drop (S q) l)))%nat with (q + S (length (take_while my_isspace (drop (S q) l))))%nat by lia.
    + rewrite Nat.add_0_r, (proj2 (Nat.eqb_neq _ _)) by lia. done.
  - apply lookup_ge_None in E. assert (q = length l) as -> by lia. rewrite drop_all. cbn [take_while length].
    rewrite Nat.add_0_r, Nat.eqb_refl. unfold at_. rewrite (proj2 (Z.ltb_ge _ _)), Nat2Z.id, list_lookup_middle by (done || lia). done.
Qed.

Lemma read10_spaces l : length (take_while my_isspace l) = length l → read10 l = no_conv.
Proof. intros E. unfold read10. rewrite E, drop_all. cbn. by rewrite drop_ge by lia. Qed.

Lemma read10_number l : read10 l = number_from l (length (take_while my_isspace l)).
Proof. unfold read10, number_from. by destruct (sign_of _). Qed.

Lemma significant_digits l :
  Forall (λ d, 0 ≤ d < 10) ((λ c, c - 48) <$> significant l) ∧ head ((λ c, c - 48) <$> significant l) ≠ Some 0.
Proof.
  unfold significant. set (z := length _). split.
  - apply Forall_fmap, Forall_drop, list.Forall_forall. intros c Hc. apply take_while_all in Hc.
    unfold is_digit in Hc. cbn. lia.
  - rewrite head_lookup, list_lookup_fmap, lookup_drop, Nat.add_0_r. destruct (all_digits l !! z) as [c|] eqn:Ec; [|done].
    apply take_while_next in Ec. cbn. intros [= E]. apply Z.eqb_neq in Ec. lia.
Qed.

Lemma convert20_early negative D p :
  Forall (λ d, 0 ≤ d < 10) D → head D ≠ Some 0 →
  convert20 negative D p = let '(v, error, stop) := convert negative D p in (v, error, stop - Z.of_nat (length D - 20)).
Proof.
  intros HD Hh. unfold convert20, convert. destruct (Z.leb_spec (num_in 10 D) (limit negative)) as [Hle|Hgt].
  - f_equal. assert (length D ≤ 20)%nat; [|lia]. destruct D as [|d D]; [cbn; lia|].
    assert (d ≠ 0) by (cbn in Hh; congruence). pose proof (Forall_inv HD) as Hd. cbn in Hd.
    pose proof (num_lower (d :: D) d D eq_refl ltac:(lia) HD) as Hl. destruct (decide (length D ≤ 19)%nat); [cbn; lia|].
    assert (10 ^ 20 ≤ 10 ^ Z.of_nat (length D)) by (apply Z.pow_le_mono_r; lia). unfold limit in Hle. destruct negative; lia.
  - unfold overflow. f_equal. lia.
Qed.

Lemma read10_early l : read10 l = stop_early l (parse10 l).
Proof.
  destruct (significant_digits l) as [Hr Hh]. unfold read10, parse10, significant, all_digits in *.
  destruct (sign_of _) as [negative sign] eqn:Es. cbn [snd] in *. case_bool_decide as Hd.
  - unfold stop_early, significant, all_digits, no_conv. rewrite Es. cbn [snd]. by rewrite Hd.
  - rewrite convert20_early by done. unfold stop_early, significant, all_digits. rewrite Es. cbn [snd].
    by rewrite length_fmap.
Qed.

Lemma my_strtoll10_spec l post :
  Forall (λ c, 0 ≤ c < 256) l →
  my_strtoll10 (l ++ post) (Some (Z.of_nat (length l))) = Some (stop_early l (parse10 l))
  ∧ ((∀ c, c ∈ l → c ≠ 0) → Z.of_nat (length l) < 65535 → my_strtoll10 (l ++ 0 :: post) None = Some (stop_early l (parse10 l))).
Proof.
  intros Hb. pose proof (take_while_le my_isspace l) as Hle. split.
  - unfold my_strtoll10. change 0 with (Z.of_nat 0).
    rewrite skip_spaces_spec by (auto; rewrite ?length_app; lia). rewrite drop_0. cbn [mbind option_bind Nat.add].
    destruct (Z.eqb_spec (Z.of_nat (length (take_while my_isspace l))) (Z.of_nat (length l))) as [E|E].
    + rewrite <- read10_early, read10_spaces by lia. done.
    + rewrite read_number_spec by (auto; lia). by rewrite <- read10_early, read10_number.
  - intros H0 Hlen. unfold my_strtoll10.
    pose proof (skip_spaces0_spec l post (length (l ++ 0 :: post)) 0 H0 ltac:(lia) ltac:(rewrite length_app; cbn [length]; lia)) as Es.
    rewrite drop_0 in Es. change (Z.of_nat 0) with 0 in Es. cbn [Nat.add] in Es. rewrite Es. cbn [mbind option_bind].
    destruct (Nat.eqb_spec (length (take_while my_isspace l)) (length l)) as [E|E].
    + rewrite <- read10_early, read10_spaces by lia. done.
    + rewrite read_number_spec; [by rewrite <- read10_early, read10_number|done|right; split; [lia|eauto]|lia].
Qed.
