(* ===== verification/IntStrSpec.v ===== *)
(** * Integers as text

    The contracts of the printing functions and of [my_strtoll10], and that the one
    reads what the others print. *)

From S2P Require Import Prelude MyBit IntStr IntStrPrint IntStrRead.

#[local] Open Scope Z_scope.

(** The string that a printed text is, without its NUL. *)
Definition chars (v : Z) (ds : list Z) : list Z := (if v <? 0 then [45] else []) ++ (digit_char true <$> ds).

Lemma digit_char_10 ds : Forall (λ d, 0 ≤ d < 10) ds → digit_char true <$> ds = Z.add 48 <$> ds.
Proof.
  induction 1 as [|d ds Hd _ IH]; [done|]. cbn [fmap list_fmap]. f_equal; [|done]. unfold digit_char.
  by rewrite (proj2 (Z.ltb_lt _ _)) by lia.
Qed.

Lemma numeral_range v ds : numeral 10 v ds → Forall (λ d, 0 ≤ d < 10) ds.
Proof. unfold numeral. destruct (v =? 0); [intros ->; by repeat constructor|by intros [? _ _]]. Qed.

Lemma is_digit_char d : 0 ≤ d < 10 → is_digit (48 + d) = true ∧ my_isspace (48 + d) = false.
Proof.
  intros Hd. assert (Hall : forallb (λ d, is_digit (48 + d) && negb (my_isspace (48 + d))) (seqZ 0 10) = true) by (by vm_compute).
  rewrite forallb_forall in Hall. specialize (Hall d). rewrite <- list_elem_of_In, elem_of_seqZ in Hall.
  apply andb_true_iff in Hall as [H1 H2%negb_true_iff]; [done|lia].
Qed.

Lemma take_while_digits ds : Forall (λ d, 0 ≤ d < 10) ds → take_while is_digit (Z.add 48 <$> ds) = Z.add 48 <$> ds.
Proof.
  induction 1 as [|d ds Hd _ IH]; [done|]. cbn [fmap list_fmap take_while]. rewrite (proj1 (is_digit_char d Hd)). by f_equal.
Qed.

Lemma no_leading_spaces v ds : numeral 10 (Z.abs v) ds → take_while my_isspace (chars v ds) = [].
Proof.
  intros Hn. pose proof (numeral_range _ _ Hn) as Hr. unfold chars. rewrite digit_char_10 by done.
  destruct (v <? 0); [done|]. cbn [app]. destruct Hr as [|d ds Hd _]; [done|]. cbn [fmap list_fmap take_while].
  by rewrite (proj2 (is_digit_char d Hd)).
Qed.

(** The digits behind the zeroes have the value of the numeral. *)
Lemma numeral_value v ds :
  numeral 10 v ds → let z := length (take_while (Z.eqb 48) (Z.add 48 <$> ds)) in
  num_in 10 ((λ c, c - 48) <$> drop z (Z.add 48 <$> ds)) = v ∧ (z ≤ length ds)%nat.
Proof.
  intros Hn z. assert (E : (λ c, c - 48) <$> drop z (Z.add 48 <$> ds) = drop z ds).
  { rewrite <- fmap_drop, <- list_fmap_compose. rewrite <- (list_fmap_id (drop z ds)) at 2. apply list_fmap_ext. intros i x _. cbn. lia. }
  rewrite E. unfold numeral in Hn. destruct (Z.eqb_spec v 0) as [->|Hv].
  - subst ds. by cbn.
  - destruct Hn as [Hr Hval Hh]. assert (z = 0%nat) as ->; [|by rewrite drop_0; split; [|lia]].
    unfold z. destruct ds as [|d ds]; [done|]. cbn [fmap list_fmap take_while].
    rewrite (proj2 (Z.eqb_neq 48 (48 + d))); [done|]. cbn in Hh. assert (d ≠ 0) by congruence. lia.
Qed.

Lemma sign_of_text v ds :
  numeral 10 (Z.abs v) ds → sign_of (chars v ds) = (v <? 0, length (if v <? 0 then [45] else [])).
Proof.
  intros Hr%numeral_range. unfold chars. destruct (v <? 0) eqn:Es; [done|]. rewrite digit_char_10 by done.
  destruct Hr as [|d ds Hd _]; [done|]. cbn [app fmap list_fmap sign_of length]. by rewrite !(proj2 (Z.eqb_neq (48 + d) _)) by lia.
Qed.

Lemma all_digits_text v ds : numeral 10 (Z.abs v) ds → all_digits (chars v ds) = Z.add 48 <$> ds.
Proof.
  intros Hn. pose proof (numeral_range _ _ Hn) as Hr. unfold all_digits. rewrite no_leading_spaces by done.
  cbn [length Nat.add]. rewrite drop_0, sign_of_text by done. cbn [snd].
  unfold chars. by rewrite drop_app_length, digit_char_10, take_while_digits.
Qed.

Lemma parse10_text v ds :
  - 2 ^ 63 ≤ v < 2 ^ 64 → numeral 10 (Z.abs v) ds →
  parse10 (chars v ds) = (s64 v, if v <? 0 then -1 else 0, Z.of_nat (length (chars v ds))).
Proof.
  intros Hv Hn. pose proof (numeral_range _ _ Hn) as Hr. unfold parse10. rewrite no_leading_spaces by done. cbn [length Nat.add]. rewrite drop_0.
  destruct (numeral_value _ _ Hn) as [Eval Hz].
  assert (Hne : (Z.add 48 <$> ds) ≠ []) by (destruct ds; [unfold numeral in Hn; destruct (Z.eqb_spec (Z.abs v) 0); [done|]; by destruct Hn as [_ E _]; cbn in E|done]).
  unfold significant. rewrite sign_of_text, all_digits_text by done.
  rewrite bool_decide_eq_false_2 by done. unfold convert. rewrite Eval.
  rewrite (proj2 (Z.leb_le _ _)) by (unfold limit; destruct (Z.ltb_spec v 0); lia).
  rewrite length_fmap, length_drop. unfold chars. rewrite length_app, !length_fmap.
  f_equal; [f_equal|].
  - destruct (Z.ltb_spec v 0); [rewrite s64_small; lia|]. f_equal. lia.
  - lia.
Qed.

(** C27. [int2str] and [ll2str] print the numeral of every number in every base from
    2 to 36, signed if the radix is negative, without leaving their buffers; a
    bad radix is refused. *)
Theorem integers_printed long_bits val radix upcase :
  long_bits = 32 ∨ long_bits = 64 →
  (- 2 ^ (long_bits - 1) ≤ val < 2 ^ (long_bits - 1) →
   if good_radix radix
   then ∃ s, int2str long_bits val radix upcase = Some (Some s) ∧ text upcase (Z.abs radix) (shown long_bits radix val) s
   else int2str long_bits val radix upcase = Some None)
  ∧ (- 2 ^ 63 ≤ val < 2 ^ 63 →
   if good_radix radix
   then ∃ s, ll2str long_bits val radix upcase = Some (Some s) ∧ text upcase (Z.abs radix) (shown 64 radix val) s
   else ll2str long_bits val radix upcase = Some None).
Proof. intros H. split; intros Hv; [apply int2str_spec|apply ll2str_spec]; lia. Qed.

(** C21. [my_strtoll10], which reads nine digits at a time, gives the value and the error
    that the comment above it describes, on every string, delimited by a pointer or by a
    NUL within 65535 characters: those of [parse10], which takes spaces, a sign and all digits
    up to the first other character. The end is that character too, unless the number has
    more than 20 digits behind its leading zeroes; then it is the one behind the 20th,
    which the comment does not say. *)
Theorem my_strtoll10_correct l post :
  Forall (λ c, 0 ≤ c < 256) l →
  my_strtoll10 (l ++ post) (Some (Z.of_nat (length l))) = Some (stop_early l (parse10 l))
  ∧ ((∀ c, c ∈ l → c ≠ 0) → Z.of_nat (length l) < 65535 → my_strtoll10 (l ++ 0 :: post) None = Some (stop_early l (parse10 l))).
Proof. apply my_strtoll10_spec. Qed.

Lemma chars_bytes v ds : numeral 10 (Z.abs v) ds → Forall (λ c, 0 < c < 256) (chars v ds).
Proof.
  intros Hr%numeral_range. unfold chars. rewrite digit_char_10 by done. apply Forall_app. split; [destruct (v <? 0); by repeat constructor|].
  apply Forall_fmap. eapply list.Forall_impl; [exact Hr|]. cbn. lia.
Qed.

Lemma numeral_short v ds : 0 ≤ v < 2 ^ 64 → numeral 10 v ds → (length ds ≤ 20)%nat.
Proof.
  intros Hv Hn. unfold numeral in Hn. destruct (Z.eqb_spec v 0); [by subst; cbn; lia|]. destruct Hn as [Hr Hval Hh].
  destruct ds as [|d ds]; [cbn; lia|]. cbn in Hh. assert (d ≠ 0) by congruence.
  pose proof (num_lower (d :: ds) d ds eq_refl) as Hl. apply list.Forall_cons in Hr as Hr'. destruct Hr' as [? _].
  specialize (Hl ltac:(lia) Hr). destruct (decide (length ds ≤ 19)%nat); [cbn; lia|].
  assert (10 ^ 20 ≤ 10 ^ Z.of_nat (length ds)) by (apply Z.pow_le_mono_r; lia). lia.
Qed.

Lemma chars_short v ds : - 2 ^ 63 ≤ v < 2 ^ 64 → numeral 10 (Z.abs v) ds → (length (chars v ds) ≤ 21)%nat.
Proof.
  intros Hv Hn. pose proof (numeral_short (Z.abs v) ds ltac:(lia) Hn). unfold chars.
  rewrite length_app, length_fmap. destruct (v <? 0); cbn; lia.
Qed.

Lemma chars_significant v ds :
  - 2 ^ 63 ≤ v < 2 ^ 64 → numeral 10 (Z.abs v) ds → Z.of_nat (length (significant (chars v ds)) - 20) = 0.
Proof.
  intros Hv Hn. pose proof (numeral_short (Z.abs v) ds ltac:(lia) Hn). unfold significant.
  rewrite length_drop, all_digits_text, length_fmap by done. lia.
Qed.

(** What is printed is read back. *)
Lemma text_read v s :
  - 2 ^ 63 ≤ v < 2 ^ 64 → text true 10 v s →
  my_strtoll10 s None = Some (s64 v, if v <? 0 then -1 else 0, Z.of_nat (length s) - 1).
Proof.
  intros Hv (ds & Hn & ->). pose proof (chars_bytes v ds Hn) as Hb. pose proof (chars_short v ds Hv Hn) as Hl.
  rewrite app_assoc. fold (chars v ds).
  destruct (my_strtoll10_spec (chars v ds) []) as [_ E]; [eapply list.Forall_impl; [exact Hb|cbn; lia]|].
  rewrite E; [unfold stop_early; rewrite parse10_text by done| |lia].
  - rewrite chars_significant, Z.sub_0_r by done. rewrite length_app. cbn [length]. do 2 f_equal. lia.
  - intros c Hc. rewrite list.Forall_forall in Hb. specialize (Hb c Hc). cbn in Hb. lia.
Qed.

(** C24. Printing any signed or unsigned 64-bit number in base 10, whatever the width of
    [long], and reading it with [my_strtoll10] gives the number back, says whether it is
    negative, and reads all of the text. *)
Theorem integer_text_roundtrip print val radix :
  print ∈ [longlong10_to_str 32; longlong10_to_str 64; int10_to_str 64] → - 2 ^ 63 ≤ val < 2 ^ 63 →
  ∃ s, print val radix = Some s
    ∧ my_strtoll10 s None = Some (val, if (radix <? 0) && (val <? 0) then -1 else 0, Z.of_nat (length s) - 1).
Proof.
  intros Hp Hv. assert (∃ s, print val radix = Some s ∧ text true 10 (shown 64 radix val) s) as (s & E & Ht).
  { apply elem_of_cons in Hp as [->|Hp]; [by apply longlong10_to_str_spec|].
    apply elem_of_cons in Hp as [->|Hp]; [by apply longlong10_to_str_spec|].
    apply list_elem_of_singleton in Hp as ->. by apply int10_to_str_spec. }
  exists s. split; [done|]. pose proof (Z.mod_pos_bound val (2 ^ 64) ltac:(lia)) as Hm.
  assert (Hs : - 2 ^ 63 ≤ shown 64 radix val < 2 ^ 64) by (unfold shown; destruct (radix <? 0); lia).
  rewrite (text_read _ _ Hs Ht). do 2 f_equal. unfold shown. f_equal.
  - destruct (radix <? 0); [by apply s64_small|]. unfold s64. rewrite Zplus_mod_idemp_l. fold (s64 val). by apply s64_small.
  - destruct (radix <? 0); cbn [andb]; [done|]. by rewrite (proj2 (Z.ltb_ge _ _)) by lia.
Qed.

(** ** Instances *)

Lemma integers_printed_witness :
  ∃ s, ll2str 32 (-255) (-16) false = Some (Some s) ∧ text false 16 (-255) s.
Proof. apply (integers_printed 32 (-255) (-16) false); [by left|lia]. Defined.

(** " -0012x" *)
Lemma my_strtoll10_correct_witness :
  my_strtoll10 [32; 45; 48; 48; 49; 50; 120; 0] None
  = Some (stop_early [32; 45; 48; 48; 49; 50; 120] (parse10 [32; 45; 48; 48; 49; 50; 120]))
  ∧ parse10 [32; 45; 48; 48; 49; 50; 120] = (-12, -1, 6).
Proof.
  split; [|by vm_compute]. apply (my_strtoll10_correct [32; 45; 48; 48; 49; 50; 120] []); [repeat constructor; done| |done].
  intros c Hc. mem.
Defined.

Lemma integer_text_roundtrip_witness :
  ∃ s, longlong10_to_str 32 (- 2 ^ 63) (-10) = Some s
    ∧ my_strtoll10 s None = Some (- 2 ^ 63, -1, Z.of_nat (length s) - 1).
Proof. apply (integer_text_roundtrip (longlong10_to_str 32) (- 2 ^ 63) (-10)); [left|lia]. Defined.

(** The number 10^20 with another digit behind it: reading stops behind 20
    digits, although the comment says that it stops at the first character that is no digit. *)
Example overflow_stops_early :
  my_strtoll10 (49 :: replicate 21 48 ++ [0]) None = Some (-1, MY_ERRNO_ERANGE, 20).
Proof. by vm_compute. Qed.
