(* ===== verification/Bitmap.v ===== *)
(** * Bitmaps (include/my_bitmap.h, mysys/my_bitmap.c)

    A bitmap is a buffer of 64-bit words; the unused bits of the last word are
    0.  The buffer is the list of its words, pointers into it are indices, and
    an access outside the buffer has no result ([None]).  Loops over the words
    run a number of turns that the code's pointer comparisons fix in advance. *)

From S2P Require Import Prelude MyBit.

#[local] Open Scope Z_scope.

Definition MY_BIT_NONE : Z := 2 ^ 32 - 1.

(** [last_word_ptr] is an index of [bitmap]; the null pointer is a buffer of no
    words. *)
Record MY_BITMAP := mk_bitmap {
  bitmap : list Z;
  last_word_ptr : nat;
  map_last_bit_mask : Z;
  n_bits : Z;
  bitmap_allocated : bool;
}.

Definition set_bitmap (b : list Z) (map : MY_BITMAP) : MY_BITMAP :=
  mk_bitmap b (last_word_ptr map) (map_last_bit_mask map) (n_bits map) (bitmap_allocated map).

(** All bits of a word. *)
Definition all_ones : Z := 2 ^ 64 - 1.

(** [MY_ALIGN] rounds up to a multiple of 64 bits. *)
Definition bitmap_buffer_size (bits : Z) : Z := Z.land (bits + 64 - 1) (not64 (64 - 1)) / 8.
Definition no_bytes_in_export_map (map : MY_BITMAP) : nat := Z.to_nat (u32 (n_bits map + 7) / 8).
Definition no_words_in_map (map : MY_BITMAP) : nat := Z.to_nat ((n_bits map + 63) / 64).

(** ** Loops over the words *)

(** [to[i]= f(to[i], from[i])], [n] times, from word [i] of both. *)
Fixpoint update_words (n i : nat) (f : Z → Z → Z) (to from : list Z) : option (list Z) :=
  match n with
  | O => Some to
  | S n =>
    x ← to !! i; y ← from !! i;
    update_words n (S i) f (<[i := f x y]> to) from
  end.

(** [*value++ = v], [n] times, from word [i]. *)
Fixpoint fill_words (n i : nat) (v : Z) (b : list Z) : option (list Z) :=
  match n with
  | O => Some b
  | S n => _ ← b !! i; fill_words n (S i) v (<[i := v]> b)
  end.

(** The first of [n] words, from word [i], for which [p] holds. *)
Fixpoint find_word (n i : nat) (p : Z → bool) (b : list Z) : option (option (nat * Z)) :=
  match n with
  | O => Some None
  | S n => x ← b !! i; if p x then Some (Some (i, x)) else find_word n (S i) p b
  end.

(** Is there a pair of words among [n], from word [i], for which [p] holds? *)
Fixpoint find_pair (n i : nat) (p : Z → Z → bool) (b1 b2 : list Z) : option bool :=
  match n with
  | O => Some false
  | S n => x ← b1 !! i; y ← b2 !! i; if p x y then Some true else find_pair n (S i) p b1 b2
  end.

(** Change one word. *)
Definition set_word (i : nat) (f : Z → Z) (map : MY_BITMAP) : option MY_BITMAP :=
  x ← bitmap map !! i; Some (set_bitmap (<[i := f x]> (bitmap map)) map).

(** The word and the mask of a bit. *)
Definition word_of (bit : Z) : nat := Z.to_nat (bit / 64).
Definition bit_mask (bit : Z) : Z := u64 (Z.shiftl 1 (Z.land bit 63)).

(** ** Masks and initialisation *)

Definition last_bit_mask (bits : Z) : Z :=
  let bits_in_last_map := Z.land bits 63 in
  if negb (bits_in_last_map =? 0)
  then not64 (u64 (u64 (Z.shiftl 1 bits_in_last_map) - 1)) else 0.

Definition first_bit_mask_inv (bits : Z) : Z :=
  let bits_in_last_map := Z.land bits 63 in
  not64 (u64 (u64 (Z.shiftl 1 bits_in_last_map) - 1)).

Definition create_last_bit_mask (map : MY_BITMAP) : option MY_BITMAP :=
  let mask := last_bit_mask (n_bits map) in
  let map := mk_bitmap (bitmap map) (Nat.max (no_words_in_map map) 1 - 1) mask
    (n_bits map) (bitmap_allocated map) in
  if 0 <? n_bits map
  then set_word (last_word_ptr map) (λ w, Z.land w (not64 mask)) map
  else Some map.

Definition bitmap_clear_all (map : MY_BITMAP) : option MY_BITMAP :=
  b ← fill_words (Z.to_nat (bitmap_buffer_size (n_bits map) / 8)) 0 0 (bitmap map);
  Some (set_bitmap b map).

(** [buf] is the buffer of the caller, if it gives one, and [malloc n] the
    memory of [n] bytes that [my_malloc] returns, if it does.  The second
    component is the returned error flag. *)
Definition my_bitmap_init (malloc : Z → option (list Z)) (map : MY_BITMAP)
    (buf : option (list Z)) (bits : Z) : option (MY_BITMAP * bool) :=
  let start := match buf with
    | None => match malloc (u32 (bitmap_buffer_size bits)) with
      | None => inl (mk_bitmap [] (last_word_ptr map) (map_last_bit_mask map) (n_bits map)
                       (bitmap_allocated map))
      | Some mem => inr (mem, true)
      end
    | Some buf => inr (buf, false)
    end in
  match start with
  | inl map => Some (map, true)
  | inr (buf, allocated) =>
    let map := mk_bitmap buf (last_word_ptr map) (map_last_bit_mask map) bits allocated in
    map ← create_last_bit_mask map;
    map ← bitmap_clear_all map;
    Some (map, false)
  end.

(** The second component says whether the buffer goes back to [my_free]. *)
Definition my_bitmap_free (map : MY_BITMAP) : MY_BITMAP * bool :=
  match bitmap map with
  | [] => (map, false)
  | _ => (set_bitmap [] map, bitmap_allocated map)
  end.

(** ** Single bits *)

Definition bitmap_set_bit (map : MY_BITMAP) (bit : Z) : option MY_BITMAP :=
  set_word (word_of bit) (λ w, Z.lor w (bit_mask bit)) map.

Definition bitmap_flip_bit (map : MY_BITMAP) (bit : Z) : option MY_BITMAP :=
  set_word (word_of bit) (λ w, Z.lxor w (bit_mask bit)) map.

Definition bitmap_clear_bit (map : MY_BITMAP) (bit : Z) : option MY_BITMAP :=
  set_word (word_of bit) (λ w, Z.land w (not64 (bit_mask bit))) map.

Definition bitmap_is_set (map : MY_BITMAP) (bit : Z) : option bool :=
  w ← bitmap map !! word_of bit; Some (negb (Z.land w (bit_mask bit) =? 0)).

Definition bitmap_fast_test_and_set (map : MY_BITMAP) (bitmap_bit : Z) : option (MY_BITMAP * bool) :=
  value ← bitmap map !! word_of bitmap_bit;
  let bit := bit_mask bitmap_bit in
  let res := Z.land value bit in
  Some (set_bitmap (<[word_of bitmap_bit := Z.lor value bit]> (bitmap map)) map, negb (res =? 0)).

Definition bitmap_test_and_set := bitmap_fast_test_and_set.

Definition bitmap_fast_test_and_clear (map : MY_BITMAP) (bitmap_bit : Z) : option (MY_BITMAP * bool) :=
  value ← bitmap map !! word_of bitmap_bit;
  let bit := bit_mask bitmap_bit in
  let res := Z.land value bit in
  Some (set_bitmap (<[word_of bitmap_bit := Z.land value (not64 bit)]> (bitmap map)) map,
        negb (res =? 0)).

Definition bitmap_test_and_clear := bitmap_fast_test_and_clear.

(** ** Whole bitmaps *)

Definition bitmap_set_all (map : MY_BITMAP) : option MY_BITMAP :=
  if negb (n_bits map =? 0) then
    b ← fill_words (no_words_in_map map - 1) 0 all_ones (bitmap map);
    set_word (last_word_ptr map) (λ _, not64 (map_last_bit_mask map)) (set_bitmap b map)
  else Some map.

Definition bitmap_set_prefix (map : MY_BITMAP) (prefix_size : Z) : option MY_BITMAP :=
  let prefix_size := Z.min prefix_size (n_bits map) in
  let prefix := Z.to_nat (prefix_size / 64) in
  b ← fill_words prefix 0 all_ones (bitmap map);
  let prefix_bits := Z.land prefix_size 63 in
  '(b, value) ← (if negb (prefix_bits =? 0) then
       b ← fill_words 1 prefix (u64 (u64 (Z.shiftl 1 prefix_bits) - 1)) b; Some (b, S prefix)
     else Some (b, prefix));
  b ← fill_words (S (last_word_ptr map) - value) value 0 b;
  Some (set_bitmap b map).

Definition bitmap_is_prefix (map : MY_BITMAP) (prefix_size : Z) : option bool :=
  if prefix_size =? 0 then Some true else
  let words := Z.to_nat (prefix_size / 64) in
  bad ← find_word words 0 (λ w, negb (w =? all_ones)) (bitmap map);
  if bool_decide (is_Some bad) then Some false else
  let prefix_bits := Z.land prefix_size 63 in
  '(ok, value) ← (if negb (prefix_bits =? 0) then
       w ← bitmap map !! words; Some (w =? u64 (u64 (Z.shiftl 1 prefix_bits) - 1), S words)
     else Some (true, words));
  if negb ok then Some false else
  bad ← find_word (S (last_word_ptr map) - value) value (λ w, negb (w =? 0)) (bitmap map);
  Some (match bad with Some _ => false | None => true end).

Definition bitmap_is_set_all (map : MY_BITMAP) : option bool :=
  bad ← find_word (last_word_ptr map) 0 (λ w, negb (w =? all_ones)) (bitmap map);
  match bad with
  | Some _ => Some false
  | None => w ← bitmap map !! last_word_ptr map; Some (Z.lor w (map_last_bit_mask map) =? all_ones)
  end.

Definition bitmap_is_clear_all (map : MY_BITMAP) : option bool :=
  bad ← find_word (S (last_word_ptr map)) 0 (λ w, negb (w =? 0)) (bitmap map);
  Some (match bad with Some _ => false | None => true end).

Definition bitmap_is_subset (map1 map2 : MY_BITMAP) : option bool :=
  bad ← find_pair (S (last_word_ptr map1)) 0 (λ w1 w2, negb (Z.land w1 (not64 w2) =? 0))
    (bitmap map1) (bitmap map2);
  Some (negb bad).

Definition bitmap_is_overlapping (map1 map2 : MY_BITMAP) : option bool :=
  find_pair (S (last_word_ptr map1)) 0 (λ w1 w2, negb (Z.land w1 w2 =? 0))
    (bitmap map1) (bitmap map2).

(** [memcmp] of the buffers. *)
Definition bitmap_cmp (map1 map2 : MY_BITMAP) : option bool :=
  bad ← find_pair (Z.to_nat (bitmap_buffer_size (n_bits map1) / 8)) 0 (λ w1 w2, negb (w1 =? w2))
    (bitmap map1) (bitmap map2);
  Some (negb bad).

Definition bitmap_intersect (map map2 : MY_BITMAP) : option MY_BITMAP :=
  let len := no_words_in_map map in
  let len2 := no_words_in_map map2 in
  let to := Nat.min len len2 in
  b ← update_words to 0 Z.land (bitmap map) (bitmap map2);
  let map := set_bitmap b map in
  if (len2 <=? len)%nat then
    match to with
    | O => None
    | S last =>
      map ← set_word last (λ w, Z.land w (not64 (map_last_bit_mask map2))) map;
      b ← fill_words (len - len2) to 0 (bitmap map);
      Some (set_bitmap b map)
    end
  else Some map.

Definition bitmap_subtract (map map2 : MY_BITMAP) : option MY_BITMAP :=
  b ← update_words (S (last_word_ptr map)) 0 (λ w w2, Z.land w (not64 w2)) (bitmap map) (bitmap map2);
  Some (set_bitmap b map).

Definition bitmap_union (map map2 : MY_BITMAP) : option MY_BITMAP :=
  let last := (Nat.min (no_words_in_map map) (no_words_in_map map2) - 1)%nat in
  let num_bits := Z.min (n_bits map) (n_bits map2) in
  b ← update_words last 0 Z.lor (bitmap map) (bitmap map2);
  from ← bitmap map2 !! last;
  set_word last (λ w, Z.lor w (Z.land from (not64 (last_bit_mask num_bits)))) (set_bitmap b map).

Definition bitmap_xor (map map2 : MY_BITMAP) : option MY_BITMAP :=
  b ← update_words (S (last_word_ptr map)) 0 Z.lxor (bitmap map) (bitmap map2);
  Some (set_bitmap b map).

Definition bitmap_invert (map : MY_BITMAP) : option MY_BITMAP :=
  b ← update_words (last_word_ptr map) 0 (λ w _, Z.lxor w all_ones) (bitmap map) (bitmap map);
  set_word (last_word_ptr map) (λ w, Z.lxor w (Z.land all_ones (not64 (map_last_bit_mask map))))
    (set_bitmap b map).

(** The lengths are in bytes, but the sum [to + length] counts words. *)
Definition bitmap_copy (map1 map2 : MY_BITMAP) : option MY_BITMAP :=
  let map1_length := (no_words_in_map map1 * 8)%nat in
  let map2_length := (no_words_in_map map2 * 8)%nat in
  let length := Nat.min map1_length map2_length in
  b ← update_words (length / 8) 0 (λ _ w2, w2) (bitmap map1) (bitmap map2);
  b ← (if (length <? map1_length)%nat
       then fill_words ((map1_length - length) / 8) length 0 b else Some b);
  set_word (last_word_ptr map1) (λ w, Z.land w (not64 (map_last_bit_mask map1))) (set_bitmap b map1).

Definition bitmap_union_is_set_all (map1 map2 : MY_BITMAP) : option bool :=
  bad ← find_pair (last_word_ptr map1) 0 (λ w1 w2, negb (Z.lor w1 w2 =? all_ones))
    (bitmap map1) (bitmap map2);
  if (bad : bool) then Some false else
  w1 ← bitmap map1 !! last_word_ptr map1;
  w2 ← bitmap map2 !! last_word_ptr map1;
  Some (negb (Z.lor (Z.lor w1 w2) (map_last_bit_mask map1) =? all_ones)).

(** [for (j= 0; cur_res && j < bitmap_count; j++) cur_res&= bitmap_array[j]->bitmap[i]] *)
Fixpoint and_words (cur_res : Z) (bitmap_array : list MY_BITMAP) (i : nat) : option Z :=
  match bitmap_array with
  | [] => Some cur_res
  | map :: rest =>
    if cur_res =? 0 then Some cur_res
    else w ← bitmap map !! i; and_words (Z.land cur_res w) rest i
  end.

Fixpoint exists_loop (n i : nat) (cur_res : Z) (bitmap_array : list MY_BITMAP) : option bool :=
  match n with
  | O => Some false
  | S n =>
    cur_res ← and_words cur_res bitmap_array i;
    if negb (cur_res =? 0) then Some true else exists_loop n (S i) all_ones bitmap_array
  end.

Definition bitmap_exists_intersection (bitmap_array : list MY_BITMAP) (start_bit end_bit : Z)
    : option bool :=
  let start_idx := Z.to_nat (start_bit / 8 / 8) in
  let end_idx := Z.to_nat (end_bit / 8 / 8) in
  let first_map := first_bit_mask_inv start_bit in
  found ← exists_loop (end_idx - start_idx) start_idx first_map bitmap_array;
  if (found : bool) then Some true else
  let cur_res := not64 (last_bit_mask (u32 (end_bit + 1))) in
  let cur_res := if (start_idx =? end_idx)%nat then Z.land cur_res first_map else cur_res in
  cur_res ← and_words cur_res bitmap_array end_idx;
  Some (negb (cur_res =? 0)).

(** ** Counting and searching *)

Fixpoint count_loop (n i : nat) (res : Z) (b : list Z) : option Z :=
  match n with
  | O => Some res
  | S n => w ← b !! i; count_loop n (S i) (u32 (res + my_count_bits w)) b
  end.

Definition bitmap_bits_set (map : MY_BITMAP) : option Z :=
  count_loop (S (last_word_ptr map)) 0 0 (bitmap map).

Definition bitmap_get_first_set (map : MY_BITMAP) : option Z :=
  found ← find_word (S (last_word_ptr map)) 0 (λ w, negb (w =? 0)) (bitmap map);
  match found with
  | Some (i, w) => k ← my_find_first_bit w; Some (u32 (k + Z.of_nat i * 8 * 8))
  | None => Some MY_BIT_NONE
  end.

(** [bitmap_bit] grows by 64 with each word the search passes. *)
Definition bitmap_get_next_set (map : MY_BITMAP) (bitmap_bit : Z) : option Z :=
  let bitmap_bit := u32 (bitmap_bit + 1) in
  if bitmap_bit >=? n_bits map then Some MY_BIT_NONE else
  let word_pos := Z.to_nat (bitmap_bit / 64) in
  data ← bitmap map !! word_pos;
  let first_word := Z.land data (first_bit_mask_inv bitmap_bit) in
  if negb (first_word =? 0) then
    if negb (Z.land first_word (bit_mask bitmap_bit) =? 0) then Some bitmap_bit
    else k ← my_find_first_bit first_word; Some (u32 (k + Z.land bitmap_bit (not64 63)))
  else
    found ← find_word (last_word_ptr map - word_pos) (S word_pos) (λ w, negb (w =? 0)) (bitmap map);
    match found with
    | Some (i, w) =>
      let bitmap_bit := u32 (bitmap_bit + 64 * Z.of_nat (i - word_pos)) in
      k ← my_find_first_bit w; Some (u32 (k + Z.land bitmap_bit (not64 63)))
    | None => Some MY_BIT_NONE
    end.

Definition bitmap_get_first_clear (map : MY_BITMAP) : option Z :=
  found ← find_word (last_word_ptr map) 0 (λ w, negb (w =? all_ones)) (bitmap map);
  match found with
  | Some (i, w) => k ← my_find_first_bit (not64 w); Some (u32 (k + Z.of_nat i * 8 * 8))
  | None =>
    w ← bitmap map !! last_word_ptr map;
    if Z.lor w (map_last_bit_mask map) =? all_ones then Some MY_BIT_NONE
    else k ← my_find_first_bit (not64 w); Some (u32 (k + Z.of_nat (last_word_ptr map) * 8 * 8))
  end.

Definition bitmap_set_next (map : MY_BITMAP) : option (MY_BITMAP * Z) :=
  bit_found ← bitmap_get_first_clear map;
  if negb (bit_found =? MY_BIT_NONE)
  then map ← bitmap_set_bit map bit_found; Some (map, bit_found)
  else Some (map, bit_found).

(** ** Export and import *)

(** [int8store] and [uint8korr] of byte_order_generic.h, the low byte first. *)
Definition int4store (A : Z) : list Z :=
  [u8 A; u8 (Z.shiftr A 8); u8 (Z.shiftr A 16); u8 (Z.shiftr A 24)].

Definition int8store (A : Z) : list Z := int4store (u32 A) ++ int4store (u32 (Z.shiftr A 32)).

Definition uint8korr (A : list Z) : option Z :=
  match A with
  | a0 :: a1 :: a2 :: a3 :: a4 :: a5 :: a6 :: a7 :: _ => Some (Z.lor
      (Z.lor (Z.lor (Z.lor a0 (Z.shiftl a1 8)) (Z.shiftl a2 16)) (Z.shiftl a3 24))
      (Z.shiftl (Z.lor (Z.lor (Z.lor a4 (Z.shiftl a5 8)) (Z.shiftl a6 16)) (Z.shiftl a7 24)) 32))
  | _ => None
  end.

Module BigEndian.

Fixpoint export_loop (n i : nat) (b : list Z) : option (list Z) :=
  match n with
  | O => Some []
  | S n => w ← b !! i; rest ← export_loop n (S i) b; Some (int8store w ++ rest)
  end.

(** The bytes written to [to]. *)
Definition bitmap_export (map : MY_BITMAP) : option (list Z) :=
  to ← export_loop (last_word_ptr map) 0 (bitmap map);
  value ← bitmap map !! last_word_ptr map;
  let length := (1 + Nat.land (no_bytes_in_export_map map + 7) 7)%nat in
  Some (to ++ take length (int8store value)).

Fixpoint import_loop (n i : nat) (b from : list Z) : option (list Z * list Z) :=
  match n with
  | O => Some (b, from)
  | S n =>
    w ← uint8korr from; _ ← b !! i;
    import_loop n (S i) (<[i := w]> b) (drop 8 from)
  end.

Definition bitmap_import (map : MY_BITMAP) (from : list Z) : option MY_BITMAP :=
  '(b, from) ← import_loop (last_word_ptr map) 0 (bitmap map) from;
  let length := (1 + Nat.land (no_bytes_in_export_map map + 7) 7)%nat in
  if (List.length from <? length)%nat then None else
  w ← uint8korr (take length from ++ replicate (8 - length) 0);
  set_word (last_word_ptr map) (λ _, Z.land w (not64 (map_last_bit_mask map))) (set_bitmap b map).

End BigEndian.

Module LittleEndian.

(** The memory of an array of words, and the array in a piece of memory. *)
Fixpoint memory (b : list Z) : list Z :=
  match b with [] => [] | w :: b => int8store w ++ memory b end.

Fixpoint words (n : nat) (mem : list Z) : option (list Z) :=
  match n with
  | O => Some []
  | S n => w ← uint8korr mem; rest ← words n (drop 8 mem); Some (w :: rest)
  end.

(** [memcpy] of the first bytes. *)
Definition bitmap_export (map : MY_BITMAP) : option (list Z) :=
  let n := no_bytes_in_export_map map in
  if (length (memory (bitmap map)) <? n)%nat then None else Some (take n (memory (bitmap map))).

Definition bitmap_import (map : MY_BITMAP) (from : list Z) : option MY_BITMAP :=
  let n := no_bytes_in_export_map map in
  if ((length from <? n) || (length (memory (bitmap map)) <? n))%nat then None else
  b ← words (length (bitmap map)) (take n from ++ drop n (memory (bitmap map)));
  set_word (last_word_ptr map) (λ w, Z.land w (not64 (map_last_bit_mask map))) (set_bitmap b map).

End LittleEndian.
