(* ===== verification/BitmapFacts.v ===== *)
(** * The words and bits of a bitmap

    The meaning of masks and word loops, bit by bit; the invariant of bitmaps;
    the set of bits that a bitmap stands for. *)

From stdpp Require Import sets gmap.
From S2P Require Import Prelude MyBit Bitmap.

#[local] Open Scope Z_scope.

(** ** Words *)

Definition is_word (w : Z) : Prop := 0 ≤ w < 2 ^ 64.

Lemma is_word_bits w :
  0 ≤ w → (∀ k, 64 ≤ k → Z.testbit w k = false) → is_word w.
Proof. intros Hw H. split; [done|]. by apply Z.bounded_iff_bits_nonneg. Qed.

Lemma word_high w k : is_word w → 64 ≤ k → Z.testbit w k = false.
Proof. intros [??]. by apply (Z.bounded_iff_bits_nonneg 64 w). Qed.

Lemma word_land w x : is_word w → 0 ≤ x → is_word (Z.land w x).
Proof.
  intros Hw Hx. apply is_word_bits; [apply Z.land_nonneg; by left; apply Hw|].
  intros k Hk. by rewrite Z.land_spec, (word_high w) by done.
Qed.

Lemma word_lor w x : is_word w → is_word x → is_word (Z.lor w x).
Proof.
  intros Hw Hx. apply is_word_bits; [apply Z.lor_nonneg; split; [apply Hw|apply Hx]|].
  intros k Hk. by rewrite Z.lor_spec, (word_high w), (word_high x) by done.
Qed.

Lemma word_lxor w x : is_word w → is_word x → is_word (Z.lxor w x).
Proof.
  intros Hw Hx. apply is_word_bits; [apply Z.lxor_nonneg; split; intros; [apply Hx|apply Hw]|].
  intros k Hk. by rewrite Z.lxor_spec, (word_high w), (word_high x) by done.
Qed.

Lemma word_ones : is_word all_ones.
Proof. done. Qed.

Lemma word_0 : is_word 0.
Proof. done. Qed.

Lemma word_not w : is_word w → is_word (not64 w).
Proof. intros. by apply word_lxor. Qed.

Lemma word_u64 x : is_word (u64 x).
Proof. apply Z.mod_pos_bound. lia. Qed.

Create HintDb word.
#[export] Hint Resolve word_land word_lor word_lxor word_ones word_0 word_not word_u64 : word.

Lemma word_nonneg w : is_word w → 0 ≤ w.
Proof. by intros []. Qed.
#[export] Hint Resolve word_nonneg : word.

Lemma ones_testbit k : 0 ≤ k → Z.testbit all_ones k = (k <? 64).
Proof.
  intros Hk. change all_ones with (Z.ones 64). destruct (Z.ltb_spec k 64).
  - apply Z.ones_spec_low. lia. - apply Z.ones_spec_high. lia.
Qed.

Lemma not64_testbit w k : 0 ≤ k < 64 → Z.testbit (not64 w) k = negb (Z.testbit w k).
Proof.
  intros Hk. unfold not64. rewrite Z.lxor_spec. change (2 ^ 64 - 1) with all_ones.
  rewrite ones_testbit by lia. replace (k <? 64) with true by lia. apply xorb_true_r.
Qed.

(** Words are equal when their 64 bits are. *)
Lemma word_eq w w' :
  is_word w → is_word w' → (∀ k, 0 ≤ k < 64 → Z.testbit w k = Z.testbit w' k) → w = w'.
Proof.
  intros Hw Hw' H. apply Z.bits_inj'. intros k Hk.
  destruct (decide (k < 64)); [apply H; lia|]. by rewrite !word_high by (done || lia).
Qed.

Lemma word_eq_0 w : is_word w → (w =? 0) = false ↔ ∃ k, 0 ≤ k < 64 ∧ Z.testbit w k = true.
Proof.
  intros Hw. rewrite Z.eqb_neq. split.
  - intros Hn. exists (Z.log2 w). destruct Hw. split; [|apply Z.bit_log2; lia].
    split; [apply Z.log2_nonneg|]. apply Z.log2_lt_pow2; lia.
  - intros (k & Hk & Ht) ->. by rewrite Z.bits_0 in Ht.
Qed.

Lemma word_eq_ones w :
  is_word w → (w =? all_ones) = false ↔ ∃ k, 0 ≤ k < 64 ∧ Z.testbit w k = false.
Proof.
  intros Hw. assert (E : (w =? all_ones) = (not64 w =? 0)).
  { destruct (Z.eqb_spec w all_ones) as [->|Hn]; [done|]. symmetry. apply Z.eqb_neq. intros E0.
    apply Hn, word_eq; [done..|]. intros k Hk. rewrite ones_testbit by lia.
    apply (f_equal (λ x, negb (Z.testbit x k))) in E0. rewrite not64_testbit, negb_involutive in E0 by lia.
    rewrite E0, Z.bits_0. lia. }
  rewrite E, word_eq_0 by auto with word. split; intros (k & Hk & Ht); exists k;
    rewrite not64_testbit in * by done; split; try done; by destruct (Z.testbit w k).
Qed.

(** ** Masks *)

Lemma land_63 x : Z.land x 63 = x mod 64.
Proof. change 63 with (Z.ones 6). by rewrite Z.land_ones by lia. Qed.

Lemma align_spec x : 0 ≤ x < 2 ^ 64 → Z.land x (not64 63) = x / 64 * 64.
Proof.
  intros Hx. apply word_eq; [by apply word_land|split; divlia|].
  intros k Hk. rewrite Z.land_spec, not64_testbit by done.
  replace (x / 64 * 64) with (0 + 2 ^ 6 * (x / 2 ^ 6)) by lia. rewrite testbit_split by lia.
  change 63 with (Z.ones 6). destruct (Z.ltb_spec k 6).
  - rewrite Z.ones_spec_low, Z.bits_0 by lia. apply andb_false_r.
  - rewrite Z.ones_spec_high, Z.div_pow2_bits by lia. rewrite andb_true_r. f_equal. lia.
Qed.

Lemma bit_mask_testbit b k :
  0 ≤ k < 64 → Z.testbit (bit_mask b) k = (k =? b mod 64).
Proof.
  intros Hk. unfold bit_mask, u64. rewrite land_63, Z.shiftl_1_l.
  pose proof (Z.mod_pos_bound b 64). rewrite Z.mod_small.
  - rewrite Z.pow2_bits_eqb by lia. apply Z.eqb_sym.
  - split; [lia|]. apply Z.pow_lt_mono_r; lia.
Qed.

(** The low [k] bits. *)
Lemma low_mask_testbit k i :
  0 ≤ k < 64 → 0 ≤ i → Z.testbit (u64 (u64 (Z.shiftl 1 k) - 1)) i = (i <? k).
Proof.
  intros Hk Hi. unfold u64. rewrite Z.shiftl_1_l.
  assert (0 < 2 ^ k < 2 ^ 64) by (split; [lia|apply Z.pow_lt_mono_r; lia]).
  rewrite !Z.mod_small by (rewrite ?Z.mod_small by lia; lia).
  rewrite Z.sub_1_r, <- Z.ones_equiv. destruct (Z.ltb_spec i k).
  - apply Z.ones_spec_low. lia. - apply Z.ones_spec_high. lia.
Qed.

Lemma last_bit_mask_word n : is_word (last_bit_mask n).
Proof. unfold last_bit_mask. case_match; auto with word. Qed.

Lemma first_bit_mask_inv_word n : is_word (first_bit_mask_inv n).
Proof. apply word_not, word_u64. Qed.
#[export] Hint Resolve last_bit_mask_word first_bit_mask_inv_word : word.

Lemma last_bit_mask_testbit n k :
  0 ≤ k < 64 →
  Z.testbit (last_bit_mask n) k = negb (n mod 64 =? 0) && (n mod 64 <=? k).
Proof.
  intros Hk. unfold last_bit_mask. rewrite land_63. pose proof (Z.mod_pos_bound n 64).
  destruct (n mod 64 =? 0); [apply Z.bits_0|]. simpl negb. cbv iota.
  rewrite not64_testbit, low_mask_testbit by lia. cbn [andb]. lia.
Qed.

Lemma first_bit_mask_inv_testbit n k :
  0 ≤ k < 64 → Z.testbit (first_bit_mask_inv n) k = (n mod 64 <=? k).
Proof.
  intros Hk. unfold first_bit_mask_inv. rewrite land_63. pose proof (Z.mod_pos_bound n 64).
  rewrite not64_testbit, low_mask_testbit by lia. lia.
Qed.

(** ** Loops *)

(** Word [j] of a buffer, 0 outside. *)
Definition word (b : list Z) (j : nat) : Z := default 0 (b !! j).

Lemma word_lookup b j : (j < length b)%nat → b !! j = Some (word b j).
Proof. intros Hj. unfold word. by destruct (lookup_lt_is_Some_2 b j Hj) as [x ->]. Qed.

Lemma word_insert b i j v :
  (i < length b)%nat → word (<[i := v]> b) j = if decide (j = i) then v else word b j.
Proof.
  intros Hi. unfold word. case_decide; subst; [by rewrite list_lookup_insert_eq|].
  by rewrite list_lookup_insert_ne.
Qed.

Lemma update_words_spec n i f b b2 :
  (i + n ≤ length b)%nat → (i + n ≤ length b2)%nat →
  ∃ b', update_words n i f b b2 = Some b' ∧ length b' = length b
    ∧ ∀ j, word b' j = if decide (i ≤ j < i + n)%nat then f (word b j) (word b2 j) else word b j.
Proof.
  revert i b. induction n as [|n IH]; intros i b Hb Hb2; cbn [update_words].
  { exists b. split_and!; [done..|]. intros j. by rewrite decide_False by lia. }
  rewrite !word_lookup by lia. cbn [mbind option_bind].
  destruct (IH (S i) (<[i := f (word b i) (word b2 i)]> b)) as (b' & -> & Hl & Hw);
    [rewrite length_insert; lia|lia|].
  exists b'. split_and!; [done|by rewrite Hl, length_insert|]. intros j.
  rewrite Hw, word_insert by lia. repeat case_decide; subst; done || lia.
Qed.

Lemma fill_words_spec n i v b :
  (i + n ≤ length b)%nat →
  ∃ b', fill_words n i v b = Some b' ∧ length b' = length b
    ∧ ∀ j, word b' j = if decide (i ≤ j < i + n)%nat then v else word b j.
Proof.
  revert i b. induction n as [|n IH]; intros i b Hb; cbn [fill_words].
  { exists b. split_and!; [done..|]. intros j. by rewrite decide_False by lia. }
  rewrite !word_lookup by lia. cbn [mbind option_bind].
  destruct (IH (S i) (<[i := v]> b)) as (b' & -> & Hl & Hw); [rewrite length_insert; lia|].
  exists b'. split_and!; [done|by rewrite Hl, length_insert|]. intros j.
  rewrite Hw, word_insert by lia. repeat case_decide; subst; done || lia.
Qed.

Lemma set_word_spec i f m :
  (i < length (bitmap m))%nat →
  ∃ b', set_word i f m = Some (set_bitmap b' m) ∧ length b' = length (bitmap m)
    ∧ ∀ j, word b' j = if decide (j = i) then f (word (bitmap m) i) else word (bitmap m) j.
Proof.
  intros Hi. unfold set_word. rewrite word_lookup by done. cbn [mbind option_bind].
  eexists. split_and!; [done|by rewrite length_insert|]. intros j. by apply word_insert.
Qed.

Lemma find_word_spec n i p b :
  (i + n ≤ length b)%nat →
  ∃ r, find_word n i p b = Some r ∧
    match r with
    | Some (j, w) => (i ≤ j < i + n)%nat ∧ w = word b j ∧ p w = true
        ∧ ∀ k, (i ≤ k < j)%nat → p (word b k) = false
    | None => ∀ k, (i ≤ k < i + n)%nat → p (word b k) = false
    end.
Proof.
  revert i. induction n as [|n IH]; intros i Hb; cbn [find_word].
  { exists None. split; [done|]. lia. }
  rewrite word_lookup by lia. cbn [mbind option_bind]. destruct (p (word b i)) eqn:Hp.
  { eexists. split; [done|]. split_and!; [lia..|done|done|]. lia. }
  destruct (IH (S i)) as (r & -> & Hr); [lia|]. exists r. split; [done|].
  destruct r as [[j w]|].
  - destruct Hr as (? & ? & ? & Hk). split_and!; [lia..|done|done|]. intros k ?.
    destruct (decide (k = i)); [by subst|]. apply Hk. lia.
  - intros k ?. destruct (decide (k = i)); [by subst|]. apply Hr. lia.
Qed.

Lemma find_pair_spec n i p b1 b2 :
  (i + n ≤ length b1)%nat → (i + n ≤ length b2)%nat →
  ∃ r, find_pair n i p b1 b2 = Some r
    ∧ (r = true ↔ ∃ k, (i ≤ k < i + n)%nat ∧ p (word b1 k) (word b2 k) = true).
Proof.
  revert i. induction n as [|n IH]; intros i H1 H2; cbn [find_pair].
  { exists false. split; [done|]. split; [done|]. intros (k & ? & _). lia. }
  rewrite !word_lookup by lia. cbn [mbind option_bind].
  destruct (p (word b1 i) (word b2 i)) eqn:Hp.
  { exists true. split; [done|]. split; [|done]. intros _. exists i. split; [lia|done]. }
  destruct (IH (S i)) as (r & -> & Hr); [lia..|]. exists r. split; [done|]. rewrite Hr.
  split; intros (k & ? & Hk); exists k; (split; [|done]); [lia|].
  destruct (decide (k = i)); [congruence|lia].
Qed.

(** ** Bits *)

(** Bit [i] of a buffer. *)
Definition bit (b : list Z) (i : Z) : bool := Z.testbit (word b (Z.to_nat (i / 64))) (i mod 64).

(** The well-formed bitmaps are those that pass the assertions of the code, with
    a buffer that has the words they need. *)
Record wf (m : MY_BITMAP) : Prop := {
  wf_bits : 0 < n_bits m < 2 ^ 32;
  wf_length : (no_words_in_map m ≤ length (bitmap m))%nat;
  wf_word : ∀ j, is_word (word (bitmap m) j);
  wf_last : last_word_ptr m = (no_words_in_map m - 1)%nat;
  wf_mask : map_last_bit_mask m = last_bit_mask (n_bits m);
  wf_tail : Z.land (word (bitmap m) (last_word_ptr m)) (map_last_bit_mask m) = 0;
}.

(** The number of bits in the words of the map. *)
Definition room (m : MY_BITMAP) : Z := 64 * Z.of_nat (no_words_in_map m).

Lemma room_spec m : 0 < n_bits m → n_bits m ≤ room m < n_bits m + 64 ∧ room m = 64 * ((n_bits m + 63) / 64).
Proof. intros. unfold room, no_words_in_map. rewrite Z2Nat.id by divlia. divlia. Qed.

Lemma masked_bits w n :
  is_word w →
  Z.land w (last_bit_mask n) = 0 ↔
  ∀ k, 0 ≤ k < 64 → n mod 64 ≠ 0 → n mod 64 ≤ k → Z.testbit w k = false.
Proof.
  intros Hw. split.
  - intros E k Hk Hn Hle. apply (f_equal (λ x, Z.testbit x k)) in E.
    rewrite Z.land_spec, last_bit_mask_testbit, Z.bits_0 in E by done.
    destruct (Z.testbit w k); [|done]. lia.
  - intros H. apply word_eq; [auto with word..|]. intros k Hk.
    rewrite Z.land_spec, last_bit_mask_testbit, Z.bits_0 by done.
    destruct (decide (n mod 64 ≠ 0 ∧ n mod 64 ≤ k)) as [[]|]; [by rewrite H|].
    replace (negb _ && _) with false by lia. apply andb_false_r.
Qed.

(** The unused bits of the last word are 0: no bit beyond the last. *)
Lemma tail_bits m b :
  0 < n_bits m → (∀ j, is_word (word b j)) →
  Z.land (word b (no_words_in_map m - 1)) (last_bit_mask (n_bits m)) = 0 ↔
  ∀ i, n_bits m ≤ i < room m → bit b i = false.
Proof.
  intros Hn Hw. rewrite masked_bits by done. pose proof (room_spec m Hn) as [Hr E].
  assert (Hl : (no_words_in_map m - 1)%nat = Z.to_nat (room m / 64 - 1)).
  { unfold room. rewrite Z.mul_comm, Z.div_mul by done. lia. }
  rewrite Hl, E in *. split.
  - intros H i Hi. unfold bit. replace (i / 64) with (64 * ((n_bits m + 63) / 64) / 64 - 1) by divlia.
    apply H; divlia.
  - intros H k Hk Hm Hle. specialize (H (64 * ((n_bits m + 63) / 64) - 64 + k)).
    unfold bit in H. rewrite <- H by divlia. f_equal; [f_equal; divlia|divlia].
Qed.

Lemma wf_bit m i : wf m → 0 ≤ i < room m → bit (bitmap m) i = (i <? n_bits m) && bit (bitmap m) i.
Proof.
  intros W Hi. destruct (Z.ltb_spec i (n_bits m)); [done|].
  apply (proj1 (tail_bits m (bitmap m) ltac:(apply W) (wf_word m W))); [|lia].
  rewrite <- wf_last, <- wf_mask by done. apply W.
Qed.
