(* ===== verification/BitmapOps.v ===== *)
(** * Bitmaps implement finite sets

    Every operation of my_bitmap.c refines the operation on finite sets of bit
    numbers that it is named after, keeps the unused bits 0 and never leaves
    the buffer. *)

From stdpp Require Import sets gmap.
From S2P Require Import Prelude MyBit Bitmap BitmapFacts.

#[local] Open Scope Z_scope.

(** ** The set of a bitmap *)

Definition universe (n : Z) : gset Z := list_to_set (seqZ 0 n).

Definition elems (m : MY_BITMAP) : gset Z :=
  list_to_set (filter (λ i, bit (bitmap m) i = true) (seqZ 0 (n_bits m))).

Lemma elem_of_universe n i : i ∈ universe n ↔ 0 ≤ i < n.
Proof. unfold universe. rewrite elem_of_list_to_set, elem_of_seqZ. lia. Qed.

Lemma elem_of_elems m i : i ∈ elems m ↔ 0 ≤ i < n_bits m ∧ bit (bitmap m) i = true.
Proof. unfold elems. rewrite elem_of_list_to_set, list_elem_of_filter, elem_of_seqZ. intuition lia. Qed.

#[export] Instance set_unfold_universe n i : SetUnfoldElemOf i (universe n) (0 ≤ i < n).
Proof. constructor. apply elem_of_universe. Qed.

#[export] Instance set_unfold_elems m i :
  SetUnfoldElemOf i (elems m) (0 ≤ i < n_bits m ∧ bit (bitmap m) i = true).
Proof. constructor. apply elem_of_elems. Qed.

(** [m'] is a bitmap of the size of [m] that stands for the set [X]. *)
Definition becomes (m m' : MY_BITMAP) (X : gset Z) : Prop :=
  wf m' ∧ n_bits m' = n_bits m ∧ elems m' = X.

Lemma becomes_intro m b' X :
  wf m → length b' = length (bitmap m) → (∀ j, is_word (word b' j)) →
  X ⊆ universe (n_bits m) → (∀ i, 0 ≤ i < room m → bit b' i = true ↔ i ∈ X) →
  becomes m (set_bitmap b' m) X.
Proof.
  intros W Hl Hw HX Hb. destruct (room_spec m) as [Hr _]; [apply W|].
  split_and!; [|done|].
  - destruct W. split; try done; cbn; [by rewrite Hl|].
    rewrite wf_mask, wf_last. apply (tail_bits m b'); [lia|done|]. intros i Hi.
    destruct (bit b' i) eqn:E; [|done]. apply Hb in E; [|lia]. apply HX, elem_of_universe in E. lia.
  - apply set_eq. intros i. rewrite elem_of_elems. cbn. split.
    + intros [Hi E]. apply Hb in E; [done|lia].
    + intros Hi. pose proof (HX i Hi) as Hu%elem_of_universe. split; [done|]. apply Hb; [lia|done].
Qed.

(** ** Positions *)

Lemma words_eq m : wf m → Z.of_nat (no_words_in_map m) = (n_bits m + 63) / 64 ∧ 0 < (n_bits m + 63) / 64.
Proof. intros W. pose proof (wf_bits m W). unfold no_words_in_map. rewrite Z2Nat.id; divlia. Qed.

Lemma elems_bit m i : wf m → 0 ≤ i < room m → bit (bitmap m) i = true ↔ i ∈ elems m.
Proof.
  intros W Hi. rewrite elem_of_elems, wf_bit by done. rewrite andb_true_iff. intuition lia.
Qed.

(** In the last word of [n] bits the mask covers the positions from [n] on. *)
Lemma last_mask_bit n i :
  0 < n → i / 64 = (n + 63) / 64 - 1 →
  Z.testbit (last_bit_mask n) (i mod 64) = (n <=? i).
Proof.
  intros Hn Hi. rewrite last_bit_mask_testbit by (apply Z.mod_pos_bound; lia).
  destruct (Z.leb_spec n i), (Z.eqb_spec (n mod 64) 0), (Z.leb_spec (n mod 64) (i mod 64));
    simpl; try done; exfalso; divlia.
Qed.

(** The word that holds a bit, among the words of the map. *)
Lemma word_of_lt m i :
  wf m → 0 ≤ i < room m → (word_of i < no_words_in_map m)%nat ∧ Z.of_nat (word_of i) = i / 64.
Proof. intros W Hi. unfold room, word_of in *. rewrite Z2Nat.id by divlia. split; divlia. Qed.

(** ** Single bits *)

(** Changing one bit: [f] acts as [g] on it and keeps the other bits. *)
Lemma set_bit_spec m k f (g : bool → bool) :
  wf m → 0 ≤ k < n_bits m →
  (∀ w, is_word w → is_word (f w) ∧ ∀ p, 0 ≤ p < 64 →
     Z.testbit (f w) p = if p =? k mod 64 then g (Z.testbit w p) else Z.testbit w p) →
  ∃ m', set_word (word_of k) f m = Some m'
    ∧ becomes m m' (if g (bit (bitmap m) k) then {[k]} ∪ elems m else elems m ∖ {[k]}).
Proof.
  intros W Hk Hf. pose proof (room_spec m ltac:(lia)) as [Hr _].
  destruct (word_of_lt m k W) as [Hw Ek]; [lia|]. pose proof (wf_length m W).
  destruct (set_word_spec (word_of k) f m) as (b' & -> & Hl & Hb); [lia|].
  eexists. split; [done|]. apply becomes_intro; [done..| | |].
  - intros j. rewrite Hb. case_decide; [apply Hf, W|apply W].
  - destruct (g _); set_solver by lia.
  - intros i Hi. destruct (word_of_lt m i W Hi) as [_ Ei].
    pose proof (Z.mod_pos_bound i 64). pose proof (elems_bit m i W Hi) as He.
    assert (E : bit b' i = if decide (i = k) then g (bit (bitmap m) k) else bit (bitmap m) i).
    { unfold bit. rewrite Hb. fold (word_of i). case_decide as Hj.
      - rewrite (proj2 (Hf _ (wf_word m W _))) by lia. rewrite <- Hj.
        destruct (Z.eqb_spec (i mod 64) (k mod 64)) as [Em|Em].
        + assert (i = k) as -> by divlia. by rewrite decide_True.
        + rewrite decide_False; [done|]. congruence.
      - rewrite decide_False; [done|]. congruence. }
    rewrite E. destruct (g (bit (bitmap m) k)); case_decide; subst; rewrite ?He; set_solver.
Qed.

Lemma bitmap_set_bit_spec m k :
  wf m → 0 ≤ k < n_bits m →
  ∃ m', bitmap_set_bit m k = Some m' ∧ becomes m m' ({[k]} ∪ elems m).
Proof.
  intros W Hk. apply (set_bit_spec m k _ (λ _, true)); [done..|]. intros w Hw.
  split; [unfold bit_mask; auto with word|]. intros p Hp. rewrite Z.lor_spec, bit_mask_testbit by done.
  destruct (_ =? _); [apply orb_true_r|apply orb_false_r].
Qed.

Lemma bitmap_clear_bit_spec m k :
  wf m → 0 ≤ k < n_bits m →
  ∃ m', bitmap_clear_bit m k = Some m' ∧ becomes m m' (elems m ∖ {[k]}).
Proof.
  intros W Hk. apply (set_bit_spec m k _ (λ _, false)); [done..|]. intros w Hw.
  split; [unfold bit_mask; auto with word|]. intros p Hp.
  rewrite Z.land_spec, not64_testbit, bit_mask_testbit by done.
  destruct (_ =? _); [apply andb_false_r|apply andb_true_r].
Qed.

Lemma bitmap_flip_bit_spec m k :
  wf m → 0 ≤ k < n_bits m →
  ∃ m', bitmap_flip_bit m k = Some m'
    ∧ becomes m m' (if decide (k ∈ elems m) then elems m ∖ {[k]} else {[k]} ∪ elems m).
Proof.
  intros W Hk. destruct (set_bit_spec m k (λ w, Z.lxor w (bit_mask k)) negb) as (m' & H & B); [done..| |].
  - intros w Hw. split; [unfold bit_mask; auto with word|]. intros p Hp.
    rewrite Z.lxor_spec, bit_mask_testbit by done.
    destruct (_ =? _); [apply xorb_true_r|apply xorb_false_r].
  - exists m'. split; [done|]. pose proof (elem_of_elems m k) as He.
    destruct (bit (bitmap m) k) eqn:Eb; simpl in B; case_decide; set_solver.
Qed.

(** Reading a bit with its mask. *)
Lemma mask_read w k : is_word w → negb (Z.land w (bit_mask k) =? 0) = Z.testbit w (k mod 64).
Proof.
  intros Hw. pose proof (Z.mod_pos_bound k 64).
  destruct (Z.testbit w (k mod 64)) eqn:Ht.
  - apply negb_true_iff, word_eq_0; [unfold bit_mask; auto with word|]. exists (k mod 64).
    split; [lia|]. rewrite Z.land_spec, Ht, bit_mask_testbit by lia. apply Z.eqb_refl.
  - apply negb_false_iff. destruct (_ =? _) eqn:E; [done|].
    apply word_eq_0 in E as (p & Hp & E); [|unfold bit_mask; auto with word].
    rewrite Z.land_spec, bit_mask_testbit in E by done. apply andb_true_iff in E as [Hwp Hpk].
    apply Z.eqb_eq in Hpk. congruence.
Qed.

Lemma bool_decide_elems m k :
  0 ≤ k < n_bits m → bool_decide (k ∈ elems m) = bit (bitmap m) k.
Proof.
  intros Hk. pose proof (elem_of_elems m k) as He.
  case_bool_decide as H; destruct (bit (bitmap m) k); naive_solver.
Qed.

Lemma bitmap_is_set_spec m k :
  wf m → 0 ≤ k < n_bits m → bitmap_is_set m k = Some (bool_decide (k ∈ elems m)).
Proof.
  intros W Hk. pose proof (room_spec m ltac:(lia)) as [Hr _].
  destruct (word_of_lt m k W) as [Hw _]; [lia|]. pose proof (wf_length m W).
  unfold bitmap_is_set. rewrite word_lookup by lia. cbn [mbind option_bind].
  rewrite mask_read by apply W. by rewrite bool_decide_elems.
Qed.

Lemma bitmap_test_and_set_spec m k :
  wf m → 0 ≤ k < n_bits m →
  ∃ m', bitmap_test_and_set m k = Some (m', bool_decide (k ∈ elems m))
    ∧ becomes m m' ({[k]} ∪ elems m).
Proof.
  intros W Hk. destruct (bitmap_set_bit_spec m k W Hk) as (m' & H & B). exists m'. split; [|done].
  pose proof (bitmap_is_set_spec m k W Hk) as Hs.
  unfold bitmap_test_and_set, bitmap_fast_test_and_set, bitmap_set_bit, set_word, bitmap_is_set in *.
  destruct (bitmap m !! word_of k) as [w|]; [|done]. cbn [mbind option_bind] in *. congruence.
Qed.

Lemma bitmap_test_and_clear_spec m k :
  wf m → 0 ≤ k < n_bits m →
  ∃ m', bitmap_test_and_clear m k = Some (m', bool_decide (k ∈ elems m))
    ∧ becomes m m' (elems m ∖ {[k]}).
Proof.
  intros W Hk. destruct (bitmap_clear_bit_spec m k W Hk) as (m' & H & B). exists m'. split; [|done].
  pose proof (bitmap_is_set_spec m k W Hk) as Hs.
  unfold bitmap_test_and_clear, bitmap_fast_test_and_clear, bitmap_clear_bit, set_word, bitmap_is_set in *.
  destruct (bitmap m !! word_of k) as [w|]; [|done]. cbn [mbind option_bind] in *. congruence.
Qed.

(** ** Whole bitmaps *)

Lemma buffer_words m : wf m → Z.to_nat (bitmap_buffer_size (n_bits m) / 8) = no_words_in_map m.
Proof.
  intros W. pose proof (wf_bits m W). unfold bitmap_buffer_size, no_words_in_map.
  rewrite align_spec by lia. divlia.
Qed.

Lemma bitmap_clear_all_spec m : wf m → ∃ m', bitmap_clear_all m = Some m' ∧ becomes m m' ∅.
Proof.
  intros W. unfold bitmap_clear_all. rewrite buffer_words by done. pose proof (wf_length m W).
  destruct (fill_words_spec (no_words_in_map m) 0 0 (bitmap m)) as (b' & -> & Hl & Hb); [lia|].
  eexists. split; [done|]. apply becomes_intro; [done..| | |].
  - intros j. rewrite Hb. case_decide; [done|apply W].
  - set_solver.
  - intros i Hi. destruct (word_of_lt m i W Hi) as [Hw _]. unfold bit. rewrite Hb.
    rewrite decide_True by (unfold word_of in Hw; lia). rewrite Z.bits_0. set_solver.
Qed.

Lemma bitmap_set_all_spec m :
  wf m → ∃ m', bitmap_set_all m = Some m' ∧ becomes m m' (universe (n_bits m)).
Proof.
  intros W. unfold bitmap_set_all. pose proof (wf_bits m W). pose proof (wf_length m W).
  pose proof (words_eq m W). rewrite (proj2 (Z.eqb_neq _ _)) by lia. cbn [negb].
  destruct (fill_words_spec (no_words_in_map m - 1) 0 all_ones (bitmap m)) as (b1 & -> & Hl1 & Hb1); [lia|].
  cbn [mbind option_bind]. rewrite (wf_last m W).
  destruct (set_word_spec (no_words_in_map m - 1) (λ _, not64 (map_last_bit_mask m))
    (set_bitmap b1 m)) as (b' & -> & Hl & Hb); [cbn; lia|]. cbn in Hl, Hb. rewrite (wf_mask m W) in Hb.
  eexists. split; [done|]. apply (becomes_intro m b'); [done|lia| |done|].
  - intros j. rewrite Hb, Hb1. repeat case_decide; auto with word; apply W.
  - intros i Hi. destruct (word_of_lt m i W Hi) as [Hw Ei]. rewrite elem_of_universe.
    pose proof (Z.mod_pos_bound i 64). unfold bit. rewrite Hb, Hb1. fold (word_of i).
    repeat case_decide; try lia.
    + rewrite not64_testbit, last_mask_bit by lia. rewrite negb_true_iff. lia.
    + rewrite ones_testbit by lia. split; [|lia]. intros _. divlia.
Qed.

(** An operation on the words of two bitmaps of one size acts bit by bit. *)
Lemma update_all_spec m m2 f (g : bool → bool → bool) X :
  wf m → wf m2 → n_bits m2 = n_bits m → g false false = false →
  (∀ w w2, is_word w → is_word w2 → is_word (f w w2) ∧ ∀ p, 0 ≤ p < 64 →
     Z.testbit (f w w2) p = g (Z.testbit w p) (Z.testbit w2 p)) →
  (∀ i, i ∈ X ↔ 0 ≤ i < n_bits m ∧ g (bit (bitmap m) i) (bit (bitmap m2) i) = true) →
  ∃ m', (b ← update_words (S (last_word_ptr m)) 0 f (bitmap m) (bitmap m2);
         Some (set_bitmap b m)) = Some m' ∧ becomes m m' X.
Proof.
  intros W W2 En Hg Hf HX. rewrite (wf_last m W). pose proof (words_eq m W).
  pose proof (wf_length m W). pose proof (wf_length m2 W2) as Hl2.
  assert (no_words_in_map m2 = no_words_in_map m) as Ew by (unfold no_words_in_map; by rewrite En).
  assert (room m2 = room m) as Er by (unfold room; by rewrite Ew). rewrite Ew in Hl2.
  destruct (update_words_spec (S (no_words_in_map m - 1)) 0 f (bitmap m) (bitmap m2))
    as (b' & -> & Hl & Hb); [lia..|].
  eexists. split; [done|]. apply becomes_intro; [done..| | |].
  - intros j. rewrite Hb. case_decide; [apply Hf; [apply W|apply W2]|apply W].
  - intros i. rewrite HX, elem_of_universe. tauto.
  - intros i Hi. destruct (word_of_lt m i W Hi) as [Hw Ei]. pose proof (Z.mod_pos_bound i 64).
    assert (E : bit b' i = g (bit (bitmap m) i) (bit (bitmap m2) i)).
    { unfold bit at 1. rewrite Hb. fold (word_of i). rewrite decide_True by lia.
      by rewrite (proj2 (Hf _ _ (wf_word m W _) (wf_word m2 W2 _))) by lia. }
    rewrite HX, E. split; [|tauto]. intros G. split; [|done].
    rewrite wf_bit, (wf_bit m2), En in G by (done || lia).
    destruct (Z.ltb_spec i (n_bits m)); [lia|]. cbn [andb] in G. congruence.
Qed.

Lemma bitmap_subtract_spec m m2 :
  wf m → wf m2 → n_bits m2 = n_bits m →
  ∃ m', bitmap_subtract m m2 = Some m' ∧ becomes m m' (elems m ∖ elems m2).
Proof.
  intros W W2 En. apply (update_all_spec m m2 _ (λ x y, x && negb y)); [done..| |].
  - intros w w2 Hw Hw2. split; [auto with word|]. intros p Hp. by rewrite Z.land_spec, not64_testbit.
  - intros i. rewrite andb_true_iff, negb_true_iff, <- not_true_iff_false. set_solver by lia.
Qed.

(** The symmetric difference. *)
Definition sym_diff (X Y : gset Z) : gset Z := (X ∖ Y) ∪ (Y ∖ X).

Lemma bitmap_xor_spec m m2 :
  wf m → wf m2 → n_bits m2 = n_bits m →
  ∃ m', bitmap_xor m m2 = Some m' ∧ becomes m m' (sym_diff (elems m) (elems m2)).
Proof.
  intros W W2 En. apply (update_all_spec m m2 _ xorb); [done..| |].
  - intros w w2 Hw Hw2. split; [auto with word|]. intros p Hp. by rewrite Z.lxor_spec.
  - intros i. unfold sym_diff. set_unfold. rewrite En.
    destruct (bit (bitmap m) i), (bit (bitmap m2) i); simpl; intuition congruence.
Qed.

Lemma bitmap_invert_spec m :
  wf m → ∃ m', bitmap_invert m = Some m' ∧ becomes m m' (universe (n_bits m) ∖ elems m).
Proof.
  intros W. unfold bitmap_invert. rewrite (wf_last m W), (wf_mask m W). pose proof (words_eq m W).
  pose proof (wf_length m W). pose proof (wf_bits m W).
  destruct (update_words_spec (no_words_in_map m - 1) 0 (λ w _, Z.lxor w all_ones)
    (bitmap m) (bitmap m)) as (b1 & -> & Hl1 & Hb1); [lia..|]. cbn [mbind option_bind].
  match goal with |- context [set_word _ ?f _] =>
    destruct (set_word_spec (no_words_in_map m - 1) f (set_bitmap b1 m)) as (b' & -> & Hl & Hb) end;
    [cbn; lia|]. cbn in Hl, Hb.
  eexists. split; [done|]. apply (becomes_intro m b'); [done|lia| |set_solver|].
  - intros j. rewrite Hb, !Hb1. pose proof (wf_word m W).
    repeat case_decide; auto 6 with word.
  - intros i Hi. destruct (word_of_lt m i W Hi) as [Hw Ei]. pose proof (Z.mod_pos_bound i 64).
    pose proof (elems_bit m i W Hi) as He. rewrite elem_of_difference, elem_of_universe, <- He.
    unfold bit. rewrite Hb, !Hb1. fold (word_of i). repeat case_decide; try lia;
      subst; rewrite Z.lxor_spec, ?Z.land_spec, ?not64_testbit, ones_testbit, ?last_mask_bit by lia.
    all: replace (i mod 64 <? 64) with true by lia; cbn [andb].
    + replace (no_words_in_map m - 1)%nat with (word_of i).
      pose proof (wf_bit m i W Hi) as Ht. unfold bit in Ht. fold (word_of i) in Ht.
      destruct (Z.testbit _ _), (Z.leb_spec (n_bits m) i), (Z.ltb_spec i (n_bits m));
        simpl in *; intuition (lia || congruence).
    + assert (0 ≤ i < n_bits m) by divlia. destruct (Z.testbit _ _); simpl; intuition congruence.
Qed.

Lemma bitmap_union_spec m m2 :
  wf m → wf m2 →
  ∃ m', bitmap_union m m2 = Some m'
    ∧ becomes m m' (elems m ∪ (elems m2 ∩ universe (n_bits m))).
Proof.
  intros W W2. unfold bitmap_union. pose proof (words_eq m W). pose proof (words_eq m2 W2).
  pose proof (wf_length m W). pose proof (wf_length m2 W2). pose proof (wf_bits m W). pose proof (wf_bits m2 W2).
  set (last := (Nat.min _ _ - 1)%nat). set (n := Z.min (n_bits m) (n_bits m2)).
  assert (El : Z.of_nat last = (n + 63) / 64 - 1) by (subst last n; divlia).
  destruct (update_words_spec last 0 Z.lor (bitmap m) (bitmap m2)) as (b1 & -> & Hl1 & Hb1); [lia..|].
  cbn [mbind option_bind]. rewrite word_lookup by lia. cbn [mbind option_bind].
  match goal with |- context [set_word _ ?f _] =>
    destruct (set_word_spec last f (set_bitmap b1 m)) as (b' & -> & Hl & Hb) end; [cbn; lia|].
  cbn in Hl, Hb. eexists. split; [done|].
  apply (becomes_intro m b'); [done|lia| |set_solver|].
  - intros j. rewrite Hb, !Hb1. pose proof (wf_word m W). pose proof (wf_word m2 W2).
    repeat case_decide; auto 7 with word.
  - intros i Hi. destruct (word_of_lt m i W Hi) as [Hw Ei]. pose proof (Z.mod_pos_bound i 64).
    pose proof (elems_bit m i W Hi) as He. rewrite elem_of_union, <- He. set_unfold.
    unfold bit. rewrite Hb, !Hb1. fold (word_of i). repeat case_decide; try lia; subst n.
    + subst last. replace (Nat.min _ _ - 1)%nat with (word_of i).
      rewrite Z.lor_spec, Z.land_spec, not64_testbit, last_mask_bit by lia.
      pose proof (wf_bit m i W Hi) as Ht. unfold bit in Ht. fold (word_of i) in Ht.
      destruct (Z.testbit (word (bitmap m) _) _), (Z.testbit (word (bitmap m2) _) _),
        (Z.leb_spec (Z.min (n_bits m) (n_bits m2)) i); simpl in *; intuition (lia || congruence).
    + rewrite Z.lor_spec, orb_true_iff. assert (i < Z.min (n_bits m) (n_bits m2)) by divlia.
      intuition lia.
    + assert (n_bits m2 ≤ i) by divlia. intuition lia.
Qed.

Lemma bitmap_intersect_spec m m2 :
  wf m → wf m2 →
  ∃ m', bitmap_intersect m m2 = Some m' ∧ becomes m m' (elems m ∩ elems m2).
Proof.
  intros W W2. unfold bitmap_intersect. pose proof (words_eq m W). pose proof (words_eq m2 W2).
  pose proof (wf_length m W). pose proof (wf_length m2 W2). pose proof (wf_bits m W). pose proof (wf_bits m2 W2).
  set (to := Nat.min _ _).
  destruct (update_words_spec to 0 Z.land (bitmap m) (bitmap m2)) as (b1 & -> & Hl1 & Hb1); [lia..|].
  cbn [mbind option_bind]. pose proof (wf_word m W). pose proof (wf_word m2 W2).
  destruct (Nat.leb_spec (no_words_in_map m2) (no_words_in_map m)).
  - destruct to as [|last] eqn:Et; [lia|].
    match goal with |- context [set_word _ ?f _] =>
      destruct (set_word_spec last f (set_bitmap b1 m)) as (b2 & -> & Hl2 & Hb2) end; [cbn; lia|].
    cbn in Hl2, Hb2. cbn [mbind option_bind set_bitmap bitmap].
    destruct (fill_words_spec (no_words_in_map m - no_words_in_map m2) (S last) 0 b2)
      as (b' & -> & Hl & Hb); [lia|]. cbn [mbind option_bind].
    eexists. split; [done|]. apply (becomes_intro m b'); [done|lia| |set_solver|].
    + intros j. rewrite Hb, Hb2, !Hb1, (wf_mask m2 W2). repeat case_decide; auto 6 with word.
    + intros i Hi. destruct (word_of_lt m i W Hi) as [Hw Ei]. pose proof (Z.mod_pos_bound i 64).
      pose proof (elems_bit m i W Hi) as He. rewrite elem_of_intersection, <- He, elem_of_elems.
      unfold bit. rewrite Hb, Hb2, !Hb1, (wf_mask m2 W2). fold (word_of i).
      repeat case_decide; try lia.
      * rewrite Z.bits_0. assert (n_bits m2 ≤ i) by divlia. intuition (lia || congruence).
      * replace last with (word_of i).
        rewrite !Z.land_spec, not64_testbit, last_mask_bit by lia.
        destruct (Z.testbit (word (bitmap m) _) _), (Z.testbit (word (bitmap m2) _) _),
          (Z.leb_spec (n_bits m2) i); simpl in *; intuition (lia || congruence).
      * rewrite Z.land_spec, andb_true_iff. assert (i < n_bits m2) by divlia. intuition lia.
  - eexists. split; [done|]. apply (becomes_intro m b1); [done|lia| |set_solver|].
    + intros j. rewrite Hb1. case_decide; auto with word.
    + intros i Hi. destruct (word_of_lt m i W Hi) as [Hw Ei]. pose proof (Z.mod_pos_bound i 64).
      pose proof (elems_bit m i W Hi) as He. rewrite elem_of_intersection, <- He, elem_of_elems.
      unfold bit. rewrite !Hb1. fold (word_of i). rewrite decide_True by lia.
      rewrite Z.land_spec, andb_true_iff. assert (i < n_bits m2) by divlia. intuition lia.
Qed.

(** Copying from a bitmap with at least as many words. *)
Lemma bitmap_copy_spec m m2 :
  wf m → wf m2 → (no_words_in_map m ≤ no_words_in_map m2)%nat →
  ∃ m', bitmap_copy m m2 = Some m' ∧ becomes m m' (elems m2 ∩ universe (n_bits m)).
Proof.
  intros W W2 Hle. unfold bitmap_copy. pose proof (words_eq m W). pose proof (words_eq m2 W2).
  pose proof (wf_length m W). pose proof (wf_length m2 W2). pose proof (wf_bits m W). pose proof (wf_bits m2 W2).
  rewrite Nat.min_l, Nat.ltb_irrefl, Nat.div_mul by lia.
  destruct (update_words_spec (no_words_in_map m) 0 (λ _ w2, w2) (bitmap m) (bitmap m2))
    as (b1 & -> & Hl1 & Hb1); [lia..|]. cbn [mbind option_bind]. rewrite (wf_last m W), (wf_mask m W).
  match goal with |- context [set_word _ ?f _] =>
    destruct (set_word_spec (no_words_in_map m - 1) f (set_bitmap b1 m)) as (b' & -> & Hl & Hb) end;
    [cbn; lia|]. cbn in Hl, Hb. pose proof (wf_word m W). pose proof (wf_word m2 W2).
  eexists. split; [done|]. apply (becomes_intro m b'); [done|lia| |set_solver|].
  - intros j. rewrite Hb, !Hb1. repeat case_decide; auto 6 with word.
  - intros i Hi. destruct (word_of_lt m i W Hi) as [Hw Ei]. pose proof (Z.mod_pos_bound i 64).
    rewrite elem_of_intersection, elem_of_universe. unfold room in Hi.
    rewrite <- (elems_bit m2 i W2) by (unfold room; lia).
    unfold bit. rewrite Hb, !Hb1. fold (word_of i). repeat case_decide; try lia.
    + replace (no_words_in_map m - 1)%nat with (word_of i).
      rewrite Z.land_spec, not64_testbit, last_mask_bit, andb_true_iff, negb_true_iff by lia.
      destruct (Z.leb_spec (n_bits m) i); intuition (lia || congruence).
    + assert (i < n_bits m) by divlia. intuition lia.
Qed.

Lemma low_mask_word k : is_word (u64 (u64 (Z.shiftl 1 k) - 1)).
Proof. apply word_u64. Qed.
#[export] Hint Resolve low_mask_word : word.

(** The full words of a prefix and the word it ends in. *)
Lemma prefix_words_spec m p :
  wf m → 0 ≤ p ≤ n_bits m →
  ∃ b v, (b ← fill_words (Z.to_nat (p / 64)) 0 all_ones (bitmap m);
          if negb (p mod 64 =? 0) then
            b ← fill_words 1 (Z.to_nat (p / 64)) (u64 (u64 (Z.shiftl 1 (p mod 64)) - 1)) b;
            Some (b, S (Z.to_nat (p / 64)))
          else Some (b, Z.to_nat (p / 64))) = Some (b, v)
    ∧ length b = length (bitmap m) ∧ Z.of_nat v = (p + 63) / 64
    ∧ ∀ j, is_word (word b j) ∧ ∀ i, 0 ≤ i → word_of i = j → (j < v)%nat →
        Z.testbit (word b j) (i mod 64) = (i <? p).
Proof.
  intros W Hp. pose proof (words_eq m W). pose proof (wf_length m W). pose proof (wf_word m W) as Hw.
  set (q := Z.to_nat (p / 64)). assert (Z.of_nat q = p / 64) by (subst q; divlia).
  destruct (fill_words_spec q 0 all_ones (bitmap m)) as (b1 & -> & Hl1 & Hb1); [divlia|].
  cbn [mbind option_bind]. pose proof (Z.mod_pos_bound p 64).
  destruct (Z.eqb_spec (p mod 64) 0); cbn [negb].
  - exists b1, q. split_and!; [done..|divlia|]. intros j. rewrite Hb1. split; [case_decide; auto with word|].
    intros i Hi Ej Hj. rewrite decide_True by lia. rewrite ones_testbit by (apply Z.mod_pos_bound; lia).
    unfold word_of in Ej. divlia.
  - destruct (fill_words_spec 1 q (u64 (u64 (Z.shiftl 1 (p mod 64)) - 1)) b1) as (b2 & -> & Hl2 & Hb2); [divlia|].
    exists b2, (S q). split_and!; [done|congruence|divlia|]. intros j. rewrite Hb2, Hb1.
    split; [repeat case_decide; auto with word|]. intros i Hi Ej Hj. unfold word_of in Ej.
    case_decide; [rewrite low_mask_testbit by divlia; divlia|].
    rewrite decide_True by lia. rewrite ones_testbit by (apply Z.mod_pos_bound; lia). divlia.
Qed.

Lemma bitmap_set_prefix_spec m k :
  wf m → 0 ≤ k →
  ∃ m', bitmap_set_prefix m k = Some m' ∧ becomes m m' (universe (Z.min k (n_bits m))).
Proof.
  intros W Hk. unfold bitmap_set_prefix. pose proof (words_eq m W).
  pose proof (wf_length m W). pose proof (wf_bits m W). rewrite (wf_last m W), land_63.
  set (p := Z.min k (n_bits m)).
  destruct (prefix_words_spec m p W) as (b2 & v & E & Hl2 & Hv & Hb2); [subst p; lia|].
  destruct (fill_words _ 0 all_ones _) as [b1|]; [|done]. cbn [mbind option_bind] in *.
  rewrite E. cbn [mbind option_bind].
  destruct (fill_words_spec (S (no_words_in_map m - 1) - v) v 0 b2) as (b' & -> & Hl & Hb); [divlia|].
  eexists. split; [done|]. apply (becomes_intro m b'); [done|lia| | |].
  - intros j. rewrite Hb. case_decide; [done|apply Hb2].
  - set_solver by lia.
  - intros i Hi. destruct (word_of_lt m i W Hi) as [Hw Ei]. rewrite elem_of_universe.
    unfold bit. rewrite Hb. fold (word_of i). case_decide.
    + rewrite Z.bits_0. split; [done|]. intros ?. exfalso. divlia.
    + rewrite (proj2 (Hb2 _)) by (done || lia). lia.
Qed.

(** ** Tests *)

Lemma bit_at b j k : 0 ≤ k < 64 → bit b (64 * Z.of_nat j + k) = Z.testbit (word b j) k.
Proof. intros Hk. unfold bit. f_equal; [f_equal|]; divlia. Qed.

Lemma bit_word b i : 0 ≤ i → bit b i = Z.testbit (word b (word_of i)) (i mod 64).
Proof. done. Qed.

(** A test of words that holds when some of their bits pass [g]. *)
Definition tests (p : Z → bool) (g : bool → bool) : Prop :=
  ∀ w, is_word w → p w = true ↔ ∃ k, 0 ≤ k < 64 ∧ g (Z.testbit w k) = true.
Definition tests2 (p : Z → Z → bool) (g : bool → bool → bool) : Prop :=
  ∀ w w2, is_word w → is_word w2 →
    p w w2 = true ↔ ∃ k, 0 ≤ k < 64 ∧ g (Z.testbit w k) (Z.testbit w2 k) = true.

Lemma tests_nonzero : tests (λ w, negb (w =? 0)) id.
Proof. intros w Hw. rewrite negb_true_iff. by apply word_eq_0. Qed.

Lemma tests_not_ones : tests (λ w, negb (w =? all_ones)) negb.
Proof. intros w Hw. rewrite negb_true_iff. setoid_rewrite negb_true_iff. by apply word_eq_ones. Qed.

Lemma tests2_nonzero f g :
  (∀ w w2, is_word w → is_word w2 → is_word (f w w2) ∧ ∀ p, 0 ≤ p < 64 →
     Z.testbit (f w w2) p = g (Z.testbit w p) (Z.testbit w2 p)) →
  tests2 (λ w w2, negb (f w w2 =? 0)) g.
Proof.
  intros Hf w w2 Hw Hw2. destruct (Hf w w2 Hw Hw2) as [H1 H2].
  rewrite negb_true_iff, word_eq_0 by done. split; intros (k & Hk & E); exists k; split; try done.
  - by rewrite <- H2. - by rewrite H2.
Qed.

Lemma tests2_differ : tests2 (λ w w2, negb (w =? w2)) xorb.
Proof.
  intros w w2 Hw Hw2. rewrite negb_true_iff, Z.eqb_neq. split.
  - intros Hne. assert (Hx : is_word (Z.lxor w w2)) by auto with word.
    destruct (proj1 (word_eq_0 _ Hx)) as (k & Hk & E).
    + apply Z.eqb_neq. intros E. by apply Z.lxor_eq in E.
    + exists k. by rewrite Z.lxor_spec in E.
  - intros (k & Hk & E) ->. by rewrite xorb_nilpotent in E.
Qed.

(** The search for such a word is the search for such a bit. *)
Lemma find_word_bits n i0 p g m :
  wf m → tests p g → (i0 + n ≤ no_words_in_map m)%nat →
  ∃ r, find_word n i0 p (bitmap m) = Some r
    ∧ (r = None ↔ ∀ i, 64 * Z.of_nat i0 ≤ i < 64 * Z.of_nat (i0 + n) → g (bit (bitmap m) i) = false).
Proof.
  intros W Hp Hn. pose proof (wf_length m W) as Hlen.
  destruct (find_word_spec n i0 p (bitmap m)) as (r & -> & Hr); [lia|]. exists r. split; [done|]. split.
  - intros -> i Hi. destruct (g (bit (bitmap m) i)) eqn:E; [|done].
    rewrite <- (Hr (word_of i)) by (unfold word_of; divlia). symmetry. apply Hp; [apply W|].
    exists (i mod 64). split; [apply Z.mod_pos_bound; lia|done].
  - intros H. destruct r as [[j w]|]; [|done]. destruct Hr as (Hj & -> & Hw & _).
    apply Hp in Hw as (k & Hk & E); [|apply W]. rewrite <- bit_at, H in E by lia. done.
Qed.

Lemma find_pair_bits n p g m m2 :
  wf m → wf m2 → tests2 p g → (n ≤ no_words_in_map m)%nat → (n ≤ no_words_in_map m2)%nat →
  ∃ r, find_pair n 0 p (bitmap m) (bitmap m2) = Some r
    ∧ (r = true ↔ ∃ i, 0 ≤ i < 64 * Z.of_nat n ∧ g (bit (bitmap m) i) (bit (bitmap m2) i) = true).
Proof.
  intros W W2 Hp Hn Hn2. pose proof (wf_length m W). pose proof (wf_length m2 W2).
  destruct (find_pair_spec n 0 p (bitmap m) (bitmap m2)) as (r & -> & Hr); [lia..|].
  exists r. split; [done|]. rewrite Hr. split.
  - intros (j & Hj & Hw). apply Hp in Hw as (k & Hk & E); [|apply W|apply W2].
    exists (64 * Z.of_nat j + k). rewrite !bit_at by lia. split; [lia|done].
  - intros (i & Hi & E). exists (word_of i). split; [unfold word_of; divlia|].
    apply Hp; [apply W|apply W2|]. exists (i mod 64). split; [apply Z.mod_pos_bound; lia|done].
Qed.

Lemma bitmap_is_clear_all_spec m :
  wf m → bitmap_is_clear_all m = Some (bool_decide (elems m = ∅)).
Proof.
  intros W. unfold bitmap_is_clear_all. pose proof (words_eq m W). rewrite (wf_last m W).
  destruct (find_word_bits (S (no_words_in_map m - 1)) 0 _ id m W tests_nonzero) as (r & -> & Hr); [lia|].
  cbn [mbind option_bind]. f_equal. symmetry.
  destruct (room_spec m) as [Hroom _]; [apply W|].
  assert (G : r = None ↔ elems m = ∅).
  { rewrite Hr, set_eq. setoid_rewrite <- not_true_iff_false. split.
    - intros Hz i. specialize (Hz i). unfold room in *. set_solver by lia.
    - intros Hz i Hi E. apply (elems_bit m i W) in E; [|unfold room; lia]. set_solver. }
  destruct r; [apply bool_decide_eq_false|apply bool_decide_eq_true]; naive_solver.
Qed.

(** All used bits of the last word are set. *)
Lemma last_word_ones m :
  wf m →
  (Z.lor (word (bitmap m) (last_word_ptr m)) (map_last_bit_mask m) =? all_ones) = true ↔
  ∀ i, 64 * Z.of_nat (last_word_ptr m) ≤ i < n_bits m → bit (bitmap m) i = true.
Proof.
  intros W. rewrite (wf_mask m W), (wf_last m W). pose proof (words_eq m W) as Hwds.
  pose proof (wf_bits m W). pose proof (wf_word m W) as Hw.
  rewrite <- not_false_iff_true, word_eq_ones by auto with word. split.
  - intros Hn i Hi. destruct (bit (bitmap m) i) eqn:E; [done|]. destruct Hn.
    exists (i mod 64). split; [apply Z.mod_pos_bound; lia|].
    rewrite Z.lor_spec, last_mask_bit by divlia. unfold bit in E.
    replace (no_words_in_map m - 1)%nat with (Z.to_nat (i / 64)) by divlia. rewrite E. lia.
  - intros Ho (k & Hk & E). set (i := 64 * Z.of_nat (no_words_in_map m - 1) + k).
    replace k with (i mod 64) in E by (subst i; divlia).
    rewrite Z.lor_spec, last_mask_bit in E by (subst i; divlia).
    apply orb_false_iff in E as [E1 E2]. enough (bit (bitmap m) i = true) as Hb.
    + unfold bit in Hb. replace (Z.to_nat (i / 64)) with (no_words_in_map m - 1)%nat in Hb
        by (subst i; divlia). congruence.
    + apply Ho. apply Z.leb_gt in E2. lia.
Qed.

Lemma bitmap_is_set_all_spec m :
  wf m → bitmap_is_set_all m = Some (bool_decide (elems m = universe (n_bits m))).
Proof.
  intros W. unfold bitmap_is_set_all. pose proof (words_eq m W) as Hwds. pose proof (wf_length m W).
  pose proof (wf_bits m W).
  destruct (find_word_bits (last_word_ptr m) 0 _ negb m W tests_not_ones) as (r & -> & Hr);
    [rewrite (wf_last m W); lia|].
  cbn [mbind option_bind].
  assert (G : elems m = universe (n_bits m) ↔ ∀ i, 0 ≤ i < n_bits m → bit (bitmap m) i = true)
    by (rewrite set_eq; set_solver).
  setoid_rewrite negb_false_iff in Hr. destruct r as [x|].
  - f_equal. symmetry. apply bool_decide_eq_false. rewrite G. intros Ho.
    discriminate (proj2 Hr ltac:(intros i Hi; apply Ho; rewrite (wf_last m W) in Hi; divlia)).
  - rewrite word_lookup by (rewrite (wf_last m W); lia). cbn [mbind option_bind]. f_equal.
    apply eq_bool_prop_intro. rewrite Is_true_true, bool_decide_spec, last_word_ones, G by done.
    pose proof (proj1 Hr eq_refl) as Hl. split; [|intros Ho i Hi; apply Ho; lia].
    intros Ho i Hi. destruct (decide (i < 64 * Z.of_nat (last_word_ptr m))); [apply Hl|apply Ho]; lia.
Qed.

(** Comparing two bitmaps of one size by a test of their bits. *)
Lemma find_pair_elems p g m m2 :
  wf m → wf m2 → n_bits m2 = n_bits m → g false false = false → tests2 p g →
  ∃ r, find_pair (no_words_in_map m) 0 p (bitmap m) (bitmap m2) = Some r
    ∧ (r = true ↔ ∃ i, g (bool_decide (i ∈ elems m)) (bool_decide (i ∈ elems m2)) = true).
Proof.
  intros W W2 En Hg Hp.
  assert (no_words_in_map m2 = no_words_in_map m) as Ew by (unfold no_words_in_map; by rewrite En).
  destruct (find_pair_bits (no_words_in_map m) p g m m2) as (r & -> & Hr); [done..|lia|].
  destruct (room_spec m) as [Hroom _]; [apply W|].
  exists r. split; [done|]. rewrite Hr. unfold room in *. split.
  - intros (i & Hi & E). exists i.
    rewrite wf_bit, (wf_bit m2), En in E by (done || unfold room; rewrite ?Ew; lia).
    destruct (Z.ltb_spec i (n_bits m)); cbn [andb] in E; [|congruence].
    by rewrite !bool_decide_elems by lia.
  - intros (i & E). destruct (decide (0 ≤ i < n_bits m)) as [Hi|Hi].
    + exists i. rewrite !bool_decide_elems in E by lia. split; [lia|done].
    + rewrite !bool_decide_eq_false_2, Hg in E by set_solver by lia. done.
Qed.

Lemma last_words m : wf m → S (last_word_ptr m) = no_words_in_map m.
Proof. intros W. pose proof (words_eq m W). rewrite (wf_last m W). lia. Qed.

Lemma bitmap_is_subset_spec m m2 :
  wf m → wf m2 → n_bits m2 = n_bits m →
  bitmap_is_subset m m2 = Some (bool_decide (elems m ⊆ elems m2)).
Proof.
  intros W W2 En. unfold bitmap_is_subset. rewrite last_words by done.
  destruct (find_pair_elems (λ w w2, negb (Z.land w (not64 w2) =? 0)) (λ x y, x && negb y) m m2)
    as (r & -> & Hr); [done..| |].
  { apply (tests2_nonzero (λ w w2, Z.land w (not64 w2))). intros w w2 ??. split; [auto with word|].
    intros p Hp. by rewrite Z.land_spec, not64_testbit. }
  cbn [mbind option_bind]. f_equal. apply eq_bool_prop_intro.
  rewrite bool_decide_spec, negb_True, Is_true_true, Hr. split.
  - intros Hn i Hi. destruct (decide (i ∈ elems m2)); [done|]. destruct Hn. exists i.
    by rewrite bool_decide_eq_true_2, bool_decide_eq_false_2 by done.
  - intros Hs (i & E). rewrite andb_true_iff, negb_true_iff, bool_decide_eq_true, bool_decide_eq_false in E.
    set_solver.
Qed.

Lemma bitmap_is_overlapping_spec m m2 :
  wf m → wf m2 → n_bits m2 = n_bits m →
  bitmap_is_overlapping m m2 = Some (bool_decide (elems m ∩ elems m2 ≠ ∅)).
Proof.
  intros W W2 En. unfold bitmap_is_overlapping. rewrite last_words by done.
  destruct (find_pair_elems (λ w w2, negb (Z.land w w2 =? 0)) andb m m2) as (r & -> & Hr); [done..| |].
  { apply tests2_nonzero. intros w w2 ??. split; [auto with word|]. intros p Hp. apply Z.land_spec. }
  f_equal. apply eq_bool_prop_intro. rewrite bool_decide_spec, Is_true_true, Hr. split.
  - intros (i & E). rewrite andb_true_iff, !bool_decide_eq_true in E. set_solver.
  - intros Hn. apply set_choose_L in Hn as [i Hi]. exists i. apply elem_of_intersection in Hi as [??].
    by rewrite !bool_decide_eq_true_2 by done.
Qed.

Lemma bitmap_cmp_spec m m2 :
  wf m → wf m2 → n_bits m2 = n_bits m →
  bitmap_cmp m m2 = Some (bool_decide (elems m = elems m2)).
Proof.
  intros W W2 En. unfold bitmap_cmp. rewrite buffer_words by done.
  destruct (find_pair_elems (λ w w2, negb (w =? w2)) xorb m m2) as (r & -> & Hr);
    [done..|apply tests2_differ|].
  cbn [mbind option_bind]. f_equal. apply eq_bool_prop_intro.
  rewrite bool_decide_spec, negb_True, Is_true_true, Hr. split.
  - intros Hn. apply set_eq. intros i.
    destruct (xorb (bool_decide (i ∈ elems m)) (bool_decide (i ∈ elems m2))) eqn:E.
    + destruct Hn. by exists i.
    + apply xorb_eq in E. rewrite <- (bool_decide_eq_true (i ∈ elems m)), E. apply bool_decide_eq_true.
  - intros -> (i & E). by rewrite xorb_nilpotent in E.
Qed.

(** The bits from [lo] to [hi] are those of the prefix of [k] bits. *)
Definition prefix_on (b : list Z) (k lo hi : Z) : Prop := ∀ i, lo ≤ i < hi → bit b i = (i <? k).

Lemma prefix_on_app b k lo mid hi :
  lo ≤ mid ≤ hi → prefix_on b k lo hi ↔ prefix_on b k lo mid ∧ prefix_on b k mid hi.
Proof.
  intros Hm. split; [intros H; split; intros i Hi; apply H; lia|].
  intros [H1 H2] i Hi. destruct (decide (i < mid)); [apply H1|apply H2]; lia.
Qed.

Lemma prefix_on_elems m k :
  wf m → 0 ≤ k ≤ n_bits m → elems m = universe k ↔ prefix_on (bitmap m) k 0 (room m).
Proof.
  intros W Hk. destruct (room_spec m) as [Hroom _]; [apply W|]. rewrite set_eq. split.
  - intros H i Hi. specialize (H i). rewrite <- (elems_bit m i W Hi), elem_of_universe in H.
    destruct (bit _ _), (Z.ltb_spec i k); try done; intuition lia.
  - intros H i. rewrite elem_of_universe. split.
    + intros [Hi E]%elem_of_elems. rewrite H in E by lia. lia.
    + intros Hi. apply elem_of_elems. rewrite H by lia. lia.
Qed.

Lemma prefix_word b k q :
  is_word (word b q) → 0 < k mod 64 → Z.of_nat q = k / 64 →
  (word b q =? u64 (u64 (Z.shiftl 1 (k mod 64)) - 1)) = true ↔
  prefix_on b k (64 * Z.of_nat q) (64 * Z.of_nat q + 64).
Proof.
  intros Hw Hk Hq. pose proof (Z.mod_pos_bound k 64). rewrite Z.eqb_eq. split.
  - intros E i Hi. replace i with (64 * Z.of_nat q + (i - 64 * Z.of_nat q)) at 1 by lia.
    rewrite bit_at, E, low_mask_testbit by lia. divlia.
  - intros E. apply word_eq; [auto with word..|]. intros p Hp. rewrite <- bit_at by done.
    rewrite E, low_mask_testbit by lia. divlia.
Qed.

Lemma prefix_end_word m k q :
  wf m → 0 < k ≤ n_bits m → Z.of_nat q = k / 64 →
  ∃ ok v, (if negb (k mod 64 =? 0) then
      w ← bitmap m !! q; Some (w =? u64 (u64 (Z.shiftl 1 (k mod 64)) - 1), S q)
      else Some (true, q)) = Some (ok, v) ∧ (v ≤ no_words_in_map m)%nat ∧ (q ≤ v)%nat
    ∧ k ≤ 64 * Z.of_nat v
    ∧ (ok = true ↔ prefix_on (bitmap m) k (64 * Z.of_nat q) (64 * Z.of_nat v)).
Proof.
  intros W Hk Hq. pose proof (Z.mod_pos_bound k 64). pose proof (words_eq m W). pose proof (wf_length m W).
  destruct (Z.eqb_spec (k mod 64) 0); cbn [negb].
  - exists true, q. split_and!; [done|divlia..|]. split; [|done]. intros _ i Hi. lia.
  - rewrite word_lookup by divlia. cbn [mbind option_bind]. eexists _, (S q).
    split_and!; [done|divlia..|]. rewrite prefix_word by (apply W || lia).
    by replace (64 * Z.of_nat (S q)) with (64 * Z.of_nat q + 64) by lia.
Qed.

(** [bitmap_is_prefix] tests the words before the end of the prefix, the word
    it ends in, and the words after it. *)
Lemma bitmap_is_prefix_spec m k :
  wf m → 0 < k ≤ n_bits m →
  bitmap_is_prefix m k = Some (bool_decide (elems m = universe k)).
Proof.
  intros W Hk. unfold bitmap_is_prefix. pose proof (words_eq m W) as Hwds. pose proof (last_words m W) as Hl.
  pose proof (wf_length m W). pose proof (wf_bits m W). rewrite (proj2 (Z.eqb_neq _ _)) by lia.
  rewrite land_63. set (q := Z.to_nat (k / 64)). assert (Hq : Z.of_nat q = k / 64) by (subst q; divlia).
  pose proof (Z.mod_pos_bound k 64) as Hmod. pose proof (prefix_on_elems m k W ltac:(lia)) as Hp.
  assert (Hr : room m = 64 * Z.of_nat (no_words_in_map m)) by done.
  destruct (find_word_bits q 0 _ negb m W tests_not_ones) as (r1 & -> & H1); [divlia|].
  assert (H1' : r1 = None ↔ prefix_on (bitmap m) k 0 (64 * Z.of_nat q)).
  { rewrite H1. setoid_rewrite negb_false_iff. split; intros H' i Hi.
    - rewrite H' by lia. divlia. - rewrite H' by lia. divlia. }
  cbn [mbind option_bind]. rewrite (prefix_on_app _ _ _ (64 * Z.of_nat q)) in Hp by divlia.
  destruct r1 as [x|]; [rewrite bool_decide_eq_true_2 by done|rewrite bool_decide_eq_false_2 by (by intros [? ?])].
  { f_equal. symmetry. apply bool_decide_eq_false. naive_solver. }
  destruct (prefix_end_word m k q W) as (ok & v & -> & Hv & Hqv & Hkv & Hok); [lia..|]. cbn [mbind option_bind].
  rewrite (prefix_on_app _ _ (64 * Z.of_nat q) (64 * Z.of_nat v)) in Hp by lia.
  destruct ok; cbn [negb]; [|f_equal; symmetry; apply bool_decide_eq_false; naive_solver].
  rewrite Hl.
  destruct (find_word_bits (no_words_in_map m - v) v _ id m W tests_nonzero) as (r3 & -> & H3); [lia|].
  cbn [mbind option_bind].
  assert (H3' : r3 = None ↔ prefix_on (bitmap m) k (64 * Z.of_nat v) (room m)).
  { rewrite H3. unfold id. split; intros H' i Hi; rewrite H' by lia; lia. }
  destruct r3; f_equal; symmetry; [apply bool_decide_eq_false|apply bool_decide_eq_true]; naive_solver.
Qed.
