(* ===== verification/BitmapSearch.v ===== *)
(** * Searching and counting in bitmaps

    The searches for set and clear bits return the least element of the set or
    of its complement, the count is the size of the set, and a loop over
    [bitmap_get_next_set] visits the set in increasing order. *)

From stdpp Require Import sets gmap.
From S2P Require Import Prelude MyBit Bitmap BitmapFacts BitmapOps.

#[local] Open Scope Z_scope.

(** ** Searches *)

(** The least element from [k] on, or [MY_BIT_NONE]. *)
Definition least_from (X : gset Z) (k n : Z) : Z :=
  default MY_BIT_NONE (head (filter (λ i, i ∈ X) (seqZ k (n - k)))).

Lemma least_from_found X k n i :
  k ≤ i < n → i ∈ X → (∀ j, k ≤ j < i → j ∉ X) → least_from X k n = i.
Proof.
  intros Hi HX Hn. unfold least_from. replace (n - k) with ((i - k) + (n - i)) by lia.
  rewrite seqZ_app, list.filter_app, (filter_none _ (seqZ k (i - k))) by
    (lia || (intros j Hj%elem_of_seqZ; apply Hn; lia)).
  replace (k + (i - k)) with i by lia. rewrite seqZ_cons by lia. by rewrite filter_cons_True.
Qed.

Lemma least_from_none X k n : (∀ j, k ≤ j < n → j ∉ X) → least_from X k n = MY_BIT_NONE.
Proof.
  intros Hn. unfold least_from. rewrite filter_none; [done|]. intros j Hj%elem_of_seqZ. apply Hn. lia.
Qed.

(** The lowest bit of the first word that is not 0 is the first bit. *)
Lemma first_bit_word b j w :
  w = word b j → is_word w → (w =? 0) = false →
  ∃ k, my_find_first_bit w = Some k ∧ 0 ≤ k < 64 ∧ bit b (64 * Z.of_nat j + k) = true
    ∧ ∀ i, 64 * Z.of_nat j ≤ i < 64 * Z.of_nat j + k → bit b i = false.
Proof.
  intros -> Hw Hn. destruct (my_find_first_bit_spec _ Hw) as (k & Hk & Hs).
  rewrite Hn in Hs. destruct Hs as (? & H1 & H2). exists k. split_and!; [done|lia..| |].
  - by rewrite bit_at.
  - intros i Hi. replace i with (64 * Z.of_nat j + (i - 64 * Z.of_nat j)) by lia.
    rewrite bit_at by lia. apply H2. lia.
Qed.

Lemma bitmap_get_first_set_spec m :
  wf m → bitmap_get_first_set m = Some (least_from (elems m) 0 (n_bits m)).
Proof.
  intros W. unfold bitmap_get_first_set. rewrite last_words by done. pose proof (wf_length m W).
  destruct (room_spec m) as [Hroom _]; [apply W|]. pose proof (wf_bits m W). unfold room in *.
  destruct (find_word_spec (no_words_in_map m) 0 (λ w, negb (w =? 0)) (bitmap m)) as (r & -> & Hr); [lia|].
  cbn [mbind option_bind]. destruct r as [[j w]|].
  - destruct Hr as (Hj & Ew & Hw%negb_true_iff & Hz).
    destruct (first_bit_word (bitmap m) j w Ew) as (k & -> & Hk & Hb & Hlow); [subst; apply W|done|].
    cbn [mbind option_bind]. f_equal.
    assert (He : 64 * Z.of_nat j + k ∈ elems m) by (apply elems_bit; [done|unfold room; lia|done]).
    apply elem_of_elems in He as [He _]. symmetry.
    replace (u32 _) with (64 * Z.of_nat j + k) by (unfold u32; rewrite Z.mod_small; lia).
    apply least_from_found; [lia|set_solver|]. intros i Hi [_ E]%elem_of_elems.
    destruct (decide (i < 64 * Z.of_nat j)); [|rewrite Hlow in E by lia; done].
    specialize (Hz (word_of i) ltac:(unfold word_of; divlia)). apply negb_false_iff, Z.eqb_eq in Hz.
    rewrite bit_word, Hz, Z.bits_0 in E by lia. done.
  - f_equal. symmetry. apply least_from_none. intros i Hi [_ E]%elem_of_elems.
    specialize (Hr (word_of i) ltac:(unfold word_of; divlia)). apply negb_false_iff, Z.eqb_eq in Hr.
    rewrite bit_word, Hr, Z.bits_0 in E by lia. done.
Qed.

(** A word that is 0, or all ones, holds no set, or clear, bit. *)
Lemma zero_word b i : 0 ≤ i → negb (word b (word_of i) =? 0) = false → bit b i = false.
Proof. intros Hi E%negb_false_iff%Z.eqb_eq. by rewrite bit_word, E, Z.bits_0 by done. Qed.

Lemma ones_word b i : 0 ≤ i → negb (word b (word_of i) =? all_ones) = false → bit b i = true.
Proof.
  intros Hi E%negb_false_iff%Z.eqb_eq. rewrite bit_word, E, ones_testbit by (done || apply Z.mod_pos_bound; lia).
  pose proof (Z.mod_pos_bound i 64). lia.
Qed.

(** The bits of the word of [k], from [k] on. *)
Lemma first_word_bit w k p :
  0 ≤ p < 64 →
  Z.testbit (Z.land w (first_bit_mask_inv k)) p = Z.testbit w p && (k mod 64 <=? p).
Proof. intros Hp. by rewrite Z.land_spec, first_bit_mask_inv_testbit. Qed.

Lemma first_word_found m k :
  wf m → 0 ≤ k < n_bits m →
  let fw := Z.land (word (bitmap m) (word_of k)) (first_bit_mask_inv k) in
  if fw =? 0 then ∀ i, k ≤ i < k / 64 * 64 + 64 → bit (bitmap m) i = false
  else ∃ p, my_find_first_bit fw = Some p ∧ least_from (elems m) k (n_bits m) = p + k / 64 * 64.
Proof.
  intros W Hk fw. assert (Hfw : is_word fw) by (apply word_land; [apply W|apply word_nonneg, first_bit_mask_inv_word]).
  destruct (room_spec m) as [Hroom _]; [lia|].
  assert (Hbit : ∀ p, 0 ≤ p < 64 → Z.testbit fw p = bit (bitmap m) (p + k / 64 * 64) && (k mod 64 <=? p)).
  { intros p Hp. subst fw. rewrite first_word_bit by done. f_equal. rewrite bit_word by divlia.
    unfold word_of. f_equal; [do 2 f_equal|]; divlia. }
  destruct (fw =? 0) eqn:E.
  - apply Z.eqb_eq in E. intros i Hi. specialize (Hbit (i mod 64) ltac:(divlia)).
    rewrite E, Z.bits_0 in Hbit. replace (i mod 64 + k / 64 * 64) with i in Hbit by divlia.
    replace (k mod 64 <=? i mod 64) with true in Hbit by divlia. by rewrite andb_true_r in Hbit.
  - destruct (my_find_first_bit_spec fw Hfw) as (p & -> & Hp). rewrite E in Hp.
    destruct Hp as (Hp & H1 & H2). exists p. split; [done|].
    rewrite Hbit, andb_true_iff in H1 by done. destruct H1 as [Hb Hle].
    apply (elems_bit m) in Hb; [|done|unfold room in *; pose proof (words_eq m W); divlia].
    pose proof (proj1 (elem_of_elems _ _) Hb) as [??].
    apply least_from_found; [divlia|done|]. intros i Hi [_ Ei]%elem_of_elems.
    specialize (H2 (i mod 64) ltac:(divlia)). rewrite Hbit in H2 by divlia.
    replace (i mod 64 + k / 64 * 64) with i in H2 by divlia. rewrite Ei in H2. divlia.
Qed.

(** The words after the one of [k]. *)
Lemma later_word_found m k :
  wf m → 0 ≤ k < n_bits m →
  (∀ i, k ≤ i < k / 64 * 64 + 64 → bit (bitmap m) i = false) →
  ∃ r, find_word (last_word_ptr m - word_of k) (S (word_of k)) (λ w, negb (w =? 0)) (bitmap m) = Some r ∧
    match r with
    | Some (j, w) => ∃ p, my_find_first_bit w = Some p ∧ 0 ≤ p < 64 ∧ (word_of k < j)%nat
        ∧ 64 * Z.of_nat j + p < n_bits m ∧ least_from (elems m) k (n_bits m) = 64 * Z.of_nat j + p
    | None => least_from (elems m) k (n_bits m) = MY_BIT_NONE
    end.
Proof.
  intros W Hk Hf. pose proof (wf_length m W). destruct (room_spec m) as [Hroom _]; [lia|].
  unfold room in *. pose proof (words_eq m W) as Hwds. rewrite (wf_last m W).
  assert (Hj : Z.of_nat (word_of k) = k / 64) by (unfold word_of; divlia).
  destruct (find_word_spec (no_words_in_map m - 1 - word_of k) (S (word_of k)) (λ w, negb (w =? 0))
    (bitmap m)) as (r & -> & Hr); [divlia|]. exists r. split; [done|].
  assert (Hlow : ∀ i, k ≤ i < n_bits m →
    match r with Some (j, _) => i < 64 * Z.of_nat j | None => True end → bit (bitmap m) i = false).
  { intros i Hi Hlt. destruct (decide (i < k / 64 * 64 + 64)); [apply Hf; lia|].
    apply zero_word; [lia|]. destruct r as [[j w]|]; [apply (proj2 (proj2 (proj2 Hr)))|apply Hr];
      unfold word_of in *; divlia. }
  destruct r as [[j w]|].
  - destruct Hr as (Hjr & Ew & Hw%negb_true_iff & _).
    destruct (first_bit_word (bitmap m) j w Ew) as (p & -> & Hp & Hb & Hb'); [subst; apply W|done|].
    apply (elems_bit m) in Hb; [|done|unfold room; lia].
    pose proof (proj1 (elem_of_elems _ _) Hb) as [Hlt _].
    exists p. split_and!; [done|lia..|]. apply least_from_found; [divlia|done|].
    intros i Hi [_ Ei]%elem_of_elems.
    destruct (decide (i < 64 * Z.of_nat j)); [rewrite Hlow in Ei|rewrite Hb' in Ei]; done || lia.
  - apply least_from_none. intros i Hi [_ Ei]%elem_of_elems. by rewrite Hlow in Ei by lia.
Qed.

Lemma least_from_bound X k n : 0 ≤ k → n < 2 ^ 32 → 0 ≤ least_from X k n < 2 ^ 32.
Proof.
  intros Hk Hn. unfold least_from. destruct (head _) as [i|] eqn:E; [|done].
  apply head_Some_elem_of in E. apply list_elem_of_filter in E as [_ E%elem_of_seqZ]. simpl. lia.
Qed.

Lemma bitmap_get_next_set_spec m b :
  wf m → bitmap_get_next_set m b = Some (least_from (elems m) (u32 (b + 1)) (n_bits m)).
Proof.
  intros W. unfold bitmap_get_next_set. pose proof (wf_length m W). pose proof (wf_bits m W).
  pose proof (words_eq m W) as Hwds. pose proof (Z.mod_pos_bound (b + 1) (2 ^ 32)) as Hk.
  fold (u32 (b + 1)) in Hk. set (k := u32 (b + 1)) in *. rewrite Z.geb_leb.
  destruct (Z.leb_spec (n_bits m) k).
  { f_equal. symmetry. apply least_from_none. lia. }
  fold (word_of k). assert (Hj : Z.of_nat (word_of k) = k / 64) by (unfold word_of; divlia).
  rewrite word_lookup by divlia. cbn [mbind option_bind].
  rewrite align_spec by lia. pose proof (first_word_found m k W ltac:(lia)) as Hf. cbv zeta in Hf.
  pose proof (least_from_bound (elems m) k (n_bits m)) as Hb.
  assert (Hfw : is_word (Z.land (word (bitmap m) (word_of k)) (first_bit_mask_inv k)))
    by (apply word_land; [apply W|apply word_nonneg, first_bit_mask_inv_word]).
  rewrite mask_read, first_word_bit, Z.leb_refl, andb_true_r by (done || apply Z.mod_pos_bound; lia).
  set (fw := Z.land _ _) in *. destruct (fw =? 0) eqn:E; cbn [negb].
  - destruct (later_word_found m k W ltac:(lia) Hf) as (r & -> & Hr). cbn [mbind option_bind].
    destruct r as [[j w]|]; [|by rewrite Hr]. destruct Hr as (p & -> & Hp & Hlt & Hn & ->).
    cbn [mbind option_bind]. f_equal. unfold u32. rewrite (Z.mod_small (k + _)), align_spec by divlia.
    rewrite Z.mod_small; divlia.
  - destruct Hf as (p & -> & Hp). rewrite <- bit_word by lia.
    destruct (bit (bitmap m) k) eqn:Eb.
    + f_equal. symmetry. apply least_from_found; [lia| |lia]. apply elem_of_elems. split; [lia|done].
    + cbn [mbind option_bind]. rewrite <- Hp. f_equal. apply Z.mod_small. lia.
Qed.

(** The first clear bit, in the first word that is not all ones. *)
Lemma first_clear_word b j w :
  w = word b j → is_word w → (w =? all_ones) = false →
  ∃ k, my_find_first_bit (not64 w) = Some k ∧ 0 ≤ k < 64 ∧ bit b (64 * Z.of_nat j + k) = false
    ∧ ∀ i, 64 * Z.of_nat j ≤ i < 64 * Z.of_nat j + k → bit b i = true.
Proof.
  intros -> Hw Hn. assert (Hc : is_word (not64 (word b j))) by auto with word.
  destruct (my_find_first_bit_spec _ Hc) as (k & Hk & Hs).
  assert ((not64 (word b j) =? 0) = false) as E.
  { apply word_eq_0; [done|]. apply word_eq_ones in Hn as (p & Hp & E); [|done].
    exists p. by rewrite not64_testbit, E. }
  rewrite E in Hs. destruct Hs as (Hk' & H1 & H2). exists k. split_and!; [done|lia..| |].
  - rewrite not64_testbit in H1 by lia. rewrite bit_at by done. by apply negb_true_iff.
  - intros i Hi. replace i with (64 * Z.of_nat j + (i - 64 * Z.of_nat j)) by lia.
    rewrite bit_at by lia. specialize (H2 (i - 64 * Z.of_nat j) ltac:(lia)).
    rewrite not64_testbit in H2 by lia. by apply negb_false_iff.
Qed.

Lemma first_clear_found m j w :
  wf m → w = word (bitmap m) j → (w =? all_ones) = false →
  (∀ k, (k < j)%nat → negb (word (bitmap m) k =? all_ones) = false) →
  (∃ i, bit (bitmap m) i = false ∧ 64 * Z.of_nat j ≤ i < 64 * Z.of_nat j + 64 ∧ i < n_bits m) →
  (k ← my_find_first_bit (not64 w); Some (u32 (k + Z.of_nat j * 8 * 8))) =
  Some (least_from (universe (n_bits m) ∖ elems m) 0 (n_bits m)).
Proof.
  intros W Ew Hw Hlow (c & Hc & Hcj & Hcn). pose proof (wf_bits m W).
  destruct (first_clear_word (bitmap m) j w Ew) as (k & -> & Hk & Hb & Hb'); [subst; apply W|done|].
  cbn [mbind option_bind]. f_equal. symmetry.
  assert (Hkc : 64 * Z.of_nat j + k ≤ c).
  { destruct (decide (64 * Z.of_nat j + k ≤ c)); [done|]. rewrite Hb' in Hc by lia. done. }
  replace (u32 _) with (64 * Z.of_nat j + k) by (unfold u32; rewrite Z.mod_small; lia).
  apply least_from_found; [lia|set_unfold; rewrite Hb; intuition lia|].
  intros i Hi [_ Hn]%elem_of_difference. destruct Hn. apply elem_of_elems. split; [lia|].
  destruct (decide (i < 64 * Z.of_nat j)); [|apply Hb'; lia].
  apply ones_word; [lia|]. apply Hlow. unfold word_of. divlia.
Qed.

Lemma bitmap_get_first_clear_spec m :
  wf m →
  bitmap_get_first_clear m = Some (least_from (universe (n_bits m) ∖ elems m) 0 (n_bits m)).
Proof.
  intros W. unfold bitmap_get_first_clear. pose proof (wf_length m W). pose proof (wf_bits m W).
  pose proof (last_words m W) as Hl. destruct (room_spec m) as [Hroom _]; [lia|]. unfold room in *.
  pose proof (words_eq m W) as Hwds.
  destruct (find_word_spec (last_word_ptr m) 0 (λ w, negb (w =? all_ones)) (bitmap m))
    as (r & -> & Hr); [lia|]. cbn [mbind option_bind]. destruct r as [[j w]|].
  - destruct Hr as (Hj & Ew & Hw%negb_true_iff & Hlow). apply first_clear_found; [done..| |].
    + intros k Hk. apply Hlow. lia.
    + apply word_eq_ones in Hw as (p & Hp & E); [|subst; apply W].
      exists (64 * Z.of_nat j + p). rewrite bit_at by done. split_and!; [by subst|lia..|divlia].
  - rewrite word_lookup by lia. cbn [mbind option_bind].
    pose proof (last_word_ones m W) as Ho. destruct (Z.lor _ _ =? all_ones).
    + f_equal. symmetry. apply least_from_none. intros i Hi [_ Hn]%elem_of_difference. destruct Hn.
      apply elem_of_elems. split; [lia|].
      destruct (decide (64 * Z.of_nat (last_word_ptr m) ≤ i)); [apply Ho; [done|lia]|].
      apply ones_word; [lia|]. apply Hr. unfold word_of. divlia.
    + assert (Hc : ∃ i, bit (bitmap m) i = false ∧ 64 * Z.of_nat (last_word_ptr m) ≤ i < n_bits m).
      { destruct (decide (Forall (λ i, bit (bitmap m) i = true)
          (seqZ (64 * Z.of_nat (last_word_ptr m)) (n_bits m - 64 * Z.of_nat (last_word_ptr m))))) as [F|F].
        - rewrite list.Forall_forall in F. enough (false = true) by done. apply Ho. intros i Hi.
          apply F, elem_of_seqZ. lia.
        - apply not_Forall_Exists, list.Exists_exists in F as (i & Hi%elem_of_seqZ & E); [|apply _].
          exists i. split; [by apply not_true_is_false|lia]. }
      destruct Hc as (i & Hc & Hi). apply first_clear_found; [done..| | |].
      * apply word_eq_ones; [apply W|]. exists (i mod 64). split; [apply Z.mod_pos_bound; lia|].
        rewrite <- Hc. unfold bit. do 2 f_equal. divlia.
      * intros k Hk. apply Hr. lia.
      * exists i. split_and!; [done|lia..].
Qed.

Lemma bitmap_set_next_spec m :
  wf m →
  let k := least_from (universe (n_bits m) ∖ elems m) 0 (n_bits m) in
  ∃ m', bitmap_set_next m = Some (m', k)
    ∧ becomes m m' (if k =? MY_BIT_NONE then elems m else {[k]} ∪ elems m).
Proof.
  intros W k. unfold bitmap_set_next. rewrite bitmap_get_first_clear_spec by done.
  cbn [mbind option_bind]. fold k. destruct (k =? MY_BIT_NONE) eqn:E; cbn [negb].
  { exists m. by split_and!. }
  destruct (bitmap_set_bit_spec m k W) as (m' & -> & B).
  { subst k. unfold least_from in *. destruct (head _) as [i|] eqn:Eh; [|done].
    apply head_Some_elem_of in Eh. apply list_elem_of_filter in Eh as [_ Eh%elem_of_seqZ]. simpl. lia. }
  by exists m'.
Qed.

(** ** Counting *)

Lemma popcount_filter n w :
  popcount n w = Z.of_nat (length (filter (λ k, Z.testbit w k = true) (seqZ 0 (Z.of_nat n)))).
Proof.
  revert w. induction n as [|n IH]; intros w; [done|]. cbn [popcount]. rewrite IH.
  rewrite Nat2Z.inj_succ, (seqZ_cons 0 (Z.succ _)), Z.pred_succ by lia.
  change (Z.succ 0) with (1 + 0). rewrite <- fmap_add_seqZ.
  rewrite filter_cons, Z.bit0_odd, filter_map.
  rewrite (filter_ext_in (λ k, Z.testbit w (1 + k) = true) (λ k, Z.testbit (Z.div2 w) k = true)).
  - case_decide as E; [rewrite E|apply not_true_is_false in E; rewrite E]; simpl length;
      rewrite length_fmap; simpl Z.b2z; lia.
  - intros k Hk%elem_of_seqZ. by rewrite Z.div2_spec, Z.shiftr_spec, Z.add_comm by lia.
Qed.

(** The bits set in [n] words from word [i]. *)
Definition bits_in (b : list Z) (i n : nat) : list Z :=
  filter (λ k, bit b k = true) (seqZ (64 * Z.of_nat i) (64 * Z.of_nat n)).

Lemma count_loop_spec n i res b :
  (i + n ≤ length b)%nat → (∀ j, is_word (word b j)) →
  count_loop n i (u32 res) b = Some (u32 (res + Z.of_nat (length (bits_in b i n)))).
Proof.
  intros Hb Hw. revert i res Hb. induction n as [|n IH]; intros i res Hb; cbn [count_loop].
  { unfold bits_in. simpl. do 2 f_equal. lia. }
  rewrite word_lookup by lia. cbn [mbind option_bind].
  rewrite my_count_bits_spec by apply Hw. unfold u32 at 1 2. rewrite Z.add_mod_idemp_l by done.
  fold (u32 (res + popcount 64 (word b i))). rewrite IH by lia. do 2 f_equal.
  unfold bits_in. replace (64 * Z.of_nat (S n)) with (64 + 64 * Z.of_nat n) by lia. rewrite seqZ_app by lia.
  rewrite list.filter_app, length_app, popcount_filter, Nat2Z.inj_add, Z.add_assoc.
  replace (64 * Z.of_nat (S i)) with (64 * Z.of_nat i + 64) by lia. f_equal. f_equal. f_equal.
  rewrite <- (Z.add_0_r (64 * Z.of_nat i)) at 1. rewrite <- fmap_add_seqZ, filter_map, length_fmap.
  f_equal. apply filter_ext_in. intros k Hk%elem_of_seqZ. rewrite bit_at; [done|lia].
Qed.

Lemma elems_bits_in m : wf m → elems m = list_to_set (bits_in (bitmap m) 0 (no_words_in_map m)).
Proof.
  intros W. apply set_eq. intros i. rewrite elem_of_list_to_set. unfold bits_in.
  rewrite list_elem_of_filter, elem_of_seqZ. destruct (room_spec m) as [Hroom _]; [apply W|]. unfold room in *.
  split.
  - intros [? ?]%elem_of_elems. split; [done|lia].
  - intros [? ?]. apply elems_bit; [done|unfold room; lia|done].
Qed.

Lemma size_elems m :
  wf m → Z.of_nat (size (elems m)) = Z.of_nat (length (bits_in (bitmap m) 0 (no_words_in_map m)))
    ∧ 0 ≤ Z.of_nat (size (elems m)) ≤ n_bits m.
Proof.
  intros W. pose proof (wf_bits m W). split.
  - rewrite elems_bits_in by done. rewrite size_list_to_set; [done|]. apply list.NoDup_filter, NoDup_seqZ.
  - split; [lia|]. unfold elems. rewrite size_list_to_set by apply list.NoDup_filter, NoDup_seqZ.
    eapply Z.le_trans; [apply inj_le, length_filter|]. rewrite length_seqZ. lia.
Qed.

Lemma bitmap_bits_set_spec m : wf m → bitmap_bits_set m = Some (Z.of_nat (size (elems m))).
Proof.
  intros W. unfold bitmap_bits_set. pose proof (wf_length m W). pose proof (wf_bits m W).
  change (count_loop ?n 0 0 ?b) with (count_loop n 0 (u32 0) b). rewrite last_words, count_loop_spec by (done || lia || apply W).
  destruct (size_elems m W) as [E ?]. rewrite E in *. f_equal. apply Z.mod_small. lia.
Qed.

(** ** Common bits of several bitmaps *)

Lemma and_words_spec maps i cur :
  Forall wf maps → is_word cur → Forall (λ m, i < no_words_in_map m)%nat maps →
  ∃ r, and_words cur maps i = Some r ∧ is_word r
    ∧ ∀ p, 0 ≤ p < 64 → Z.testbit r p =
        Z.testbit cur p && forallb (λ m, Z.testbit (word (bitmap m) i) p) maps.
Proof.
  revert cur. induction maps as [|m maps IH]; intros cur HW Hc Hi; cbn [and_words forallb].
  { exists cur. split_and!; [done|apply Hc..|]. intros. by rewrite andb_true_r. }
  inversion_clear HW as [|?? W HW']. inversion_clear Hi as [|?? Hi1 Hi'].
  destruct (Z.eqb_spec cur 0) as [->|].
  { exists 0. split_and!; [done..|]. intros. by rewrite Z.bits_0. }
  pose proof (wf_length m W). rewrite word_lookup by lia. cbn [mbind option_bind].
  destruct (IH (Z.land cur (word (bitmap m) i))) as (r & -> & Hr & Ht); [done| |done|].
  { apply word_land; [done|apply W]. }
  exists r. split_and!; [done|apply Hr..|]. intros p Hp. by rewrite Ht, Z.land_spec, andb_assoc.
Qed.

(** The bit is set in all the maps. *)
Definition in_all (maps : list MY_BITMAP) (i : Z) : Prop := ∀ m, m ∈ maps → bit (bitmap m) i = true.

Lemma in_all_forallb maps i :
  forallb (λ m, Z.testbit (word (bitmap m) (word_of i)) (i mod 64)) maps = true ↔ in_all maps i.
Proof.
  rewrite forallb_forall. unfold in_all, bit. setoid_rewrite list_elem_of_In. done.
Qed.

(** One turn: some bit of word [i] is in [cur] and in all the maps. *)
Lemma and_words_bits maps i cur :
  Forall wf maps → is_word cur → Forall (λ m, i < no_words_in_map m)%nat maps →
  ∃ r, and_words cur maps i = Some r
    ∧ (negb (r =? 0) = true ↔ ∃ k, word_of k = i ∧ 0 ≤ k ∧ Z.testbit cur (k mod 64) = true ∧ in_all maps k).
Proof.
  intros HW Hc Hi. destruct (and_words_spec maps i cur HW Hc Hi) as (r & -> & Hr & Ht).
  exists r. split; [done|]. rewrite negb_true_iff, word_eq_0 by done. split.
  - intros (p & Hp & E). exists (64 * Z.of_nat i + p).
    assert (word_of (64 * Z.of_nat i + p) = i) as Ei by (unfold word_of; divlia).
    assert ((64 * Z.of_nat i + p) mod 64 = p) as Ep by divlia.
    rewrite Ht, andb_true_iff in E by done. rewrite <- in_all_forallb, Ei, Ep. split_and!; [done|lia|apply E..].
  - intros (k & <- & Hk & Hcur & Hall). exists (k mod 64). pose proof (Z.mod_pos_bound k 64).
    split; [lia|]. rewrite Ht, Hcur by lia. by apply in_all_forallb.
Qed.

Lemma exists_loop_spec n i cur maps :
  Forall wf maps → is_word cur → Forall (λ m, i + n ≤ no_words_in_map m)%nat maps →
  ∃ r, exists_loop n i cur maps = Some r ∧
    (r = true ↔ ∃ k, (i ≤ word_of k < i + n)%nat ∧ 0 ≤ k
       ∧ (word_of k = i → Z.testbit cur (k mod 64) = true) ∧ in_all maps k).
Proof.
  intros HW. revert i cur. induction n as [|n IH]; intros i cur Hc Hi; cbn [exists_loop].
  { exists false. split; [done|]. split; [done|]. intros (k & ? & _). lia. }
  destruct (and_words_bits maps i cur HW Hc) as (w & -> & Hw).
  { eapply list.Forall_impl; [apply Hi|]. intros m. simpl. lia. }
  cbn [mbind option_bind]. destruct (negb (w =? 0)).
  { exists true. split; [done|]. split; [|done]. intros _. destruct (proj1 Hw eq_refl) as (k & <- & ? & ? & ?).
    exists k. split_and!; [lia..|done|done]. }
  destruct (IH (S i) all_ones word_ones) as (r & -> & Hr).
  { eapply list.Forall_impl; [apply Hi|]. intros m. simpl. lia. }
  exists r. split; [done|]. rewrite Hr. split.
  - intros (k & ? & ? & _ & ?). exists k. split_and!; [lia..| |done]. lia.
  - intros (k & Hk & Hk0 & Hcur & Hall). exists k. destruct (decide (word_of k = i)) as [E|E].
    { discriminate (proj2 Hw). exists k. split_and!; auto. }
    split_and!; [lia..| |done]. intros _. rewrite ones_testbit; pose proof (Z.mod_pos_bound k 64); lia.
Qed.

(** The mask of the last word of the range. *)
Lemma end_mask_bit e k :
  0 ≤ k → 0 ≤ e < 2 ^ 32 - 1 → word_of k = word_of e →
  Z.testbit (not64 (last_bit_mask (u32 (e + 1)))) (k mod 64) = (k <=? e).
Proof.
  intros Hk He Ew. pose proof (Z.mod_pos_bound k 64). unfold u32. rewrite Z.mod_small by lia.
  unfold word_of in Ew. rewrite not64_testbit, last_mask_bit by divlia.
  destruct (Z.leb_spec (e + 1) k), (Z.leb_spec k e); done || lia.
Qed.

Lemma range_mask_bit s e k :
  0 ≤ s ≤ e → e < 2 ^ 32 - 1 → 0 ≤ k → word_of k = word_of e →
  let cur := not64 (last_bit_mask (u32 (e + 1))) in
  Z.testbit (if (word_of s =? word_of e)%nat then Z.land cur (first_bit_mask_inv s) else cur) (k mod 64)
  = (k <=? e) && (s <=? k).
Proof.
  intros Hse He Hk Ew. pose proof (Z.mod_pos_bound k 64). cbv zeta.
  destruct (Nat.eqb_spec (word_of s) (word_of e)) as [E|E].
  - rewrite Z.land_spec, end_mask_bit, first_bit_mask_inv_testbit by lia. f_equal.
    unfold word_of in *. divlia.
  - rewrite end_mask_bit by lia. unfold word_of in *.
    destruct (Z.leb_spec s k); [by rewrite andb_true_r|]. divlia.
Qed.

Lemma bitmap_exists_intersection_spec maps s e :
  Forall wf maps → 0 ≤ s ≤ e → Forall (λ m, e < n_bits m) maps → e < 2 ^ 32 - 1 →
  ∃ r, bitmap_exists_intersection maps s e = Some r
    ∧ (r = true ↔ ∃ i, s ≤ i ≤ e ∧ in_all maps i).
Proof.
  intros HW Hse He He32. unfold bitmap_exists_intersection.
  replace (s / 8 / 8) with (s / 64) by divlia. replace (e / 8 / 8) with (e / 64) by divlia.
  fold (word_of s) (word_of e).
  assert (Hwe : Forall (λ m, word_of e < no_words_in_map m)%nat maps).
  { rewrite list.Forall_forall in *. intros m Hm. destruct (room_spec m) as [Hroom _]; [by apply HW|].
    apply (word_of_lt m e); [by apply HW|]. specialize (He m Hm). simpl in He. lia. }
  assert (Hws : (word_of s ≤ word_of e)%nat) by (unfold word_of; divlia).
  destruct (exists_loop_spec (word_of e - word_of s) (word_of s) (first_bit_mask_inv s) maps)
    as (r1 & -> & H1); [done|auto with word| |].
  { eapply list.Forall_impl; [apply Hwe|]. intros m. simpl. lia. }
  cbn [mbind option_bind]. destruct r1.
  { exists true. split; [done|]. split; [|done]. intros _.
    destruct (proj1 H1 eq_refl) as (k & Hk & Hk0 & Hm & Hall). exists k. split; [|done].
    unfold word_of in *. destruct (decide (k / 64 = s / 64)) as [E|]; [|divlia].
    rewrite E in Hm. specialize (Hm eq_refl). rewrite first_bit_mask_inv_testbit in Hm by divlia. divlia. }
  set (cur := if (word_of s =? word_of e)%nat then _ else _).
  assert (Hcur : is_word cur) by (subst cur; case_match; auto with word).
  destruct (and_words_bits maps (word_of e) cur) as (r & -> & Hr); [done..|]. cbn [mbind option_bind].
  eexists. split; [done|]. rewrite Hr.
  pose proof (λ k, range_mask_bit s e k Hse He32) as Hbit. fold cur in Hbit.
  split.
  - intros (k & Ew & Hk & Ht & Hall). exists k. rewrite Hbit, andb_true_iff in Ht by done. split; [lia|done].
  - intros (k & Hk & Hall). destruct (decide (word_of k = word_of e)) as [E|E].
    + exists k. rewrite Hbit by (done || lia). split_and!; [done|lia|lia|done].
    + discriminate (proj2 H1). exists k. split_and!; [unfold word_of in *; divlia..|lia| |done].
      intros Es. rewrite first_bit_mask_inv_testbit by (apply Z.mod_pos_bound; lia).
      unfold word_of in *. divlia.
Qed.
