(* ===== verification/BitmapRefine.v ===== *)
(** * The contract of bitmaps

    The operations as calls, their meaning on finite sets, and the theorems
    that the code implements it; the loop over the set bits; initialisation. *)

From stdpp Require Import sets gmap.
From S2P Require Import Prelude MyBit Bitmap BitmapFacts BitmapOps BitmapSearch.

#[local] Open Scope Z_scope.

(** ** Calls that change a bitmap *)

Inductive update :=
  | Set_bit (bit : Z)
  | Clear_bit (bit : Z)
  | Flip_bit (bit : Z)
  | Test_and_set (bit : Z)
  | Test_and_clear (bit : Z)
  | Set_next
  | Set_all
  | Clear_all
  | Set_prefix (prefix_size : Z)
  | Union (map2 : MY_BITMAP)
  | Intersect (map2 : MY_BITMAP)
  | Subtract (map2 : MY_BITMAP)
  | Xor (map2 : MY_BITMAP)
  | Invert
  | Copy (map2 : MY_BITMAP).

(** The returned value is 0 for a function that returns none. *)
Definition void (r : option MY_BITMAP) : option (MY_BITMAP * Z) := m ← r; Some (m, 0).
Definition bool_result (r : option (MY_BITMAP * bool)) : option (MY_BITMAP * Z) :=
  '(m, b) ← r; Some (m, Z.b2z b).

Definition run_update (u : update) (m : MY_BITMAP) : option (MY_BITMAP * Z) :=
  match u with
  | Set_bit k => void (bitmap_set_bit m k)
  | Clear_bit k => void (bitmap_clear_bit m k)
  | Flip_bit k => void (bitmap_flip_bit m k)
  | Test_and_set k => bool_result (bitmap_test_and_set m k)
  | Test_and_clear k => bool_result (bitmap_test_and_clear m k)
  | Set_next => bitmap_set_next m
  | Set_all => void (bitmap_set_all m)
  | Clear_all => void (bitmap_clear_all m)
  | Set_prefix k => void (bitmap_set_prefix m k)
  | Union m2 => void (bitmap_union m m2)
  | Intersect m2 => void (bitmap_intersect m m2)
  | Subtract m2 => void (bitmap_subtract m m2)
  | Xor m2 => void (bitmap_xor m m2)
  | Invert => void (bitmap_invert m)
  | Copy m2 => void (bitmap_copy m m2)
  end.

(** What the assertions of the code ask of the arguments; [bitmap_copy] also
    needs a source that is not shorter than the destination. *)
Definition may_update (u : update) (m : MY_BITMAP) : Prop :=
  match u with
  | Set_bit k | Clear_bit k | Flip_bit k | Test_and_set k | Test_and_clear k => 0 ≤ k < n_bits m
  | Set_prefix k => 0 ≤ k
  | Union m2 | Intersect m2 => wf m2
  | Subtract m2 | Xor m2 => wf m2 ∧ n_bits m2 = n_bits m
  | Copy m2 => wf m2 ∧ (no_words_in_map m ≤ no_words_in_map m2)%nat
  | Set_next | Set_all | Clear_all | Invert => True
  end.

(** The new set and the returned value, for a set of numbers below [n]. *)
Definition spec_update (u : update) (n : Z) (X : gset Z) : gset Z * Z :=
  match u with
  | Set_bit k => ({[k]} ∪ X, 0)
  | Clear_bit k => (X ∖ {[k]}, 0)
  | Flip_bit k => (if decide (k ∈ X) then X ∖ {[k]} else {[k]} ∪ X, 0)
  | Test_and_set k => ({[k]} ∪ X, Z.b2z (bool_decide (k ∈ X)))
  | Test_and_clear k => (X ∖ {[k]}, Z.b2z (bool_decide (k ∈ X)))
  | Set_next =>
    let k := least_from (universe n ∖ X) 0 n in
    (if k =? MY_BIT_NONE then X else {[k]} ∪ X, k)
  | Set_all => (universe n, 0)
  | Clear_all => (∅, 0)
  | Set_prefix k => (universe (Z.min k n), 0)
  | Union m2 => (X ∪ (elems m2 ∩ universe n), 0)
  | Intersect m2 => (X ∩ elems m2, 0)
  | Subtract m2 => (X ∖ elems m2, 0)
  | Xor m2 => (sym_diff X (elems m2), 0)
  | Invert => (universe n ∖ X, 0)
  | Copy m2 => (elems m2 ∩ universe n, 0)
  end.

(** ** Calls that read a bitmap *)

Inductive query :=
  | Is_set (bit : Z)
  | Is_prefix (prefix_size : Z)
  | Is_set_all
  | Is_clear_all
  | Is_subset (map2 : MY_BITMAP)
  | Is_overlapping (map2 : MY_BITMAP)
  | Exists_intersection (maps : list MY_BITMAP) (start_bit end_bit : Z)
  | Cmp (map2 : MY_BITMAP)
  | Bits_set
  | Get_first_set
  | Get_next_set (bit : Z)
  | Get_first_clear.

(** The bitmap is the first one of the array of [bitmap_exists_intersection]. *)
Definition run_query (q : query) (m : MY_BITMAP) : option Z :=
  match q with
  | Is_set k => Z.b2z <$> bitmap_is_set m k
  | Is_prefix k => Z.b2z <$> bitmap_is_prefix m k
  | Is_set_all => Z.b2z <$> bitmap_is_set_all m
  | Is_clear_all => Z.b2z <$> bitmap_is_clear_all m
  | Is_subset m2 => Z.b2z <$> bitmap_is_subset m m2
  | Is_overlapping m2 => Z.b2z <$> bitmap_is_overlapping m m2
  | Exists_intersection maps start_bit end_bit =>
    Z.b2z <$> bitmap_exists_intersection (m :: maps) start_bit end_bit
  | Cmp m2 => Z.b2z <$> bitmap_cmp m m2
  | Bits_set => bitmap_bits_set m
  | Get_first_set => bitmap_get_first_set m
  | Get_next_set k => bitmap_get_next_set m k
  | Get_first_clear => bitmap_get_first_clear m
  end.

Definition may_query (q : query) (m : MY_BITMAP) : Prop :=
  match q with
  | Is_set k => 0 ≤ k < n_bits m
  | Is_prefix k => 0 ≤ k ≤ n_bits m
  | Is_subset m2 | Is_overlapping m2 | Cmp m2 => wf m2 ∧ n_bits m2 = n_bits m
  | Exists_intersection maps start_bit end_bit =>
    0 ≤ start_bit ≤ end_bit ∧ end_bit < n_bits m ∧ Forall (λ m2, wf m2 ∧ end_bit < n_bits m2) maps
  | _ => True
  end.

(** The numbers of the set that are in all the bitmaps too. *)
Definition in_all (maps : list MY_BITMAP) (X : gset Z) : gset Z := foldr (λ m2 Y, elems m2 ∩ Y) X maps.

(** A prefix of no bits is one of every bitmap. *)
Definition spec_query (q : query) (n : Z) (X : gset Z) : Z :=
  match q with
  | Is_set k => Z.b2z (bool_decide (k ∈ X))
  | Is_prefix k => Z.b2z (bool_decide (k = 0 ∨ X = universe k))
  | Is_set_all => Z.b2z (bool_decide (X = universe n))
  | Is_clear_all => Z.b2z (bool_decide (X = ∅))
  | Is_subset m2 => Z.b2z (bool_decide (X ⊆ elems m2))
  | Is_overlapping m2 => Z.b2z (bool_decide (X ∩ elems m2 ≠ ∅))
  | Exists_intersection maps start_bit end_bit =>
    Z.b2z (bool_decide (in_all maps X ∩ list_to_set (seqZ start_bit (end_bit + 1 - start_bit)) ≠ ∅))
  | Cmp m2 => Z.b2z (bool_decide (X = elems m2))
  | Bits_set => Z.of_nat (size X)
  | Get_first_set => least_from X 0 n
  | Get_next_set k => least_from X (u32 (k + 1)) n
  | Get_first_clear => least_from (universe n ∖ X) 0 n
  end.

(** ** The loop over the set bits

    [for (i= bitmap_get_first_set(map); i < n; i= bitmap_get_next_set(map, i))],
    as the partition handler writes it; the result is the list of the values
    of [i].  A turn for every bit and one more are enough. *)
Fixpoint scan_loop (fuel : nat) (m : MY_BITMAP) (i : Z) : option (list Z) :=
  match fuel with
  | O => None
  | S fuel =>
    if i <? n_bits m then
      next ← bitmap_get_next_set m i;
      rest ← scan_loop fuel m next;
      Some (i :: rest)
    else Some []
  end.

Definition scan (m : MY_BITMAP) : option (list Z) :=
  i ← bitmap_get_first_set m; scan_loop (S (Z.to_nat (n_bits m))) m i.

(** ** Theorems *)

(** C6. Every operation that changes a bitmap, called with arguments that its
    assertions allow, and [bitmap_copy] with a source that has no fewer words than
    the destination (it writes outside the buffer otherwise, and nothing
    asserts this: [bitmap_copy_leaves_buffer]), returns; the bitmap stays well formed (in
    particular its unused bits stay 0), keeps its size, and stands for the set that
    the operation is to compute; the returned value is the one on sets. *)
Theorem bitmap_updates_refine_sets m u :
  wf m → may_update u m →
  ∃ m' r, run_update u m = Some (m', r) ∧ wf m' ∧ n_bits m' = n_bits m
    ∧ (elems m', r) = spec_update u (n_bits m) (elems m).
Proof.
  intros W Hu.
  assert (Hvoid : ∀ f X, (∃ m', f = Some m' ∧ becomes m m' X) →
    ∃ m' r, void f = Some (m', r) ∧ wf m' ∧ n_bits m' = n_bits m ∧ (elems m', r) = (X, 0)).
  { intros f X (m' & -> & ? & ? & <-). by exists m', 0. }
  assert (Hbool : ∀ f X b, (∃ m', f = Some (m', b) ∧ becomes m m' X) →
    ∃ m' r, bool_result f = Some (m', r) ∧ wf m' ∧ n_bits m' = n_bits m ∧ (elems m', r) = (X, Z.b2z b)).
  { intros f X b (m' & -> & ? & ? & <-). by exists m', (Z.b2z b). }
  destruct u; cbn [run_update may_update spec_update] in *;
    try (apply Hvoid; intuition auto using bitmap_set_bit_spec, bitmap_clear_bit_spec,
      bitmap_flip_bit_spec, bitmap_set_all_spec, bitmap_clear_all_spec, bitmap_set_prefix_spec,
      bitmap_union_spec, bitmap_intersect_spec, bitmap_subtract_spec, bitmap_xor_spec,
      bitmap_invert_spec, bitmap_copy_spec).
  - by apply Hbool, bitmap_test_and_set_spec.
  - by apply Hbool, bitmap_test_and_clear_spec.
  - destruct (bitmap_set_next_spec m W) as (m' & -> & ? & ? & <-). by eexists _, _.
Qed.

(** [bitmap_exists_intersection] says whether some bit of the range, its ends
    included, is in all the bitmaps. *)
Lemma bitmap_exists_intersection_iff maps start_bit end_bit :
  Forall wf maps → maps ≠ [] → 0 ≤ start_bit ≤ end_bit → Forall (λ m, end_bit < n_bits m) maps →
  ∃ r, bitmap_exists_intersection maps start_bit end_bit = Some r
    ∧ (r = true ↔ ∃ i, start_bit ≤ i ≤ end_bit ∧ ∀ m, m ∈ maps → i ∈ elems m).
Proof.
  intros HW Hne Hse He. rewrite list.Forall_forall in He.
  destruct (bitmap_exists_intersection_spec maps start_bit end_bit) as (r & -> & Hr); [done..| | |].
  { by apply list.Forall_forall. }
  { destruct maps as [|m maps]; [done|]. inversion_clear HW as [|?? W _].
    specialize (He m (list_elem_of_here _ _)). pose proof (wf_bits m W). lia. }
  exists r. split; [done|]. rewrite Hr. split; intros (i & Hi & H); exists i; (split; [done|]); intros m Hm.
  - apply elem_of_elems. specialize (He m Hm). split; [lia|by apply H].
  - by apply H, elem_of_elems in Hm as [_ ?].
Qed.

Lemma elem_of_in_all maps X i : i ∈ in_all maps X ↔ i ∈ X ∧ ∀ m2, m2 ∈ maps → i ∈ elems m2.
Proof.
  unfold in_all. induction maps as [|m2 maps IH]; cbn [foldr].
  - split; [|naive_solver]. intros HX. split; [done|]. intros m2 Hm. by apply not_elem_of_nil in Hm.
  - rewrite elem_of_intersection, IH. setoid_rewrite elem_of_cons. naive_solver.
Qed.

Lemma non_empty_elem (Y : gset Z) : Y ≠ ∅ ↔ ∃ i, i ∈ Y.
Proof. split; [apply set_choose_L|set_solver]. Qed.

Lemma exists_intersection_answer m maps start_bit end_bit :
  wf m → may_query (Exists_intersection maps start_bit end_bit) m →
  bitmap_exists_intersection (m :: maps) start_bit end_bit
  = Some (bool_decide (in_all maps (elems m) ∩ list_to_set (seqZ start_bit (end_bit + 1 - start_bit)) ≠ ∅)).
Proof.
  intros W (Hse & He & Hmaps). rewrite list.Forall_forall in Hmaps.
  destruct (bitmap_exists_intersection_iff (m :: maps) start_bit end_bit) as (r & -> & Hr); [|done|done| |].
  - constructor; [done|]. apply list.Forall_forall. intros m2 Hm. by apply Hmaps.
  - constructor; [done|]. apply list.Forall_forall. intros m2 Hm. by apply Hmaps.
  - f_equal. apply Bool.eq_iff_eq_true. rewrite Hr, bool_decide_eq_true, non_empty_elem.
    setoid_rewrite elem_of_intersection. setoid_rewrite elem_of_in_all. setoid_rewrite elem_of_list_to_set.
    setoid_rewrite elem_of_seqZ. setoid_rewrite elem_of_cons. split; intros (i & H); exists i.
    + destruct H as [Hi Hall]. split_and!; [by apply Hall; left|intros m2 Hm; by apply Hall; right|lia|lia].
    + destruct H as [[HX Hall] Hi]. split; [lia|]. intros m2 [->|Hm]; auto.
Qed.

Lemma is_prefix_answer m k :
  wf m → 0 ≤ k ≤ n_bits m → bitmap_is_prefix m k = Some (bool_decide (k = 0 ∨ elems m = universe k)).
Proof.
  intros W Hk. destruct (decide (k = 0)) as [->|Hne]; [by rewrite bool_decide_eq_true_2 by (by left)|].
  rewrite bitmap_is_prefix_spec by (done || lia). f_equal. apply bool_decide_ext. naive_solver.
Qed.

(** C34. The tests, counts and searches on bitmaps, called with arguments that their
    assertions allow, return the answer for the sets the bitmaps stand for; a
    prefix of no bits is one of every set, as the comment above
    [bitmap_is_prefix] says. [bitmap_union_is_set_all], whose answer is wrong, is
    not one of them. *)
Theorem bitmap_queries_answer_sets m q :
  wf m → may_query q m → run_query q m = Some (spec_query q (n_bits m) (elems m)).
Proof.
  intros W Hq. destruct q; cbn [run_query may_query spec_query] in *.
  - by rewrite bitmap_is_set_spec.
  - by rewrite is_prefix_answer.
  - by rewrite bitmap_is_set_all_spec.
  - by rewrite bitmap_is_clear_all_spec.
  - destruct Hq. by rewrite bitmap_is_subset_spec.
  - destruct Hq. by rewrite bitmap_is_overlapping_spec.
  - by rewrite exists_intersection_answer.
  - destruct Hq. by rewrite bitmap_cmp_spec.
  - by apply bitmap_bits_set_spec.
  - by apply bitmap_get_first_set_spec.
  - by apply bitmap_get_next_set_spec.
  - by apply bitmap_get_first_clear_spec.
Qed.

Lemma filter_seqZ_head (P : Z → Prop) `{!∀ x, Decision (P x)} k n :
  filter P (seqZ k (n - k)) = [] ∨
  ∃ i, k ≤ i < n ∧ filter P (seqZ k (n - k)) = i :: filter P (seqZ (i + 1) (n - (i + 1))).
Proof.
  remember (Z.to_nat (n - k)) as l eqn:El. revert k El. induction l as [|l IH]; intros k El.
  { left. by rewrite seqZ_nil by lia. }
  rewrite seqZ_cons by lia. replace (Z.pred (n - k)) with (n - Z.succ k) by lia.
  rewrite filter_cons. case_decide.
  - right. exists k. split; [lia|]. by rewrite Z.add_1_r.
  - destruct (IH (Z.succ k)) as [E|(i & Hi & E)]; [lia|by left|]. right. exists i. split; [lia|done].
Qed.

Lemma scan_loop_spec m fuel k :
  wf m → 0 ≤ k → (length (filter (λ i, i ∈ elems m) (seqZ k (n_bits m - k))) < fuel)%nat →
  scan_loop fuel m (least_from (elems m) k (n_bits m)) =
  Some (filter (λ i, i ∈ elems m) (seqZ k (n_bits m - k))).
Proof.
  intros W. pose proof (wf_bits m W). revert k. induction fuel as [|fuel IH]; intros k Hk Hf; [lia|].
  unfold least_from.
  destruct (filter_seqZ_head (λ i, i ∈ elems m) k (n_bits m)) as [E|(i & Hi & E)]; rewrite E in *.
  - cbn [scan_loop head default]. unfold MY_BIT_NONE. by rewrite (proj2 (Z.ltb_ge _ _)) by (simpl; lia).
  - cbn [scan_loop head default]. rewrite (proj2 (Z.ltb_lt _ _)) by (simpl; lia).
    rewrite bitmap_get_next_set_spec by done. cbn [mbind option_bind].
    unfold u32. unfold id. rewrite Z.mod_small by lia.
    rewrite IH by (simpl in Hf; lia). done.
Qed.

(** The loop over the set bits ends and visits each bit of the set once, in
    increasing order. *)
Theorem scan_visits_elems m :
  wf m → scan m = Some (filter (λ i, i ∈ elems m) (seqZ 0 (n_bits m))).
Proof.
  intros W. unfold scan. rewrite bitmap_get_first_set_spec by done. cbn [mbind option_bind].
  pose proof (scan_loop_spec m (S (Z.to_nat (n_bits m))) 0 W) as H. rewrite Z.sub_0_r in H.
  apply H; [done|]. pose proof (length_filter (λ i, i ∈ elems m) (seqZ 0 (n_bits m))) as Hl.
  rewrite length_seqZ in Hl. lia.
Qed.

(** ** Initialisation *)

Lemma word_buf b : (∀ w, w ∈ b → is_word w) → ∀ j, is_word (word b j).
Proof.
  intros Hw j. unfold word. destruct (b !! j) eqn:E; simpl; [|done].
  by eapply Hw, list_elem_of_lookup_2.
Qed.

(** The mask of the last word makes any buffer of enough words a bitmap. *)
Lemma create_last_bit_mask_spec m :
  0 < n_bits m < 2 ^ 32 → (∀ j, is_word (word (bitmap m) j)) →
  (no_words_in_map m ≤ length (bitmap m))%nat →
  ∃ m', create_last_bit_mask m = Some m' ∧ wf m' ∧ n_bits m' = n_bits m
    ∧ bitmap_allocated m' = bitmap_allocated m.
Proof.
  intros Hn Hw Hl. unfold create_last_bit_mask. cbn [n_bits last_word_ptr].
  assert (Hpos : (0 < no_words_in_map m)%nat) by (unfold no_words_in_map; divlia).
  rewrite (proj2 (Z.ltb_lt _ _)) by lia. rewrite Nat.max_l by lia.
  set (m1 := mk_bitmap _ _ _ _ _).
  destruct (set_word_spec (no_words_in_map m - 1) (λ w, Z.land w (not64 (last_bit_mask (n_bits m)))) m1)
    as (b' & -> & Hl' & Hb'); [cbn; lia|]. cbn in Hl', Hb'.
  assert (Hw' : ∀ j, is_word (word b' j)) by (intros j; rewrite Hb'; case_decide; auto with word).
  eexists. split; [done|]. split; [|done]. split; try done; cbn.
  - change (no_words_in_map m ≤ length b')%nat. lia.
  - rewrite Hb', decide_True by done. apply word_eq; [auto 6 with word..|]. intros k Hk.
    rewrite !Z.land_spec, not64_testbit, Z.bits_0 by done.
    destruct (Z.testbit (last_bit_mask _) _); [by rewrite andb_false_r|apply andb_false_r].
Qed.

(** [my_bitmap_init] with a buffer of enough words, whatever they hold, gives the
    empty set; when it has to allocate and there is no memory it returns 1 and
    the null pointer. *)
Theorem my_bitmap_init_spec malloc map buf n :
  0 < n < 2 ^ 32 → (∀ w, w ∈ buf → is_word w) → bitmap_buffer_size n ≤ 8 * Z.of_nat (length buf) →
  (∃ m, my_bitmap_init malloc map (Some buf) n = Some (m, false)
     ∧ wf m ∧ n_bits m = n ∧ elems m = ∅ ∧ bitmap_allocated m = false)
  ∧ (malloc (bitmap_buffer_size n) = None →
     ∃ m, my_bitmap_init malloc map None n = Some (m, true) ∧ bitmap m = []).
Proof.
  intros Hn Hw Hb. assert (Hsize : 0 ≤ bitmap_buffer_size n < 2 ^ 32
    ∧ bitmap_buffer_size n = 8 * ((n + 63) / 64)).
  { unfold bitmap_buffer_size. rewrite align_spec by lia. divlia. }
  unfold my_bitmap_init. split.
  - match goal with |- context [create_last_bit_mask ?m] => set (m0 := m) end.
    destruct (create_last_bit_mask_spec m0) as (m1 & -> & W1 & Hn1 & Ha1); [done|by apply word_buf| |].
    { unfold no_words_in_map. cbn. lia. }
    cbn [mbind option_bind]. destruct (bitmap_clear_all_spec m1 W1) as (m' & E & W' & Hn' & He').
    rewrite E. cbn [mbind option_bind]. exists m'. split_and!; [done|apply W'..| | |].
    + by rewrite Hn', Hn1.
    + done.
    + unfold bitmap_clear_all in E. destruct (fill_words _ _ _ _); simplify_eq/=. done.
  - intros Hm. unfold u32. rewrite Z.mod_small, Hm by lia. by eexists.
Qed.
