(* ===== verification/BitmapIO.v ===== *)
(** * Export and import of bitmaps

    The two versions of the code, for big and for little endian machines,
    write the same bytes and read them alike, and reading back what was
    written gives the set back. *)

From stdpp Require Import sets gmap.
From S2P Require Import Prelude MyBit Bitmap BitmapFacts BitmapOps.

#[local] Open Scope Z_scope.

(** ** Bytes *)

(** Bit [i] of a piece of memory, the low byte first. *)
Definition mem_bit (mem : list Z) (i : Z) : bool :=
  Z.testbit (word mem (Z.to_nat (i / 8))) (i mod 8).

Lemma word_app_l l1 l2 j : (j < length l1)%nat → word (l1 ++ l2) j = word l1 j.
Proof. intros. unfold word. by rewrite lookup_app_l. Qed.

Lemma word_app_r l1 l2 j : (length l1 ≤ j)%nat → word (l1 ++ l2) j = word l2 (j - length l1).
Proof. intros. unfold word. by rewrite lookup_app_r. Qed.

Lemma mem_bit_app mem1 mem2 i :
  0 ≤ i → mem_bit (mem1 ++ mem2) i =
    if i <? 8 * Z.of_nat (length mem1) then mem_bit mem1 i
    else mem_bit mem2 (i - 8 * Z.of_nat (length mem1)).
Proof.
  intros Hi. unfold mem_bit. destruct (Z.ltb_spec i (8 * Z.of_nat (length mem1))).
  - by rewrite word_app_l by divlia.
  - rewrite word_app_r by divlia. f_equal; [f_equal|]; divlia.
Qed.

Lemma mem_bit_take n mem i :
  0 ≤ i < 8 * Z.of_nat n → mem_bit (take n mem) i = mem_bit mem i.
Proof. intros Hi. unfold mem_bit, word. by rewrite lookup_take_lt by divlia. Qed.

Lemma mem_bit_drop n mem i :
  0 ≤ i → mem_bit (drop n mem) i = mem_bit mem (i + 8 * Z.of_nat n).
Proof.
  intros Hi. unfold mem_bit, word. rewrite lookup_drop. f_equal; [do 2 f_equal|]; divlia.
Qed.

Lemma u8_testbit x p : 0 ≤ p < 8 → Z.testbit (u8 x) p = Z.testbit x p.
Proof. intros. apply Z.mod_pow2_bits_low. lia. Qed.

Lemma u32_testbit x p : 0 ≤ p < 32 → Z.testbit (u32 x) p = Z.testbit x p.
Proof. intros. apply Z.mod_pow2_bits_low. lia. Qed.

Lemma int4store_spec A :
  length (int4store A) = 4%nat ∧ Forall is_byte (int4store A)
  ∧ ∀ i, 0 ≤ i < 32 → mem_bit (int4store A) i = Z.testbit A i.
Proof.
  split_and!; [done|by repeat constructor; apply Z.mod_pos_bound|].
  intros i Hi. unfold mem_bit, word. pose proof (Z.mod_pos_bound i 8).
  assert (Hc : i / 8 = 0 ∨ i / 8 = 1 ∨ i / 8 = 2 ∨ i / 8 = 3) by divlia.
  destruct Hc as [E|[E|[E|E]]]; rewrite E; simpl default; rewrite u8_testbit, ?Z.shiftr_spec by lia;
    f_equal; divlia.
Qed.

Lemma int8store_spec w :
  length (int8store w) = 8%nat ∧ Forall is_byte (int8store w)
  ∧ ∀ i, 0 ≤ i < 64 → mem_bit (int8store w) i = Z.testbit w i.
Proof.
  unfold int8store. destruct (int4store_spec (u32 w)) as (L1 & F1 & B1).
  destruct (int4store_spec (u32 (Z.shiftr w 32))) as (L2 & F2 & B2).
  split_and!; [by rewrite length_app, L1, L2|by apply Forall_app|].
  intros i Hi. rewrite mem_bit_app, L1 by lia. destruct (Z.ltb_spec i (8 * Z.of_nat 4)).
  - by rewrite B1, u32_testbit by lia.
  - rewrite B2, u32_testbit, Z.shiftr_spec by lia. f_equal. lia.
Qed.

Lemma word4_lor_low d0 d1 d2 d3 :
  is_byte d0 → is_byte d1 → is_byte d2 → is_byte d3 →
  Z.lor (Z.lor (Z.lor d0 (Z.shiftl d1 8)) (Z.shiftl d2 16)) (Z.shiftl d3 24) = word4 d0 d1 d2 d3.
Proof.
  intros. rewrite <- word4_lor by done. apply Z.bits_inj'. intros i _. rewrite !Z.lor_spec.
  by destruct (Z.testbit d0 i), (Z.testbit _ i), (Z.testbit _ i), (Z.testbit _ i).
Qed.

Lemma word4_mem_bit d0 d1 d2 d3 rest i :
  is_byte d0 → is_byte d1 → is_byte d2 → is_byte d3 → 0 ≤ i < 32 →
  Z.testbit (word4 d0 d1 d2 d3) i = mem_bit (d0 :: d1 :: d2 :: d3 :: rest) i.
Proof.
  intros. rewrite word4_testbit by (done || lia). unfold mem_bit, word.
  destruct (Z.ltb_spec i 8); [|destruct (Z.ltb_spec i 16); [|destruct (Z.ltb_spec i 24)]].
  - replace (i / 8) with 0 by divlia. simpl. f_equal. divlia.
  - replace (i / 8) with 1 by divlia. simpl. f_equal. divlia.
  - replace (i / 8) with 2 by divlia. simpl. f_equal. divlia.
  - replace (i / 8) with 3 by divlia. simpl. f_equal. divlia.
Qed.

Lemma uint8korr_spec A :
  (8 ≤ length A)%nat → Forall is_byte A →
  ∃ w, uint8korr A = Some w ∧ is_word w ∧ ∀ i, 0 ≤ i < 64 → Z.testbit w i = mem_bit A i.
Proof.
  intros HL HF. destruct A as [|a0 [|a1 [|a2 [|a3 [|a4 [|a5 [|a6 [|a7 rest]]]]]]]]; simpl in HL; try lia.
  repeat match goal with H : Forall _ (_ :: _) |- _ => inversion_clear H end.
  eexists. split; [done|]. rewrite !word4_lor_low by done.
  assert (Hlo : 0 ≤ word4 a0 a1 a2 a3 < 2 ^ 32) by (unfold word4, is_byte in *; lia).
  assert (Hhi : 0 ≤ word4 a4 a5 a6 a7 < 2 ^ 32) by (unfold word4, is_byte in *; lia).
  assert (E : Z.lor (word4 a0 a1 a2 a3) (Z.shiftl (word4 a4 a5 a6 a7) 32) =
    word4 a0 a1 a2 a3 + 2 ^ 32 * word4 a4 a5 a6 a7).
  { apply Z.bits_inj'. intros i Hi. rewrite Z.lor_spec, Z.shiftl_spec, testbit_split by lia.
    destruct (Z.ltb_spec i 32); [by rewrite (Z.testbit_neg_r _ (i - 32)), orb_false_r by lia|].
    by rewrite (proj1 (Z.bounded_iff_bits_nonneg 32 _ ltac:(done) (proj1 Hlo)) (proj2 Hlo)) by lia. }
  rewrite E. split; [unfold is_word; lia|]. intros i Hi. rewrite testbit_split by lia.
  destruct (Z.ltb_spec i 32); [apply word4_mem_bit; done || lia|].
  rewrite (word4_mem_bit a4 a5 a6 a7 rest) by (done || lia). unfold mem_bit, word.
  replace (Z.to_nat (i / 8)) with (4 + Z.to_nat ((i - 32) / 8))%nat by divlia.
  simpl. f_equal. divlia.
Qed.

(** ** The memory of a little endian machine *)

Lemma memory_spec b :
  length (LittleEndian.memory b) = (8 * length b)%nat ∧ Forall is_byte (LittleEndian.memory b)
  ∧ ∀ i, 0 ≤ i < 64 * Z.of_nat (length b) → mem_bit (LittleEndian.memory b) i = bit b i.
Proof.
  induction b as [|w b (L & F & B)]; [split_and!; [done..|simpl; lia]|]. destruct (int8store_spec w) as (L8 & F8 & B8).
  cbn [LittleEndian.memory length]. rewrite length_app, L, L8. split_and!; [lia|by apply Forall_app|].
  intros i Hi. rewrite mem_bit_app, L8 by lia. destruct (Z.ltb_spec i (8 * Z.of_nat 8)).
  - rewrite B8 by lia. unfold bit. replace (i / 64) with 0 by divlia. simpl. f_equal. divlia.
  - rewrite B by lia. unfold bit.
    replace (Z.to_nat (i / 64)) with (S (Z.to_nat ((i - 8 * Z.of_nat 8) / 64))) by divlia.
    cbn [word lookup list_lookup]. f_equal. divlia.
Qed.

Lemma words_spec n mem :
  (8 * n ≤ length mem)%nat → Forall is_byte mem →
  ∃ b, LittleEndian.words n mem = Some b ∧ length b = n ∧ (∀ j, is_word (word b j))
    ∧ ∀ i, 0 ≤ i < 64 * Z.of_nat n → bit b i = mem_bit mem i.
Proof.
  revert mem. induction n as [|n IH]; intros mem HL HF; cbn [LittleEndian.words].
  { exists []. split_and!; [done..| |]; [intros j; by destruct j|lia]. }
  destruct (uint8korr_spec mem) as (w & -> & Hw & Bw); [lia|done|]. cbn [mbind option_bind].
  destruct (IH (drop 8 mem)) as (b & -> & L & Hb & B); [rewrite length_drop; lia|by apply Forall_drop|].
  cbn [mbind option_bind]. exists (w :: b). split_and!; [done|by simpl; rewrite L| |].
  - intros [|j]; [done|apply Hb].
  - intros i Hi. destruct (decide (i < 64)).
    + unfold bit. replace (i / 64) with 0 by divlia. rewrite <- Bw by lia. simpl. f_equal. divlia.
    + replace (mem_bit mem i) with (mem_bit (drop 8 mem) (i - 64))
        by (rewrite mem_bit_drop by lia; f_equal; lia).
      rewrite <- B by lia. unfold bit.
      replace (Z.to_nat (i / 64)) with (S (Z.to_nat ((i - 64) / 64))) by divlia.
      cbn [word lookup list_lookup]. f_equal. divlia.
Qed.

(** ** Export *)

(** The bytes that are written: those of the words before the last, and from
    one to eight of the last word. *)
Definition tail_bytes (m : MY_BITMAP) : nat := (1 + Nat.land (no_bytes_in_export_map m + 7) 7)%nat.

Lemma no_bytes_spec m :
  wf m → n_bits m ≤ 2 ^ 32 - 8 →
  Z.of_nat (no_bytes_in_export_map m) = (n_bits m + 7) / 8
  ∧ no_bytes_in_export_map m = (8 * last_word_ptr m + tail_bytes m)%nat
  ∧ (1 ≤ tail_bytes m ≤ 8)%nat.
Proof.
  intros W Hn. pose proof (wf_bits m W). pose proof (words_eq m W). rewrite (wf_last m W).
  assert (E : Z.of_nat (no_bytes_in_export_map m) = (n_bits m + 7) / 8).
  { unfold no_bytes_in_export_map, u32. rewrite Z.mod_small by lia. divlia. }
  unfold tail_bytes. rewrite (Nat.land_ones _ 3 : Nat.land (no_bytes_in_export_map m + 7) 7 = _ mod 8)%nat.
  split_and!; divlia.
Qed.

Lemma memory_app b1 b2 :
  LittleEndian.memory (b1 ++ b2) = LittleEndian.memory b1 ++ LittleEndian.memory b2.
Proof. induction b1 as [|w b1 IH]; [done|]. cbn [app LittleEndian.memory]. by rewrite IH, app_assoc. Qed.

Lemma export_loop_spec n i b :
  (i + n ≤ length b)%nat →
  BigEndian.export_loop n i b = Some (LittleEndian.memory (take n (drop i b))).
Proof.
  revert i. induction n as [|n IH]; intros i Hb; cbn [BigEndian.export_loop]; [done|].
  destruct (lookup_lt_is_Some_2 b i) as [w E]; [lia|]. rewrite E. cbn [mbind option_bind].
  rewrite IH by lia. cbn [mbind option_bind]. by rewrite (drop_S b w i E).
Qed.

(** Both versions write the same bytes. *)
Lemma export_agree m :
  wf m → n_bits m ≤ 2 ^ 32 - 8 →
  let bytes := take (no_bytes_in_export_map m) (LittleEndian.memory (bitmap m)) in
  LittleEndian.bitmap_export m = Some bytes ∧ BigEndian.bitmap_export m = Some bytes
  ∧ length bytes = no_bytes_in_export_map m ∧ Forall is_byte bytes
  ∧ ∀ i, 0 ≤ i < n_bits m → mem_bit bytes i = bit (bitmap m) i.
Proof.
  intros W Hn. destruct (no_bytes_spec m W Hn) as (Eb & El & Ht). pose proof (wf_length m W) as Hlen.
  pose proof (last_words m W). destruct (memory_spec (bitmap m)) as (L & F & B). cbv zeta.
  assert (Hnb : (no_bytes_in_export_map m ≤ 8 * length (bitmap m))%nat) by lia.
  split_and!.
  - unfold LittleEndian.bitmap_export. by rewrite L, (proj2 (Nat.ltb_ge _ _)) by lia.
  - unfold BigEndian.bitmap_export. fold (tail_bytes m). rewrite export_loop_spec, drop_0 by lia.
    cbn [mbind option_bind]. destruct (lookup_lt_is_Some_2 (bitmap m) (last_word_ptr m)) as [w E]; [lia|].
    rewrite E. cbn [mbind option_bind]. f_equal. rewrite El.
    rewrite <- (take_drop_middle _ _ _ E) at 2. rewrite memory_app. cbn [LittleEndian.memory].
    destruct (memory_spec (take (last_word_ptr m) (bitmap m))) as (L1 & _).
    destruct (int8store_spec w) as (L8 & _). rewrite length_take in L1.
    rewrite take_app_add' by lia. by rewrite take_app_le by lia.
  - rewrite length_take. lia.
  - by apply Forall_take.
  - intros i Hi. rewrite mem_bit_take by divlia. apply B. divlia.
Qed.

(** ** Import *)

(** The set that bytes stand for. *)
Definition mem_elems (n : Z) (mem : list Z) : gset Z :=
  list_to_set (filter (λ i, mem_bit mem i = true) (seqZ 0 n)).

Lemma elem_of_mem_elems n mem i : i ∈ mem_elems n mem ↔ 0 ≤ i < n ∧ mem_bit mem i = true.
Proof. unfold mem_elems. rewrite elem_of_list_to_set, list_elem_of_filter, elem_of_seqZ. intuition lia. Qed.

(** Both versions end with the mask of the last word. *)
Lemma import_mask m b1 from (f : Z → Z) :
  wf m → length b1 = length (bitmap m) → (∀ j, is_word (word b1 j)) →
  (∀ i, 0 ≤ i < n_bits m → word_of i ≠ last_word_ptr m → bit b1 i = mem_bit from i) →
  is_word (f (word b1 (last_word_ptr m))) →
  (∀ i, 0 ≤ i < room m → word_of i = last_word_ptr m →
     Z.testbit (f (word b1 (last_word_ptr m))) (i mod 64) = (i <? n_bits m) && mem_bit from i) →
  ∃ m', set_word (last_word_ptr m) f (set_bitmap b1 m) = Some m'
    ∧ becomes m m' (mem_elems (n_bits m) from).
Proof.
  intros W Hl Hw Hb Hf Hlast. pose proof (wf_length m W). pose proof (last_words m W).
  pose proof (words_eq m W). pose proof (wf_bits m W).
  destruct (set_word_spec (last_word_ptr m) f (set_bitmap b1 m)) as (b' & -> & Hl' & Hb'); [cbn; lia|].
  cbn in Hl', Hb'. eexists. split; [done|]. apply (becomes_intro m b'); [done|lia| | |].
  - intros j. rewrite Hb'. by case_decide; subst.
  - intros i [? _]%elem_of_mem_elems. by apply elem_of_universe.
  - intros i Hi. rewrite elem_of_mem_elems. destruct (word_of_lt m i W Hi) as [Hwi Ei].
    unfold bit. rewrite Hb'. fold (word_of i). case_decide as Hd.
    + rewrite Hlast by done. rewrite andb_true_iff. intuition lia.
    + rewrite <- bit_word by lia. assert (i < n_bits m) by divlia. rewrite Hb by (done || lia). intuition lia.
Qed.

Lemma little_import m from :
  wf m → n_bits m ≤ 2 ^ 32 - 8 → (no_bytes_in_export_map m ≤ length from)%nat → Forall is_byte from →
  ∃ m', LittleEndian.bitmap_import m from = Some m' ∧ becomes m m' (mem_elems (n_bits m) from).
Proof.
  intros W Hn Hf HF. destruct (no_bytes_spec m W Hn) as (Eb & El & Ht). pose proof (wf_length m W) as Hlen.
  pose proof (last_words m W). destruct (memory_spec (bitmap m)) as (L & F & B).
  unfold LittleEndian.bitmap_import. rewrite L, !(proj2 (Nat.ltb_ge _ _)) by lia. cbn [orb].
  set (n := no_bytes_in_export_map m) in *. set (mem := take n from ++ drop n _).
  destruct (words_spec (length (bitmap m)) mem) as (b1 & -> & Hl1 & Hw1 & Hb1).
  { subst mem. rewrite length_app, length_take, length_drop. lia. }
  { by apply Forall_app; split; [apply Forall_take|apply Forall_drop]. }
  cbn [mbind option_bind].
  assert (Hbit : ∀ i, 0 ≤ i < n_bits m → bit b1 i = mem_bit from i).
  { intros i Hi. rewrite Hb1 by divlia. subst mem. rewrite mem_bit_app, length_take by lia.
    rewrite (proj2 (Z.ltb_lt _ _)) by divlia. apply mem_bit_take. divlia. }
  apply import_mask; [done..| |rewrite (wf_mask m W); auto with word|].
  - intros i Hi _. by apply Hbit.
  - intros i Hi Ei. rewrite (wf_mask m W). pose proof (words_eq m W). pose proof (wf_bits m W).
    destruct (word_of_lt m i W Hi) as [_ Ei']. pose proof (Z.mod_pos_bound i 64).
    rewrite Z.land_spec, not64_testbit, last_mask_bit by lia. rewrite <- Ei, <- bit_word by lia.
    destruct (Z.ltb_spec i (n_bits m)).
    + rewrite Hbit by lia. rewrite (proj2 (Z.leb_gt _ _)) by lia. apply andb_true_r.
    + rewrite (proj2 (Z.leb_le _ _)) by lia. apply andb_false_r.
Qed.

Lemma import_loop_spec n i b from :
  (i + n ≤ length b)%nat → (8 * n ≤ length from)%nat → Forall is_byte from →
  (∀ j, is_word (word b j)) →
  ∃ b', BigEndian.import_loop n i b from = Some (b', drop (8 * n) from) ∧ length b' = length b
    ∧ (∀ j, is_word (word b' j))
    ∧ ∀ k, 0 ≤ k → (word_of k < i + n)%nat →
        bit b' k = if (word_of k <? i)%nat then bit b k else mem_bit from (k - 64 * Z.of_nat i).
Proof.
  revert i b from. induction n as [|n IH]; intros i b from Hb Hf HF Hw; cbn [BigEndian.import_loop].
  { exists b. split_and!; [by rewrite drop_0|done|done|]. intros k Hk Hlt.
    by rewrite (proj2 (Nat.ltb_lt _ _)) by lia. }
  destruct (uint8korr_spec from) as (w & -> & Hww & Bw); [lia|done|]. cbn [mbind option_bind].
  rewrite word_lookup by lia. cbn [mbind option_bind].
  destruct (IH (S i) (<[i := w]> b) (drop 8 from)) as (b' & -> & Hl & Hw' & Hb').
  { rewrite length_insert. lia. } { rewrite length_drop. lia. } { by apply Forall_drop. }
  { intros j. rewrite word_insert by lia. by case_decide. }
  exists b'. rewrite drop_drop, length_insert in *. split_and!; [do 3 f_equal; lia|done|done|].
  intros k Hk Hlt. rewrite Hb' by lia.
  destruct (Nat.ltb_spec (word_of k) (S i)), (Nat.ltb_spec (word_of k) i); try lia.
  - rewrite !bit_word, word_insert, decide_False by lia. done.
  - rewrite bit_word, word_insert, decide_True by lia. rewrite Bw by (apply Z.mod_pos_bound; lia).
    f_equal. unfold word_of in *. divlia.
  - rewrite mem_bit_drop by (unfold word_of in *; divlia). f_equal. lia.
Qed.

Lemma big_import m from :
  wf m → n_bits m ≤ 2 ^ 32 - 8 → (no_bytes_in_export_map m ≤ length from)%nat → Forall is_byte from →
  ∃ m', BigEndian.bitmap_import m from = Some m' ∧ becomes m m' (mem_elems (n_bits m) from).
Proof.
  intros W Hn Hf HF. destruct (no_bytes_spec m W Hn) as (Eb & El & Ht). pose proof (wf_length m W) as Hlen.
  pose proof (last_words m W). pose proof (wf_bits m W). unfold BigEndian.bitmap_import. fold (tail_bytes m).
  destruct (import_loop_spec (last_word_ptr m) 0 (bitmap m) from) as (b1 & -> & Hl1 & Hw1 & Hb1);
    [lia..|done|apply W|]. cbn [mbind option_bind].
  rewrite length_drop, (proj2 (Nat.ltb_ge _ _)) by lia.
  set (buff := take _ _ ++ replicate _ _).
  destruct (uint8korr_spec buff) as (w & -> & Hw & Bw).
  { subst buff. rewrite length_app, length_take, length_drop, length_replicate. lia. }
  { apply Forall_app. split; [by apply Forall_take, Forall_drop|by apply Forall_replicate]. }
  cbn [mbind option_bind]. rewrite (wf_mask m W).
  assert (Hbuf : ∀ i, 0 ≤ i < n_bits m → word_of i = last_word_ptr m → mem_bit buff (i mod 64) = mem_bit from i).
  { intros i Hi Ei. subst buff. unfold word_of in Ei. rewrite mem_bit_app, length_take, length_drop by divlia.
    rewrite (proj2 (Z.ltb_lt _ _)) by divlia. rewrite mem_bit_take, mem_bit_drop by divlia. f_equal. divlia. }
  apply import_mask; [done..| |auto with word|].
  - intros i Hi Ei. pose proof (words_eq m W). rewrite Hb1 by (unfold word_of in *; divlia).
    rewrite (proj2 (Nat.ltb_ge _ _)) by lia. f_equal. lia.
  - intros i Hi Ei. pose proof (words_eq m W). destruct (word_of_lt m i W Hi) as [_ Ei'].
    pose proof (Z.mod_pos_bound i 64).
    rewrite Z.land_spec, not64_testbit, last_mask_bit, Bw by lia. destruct (Z.ltb_spec i (n_bits m)).
    + rewrite Hbuf by (done || lia). rewrite (proj2 (Z.leb_gt _ _)) by lia. apply andb_true_r.
    + rewrite (proj2 (Z.leb_le _ _)) by lia. apply andb_false_r.
Qed.

(** C35. Export and import are inverse to each other and do not depend on the byte
    order of the machine: both versions write the same bytes, and both read
    them, into a bitmap of the same size, as the set that was written. *)
Theorem export_import_roundtrip m m2 rest :
  wf m → wf m2 → n_bits m2 = n_bits m → n_bits m ≤ 2 ^ 32 - 8 → Forall is_byte rest →
  ∃ bytes m_big m_little,
    BigEndian.bitmap_export m = Some bytes ∧ LittleEndian.bitmap_export m = Some bytes
    ∧ length bytes = no_bytes_in_export_map m
    ∧ BigEndian.bitmap_import m2 (bytes ++ rest) = Some m_big
    ∧ LittleEndian.bitmap_import m2 (bytes ++ rest) = Some m_little
    ∧ becomes m2 m_big (elems m) ∧ becomes m2 m_little (elems m).
Proof.
  intros W W2 En Hn HR. destruct (export_agree m W Hn) as (E1 & E2 & HL & HF & HB). cbv zeta in *.
  set (bytes := take _ _) in *. destruct (no_bytes_spec m W Hn) as (Eb & _).
  assert (no_bytes_in_export_map m2 = no_bytes_in_export_map m) as Enb
    by (unfold no_bytes_in_export_map; by rewrite En).
  assert (HL2 : (no_bytes_in_export_map m2 ≤ length (bytes ++ rest))%nat)
    by (rewrite length_app; lia).
  assert (HF2 : Forall is_byte (bytes ++ rest)) by (by apply Forall_app).
  destruct (big_import m2 (bytes ++ rest)) as (m3 & E3 & B3); [done|lia|done|done|].
  destruct (little_import m2 (bytes ++ rest)) as (m4 & E4 & B4); [done|lia|done|done|].
  replace (mem_elems (n_bits m2) (bytes ++ rest)) with (elems m) in B3, B4.
  - exists bytes, m3, m4. by split_and!.
  - apply set_eq. intros i. rewrite elem_of_mem_elems, elem_of_elems, En. pose proof (wf_bits m W).
    split; intros [Hi E]; (split; [done|]);
      rewrite mem_bit_app, (proj2 (Z.ltb_lt _ _)), HB in * by (done || divlia || lia); done.
Qed.
