(* ===== verification/BitmapDemo.v ===== *)
(** * Bitmaps: concrete maps

    Instances of the theorems on maps of 70 and of 100 bits, and two places
    where the code does not do what it says. *)

From stdpp Require Import sets gmap.
From S2P Require Import Prelude MyBit Bitmap BitmapFacts BitmapOps BitmapSearch BitmapRefine BitmapIO.

#[local] Open Scope Z_scope.

(** Bits 0, 2, 63, 65, 67 and 69 of 70, and bits 2, 64, 65 and 99 of 100. *)
Definition map70 : MY_BITMAP := mk_bitmap [0x8000000000000005; 0x2A] 1 (last_bit_mask 70) 70 false.
Definition map100 : MY_BITMAP := mk_bitmap [4; 0x800000003] 1 (last_bit_mask 100) 100 false.
Definition map64 : MY_BITMAP := mk_bitmap [all_ones] 0 (last_bit_mask 64) 64 false.

Lemma demo_words b : forallb (λ w, (0 <=? w) && (w <? 2 ^ 64)) b = true → ∀ j, is_word (word b j).
Proof.
  intros H. apply word_buf. intros w Hw. unfold is_word.
  rewrite forallb_forall in H. apply list_elem_of_In in Hw. specialize (H w Hw). lia.
Qed.

Lemma map70_wf : wf map70.
Proof. split; try done; try apply demo_words; reflexivity || (compute; lia). Qed.

Lemma map100_wf : wf map100.
Proof. split; try done; try apply demo_words; reflexivity || (compute; lia). Qed.

Lemma map64_wf : wf map64.
Proof. split; try done; try apply demo_words; reflexivity || (compute; lia). Qed.

Lemma bitmap_updates_refine_sets_witness :
  ∃ m' r, run_update (Union map100) map70 = Some (m', r) ∧ wf m' ∧ n_bits m' = n_bits map70
    ∧ (elems m', r) = spec_update (Union map100) (n_bits map70) (elems map70).
Proof. apply bitmap_updates_refine_sets; [apply map70_wf|apply map100_wf]. Defined.

Lemma bitmap_queries_answer_sets_witness :
  run_query (Get_next_set 2) map70 = Some (spec_query (Get_next_set 2) (n_bits map70) (elems map70))
  ∧ run_query (Get_next_set 2) map70 = Some 63.
Proof. split; [apply bitmap_queries_answer_sets; [apply map70_wf|done]|reflexivity]. Defined.

Lemma bitmap_exists_intersection_iff_witness :
  ∃ r, bitmap_exists_intersection [map70; map100] 3 69 = Some r
    ∧ (r = true ↔ ∃ i, 3 ≤ i ≤ 69 ∧ ∀ m, m ∈ [map70; map100] → i ∈ elems m).
Proof.
  apply bitmap_exists_intersection_iff; [|done|lia|].
  - repeat constructor; apply map70_wf || apply map100_wf.
  - by repeat constructor.
Defined.

Lemma scan_visits_elems_witness :
  scan map70 = Some (filter (λ i, i ∈ elems map70) (seqZ 0 (n_bits map70)))
  ∧ scan map70 = Some [0; 2; 63; 65; 67; 69].
Proof. split; [apply scan_visits_elems, map70_wf|reflexivity]. Defined.

Lemma my_bitmap_init_spec_witness :
  (∃ m, my_bitmap_init (λ _, None) map70 (Some [7; 9; 11]) 70 = Some (m, false)
     ∧ wf m ∧ n_bits m = 70 ∧ elems m = ∅ ∧ bitmap_allocated m = false)
  ∧ ((λ _ : Z, @None (list Z)) (bitmap_buffer_size 70) = None →
     ∃ m, my_bitmap_init (λ _, None) map70 None 70 = Some (m, true) ∧ bitmap m = []).
Proof.
  apply my_bitmap_init_spec; [lia| |done].
  intros w Hw. unfold is_word. repeat (apply elem_of_cons in Hw as [->|Hw]; [lia|]).
  by apply not_elem_of_nil in Hw.
Defined.

Lemma export_import_roundtrip_witness :
  ∃ bytes m_big m_little,
    BigEndian.bitmap_export map70 = Some bytes ∧ LittleEndian.bitmap_export map70 = Some bytes
    ∧ length bytes = no_bytes_in_export_map map70
    ∧ BigEndian.bitmap_import map70 (bytes ++ [0; 255]) = Some m_big
    ∧ LittleEndian.bitmap_import map70 (bytes ++ [0; 255]) = Some m_little
    ∧ becomes map70 m_big (elems map70) ∧ becomes map70 m_little (elems map70).
Proof.
  apply export_import_roundtrip; [apply map70_wf|apply map70_wf|done|done|by repeat constructor].
Defined.

Lemma my_round_up_to_next_power_spec_witness :
  my_round_up_to_next_power 0x6000000B =
    (if (0 <? 0x6000000B) && (0x6000000B <=? 2 ^ 31) then 2 ^ Z.log2_up 0x6000000B else 0)
  ∧ my_round_up_to_next_power 0x6000000B = 0x80000000.
Proof. split; [apply my_round_up_to_next_power_spec; lia|reflexivity]. Defined.

Lemma my_bit_log2_uint64_spec_witness :
  my_bit_log2_uint64 0x100000000 = Z.log2 0x100000000 ∧ my_bit_log2_uint64 0x100000000 = 32.
Proof. split; [apply my_bit_log2_uint64_spec; lia|reflexivity]. Defined.

(** [bitmap_union_is_set_all] is to be true if the union has all bits set; it
    is false for two full bitmaps, and true for two empty ones. *)
Theorem bitmap_union_is_set_all_negated :
  bitmap_union_is_set_all map64 map64 = Some false
  ∧ bitmap_union_is_set_all (set_bitmap [0] map64) (set_bitmap [0] map64) = Some true.
Proof. by split. Qed.

(** [bitmap_copy] is to work for bitmaps of different sizes; with a source of
    one word and a destination of two it clears a word outside the buffer. *)
Theorem bitmap_copy_leaves_buffer : bitmap_copy map70 map64 = None.
Proof. reflexivity. Qed.
