(* ===== verification/MyisamPack.v ===== *)
(** * Numbers with the high byte first (include/myisampack.h)

    The macros that store a number in a number of bytes, the high byte first, and
    load it.  A store gives the bytes it writes; bytes are numbers from 0 to 255,
    and a load behind the end of the bytes is [None]. *)

From S2P Require Import Prelude MyBit.

#[local] Open Scope Z_scope.

(** ** Stores *)

Definition mi_int1store (A : Z) : list Z := [u8 A].

Definition mi_int2store (A : Z) : list Z :=
  let def_temp := u32 A in [u8 (Z.shiftr def_temp 8); u8 def_temp].

Definition mi_int3store (A : Z) : list Z :=
  let def_temp := u64 A in [u8 (Z.shiftr def_temp 16); u8 (Z.shiftr def_temp 8); u8 def_temp].

Definition mi_int4store (A : Z) : list Z :=
  let def_temp := u64 A in
  [u8 (Z.shiftr def_temp 24); u8 (Z.shiftr def_temp 16); u8 (Z.shiftr def_temp 8); u8 def_temp].

Definition mi_int5store (A : Z) : list Z :=
  let def_temp := u64 A in
  let def_temp2 := u64 (Z.shiftr A 32) in
  [u8 def_temp2; u8 (Z.shiftr def_temp 24); u8 (Z.shiftr def_temp 16); u8 (Z.shiftr def_temp 8); u8 def_temp].

Definition mi_int6store (A : Z) : list Z :=
  let def_temp := u64 A in
  let def_temp2 := u64 (Z.shiftr A 32) in
  [u8 (Z.shiftr def_temp2 8); u8 def_temp2;
   u8 (Z.shiftr def_temp 24); u8 (Z.shiftr def_temp 16); u8 (Z.shiftr def_temp 8); u8 def_temp].

(** ** Loads *)

Definition mi_sint1korr (A : list Z) : option Z :=
  a ← A !! 0%nat; Some (s8 a).

Definition mi_uint2korr (A : list Z) : option Z :=
  a ← A !! 0%nat; b ← A !! 1%nat; Some (u16 (Z.lor b (Z.shiftl a 8))).

Definition mi_sint2korr (A : list Z) : option Z :=
  a ← A !! 0%nat; b ← A !! 1%nat; Some (s16 (Z.lor b (Z.shiftl a 8))).

Definition mi_uint3korr (A : list Z) : option Z :=
  a ← A !! 0%nat; b ← A !! 1%nat; c ← A !! 2%nat;
  Some (u32 (Z.lor (Z.lor c (Z.shiftl b 8)) (Z.shiftl a 16))).

Definition mi_sint3korr (A : list Z) : option Z :=
  a ← A !! 0%nat; b ← A !! 1%nat; c ← A !! 2%nat;
  Some (s32 (if negb (Z.land a 128 =? 0)
             then Z.lor (Z.lor (Z.lor (Z.shiftl 255 24) (Z.shiftl a 16)) (Z.shiftl b 8)) c
             else Z.lor (Z.lor (Z.shiftl a 16) (Z.shiftl b 8)) c)).

Definition mi_sint4korr (A : list Z) : option Z :=
  a ← A !! 0%nat; b ← A !! 1%nat; c ← A !! 2%nat; d ← A !! 3%nat;
  Some (s32 (Z.lor (Z.lor (Z.lor d (Z.shiftl c 8)) (Z.shiftl b 16)) (Z.shiftl a 24))).

Definition mi_uint4korr (A : list Z) : option Z :=
  a ← A !! 0%nat; b ← A !! 1%nat; c ← A !! 2%nat; d ← A !! 3%nat;
  Some (u32 (Z.lor (Z.lor (Z.lor d (Z.shiftl c 8)) (Z.shiftl b 16)) (Z.shiftl a 24))).

Definition mi_uint5korr (A : list Z) : option Z :=
  a ← A !! 0%nat; b ← A !! 1%nat; c ← A !! 2%nat; d ← A !! 3%nat; e ← A !! 4%nat;
  Some (Z.lor (u32 (Z.lor (Z.lor (Z.lor e (Z.shiftl d 8)) (Z.shiftl c 16)) (Z.shiftl b 24))) (Z.shiftl a 32)).

Definition mi_uint6korr (A : list Z) : option Z :=
  a ← A !! 0%nat; b ← A !! 1%nat; c ← A !! 2%nat; d ← A !! 3%nat; e ← A !! 4%nat; f ← A !! 5%nat;
  Some (Z.lor (u32 (Z.lor (Z.lor (Z.lor f (Z.shiftl e 8)) (Z.shiftl d 16)) (Z.shiftl c 24)))
              (Z.shiftl (u32 (Z.lor b (Z.shiftl a 8))) 32)).
