(* ===== verification/KeyCodec.v ===== *)
(** * Binary formats that keep the order

    What an index relies on when a column stores its values as bytes: every
    valid value has as many bytes as the format says, decoding gives it back,
    and comparing the bytes compares the values.  The formats of TIME, DATETIME
    and TIMESTAMP columns are of this kind, and so are keys that consist of
    several of them.  The format of DECIMAL columns is built from the same bytes. *)

From S2P Require Import Prelude MyBit MyisamPack.

#[local] Open Scope Z_scope.

(** ** Bytes *)

(** [memcmp] of arrays of the same length, as -1, 0 or 1. *)
Fixpoint memcmp (a b : list Z) : Z :=
  match a, b with
  | x :: a, y :: b => if x =? y then memcmp a b else if x <? y then -1 else 1
  | _, _ => 0
  end.

(** The order of two numbers, as -1, 0 or 1. *)
Definition order (x y : Z) : Z := Z.sgn (x - y).

Lemma order_lt x y : x < y → order x y = -1.
Proof. intros H. apply Z.sgn_neg. lia. Qed.

Lemma order_gt x y : y < x → order x y = 1.
Proof. intros H. apply Z.sgn_pos. lia. Qed.

Lemma order_refl x : order x x = 0.
Proof. apply Z.sgn_null. lia. Qed.

(** The low [n] bytes of a number, the high one first. *)
Fixpoint be_bytes (n : nat) (v : Z) : list Z :=
  match n with
  | O => []
  | S n => (v / 256 ^ Z.of_nat n) mod 256 :: be_bytes n v
  end.

Lemma length_be_bytes n v : length (be_bytes n v) = n.
Proof. induction n as [|n IH]; [done|]. cbn. by rewrite IH. Qed.

Lemma be_bytes_range n v : Forall is_byte (be_bytes n v).
Proof.
  induction n as [|n IH]; [done|]. cbn [be_bytes]. constructor; [|done].
  apply Z.mod_pos_bound. lia.
Qed.

Lemma be_bytes_ext n u v : u mod 256 ^ Z.of_nat n = v mod 256 ^ Z.of_nat n → be_bytes n u = be_bytes n v.
Proof.
  induction n as [|n IH]; [done|]. rewrite Nat2Z.inj_succ, Z.pow_succ_r by lia. intros E. cbn [be_bytes].
  assert (Hp : 0 < 256 ^ Z.of_nat n) by (apply Z.pow_pos_nonneg; lia). f_equal.
  - assert (H : ∀ x, x / 256 ^ Z.of_nat n mod 256 = x mod (256 * 256 ^ Z.of_nat n) / 256 ^ Z.of_nat n).
    { intros x. rewrite (Z.mul_comm 256), Z.rem_mul_r, (Z.mul_comm (256 ^ _)), Z.div_add by lia.
      rewrite (Z.div_small (x mod _)) by (by apply Z.mod_pos_bound). lia. }
    by rewrite !H, E.
  - apply IH. rewrite <- (Z.mod_mod_divide u (256 * 256 ^ Z.of_nat n)), <- (Z.mod_mod_divide v (256 * 256 ^ Z.of_nat n))
      by (by exists 256). by rewrite E.
Qed.

Lemma be_bytes_app n m v : be_bytes (n + m) v = be_bytes n (v / 256 ^ Z.of_nat m) ++ be_bytes m v.
Proof.
  induction n as [|n IH]; [done|]. cbn [Nat.add be_bytes app]. rewrite IH. f_equal.
  rewrite Nat2Z.inj_add, Z.pow_add_r, (Z.mul_comm (256 ^ Z.of_nat n)), Z.div_div by (try apply Z.pow_pos_nonneg; lia). done.
Qed.

(** Comparing bytes compares numbers. *)
Lemma memcmp_be_bytes n u v :
  0 ≤ u < 256 ^ Z.of_nat n → 0 ≤ v < 256 ^ Z.of_nat n → memcmp (be_bytes n u) (be_bytes n v) = order u v.
Proof.
  revert u v. induction n as [|n IH]; intros u v Hu Hv.
  { cbn in *. replace u with 0 by lia. by replace v with 0 by lia. }
  rewrite Nat2Z.inj_succ, Z.pow_succ_r in Hu, Hv by lia. cbn [be_bytes memcmp].
  set (p := 256 ^ Z.of_nat n) in *. assert (Hp : 0 < p) by (apply Z.pow_pos_nonneg; lia).
  pose proof (Z.div_mod u p ltac:(lia)) as Eu. pose proof (Z.div_mod v p ltac:(lia)) as Ev.
  pose proof (Z.mod_pos_bound u p Hp) as Mu. pose proof (Z.mod_pos_bound v p Hp) as Mv.
  assert (Hqu : 0 ≤ u / p < 256) by (split; [apply Z.div_pos|apply Z.div_lt_upper_bound]; lia).
  assert (Hqv : 0 ≤ v / p < 256) by (split; [apply Z.div_pos|apply Z.div_lt_upper_bound]; lia).
  rewrite !(Z.mod_small (_ / p)) by done.
  destruct (Z.eqb_spec (u / p) (v / p)) as [E|E].
  - rewrite (be_bytes_ext n u (u mod p)), (be_bytes_ext n v (v mod p)) by (by rewrite Z.mod_mod by lia).
    rewrite IH by done. unfold order. f_equal. rewrite E in Eu. lia.
  - destruct (Z.ltb_spec (u / p) (v / p)); [rewrite order_lt|rewrite order_gt]; [done|nia|done|nia].
Qed.

(** ** Stores and reads *)

(** A byte of a [ulong]. *)
Lemma byte_at A k : 0 ≤ k ≤ 56 → u8 (Z.shiftr (u64 A) k) = (A / 2 ^ k) mod 256.
Proof.
  intros Hk. change 256 with (2 ^ 8). unfold u8, u64. apply Z.bits_inj'. intros n Hn.
  destruct (decide (n < 8)).
  - rewrite !Z.mod_pow2_bits_low, Z.shiftr_spec, Z.div_pow2_bits by lia. apply Z.mod_pow2_bits_low. lia.
  - by rewrite !Z.mod_pow2_bits_high by lia.
Qed.

Lemma byte_high A k : 0 ≤ k ≤ 24 → u8 (Z.shiftr (u64 (Z.shiftr A 32)) k) = (A / 2 ^ (32 + k)) mod 256.
Proof.
  intros Hk. rewrite byte_at by lia. rewrite Z.shiftr_div_pow2, Z.div_div, <- Z.pow_add_r by lia. done.
Qed.

Lemma byte_low A : u8 (u64 A) = A mod 256.
Proof. rewrite <- (Z.shiftr_0_r (u64 A)), byte_at by lia. by rewrite Z.div_1_r. Qed.

Lemma int2store_be A : mi_int2store A = be_bytes 2 A.
Proof.
  unfold mi_int2store. assert (E : u32 A = u64 (u32 A)) by (symmetry; apply u64_small; unfold u32; divlia).
  rewrite E, byte_at, byte_low by lia. cbn [be_bytes Z.of_nat]. unfold u32.
  change (256 ^ 0) with 1. change (256 ^ Z.pos (Pos.of_succ_nat 0)) with (2 ^ 8). f_equal; [divlia|f_equal; divlia].
Qed.

Ltac be_eq := cbn [be_bytes Z.of_nat Pos.of_succ_nat Pos.succ]; rewrite ?Z.div_1_r; done.

Lemma int3store_be A : mi_int3store A = be_bytes 3 A.
Proof. unfold mi_int3store. rewrite !byte_at, byte_low by lia. be_eq. Qed.

Lemma int4store_be A : mi_int4store A = be_bytes 4 A.
Proof. unfold mi_int4store. rewrite !byte_at, byte_low by lia. be_eq. Qed.

Lemma int5store_be A : mi_int5store A = be_bytes 5 A.
Proof.
  unfold mi_int5store. rewrite !byte_at, !byte_low, Z.shiftr_div_pow2 by lia. be_eq.
Qed.

Lemma int6store_be A : mi_int6store A = be_bytes 6 A.
Proof.
  unfold mi_int6store. rewrite byte_high, !byte_at, !byte_low, Z.shiftr_div_pow2 by lia. be_eq.
Qed.

Lemma lor_low a b k : 0 ≤ k → 0 ≤ a < 2 ^ k → Z.lor a (Z.shiftl b k) = a + 2 ^ k * b.
Proof.
  intros Hk Ha. apply Z.bits_inj'. intros i Hi. rewrite testbit_split, Z.lor_spec, Z.shiftl_spec by done.
  destruct (Z.ltb_spec i k).
  - by rewrite (Z.testbit_neg_r b) by lia; rewrite orb_false_r.
  - assert (Ea : Z.testbit a i = false); [|by rewrite Ea].
    destruct (decide (a = 0)) as [->|]; [apply Z.bits_0|]. apply Z.bits_above_log2; [lia|].
    apply Z.log2_lt_pow2; [lia|]. apply Z.lt_le_trans with (2 ^ k); [lia|]. apply Z.pow_le_mono_r; lia.
Qed.

Lemma lor_high a b k : 0 ≤ k → 0 ≤ a < 2 ^ k → Z.lor (Z.shiftl b k) a = 2 ^ k * b + a.
Proof. intros Hk Ha. rewrite Z.lor_comm, lor_low by done. lia. Qed.

(** The number that bytes stand for. *)
Definition be_val (l : list Z) : Z := foldl (λ v b, v * 256 + b) 0 l.

Lemma be_val_bytes n v : be_val (be_bytes n v) = v mod 256 ^ Z.of_nat n.
Proof.
  unfold be_val. assert (H : ∀ w, foldl (λ v b, v * 256 + b) w (be_bytes n v)
    = w * 256 ^ Z.of_nat n + v mod 256 ^ Z.of_nat n).
  { induction n as [|n IH]; intros w; [cbn; rewrite Z.mod_1_r; lia|]. cbn [be_bytes foldl]. rewrite IH.
    rewrite Nat2Z.inj_succ, Z.pow_succ_r by lia. assert (0 < 256 ^ Z.of_nat n) by (apply Z.pow_pos_nonneg; lia).
    rewrite (Z.mul_comm 256), Z.rem_mul_r by lia. lia. }
  by rewrite H.
Qed.

Lemma be_val_bound l : Forall is_byte l → 0 ≤ be_val l < 256 ^ Z.of_nat (length l).
Proof.
  induction l as [|x l IH] using rev_ind; intros Hl; [done|]. unfold be_val in *. rewrite foldl_app, length_app. cbn [foldl length].
  apply Forall_app in Hl as [Hl Hx%Forall_inv]. specialize (IH Hl). unfold is_byte in Hx.
  rewrite Nat2Z.inj_add, Z.pow_add_r by lia. cbn [Z.of_nat]. change (256 ^ Z.of_nat 1) with 256. lia.
Qed.

(** Reads of leading bytes. *)
Lemma uint2korr_be A l : Forall is_byte A → length A = 2%nat → mi_uint2korr (A ++ l) = Some (be_val A).
Proof.
  intros HA HL. pose proof (be_val_bound A HA) as HB. rewrite HL in HB. destruct A as [|a [|b [|]]]; try done.
  unfold mi_uint2korr, be_val in *. cbn [app lookup list_lookup mbind option_bind foldl] in *.
  rewrite !list.Forall_cons in HA. unfold is_byte in HA. rewrite lor_low by lia. f_equal.
  unfold u16. rewrite Z.mod_small by (cbn in HB; lia). lia.
Qed.

Lemma uint3korr_be A l : Forall is_byte A → length A = 3%nat → mi_uint3korr (A ++ l) = Some (be_val A).
Proof.
  intros HA HL. destruct A as [|a [|b [|c [|]]]]; try done.
  unfold mi_uint3korr, be_val in *. cbn [app lookup list_lookup mbind option_bind foldl] in *.
  rewrite !list.Forall_cons in HA. unfold is_byte in HA. rewrite (lor_low c), (lor_low (c + _)) by lia. f_equal. rewrite u32_small; lia.
Qed.

Lemma uint4korr_be A l : Forall is_byte A → length A = 4%nat → mi_uint4korr (A ++ l) = Some (be_val A).
Proof.
  intros HA HL. destruct A as [|a [|b [|c [|d [|]]]]]; try done.
  unfold mi_uint4korr, be_val in *. cbn [app lookup list_lookup mbind option_bind foldl] in *.
  rewrite !list.Forall_cons in HA. unfold is_byte in HA. 
  rewrite (lor_low d), (lor_low (d + _)), (lor_low (d + _ + _)) by lia. f_equal. rewrite u32_small; lia.
Qed.

Lemma uint5korr_be A l : Forall is_byte A → length A = 5%nat → mi_uint5korr (A ++ l) = Some (be_val A).
Proof.
  intros HA HL. destruct A as [|a [|b [|c [|d [|e [|]]]]]]; try done.
  unfold mi_uint5korr, be_val in *. cbn [app lookup list_lookup mbind option_bind foldl] in *.
  rewrite !list.Forall_cons in HA. unfold is_byte in HA.
  rewrite (lor_low e), (lor_low (e + _)), (lor_low (e + _ + _)), u32_small, lor_low by lia. f_equal. lia.
Qed.

Lemma uint6korr_be A l : Forall is_byte A → length A = 6%nat → mi_uint6korr (A ++ l) = Some (be_val A).
Proof.
  intros HA HL. destruct A as [|a [|b [|c [|d [|e [|f [|]]]]]]]; try done.
  unfold mi_uint6korr, be_val in *. cbn [app lookup list_lookup mbind option_bind foldl] in *.
  rewrite !list.Forall_cons in HA. unfold is_byte in HA.
  rewrite (lor_low f), (lor_low (f + _)), (lor_low (f + _ + _)), (lor_low b), !u32_small, lor_low by lia. f_equal. lia.
Qed.

Lemma sint2korr_be A l :
  Forall is_byte A → length A = 2%nat → be_val A < 2 ^ 15 → mi_sint2korr (A ++ l) = Some (be_val A).
Proof.
  intros HA HL HB. destruct A as [|a [|b [|]]]; try done.
  unfold mi_sint2korr, be_val in *. cbn [app lookup list_lookup mbind option_bind foldl] in *.
  rewrite !list.Forall_cons in HA. unfold is_byte in HA. rewrite lor_low by lia. f_equal.
  unfold s16. rewrite Z.mod_small; lia.
Qed.

Lemma sint3korr_be A l :
  Forall is_byte A → length A = 3%nat → be_val A < 2 ^ 23 → mi_sint3korr (A ++ l) = Some (be_val A).
Proof.
  intros HA HL HB. destruct A as [|a [|b [|c [|]]]]; try done.
  unfold mi_sint3korr, be_val in *. cbn [app lookup list_lookup mbind option_bind foldl] in *.
  rewrite !list.Forall_cons in HA. unfold is_byte in HA.
  assert (Ea : Z.land a 128 = 0).
  { apply Z.bits_inj'. intros i Hi. rewrite Z.land_spec, Z.bits_0. change 128 with (2 ^ 7).
    rewrite Z.pow2_bits_eqb by lia. destruct (Z.eqb_spec 7 i) as [<-|]; [|apply andb_false_r].
    rewrite andb_true_r. destruct (decide (a = 0)) as [->|]; [done|]. apply Z.bits_above_log2; [lia|].
    apply Z.log2_lt_pow2; lia. }
  rewrite Ea. cbn [Z.eqb negb]. rewrite Z.lor_comm, (Z.lor_comm (Z.shiftl a 16)), Z.lor_assoc.
  rewrite (lor_low c), (lor_low (c + _)) by lia. f_equal. rewrite s32_small; lia.
Qed.

(** ** The order of mixed numbers *)

Lemma order_iff x y u v : (x < y ↔ u < v) → (y < x ↔ v < u) → order x y = order u v.
Proof.
  intros H1 H2. destruct (Z.lt_trichotomy x y) as [H|[H|H]].
  - rewrite !order_lt; [done|by apply H1|done].
  - subst y. assert (u = v) as -> by lia. by rewrite !order_refl.
  - rewrite !order_gt; [done|by apply H2|done].
Qed.

Lemma order_lex B x g y g' :
  0 ≤ g < B → 0 ≤ g' < B → order (x * B + g) (y * B + g') = if order x y =? 0 then order g g' else order x y.
Proof.
  intros Hg Hg'. destruct (Z.lt_trichotomy x y) as [H|[->|H]].
  - rewrite (order_lt x y), order_lt by nia. done.
  - rewrite order_refl. cbn [Z.eqb]. apply order_iff; lia.
  - rewrite (order_gt x y), order_gt by nia. done.
Qed.

Lemma order_scale u x y : 0 < u → order (x * u) (y * u) = order x y.
Proof. intros Hu. apply order_iff; nia. Qed.

Lemma order_shift c x y : order (c + x) (c + y) = order x y.
Proof. unfold order. f_equal. lia. Qed.

(** ** Ordered formats *)

(** What a format of [width] bytes promises for the valid values of a type. *)
Class OrderedCodec {A} (valid : A → Prop) (cmp : A → A → Z) (width : nat)
    (encode : A → list Z) (decode : list Z → option A) : Prop := {
  codec_size a : valid a → length (encode a) = width;
  codec_bytes a : valid a → Forall is_byte (encode a);
  codec_roundtrip a l : valid a → decode (encode a ++ l) = Some a;
  codec_order a b : valid a → valid b → memcmp (encode a) (encode b) = cmp a b;
}.

(** Equal bytes are equal values. *)
Lemma codec_inj `{OrderedCodec A valid cmp width encode decode} a b :
  valid a → valid b → encode a = encode b → a = b.
Proof.
  intros Va Vb E. pose proof (codec_roundtrip a [] Va) as Ea. rewrite E, codec_roundtrip in Ea by done. congruence.
Qed.

Lemma memcmp_app a b a' b' :
  length a = length b → memcmp (a ++ a') (b ++ b') = if memcmp a b =? 0 then memcmp a' b' else memcmp a b.
Proof.
  revert b. induction a as [|x a IH]; intros [|y b] HL; try done. cbn [app memcmp].
  destruct (x =? y); [by apply IH; injection HL|]. by destruct (x <? y).
Qed.

(** Keys of two parts compare their first parts, then the second ones. *)
#[export] Instance pair_codec {A B} va ca na (ea : A → list Z) da vb cb nb (eb : B → list Z) db :
  OrderedCodec va ca na ea da → OrderedCodec vb cb nb eb db →
  OrderedCodec (λ p, va p.1 ∧ vb p.2) (λ p q, if ca p.1 q.1 =? 0 then cb p.2 q.2 else ca p.1 q.1) (na + nb)
    (λ p, ea p.1 ++ eb p.2) (λ l, a ← da l; b ← db (drop na l); Some (a, b)).
Proof.
  intros HA HB. split.
  - intros [a b] [Va Vb]. cbn in *. by rewrite length_app, !codec_size.
  - intros [a b] [Va Vb]. cbn in *. rewrite Forall_app. by split; apply codec_bytes.
  - intros [a b] l [Va Vb]. cbn in *. rewrite <- app_assoc, codec_roundtrip by done. cbn [mbind option_bind].
    rewrite drop_app_length' by (by rewrite codec_size). by rewrite codec_roundtrip.
  - intros [a b] [a' b'] [Va Vb] [Va' Vb']. cbn in *. rewrite memcmp_app by (by rewrite !codec_size).
    by rewrite !codec_order.
Qed.

(** A format is ordered if it stores numbers in the order of the values. *)
Lemma number_codec {A} (valid : A → Prop) cmp width encode decode (number : A → Z) :
  (∀ a, valid a → encode a = be_bytes width (number a) ∧ 0 ≤ number a < 256 ^ Z.of_nat width) →
  (∀ a l, valid a → decode (be_bytes width (number a) ++ l) = Some a) →
  (∀ a b, valid a → valid b → order (number a) (number b) = cmp a b) →
  OrderedCodec valid cmp width encode decode.
Proof.
  intros He Hd Hc. split.
  - intros a Va. rewrite (proj1 (He a Va)). apply length_be_bytes.
  - intros a Va. rewrite (proj1 (He a Va)). apply be_bytes_range.
  - intros a l Va. rewrite (proj1 (He a Va)). by apply Hd.
  - intros a b Va Vb. destruct (He a Va) as [-> Ra], (He b Vb) as [-> Rb]. rewrite memcmp_be_bytes by done. by apply Hc.
Qed.
