(* ===== verification/Decimal.v ===== *)
(** * Fixed point decimals (include/decimal.h, strings/decimal.c)

    A decimal is an array of words of nine decimal digits, first the words of
    the integer part and then those of the fraction.  The array is the list of
    its words, pointers into it are indices in [Z], and an access outside the
    array has no result ([None]); neither has an [int32] operation that
    overflows.  Loops run a number of turns that the pointer comparisons of
    the code fix in advance. *)

From S2P Require Import Prelude MyBit.

#[local] Open Scope Z_scope.

Definition DIG_PER_DEC1 : Z := 9.
Definition DIG_BASE : Z := 1000000000.
Definition DIG_MAX : Z := DIG_BASE - 1.
Definition powers10 : list Z :=
  [1; 10; 100; 1000; 10000; 100000; 1000000; 10000000; 100000000; 1000000000].
Definition frac_max : list Z :=
  [900000000; 990000000; 999000000; 999900000; 999990000; 999999000; 999999900; 999999990].

Definition E_DEC_OK : Z := 0.
Definition E_DEC_TRUNCATED : Z := 1.
Definition E_DEC_OVERFLOW : Z := 2.

Record decimal_t := mk_decimal {
  intg : Z;
  frac : Z;
  len : Z;
  sign : bool;
  buf : list Z;
}.

Definition set_sign (s : bool) (d : decimal_t) := mk_decimal (intg d) (frac d) (len d) s (buf d).
Definition set_buf (b : list Z) (d : decimal_t) := mk_decimal (intg d) (frac d) (len d) (sign d) b.
Definition set_intg (i : Z) (d : decimal_t) := mk_decimal i (frac d) (len d) (sign d) (buf d).
Definition set_frac (f : Z) (d : decimal_t) := mk_decimal (intg d) f (len d) (sign d) (buf d).

(** ** Machine arithmetic and memory *)

(** Reading and writing the word [i] of an array. *)
Definition rd (b : list Z) (i : Z) : option Z := if i <? 0 then None else b !! Z.to_nat i.
Definition wr (b : list Z) (i v : Z) : option (list Z) :=
  if i <? 0 then None else _ ← b !! Z.to_nat i; Some (<[Z.to_nat i := v]> b).

Definition ROUND_UP (x : Z) : Z :=
  Z.quot (x + if 0 <? x then DIG_PER_DEC1 - 1 else 0) DIG_PER_DEC1.

(** The bounded word counts and the error. *)
Definition FIX_INTG_FRAC_ERROR (len intg1 frac1 : Z) : Z * Z * Z :=
  if len <? intg1 + frac1 then
    if len <? intg1 then (len, 0, E_DEC_OVERFLOW)
    else (intg1, len - intg1, E_DEC_TRUNCATED)
  else (intg1, frac1, E_DEC_OK).

(** The stored word and the new carry. *)
Definition ADD (from1 from2 carry : Z) : option (Z * Z) :=
  a ← i32 (from1 + from2);
  a ← i32 (a + carry);
  if DIG_BASE <=? a then Some (a - DIG_BASE, 1) else Some (a, 0).

Definition ADD2 (from1 from2 carry : Z) : option (Z * Z) :=
  a ← i64 (from1 + from2);
  a ← i64 (a + carry);
  let '(a, carry) := if DIG_BASE <=? a then (a - DIG_BASE, 1) else (a, 0) in
  let '(a, carry) := if DIG_BASE <=? a then (a - DIG_BASE, carry + 1) else (a, carry) in
  a ← i32 a;
  Some (a, carry).

Definition SUB (from1 from2 carry : Z) : option (Z * Z) :=
  a ← i32 (from1 - from2);
  a ← i32 (a - carry);
  if a <? 0 then Some (a + DIG_BASE, 1) else Some (a, 0).

Definition decimal_make_zero (dec : decimal_t) : option decimal_t :=
  b ← wr (buf dec) 0 0; Some (mk_decimal 1 0 (len dec) false b).

(** ** Loops over the words, from the last to the first

    [to], [from1] and [from2] are the arrays, [b0], [b1] and [b2] the pointers
    just behind the next word of each, [n] the number of turns. *)

(** [*--buf0= v] *)
Fixpoint fill_down (n : nat) (v : Z) (to : list Z) (b0 : Z) : option (list Z) :=
  match n with
  | O => Some to
  | S n => to ← wr to (b0 - 1) v; fill_down n v to (b0 - 1)
  end.

(** [*--buf0= *--buf1] *)
Fixpoint copy_down (n : nat) (to : list Z) (b0 : Z) (from1 : list Z) (b1 : Z) : option (list Z) :=
  match n with
  | O => Some to
  | S n =>
    x ← rd from1 (b1 - 1);
    to ← wr to (b0 - 1) x;
    copy_down n to (b0 - 1) from1 (b1 - 1)
  end.

(** [OP( *--buf0, *--buf1, *--buf2, carry)] *)
Fixpoint op_down (OP : Z → Z → Z → option (Z * Z)) (n : nat) (to : list Z) (b0 : Z)
    (from1 : list Z) (b1 : Z) (from2 : list Z) (b2 carry : Z) : option (list Z * Z) :=
  match n with
  | O => Some (to, carry)
  | S n =>
    x ← rd from1 (b1 - 1);
    y ← rd from2 (b2 - 1);
    '(a, carry) ← OP x y carry;
    to ← wr to (b0 - 1) a;
    op_down OP n to (b0 - 1) from1 (b1 - 1) from2 (b2 - 1) carry
  end.

(** [OP( *--buf0, *--buf1, 0, carry)] *)
Fixpoint carry_down (OP : Z → Z → Z → option (Z * Z)) (n : nat) (to : list Z) (b0 : Z)
    (from1 : list Z) (b1 carry : Z) : option (list Z * Z) :=
  match n with
  | O => Some (to, carry)
  | S n =>
    x ← rd from1 (b1 - 1);
    '(a, carry) ← OP x 0 carry;
    to ← wr to (b0 - 1) a;
    carry_down OP n to (b0 - 1) from1 (b1 - 1) carry
  end.

(** ** The largest decimal *)

(** [n] words [v] upwards. *)
Fixpoint fill_up (n : nat) (v : Z) (b : list Z) (i : Z) : option (list Z) :=
  match n with
  | O => Some b
  | S n => b ← wr b i v; fill_up n v b (i + 1)
  end.

(** [precision] and [frac0] are [uint16]. *)
Definition max_decimal (precision frac0 : Z) (to : decimal_t) : option decimal_t :=
  let intpart := u16 (precision - frac0) in
  let firstdigits := intpart mod DIG_PER_DEC1 in
  '(b, p) ← (if firstdigits =? 0 then Some (buf to, 0) else
      x ← rd powers10 firstdigits; b ← wr (buf to) 0 (x - 1); Some (b, 1));
  let n := intpart / DIG_PER_DEC1 in
  b ← fill_up (Z.to_nat n) DIG_MAX b p;
  let p := p + n in
  let n := frac0 / DIG_PER_DEC1 in
  b ← fill_up (Z.to_nat n) DIG_MAX b p;
  let p := p + n in
  let lastdigits := frac0 mod DIG_PER_DEC1 in
  b ← (if lastdigits =? 0 then Some b else x ← rd frac_max (lastdigits - 1); wr b p x);
  Some (mk_decimal intpart frac0 (len to) false b).

(** ** Addition *)

(** The three loops of [do_add], on the number [l] with the longer fraction, the
    other one [s], and [n3] words of the number [l3] with the longer integer
    part.  The result has the carry and the last [buf0]. *)
Definition add_parts (l : list Z) (i_l f_l : Z) (s : list Z) (i_s f_s : Z) (l3 : list Z) (n3 : Z)
    (b : list Z) (b0 : Z) : option (list Z * Z * Z) :=
  (* part 1 - MY_MAX(frac) ... min (frac) *)
  let b1 := i_l + f_l in
  let stop := i_l + f_s in
  let b2 := i_s + f_s in
  let stop2 := if i_s <? i_l then i_l - i_s else 0 in
  b ← copy_down (Z.to_nat (b1 - stop)) b b0 l b1;
  let b0 := b0 - Z.max 0 (b1 - stop) in
  let b1 := b1 - Z.max 0 (b1 - stop) in
  (* part 2 - MY_MIN(frac) ... MY_MIN(intg) *)
  '(b, carry) ← op_down ADD (Z.to_nat (b1 - stop2)) b b0 l b1 s b2 0;
  let b0 := b0 - Z.max 0 (b1 - stop2) in
  (* part 3 - MY_MIN(intg) ... MY_MAX(intg) *)
  '(b, carry) ← carry_down ADD (Z.to_nat n3) b b0 l3 n3 carry;
  Some (b, carry, b0 - Z.max 0 n3).

Definition add_loops (from1 : list Z) (intg1 frac1 : Z) (from2 : list Z) (intg2 frac2 : Z)
    (b : list Z) (b0 : Z) : option (list Z * Z * Z) :=
  let l3 := if intg2 <? intg1 then from1 else from2 in
  let n3 := if intg2 <? intg1 then intg1 - intg2 else intg2 - intg1 in
  if frac2 <? frac1 then add_parts from1 intg1 frac1 from2 intg2 frac2 l3 n3 b b0
  else add_parts from2 intg2 frac2 from1 intg1 frac1 l3 n3 b b0.

Definition do_add (from1 from2 to : decimal_t) : option (decimal_t * Z) :=
  let intg1 := ROUND_UP (intg from1) in
  let intg2 := ROUND_UP (intg from2) in
  let frac1 := ROUND_UP (frac from1) in
  let frac2 := ROUND_UP (frac from2) in
  let frac0 := Z.max frac1 frac2 in
  let intg0 := Z.max intg1 intg2 in
  x ← (if intg2 <? intg1 then rd (buf from1) 0
       else if intg1 <? intg2 then rd (buf from2) 0
       else x1 ← rd (buf from1) 0; x2 ← rd (buf from2) 0; i32 (x1 + x2));
  '(to, intg0) ← (if DIG_MAX - 1 <? x
       then b ← wr (buf to) 0 0; Some (set_buf b to, intg0 + 1) else Some (to, intg0));
  let '(intg0, frac0, error) := FIX_INTG_FRAC_ERROR (len to) intg0 frac0 in
  if error =? E_DEC_OVERFLOW then
    to ← max_decimal (u16 (len to * DIG_PER_DEC1)) 0 to; Some (to, error)
  else
  let to := mk_decimal (intg0 * DIG_PER_DEC1) (Z.max (frac from1) (frac from2)) (len to)
    (sign from1) (buf to) in
  let fixed := negb (error =? E_DEC_OK) in
  let to := if fixed then set_frac (Z.min (frac to) (frac0 * DIG_PER_DEC1)) to else to in
  let frac1 := if fixed then Z.min frac1 frac0 else frac1 in
  let frac2 := if fixed then Z.min frac2 frac0 else frac2 in
  let intg1 := if fixed then Z.min intg1 intg0 else intg1 in
  let intg2 := if fixed then Z.min intg2 intg0 else intg2 in
  '(b, carry, b0) ← add_loops (buf from1) intg1 frac1 (buf from2) intg2 frac2 (buf to) (intg0 + frac0);
  b ← (if negb (carry =? 0) then wr b (b0 - 1) 1 else Some b);
  Some (set_buf b to, error).

(** ** Subtraction and comparison *)

(** [while (buf1 < stop1 && *buf1 == 0) buf1++] *)
Fixpoint skip_zeroes (n : nat) (b : list Z) (i : Z) : option Z :=
  match n with
  | O => Some i
  | S n => x ← rd b i; if x =? 0 then skip_zeroes n b (i + 1) else Some i
  end.

(** [while (buf1 <= end1 && *end1 == 0) end1--] *)
Fixpoint skip_last_zeroes (n : nat) (b : list Z) (i : Z) : option Z :=
  match n with
  | O => Some i
  | S n => x ← rd b i; if x =? 0 then skip_last_zeroes n b (i - 1) else Some i
  end.

(** [while (buf1 <= end1 && buf2 <= end2 && *buf1 == *buf2) buf1++, buf2++] *)
Fixpoint skip_equal (n : nat) (b1 : list Z) (i1 : Z) (b2 : list Z) (i2 : Z) : option (Z * Z) :=
  match n with
  | O => Some (i1, i2)
  | S n =>
    x ← rd b1 i1; y ← rd b2 i2;
    if x =? y then skip_equal n b1 (i1 + 1) b2 (i2 + 1) else Some (i1, i2)
  end.

(** The first word that is not 0, and the number of words of the integer part
    from there. *)
Definition first_word (b : list Z) (intg1 : Z) : option (Z * Z) :=
  x ← rd b 0;
  if x =? 0 then start ← skip_zeroes (Z.to_nat intg1) b 0; Some (start, intg1 - start)
  else Some (0, intg1).

(** The start of the words, the word counts and the comparison of [do_sub];
    [None] when the numbers are equal. *)
Record sub_state := mk_sub {
  start1 : Z; start2 : Z;
  sub_intg1 : Z; sub_intg2 : Z;
  sub_frac1 : Z; sub_frac2 : Z;
  sub_carry : bool;
}.

Definition sub_compare (from1 from2 : decimal_t) : option (option sub_state) :=
  let intg1 := ROUND_UP (intg from1) in
  let intg2 := ROUND_UP (intg from2) in
  let frac1 := ROUND_UP (frac from1) in
  let frac2 := ROUND_UP (frac from2) in
  let stop1 := intg1 in
  let stop2 := intg2 in
  '(start1, intg1) ← first_word (buf from1) intg1;
  '(start2, intg2) ← first_word (buf from2) intg2;
  if intg1 <? intg2 then Some (Some (mk_sub start1 start2 intg1 intg2 frac1 frac2 true))
  else if intg2 =? intg1 then
    let end1 := stop1 + (frac1 - 1) in
    let end2 := stop2 + (frac2 - 1) in
    end1 ← skip_last_zeroes (Z.to_nat (end1 + 1 - start1)) (buf from1) end1;
    end2 ← skip_last_zeroes (Z.to_nat (end2 + 1 - start2)) (buf from2) end2;
    let frac1 := end1 - stop1 + 1 in
    let frac2 := end2 - stop2 + 1 in
    '(buf1, buf2) ← skip_equal (Z.to_nat (Z.min (end1 + 1 - start1) (end2 + 1 - start2)))
      (buf from1) start1 (buf from2) start2;
    if buf1 <=? end1 then
      if buf2 <=? end2 then
        x ← rd (buf from1) buf1; y ← rd (buf from2) buf2;
        Some (Some (mk_sub start1 start2 intg1 intg2 frac1 frac2 (x <? y)))
      else Some (Some (mk_sub start1 start2 intg1 intg2 frac1 frac2 false))
    else if buf2 <=? end2 then Some (Some (mk_sub start1 start2 intg1 intg2 frac1 frac2 true))
    else Some None
  else Some (Some (mk_sub start1 start2 intg1 intg2 frac1 frac2 false)).

(** [SUB( *--buf0, 0, *--buf2, carry)] *)
Fixpoint neg_down (n : nat) (to : list Z) (b0 : Z) (from2 : list Z) (b2 carry : Z)
    : option (list Z * Z) :=
  match n with
  | O => Some (to, carry)
  | S n =>
    y ← rd from2 (b2 - 1);
    '(a, carry) ← SUB 0 y carry;
    to ← wr to (b0 - 1) a;
    neg_down n to (b0 - 1) from2 (b2 - 1) carry
  end.

(** [while (carry && buf1 > start1) SUB( *--buf0, *--buf1, 0, carry)], with the
    number of turns that remain. *)
Fixpoint borrow_down (n : nat) (to : list Z) (b0 : Z) (from1 : list Z) (b1 carry : Z)
    : option (list Z * nat) :=
  match n with
  | O => Some (to, O)
  | S m =>
    if carry =? 0 then Some (to, n) else
    x ← rd from1 (b1 - 1);
    '(a, carry) ← SUB x 0 carry;
    to ← wr to (b0 - 1) a;
    borrow_down m to (b0 - 1) from1 (b1 - 1) carry
  end.

(** Parts 2 and 3 of the subtraction, and the words that are left. *)
Definition sub_high (from1 : list Z) (start1 b1 : Z) (from2 : list Z) (start2 b2 : Z)
    (to : list Z) (b0 carry : Z) : option (list Z) :=
  (* part 2 - MY_MIN(frac) ... intg2 *)
  '(b, carry) ← op_down SUB (Z.to_nat (b2 - start2)) to b0 from1 b1 from2 b2 carry;
  let n := Z.max 0 (b2 - start2) in
  let b0 := b0 - n in
  let b1 := b1 - n in
  (* part 3 - intg2 ... intg1 *)
  '(b, n) ← borrow_down (Z.to_nat (b1 - start1)) b b0 from1 b1 carry;
  let b0 := b0 - (Z.max 0 (b1 - start1) - Z.of_nat n) in
  let b1 := b1 - (Z.max 0 (b1 - start1) - Z.of_nat n) in
  b ← copy_down n b b0 from1 b1;
  let b0 := b0 - Z.of_nat n in
  fill_down (Z.to_nat b0) 0 b b0.

(** The loops of the subtraction of [from2] from the larger [from1]. *)
Definition sub_loops (from1 : list Z) (start1 intg1 frac1 : Z) (from2 : list Z) (start2 intg2 frac2 : Z)
    (frac0 : Z) (to : list Z) : option (list Z) :=
  let b0 := intg1 + frac0 in
  let b1 := start1 + intg1 + frac1 in
  let b2 := start2 + intg2 + frac2 in
  (* part 1 - MY_MAX(frac) ... min (frac) *)
  if frac2 <? frac1 then
    b ← fill_down (Z.to_nat (frac0 - frac1)) 0 to b0;
    let b0 := b0 - Z.max 0 (frac0 - frac1) in
    b ← copy_down (Z.to_nat (frac1 - frac2)) b b0 from1 b1;
    sub_high from1 start1 (b1 - (frac1 - frac2)) from2 start2 b2 b (b0 - (frac1 - frac2)) 0
  else
    b ← fill_down (Z.to_nat (frac0 - frac2)) 0 to b0;
    let b0 := b0 - Z.max 0 (frac0 - frac2) in
    '(b, carry) ← neg_down (Z.to_nat (frac2 - frac1)) b b0 from2 b2 0;
    sub_high from1 start1 b1 from2 start2 (b2 - (frac2 - frac1)) b (b0 - (frac2 - frac1)) carry.

(** The subtraction of the smaller number [from2] from the larger [from1]; [to]
    has its sign already. *)
Definition sub_store (from1 from2 : decimal_t) (st : sub_state) (frac0 : Z) (to : decimal_t)
    : option (decimal_t * Z) :=
  let '(mk_sub start1 start2 intg1 intg2 frac1 frac2 _) := st in
  let '(intg1, frac0, error) := FIX_INTG_FRAC_ERROR (len to) intg1 frac0 in
  let to := mk_decimal (intg1 * DIG_PER_DEC1) (Z.max (frac from1) (frac from2)) (len to)
    (sign to) (buf to) in
  let fixed := negb (error =? E_DEC_OK) in
  let to := if fixed then set_frac (Z.min (frac to) (frac0 * DIG_PER_DEC1)) to else to in
  let frac1 := if fixed then Z.min frac1 frac0 else frac1 in
  let frac2 := if fixed then Z.min frac2 frac0 else frac2 in
  let intg2 := if fixed then Z.min intg2 intg1 else intg2 in
  b ← sub_loops (buf from1) start1 intg1 frac1 (buf from2) start2 intg2 frac2 frac0 (buf to);
  Some (set_buf b to, error).

(** [if (carry)]: the numbers are swapped, and the sign with them. *)
Definition sub_words (from1 from2 : decimal_t) (st : sub_state) (to : decimal_t)
    : option (decimal_t * Z) :=
  let frac0 := Z.max (ROUND_UP (frac from1)) (ROUND_UP (frac from2)) in
  let to := set_sign (sign from1) to in
  if sub_carry st
  then sub_store from2 from1 (mk_sub (start2 st) (start1 st) (sub_intg2 st) (sub_intg1 st)
         (sub_frac2 st) (sub_frac1 st) true) frac0 (set_sign (negb (sign to)) to)
  else sub_store from1 from2 st frac0 to.

Definition do_sub (from1 from2 to : decimal_t) : option (decimal_t * Z) :=
  c ← sub_compare from1 from2;
  match c with
  | None => to ← decimal_make_zero to; Some (to, E_DEC_OK)
  | Some st => sub_words from1 from2 st to
  end.

(** [do_sub] with [to == 0]. *)
Definition do_cmp (from1 from2 : decimal_t) : option Z :=
  c ← sub_compare from1 from2;
  Some (match c with
  | None => 0
  | Some st => if Bool.eqb (sub_carry st) (sign from1) then 1 else -1
  end).

Definition decimal_add (from1 from2 to : decimal_t) : option (decimal_t * Z) :=
  if Bool.eqb (sign from1) (sign from2) then do_add from1 from2 to else do_sub from1 from2 to.

Definition decimal_sub (from1 from2 to : decimal_t) : option (decimal_t * Z) :=
  if Bool.eqb (sign from1) (sign from2) then do_sub from1 from2 to else do_add from1 from2 to.

Definition decimal_cmp (from1 from2 : decimal_t) : option Z :=
  if Bool.eqb (sign from1) (sign from2) then do_cmp from1 from2
  else Some (if sign from1 && negb (sign from2) then -1 else 1).

(** [while (buf1 < end) if ( *buf1++) return 0] *)
Definition decimal_is_zero (from : decimal_t) : option bool :=
  let n := ROUND_UP (intg from) + ROUND_UP (frac from) in
  i ← skip_zeroes (Z.to_nat n) (buf from) 0;
  Some (negb (i <? n)).
