(* ===== verification/DecimalFacts.v ===== *)
(** * The words of a decimal and their value

    Arrays of words as numbers in base [10^9], and what the loops of decimal.c
    over the words compute. *)

From S2P Require Import Prelude MyBit Decimal.

#[local] Open Scope Z_scope.

(** ** Numbers in base [10^9] *)

Definition digit (x : Z) : Prop := 0 ≤ x < DIG_BASE.
Abbreviation digits := (Forall digit).

(** The number that words stand for, the first one being the highest. *)
Fixpoint num (l : list Z) : Z :=
  match l with
  | [] => 0
  | d :: l => d * DIG_BASE ^ Z.of_nat (length l) + num l
  end.

(** A power of the base, for a number of words. *)
Definition base (n : nat) : Z := DIG_BASE ^ Z.of_nat n.

Lemma base_pos n : 0 < base n.
Proof. unfold base. apply Z.pow_pos_nonneg; [done|lia]. Qed.

Lemma base_0 : base 0 = 1.
Proof. done. Qed.

Lemma base_S n : base (S n) = DIG_BASE * base n.
Proof. unfold base. rewrite Nat2Z.inj_succ, Z.pow_succ_r by lia. done. Qed.

Lemma base_add n m : base (n + m) = base n * base m.
Proof. unfold base. rewrite Nat2Z.inj_add, Z.pow_add_r by lia. done. Qed.

Lemma num_cons d l : num (d :: l) = d * base (length l) + num l.
Proof. done. Qed.

Lemma num_app l1 l2 : num (l1 ++ l2) = num l1 * base (length l2) + num l2.
Proof.
  induction l1 as [|d l1 IH]; [done|]. cbn [app]. rewrite !num_cons, IH, length_app, base_add. lia.
Qed.

Lemma num_snoc l d : num (l ++ [d]) = num l * DIG_BASE + d.
Proof. rewrite num_app. cbn [length num]. rewrite base_S, base_0. lia. Qed.

Lemma num_bound l : digits l → 0 ≤ num l < base (length l).
Proof.
  induction 1 as [|d l Hd Hl IH]; [done|]. rewrite num_cons. cbn [length]. rewrite base_S.
  unfold digit in Hd. nia.
Qed.

Lemma num_zeroes n : num (replicate n 0) = 0.
Proof. induction n as [|n IH]; [done|]. cbn [replicate]. rewrite num_cons, IH. lia. Qed.

Lemma digits_zeroes n : digits (replicate n 0).
Proof. by apply Forall_replicate. Qed.

(** ** Reading and writing *)

Lemma rd_app l1 x l2 : rd (l1 ++ x :: l2) (Z.of_nat (length l1)) = Some x.
Proof.
  unfold rd. rewrite (proj2 (Z.ltb_ge _ _)) by lia. rewrite Nat2Z.id. by apply list_lookup_middle.
Qed.

Lemma wr_app l1 x l2 v : wr (l1 ++ x :: l2) (Z.of_nat (length l1)) v = Some (l1 ++ v :: l2).
Proof.
  unfold wr. rewrite (proj2 (Z.ltb_ge _ _)) by lia. rewrite Nat2Z.id, list_lookup_middle by done.
  cbn [mbind option_bind]. by rewrite insert_app_r_alt, Nat.sub_diag by done.
Qed.

(** The word before the pointer [p] of an array that is unchanged below [p]. *)
Lemma wr_take to0 p R v :
  (p < length to0)%nat →
  wr (take (S p) to0 ++ R) (Z.of_nat p) v = Some (take p to0 ++ v :: R).
Proof.
  intros Hp. destruct (lookup_lt_is_Some_2 to0 p Hp) as [x Hx].
  rewrite (take_S_r _ _ _ Hx), <- app_assoc. cbn [app].
  rewrite <- (wr_app (take p to0) x R v). f_equal. rewrite length_take. lia.
Qed.

Lemma snoc_view {A} (l : list A) n : length l = S n → ∃ l' x, l = l' ++ [x] ∧ length l' = n.
Proof.
  intros Hl. destruct (exists_last (l := l)) as (l' & x & ->); [by intros ->|].
  exists l', x. split; [done|]. rewrite length_app in Hl. simpl in Hl. lia.
Qed.

(** The word before the pointer at the end of the segment [s ++ [x]]. *)
Lemma rd_snoc X s x Y n :
  length s = n → rd (X ++ (s ++ [x]) ++ Y) (Z.of_nat (length X) + Z.of_nat (S n) - 1) = Some x.
Proof.
  intros <-. replace (X ++ (s ++ [x]) ++ Y) with ((X ++ s) ++ x :: Y) by (by rewrite <- !app_assoc).
  rewrite <- (rd_app (X ++ s) x Y). f_equal. rewrite length_app. lia.
Qed.

(** ** Loops *)

(** [OP] computes [x + k * (y + carry)], with [k] 1 or -1. *)
Definition computes (k : Z) (OP : Z → Z → Z → option (Z * Z)) : Prop :=
  ∀ x y c, digit x → digit y → 0 ≤ c ≤ 1 →
    ∃ a c', OP x y c = Some (a, c') ∧ digit a ∧ 0 ≤ c' ≤ 1
      ∧ x + k * (y + c) = a + k * c' * DIG_BASE.

Lemma ADD_computes : computes 1 ADD.
Proof.
  intros x y c Hx Hy Hc. unfold ADD, digit, DIG_BASE in *.
  rewrite i32_ok by lia. cbn [mbind option_bind]. rewrite i32_ok by lia. cbn [mbind option_bind].
  destruct (Z.leb_spec 1000000000 (x + y + c)); eexists _, _; (split; [done|]); lia.
Qed.

Lemma SUB_computes : computes (-1) SUB.
Proof.
  intros x y c Hx Hy Hc. unfold SUB, digit, DIG_BASE in *.
  rewrite i32_ok by lia. cbn [mbind option_bind]. rewrite i32_ok by lia. cbn [mbind option_bind].
  destruct (Z.ltb_spec (x - y - c) 0); eexists _, _; (split; [done|]); lia.
Qed.

Lemma op_down_spec k OP n to0 p R X1 s1 Y1 X2 s2 Y2 c :
  computes k OP → (n ≤ p ≤ length to0)%nat → length s1 = n → length s2 = n →
  digits s1 → digits s2 → 0 ≤ c ≤ 1 →
  ∃ r c', op_down OP n (take p to0 ++ R) (Z.of_nat p)
      (X1 ++ s1 ++ Y1) (Z.of_nat (length X1) + Z.of_nat n)
      (X2 ++ s2 ++ Y2) (Z.of_nat (length X2) + Z.of_nat n) c
    = Some (take (p - n) to0 ++ r ++ R, c')
    ∧ length r = n ∧ digits r ∧ 0 ≤ c' ≤ 1
    ∧ num s1 + k * (num s2 + c) = num r + k * c' * base n.
Proof.
  intros HOP. revert p R s1 Y1 s2 Y2 c. induction n as [|n IH]; intros p R s1 Y1 s2 Y2 c Hp L1 L2 D1 D2 Hc.
  { exists [], c. cbn [op_down app]. rewrite Nat.sub_0_r.
    destruct s1, s2; try done. cbn [num]. rewrite base_0. split_and!; [done..|lia|lia|lia]. }
  destruct (snoc_view s1 n L1) as (t1 & x1 & -> & K1). destruct (snoc_view s2 n L2) as (t2 & x2 & -> & K2).
  apply Forall_app in D1 as [D1 Hx1%Forall_inv], D2 as [D2 Hx2%Forall_inv].
  cbn [op_down]. rewrite !rd_snoc by done. cbn [mbind option_bind].
  destruct (HOP x1 x2 c Hx1 Hx2 Hc) as (a & c1 & -> & Ha & Hc1 & E). cbn [mbind option_bind].
  destruct p as [|p]; [lia|]. replace (Z.of_nat (S p) - 1) with (Z.of_nat p) by lia.
  rewrite wr_take by lia. cbn [mbind option_bind].
  replace (Z.of_nat (length X1) + Z.of_nat (S n) - 1) with (Z.of_nat (length X1) + Z.of_nat n) by lia.
  replace (Z.of_nat (length X2) + Z.of_nat (S n) - 1) with (Z.of_nat (length X2) + Z.of_nat n) by lia.
  rewrite <- !app_assoc. cbn [app].
  destruct (IH p (a :: R) t1 (x1 :: Y1) t2 (x2 :: Y2) c1) as (r & c' & -> & Lr & Dr & Hc' & E'); [lia|done..|].
  exists (r ++ [a]), c'. rewrite <- app_assoc, !num_snoc, base_S, length_app, Lr. cbn [app length].
  split_and!; [done|lia|by apply Forall_app; split; [|constructor]|lia|lia|]. nia.
Qed.

Lemma carry_down_spec k OP n to0 p R X1 s1 Y1 c :
  computes k OP → (n ≤ p ≤ length to0)%nat → length s1 = n → digits s1 → 0 ≤ c ≤ 1 →
  ∃ r c', carry_down OP n (take p to0 ++ R) (Z.of_nat p)
      (X1 ++ s1 ++ Y1) (Z.of_nat (length X1) + Z.of_nat n) c
    = Some (take (p - n) to0 ++ r ++ R, c')
    ∧ length r = n ∧ digits r ∧ 0 ≤ c' ≤ 1 ∧ num s1 + k * c = num r + k * c' * base n.
Proof.
  intros HOP. revert p R s1 Y1 c. induction n as [|n IH]; intros p R s1 Y1 c Hp L1 D1 Hc.
  { exists [], c. cbn [carry_down app]. rewrite Nat.sub_0_r.
    destruct s1; try done. cbn [num]. rewrite base_0. split_and!; [done..|lia|lia|lia]. }
  destruct (snoc_view s1 n L1) as (t1 & x1 & -> & K1).
  apply Forall_app in D1 as [D1 Hx1%Forall_inv].
  cbn [carry_down]. rewrite !rd_snoc by done. cbn [mbind option_bind].
  destruct (HOP x1 0 c Hx1 ltac:(done) Hc) as (a & c1 & -> & Ha & Hc1 & E). cbn [mbind option_bind].
  destruct p as [|p]; [lia|]. replace (Z.of_nat (S p) - 1) with (Z.of_nat p) by lia.
  rewrite wr_take by lia. cbn [mbind option_bind].
  replace (Z.of_nat (length X1) + Z.of_nat (S n) - 1) with (Z.of_nat (length X1) + Z.of_nat n) by lia.
  rewrite <- !app_assoc. cbn [app].
  destruct (IH p (a :: R) t1 (x1 :: Y1) c1) as (r & c' & -> & Lr & Dr & Hc' & E'); [lia|done..|].
  exists (r ++ [a]), c'. rewrite <- app_assoc, !num_snoc, base_S, length_app, Lr. cbn [app length].
  split_and!; [done|lia|by apply Forall_app; split; [|constructor]|lia|lia|]. nia.
Qed.

Lemma copy_down_spec n to0 p R X1 s1 Y1 :
  (n ≤ p ≤ length to0)%nat → length s1 = n →
  copy_down n (take p to0 ++ R) (Z.of_nat p) (X1 ++ s1 ++ Y1) (Z.of_nat (length X1) + Z.of_nat n)
  = Some (take (p - n) to0 ++ s1 ++ R).
Proof.
  revert p R s1 Y1. induction n as [|n IH]; intros p R s1 Y1 Hp L1; cbn [copy_down].
  { rewrite Nat.sub_0_r. by destruct s1. }
  destruct (snoc_view s1 n L1) as (t1 & x1 & -> & K1).
  rewrite !rd_snoc by done. cbn [mbind option_bind].
  destruct p as [|p]; [lia|]. replace (Z.of_nat (S p) - 1) with (Z.of_nat p) by lia.
  rewrite wr_take by lia. cbn [mbind option_bind].
  replace (Z.of_nat (length X1) + Z.of_nat (S n) - 1) with (Z.of_nat (length X1) + Z.of_nat n) by lia.
  rewrite <- !app_assoc. cbn [app]. rewrite IH by (done || lia). done.
Qed.

Lemma fill_down_spec n v to0 p R :
  (n ≤ p ≤ length to0)%nat →
  fill_down n v (take p to0 ++ R) (Z.of_nat p) = Some (take (p - n) to0 ++ replicate n v ++ R).
Proof.
  revert p R. induction n as [|n IH]; intros p R Hp; cbn [fill_down].
  { by rewrite Nat.sub_0_r. }
  destruct p as [|p]; [lia|]. replace (Z.of_nat (S p) - 1) with (Z.of_nat p) by lia.
  rewrite wr_take by lia. cbn [mbind option_bind]. rewrite IH by lia.
  rewrite replicate_S_end, <- app_assoc. done.
Qed.

Lemma neg_down_spec n to0 p R X2 s2 Y2 c :
  (n ≤ p ≤ length to0)%nat → length s2 = n → digits s2 → 0 ≤ c ≤ 1 →
  ∃ r c', neg_down n (take p to0 ++ R) (Z.of_nat p)
      (X2 ++ s2 ++ Y2) (Z.of_nat (length X2) + Z.of_nat n) c
    = Some (take (p - n) to0 ++ r ++ R, c')
    ∧ length r = n ∧ digits r ∧ 0 ≤ c' ≤ 1 ∧ - (num s2 + c) = num r - c' * base n.
Proof.
  revert p R s2 Y2 c. induction n as [|n IH]; intros p R s2 Y2 c Hp L2 D2 Hc.
  { exists [], c. cbn [neg_down app]. rewrite Nat.sub_0_r.
    destruct s2; try done. cbn [num]. rewrite base_0. split_and!; [done..|lia|lia|lia]. }
  destruct (snoc_view s2 n L2) as (t2 & x2 & -> & K2).
  apply Forall_app in D2 as [D2 Hx2%Forall_inv].
  cbn [neg_down]. rewrite !rd_snoc by done. cbn [mbind option_bind].
  destruct (SUB_computes 0 x2 c ltac:(done) Hx2 Hc) as (a & c1 & -> & Ha & Hc1 & E). cbn [mbind option_bind].
  destruct p as [|p]; [lia|]. replace (Z.of_nat (S p) - 1) with (Z.of_nat p) by lia.
  rewrite wr_take by lia. cbn [mbind option_bind].
  replace (Z.of_nat (length X2) + Z.of_nat (S n) - 1) with (Z.of_nat (length X2) + Z.of_nat n) by lia.
  rewrite <- !app_assoc. cbn [app].
  destruct (IH p (a :: R) t2 (x2 :: Y2) c1) as (r & c' & -> & Lr & Dr & Hc' & E'); [lia|done..|].
  exists (r ++ [a]), c'. rewrite <- app_assoc, !num_snoc, base_S, length_app, Lr. cbn [app length].
  split_and!; [done|lia|by apply Forall_app; split; [|constructor]|lia|lia|]. nia.
Qed.

(** The words that [borrow_down] leaves are unchanged by what is borrowed. *)
Lemma borrow_down_spec n to0 p R X1 s1 Y1 c :
  (n ≤ p ≤ length to0)%nat → length s1 = n → digits s1 → 0 ≤ c ≤ 1 → c ≤ num s1 →
  ∃ r m t1 u1, borrow_down n (take p to0 ++ R) (Z.of_nat p)
      (X1 ++ s1 ++ Y1) (Z.of_nat (length X1) + Z.of_nat n) c
    = Some (take (p - (n - m)) to0 ++ r ++ R, m)
    ∧ s1 = t1 ++ u1 ∧ length t1 = m ∧ length r = length u1 ∧ digits r ∧ num u1 - c = num r.
Proof.
  revert p R s1 Y1 c. induction n as [|n IH]; intros p R s1 Y1 c Hp L1 D1 Hc Hle.
  { destruct s1; [|done]. cbn [num] in Hle. exists [], O, [], []. cbn [borrow_down app num].
    rewrite Nat.sub_0_r. split_and!; [done..|lia]. }
  cbn [borrow_down]. destruct (Z.eqb_spec c 0) as [->|Hc0].
  { exists [], (S n), s1, []. rewrite Nat.sub_diag, Nat.sub_0_r, app_nil_r. by split_and!. }
  assert (c = 1) as -> by lia.
  destruct (snoc_view s1 n L1) as (t1 & x1 & -> & K1).
  apply Forall_app in D1 as [D1 Hx1%Forall_inv]. rewrite num_snoc in Hle.
  rewrite !rd_snoc by done. cbn [mbind option_bind].
  destruct (SUB_computes x1 0 1 Hx1 ltac:(done) ltac:(lia)) as (a & c1 & -> & Ha & Hc1 & E). cbn [mbind option_bind].
  destruct p as [|p]; [lia|]. replace (Z.of_nat (S p) - 1) with (Z.of_nat p) by lia.
  rewrite wr_take by lia. cbn [mbind option_bind].
  replace (Z.of_nat (length X1) + Z.of_nat (S n) - 1) with (Z.of_nat (length X1) + Z.of_nat n) by lia.
  rewrite <- !app_assoc. cbn [app].
  destruct (IH p (a :: R) t1 (x1 :: Y1) c1) as (r & m & u1 & u2 & -> & -> & Lm & Lr & Dr & E');
    [lia|done..| |].
  { unfold digit in *. pose proof (num_bound t1 D1). nia. }
  exists (r ++ [a]), m, u1, (u2 ++ [x1]). rewrite <- !app_assoc, !num_snoc, !length_app, Lr in *. cbn [app length] in *.
  split_and!; [f_equal; f_equal; f_equal; f_equal; lia|done|done|lia|by apply Forall_app; split; [|constructor]|]. nia.
Qed.

Lemma fill_up_spec n v X s Y :
  length s = n →
  fill_up n v (X ++ s ++ Y) (Z.of_nat (length X)) = Some (X ++ replicate n v ++ Y).
Proof.
  revert X s. induction n as [|n IH]; intros X s Hl; cbn [fill_up].
  { by destruct s. }
  destruct s as [|x s]; [done|]. cbn [app]. rewrite wr_app. cbn [mbind option_bind replicate app].
  replace (X ++ v :: s ++ Y) with ((X ++ [v]) ++ s ++ Y) by (by rewrite <- app_assoc).
  replace (Z.of_nat (length X) + 1) with (Z.of_nat (length (X ++ [v]))) by (rewrite length_app; simpl; lia).
  rewrite IH by (simpl in Hl; lia). by rewrite <- app_assoc.
Qed.

(** ** Decimals *)

(** The numbers of words of the integer part and of the fraction. *)
Definition ni (d : decimal_t) : nat := Z.to_nat (ROUND_UP (intg d)).
Definition nf (d : decimal_t) : nat := Z.to_nat (ROUND_UP (frac d)).

(** The words in use. *)
Definition words (d : decimal_t) : list Z := take (ni d + nf d) (buf d).

Record wf (d : decimal_t) : Prop := {
  wf_intg : 0 ≤ intg d;
  wf_frac : 0 ≤ frac d;
  wf_some : 0 < intg d + frac d;
  wf_len : len d = Z.of_nat (length (buf d));
  wf_fit : (ni d + nf d ≤ length (buf d))%nat;
  wf_digits : digits (words d);
}.

(** The words with [F] words of fraction, cut off or filled up with 0. *)
Definition words_at (F : nat) (d : decimal_t) : list Z :=
  take (ni d + F) (words d ++ replicate F 0).

(** The absolute value in units of [10^(-9F)], rounded down. *)
Definition mant_at (F : nat) (d : decimal_t) : Z := num (words_at F d).

(** The value with its sign. *)
Definition value_at (F : nat) (d : decimal_t) : Z := (if sign d then -1 else 1) * mant_at F d.

Lemma ROUND_UP_spec x : 0 ≤ x → ROUND_UP x = (x + 8) / 9.
Proof.
  intros Hx. unfold ROUND_UP, DIG_PER_DEC1. destruct (Z.ltb_spec 0 x).
  - rewrite Z.quot_div_nonneg by lia. done.
  - by replace x with 0 by lia.
Qed.

Lemma ni_spec d : wf d → ROUND_UP (intg d) = Z.of_nat (ni d).
Proof. intros W. unfold ni. pose proof (wf_intg d W). rewrite ROUND_UP_spec by done. rewrite Z2Nat.id; [done|divlia]. Qed.

Lemma nf_spec d : wf d → ROUND_UP (frac d) = Z.of_nat (nf d).
Proof. intros W. unfold nf. pose proof (wf_frac d W). rewrite ROUND_UP_spec by done. rewrite Z2Nat.id; [done|divlia]. Qed.

Lemma words_some d : wf d → (0 < ni d + nf d)%nat.
Proof.
  intros W. unfold ni, nf. pose proof (wf_intg d W). pose proof (wf_frac d W). pose proof (wf_some d W).
  rewrite !ROUND_UP_spec by done. divlia.
Qed.

Lemma length_words d : wf d → length (words d) = (ni d + nf d)%nat.
Proof. intros W. pose proof (wf_fit d W). unfold words. rewrite length_take. lia. Qed.

Lemma buf_words d : buf d = words d ++ drop (ni d + nf d) (buf d).
Proof. symmetry. apply take_drop. Qed.

Lemma length_words_at F d : wf d → length (words_at F d) = (ni d + F)%nat.
Proof.
  intros W. unfold words_at. rewrite length_take, length_app, length_words, length_replicate by done. lia.
Qed.

Lemma digits_words_at F d : wf d → digits (words_at F d).
Proof. intros W. apply Forall_take, Forall_app. split; [apply W|apply digits_zeroes]. Qed.

(** Fewer words than there are: the first ones. *)
Lemma words_at_le F d : wf d → (F ≤ nf d)%nat → words_at F d = take (ni d + F) (words d).
Proof. intros W HF. unfold words_at. rewrite take_app_le; [done|]. rewrite length_words by done. lia. Qed.

(** More words than there are: zeroes. *)
Lemma words_at_ge F d : wf d → (nf d ≤ F)%nat → words_at F d = words d ++ replicate (F - nf d) 0.
Proof.
  intros W HF. unfold words_at. rewrite take_app_ge by (rewrite length_words by done; lia). f_equal.
  rewrite take_replicate, length_words by done. f_equal. lia.
Qed.

Lemma words_at_min F d :
  wf d → words_at F d = words_at (Nat.min F (nf d)) d ++ replicate (F - nf d) 0.
Proof.
  intros W. destruct (decide (F ≤ nf d)%nat).
  - rewrite Nat.min_l by done. replace (F - nf d)%nat with 0%nat by lia. by rewrite app_nil_r.
  - rewrite Nat.min_r by lia. rewrite words_at_ge, (words_at_ge (nf d)) by (done || lia).
    by rewrite Nat.sub_diag, app_nil_r.
Qed.

Lemma mant_at_nonneg F d : wf d → 0 ≤ mant_at F d < base (ni d + F).
Proof.
  intros W. pose proof (num_bound _ (digits_words_at F d W)) as H. by rewrite length_words_at in H.
Qed.
