(* ===== verification/DecimalAdd.v ===== *)
(** * Addition of decimals

    [do_add] adds the words from the last to the first, in three parts: the
    words that only the longer fraction has, the words both numbers have, and
    the words that only the longer integer part has. *)

From S2P Require Import Prelude MyBit Decimal DecimalFacts.

#[local] Open Scope Z_scope.

(** An array cut at three places. *)
Lemma split3 (b : list Z) (i j k : nat) :
  (i ≤ j ≤ k)%nat → (k ≤ length b)%nat →
  ∃ hi mid low, b = hi ++ mid ++ low ++ drop k b ∧ take k b = hi ++ mid ++ low
    ∧ length hi = i ∧ length mid = (j - i)%nat ∧ length low = (k - j)%nat.
Proof.
  intros H Hk. exists (take i b), (take (j - i) (drop i b)), (take (k - j) (drop j b)).
  assert (E : take k b = take i b ++ take (j - i) (drop i b) ++ take (k - j) (drop j b)).
  { rewrite <- (take_drop i (take k b)), take_take, Nat.min_l by lia. f_equal.
    rewrite skipn_firstn_comm, <- (take_drop (j - i) (take (k - i) (drop i b))), take_take, Nat.min_l by lia.
    f_equal. rewrite skipn_firstn_comm, drop_drop. f_equal; [lia|]. f_equal. lia. }
  rewrite !length_take, !length_drop. split_and!; [|done|lia..].
  rewrite <- (take_drop k b) at 1. rewrite E. by rewrite <- !app_assoc.
Qed.

(** Parts 1 and 2. *)
Lemma add_part12 to0 p Lhi Lmid Llow Ly Shi Smid Sy :
  length Lmid = length Smid → digits Lmid → digits Smid →
  (length Lmid + length Llow ≤ p ≤ length to0)%nat →
  ∃ r c,
    (b ← copy_down (length Llow) to0 (Z.of_nat p) (Lhi ++ Lmid ++ Llow ++ Ly)
           (Z.of_nat (length Lhi + length Lmid + length Llow));
     op_down ADD (length Lmid) b (Z.of_nat (p - length Llow)) (Lhi ++ Lmid ++ Llow ++ Ly)
       (Z.of_nat (length Lhi + length Lmid)) (Shi ++ Smid ++ Sy) (Z.of_nat (length Shi + length Smid)) 0)
    = Some (take (p - length Llow - length Lmid) to0 ++ r ++ Llow ++ drop p to0, c)
    ∧ length r = length Lmid ∧ digits r ∧ 0 ≤ c ≤ 1
    ∧ num Lmid + num Smid = num r + c * base (length Lmid).
Proof.
  intros Hm DL DS Hp.
  pose proof (copy_down_spec (length Llow) to0 p (drop p to0) (Lhi ++ Lmid) Llow Ly) as H1.
  rewrite take_drop, <- !app_assoc in H1.
  replace (Z.of_nat (length Lhi + length Lmid + length Llow))
    with (Z.of_nat (length (Lhi ++ Lmid)) + Z.of_nat (length Llow)) by (rewrite length_app; lia).
  rewrite H1 by (done || lia). cbn [mbind option_bind].
  destruct (op_down_spec 1 ADD (length Lmid) to0 (p - length Llow) (Llow ++ drop p to0)
    Lhi Lmid (Llow ++ Ly) Shi Smid Sy 0 ADD_computes) as (r & c & E & Hr & Dr & Hc & EQ); [lia|done|done|done|done|lia|].
  exists r, c. rewrite <- E. split_and!; [|done..|lia|lia|lia]. f_equal; lia.
Qed.

(** Part 3, on the number with more words before the point. *)
Lemma add_part3 to0 p R hi Y c :
  digits hi → (length hi ≤ p ≤ length to0)%nat → 0 ≤ c ≤ 1 →
  ∃ r c', carry_down ADD (length hi) (take p to0 ++ R) (Z.of_nat p) (hi ++ Y) (Z.of_nat (length hi)) c
    = Some (take (p - length hi) to0 ++ r ++ R, c')
    ∧ length r = length hi ∧ digits r ∧ 0 ≤ c' ≤ 1 ∧ num hi + c = num r + c' * base (length hi).
Proof.
  intros D Hp Hc.
  destruct (carry_down_spec 1 ADD (length hi) to0 p R [] hi Y c ADD_computes) as (r & c' & E & Hr & Dr & Hc' & EQ);
    [done..|]. exists r, c'. split_and!; [done..|lia|lia|lia].
Qed.

(** The three parts together.  [hi] is the longer of [Lhi] and [Shi], the other
    one is empty. *)
Lemma add_words to0 p Lhi Lmid Llow Ly Shi Smid Sy hi Y :
  length Lmid = length Smid → digits (Lhi ++ Lmid ++ Llow) → digits (Shi ++ Smid) →
  (hi ++ Y = Lhi ++ Lmid ++ Llow ++ Ly ∧ hi = Lhi ∧ Shi = []
   ∨ hi ++ Y = Shi ++ Smid ++ Sy ∧ hi = Shi ∧ Lhi = []) →
  (length hi + length Lmid + length Llow ≤ p ≤ length to0)%nat →
  ∃ r c,
    (b ← copy_down (length Llow) to0 (Z.of_nat p) (Lhi ++ Lmid ++ Llow ++ Ly)
           (Z.of_nat (length Lhi + length Lmid + length Llow));
     '(b, c) ← op_down ADD (length Lmid) b (Z.of_nat (p - length Llow)) (Lhi ++ Lmid ++ Llow ++ Ly)
       (Z.of_nat (length Lhi + length Lmid)) (Shi ++ Smid ++ Sy) (Z.of_nat (length Shi + length Smid)) 0;
     carry_down ADD (length hi) b (Z.of_nat (p - length Llow - length Lmid)) (hi ++ Y)
       (Z.of_nat (length hi)) c)
    = Some (take (p - length Llow - length Lmid - length hi) to0 ++ r ++ drop p to0, c)
    ∧ length r = (length hi + length Lmid + length Llow)%nat ∧ digits r ∧ 0 ≤ c ≤ 1
    ∧ num (Lhi ++ Lmid ++ Llow) + num (Shi ++ Smid) * base (length Llow)
      = num r + c * base (length r).
Proof.
  intros Hm [DL1 [DL2 DL3]%Forall_app]%Forall_app [DS1 DS2]%Forall_app Hhi Hp.
  destruct (add_part12 to0 p Lhi Lmid Llow Ly Shi Smid Sy) as (r & c & E & Hr & Dr & Hc & EQ); [done..|lia|].
  destruct (copy_down _ _ _ _ _) as [b1|]; [|done]. cbn [mbind option_bind] in *.
  rewrite E. cbn [mbind option_bind].
  destruct (add_part3 to0 (p - length Llow - length Lmid) (r ++ Llow ++ drop p to0) hi Y c)
    as (r3 & c' & -> & Hr3 & Dr3 & Hc' & EQ3); [naive_solver|lia|done|].
  exists (r3 ++ r ++ Llow), c'. rewrite <- !app_assoc, !length_app, Hr, Hr3. split_and!; [done|lia| |lia|lia|].
  { by rewrite !Forall_app. }
  rewrite !num_app, !base_add, !length_app, !base_add, Hr, <- ?Hm.
  destruct Hhi as [(_ & -> & ->)|(_ & -> & ->)]; cbn [num length] in *; rewrite ?base_0; nia.
Qed.

(** The pieces of an array of [i] and [f] words that shares [m] words before
    the point and [g] after it with the other number. *)
Lemma cut_words (b : list Z) i f m g :
  (m ≤ i)%nat → (g ≤ f)%nat → (i + f ≤ length b)%nat →
  ∃ hi mid low, b = hi ++ mid ++ low ++ drop (i + f) b ∧ take (i + f) b = hi ++ mid ++ low
    ∧ length hi = (i - m)%nat ∧ length mid = (m + g)%nat ∧ length low = (f - g)%nat.
Proof.
  intros Hm Hg Hb. destruct (split3 b (i - m) (i + g) (i + f)) as (hi & mid & low & H); [lia..|].
  exists hi, mid, low. intuition lia.
Qed.

(** One orientation: the fraction of [l] is at least as long as that of [s]. *)
Lemma add_oriented l il fl s is_ fs l3 n3 to0 p :
  (fs ≤ fl)%nat → (il + fl ≤ length l)%nat → (is_ + fs ≤ length s)%nat →
  digits (take (il + fl) l) → digits (take (is_ + fs) s) →
  (is_ ≤ il ∧ l3 = l ∧ n3 = il - is_ ∨ il ≤ is_ ∧ l3 = s ∧ n3 = is_ - il)%nat →
  (Nat.max il is_ + fl ≤ p ≤ length to0)%nat →
  ∃ r c,
    (b ← copy_down (fl - fs) to0 (Z.of_nat p) l (Z.of_nat (il + fl));
     '(b, c) ← op_down ADD (Nat.min il is_ + fs) b (Z.of_nat (p - (fl - fs))) l (Z.of_nat (il + fs))
       s (Z.of_nat (is_ + fs)) 0;
     carry_down ADD n3 b (Z.of_nat (p - (Nat.min il is_ + fl))) l3 (Z.of_nat n3) c)
    = Some (take (p - (Nat.max il is_ + fl)) to0 ++ r ++ drop p to0, c)
    ∧ length r = (Nat.max il is_ + fl)%nat ∧ digits r ∧ 0 ≤ c ≤ 1
    ∧ num (take (il + fl) l) + num (take (is_ + fs) s) * base (fl - fs) = num r + c * base (length r).
Proof.
  intros Hf Hl Hs DL DS H3 Hp.
  destruct (cut_words l il fl (Nat.min il is_) fs) as (Lhi & Lmid & Llow & EL & TL & L1 & L2 & L3); [lia..|].
  destruct (cut_words s is_ fs (Nat.min il is_) fs) as (Shi & Smid & Slow & ES & TS & S1 & S2 & S3); [lia..|].
  destruct Slow; [|simpl in S3; lia]. cbn [app] in ES, TS. rewrite app_nil_r in TS.
  rewrite TL in *. rewrite TS in *.
  set (hi := if decide (is_ ≤ il)%nat then Lhi else Shi).
  assert (Hhi : length hi = n3 ∧ ∃ Y, l3 = hi ++ Y ∧
    (hi ++ Y = Lhi ++ Lmid ++ Llow ++ drop (il + fl) l ∧ hi = Lhi ∧ Shi = []
     ∨ hi ++ Y = Shi ++ Smid ++ drop (is_ + fs) s ∧ hi = Shi ∧ Lhi = [])).
  { subst hi. destruct H3 as [(? & -> & ->)|(? & -> & ->)].
    - rewrite decide_True by lia. split; [lia|]. eexists. split; [exact EL|]. left.
      split_and!; [done..|]. apply length_zero_iff_nil. lia.
    - case_decide.
      + assert (il = is_) as -> by lia.
        assert (Lhi = []) as -> by (apply length_zero_iff_nil; lia).
        assert (Shi = []) as -> by (apply length_zero_iff_nil; lia).
        split; [simpl; lia|]. exists s. split; [done|]. right. by split_and!.
      + split; [lia|]. eexists. split; [exact ES|]. right. split_and!; [done..|].
        apply length_zero_iff_nil. lia. }
  destruct Hhi as (Hn3 & Y & E3 & Hcase).
  destruct (add_words to0 p Lhi Lmid Llow (drop (il + fl) l) Shi Smid (drop (is_ + fs) s) hi Y)
    as (r & c & E & Hr & Dr & Hc & EQ); [lia|done|done|done|lia|].
  exists r, c. rewrite <- EL, <- ES, <- E3, Hn3, L1, L2, L3, S1, S2 in E. rewrite L3 in EQ.
  assert (Hmax : (length hi + length Lmid + length Llow = Nat.max il is_ + fl)%nat) by lia.
  replace (il - Nat.min il is_ + (Nat.min il is_ + fs) + (fl - fs))%nat with (il + fl)%nat in E by lia.
  replace (il - Nat.min il is_ + (Nat.min il is_ + fs))%nat with (il + fs)%nat in E by lia.
  replace (is_ - Nat.min il is_ + (Nat.min il is_ + fs))%nat with (is_ + fs)%nat in E by lia.
  replace (p - (fl - fs) - (Nat.min il is_ + fs))%nat with (p - (Nat.min il is_ + fl))%nat in E by lia.
  replace (p - (Nat.min il is_ + fl) - n3)%nat with (p - (Nat.max il is_ + fl))%nat in E by lia.
  split_and!; [done|lia|done|lia|lia|done].
Qed.

Lemma add_parts_spec l il fl s is_ fs l3 n3 to0 p :
  (fs ≤ fl)%nat → (il + fl ≤ length l)%nat → (is_ + fs ≤ length s)%nat →
  digits (take (il + fl) l) → digits (take (is_ + fs) s) →
  (is_ ≤ il ∧ l3 = l ∧ n3 = il - is_ ∨ il ≤ is_ ∧ l3 = s ∧ n3 = is_ - il)%nat →
  let T := (Nat.max il is_ + fl)%nat in
  (T ≤ p ≤ length to0)%nat →
  ∃ r c, add_parts l (Z.of_nat il) (Z.of_nat fl) s (Z.of_nat is_) (Z.of_nat fs) l3 (Z.of_nat n3)
      to0 (Z.of_nat p)
    = Some (take (p - T) to0 ++ r ++ drop p to0, c, Z.of_nat (p - T))
    ∧ length r = T ∧ digits r ∧ 0 ≤ c ≤ 1
    ∧ num (take (il + fl) l) + num (take (is_ + fs) s) * base (fl - fs) = num r + c * base T.
Proof.
  intros Hf Hl Hs DL DS H3 T Hp.
  destruct (add_oriented l il fl s is_ fs l3 n3 to0 p) as (r & c & E & Hr & Dr & Hc & EQ); [done..|].
  exists r, c. rewrite Hr in EQ. split_and!; [|done|done|lia|lia|done]. unfold add_parts.
  replace (Z.of_nat il + Z.of_nat fl - (Z.of_nat il + Z.of_nat fs)) with (Z.of_nat (fl - fs)) by lia.
  rewrite Z.max_r by lia. rewrite !Nat2Z.id.
  replace (Z.of_nat il + Z.of_nat fl) with (Z.of_nat (il + fl)) by lia.
  replace (Z.of_nat (il + fl) - Z.of_nat (fl - fs)) with (Z.of_nat (il + fs)) by lia.
  replace (if Z.of_nat is_ <? Z.of_nat il then Z.of_nat il - Z.of_nat is_ else 0)
    with (Z.of_nat (il - is_)) by (destruct (Z.ltb_spec (Z.of_nat is_) (Z.of_nat il)); lia).
  replace (Z.of_nat (il + fs) - Z.of_nat (il - is_)) with (Z.of_nat (Nat.min il is_ + fs)) by lia.
  rewrite !Z.max_r, Nat2Z.id by lia.
  replace (Z.of_nat p - Z.of_nat (fl - fs)) with (Z.of_nat (p - (fl - fs))) by lia.
  replace (Z.of_nat is_ + Z.of_nat fs) with (Z.of_nat (is_ + fs)) by lia.
  replace (Z.of_nat (p - (fl - fs)) - Z.of_nat (Nat.min il is_ + fs))
    with (Z.of_nat (p - (Nat.min il is_ + fl))) by lia.
  destruct (copy_down _ _ _ _ _) as [b1|]; [|done]. cbn [mbind option_bind] in *.
  destruct (op_down _ _ _ _ _ _ _ _ _) as [[b2 c2]|]; [|done]. cbn [mbind option_bind] in *.
  rewrite E. cbn [mbind option_bind]. do 3 f_equal. lia.
Qed.

Lemma add_loops_spec l1 i1 f1 l2 i2 f2 to0 p :
  (i1 + f1 ≤ length l1)%nat → (i2 + f2 ≤ length l2)%nat →
  digits (take (i1 + f1) l1) → digits (take (i2 + f2) l2) →
  let F := Nat.max f1 f2 in
  let T := (Nat.max i1 i2 + F)%nat in
  (T ≤ p ≤ length to0)%nat →
  ∃ r c,
    add_loops l1 (Z.of_nat i1) (Z.of_nat f1) l2 (Z.of_nat i2) (Z.of_nat f2) to0 (Z.of_nat p)
    = Some (take (p - T) to0 ++ r ++ drop p to0, c, Z.of_nat (p - T))
    ∧ length r = T ∧ digits r ∧ 0 ≤ c ≤ 1
    ∧ num (take (i1 + f1) l1) * base (F - f1) + num (take (i2 + f2) l2) * base (F - f2)
      = num r + c * base T.
Proof.
  intros H1 H2 D1 D2 F T Hp. unfold add_loops. set (l3 := if _ <? _ then l1 else l2).
  set (n3 := (Nat.max i1 i2 - Nat.min i1 i2)%nat).
  replace (if Z.of_nat i2 <? Z.of_nat i1 then _ else _) with (Z.of_nat n3)
    by (destruct (Z.ltb_spec (Z.of_nat i2) (Z.of_nat i1)); subst n3; lia).
  assert (H3 : (i2 ≤ i1 ∧ l3 = l1 ∧ n3 = i1 - i2 ∨ i1 ≤ i2 ∧ l3 = l2 ∧ n3 = i2 - i1)%nat).
  { subst l3 n3. destruct (Z.ltb_spec (Z.of_nat i2) (Z.of_nat i1)); [left|right]; split_and!; done || lia. }
  destruct (Z.ltb_spec (Z.of_nat f2) (Z.of_nat f1)) as [Hf|Hf].
  - destruct (add_parts_spec l1 i1 f1 l2 i2 f2 l3 n3 to0 p) as (r & c & E & Hr & Dr & Hc & EQ);
      [lia|done|done|done|done|done|lia|].
    exists r, c. subst T F. replace (Nat.max f1 f2) with f1 in * by lia. rewrite Nat.sub_diag, base_0, Z.mul_1_r.
    split_and!; [done|done|done|lia|lia|done].
  - destruct (add_parts_spec l2 i2 f2 l1 i1 f1 l3 n3 to0 p) as (r & c & E & Hr & Dr & Hc & EQ);
      [lia|done|done|done|done|tauto|lia|].
    exists r, c. subst T F. replace (Nat.max f1 f2) with f2 in * by lia. rewrite (Nat.max_comm i1 i2).
    rewrite Nat.sub_diag, base_0, Z.mul_1_r. split_and!; [done|done|done|lia|lia|lia].
Qed.

(** ** The value of the sum *)

Lemma mant_at_cut F d :
  wf d →
  mant_at F d = num (take (ni d + Nat.min (nf d) F) (buf d)) * base (F - Nat.min (nf d) F).
Proof.
  intros W. unfold mant_at. rewrite words_at_min by done. rewrite Nat.min_comm.
  rewrite words_at_le by (done || lia). rewrite num_app, num_zeroes, length_replicate, Z.add_0_r.
  unfold words. rewrite take_take, Nat.min_l by lia. do 2 f_equal. lia.
Qed.

Lemma digits_cut F d : wf d → digits (take (ni d + Nat.min (nf d) F) (buf d)).
Proof.
  intros W. replace (ni d + Nat.min (nf d) F)%nat with (Nat.min (ni d + Nat.min (nf d) F) (ni d + nf d)) by lia.
  rewrite <- take_take. apply Forall_take, W.
Qed.

(** The first word bounds the number. *)
Lemma num_first x l n :
  l !! 0%nat = Some x → digits l → length l = S n → num l < (x + 1) * base n.
Proof.
  intros Hx Hd Hn. destruct l as [|y l]; [done|]. simplify_eq/=.
  apply Forall_inv_tail in Hd. pose proof (num_bound l Hd). unfold base in *. nia.
Qed.

Lemma first_word_rd d : wf d → ∃ x, rd (buf d) 0 = Some x ∧ (words d) !! 0%nat = Some x ∧ digit x.
Proof.
  intros W. pose proof (words_some d W). pose proof (length_words d W) as Hl.
  destruct (words d) as [|x l] eqn:E; [simpl in Hl; lia|]. exists x.
  pose proof (buf_words d) as Hb. rewrite E in Hb. unfold rd. rewrite Hb. split_and!; [done..| |].
  all: pose proof (wf_digits d W) as HD; rewrite E in HD; by apply Forall_inv in HD.
Qed.

(** Without an extra word the sum does not carry over. *)
Lemma add_no_carry d1 d2 F x r c :
  wf d1 → wf d2 → (0 < F ∨ 0 < Nat.max (ni d1) (ni d2))%nat →
  (if (ni d2 <? ni d1)%nat then (words d1) !! 0%nat = Some x
   else if (ni d1 <? ni d2)%nat then (words d2) !! 0%nat = Some x
   else ∃ x1 x2, (words d1) !! 0%nat = Some x1 ∧ (words d2) !! 0%nat = Some x2 ∧ x = x1 + x2) →
  x ≤ DIG_MAX - 1 → 0 ≤ c ≤ 1 → digits r → length r = (Nat.max (ni d1) (ni d2) + F)%nat →
  mant_at F d1 + mant_at F d2 = num r + c * base (Nat.max (ni d1) (ni d2) + F) → c = 0.
Proof.
  intros W1 W2 Hpos Hx Hxm Hc Dr Lr E.
  assert (Hfirst : ∀ d, wf d → (0 < F ∨ 0 < ni d)%nat → (words_at F d) !! 0%nat = (words d) !! 0%nat).
  { intros d W Hp. unfold words_at. rewrite lookup_take_lt by lia. apply lookup_app_l.
    rewrite length_words by done. by apply words_some. }
  pose proof (mant_at_nonneg F d1 W1) as B1. pose proof (mant_at_nonneg F d2 W2) as B2.
  set (n := (Nat.max (ni d1) (ni d2) + F - 1)%nat).
  replace (Nat.max (ni d1) (ni d2) + F)%nat with (S n) in * by lia. rewrite base_S in E.
  pose proof (base_pos n). pose proof (num_bound r Dr) as Br. rewrite Lr, base_S in Br.
  assert (Hmono : ∀ k, (k ≤ n)%nat → base k ≤ base n).
  { intros k Hk. unfold base. apply Z.pow_le_mono_r; lia. }
  enough (mant_at F d1 + mant_at F d2 < DIG_BASE * base n) by nia.
  unfold DIG_MAX in Hxm. destruct (Nat.ltb_spec (ni d2) (ni d1)); [|destruct (Nat.ltb_spec (ni d1) (ni d2))].
  - pose proof (num_first x (words_at F d1) n) as N1. rewrite Hfirst, length_words_at in N1 by (done || lia).
    specialize (N1 Hx (digits_words_at F d1 W1) ltac:(lia)). fold (mant_at F d1) in N1.
    pose proof (Hmono (ni d2 + F)%nat ltac:(lia)). nia.
  - pose proof (num_first x (words_at F d2) n) as N1. rewrite Hfirst, length_words_at in N1 by (done || lia).
    specialize (N1 Hx (digits_words_at F d2 W2) ltac:(lia)). fold (mant_at F d2) in N1.
    pose proof (Hmono (ni d1 + F)%nat ltac:(lia)). nia.
  - destruct Hx as (x1 & x2 & Hx1 & Hx2 & ->).
    pose proof (num_first x1 (words_at F d1) n) as N1. rewrite Hfirst, length_words_at in N1 by (done || lia).
    specialize (N1 Hx1 (digits_words_at F d1 W1) ltac:(lia)). fold (mant_at F d1) in N1.
    pose proof (num_first x2 (words_at F d2) n) as N2. rewrite Hfirst, length_words_at in N2 by (done || lia).
    specialize (N2 Hx2 (digits_words_at F d2 W2) ltac:(lia)). fold (mant_at F d2) in N2. nia.
Qed.

(** A buffer that a result can be stored in; [len * 9] digits fit into the
    16 bits of [decimal_digits_t]. *)
Definition buffer (to : decimal_t) : Prop :=
  len to = Z.of_nat (length (buf to)) ∧ 0 < len to ≤ 7281.

(** What [do_add] and [do_sub] store on overflow: nothing but nines. *)
Lemma max_decimal_full to :
  buffer to →
  max_decimal (u16 (len to * DIG_PER_DEC1)) 0 to
  = Some (mk_decimal (len to * 9) 0 (len to) false (replicate (length (buf to)) DIG_MAX)).
Proof.
  intros [Hl Hn]. unfold max_decimal, u16, DIG_PER_DEC1.
  rewrite Z.sub_0_r, !Z.mod_small by (rewrite ?Z.mod_small by lia; lia).
  rewrite Z.mod_mul, Z.eqb_refl, Z.div_mul by lia. cbn [mbind option_bind].
  pose proof (fill_up_spec (length (buf to)) DIG_MAX [] (buf to) [] eq_refl) as H1.
  rewrite !app_nil_r in H1. cbn [app length] in H1. change (Z.of_nat 0) with 0 in H1. rewrite Hl, Nat2Z.id, H1. done.
Qed.

(** The word counts of the result. *)
Lemma fixed_counts intg0 frac0 n :
  let '(i, f, e) := FIX_INTG_FRAC_ERROR n intg0 frac0 in
  0 ≤ intg0 → 0 ≤ frac0 → 0 < n →
  (e = E_DEC_OVERFLOW ∧ n < intg0)
  ∨ i = intg0 ∧ 0 ≤ f ≤ frac0 ∧ i + f ≤ n ∧ (0 < intg0 + frac0 → 0 < i + f)
    ∧ (e = E_DEC_OK ∧ f = frac0 ∨ e = E_DEC_TRUNCATED ∧ f < frac0 ∧ i + f = n).
Proof.
  unfold FIX_INTG_FRAC_ERROR. destruct (Z.ltb_spec n (intg0 + frac0)); [destruct (Z.ltb_spec n intg0)|]; lia.
Qed.

(** The read of the first words, and the test for an extra word. *)
Lemma add_first_word d1 d2 :
  wf d1 → wf d2 →
  ∃ x, (if ROUND_UP (intg d2) <? ROUND_UP (intg d1) then rd (buf d1) 0
        else if ROUND_UP (intg d1) <? ROUND_UP (intg d2) then rd (buf d2) 0
        else x1 ← rd (buf d1) 0; x2 ← rd (buf d2) 0; i32 (x1 + x2)) = Some x
    ∧ (if (ni d2 <? ni d1)%nat then (words d1) !! 0%nat = Some x
       else if (ni d1 <? ni d2)%nat then (words d2) !! 0%nat = Some x
       else ∃ x1 x2, (words d1) !! 0%nat = Some x1 ∧ (words d2) !! 0%nat = Some x2 ∧ x = x1 + x2).
Proof.
  intros W1 W2. rewrite !ni_spec by done.
  destruct (first_word_rd d1 W1) as (x1 & R1 & L1 & D1), (first_word_rd d2 W2) as (x2 & R2 & L2 & D2).
  rewrite R1, R2.
  destruct (Z.ltb_spec (Z.of_nat (ni d2)) (Z.of_nat (ni d1))), (Nat.ltb_spec (ni d2) (ni d1)); try lia.
  { by exists x1. }
  destruct (Z.ltb_spec (Z.of_nat (ni d1)) (Z.of_nat (ni d2))), (Nat.ltb_spec (ni d1) (ni d2)); try lia.
  { by exists x2. }
  exists (x1 + x2). cbn [mbind option_bind]. unfold digit, DIG_BASE in *. rewrite i32_ok by lia.
  split; [done|]. by exists x1, x2.
Qed.

(** The word of a number at the place [m] words before the point, for a number with
    at most [m] words there; for [m = 0], the first word behind the point. *)
Definition lead (m : nat) (d : decimal_t) : Z := mant_at 1 d / base m.

(** The words before the point that a sum may need: one more than the numbers have
    when their leading words add up to [DIG_MAX] or more. *)
Definition sum_words (d1 d2 : decimal_t) : nat :=
  let m := Nat.max (ni d1) (ni d2) in if DIG_MAX <=? lead m d1 + lead m d2 then S m else m.

Lemma lead_first d x : wf d → (words d) !! 0%nat = Some x → lead (ni d) d = x.
Proof.
  intros W Hx. unfold lead, mant_at. pose proof (digits_words_at 1 d W) as D. pose proof (length_words_at 1 d W) as L.
  assert (H0 : words_at 1 d !! 0%nat = Some x).
  { unfold words_at. rewrite lookup_take_lt by lia. rewrite lookup_app_l; [done|].
    rewrite length_words by done. by apply words_some. }
  destruct (words_at 1 d) as [|y l]; [done|]. simplify_eq/=. replace (length l) with (ni d) by lia.
  apply Forall_inv_tail in D. pose proof (num_bound l D). symmetry.
  apply (Z.div_unique_pos _ _ _ (num l)); [replace (ni d) with (length l) by lia; done|]. fold (base (ni d)). lia.
Qed.

Lemma lead_above m d : wf d → (ni d < m)%nat → lead m d = 0.
Proof.
  intros W Hm. unfold lead. apply Z.div_small. pose proof (mant_at_nonneg 1 d W).
  enough (base (ni d + 1) ≤ base m) by lia. unfold base. apply Z.pow_le_mono_r; [done|lia].
Qed.

(** The first word that is read decides. *)
Lemma first_word_lead d1 d2 x :
  wf d1 → wf d2 → let m := Nat.max (ni d1) (ni d2) in
  (if (ni d2 <? ni d1)%nat then (words d1) !! 0%nat = Some x
   else if (ni d1 <? ni d2)%nat then (words d2) !! 0%nat = Some x
   else ∃ x1 x2, (words d1) !! 0%nat = Some x1 ∧ (words d2) !! 0%nat = Some x2 ∧ x = x1 + x2) →
  lead m d1 + lead m d2 = x.
Proof.
  intros W1 W2 m Hx. subst m. destruct (Nat.ltb_spec (ni d2) (ni d1)); [|destruct (Nat.ltb_spec (ni d1) (ni d2))].
  - rewrite Nat.max_l, (lead_first d1 x), lead_above by (done || lia). lia.
  - rewrite Nat.max_r, (lead_first d2 x), lead_above by (done || lia). lia.
  - destruct Hx as (x1 & x2 & H1 & H2 & ->). replace (Nat.max (ni d1) (ni d2)) with (ni d1) by lia.
    rewrite (lead_first d1 x1) by done. replace (ni d1) with (ni d2) by lia. by rewrite (lead_first d2 x2).
Qed.

(** The outcome of an addition or subtraction whose result has [i] words before the
    point, [sum] units of [10^(-9F)] and the sign [sg]. *)
Record stored (to to' : decimal_t) (error : Z) (sg : bool) (fr : Z) (i F : nat) (sum : Z) : Prop := {
  st_wf : wf to';
  st_len : len to' = len to;
  st_sign : sign to' = sg;
  st_intg_words : ni to' = i;
  st_words : nf to' = F;
  st_value : mant_at F to' = sum;
  st_error : error = E_DEC_OK ∧ frac to' = fr
    ∨ error = E_DEC_TRUNCATED ∧ (ni to' + F = length (buf to))%nat;
}.

Lemma stored_intro to0 to i F fr fr' sg error r sum :
  buffer to0 → len to = len to0 → length (buf to) = length (buf to0) →
  intg to = Z.of_nat i * 9 → frac to = fr' → sign to = sg →
  0 ≤ fr' → ROUND_UP fr' = Z.of_nat F → (0 < i + F)%nat → (i + F ≤ length (buf to0))%nat →
  take (i + F) (buf to) = r → digits r → num r = sum →
  (error = E_DEC_OK ∧ fr' = fr ∨ error = E_DEC_TRUNCATED ∧ (i + F = length (buf to0))%nat) →
  stored to0 to error sg fr i F sum.
Proof.
  intros [Hl Hn] El Eb Ei Ef Es Hf HF Hpos Hfit Er Dr Hsum He.
  assert (Hni : ni to = i). { unfold ni. rewrite Ei, ROUND_UP_spec by lia. divlia. }
  assert (Hnf : nf to = F) by (unfold nf; rewrite Ef, HF; lia).
  assert (W : wf to).
  { split; [lia|lia| |congruence|rewrite Hni, Hnf, Eb; lia|unfold words; by rewrite Hni, Hnf, Er].
    destruct i; [|lia]. rewrite ROUND_UP_spec in HF by done. destruct (decide (fr' = 0)); [subst|lia].
    replace ((0 + 8) / 9) with 0 in HF by done. lia. }
  split; try done.
  - unfold mant_at. rewrite words_at_le by (done || lia). unfold words.
    by rewrite Hni, Hnf, take_take, Nat.min_id, Er.
  - by rewrite Ef, Hni.
Qed.

(** The loops and the carry, for a result of [i + F] words, one of them extra
    when [extra] is 1; the first word is 0 then. *)
Lemma add_store d1 d2 to0 F extra x :
  wf d1 → wf d2 → let i := (Nat.max (ni d1) (ni d2) + extra)%nat in
  (F ≤ Nat.max (nf d1) (nf d2))%nat → (0 < i + F ≤ length to0)%nat →
  (if (ni d2 <? ni d1)%nat then (words d1) !! 0%nat = Some x
   else if (ni d1 <? ni d2)%nat then (words d2) !! 0%nat = Some x
   else ∃ x1 x2, (words d1) !! 0%nat = Some x1 ∧ (words d2) !! 0%nat = Some x2 ∧ x = x1 + x2) →
  (extra = 0%nat ∧ x ≤ DIG_MAX - 1 ∨ extra = 1%nat ∧ to0 !! 0%nat = Some 0) →
  ∃ b r,
    ('(b, carry, b0) ← add_loops (buf d1) (Z.of_nat (ni d1)) (Z.of_nat (Nat.min (nf d1) F))
        (buf d2) (Z.of_nat (ni d2)) (Z.of_nat (Nat.min (nf d2) F)) to0 (Z.of_nat (i + F));
     if negb (carry =? 0) then wr b (b0 - 1) 1 else Some b) = Some b
    ∧ length b = length to0 ∧ take (i + F) b = r ∧ digits r
    ∧ num r = mant_at F d1 + mant_at F d2.
Proof.
  intros W1 W2 i HF Hi Hx Hextra. pose proof (wf_fit d1 W1). pose proof (wf_fit d2 W2).
  destruct (add_loops_spec (buf d1) (ni d1) (Nat.min (nf d1) F) (buf d2) (ni d2) (Nat.min (nf d2) F)
    to0 (i + F)) as (r & c & -> & Lr & Dr & Hc & E); [lia|lia|by apply digits_cut|by apply digits_cut|lia|].
  cbn [mbind option_bind]. replace (Nat.max (Nat.min (nf d1) F) (Nat.min (nf d2) F)) with F in * by lia.
  rewrite <- !mant_at_cut in E by done. set (T := (Nat.max (ni d1) (ni d2) + F)%nat) in *.
  replace (i + F - T)%nat with extra by (subst i T; lia).
  destruct Hextra as [[-> Hxm]|[-> Hz]].
  - assert (c = 0) as -> by (eapply (add_no_carry d1 d2 F x r); try done; subst i; lia).
    cbn [negb Z.eqb]. rewrite take_0. cbn [app]. exists (r ++ drop (i + F) to0), r.
    rewrite length_app, length_drop. split_and!; [done|subst i T; lia| |done|lia].
    apply take_app_length'. subst i T. lia.
  - destruct to0 as [|y to0]; [done|]. injection Hz as ->.
    exists (c :: r ++ drop (i + F) (0 :: to0)), (c :: r).
    cbn [take app length]. rewrite length_app, length_drop. split_and!.
    + destruct (Z.eqb_spec c 0) as [->|]; cbn [negb]; [done|]. by replace c with 1 by lia.
    + simpl length in *. subst i T. lia.
    + change (take (i + F) ((c :: r) ++ drop (i + F) (0 :: to0)) = c :: r).
      apply take_app_length'. cbn [length]. subst i T. lia.
    + constructor; [unfold digit, DIG_BASE; lia|done].
    + rewrite num_cons, Lr. lia.
Qed.

Lemma wr_first b v : (0 < length b)%nat → ∃ b', wr b 0 v = Some b' ∧ length b' = length b ∧ b' !! 0%nat = Some v.
Proof. intros Hb. destruct b as [|x b]; [simpl in Hb; lia|]. exists (v :: b). by split_and!. Qed.

(** The extra word, if the sum may need one. *)
Lemma add_extra d1 d2 to x :
  buffer to →
  ∃ to1 extra, (if DIG_MAX - 1 <? x
      then b ← wr (buf to) 0 0; Some (set_buf b to, Z.max (Z.of_nat (ni d1)) (Z.of_nat (ni d2)) + 1)
      else Some (to, Z.max (Z.of_nat (ni d1)) (Z.of_nat (ni d2))))
      = Some (to1, Z.of_nat (Nat.max (ni d1) (ni d2) + extra))
    ∧ buffer to1 ∧ len to1 = len to ∧ length (buf to1) = length (buf to)
    ∧ (extra = 0%nat ∧ x ≤ DIG_MAX - 1 ∨ extra = 1%nat ∧ buf to1 !! 0%nat = Some 0)
    ∧ (extra = 1%nat ↔ DIG_MAX ≤ x).
Proof.
  intros Hto. pose proof Hto as [Hl Hn]. destruct (Z.ltb_spec (DIG_MAX - 1) x).
  - destruct (wr_first (buf to) 0) as (b & -> & Hb & H0); [lia|]. cbn [mbind option_bind].
    exists (set_buf b to), 1%nat. split_and!; [do 2 f_equal; lia|unfold buffer; cbn; lia..|done|cbn; lia|by right|lia].
  - exists to, 0%nat. split_and!; [do 2 f_equal; lia|done..|by left|lia].
Qed.

(** The digits of the fraction that are kept. *)
Lemma kept_frac d1 d2 F error i n :
  wf d1 → wf d2 →
  (error = E_DEC_OK ∧ Z.of_nat F = Z.max (Z.of_nat (nf d1)) (Z.of_nat (nf d2))
   ∨ error = E_DEC_TRUNCATED ∧ Z.of_nat F < Z.max (Z.of_nat (nf d1)) (Z.of_nat (nf d2))
     ∧ Z.of_nat i + Z.of_nat F = Z.of_nat n) →
  let fr := Z.max (frac d1) (frac d2) in
  let fr' := if negb (error =? E_DEC_OK) then Z.min fr (Z.of_nat F * DIG_PER_DEC1) else fr in
  0 ≤ fr' ∧ ROUND_UP fr' = Z.of_nat F ∧ (error = E_DEC_OK ∧ fr' = fr ∨ error = E_DEC_TRUNCATED ∧ (i + F = n)%nat).
Proof.
  intros W1 W2 He. rewrite <- !nf_spec in He by done. pose proof (wf_frac d1 W1). pose proof (wf_frac d2 W2).
  rewrite !ROUND_UP_spec in He by done. unfold DIG_PER_DEC1.
  destruct He as [[-> He]|(-> & He & Hn)]; cbn [Z.eqb negb E_DEC_OK E_DEC_TRUNCATED];
    (split_and!; [lia|rewrite ROUND_UP_spec by lia; divlia|auto with lia]).
Qed.

(** [do_add] adds the absolute values: exactly when the result fits, otherwise
    with as many words of the fraction as fit; or the words that the integer part
    may need do not fit, and the result is nothing but nines. *)
Lemma do_add_spec d1 d2 to :
  wf d1 → wf d2 → buffer to →
  ∃ to' error, do_add d1 d2 to = Some (to', error) ∧
    ((length (buf to) < sum_words d1 d2)%nat ∧ error = E_DEC_OVERFLOW
       ∧ to' = mk_decimal (len to * 9) 0 (len to) false (replicate (length (buf to)) DIG_MAX)
     ∨ ∃ F, (sum_words d1 d2 ≤ length (buf to))%nat
        ∧ stored to to' error (sign d1) (Z.max (frac d1) (frac d2)) (sum_words d1 d2) F (mant_at F d1 + mant_at F d2)
        ∧ (error = E_DEC_OK ∧ F = Nat.max (nf d1) (nf d2)
           ∨ error = E_DEC_TRUNCATED ∧ (F < Nat.max (nf d1) (nf d2))%nat)).
Proof.
  intros W1 W2 Hto. pose proof Hto as [Hl Hn]. unfold do_add.
  destruct (add_first_word d1 d2 W1 W2) as (x & -> & Hx). cbn [mbind option_bind].
  rewrite !ni_spec, !nf_spec by done.
  destruct (add_extra d1 d2 to x Hto) as (to1 & extra & -> & Hto1 & El1 & Eb1 & Hextra & Hiff).
  cbn [mbind option_bind]. set (i := (Nat.max (ni d1) (ni d2) + extra)%nat) in *.
  assert (Hi : sum_words d1 d2 = i).
  { unfold sum_words. rewrite (first_word_lead d1 d2 x) by done. destruct (Z.leb_spec DIG_MAX x); subst i; lia. }
  rewrite !Hi. clear Hi Hiff.
  pose proof (fixed_counts (Z.of_nat i) (Z.max (Z.of_nat (nf d1)) (Z.of_nat (nf d2))) (len to1)) as Hfix.
  destruct (FIX_INTG_FRAC_ERROR _ _ _) as [[i' f'] error].
  destruct Hfix as [[-> Hov]|(-> & Hf & Hfit & Hpos & Herr)]; [lia..| |].
  { rewrite Z.eqb_refl, max_decimal_full, El1, Eb1 by done. cbn [mbind option_bind].
    eexists _, _. split; [done|]. left. split; [lia|done]. }
  rewrite (proj2 (Z.eqb_neq error E_DEC_OVERFLOW)) by (destruct Herr as [[-> _]|[-> _]]; done).
  pose proof (words_some d1 W1). pose proof (words_some d2 W2).
  set (F := Z.to_nat f'). replace f' with (Z.of_nat F) in * by lia.
  rewrite El1, Hl in Herr.
  destruct (kept_frac d1 d2 F error i _ W1 W2 Herr) as (K1 & K2 & K3). cbv zeta in K1, K2, K3.
  assert (M : ∀ (d : decimal_t), (nf d ≤ Nat.max (nf d1) (nf d2))%nat →
    (if negb (error =? E_DEC_OK) then Z.min (Z.of_nat (nf d)) (Z.of_nat F) else Z.of_nat (nf d))
    = Z.of_nat (Nat.min (nf d) F)).
  { intros d Hd. destruct Herr as [[-> ?]|[-> ?]]; cbn [Z.eqb negb E_DEC_OK E_DEC_TRUNCATED]; lia. }
  rewrite !M by lia.
  assert (N : ∀ (d : decimal_t), (ni d ≤ i)%nat →
    (if negb (error =? E_DEC_OK) then Z.min (Z.of_nat (ni d)) (Z.of_nat i) else Z.of_nat (ni d))
    = Z.of_nat (ni d)) by (intros d Hd; case_match; lia).
  rewrite !N by (subst i; lia).
  destruct (add_store d1 d2 (buf to1) F extra x) as (b & r & E & Lb & Tr & Dr & Er); [done|done|lia|lia|done|done|].
  set (to2 := if negb (error =? E_DEC_OK) then _ else _).
  replace (buf to2) with (buf to1) by (subst to2; by destruct (negb _)).
  rewrite <- Nat2Z.inj_add. fold i in E. destruct (add_loops _ _ _ _ _ _ _ _) as [[[b1 c] b0]|]; [|done].
  cbn [mbind option_bind] in *. rewrite E. cbn [mbind option_bind]. eexists _, _. split; [done|]. right.
  exists F. split; [lia|]. split; [|destruct Herr as [[-> ?]|(-> & ? & _)]; [left|right]; (split; [done|lia])].
  apply (stored_intro to (set_buf b to2) i F _
    (if negb (error =? E_DEC_OK) then Z.min (Z.max (frac d1) (frac d2)) (Z.of_nat F * DIG_PER_DEC1)
     else Z.max (frac d1) (frac d2)) _ error r); try done; subst to2; try (by destruct (negb _)); try lia.
  cbn [buf set_buf]. congruence.
Qed.
