(* ===== verification/DecimalSub.v ===== *)
(** * Subtraction and comparison of decimals

    [do_sub] first finds the larger number, comparing the words from the first
    to the last without leading and, when the integer parts are equally long,
    without trailing zeroes; then it subtracts the words of the smaller number
    from those of the larger. *)

From S2P Require Import Prelude MyBit Decimal DecimalFacts DecimalAdd.

#[local] Open Scope Z_scope.

(** ** The loops of the comparison *)

Lemma skip_zeroes_spec n X s Y :
  length s = n →
  ∃ k t, skip_zeroes n (X ++ s ++ Y) (Z.of_nat (length X)) = Some (Z.of_nat (length X + k))
    ∧ s = replicate k 0 ++ t ∧ (∀ x, t !! 0%nat = Some x → x ≠ 0).
Proof.
  revert X s. induction n as [|n IH]; intros X s Hl; cbn [skip_zeroes].
  { exists 0%nat, []. destruct s; [|done]. rewrite Nat.add_0_r. by split_and!. }
  destruct s as [|x s]; [done|]. cbn [app]. rewrite rd_app. cbn [mbind option_bind].
  destruct (Z.eqb_spec x 0) as [->|Hx].
  - destruct (IH (X ++ [0]) s) as (k & t & E & -> & Ht); [simpl in Hl; lia|].
    rewrite length_app, <- app_assoc in E. cbn [length app] in E.
    exists (S k), t. replace (Z.of_nat (length X) + 1) with (Z.of_nat (length X + 1)) by lia.
    rewrite E. split_and!; [f_equal; lia|done|done].
  - exists 0%nat, (x :: s). rewrite Nat.add_0_r. split_and!; [done..|]. naive_solver.
Qed.

Lemma skip_last_zeroes_spec n X s Y :
  length s = n →
  ∃ k t, skip_last_zeroes n (X ++ s ++ Y) (Z.of_nat (length X) + Z.of_nat n - 1)
      = Some (Z.of_nat (length X) + Z.of_nat (length t) - 1)
    ∧ s = t ++ replicate k 0 ∧ (∀ x t', t = t' ++ [x] → x ≠ 0).
Proof.
  revert s Y. induction n as [|n IH]; intros s Y Hl; cbn [skip_last_zeroes].
  { exists 0%nat, []. destruct s; [|done]. split_and!; [done..|]. by intros x [|].  }
  destruct (snoc_view s n Hl) as (s' & x & -> & Hl'). rewrite rd_snoc by done. cbn [mbind option_bind].
  destruct (Z.eqb_spec x 0) as [->|Hx].
  - destruct (IH s' ([0] ++ Y) Hl') as (k & t & E & -> & Ht).
    exists (S k), t. rewrite <- !app_assoc in *. cbn [app] in *.
    replace (Z.of_nat (length X) + Z.of_nat (S n) - 1 - 1) with (Z.of_nat (length X) + Z.of_nat n - 1) by lia.
    rewrite E. split_and!; [done| |done]. by rewrite replicate_S_end.
  - exists 0%nat, (s' ++ [x]). rewrite length_app, app_nil_r, Hl'. cbn [length]. split_and!; [f_equal; lia|done|].
    intros y t' E. by apply app_inj_2 in E as [_ [= ->]].
Qed.

Lemma skip_equal_spec n X1 s1 Y1 X2 s2 Y2 :
  length s1 = n → length s2 = n →
  ∃ e t1 t2, skip_equal n (X1 ++ s1 ++ Y1) (Z.of_nat (length X1)) (X2 ++ s2 ++ Y2) (Z.of_nat (length X2))
      = Some (Z.of_nat (length X1 + length e), Z.of_nat (length X2 + length e))
    ∧ s1 = e ++ t1 ∧ s2 = e ++ t2
    ∧ (t1 = [] ∧ t2 = [] ∨ ∃ x u1 y u2, t1 = x :: u1 ∧ t2 = y :: u2 ∧ x ≠ y).
Proof.
  revert X1 s1 X2 s2. induction n as [|n IH]; intros X1 s1 X2 s2 L1 L2; cbn [skip_equal].
  { exists [], [], []. destruct s1, s2; try done. rewrite !Nat.add_0_r. split_and!; auto. }
  destruct s1 as [|x s1], s2 as [|y s2]; try done. cbn [app]. rewrite !rd_app. cbn [mbind option_bind].
  destruct (Z.eqb_spec x y) as [->|Hx].
  - destruct (IH (X1 ++ [y]) s1 (X2 ++ [y]) s2) as (e & t1 & t2 & E & -> & -> & Ht); [simpl in *; lia..|].
    rewrite !length_app, <- !app_assoc in E. cbn [length app] in E.
    exists (y :: e), t1, t2. replace (Z.of_nat (length X1) + 1) with (Z.of_nat (length X1 + 1)) by lia.
    replace (Z.of_nat (length X2) + 1) with (Z.of_nat (length X2 + 1)) by lia.
    rewrite <- !app_assoc, E. cbn [length].
    split_and!; [do 2 f_equal; lia|done..].
  - exists [], (x :: s1), (y :: s2). cbn [length]. rewrite !Nat.add_0_r. split_and!; [done..|]. right. eauto 10.
Qed.

(** ** The comparison *)

(** The words of [d]: [st] zeroes, the words [E], and [k] zeroes. *)
Definition trimmed (d : decimal_t) (st : nat) (E : list Z) (k : nat) : Prop :=
  words d = replicate st 0 ++ E ++ replicate k 0 ∧ (st ≤ ni d)%nat ∧ (k ≤ nf d + (ni d - st))%nat.

Lemma first_word_spec d :
  wf d →
  ∃ st E, first_word (buf d) (Z.of_nat (ni d)) = Some (Z.of_nat st, Z.of_nat (ni d - st))
    ∧ trimmed d st E 0 ∧ ((st < ni d)%nat → ∃ x u, E = x :: u ∧ 0 < x).
Proof.
  intros W. unfold first_word. destruct (first_word_rd d W) as (x & -> & Hx & Dx). cbn [mbind option_bind].
  pose proof (length_words d W) as Hl. pose proof (wf_digits d W) as HD. unfold digit in Dx.
  destruct (Z.eqb_spec x 0) as [->|Hx0].
  - pose proof (skip_zeroes_spec (ni d) [] (take (ni d) (words d)) (drop (ni d) (words d) ++ drop (ni d + nf d) (buf d)))
      as (k & t & E & Ht & Hh); [rewrite length_take; lia|].
    cbn [length app] in E. rewrite app_assoc, take_drop, <- buf_words in E. change (Z.of_nat 0) with 0 in E.
    rewrite Nat2Z.id, E. cbn [mbind option_bind Nat.add].
    assert (Hk : (k ≤ ni d)%nat).
    { apply (f_equal length) in Ht. rewrite length_app, length_replicate, length_take in Ht. lia. }
    exists k, (t ++ drop (ni d) (words d)). split; [do 2 f_equal; lia|].
    assert (Hw : words d = replicate k 0 ++ t ++ drop (ni d) (words d)).
    { rewrite app_assoc, <- Ht. symmetry. apply take_drop. }
    split; [split_and!; [by rewrite app_nil_r|done|lia]|]. intros Hlt.
    destruct t as [|y t].
    { apply (f_equal length) in Ht. rewrite app_nil_r, length_replicate, length_take in Ht. lia. }
    exists y, (t ++ drop (ni d) (words d)). split; [done|]. specialize (Hh y eq_refl).
    rewrite Hw in HD. apply Forall_app in HD as [_ HD]. apply Forall_inv in HD. unfold digit in HD. lia.
  - exists 0%nat, (words d). rewrite Nat.sub_0_r. split; [done|]. split.
    + split_and!; [by rewrite app_nil_r|lia..].
    + intros _. destruct (words d) as [|y u]; [done|]. exists y, u. injection Hx as ->. split; [done|lia].
Qed.

(** ** Comparing trimmed numbers *)

Lemma trimmed_length d st E k :
  wf d → trimmed d st E k → (length E + st + k = ni d + nf d)%nat.
Proof.
  intros W (Hw & _). pose proof (length_words d W) as Hl. rewrite Hw in Hl.
  rewrite !length_app, !length_replicate in Hl. lia.
Qed.

Lemma trimmed_digits d st E k : wf d → trimmed d st E k → digits E.
Proof.
  intros W (Hw & _). pose proof (wf_digits d W) as HD. rewrite Hw in HD.
  by apply Forall_app in HD as [_ [HD _]%Forall_app].
Qed.

Lemma trimmed_value F d st E k :
  wf d → trimmed d st E k → (nf d ≤ F)%nat → mant_at F d = num E * base (k + (F - nf d)).
Proof.
  intros W (Hw & _) HF. unfold mant_at. rewrite words_at_ge, Hw by done.
  rewrite !num_app, !num_zeroes, !length_replicate, base_add. lia.
Qed.

(** The value in [N] words. *)
Definition scaled (N : nat) (T : list Z) : Z := num T * base (N - length T).

Lemma scaled_app N e a : (length e + length a ≤ N)%nat →
  scaled N (e ++ a) = num e * base (N - length e) + scaled (N - length e) a.
Proof.
  intros H. unfold scaled. rewrite num_app, length_app, Z.mul_add_distr_r, <- Z.mul_assoc, <- base_add.
  do 2 f_equal; f_equal; lia.
Qed.

Lemma scaled_bound N x u : digits (x :: u) → (length (x :: u) ≤ N)%nat →
  x * base (N - 1) ≤ scaled N (x :: u) < (x + 1) * base (N - 1).
Proof.
  intros HD HN. inversion_clear HD as [|? ? Hx Hu]. pose proof (num_bound u Hu). cbn [length] in HN.
  unfold scaled. rewrite num_cons. cbn [length].
  replace (N - 1)%nat with (length u + (N - S (length u)))%nat by lia. rewrite base_add.
  pose proof (base_pos (N - S (length u))). nia.
Qed.

Lemma num_last_pos a x : digits (a ++ [x]) → x ≠ 0 → 0 < num (a ++ [x]).
Proof.
  intros [Ha Hx%Forall_inv]%Forall_app Hx0. rewrite num_snoc. pose proof (num_bound a Ha).
  unfold digit, DIG_BASE in *. lia.
Qed.

(** The order of two numbers without trailing zeroes, by the first difference. *)
Lemma compare_scaled N e a b :
  (length e + length a ≤ N)%nat → (length e + length b ≤ N)%nat → digits (e ++ a) → digits (e ++ b) →
  (∀ x t', e ++ a = t' ++ [x] → x ≠ 0) → (∀ x t', e ++ b = t' ++ [x] → x ≠ 0) →
  match a, b with
  | [], [] => scaled N (e ++ a) = scaled N (e ++ b)
  | [], _ => scaled N (e ++ a) < scaled N (e ++ b)
  | _, [] => scaled N (e ++ b) < scaled N (e ++ a)
  | x :: _, y :: _ => x ≠ y →
      if x <? y then scaled N (e ++ a) < scaled N (e ++ b) else scaled N (e ++ b) < scaled N (e ++ a)
  end.
Proof.
  intros Ha Hb [_ Da]%Forall_app [_ Db]%Forall_app La Lb. rewrite !scaled_app by done.
  set (M := (N - length e)%nat).
  assert (Hpos : ∀ c, c ≠ [] → (length c ≤ M)%nat → digits c → (∀ x t', e ++ c = t' ++ [x] → x ≠ 0) →
    0 < scaled M c).
  { intros c Hc HM Dc Hlast. destruct (exists_last Hc) as (c' & x & ->). unfold scaled.
    apply Z.mul_pos_pos; [|apply base_pos]. apply num_last_pos; [done|].
    apply (Hlast x (e ++ c')). by rewrite app_assoc. }
  assert (H0 : scaled M [] = 0) by (unfold scaled; cbn [num]; lia).
  destruct a as [|x u], b as [|y v]; [done|rewrite H0..|].
  - specialize (Hpos (y :: v) ltac:(done) ltac:(lia) Db Lb). lia.
  - specialize (Hpos (x :: u) ltac:(done) ltac:(lia) Da La). lia.
  - intros Hxy. pose proof (scaled_bound M x u Da ltac:(lia)). pose proof (scaled_bound M y v Db ltac:(lia)).
    pose proof (base_pos (M - 1)). destruct (Z.ltb_spec x y); nia.
Qed.

(** What the comparison tells: how the words of both numbers are trimmed, and
    which number is larger. *)
Definition compared (d1 d2 : decimal_t) (st : sub_state) : Prop :=
  let F := Nat.max (nf d1) (nf d2) in
  ∃ st1 E1 k1 st2 E2 k2,
    trimmed d1 st1 E1 k1 ∧ trimmed d2 st2 E2 k2
    ∧ st = mk_sub (Z.of_nat st1) (Z.of_nat st2) (Z.of_nat (ni d1 - st1)) (Z.of_nat (ni d2 - st2))
        (Z.of_nat (nf d1) - Z.of_nat k1) (Z.of_nat (nf d2) - Z.of_nat k2) (sub_carry st)
    ∧ (k1 = 0 ∧ k2 = 0 ∨ ni d1 - st1 = ni d2 - st2)%nat
    ∧ if sub_carry st then mant_at F d1 < mant_at F d2 ∧ (ni d1 - st1 ≤ ni d2 - st2)%nat
      else mant_at F d2 < mant_at F d1 ∧ (ni d2 - st2 ≤ ni d1 - st1)%nat.

Lemma trimmed_scaled F d st E k :
  wf d → trimmed d st E k → (nf d ≤ F)%nat → mant_at F d = scaled (ni d - st + F) E.
Proof.
  intros W T HF. pose proof (trimmed_length d st E k W T). destruct T as (T & Hs & Hk).
  rewrite (trimmed_value F d st E k) by done. unfold scaled. do 2 f_equal. lia.
Qed.

(** A number whose integer part is shorter is smaller. *)
Lemma shorter_less F d1 st1 E1 d2 st2 E2 :
  wf d1 → wf d2 → trimmed d1 st1 E1 0 → trimmed d2 st2 E2 0 →
  (nf d1 ≤ F)%nat → (nf d2 ≤ F)%nat → (ni d1 - st1 < ni d2 - st2)%nat →
  (∃ x u, E2 = x :: u ∧ 0 < x) → mant_at F d1 < mant_at F d2.
Proof.
  intros W1 W2 T1 T2 F1 F2 Hlt (x & u & -> & Hx).
  pose proof (trimmed_digits _ _ _ _ W1 T1) as D1. pose proof (trimmed_digits _ _ _ _ W2 T2) as D2.
  pose proof (trimmed_length _ _ _ _ W1 T1). pose proof (trimmed_length _ _ _ _ W2 T2).
  destruct T1 as (T1 & S1 & K1), T2 as (T2 & S2 & K2).
  rewrite (trimmed_scaled F d1 st1 E1 0), (trimmed_scaled F d2 st2 (x :: u) 0) by done.
  pose proof (scaled_bound (ni d2 - st2 + F) x u D2 ltac:(lia)) as [Hb _].
  pose proof (num_bound E1 D1) as Hn. set (n := (ni d1 - st1 + F)%nat).
  assert (scaled n E1 < base n).
  { unfold scaled. replace (base n) with (base (length E1) * base (n - length E1)).
    - pose proof (base_pos (n - length E1)). nia.
    - rewrite <- base_add. f_equal. subst n. lia. }
  assert (base n ≤ base (ni d2 - st2 + F - 1)).
  { unfold base. apply Z.pow_le_mono_r; [done|]. subst n. lia. }
  pose proof (base_pos (ni d2 - st2 + F - 1)). nia.
Qed.

(** The end of the words, without the zeroes. *)
Lemma last_word_spec d st E :
  wf d → trimmed d st E 0 →
  ∃ k T, skip_last_zeroes (Z.to_nat (Z.of_nat (ni d) + (Z.of_nat (nf d) - 1) + 1 - Z.of_nat st)) (buf d)
      (Z.of_nat (ni d) + (Z.of_nat (nf d) - 1)) = Some (Z.of_nat st + Z.of_nat (length T) - 1)
    ∧ trimmed d st T k ∧ (∀ x t', T = t' ++ [x] → x ≠ 0).
Proof.
  intros W HT. pose proof (trimmed_length d st E 0 W HT) as Hl. destruct HT as (Hw & Hs & _).
  rewrite app_nil_r in Hw.
  destruct (skip_last_zeroes_spec (length E) (replicate st 0) E (drop (ni d + nf d) (buf d)))
    as (k & T & Es & -> & Hlast); [done|].
  exists k, T. rewrite app_assoc, <- Hw, <- buf_words, length_replicate in Es.
  rewrite length_app, length_replicate in *. split_and!; [|split_and!; [done|done|lia]|done].
  rewrite <- Es. f_equal; lia.
Qed.

(** The first words that differ, and the words before them. *)
Lemma common_words d1 st1 T1 k1 d2 st2 T2 k2 :
  wf d1 → wf d2 → trimmed d1 st1 T1 k1 → trimmed d2 st2 T2 k2 →
  ∃ e a b, skip_equal (Z.to_nat (Z.min (Z.of_nat (length T1)) (Z.of_nat (length T2))))
      (buf d1) (Z.of_nat st1) (buf d2) (Z.of_nat st2)
      = Some (Z.of_nat (st1 + length e), Z.of_nat (st2 + length e))
    ∧ T1 = e ++ a ∧ T2 = e ++ b
    ∧ (∀ x u y v, a = x :: u → b = y :: v →
        rd (buf d1) (Z.of_nat (st1 + length e)) = Some x ∧ rd (buf d2) (Z.of_nat (st2 + length e)) = Some y
        ∧ x ≠ y).
Proof.
  intros W1 W2 (H1 & _) (H2 & _). set (n := Nat.min (length T1) (length T2)).
  assert (B : ∀ d st (T : list Z) k, words d = replicate st 0 ++ T ++ replicate k 0 →
    ∃ Y, buf d = replicate st 0 ++ T ++ Y).
  { intros d st T k H. exists (replicate k 0 ++ drop (ni d + nf d) (buf d)).
    rewrite (buf_words d) at 1. by rewrite H, <- !app_assoc. }
  destruct (B _ _ _ _ H1) as [Y1 B1], (B _ _ _ _ H2) as [Y2 B2].
  destruct (skip_equal_spec n (replicate st1 0) (take n T1) (drop n T1 ++ Y1)
    (replicate st2 0) (take n T2) (drop n T2 ++ Y2)) as (e & t1 & t2 & E & Et1 & Et2 & Ht);
    [rewrite length_take; lia..|].
  rewrite !length_replicate, (app_assoc (take n T1)), (app_assoc (take n T2)), !take_drop, <- B1, <- B2 in E.
  assert (ET1 : T1 = e ++ t1 ++ drop n T1) by (by rewrite app_assoc, <- Et1, take_drop).
  assert (ET2 : T2 = e ++ t2 ++ drop n T2) by (by rewrite app_assoc, <- Et2, take_drop).
  exists e, (t1 ++ drop n T1), (t2 ++ drop n T2).
  split_and!; [rewrite <- E; f_equal; lia|done|done|]. intros x u y v Ex Ey.
  destruct Ht as [[-> ->]|(x' & u1 & y' & u2 & -> & -> & Hne)].
  - apply (f_equal length) in Ex, Ey. cbn [app length] in *. rewrite length_drop in *. lia.
  - cbn [app] in *. injection Ex as -> Eu. injection Ey as -> Ev. rewrite Eu in ET1. rewrite Ev in ET2.
    rewrite ET1 in B1. rewrite ET2 in B2.
    split_and!; [rewrite B1|rewrite B2|done].
    + rewrite <- (rd_app (replicate st1 0 ++ e) x (u ++ Y1)). rewrite length_app, length_replicate.
      f_equal. by rewrite <- !app_assoc.
    + rewrite <- (rd_app (replicate st2 0 ++ e) y (v ++ Y2)). rewrite length_app, length_replicate.
      f_equal. by rewrite <- !app_assoc.
Qed.

(** The comparison of numbers whose integer parts are equally long. *)
Lemma compare_equal_length d1 st1 E1 d2 st2 E2 :
  wf d1 → wf d2 → trimmed d1 st1 E1 0 → trimmed d2 st2 E2 0 → (ni d1 - st1 = ni d2 - st2)%nat →
  let F := Nat.max (nf d1) (nf d2) in
  ∃ k1 T1 k2 T2 c,
    skip_last_zeroes (Z.to_nat (Z.of_nat (ni d1) + (Z.of_nat (nf d1) - 1) + 1 - Z.of_nat st1)) (buf d1)
      (Z.of_nat (ni d1) + (Z.of_nat (nf d1) - 1)) = Some (Z.of_nat st1 + Z.of_nat (length T1) - 1)
    ∧ skip_last_zeroes (Z.to_nat (Z.of_nat (ni d2) + (Z.of_nat (nf d2) - 1) + 1 - Z.of_nat st2)) (buf d2)
      (Z.of_nat (ni d2) + (Z.of_nat (nf d2) - 1)) = Some (Z.of_nat st2 + Z.of_nat (length T2) - 1)
    ∧ trimmed d1 st1 T1 k1 ∧ trimmed d2 st2 T2 k2
    ∧ ('(buf1, buf2) ← skip_equal (Z.to_nat (Z.min (Z.of_nat (length T1)) (Z.of_nat (length T2))))
        (buf d1) (Z.of_nat st1) (buf d2) (Z.of_nat st2);
       if buf1 <=? Z.of_nat st1 + Z.of_nat (length T1) - 1 then
         if buf2 <=? Z.of_nat st2 + Z.of_nat (length T2) - 1 then
           x ← rd (buf d1) buf1; y ← rd (buf d2) buf2; Some (Some (x <? y))
         else Some (Some false)
       else if buf2 <=? Z.of_nat st2 + Z.of_nat (length T2) - 1 then Some (Some true)
       else Some None) = Some c
    ∧ match c with
      | None => mant_at F d1 = mant_at F d2
      | Some true => mant_at F d1 < mant_at F d2
      | Some false => mant_at F d2 < mant_at F d1
      end.
Proof.
  intros W1 W2 H1 H2 Hi F. destruct (last_word_spec d1 st1 E1 W1 H1) as (k1 & T1 & -> & HT1 & L1).
  destruct (last_word_spec d2 st2 E2 W2 H2) as (k2 & T2 & -> & HT2 & L2).
  destruct (common_words d1 st1 T1 k1 d2 st2 T2 k2) as (e & a & b & He & -> & -> & Hab); [done..|].
  rewrite (trimmed_scaled F d1 st1 _ k1 W1 HT1), (trimmed_scaled F d2 st2 _ k2 W2 HT2) by lia.
  pose proof (trimmed_length _ _ _ _ W1 HT1) as N1. pose proof (trimmed_length _ _ _ _ W2 HT2) as N2.
  pose proof HT1 as (_ & S1 & _). pose proof HT2 as (_ & S2 & _). rewrite length_app in N1, N2.
  pose proof (compare_scaled (ni d1 - st1 + F) e a b ltac:(lia) ltac:(lia)
    (trimmed_digits _ _ _ _ W1 HT1) (trimmed_digits _ _ _ _ W2 HT2) L1 L2) as Hc. rewrite <- Hi.
  exists k1, (e ++ a), k2, (e ++ b), (match a, b with
    | [], [] => None | [], _ => Some true | _, [] => Some false | x :: _, y :: _ => Some (x <? y) end).
  split_and!; [done|done|done|done|rewrite He; cbn [mbind option_bind]; rewrite !length_app|].
  - clear Hc. destruct a as [|x u], b as [|y v]; cbn [length];
      repeat case_match; rewrite ?Z.leb_le, ?Z.leb_gt in *; try lia; try done.
    destruct (Hab x u y v) as (R1 & R2 & _); [done..|]. by rewrite R1, R2.
  - destruct a as [|x u], b as [|y v]; [done..|]. destruct (Hab x u y v) as (_ & _ & Hne); [done..|].
    specialize (Hc Hne). by destruct (x <? y).
Qed.

Lemma sub_compare_spec d1 d2 :
  wf d1 → wf d2 →
  let F := Nat.max (nf d1) (nf d2) in
  ∃ c, sub_compare d1 d2 = Some c
    ∧ match c with None => mant_at F d1 = mant_at F d2 | Some st => compared d1 d2 st end.
Proof.
  intros W1 W2 F. unfold sub_compare. rewrite !ni_spec, !nf_spec by done.
  destruct (first_word_spec d1 W1) as (st1 & E1 & -> & HT1 & P1).
  destruct (first_word_spec d2 W2) as (st2 & E2 & -> & HT2 & P2). cbn [mbind option_bind].
  destruct (Z.ltb_spec (Z.of_nat (ni d1 - st1)) (Z.of_nat (ni d2 - st2))).
  { eexists. split; [done|]. exists st1, E1, 0%nat, st2, E2, 0%nat. cbn [sub_carry].
    split_and!; [done|done|f_equal; lia|by left| |lia].
    eapply (shorter_less _ d1 st1 E1 d2 st2 E2); [done..|lia|lia|lia|apply P2; lia]. }
  destruct (Z.eqb_spec (Z.of_nat (ni d2 - st2)) (Z.of_nat (ni d1 - st1))) as [Heq|].
  2:{ eexists. split; [done|]. exists st1, E1, 0%nat, st2, E2, 0%nat. cbn [sub_carry].
    split_and!; [done|done|f_equal; lia|by left| |lia].
    eapply (shorter_less _ d2 st2 E2 d1 st1 E1); [done..|lia|lia|lia|apply P1; lia]. }
  destruct (compare_equal_length d1 st1 E1 d2 st2 E2) as (k1 & T1 & k2 & T2 & c & -> & -> & X1 & X2 & Hc & Ho);
    [done..|lia|].
  cbn [mbind option_bind].
  pose proof (trimmed_length _ _ _ _ W1 X1). pose proof (trimmed_length _ _ _ _ W2 X2).
  pose proof X1 as (_ & S1 & _). pose proof X2 as (_ & S2 & _).
  replace (Z.min _ _) with (Z.min (Z.of_nat (length T1)) (Z.of_nat (length T2))) by lia.
  destruct (skip_equal _ _ _ _ _) as [[buf1 buf2]|]; [|done]. cbn [mbind option_bind] in *.
  assert (Hcomp : ∀ carry, c = Some carry → compared d1 d2 (mk_sub (Z.of_nat st1) (Z.of_nat st2)
    (Z.of_nat (ni d1 - st1)) (Z.of_nat (ni d2 - st2))
    (Z.of_nat st1 + Z.of_nat (length T1) - 1 - Z.of_nat (ni d1) + 1)
    (Z.of_nat st2 + Z.of_nat (length T2) - 1 - Z.of_nat (ni d2) + 1) carry)).
  { intros carry ->. exists st1, T1, k1, st2, T2, k2. cbn [sub_carry].
    split_and!; [done|done|f_equal; lia|right; lia|]. destruct carry; (split; [done|lia]). }
  destruct (buf1 <=? _), (buf2 <=? _).
  1: destruct (rd (buf d1) buf1) as [x|]; [|done]; destruct (rd (buf d2) buf2) as [y|]; [|done];
    cbn [mbind option_bind] in *.
  all: injection Hc as <-; eexists; (split; [done|]); first [by apply Hcomp|done].
Qed.
