(* ===== verification/DecimalDiff.v ===== *)
(** * The difference of decimals

    The loops of [do_sub] subtract the trimmed words of the smaller number from
    those of the larger one; with the comparison they give the difference. The
    results for [decimal_add], [decimal_sub] and [decimal_cmp] follow. *)

From S2P Require Import Prelude MyBit Decimal DecimalFacts DecimalAdd DecimalSub.

#[local] Open Scope Z_scope.

(** ** The loops *)

(** Parts 2 and 3: [L3 ++ L2] less [S2] less [c], for [S2] as long as [L2]. *)
Lemma sub_high_spec to0 R X1 L3 L2 Y1 X2 S2 Y2 c :
  (length L3 + length L2 ≤ length to0)%nat → length S2 = length L2 →
  digits L3 → digits L2 → digits S2 → 0 ≤ c ≤ 1 → num S2 + c ≤ num (L3 ++ L2) →
  ∃ r, sub_high (X1 ++ (L3 ++ L2) ++ Y1) (Z.of_nat (length X1))
      (Z.of_nat (length X1) + Z.of_nat (length L3 + length L2))
      (X2 ++ S2 ++ Y2) (Z.of_nat (length X2)) (Z.of_nat (length X2) + Z.of_nat (length L2))
      (take (length L3 + length L2) to0 ++ R) (Z.of_nat (length L3 + length L2)) c = Some (r ++ R)
    ∧ length r = (length L3 + length L2)%nat ∧ digits r ∧ num r = num (L3 ++ L2) - num S2 - c.
Proof.
  intros Hp Hl D3 D2 DS Hc Hle. unfold sub_high. set (n := length L2) in *. set (m := length L3) in *.
  assert (Hn : ∀ x k, x + Z.of_nat k - x = Z.of_nat k) by lia.
  assert (Hk : ∀ k, Z.max 0 (Z.of_nat k) = Z.of_nat k) by lia.
  rewrite !Hn, Hk, Nat2Z.id.
  destruct (op_down_spec (-1) SUB n to0 (m + n) R (X1 ++ L3) L2 Y1 X2 S2 Y2 c)
    as (r & c' & E & Lr & Dr & Hc' & Er); [apply SUB_computes|lia|done|done|done|done|done|].
  rewrite length_app, <- !app_assoc in E. rewrite <- !app_assoc.
  replace (Z.of_nat (length X1 + length L3) + Z.of_nat n) with (Z.of_nat (length X1) + Z.of_nat (m + n)) in E by lia.
  rewrite E. cbn [mbind option_bind]. clear E. rewrite num_app in *. fold n in Hle |- *.
  pose proof (num_bound _ Dr) as Hr. rewrite Lr in Hr. pose proof (num_bound _ D3) as H3.
  replace (m + n - n)%nat with m by lia.
  replace (Z.of_nat (m + n) - Z.of_nat n) with (Z.of_nat m) by lia.
  replace (Z.of_nat (length X1) + Z.of_nat (m + n) - Z.of_nat n) with (Z.of_nat (length X1) + Z.of_nat m) by lia.
  rewrite !Hn, Hk, Nat2Z.id.
  destruct (borrow_down_spec m to0 m (r ++ R) X1 L3 (L2 ++ Y1) c') as (q & k & t1 & u1 & E & -> & Lt & Lq & Dq & Eq);
    [lia|done|done|done| |].
  { destruct (decide (c' = 0)) as [->|]; [lia|]. replace c' with 1 in * by lia.
    destruct (decide (num L3 = 0)) as [E0|]; [|lia]. rewrite E0 in *. lia. }
  rewrite E. cbn [mbind option_bind]. clear E. unfold m in *. rewrite length_app in *.
  replace (length t1 + length u1 - (length t1 + length u1 - k))%nat with k by lia.
  assert (Hb : ∀ x, x + Z.of_nat (length t1 + length u1) - (Z.of_nat (length t1 + length u1) - Z.of_nat k)
    = x + Z.of_nat k) by lia.
  rewrite !Hb. specialize (Hb 0). rewrite !Z.add_0_l in Hb. rewrite Hb.
  rewrite <- (app_assoc t1). rewrite (copy_down_spec k to0 k) by (done || lia). cbn [mbind option_bind].
  replace (Z.of_nat k - Z.of_nat k) with 0 by lia. rewrite Nat.sub_diag, take_0. cbn [Z.to_nat fill_down app].
  exists (t1 ++ q ++ r). rewrite <- !app_assoc, !length_app, !num_app, !length_app.
  split_and!; [done|lia| |].
  - apply Forall_app in D3 as [D3 _]. by rewrite !Forall_app.
  - rewrite num_app, Lq, Lr, base_add in *. nia.
Qed.

Lemma split_at {A} (l : list A) n : (n ≤ length l)%nat → ∃ u v, l = u ++ v ∧ length u = n.
Proof.
  intros Hn. exists (take n l), (drop n l). rewrite take_drop, length_take. split; [done|lia].
Qed.

(** The loops when the larger number has more words behind the point. *)
Lemma sub_loops_copy X1 L3 L2 L1 Y1 i2 X2 S Y2 z to0 R :
  let n := (length L3 + length L2 + length L1)%nat in
  (0 < length L1)%nat → length S = length L2 → (n + z ≤ length to0)%nat →
  digits L3 → digits L2 → digits L1 → digits S → num S ≤ num (L3 ++ L2) →
  ∃ r, sub_loops (X1 ++ (L3 ++ L2 ++ L1) ++ Y1) (Z.of_nat (length X1)) (i2 + Z.of_nat (length L3))
      (Z.of_nat (length L2 + length L1) - i2)
      (X2 ++ S ++ Y2) (Z.of_nat (length X2)) i2 (Z.of_nat (length S) - i2)
      (Z.of_nat (length L2 + length L1 + z) - i2) (take (n + z) to0 ++ R) = Some (r ++ R)
    ∧ length r = (n + z)%nat ∧ digits r ∧ num r = (num (L3 ++ L2 ++ L1) - num S * base (length L1)) * base z.
Proof.
  intros n Hpos HS Hto D3 D2 D1 DS Hle. unfold sub_loops.
  rewrite (proj2 (Z.ltb_lt _ _)) by lia.
  replace (Z.to_nat (_ - (Z.of_nat (length L2 + length L1) - i2))) with z by lia.
  replace (i2 + Z.of_nat (length L3) + _) with (Z.of_nat (n + z)) by lia.
  rewrite fill_down_spec by lia. cbn [mbind option_bind].
  replace (n + z - z)%nat with n by lia.
  replace (Z.of_nat (n + z) - Z.max 0 _) with (Z.of_nat n) by lia.
  replace (Z.of_nat (length L2 + length L1) - i2 - (Z.of_nat (length S) - i2)) with (Z.of_nat (length L1)) by lia.
  rewrite Nat2Z.id.
  replace (Z.of_nat (length X1) + (i2 + Z.of_nat (length L3)) + (Z.of_nat (length L2 + length L1) - i2))
    with (Z.of_nat (length (X1 ++ L3 ++ L2)) + Z.of_nat (length L1)) by (rewrite !length_app; lia).
  pose proof (copy_down_spec (length L1) to0 n (replicate z 0 ++ R) (X1 ++ L3 ++ L2) L1 Y1 ltac:(lia) eq_refl) as E.
  rewrite <- !app_assoc in *. rewrite E. cbn [mbind option_bind].
  destruct (sub_high_spec to0 (L1 ++ replicate z 0 ++ R) X1 L3 L2 (L1 ++ Y1) X2 S Y2 0) as (r & Er & Lr & Dr & Nr);
    [lia|done..|lia|lia|].
  rewrite <- !app_assoc in Er. replace (n - length L1)%nat with (length L3 + length L2)%nat by lia.
  exists (r ++ L1 ++ replicate z 0). rewrite <- !app_assoc, !length_app, length_replicate. split_and!.
  - rewrite <- Er. f_equal; lia.
  - lia.
  - rewrite !Forall_app. split_and!; [done..|apply digits_zeroes].
  - rewrite app_assoc, !num_app, num_zeroes, !length_app, !length_replicate, !base_add, Nr, num_app. lia.
Qed.

(** The loops when the smaller number has as many or more words behind the point. *)
Lemma sub_loops_neg X1 L3 L2 Y1 i2 X2 S2 S1 Y2 z to0 R :
  let n := (length L3 + length L2 + length S1)%nat in
  length S2 = length L2 → (n + z ≤ length to0)%nat →
  digits L3 → digits L2 → digits S2 → digits S1 → num (S2 ++ S1) ≤ num (L3 ++ L2) * base (length S1) →
  ∃ r, sub_loops (X1 ++ (L3 ++ L2) ++ Y1) (Z.of_nat (length X1)) (i2 + Z.of_nat (length L3))
      (Z.of_nat (length L2) - i2)
      (X2 ++ (S2 ++ S1) ++ Y2) (Z.of_nat (length X2)) i2 (Z.of_nat (length S2 + length S1) - i2)
      (Z.of_nat (length L2 + length S1 + z) - i2) (take (n + z) to0 ++ R) = Some (r ++ R)
    ∧ length r = (n + z)%nat ∧ digits r ∧ num r = (num (L3 ++ L2) * base (length S1) - num (S2 ++ S1)) * base z.
Proof.
  intros n HS Hto D3 D2 DS2 DS1 Hle. unfold sub_loops.
  rewrite (proj2 (Z.ltb_ge _ _)) by lia.
  replace (Z.to_nat (_ - (Z.of_nat (length S2 + length S1) - i2))) with z by lia.
  replace (i2 + Z.of_nat (length L3) + (_ - i2)) with (Z.of_nat (n + z)) by lia.
  rewrite fill_down_spec by lia. cbn [mbind option_bind].
  replace (n + z - z)%nat with n by lia.
  replace (Z.of_nat (n + z) - Z.max 0 _) with (Z.of_nat n) by lia.
  replace (Z.of_nat (length S2 + length S1) - i2 - (Z.of_nat (length L2) - i2)) with (Z.of_nat (length S1)) by lia.
  rewrite Nat2Z.id.
  replace (Z.of_nat (length X2) + i2 + (Z.of_nat (length S2 + length S1) - i2))
    with (Z.of_nat (length (X2 ++ S2)) + Z.of_nat (length S1)) by (rewrite !length_app; lia).
  destruct (neg_down_spec (length S1) to0 n (replicate z 0 ++ R) (X2 ++ S2) S1 Y2 0)
    as (q & c & E & Lq & Dq & Hc & Nq); [lia|done|done|lia|].
  rewrite <- (app_assoc X2 S2) in E. rewrite <- (app_assoc S2 S1 Y2), E. cbn [mbind option_bind].
  pose proof (num_bound _ Dq) as Bq. rewrite Lq in Bq. pose proof (base_pos (length S1)) as Bp.
  rewrite (num_app S2) in *.
  destruct (sub_high_spec to0 (q ++ replicate z 0 ++ R) X1 L3 L2 Y1 X2 S2 (S1 ++ Y2) c) as (r & Er & Lr & Dr & Nr);
    [lia|done..|nia|].
  replace (n - length S1)%nat with (length L3 + length L2)%nat by lia.
  exists (r ++ q ++ replicate z 0). rewrite <- !app_assoc, !length_app, length_replicate. split_and!.
  - rewrite <- Er, <- !app_assoc. rewrite HS. f_equal; lia.
  - lia.
  - rewrite !Forall_app. split_and!; [done..|apply digits_zeroes].
  - rewrite app_assoc, !num_app, num_zeroes, !length_replicate, Nr, num_app, Lq. nia.
Qed.

(** The loops leave [L - S], for [L] and [S] with [i1] and [i2] words before the
    point, in [i1 + F] words. *)
Lemma sub_loops_spec X1 L Y1 i1 X2 S Y2 i2 F to0 :
  (i2 ≤ i1)%nat → (i1 - i2 ≤ length L ≤ i1 + F)%nat → (length S ≤ i2 + F)%nat →
  (i1 + F ≤ length to0)%nat → digits L → digits S → scaled (i2 + F) S ≤ scaled (i1 + F) L →
  ∃ r, sub_loops (X1 ++ L ++ Y1) (Z.of_nat (length X1)) (Z.of_nat i1) (Z.of_nat (length L) - Z.of_nat i1)
      (X2 ++ S ++ Y2) (Z.of_nat (length X2)) (Z.of_nat i2) (Z.of_nat (length S) - Z.of_nat i2)
      (Z.of_nat F) to0 = Some (r ++ drop (i1 + F) to0)
    ∧ length r = (i1 + F)%nat ∧ digits r ∧ num r = scaled (i1 + F) L - scaled (i2 + F) S.
Proof.
  intros Hi HL HS Hto DL DS Hle. unfold scaled in *.
  destruct (decide (length S + (i1 - i2) < length L)%nat).
  - destruct (split_at L (i1 - i2)) as (L3 & L21 & -> & E3); [lia|]. rewrite length_app in *.
    destruct (split_at L21 (length S)) as (L2 & L1 & -> & E2); [lia|]. rewrite length_app in *.
    rewrite !Forall_app in DL. destruct DL as (D3 & D2 & D1).
    set (z := (i2 + F - (length L2 + length L1))%nat).
    replace (i1 + F - (length L3 + (length L2 + length L1)))%nat with z in * by lia.
    replace (i2 + F - length S)%nat with (length L1 + z)%nat in * by lia.
    pose proof (num_bound _ D1). rewrite base_add in *. pose proof (base_pos z).
    destruct (sub_loops_copy X1 L3 L2 L1 Y1 (Z.of_nat i2) X2 S Y2 z to0 (drop (i1 + F) to0))
      as (r & E & Lr & Dr & Nr); [lia|done|lia|done..| |].
    { rewrite app_assoc, num_app, Z.mul_assoc in Hle. apply Z.mul_le_mono_pos_r in Hle; [|done].
      apply Z.lt_succ_r, (Z.mul_lt_mono_pos_r (base (length L1))); [apply base_pos|lia]. }
    exists r. split_and!; [|lia|done|nia]. rewrite <- E.
    replace (length L3 + length L2 + length L1 + z)%nat with (i1 + F)%nat by lia. rewrite take_drop. f_equal; lia.
  - destruct (split_at L (i1 - i2)) as (L3 & L2 & -> & E3); [lia|]. rewrite length_app in *.
    destruct (split_at S (length L2)) as (S2 & S1 & -> & E2); [lia|]. rewrite length_app in *.
    rewrite !Forall_app in DL, DS. destruct DL as (D3 & D2), DS as (DS2 & DS1).
    set (z := (i2 + F - (length S2 + length S1))%nat) in *.
    replace (i1 + F - (length L3 + length L2))%nat with (length S1 + z)%nat in * by lia.
    rewrite base_add in *. pose proof (base_pos z).
    destruct (sub_loops_neg X1 L3 L2 Y1 (Z.of_nat i2) X2 S2 S1 Y2 z to0 (drop (i1 + F) to0))
      as (r & E & Lr & Dr & Nr); [done|lia|done..|nia|].
    exists r. split_and!; [|lia|done|nia]. rewrite <- E.
    replace (length L3 + length L2 + length S1 + z)%nat with (i1 + F)%nat by lia. rewrite take_drop. f_equal; lia.
Qed.

(** ** The subtraction *)

(** Fewer words behind the point: the value rounded down. *)
Lemma mant_at_div F F' d : wf d → (F' ≤ F)%nat → mant_at F' d = mant_at F d / base (F - F').
Proof.
  intros W HF. unfold mant_at.
  assert (E : words_at F d = words_at F' d ++ drop (ni d + F') (words_at F d)).
  { rewrite <- (take_drop (ni d + F') (words_at F d)) at 1. f_equal. unfold words_at.
    rewrite take_take, Nat.min_l by lia. replace F with (F' + (F - F'))%nat at 1 by lia.
    rewrite replicate_add, app_assoc. apply take_app_le.
    rewrite length_app, length_words, length_replicate by done. lia. }
  pose proof (digits_words_at F d W) as D. pose proof (length_words_at F d W) as L. rewrite E in D |- *.
  apply Forall_app in D as [_ D]. apply num_bound in D. rewrite num_app. rewrite length_drop in *. rewrite L in *.
  replace (ni d + F - (ni d + F'))%nat with (F - F')%nat in * by lia.
  rewrite Z.div_add_l by lia. rewrite Z.div_small; lia.
Qed.

(** The trimmed words cut to [F] words behind the point. *)
Lemma trimmed_cut F d st E k :
  wf d → trimmed d st E k → let n := (ni d - st + F)%nat in mant_at F d = scaled n (take n E).
Proof.
  intros W T n. pose proof (trimmed_length d st E k W T). destruct T as (T & Hs & Hk).
  unfold mant_at, words_at. rewrite T, <- !app_assoc, <- replicate_add.
  replace (ni d + F)%nat with (st + n)%nat by lia.
  rewrite take_app_add' by (by rewrite length_replicate).
  rewrite take_app, take_replicate, !num_app, !num_zeroes, length_replicate. unfold scaled.
  rewrite length_take. replace (n - Nat.min n (length E))%nat with (n - length E)%nat by lia.
  replace (Nat.min (n - length E) (k + F)) with (n - length E)%nat by lia. lia.
Qed.

(** The loops on the trimmed words of two numbers, cut to [F] words behind the point. *)
Lemma sub_cut_loops dL dS stL EL kL stS ES kS F to0 :
  wf dL → wf dS → trimmed dL stL EL kL → trimmed dS stS ES kS →
  let i := (ni dL - stL)%nat in let j := (ni dS - stS)%nat in
  (j ≤ i)%nat → (kL = 0 ∧ kS = 0 ∨ i = j)%nat → mant_at F dS ≤ mant_at F dL → (i + F ≤ length to0)%nat →
  ∃ b r, sub_loops (buf dL) (Z.of_nat stL) (Z.of_nat i) (Z.min (Z.of_nat (nf dL) - Z.of_nat kL) (Z.of_nat F))
      (buf dS) (Z.of_nat stS) (Z.of_nat j) (Z.min (Z.of_nat (nf dS) - Z.of_nat kS) (Z.of_nat F))
      (Z.of_nat F) to0 = Some b
    ∧ length b = length to0 ∧ take (i + F) b = r ∧ digits r ∧ num r = mant_at F dL - mant_at F dS.
Proof.
  intros WL WS TL TS i j Hij Hk Hle Hto.
  pose proof (trimmed_length _ _ _ _ WL TL) as NL. pose proof (trimmed_length _ _ _ _ WS TS) as NS.
  pose proof (trimmed_digits _ _ _ _ WL TL) as DL. pose proof (trimmed_digits _ _ _ _ WS TS) as DS.
  rewrite (trimmed_cut F dL stL EL kL WL TL), (trimmed_cut F dS stS ES kS WS TS) in *. fold i j in Hle |- *.
  assert (B : ∀ d st (T : list Z) k n, words d = replicate st 0 ++ T ++ replicate k 0 →
    ∃ Y, buf d = replicate st 0 ++ take n T ++ Y).
  { intros d st T k n H. exists (drop n T ++ replicate k 0 ++ drop (ni d + nf d) (buf d)).
    rewrite (buf_words d) at 1. by rewrite H, <- !app_assoc, (app_assoc (take n T)), take_drop. }
  destruct TL as (TL & SL & KL), TS as (TS & SS & KS).
  destruct (B _ _ _ _ (i + F)%nat TL) as [YL BL], (B _ _ _ _ (j + F)%nat TS) as [YS BS].
  destruct (sub_loops_spec (replicate stL 0) (take (i + F) EL) YL i (replicate stS 0) (take (j + F) ES) YS j F to0)
    as (r & E & Lr & Dr & Nr); try done; try (rewrite length_take; lia); try by apply Forall_take.
  exists (r ++ drop (i + F) to0), r. rewrite length_app, length_drop.
  split_and!; [|lia|by apply take_app_length'|done|done].
  rewrite <- E, !length_replicate, !length_take, <- BL, <- BS. f_equal; lia.
Qed.

Lemma sub_store_spec dL dS stL EL kL stS ES kS c to :
  wf dL → wf dS → buffer to → trimmed dL stL EL kL → trimmed dS stS ES kS →
  let i := (ni dL - stL)%nat in let j := (ni dS - stS)%nat in
  let F0 := Nat.max (nf dL) (nf dS) in
  (j ≤ i)%nat → (kL = 0 ∧ kS = 0 ∨ i = j)%nat → mant_at F0 dS < mant_at F0 dL → (i ≤ length (buf to))%nat →
  ∃ to' error F, sub_store dL dS (mk_sub (Z.of_nat stL) (Z.of_nat stS) (Z.of_nat i) (Z.of_nat j)
      (Z.of_nat (nf dL) - Z.of_nat kL) (Z.of_nat (nf dS) - Z.of_nat kS) c)
      (Z.max (Z.of_nat (nf dL)) (Z.of_nat (nf dS))) to = Some (to', error)
    ∧ stored to to' error (sign to) (Z.max (frac dL) (frac dS)) i F (mant_at F dL - mant_at F dS)
    ∧ (error = E_DEC_OK ∧ F = F0 ∨ error = E_DEC_TRUNCATED ∧ (F < F0)%nat).
Proof.
  intros WL WS Hto TL TS i j F0 Hij Hk Hlt Hfit. pose proof Hto as [Hl Hn]. unfold sub_store.
  pose proof (fixed_counts (Z.of_nat i) (Z.max (Z.of_nat (nf dL)) (Z.of_nat (nf dS))) (len to)) as Hfix.
  destruct (FIX_INTG_FRAC_ERROR _ _ _) as [[i' f'] error].
  destruct Hfix as [[-> Hov]|(-> & Hf & Hfit' & Hpos & Herr)]; [lia..|].
  set (F := Z.to_nat f'). replace f' with (Z.of_nat F) in * by lia.
  rewrite Hl in Herr. destruct (kept_frac dL dS F error i _ WL WS Herr) as (K1 & K2 & K3). cbv zeta in K1, K2, K3.
  assert (Hsome : (0 < i + F0)%nat).
  { pose proof (mant_at_nonneg F0 dS WS). rewrite (trimmed_cut F0 dL stL EL kL WL TL) in Hlt. fold i in Hlt.
    destruct (decide (i + F0 = 0)%nat) as [E0|]; [|lia]. rewrite E0, take_0 in Hlt. unfold scaled in Hlt. simpl in Hlt. lia. }
  destruct (sub_cut_loops dL dS stL EL kL stS ES kS F (buf to)) as (b & r & E & Lb & Tr & Dr & Er); try done; [|lia|].
  { pose proof (base_pos (F0 - F)). rewrite !(mant_at_div F0 F) by (done || lia). apply Z.div_le_mono; lia. }
  assert (M : ∀ x, x ≤ Z.of_nat F0 → (if negb (error =? E_DEC_OK) then Z.min x (Z.of_nat F) else x) = Z.min x (Z.of_nat F)).
  { intros x Hx. destruct Herr as [[-> ?]|[-> ?]]; cbn [Z.eqb negb E_DEC_OK E_DEC_TRUNCATED]; lia. }
  rewrite !M by lia. clear M.
  replace (if negb (error =? E_DEC_OK) then Z.min (Z.of_nat j) (Z.of_nat i) else Z.of_nat j) with (Z.of_nat j)
    by (case_match; lia).
  set (to2 := if negb (error =? E_DEC_OK) then _ else _).
  replace (buf to2) with (buf to) by (subst to2; by destruct (negb _)).
  fold i j in E. rewrite E. cbn [mbind option_bind]. eexists _, _, F. split; [done|].
  split; [|destruct Herr as [[-> ?]|(-> & ? & _)]; [left|right]; (split; [done|lia])].
  apply (stored_intro to (set_buf b to2) i F _
    (if negb (error =? E_DEC_OK) then Z.min (Z.max (frac dL) (frac dS)) (Z.of_nat F * DIG_PER_DEC1)
     else Z.max (frac dL) (frac dS)) _ error r); try done; subst to2; try (by destruct (negb _)); lia.
Qed.

(** What an operation on [d1] and [d2] leaves in [to]: the value [v], with as
    many words of the fraction as fit beside at most [i] words of the integer part. *)
Definition computed (d1 d2 to to' : decimal_t) (error : Z) (i : nat) (v : nat → Z) : Prop :=
  let F0 := Nat.max (nf d1) (nf d2) in
  wf to' ∧ len to' = len to ∧
  ∃ F, value_at F to' = v F ∧ (nf to' ≤ F)%nat
    ∧ (error = E_DEC_OK ∧ F = F0
       ∨ error = E_DEC_TRUNCATED ∧ (F < F0)%nat ∧ (ni to' + F = length (buf to))%nat ∧ (ni to' ≤ i)%nat).

Lemma computed_zero d1 d2 to i v :
  buffer to → v (Nat.max (nf d1) (nf d2)) = 0 →
  ∃ to', decimal_make_zero to = Some to' ∧ computed d1 d2 to to' E_DEC_OK i v.
Proof.
  intros [Hl Hn] Hv. unfold decimal_make_zero. destruct (buf to) as [|x b]; [simpl in Hl; lia|].
  eexists. split; [done|]. set (to' := mk_decimal _ _ _ _ _).
  assert (W : wf to') by (split; cbn; try done; [change (1 ≤ S (length b))%nat; lia|by repeat constructor]).
  split_and!; [done..|]. eexists. split_and!; [|apply Nat.le_0_l|by left].
  rewrite Hv. unfold value_at. rewrite (trimmed_value _ to' 0 [0] 0 W); [cbn; lia| |apply Nat.le_0_l].
  split_and!; [done|lia..].
Qed.

Lemma computed_stored d1 d2 to to' error sg i n F v :
  (i ≤ n)%nat → stored to to' error sg (Z.max (frac d1) (frac d2)) i F ((if sg then -1 else 1) * v F) →
  (error = E_DEC_OK ∧ F = Nat.max (nf d1) (nf d2) ∨ error = E_DEC_TRUNCATED ∧ (F < Nat.max (nf d1) (nf d2))%nat) →
  computed d1 d2 to to' error n v.
Proof.
  intros Hi [W El Es Ei En Ev Ee] He. split_and!; [done..|]. exists F. unfold value_at. rewrite Es, Ev.
  split_and!; [destruct sg; lia|lia|]. destruct He as [[-> ->]|[-> HF]]; [by left|right].
  destruct Ee as [[]|[_ Ee]]; [done|]. split_and!; [done..|lia].
Qed.

Lemma do_sub_spec d1 d2 to :
  wf d1 → wf d2 → buffer to → (ni d1 ≤ length (buf to))%nat → (ni d2 ≤ length (buf to))%nat →
  ∃ to' error, do_sub d1 d2 to = Some (to', error)
    ∧ computed d1 d2 to to' error (Nat.max (ni d1) (ni d2))
        (λ F, (if sign d1 then -1 else 1) * (mant_at F d1 - mant_at F d2)).
Proof.
  intros W1 W2 Hto H1 H2. unfold do_sub.
  destruct (sub_compare_spec d1 d2 W1 W2) as (c & -> & Hc). cbn [mbind option_bind].
  destruct c as [st|].
  2:{ destruct (computed_zero d1 d2 to (Nat.max (ni d1) (ni d2)) (λ F, (if sign d1 then -1 else 1) * (mant_at F d1 - mant_at F d2)))
        as (to' & -> & Hz); [done|lia|]. by eexists _, _. }
  destruct Hc as (st1 & E1 & k1 & st2 & E2 & k2 & T1 & T2 & Est & Hk & Ho).
  pose proof T1 as (_ & S1 & _). pose proof T2 as (_ & S2 & _).
  unfold sub_words. rewrite !nf_spec by done. destruct (sub_carry st) eqn:Ec.
  - destruct (sub_store_spec d2 d1 st2 E2 k2 st1 E1 k1 true (set_sign (negb (sign d1)) (set_sign (sign d1) to)))
      as (to' & error & F & E & Hs & He); try done; [|lia|rewrite Nat.max_comm; apply Ho|cbn; lia|].
    { apply Ho. }
    rewrite Est. cbn [start1 start2 sub_intg1 sub_intg2 sub_frac1 sub_frac2 sign set_sign]. rewrite Z.max_comm, E.
    eexists _, _. split; [done|]. apply (computed_stored _ _ _ _ _ (negb (sign d1)) (ni d2 - st2) _ F); [lia| |by rewrite Nat.max_comm].
    destruct Hs as [Y1 Y2 Y3 Y0 Y4 Y5 Y6]. split; try done; [destruct (sign d1); cbn; lia|by rewrite Z.max_comm].
  - destruct (sub_store_spec d1 d2 st1 E1 k1 st2 E2 k2 false (set_sign (sign d1) to))
      as (to' & error & F & E & Hs & He); try done; [|apply Ho|cbn; lia|].
    { apply Ho. }
    rewrite Est, E. eexists _, _. split; [done|]. apply (computed_stored _ _ _ _ _ (sign d1) (ni d1 - st1) _ F); [lia| |done].
    destruct Hs as [Y1 Y2 Y3 Y0 Y4 Y5 Y6]. split; try done. destruct (sign d1); cbn; lia.
Qed.

(** ** The operations *)

(** What [max_decimal] leaves when the integer part of a sum does not fit. *)
Definition nines (to : decimal_t) : decimal_t :=
  mk_decimal (len to * 9) 0 (len to) false (replicate (length (buf to)) DIG_MAX).

Lemma do_add_computed d1 d2 to :
  wf d1 → wf d2 → buffer to →
  ∃ to' error, do_add d1 d2 to = Some (to', error)
    ∧ if decide (length (buf to) < sum_words d1 d2)%nat then error = E_DEC_OVERFLOW ∧ to' = nines to
      else computed d1 d2 to to' error (sum_words d1 d2)
        (λ F, (if sign d1 then -1 else 1) * (mant_at F d1 + mant_at F d2)).
Proof.
  intros W1 W2 Hto.
  destruct (do_add_spec d1 d2 to W1 W2 Hto) as (to' & error & -> & [(Hi & -> & ->)|(F & Hi & Hs & He)]);
    eexists _, _; (split; [done|]).
  - by rewrite decide_True.
  - rewrite decide_False by lia. apply (computed_stored _ _ _ _ _ (sign d1) (sum_words d1 d2) _ F); [lia| |done].
    destruct Hs as [Y1 Y2 Y3 Y0 Y4 Y5 Y6]. split; try done. destruct (sign d1); cbn; lia.
Qed.

Lemma computed_ext d1 d2 to to' error i v v' :
  (∀ F, v F = v' F) → computed d1 d2 to to' error i v → computed d1 d2 to to' error i v'.
Proof.
  intros Hv (W & El & F & Ev & H). split_and!; [done..|]. exists F. by rewrite <- Hv.
Qed.

(** C5. The sum: for any two numbers whose integer parts have at most as many words
    as the result has room for, [decimal_add] does not fail. When the signs differ
    the result is the sum. When they are equal the sum may need one more word than
    the longer integer part ([sum_words]: the leading words add up to
    999999999 or more); if the result has no room for it, the result is nothing but
    nines and the error is [E_DEC_OVERFLOW], and otherwise the result is the sum.
    The sum is exact, with [E_DEC_OK], when all words of the fraction fit; otherwise
    it has as many words of the fraction as fit beside these words of the integer
    part, and the error is [E_DEC_TRUNCATED]. *)
Theorem decimal_add_correct d1 d2 to :
  wf d1 → wf d2 → buffer to → (ni d1 ≤ length (buf to))%nat → (ni d2 ≤ length (buf to))%nat →
  ∃ to' error, decimal_add d1 d2 to = Some (to', error)
    ∧ if Bool.eqb (sign d1) (sign d2) then
        if decide (length (buf to) < sum_words d1 d2)%nat then error = E_DEC_OVERFLOW ∧ to' = nines to
        else computed d1 d2 to to' error (sum_words d1 d2) (λ F, value_at F d1 + value_at F d2)
      else computed d1 d2 to to' error (Nat.max (ni d1) (ni d2)) (λ F, value_at F d1 + value_at F d2).
Proof.
  intros W1 W2 Hto H1 H2. unfold decimal_add. destruct (Bool.eqb_spec (sign d1) (sign d2)) as [Es|Es].
  - destruct (do_add_computed d1 d2 to W1 W2 Hto) as (to' & error & -> & Hc). eexists _, _. split; [done|].
    case_decide; [done|]. eapply computed_ext, Hc. intros F. unfold value_at. rewrite <- Es. cbn. lia.
  - destruct (do_sub_spec d1 d2 to) as (to' & error & -> & Hc); [done..|].
    eexists _, _. split; [done|]. eapply computed_ext, Hc. intros F. unfold value_at.
    destruct (sign d1), (sign d2); try done; cbn; lia.
Qed.

(** The difference, in the same way. *)
Theorem decimal_sub_correct d1 d2 to :
  wf d1 → wf d2 → buffer to → (ni d1 ≤ length (buf to))%nat → (ni d2 ≤ length (buf to))%nat →
  ∃ to' error, decimal_sub d1 d2 to = Some (to', error)
    ∧ if Bool.eqb (sign d1) (sign d2)
      then computed d1 d2 to to' error (Nat.max (ni d1) (ni d2)) (λ F, value_at F d1 - value_at F d2)
      else if decide (length (buf to) < sum_words d1 d2)%nat then error = E_DEC_OVERFLOW ∧ to' = nines to
      else computed d1 d2 to to' error (sum_words d1 d2) (λ F, value_at F d1 - value_at F d2).
Proof.
  intros W1 W2 Hto H1 H2. unfold decimal_sub. destruct (Bool.eqb_spec (sign d1) (sign d2)) as [Es|Es].
  - destruct (do_sub_spec d1 d2 to) as (to' & error & -> & Hc); [done..|].
    eexists _, _. split; [done|]. eapply computed_ext, Hc. intros F. unfold value_at. rewrite <- Es. cbn. lia.
  - destruct (do_add_computed d1 d2 to W1 W2 Hto) as (to' & error & -> & Hc). eexists _, _. split; [done|].
    case_decide; [done|]. eapply computed_ext, Hc. intros F. unfold value_at.
    destruct (sign d1), (sign d2); try done; cbn; lia.
Qed.

Lemma decimal_cmp_spec d1 d2 :
  wf d1 → wf d2 → let F := Nat.max (nf d1) (nf d2) in
  (sign d1 = sign d2 ∨ 0 < mant_at F d1 + mant_at F d2) →
  decimal_cmp d1 d2 = Some (Z.sgn (value_at F d1 - value_at F d2)).
Proof.
  intros W1 W2 F Hs. unfold decimal_cmp, do_cmp, value_at.
  pose proof (mant_at_nonneg F d1 W1). pose proof (mant_at_nonneg F d2 W2).
  destruct (Bool.eqb_spec (sign d1) (sign d2)) as [Es|Es].
  - destruct (sub_compare_spec d1 d2 W1 W2) as (c & -> & Hc). cbn [mbind option_bind].
    f_equal. symmetry. rewrite <- Es. fold F in Hc. destruct c as [st|].
    + destruct Hc as (st1 & E1 & k1 & st2 & E2 & k2 & _ & _ & _ & _ & Ho). fold F in Ho.
      destruct (sub_carry st), (sign d1); cbn [Bool.eqb];
        first [apply Z.sgn_pos; lia|apply Z.sgn_neg; lia].
    + apply Z.sgn_null. lia.
  - destruct Hs as [|Hs]; [done|]. f_equal. symmetry.
    destruct (sign d1), (sign d2); try done; [apply Z.sgn_neg|apply Z.sgn_pos]; lia.
Qed.

(** C36. The comparison: [decimal_cmp] returns the sign of the difference of any two
    numbers of the same sign, and of any two numbers of different signs that are
    not both 0. *)
Theorem decimal_cmp_correct d1 d2 :
  wf d1 → wf d2 → let F := Nat.max (nf d1) (nf d2) in
  (sign d1 = sign d2 ∨ 0 < mant_at F d1 + mant_at F d2) →
  decimal_cmp d1 d2 = Some (Z.sgn (value_at F d1 - value_at F d2)).
Proof. apply decimal_cmp_spec. Qed.
