(* ===== verification/DecimalBin.v ===== *)
(** * The binary format of decimals (strings/decimal.c)

    [decimal2bin] writes a decimal with a fixed number of digits before and
    after the point into a fixed number of bytes, [bin2decimal] reads it.  The bytes
    written are the list [to], whose length is that of the buffer; pointers into
    it are indices, and an access outside of it is [None]. *)

From S2P Require Import Prelude MyBit MyisamPack Decimal.

#[local] Open Scope Z_scope.

Definition dig2bytes : list Z := [0; 1; 1; 2; 2; 3; 3; 4; 4; 4].

Definition E_DEC_BAD_NUM : Z := 8.

(** [intg*sizeof(dec1)+dig2bytes[intgx]] *)
Definition bytes_of (n x : Z) : option Z := d ← rd dig2bytes x; Some (n * 4 + d).

Definition decimal_size (precision scale : Z) : Z := ROUND_UP (precision - scale) + ROUND_UP scale.

Definition decimal_bin_size (precision scale : Z) : option Z :=
  let intg := precision - scale in
  let intg0 := Z.quot intg DIG_PER_DEC1 in
  let frac0 := Z.quot scale DIG_PER_DEC1 in
  a ← bytes_of intg0 (intg - intg0 * DIG_PER_DEC1);
  b ← bytes_of frac0 (scale - frac0 * DIG_PER_DEC1);
  Some (a + b).

(** ** Leading zeroes *)

(** [while (intg > 0 && *buf0 == 0)]: the new [intg] and [buf0]. *)
Fixpoint skip_zero_words (fuel : nat) (b : list Z) (intg i buf0 : Z) : option (Z * Z) :=
  match fuel with
  | O => None
  | S fuel =>
    if 0 <? intg then
      x ← rd b buf0;
      if x =? 0 then skip_zero_words fuel b (u16 (intg - i)) DIG_PER_DEC1 (buf0 + 1)
      else Some (intg, buf0)
    else Some (intg, buf0)
  end.

(** [for (i= ..; *buf0 < powers10[i--]; intg--)] *)
Fixpoint skip_zero_digits (fuel : nat) (x intg i : Z) : option Z :=
  match fuel with
  | O => None
  | S fuel =>
    p ← rd powers10 i;
    if x <? p then skip_zero_digits fuel x (u16 (intg - 1)) (u16 (i - 1)) else Some intg
  end.

(** The returned pointer and [*intg_result]. *)
Definition remove_leading_zeroes (from : decimal_t) : option (Z * Z) :=
  let intg := u16 (intg from) in
  let i := u16 (Z.rem (intg - 1) DIG_PER_DEC1 + 1) in
  '(intg, buf0) ← skip_zero_words (S (Z.to_nat intg)) (buf from) intg i 0;
  if 0 <? intg then
    x ← rd (buf from) buf0;
    intg ← skip_zero_digits (S (Z.to_nat DIG_PER_DEC1)) x intg (u16 (Z.rem (intg - 1) DIG_PER_DEC1));
    Some (buf0, intg)
  else Some (buf0, 0).

(** ** Writing *)

(** Bytes written at [p], and the pointer behind them. *)
Definition put (to : list Z) (p : nat) (bytes : list Z) : option (list Z * nat) :=
  if decide (p + length bytes ≤ length to)%nat
  then Some (take p to ++ bytes ++ drop (p + length bytes) to, (p + length bytes)%nat)
  else None.

(** [switch (i)] over the sizes of a part. *)
Definition part_store (i x : Z) : option (list Z) :=
  if i =? 1 then Some (mi_int1store x) else if i =? 2 then Some (mi_int2store x)
  else if i =? 3 then Some (mi_int3store x) else if i =? 4 then Some (mi_int4store x) else None.

(** [n] words from [buf1] on. *)
Fixpoint words_store (n : nat) (mask : Z) (b : list Z) (buf1 : Z) (to : list Z) (p : nat)
    : option (Z * list Z * nat) :=
  match n with
  | O => Some (buf1, to, p)
  | S n =>
    x ← rd b buf1;
    '(to, p) ← put to p (mi_int4store (Z.lxor x mask));
    words_store n mask b (buf1 + 1) to p
  end.

(** [while (frac1x < lim && dig2bytes[frac1x] == i) frac1x++] *)
Fixpoint widen (fuel : nat) (frac1x lim i : Z) : option Z :=
  match fuel with
  | O => None
  | S fuel =>
    if frac1x <? lim then
      d ← rd dig2bytes frac1x;
      if d =? i then widen fuel (frac1x + 1) lim i else Some frac1x
    else Some frac1x
  end.

(** The part with [frac1x] digits: the last word of the fraction. *)
Definition last_store (mask frac0 frac0x frac1 frac1x : Z) (b : list Z) (buf1 : Z) (to : list Z) (p : nat)
    : option (list Z * nat) :=
  if frac1x =? 0 then Some (to, p) else
  i ← rd dig2bytes frac1x;
  frac1x ← widen 10 frac1x (if frac1 <? frac0 then DIG_PER_DEC1 else frac0x) i;
  w ← rd b buf1;
  q ← rd powers10 (DIG_PER_DEC1 - frac1x);
  bytes ← part_store i (Z.lxor (Z.quot w q) mask);
  put to p bytes.

(** The part with [intg1x] digits: the first word. *)
Definition first_store (mask intg1x : Z) (b : list Z) (buf1 : Z) (to : list Z) (p : nat)
    : option (Z * list Z * nat) :=
  if intg1x =? 0 then Some (buf1, to, p) else
  i ← rd dig2bytes intg1x;
  w ← rd b buf1;
  q ← rd powers10 intg1x;
  bytes ← part_store i (Z.lxor (Z.rem w q) mask);
  '(to, p) ← put to p bytes;
  Some (buf1 + 1, to, p).

(** The number of words, of digits of the last one, the size to fill up to and the error. *)
Definition frac_sizes (frac0 frac0x fsize0 frac1 frac1x fsize1 error : Z) : Z * Z * Z * Z :=
  if fsize0 <? fsize1 then (frac0, frac0x, fsize0, E_DEC_TRUNCATED)
  else if (fsize1 <? fsize0) && negb (frac1x =? 0) then
    if frac0 =? frac1 then (frac1, frac0x, fsize1, error) else (frac1 + 1, 0, fsize0, error)
  else (frac1, frac1x, fsize0, error).

(** The parts of the number, from the word [buf1] of [b] on: the bytes and the error. *)
Definition bin_parts (mask : Z) (b : list Z) (buf1 intg from_intg intg0 intg0x isize0 frac0 frac0x fsize0 : Z)
    (frac1 frac1x fsize1 : Z) (to : list Z) : option (list Z * Z) :=
  let intg1 := Z.quot from_intg DIG_PER_DEC1 in
  let intg1x := from_intg - intg1 * DIG_PER_DEC1 in
  isize1 ← bytes_of intg1 intg1x;
  '(to, p, buf1, intg1, intg1x, error) ←
    (if intg <? from_intg then
       Some (to, O, buf1 + (intg1 - intg0 + (if 0 <? intg1x then 1 else 0) - (if 0 <? intg0x then 1 else 0)),
             intg0, intg0x, E_DEC_OVERFLOW)
     else
       '(to, p) ← put to O (replicate (Z.to_nat (isize0 - isize1)) (u8 mask));
       Some (to, p, buf1, intg1, intg1x, E_DEC_OK));
  let '(frac1, frac1x, fsize0', error) := frac_sizes frac0 frac0x fsize0 frac1 frac1x fsize1 error in
  '(buf1, to, p) ←
    ('(buf1, to, p) ← first_store mask intg1x b buf1 to p;
     words_store (Z.to_nat (intg1 + frac1)) mask b buf1 to p);
  '(to, p) ← last_store mask frac0 frac0x frac1 frac1x b buf1 to p;
  '(to, p) ← put to p (replicate (Nat.min (Z.to_nat (fsize0' - fsize1)) (Z.to_nat (fsize0 + isize0) - p)) (u8 mask));
  x ← to !! O;
  Some (<[O := Z.lxor x 0x80]> to, error).

(** The bytes and the error. *)
Definition decimal2bin (from : decimal_t) (to : list Z) (precision scale : Z) : option (list Z * Z) :=
  let mask := if sign from then -1 else 0 in
  let intg := precision - scale in
  let intg0 := Z.quot intg DIG_PER_DEC1 in
  let frac0 := Z.quot scale DIG_PER_DEC1 in
  let intg0x := intg - intg0 * DIG_PER_DEC1 in
  let frac0x := scale - frac0 * DIG_PER_DEC1 in
  let frac1 := Z.quot (frac from) DIG_PER_DEC1 in
  let frac1x := frac from - frac1 * DIG_PER_DEC1 in
  isize0 ← bytes_of intg0 intg0x;
  fsize0 ← bytes_of frac0 frac0x;
  fsize1 ← bytes_of frac1 frac1x;
  '(buf1, from_intg) ← remove_leading_zeroes from;
  if from_intg + fsize1 =? 0
  then bin_parts 0 [0] 0 1 from_intg intg0 intg0x isize0 frac0 frac0x fsize0 frac1 frac1x fsize1 to
  else bin_parts mask (buf from) buf1 intg from_intg intg0 intg0x isize0 frac0 frac0x fsize0 frac1 frac1x fsize1 to.

(** ** Reading *)

(** [switch (i)] over the sizes of a part. *)
Definition part_load (i : Z) (from : list Z) : option Z :=
  if i =? 1 then mi_sint1korr from else if i =? 2 then mi_sint2korr from
  else if i =? 3 then mi_sint3korr from else if i =? 4 then mi_sint4korr from else None.

(** The result of reading some words: they are valid, with the new decimal,
    [buf] and the rest of [from], or there is a bad number. *)
Inductive loading := Loaded (to : decimal_t) (buf : Z) (from : list Z) | Bad (to : decimal_t).

(** [if (buf > to->buf || *buf != 0) buf++; else to->intg-= n] *)
Definition keep_word (to : decimal_t) (b x n : Z) : decimal_t * Z :=
  if (0 <? b) || negb (x =? 0) then (to, b + 1) else (set_intg (intg to - n) to, b).

(** The first word, of [intg0x] digits. *)
Definition first_load (mask intg0x : Z) (to : decimal_t) (b : Z) (from : list Z) : option loading :=
  if intg0x =? 0 then Some (Loaded to b from) else
  i ← rd dig2bytes intg0x;
  x ← part_load i from;
  let x := Z.lxor x mask in
  nb ← wr (buf to) b x;
  let to := set_buf nb to in
  p ← rd powers10 (intg0x + 1);
  if p <=? u64 x then Some (Bad to)
  else let '(to, b) := keep_word to b x intg0x in Some (Loaded to b (drop (Z.to_nat i) from)).

(** [n] words; those of the integer part that are leading zeroes are left out. *)
Fixpoint words_load (n : nat) (integer : bool) (mask : Z) (to : decimal_t) (b : Z) (from : list Z)
    : option loading :=
  match n with
  | O => Some (Loaded to b from)
  | S n =>
    x ← mi_sint4korr from;
    let x := Z.lxor x mask in
    nb ← wr (buf to) b x;
    let to := set_buf nb to in
    if DIG_MAX <? u32 x then Some (Bad to)
    else
      let '(to, b) := if integer then keep_word to b x DIG_PER_DEC1 else (to, b + 1) in
      words_load n integer mask to b (drop 4 from)
  end.

(** The last word, of [frac0x] digits. *)
Definition last_load (mask frac0x : Z) (to : decimal_t) (b : Z) (from : list Z) : option loading :=
  if frac0x =? 0 then Some (Loaded to b from) else
  i ← rd dig2bytes frac0x;
  x ← part_load i from;
  q ← rd powers10 (DIG_PER_DEC1 - frac0x);
  x ← i32 (Z.lxor x mask * q);
  nb ← wr (buf to) b x;
  let to := set_buf nb to in
  if DIG_MAX <? u32 x then Some (Bad to) else Some (Loaded to (b + 1) from).

(** Going on after words that were valid. *)
Definition then_load (r : option loading) (f : decimal_t → Z → list Z → option loading) : option loading :=
  r ← r; match r with Loaded to b from => f to b from | Bad to => Some (Bad to) end.

(** The decimal and the error. *)
Definition bin2decimal (from : list Z) (to : decimal_t) (precision scale : Z) : option (decimal_t * Z) :=
  let intg := precision - scale in
  let intg0 := Z.quot intg DIG_PER_DEC1 in
  let frac0 := Z.quot scale DIG_PER_DEC1 in
  let intg0x := intg - intg0 * DIG_PER_DEC1 in
  let frac0x := scale - frac0 * DIG_PER_DEC1 in
  let words := intg0 + (if 0 <? intg0x then 1 else 0) in
  byte ← from !! O;
  let mask := if Z.land byte 0x80 =? 0 then -1 else 0 in
  bin_size ← decimal_bin_size precision scale;
  _ ← (if Z.of_nat (length from) <? bin_size then None else Some ());
  let from := <[O := Z.lxor byte 0x80]> (take (Z.to_nat bin_size) from) in
  let '(intg1, frac1, error) :=
    FIX_INTG_FRAC_ERROR (len to) words (frac0 + (if 0 <? frac0x then 1 else 0)) in
  '(from, intg0, intg0x, frac0, frac0x) ←
    (if error =? E_DEC_OK then Some (from, intg0, intg0x, frac0, frac0x)
     else if intg1 <? words then
       d ← rd dig2bytes intg0x;
       Some (drop (Z.to_nat (d + 4 * (intg0 - intg1))) from, intg1, 0, 0, 0)
     else Some (from, intg0, intg0x, frac1, 0));
  let to := mk_decimal (intg0 * DIG_PER_DEC1 + intg0x) (frac0 * DIG_PER_DEC1 + frac0x) (len to)
              (negb (mask =? 0)) (buf to) in
  r ← then_load (then_load (then_load (first_load mask intg0x to 0 from)
        (words_load (Z.to_nat intg0) true mask))
        (words_load (Z.to_nat frac0) false mask))
        (last_load mask frac0x);
  match r with
  | Bad to => to ← decimal_make_zero to; Some (to, E_DEC_BAD_NUM)
  | Loaded to _ _ =>
    if (Decimal.intg to =? 0) && (frac to =? 0)
    then to ← decimal_make_zero to; Some (to, error) else Some (to, error)
  end.
