(* ===== verification/DecimalBytes.v ===== *)
(** * The bytes of a decimal

    The binary format as a function of groups of digits: the first group, the
    words of the integer part, the words of the fraction and the last group.
    Comparing the bytes compares the numbers, negative ones included. *)

From S2P Require Import Prelude MyBit MyisamPack KeyCodec Decimal DecimalFacts DecimalBin.

#[local] Open Scope Z_scope.

(** ** Groups of digits *)

(** The bytes of a group of [x] digits. *)
Definition d2b (x : Z) : nat := Z.to_nat (default 0 (rd dig2bytes x)).

Lemma digit_count_cases x : 0 ≤ x ≤ 9 →
  x = 0 ∨ x = 1 ∨ x = 2 ∨ x = 3 ∨ x = 4 ∨ x = 5 ∨ x = 6 ∨ x = 7 ∨ x = 8 ∨ x = 9.
Proof. lia. Qed.

Ltac count_cases H :=
  apply digit_count_cases in H; repeat (destruct H as [->|H]); try subst.

Lemma dig2bytes_d2b x : 0 ≤ x ≤ 9 → rd dig2bytes x = Some (Z.of_nat (d2b x)).
Proof. intros H. count_cases H; done. Qed.

Lemma powers10_pow x : 0 ≤ x ≤ 9 → rd powers10 x = Some (10 ^ x).
Proof. intros H. count_cases H; done. Qed.

(** A group leaves the highest bit of its bytes clear. *)
Lemma d2b_room x : 0 ≤ x ≤ 9 → 1 ≤ x → 2 * 10 ^ x ≤ 256 ^ Z.of_nat (d2b x) ∧ (1 ≤ d2b x ≤ 4)%nat.
Proof. intros H Hx. count_cases H; try lia; vm_compute; split; try split; (discriminate || lia). Qed.

Lemma d2b_bound x : 0 ≤ x ≤ 9 → 10 ^ x ≤ 256 ^ Z.of_nat (d2b x) ∧ (d2b x ≤ 4)%nat.
Proof. intros H. count_cases H; vm_compute; split; (discriminate || lia). Qed.

Lemma d2b_mono x y : 0 ≤ x ≤ y → y ≤ 9 → (d2b x ≤ d2b y)%nat.
Proof.
  intros Hx Hy. assert (H : 0 ≤ x ≤ 9) by lia. assert (H' : 0 ≤ y ≤ 9) by lia.
  count_cases H; count_cases H'; try lia; vm_compute; lia.
Qed.

Lemma bytes_of_spec n x : 0 ≤ x ≤ 9 → bytes_of n x = Some (n * 4 + Z.of_nat (d2b x)).
Proof. intros H. unfold bytes_of. by rewrite dig2bytes_d2b. Qed.

Lemma part_store_spec n x : (1 ≤ n ≤ 4)%nat → part_store (Z.of_nat n) x = Some (be_bytes n x).
Proof.
  intros Hn. unfold part_store. destruct n as [|[|[|[|[|]]]]]; try lia; cbn [Z.of_nat Z.eqb Pos.of_succ_nat Pos.eqb Pos.succ].
  - unfold mi_int1store. cbn [be_bytes]. unfold u8. change (256 ^ Z.of_nat 0) with 1. by rewrite Z.div_1_r.
  - by rewrite int2store_be.
  - by rewrite int3store_be.
  - by rewrite int4store_be.
Qed.

(** ** Complements *)

(** The bytes of a negative number are inverted. *)
Definition flip (n : bool) (l : list Z) : list Z := if n then (λ b, 255 - b) <$> l else l.
Definition mask_of (n : bool) : Z := if n then -1 else 0.

Lemma length_flip n l : length (flip n l) = length l.
Proof. destruct n; [apply length_fmap|done]. Qed.

Lemma flip_app n a b : flip n (a ++ b) = flip n a ++ flip n b.
Proof. destruct n; [apply fmap_app|done]. Qed.

Lemma flip_bytes n l : Forall is_byte l → Forall is_byte (flip n l).
Proof.
  intros H. destruct n; [|done]. cbn [flip]. rewrite list.Forall_fmap. apply (list.Forall_impl _ _ _ H). intros x Hx.
  unfold is_byte, compose in *. lia.
Qed.

Lemma lxor_mask x n : Z.lxor x (mask_of n) = if n then - x - 1 else x.
Proof. destruct n; cbn [mask_of]; [rewrite Z.lxor_m1_r; unfold Z.lnot; lia|apply Z.lxor_0_r]. Qed.

Lemma be_bytes_flip k n x : be_bytes k (Z.lxor x (mask_of n)) = flip n (be_bytes k x).
Proof.
  rewrite lxor_mask. destruct n; [|done]. induction k as [|k IH]; [done|]. cbn [be_bytes flip fmap list_fmap].
  unfold flip in IH. rewrite IH. f_equal. assert (0 < 256 ^ Z.of_nat k) by (apply Z.pow_pos_nonneg; lia).
  set (B := 256 ^ Z.of_nat k) in *. clearbody B.
  assert (E : (- x - 1) / B = - (x / B) - 1).
  { symmetry. apply (Z.div_unique_pos _ _ _ (B - 1 - x mod B)); pose proof (Z.mod_pos_bound x B ltac:(lia));
      pose proof (Z.div_mod x B ltac:(lia)); nia. }
  rewrite E. divlia.
Qed.

Lemma flip_replicate n k : replicate k (u8 (mask_of n)) = flip n (replicate k 0).
Proof. destruct n; [|done]. unfold flip. by rewrite fmap_replicate. Qed.

Lemma memcmp_flip n a b : length a = length b → memcmp (flip n a) (flip n b) = if n then - memcmp a b else memcmp a b.
Proof.
  destruct n; [|done]. unfold flip. revert b. induction a as [|x a IH]; intros [|y b] HL; try done.
  cbn [fmap list_fmap memcmp]. destruct (Z.eqb_spec x y) as [->|].
  - rewrite Z.eqb_refl. apply IH. by injection HL.
  - rewrite (proj2 (Z.eqb_neq _ _)) by lia. destruct (Z.ltb_spec x y).
    + by rewrite (proj2 (Z.ltb_ge _ _)) by lia.
    + by rewrite (proj2 (Z.ltb_lt _ _)) by lia.
Qed.

(** Leading zero bytes. *)
Lemma be_bytes_pad n m v : 0 ≤ v < 256 ^ Z.of_nat m → be_bytes (n + m) v = replicate n 0 ++ be_bytes m v.
Proof.
  intros Hv. rewrite be_bytes_app, Z.div_small by done. f_equal.
  induction n as [|n IH]; [done|]. cbn [be_bytes replicate]. by rewrite IH, Z.div_0_l by (apply Z.pow_nonzero; lia).
Qed.

Lemma be_bytes_zero n : be_bytes n 0 = replicate n 0.
Proof. rewrite <- (Nat.add_0_r n), (be_bytes_pad n 0) by (cbn; lia). cbn [be_bytes]. by rewrite app_nil_r, Nat.add_0_r. Qed.

(** ** The format *)

(** A number with [top] in the first group, then words, and [bottom] in the last group. *)
Record groups := mk_groups { top : Z; ints : list Z; fracs : list Z; bottom : Z }.

(** [ix] and [fx] digits in the first and last group, [n] and [f] words between. *)
Record valid_groups (ix fx : Z) (n f : nat) (g : groups) : Prop := {
  vg_ix : 0 ≤ ix < 9;
  vg_fx : 0 ≤ fx < 9;
  vg_some : 0 < ix + fx + Z.of_nat n + Z.of_nat f;
  vg_top : 0 ≤ top g < 10 ^ ix;
  vg_ints : length (ints g) = n;
  vg_fracs : length (fracs g) = f;
  vg_digits : digits (ints g ++ fracs g);
  vg_bottom : 0 ≤ bottom g < 10 ^ fx;
}.

Definition words_bytes (l : list Z) : list Z := concat (be_bytes 4 <$> l).

(** The bytes of the absolute value. *)
Definition body (ix fx : Z) (g : groups) : list Z :=
  be_bytes (d2b ix) (top g) ++ words_bytes (ints g ++ fracs g) ++ be_bytes (d2b fx) (bottom g).

(** The number, in units of the last digit. *)
Definition amount (fx : Z) (g : groups) : Z :=
  (top g * base (length (ints g ++ fracs g)) + num (ints g ++ fracs g)) * 10 ^ fx + bottom g.

Lemma length_words_bytes l : length (words_bytes l) = (4 * length l)%nat.
Proof.
  unfold words_bytes. induction l as [|x l IH]; [done|]. rewrite fmap_cons. cbn [concat].
  rewrite length_app, IH, length_be_bytes. cbn [length]. lia.
Qed.

Lemma words_bytes_app a b : words_bytes (a ++ b) = words_bytes a ++ words_bytes b.
Proof. unfold words_bytes. by rewrite fmap_app, concat_app. Qed.

Lemma words_bytes_range l : Forall is_byte (words_bytes l).
Proof.
  unfold words_bytes. induction l as [|x l IH]; [constructor|]. rewrite fmap_cons. cbn [concat].
  apply Forall_app. split; [apply be_bytes_range|done].
Qed.

Lemma words_bytes_zeroes n : words_bytes (replicate n 0) = replicate (4 * n) 0.
Proof.
  induction n as [|n IH]; [done|]. cbn [replicate]. unfold words_bytes in *. rewrite fmap_cons. cbn [concat].
  rewrite IH, be_bytes_zero, <- replicate_add. f_equal. lia.
Qed.

Lemma body_bytes ix fx g : Forall is_byte (body ix fx g).
Proof. unfold body. rewrite !Forall_app. split_and!; [apply be_bytes_range|apply words_bytes_range|apply be_bytes_range]. Qed.

Lemma length_body ix fx n f g :
  valid_groups ix fx n f g → length (body ix fx g) = (d2b ix + 4 * (n + f) + d2b fx)%nat.
Proof.
  intros [_ _ _ _ H1 H2 _ _]. unfold body. rewrite !length_app, !length_be_bytes, length_words_bytes, length_app. lia.
Qed.

Lemma digit_byte x : digit x → 0 ≤ x < 256 ^ Z.of_nat 4 ∧ 2 * x < 256 ^ Z.of_nat 4.
Proof. unfold digit, DIG_BASE. change (256 ^ Z.of_nat 4) with (2 ^ 32). lia. Qed.

Lemma memcmp_words a b :
  length a = length b → digits a → digits b → memcmp (words_bytes a) (words_bytes b) = order (num a) (num b).
Proof.
  revert b. induction a as [|x a IH]; intros [|y b] HL; try done.
  intros [Hx Ha]%list.Forall_cons [Hy Hb]%list.Forall_cons. unfold words_bytes in *. rewrite !fmap_cons. cbn [concat].
  rewrite memcmp_app, memcmp_be_bytes by (try apply digit_byte; try done; by rewrite !length_be_bytes).
  injection HL as HL. rewrite IH, !num_cons, HL by done.
  pose proof (num_bound a Ha) as Ba. pose proof (num_bound b Hb) as Bb. rewrite HL in Ba. by rewrite order_lex.
Qed.

(** The bytes of absolute values are in the order of the numbers. *)
Lemma memcmp_body ix fx n f g g' :
  valid_groups ix fx n f g → valid_groups ix fx n f g' →
  memcmp (body ix fx g) (body ix fx g') = order (amount fx g) (amount fx g').
Proof.
  intros [Hix Hfx _ Ht H1 H2 Hd Hb] [_ _ _ Ht' H1' H2' Hd' Hb']. unfold body, amount.
  assert (HL : length (ints g ++ fracs g) = length (ints g' ++ fracs g')) by (rewrite !length_app; lia).
  set (l := ints g ++ fracs g) in *. set (l' := ints g' ++ fracs g') in *.
  pose proof (d2b_bound ix ltac:(lia)) as [Bi _]. pose proof (d2b_bound fx ltac:(lia)) as [Bf _].
  rewrite !memcmp_app by (by rewrite ?length_be_bytes, ?length_words_bytes, ?HL).
  rewrite memcmp_words, !memcmp_be_bytes by (done || lia).
  pose proof (num_bound l Hd) as Bn. pose proof (num_bound l' Hd') as Bn'. rewrite HL in *.
  rewrite (order_lex (10 ^ fx)), (order_lex (base (length l'))) by done.
  destruct (order (top g) (top g') =? 0) eqn:E; [done|]. by rewrite E.
Qed.

(** ** The sign *)

(** The first bit is inverted. *)
Definition mark (l : list Z) : list Z := match l with b :: l => Z.lxor b 0x80 :: l | [] => [] end.

(** The bytes in the column. *)
Definition encoded (n : bool) (ix fx : Z) (g : groups) : list Z := mark (flip n (body ix fx g)).

Lemma length_mark l : length (mark l) = length l.
Proof. by destruct l. Qed.

Lemma lxor_80 b : 0 ≤ b < 256 → Z.lxor b 0x80 = if b <? 128 then b + 128 else b - 128.
Proof.
  intros Hb. assert (H : forallb (λ b, Z.lxor b 0x80 =? if b <? 128 then b + 128 else b - 128) (seqZ 0 256) = true)
    by (by vm_compute).
  rewrite forallb_forall in H. apply Z.eqb_eq, H, list_elem_of_In, elem_of_seqZ. lia.
Qed.

Lemma land_80 b : 0 ≤ b < 256 → (Z.land b 0x80 =? 0) = (b <? 128).
Proof.
  intros Hb. assert (H : forallb (λ b, Bool.eqb (Z.land b 0x80 =? 0) (b <? 128)) (seqZ 0 256) = true) by (by vm_compute).
  rewrite forallb_forall in H. apply eqb_prop, H, list_elem_of_In, elem_of_seqZ. lia.
Qed.

Lemma mark_involutive l : Forall is_byte l → mark (mark l) = l.
Proof.
  intros H. destruct l as [|b l]; [done|]. apply list.Forall_cons in H as [Hb _]. unfold mark.
  by rewrite Z.lxor_assoc, Z.lxor_nilpotent, Z.lxor_0_r.
Qed.

Lemma be_bytes_head k v : 0 ≤ v → 2 * v < 256 ^ Z.of_nat (S k) → ∃ b, be_bytes (S k) v = b :: be_bytes k v ∧ 0 ≤ b < 128.
Proof.
  intros Hv H. rewrite Nat2Z.inj_succ, Z.pow_succ_r in H by lia. eexists. split; [done|].
  set (B := 256 ^ Z.of_nat k) in *. assert (0 < B) by (apply Z.pow_pos_nonneg; lia).
  assert (0 ≤ v / B < 128) by (split; [apply Z.div_pos; lia|apply Z.div_lt_upper_bound; lia]).
  rewrite Z.mod_small by lia. lia.
Qed.

(** The first bit of an absolute value is clear. *)
Lemma body_head ix fx n f g : valid_groups ix fx n f g → ∃ b l, body ix fx g = b :: l ∧ 0 ≤ b < 128.
Proof.
  intros [Hix Hfx Hs Ht H1 H2 Hd Hb]. unfold body.
  assert (Hg : ∀ x v r, 1 ≤ x < 9 → 0 ≤ v < 10 ^ x → ∃ b l, be_bytes (d2b x) v ++ r = b :: l ∧ 0 ≤ b < 128).
  { intros x v r Hx Hv. destruct (d2b_room x ltac:(lia) ltac:(lia)) as [Hr Hd2].
    destruct (d2b x) as [|k]; [lia|]. destruct (be_bytes_head k v ltac:(lia) ltac:(lia)) as (b & -> & Hb'). by eexists _, _. }
  destruct (decide (ix = 0)) as [->|]; [|apply Hg; lia].
  replace (d2b 0) with 0%nat by done. cbn [be_bytes app].
  destruct (ints g ++ fracs g) as [|w l] eqn:El.
  - apply (f_equal length) in El. rewrite length_app in El. cbn in El.
    cbn [words_bytes fmap list_fmap concat app]. rewrite <- (app_nil_r (be_bytes _ _)). apply Hg; lia.
  - unfold words_bytes. rewrite fmap_cons. cbn [concat]. apply list.Forall_cons in Hd as [Hw _].
    destruct (be_bytes_head 3 w) as (b & -> & Hb'); [apply Hw|by apply digit_byte|]. by eexists _, _.
Qed.

Lemma memcmp_mark a b :
  (∃ x l, a = x :: l) → (∃ x l, b = x :: l) → Forall is_byte a → Forall is_byte b →
  memcmp (mark a) (mark b) =
    match a, b with
    | x :: _, y :: _ => if Bool.eqb (x <? 128) (y <? 128) then memcmp a b else if x <? 128 then 1 else -1
    | _, _ => 0
    end.
Proof.
  intros (x & l & ->) (y & l' & ->) [Hx _]%list.Forall_cons [Hy _]%list.Forall_cons. cbn [mark memcmp].
  unfold is_byte in *. rewrite !lxor_80 by lia.
  destruct (Z.ltb_spec x 128), (Z.ltb_spec y 128); cbn [Bool.eqb].
  - replace (x + 128 =? y + 128) with (x =? y) by lia. replace (x + 128 <? y + 128) with (x <? y) by lia. done.
  - rewrite (proj2 (Z.eqb_neq _ _)), (proj2 (Z.ltb_ge _ _)) by lia. done.
  - rewrite (proj2 (Z.eqb_neq _ _)), (proj2 (Z.ltb_lt _ _)) by lia. done.
  - replace (x - 128 =? y - 128) with (x =? y) by lia. replace (x - 128 <? y - 128) with (x <? y) by lia. done.
Qed.

(** The first byte tells the sign. *)
Lemma encoded_head s ix fx n f g :
  valid_groups ix fx n f g →
  ∃ b l, encoded s ix fx g = b :: l ∧ (Z.land b 0x80 =? 0) = s ∧ Z.lxor b 0x80 :: l = flip s (body ix fx g).
Proof.
  intros V. destruct (body_head _ _ _ _ _ V) as (b & l & E & Hb). unfold encoded. rewrite E.
  assert (Hc : ∃ c m, flip s (b :: l) = c :: m ∧ 0 ≤ c < 256 ∧ (c <? 128) = negb s).
  { destruct s; eexists _, _; (split; [done|]); (split; [lia|]); [apply Z.ltb_ge|apply Z.ltb_lt]; lia. }
  destruct Hc as (c & m & -> & Hc & Ec). cbn [mark]. eexists _, _. split; [done|].
  rewrite lxor_80, Ec by done. split.
  - rewrite land_80 by (destruct s; cbn [negb] in *; [apply Z.ltb_ge in Ec|apply Z.ltb_lt in Ec]; lia).
    destruct s; cbn [negb] in *; [apply Z.ltb_ge in Ec; apply Z.ltb_lt; lia|apply Z.ltb_lt in Ec; apply Z.ltb_ge; lia].
  - f_equal. rewrite lxor_80 by (destruct s; cbn [negb] in *; [apply Z.ltb_ge in Ec|apply Z.ltb_lt in Ec]; lia).
    destruct s; cbn [negb] in *; [apply Z.ltb_ge in Ec; rewrite (proj2 (Z.ltb_lt _ _)) by lia
      |apply Z.ltb_lt in Ec; rewrite (proj2 (Z.ltb_ge _ _)) by lia]; lia.
Qed.

(** A number with its sign. *)
Definition with_sign (n : bool) (x : Z) : Z := (if n then -1 else 1) * x.

Lemma amount_nonneg ix fx n f g : valid_groups ix fx n f g → 0 ≤ amount fx g.
Proof.
  intros [Hix Hfx _ Ht _ _ Hd Hb]. unfold amount. pose proof (num_bound _ Hd). pose proof (base_pos (length (ints g ++ fracs g))).
  assert (0 < 10 ^ fx) by (apply Z.pow_pos_nonneg; lia). nia.
Qed.

(** Comparing the bytes compares the numbers; 0 is not negative. *)
Lemma memcmp_encoded s s' ix fx n f g g' :
  valid_groups ix fx n f g → valid_groups ix fx n f g' →
  (s = true → amount fx g ≠ 0) → (s' = true → amount fx g' ≠ 0) →
  memcmp (encoded s ix fx g) (encoded s' ix fx g')
  = order (with_sign s (amount fx g)) (with_sign s' (amount fx g')).
Proof.
  intros V V' Hs Hs'. pose proof (amount_nonneg _ _ _ _ _ V) as Ha. pose proof (amount_nonneg _ _ _ _ _ V') as Ha'.
  unfold encoded. pose proof (memcmp_body _ _ _ _ _ _ V V') as HM. pose proof (body_bytes ix fx g) as B. pose proof (body_bytes ix fx g') as B'.
  assert (HL : length (body ix fx g) = length (body ix fx g')) by (by rewrite !(length_body ix fx n f)).
  destruct (body_head _ _ _ _ _ V) as (b & l & E & Hb), (body_head _ _ _ _ _ V') as (b' & l' & E' & Hb').
  assert (Hh : ∀ t x m, 0 ≤ x < 128 → ∃ y r, flip t (x :: m) = y :: r ∧ (y <? 128) = negb t).
  { intros [] x m Hx; eexists _, _; split; [done|apply Z.ltb_ge; lia|done|apply Z.ltb_lt; lia]. }
  rewrite memcmp_mark; [|rewrite E|rewrite E'|by apply flip_bytes..];
    [|destruct (Hh s b l Hb) as (y & r & -> & _); by eexists _, _|destruct (Hh s' b' l' Hb') as (y & r & -> & _); by eexists _, _].
  pose proof (memcmp_flip s _ _ HL) as HF. rewrite HM in HF.
  destruct (Hh s b l Hb) as (y & r & Ey & Hy), (Hh s' b' l' Hb') as (y' & r' & Ey' & Hy').
  rewrite E, E', Ey, Ey' in *. rewrite Hy, Hy'. destruct s, s'; cbn [negb Bool.eqb].
  - rewrite Ey' in HF. rewrite HF. unfold order, with_sign. rewrite <- Z.sgn_opp. f_equal. lia.
  - rewrite order_lt; [done|]. specialize (Hs eq_refl). unfold with_sign. lia.
  - rewrite order_gt; [done|]. specialize (Hs' eq_refl). unfold with_sign. lia.
  - rewrite Ey' in HF. rewrite HF. unfold with_sign. by rewrite !Z.mul_1_l.
Qed.
