(* ===== verification/DecimalWrite.v ===== *)
(** * Writing the binary format of decimals

    [decimal2bin] writes the groups of the number: it skips leading zeroes of the
    number and writes those of the column, and it pads the fraction. *)

From S2P Require Import Prelude MyBit MyisamPack KeyCodec Decimal DecimalFacts DecimalBin DecimalBytes.

#[local] Open Scope Z_scope.

(** ** Sequential writes *)

Lemma put_app A R bs :
  (length bs ≤ length R)%nat →
  put (A ++ R) (length A) bs = Some ((A ++ bs) ++ drop (length bs) R, length (A ++ bs)).
Proof.
  intros H. unfold put. rewrite decide_True by (rewrite length_app; lia).
  rewrite take_app_length, drop_app_add, <- app_assoc, length_app. done.
Qed.

Lemma words_store_spec n ws X Y A R :
  (4 * length ws ≤ length R)%nat →
  words_store (length ws) (mask_of n) (X ++ ws ++ Y) (Z.of_nat (length X)) (A ++ R) (length A)
  = Some (Z.of_nat (length (X ++ ws)), (A ++ flip n (words_bytes ws)) ++ drop (4 * length ws) R,
          length (A ++ flip n (words_bytes ws))).
Proof.
  revert X A R. induction ws as [|w ws IH]; intros X A R HL; cbn [words_store length].
  { cbn [words_bytes fmap list_fmap concat]. replace (flip n []) with ([] : list Z) by (by destruct n).
    by rewrite !app_nil_r. }
  cbn [app]. rewrite rd_app. cbn [mbind option_bind]. rewrite int4store_be, be_bytes_flip.
  cbn [length] in HL. rewrite put_app by (rewrite length_flip, length_be_bytes; lia). cbn [mbind option_bind].
  rewrite length_flip, length_be_bytes.
  replace (X ++ w :: ws ++ Y) with ((X ++ [w]) ++ ws ++ Y) by (by rewrite <- app_assoc).
  replace (Z.of_nat (length X) + 1) with (Z.of_nat (length (X ++ [w]))) by (rewrite length_app; cbn; lia).
  rewrite IH by (rewrite length_drop; lia). unfold words_bytes. rewrite fmap_cons. cbn [concat].
  rewrite flip_app, drop_drop, <- !app_assoc. cbn [app].
  by replace (4 + 4 * length ws)%nat with (4 * S (length ws))%nat by lia.
Qed.

(** ** Leading zeroes *)

Lemma u16_small x : 0 ≤ x < 2 ^ 16 → u16 x = x.
Proof. apply Z.mod_small. Qed.

(** The words behind the leading zeroes, [i] digits being in the first word. *)
Lemma skip_zero_words_spec fuel ws X Y i :
  (length ws < fuel)%nat → 1 ≤ i ≤ 9 → 9 * Z.of_nat (length ws) < 2 ^ 16 →
  ∃ z ws', ws = replicate z 0 ++ ws' ∧
    skip_zero_words fuel (X ++ ws ++ Y) (if decide (ws = []) then 0 else 9 * (Z.of_nat (length ws) - 1) + i) i (Z.of_nat (length X))
    = Some (match ws' with [] => 0 | _ :: l => 9 * Z.of_nat (length l) + (if decide (z = O) then i else 9) end,
            Z.of_nat (length X + z))
    ∧ match ws' with [] => True | w :: _ => w ≠ 0 end.
Proof.
  revert ws X i. induction fuel as [|fuel IH]; intros ws X i Hf Hi Hb; [lia|]. cbn [skip_zero_words].
  destruct ws as [|w ws]; cbn [decide length] in *.
  { exists O, []. rewrite decide_True by done. cbn [Z.ltb Z.compare replicate app]. by rewrite Nat.add_0_r. }
  rewrite decide_False by done. rewrite (proj2 (Z.ltb_lt _ _)) by lia. cbn [app]. rewrite rd_app. cbn [mbind option_bind].
  destruct (Z.eqb_spec w 0) as [->|Hw].
  - rewrite u16_small by lia.
    replace (9 * (Z.of_nat (S (length ws)) - 1) + i - i) with (if decide (ws = []) then 0 else 9 * (Z.of_nat (length ws) - 1) + DIG_PER_DEC1)
      by (case_decide; subst; unfold DIG_PER_DEC1; cbn [length]; lia).
    replace (X ++ 0 :: ws ++ Y) with ((X ++ [0]) ++ ws ++ Y) by (by rewrite <- app_assoc).
    replace (Z.of_nat (length X) + 1) with (Z.of_nat (length (X ++ [0]))) by (rewrite length_app; cbn; lia).
    destruct (IH ws (X ++ [0]) DIG_PER_DEC1) as (z & ws' & E & -> & Hw'); [lia|done|lia|].
    exists (S z), ws'. split; [by rewrite E|]. split; [|done]. rewrite length_app. cbn [length].
    f_equal. f_equal; [|lia]. destruct ws'; [done|]. rewrite (decide_False (P := S z = _)) by done. by case_decide.
  - exists O, (w :: ws). cbn [replicate app]. split; [done|]. split; [|done]. rewrite decide_True, Nat.add_0_r by done.
    do 2 f_equal. lia.
Qed.

Lemma skip_zero_digits_spec fuel x n i :
  0 ≤ i < Z.of_nat fuel → i ≤ 8 → 1 ≤ x < 10 ^ (i + 1) → i < n < 2 ^ 16 →
  ∃ j, 0 ≤ j ≤ i ∧ 10 ^ j ≤ x < 10 ^ (j + 1) ∧ skip_zero_digits fuel x n i = Some (n - (i - j)).
Proof.
  revert n i. induction fuel as [|fuel IH]; intros n i Hf Hi Hx Hn; [lia|]. cbn [skip_zero_digits].
  rewrite powers10_pow by lia. cbn [mbind option_bind]. destruct (Z.ltb_spec x (10 ^ i)).
  - destruct (decide (i = 0)) as [->|]; [cbn in *; lia|]. rewrite !u16_small by lia.
    destruct (IH (n - 1) (i - 1)) as (j & Hj & Hx' & ->); [lia|lia| |lia|].
    { replace (i - 1 + 1) with i by lia. lia. }
    exists j. split_and!; try (done || lia). f_equal. lia.
  - exists i. split_and!; try lia. f_equal. lia.
Qed.

(** ** Decimals whose words have no more digits than they declare *)

Definition int_words (d : decimal_t) : list Z := take (ni d) (words d).
Definition frac_words (d : decimal_t) : list Z := drop (ni d) (words d).

(** The digits of the first word of the integer part. *)
Definition first_digits (d : decimal_t) : Z := intg d - 9 * (Z.of_nat (ni d) - 1).

Record tight (d : decimal_t) : Prop := {
  tg_wf : wf d;
  tg_intg : 9 * Z.of_nat (ni d) < 2 ^ 16;
  tg_first : Forall (λ w, w < 10 ^ first_digits d) (take 1 (int_words d));
  tg_last : Forall (λ w, w mod 10 ^ (9 * Z.of_nat (nf d) - frac d) = 0) (drop (nf d - 1) (frac_words d));
}.

Lemma length_int_words d : wf d → length (int_words d) = ni d.
Proof. intros W. unfold int_words. rewrite length_take, length_words by done. lia. Qed.

Lemma length_frac_words d : wf d → length (frac_words d) = nf d.
Proof. intros W. unfold frac_words. rewrite length_drop, length_words by done. lia. Qed.

Lemma ni_cases d : wf d → (ni d = 0%nat ∧ intg d = 0) ∨ (0 < ni d)%nat ∧ 1 ≤ first_digits d ≤ 9.
Proof.
  intros W. pose proof (ni_spec d W) as E. pose proof (wf_intg d W). rewrite ROUND_UP_spec in E by done.
  unfold first_digits. destruct (decide (intg d = 0)); [left|right]; divlia.
Qed.

Lemma buf_parts d : buf d = int_words d ++ frac_words d ++ drop (ni d + nf d) (buf d).
Proof. rewrite app_assoc. unfold int_words, frac_words. rewrite take_drop. apply buf_words. Qed.

Lemma digits_int_words d : wf d → digits (int_words d).
Proof. intros W. apply Forall_take, W. Qed.

Lemma digits_frac_words d : wf d → digits (frac_words d).
Proof. intros W. apply Forall_drop, W. Qed.

(** The zero words, the other words, and the number of digits of their first one. *)
Inductive leading (d : decimal_t) : nat → list Z → Z → Prop :=
  | leading_none z : int_words d = replicate z 0 → leading d z [] 0
  | leading_some z w l j :
      int_words d = replicate z 0 ++ w :: l → 1 ≤ j ≤ 9 → 10 ^ (j - 1) ≤ w < 10 ^ j → leading d z (w :: l) j.

(** The number of digits without leading zeroes. *)
Definition digit_count (ws : list Z) (j : Z) : Z := 9 * Z.of_nat (length (tail ws)) + j.

Lemma remove_leading_zeroes_spec d :
  tight d → ∃ z ws j, leading d z ws j ∧ remove_leading_zeroes d = Some (Z.of_nat z, digit_count ws j)
    ∧ digit_count ws j < 2 ^ 16.
Proof.
  intros [W Hb Hf _]. pose proof (length_int_words d W) as HL. unfold remove_leading_zeroes. rewrite (buf_parts d).
  pose proof (wf_intg d W) as Hi. pose proof (ni_spec d W) as En. rewrite ROUND_UP_spec in En by done.
  rewrite (u16_small (intg d)) by divlia.
  set (i := u16 (Z.rem (intg d - 1) DIG_PER_DEC1 + 1)).
  assert (Ei : intg d = if decide (int_words d = []) then 0 else 9 * (Z.of_nat (length (int_words d)) - 1) + i).
  { rewrite HL. destruct (ni_cases d W) as [[E0 E1]|[E0 E1]].
    - rewrite decide_True by (by apply nil_length_inv; rewrite HL). done.
    - rewrite decide_False by (intros E; rewrite E in HL; cbn in HL; lia). unfold i, DIG_PER_DEC1, first_digits in *.
      rewrite Z.rem_mod_nonneg, u16_small by divlia. divlia. }
  assert (Hi9 : int_words d ≠ [] → i = first_digits d).
  { intros Hne. rewrite decide_False in Ei by done. unfold first_digits. lia. }
  destruct (decide (int_words d = [])) as [E0|E0].
  { exists O, [], 0. rewrite Ei. split; [by constructor|]. done. }
  assert (Hi1 : 1 ≤ i ≤ 9).
  { rewrite Hi9 by done. destruct (ni_cases d W) as [[E _]|[_ ?]]; [|done]. destruct E0. by apply nil_length_inv; rewrite HL. }
  destruct (skip_zero_words_spec (S (Z.to_nat (intg d))) (int_words d) [] (frac_words d ++ drop (ni d + nf d) (buf d)) i)
    as (z & ws & E & Es & Hw); [lia|done|lia|].
  rewrite decide_False, <- Ei in Es by done. cbn [app length Nat.add] in Es. change (Z.of_nat 0) with 0 in Es. rewrite Es. cbn [mbind option_bind].
  destruct ws as [|w l].
  { exists z, [], 0. split; [constructor; by rewrite app_nil_r in E|]. done. }
  rewrite (proj2 (Z.ltb_lt _ _)) by (case_decide; lia). rewrite E, <- app_assoc. cbn [app].
  pose proof (rd_app (replicate z 0) w (l ++ frac_words d ++ drop (ni d + nf d) (buf d))) as Er.
  rewrite length_replicate in Er. rewrite Er. cbn [mbind option_bind].
  pose proof (digits_int_words d W) as Hd. rewrite E in Hd, HL. rewrite length_app, length_replicate in HL. cbn [length] in HL.
  apply Forall_app in Hd as [_ [Hwd _]%list.Forall_cons]. set (c := if decide (z = O) then i else 9).
  assert (Hc : 1 ≤ c ≤ 9 ∧ w < 10 ^ c).
  { unfold c. case_decide as Ez; [|split; [done|apply Hwd]]. subst z. split; [done|].
    rewrite E in Hf. apply list.Forall_cons in Hf as [Hf _]. by rewrite Hi9. }
  unfold DIG_PER_DEC1. rewrite (Z.rem_mod_nonneg (_ - 1)) by lia.
  replace ((9 * Z.of_nat (length l) + c - 1) mod 9) with (c - 1) by divlia. rewrite u16_small by lia.
  destruct (skip_zero_digits_spec (S (Z.to_nat 9)) w (9 * Z.of_nat (length l) + c) (c - 1)) as (j & Hj & Hw' & Ed);
    [lia|lia|replace (c - 1 + 1) with c by lia; unfold digit in Hwd; lia|lia|].
  rewrite Ed. cbn [mbind option_bind]. exists z, (w :: l), (j + 1). unfold digit_count. cbn [tail]. split_and!.
  - constructor; [done|lia|]. by replace (j + 1 - 1) with j by lia.
  - f_equal. f_equal. lia.
  - lia.
Qed.

(** ** The integer part *)

(** The words without leading zeroes, with [j] digits in the first one. *)
Definition led_by (ws : list Z) (j : Z) : Prop :=
  match ws with [] => j = 0 | w :: _ => 1 ≤ j ≤ 9 ∧ w < 10 ^ j end.

Lemma leading_led d z ws j : leading d z ws j → led_by ws j ∧ int_words d = replicate z 0 ++ ws.
Proof. intros [|]; [split; [done|by rewrite app_nil_r]|by split; [split; [|lia]|]]. Qed.

(** The bytes of the first word. *)
Definition lead_bytes (ws : list Z) (j : Z) : list Z := match ws with [] => [] | w :: _ => be_bytes (d2b j) w end.

Lemma led_range ws j : led_by ws j → 0 ≤ j ≤ 9.
Proof. destruct ws; cbn; lia. Qed.

Lemma isize_spec ws j :
  led_by ws j →
  let n := digit_count ws j in
  bytes_of (Z.quot n DIG_PER_DEC1) (n - Z.quot n DIG_PER_DEC1 * DIG_PER_DEC1)
  = Some (4 * Z.of_nat (length (tail ws)) + Z.of_nat (d2b j)).
Proof.
  intros H n. pose proof (led_range ws j H). unfold DIG_PER_DEC1. rewrite Z.quot_div_nonneg by (unfold n, digit_count; lia).
  rewrite bytes_of_spec by divlia. f_equal. unfold n, digit_count. destruct (decide (j = 9)) as [->|].
  - replace ((9 * Z.of_nat (length (tail ws)) + 9) / 9) with (Z.of_nat (length (tail ws)) + 1) by divlia.
    replace (_ - (_ + 1) * 9) with 0 by lia. change (Z.of_nat (d2b 0)) with 0. change (Z.of_nat (d2b 9)) with 4. lia.
  - replace ((9 * Z.of_nat (length (tail ws)) + j) / 9) with (Z.of_nat (length (tail ws))) by divlia.
    replace (_ - _ * 9) with j by lia. lia.
Qed.

Lemma base_pow n : base n = 10 ^ (9 * Z.of_nat n).
Proof. unfold base, DIG_BASE. change 1000000000 with (10 ^ 9). by rewrite <- Z.pow_mul_r by lia. Qed.

Lemma int_target ws j n ix :
  led_by ws j → digits ws → 0 ≤ ix < 9 → digit_count ws j ≤ 9 * Z.of_nat n + ix →
  let k := (4 * length (tail ws) + d2b j)%nat in
  ∃ t W, 0 ≤ t < 10 ^ ix ∧ length W = n ∧ digits W ∧ t * base n + num W = num ws ∧ (k ≤ 4 * n + d2b ix)%nat
    ∧ replicate (4 * n + d2b ix - k) 0 ++ lead_bytes ws j ++ words_bytes (tail ws) = be_bytes (d2b ix) t ++ words_bytes W.
Proof.
  intros Hj Hd Hix Hc k. assert (H0 : 0 < 10 ^ ix) by (apply Z.pow_pos_nonneg; lia).
  destruct ws as [|w l].
  - cbn in Hj. subst j. exists 0, (replicate n 0). cbn [tail length lead_bytes] in *. change (d2b 0) with 0%nat in k.
    rewrite length_replicate, num_zeroes, be_bytes_zero, words_bytes_zeroes, <- replicate_add. cbn [app].
    split_and!; [lia|lia|done|apply digits_zeroes|done|lia|]. rewrite app_nil_r. f_equal. lia.
  - destruct Hj as [Hj Hw]. apply list.Forall_cons in Hd as [Hwd Hl]. unfold digit_count in Hc. cbn [tail lead_bytes] in *.
    pose proof (d2b_bound j ltac:(lia)) as [Hb4 Hb]. unfold digit in Hwd.
    destruct (decide (length l < n)%nat) as [Hn|Hn].
    + exists 0, (replicate (n - S (length l)) 0 ++ w :: l).
      rewrite length_app, length_replicate, num_app, num_zeroes, num_cons, words_bytes_app, words_bytes_zeroes. cbn [length].
      split_and!; [lia|lia|lia| |lia|lia|].
      { apply Forall_app. split; [apply digits_zeroes|by constructor]. }
      rewrite be_bytes_zero. unfold words_bytes at 2. rewrite fmap_cons. cbn [concat].
      replace (be_bytes 4 w) with (be_bytes ((4 - d2b j) + d2b j) w) by (f_equal; lia).
      rewrite be_bytes_pad, !app_assoc, <- !replicate_add by lia. unfold words_bytes. do 3 f_equal. lia.
    + assert (length l = n) as <- by lia. exists w, l.
      assert (Hjx : j ≤ ix) by lia. pose proof (d2b_mono j ix ltac:(lia) ltac:(lia)).
      assert (w < 10 ^ ix) by (pose proof (Z.pow_le_mono_r 10 j ix ltac:(lia) Hjx); lia).
      rewrite num_cons. split_and!; try done; try lia.
      replace (be_bytes (d2b ix) w) with (be_bytes ((d2b ix - d2b j) + d2b j) w) by (f_equal; lia).
      rewrite be_bytes_pad, !app_assoc by lia. do 3 f_equal. lia.
Qed.

Lemma int_written n ws j fs X Y A R :
  led_by ws j → digits ws →
  let c := digit_count ws j in
  let intg1 := Z.quot c DIG_PER_DEC1 in
  let bs := lead_bytes ws j ++ words_bytes (tail ws ++ fs) in
  (length bs ≤ length R)%nat →
  ('(buf1, to, p) ← first_store (mask_of n) (c - intg1 * DIG_PER_DEC1) (X ++ ws ++ fs ++ Y) (Z.of_nat (length X)) (A ++ R) (length A);
   words_store (Z.to_nat (intg1 + Z.of_nat (length fs))) (mask_of n) (X ++ ws ++ fs ++ Y) buf1 to p)
  = Some (Z.of_nat (length (X ++ ws ++ fs)), (A ++ flip n bs) ++ drop (length bs) R, length (A ++ flip n bs)).
Proof.
  intros Hj Hd c intg1 bs HR. pose proof (led_range ws j Hj) as Hr. unfold first_store.
  assert (Ei : intg1 = c / 9) by (unfold intg1, DIG_PER_DEC1; rewrite Z.quot_div_nonneg; [done|unfold c, digit_count; lia|lia]).
  unfold DIG_PER_DEC1. rewrite Ei. unfold c, digit_count in *.
  assert (Hplain : ∀ vs, lead_bytes ws j ++ words_bytes (tail ws ++ fs) = words_bytes vs → ws ++ fs = vs →
    words_store (length vs) (mask_of n) (X ++ ws ++ fs ++ Y) (Z.of_nat (length X)) (A ++ R) (length A)
    = Some (Z.of_nat (length (X ++ ws ++ fs)), (A ++ flip n bs) ++ drop (length bs) R, length (A ++ flip n bs))).
  { intros vs Eb Ev. unfold bs in *. rewrite Eb, length_words_bytes in *.
    rewrite (app_assoc ws fs Y), Ev, words_store_spec by done. done. }
  destruct ws as [|w l]; cbn [tail length lead_bytes app] in *.
  { cbn in Hj. subst j. cbn [Z.eqb mbind option_bind]. replace (Z.to_nat _) with (length fs) by (cbn; lia). by apply Hplain. }
  destruct Hj as [Hj Hw]. destruct (decide (j = 9)) as [->|Hj9].
  { replace ((9 * Z.of_nat (length l) + 9) / 9) with (Z.of_nat (length l) + 1) by divlia.
    replace (_ - _ * 9) with 0 by lia. cbn [Z.eqb mbind option_bind].
    replace (Z.to_nat _) with (length (w :: l ++ fs)) by (cbn [length]; rewrite length_app; lia). by apply Hplain. }
  replace ((9 * Z.of_nat (length l) + j) / 9) with (Z.of_nat (length l)) by divlia.
  replace (_ - _ * 9) with j by lia. rewrite (proj2 (Z.eqb_neq _ _)) by lia.
  rewrite dig2bytes_d2b, rd_app, powers10_pow by lia. cbn [mbind option_bind].
  apply list.Forall_cons in Hd as [Hwd _]. unfold digit in Hwd. rewrite Z.rem_small by lia.
  pose proof (d2b_room j ltac:(lia) ltac:(lia)) as [_ H4]. rewrite part_store_spec by done. cbn [mbind option_bind].
  unfold bs in *. rewrite length_app, length_be_bytes, length_words_bytes, length_app in HR.
  rewrite be_bytes_flip, put_app by (rewrite length_flip, length_be_bytes; lia). cbn [mbind option_bind].
  rewrite length_flip, length_be_bytes.
  replace (X ++ w :: l ++ fs ++ Y) with ((X ++ [w]) ++ (l ++ fs) ++ Y) by (by rewrite <- !app_assoc).
  replace (Z.of_nat (length X) + 1) with (Z.of_nat (length (X ++ [w]))) by (rewrite length_app; cbn; lia).
  replace (Z.to_nat _) with (length (l ++ fs)) by (rewrite length_app; lia).
  rewrite words_store_spec by (rewrite length_drop, length_app; lia).
  rewrite drop_drop, flip_app, <- !app_assoc, (length_app (be_bytes _ _)), length_be_bytes, length_words_bytes. cbn [app]. done.
Qed.

(** ** The fraction *)

Lemma widen_spec fuel a lim i :
  0 ≤ a ≤ lim → lim ≤ 9 → lim - a < Z.of_nat fuel → (∀ y, a ≤ y < lim → Z.of_nat (d2b y) = i) →
  widen fuel a lim i = Some lim.
Proof.
  revert a. induction fuel as [|fuel IH]; intros a Ha Hl Hf Hi; [lia|]. cbn [widen].
  destruct (Z.ltb_spec a lim); [|f_equal; lia]. rewrite dig2bytes_d2b by lia. cbn [mbind option_bind].
  rewrite (proj2 (Z.eqb_eq _ _)) by (apply Hi; lia). apply IH; try lia. intros y Hy. apply Hi. lia.
Qed.

(** The last word in [d2b x] bytes, cut to [y] digits. *)
Lemma last_written n frac0 frac0x frac1 x y hd w X Y A R :
  1 ≤ x ≤ y → y ≤ 9 → (∀ z, x ≤ z < y → d2b z = d2b x) → (if frac1 <? frac0 then 9 else frac0x) = y → 0 ≤ w →
  let bs := be_bytes (d2b x) (w / 10 ^ (9 - y)) in
  (length bs ≤ length R)%nat →
  last_store (mask_of n) frac0 frac0x frac1 x (X ++ (hd ++ [w]) ++ Y) (Z.of_nat (length (X ++ hd))) (A ++ R) (length A)
  = Some ((A ++ flip n bs) ++ drop (length bs) R, length (A ++ flip n bs)).
Proof.
  intros Hx Hy Hd Hl Hw bs HR. unfold last_store, DIG_PER_DEC1. rewrite (proj2 (Z.eqb_neq _ _)) by lia.
  rewrite dig2bytes_d2b by lia. cbn [mbind option_bind]. rewrite Hl, (widen_spec 10 x y) by (try lia; intros; f_equal; by apply Hd).
  cbn [mbind option_bind]. replace (X ++ (hd ++ [w]) ++ Y) with ((X ++ hd) ++ w :: Y) by (by rewrite <- !app_assoc).
  rewrite rd_app, powers10_pow by lia. cbn [mbind option_bind].
  pose proof (d2b_room x ltac:(lia) ltac:(lia)) as [_ H4]. rewrite part_store_spec by done. cbn [mbind option_bind].
  rewrite be_bytes_flip, Z.quot_div_nonneg by (try apply Z.pow_pos_nonneg; lia). fold bs.
  rewrite put_app by (by rewrite length_flip). by rewrite length_flip.
Qed.

Lemma last_not_written m frac0 frac0x frac1 b buf1 to p : last_store m frac0 frac0x frac1 0 b buf1 to p = Some (to, p).
Proof. done. Qed.


(** The words of a fraction of [sc] digits, and the unit of its last digit. *)
Definition scale_words (sc : Z) : nat := Z.to_nat ((sc + 8) / 9).
Definition last_unit (sc : Z) : Z := 10 ^ (9 * Z.of_nat (scale_words sc) - sc).

Lemma scale_words_cases sc :
  0 ≤ sc →
  sc mod 9 = 0 ∧ scale_words sc = Z.to_nat (sc / 9) ∧ last_unit sc = 1
  ∨ 0 < sc mod 9 ∧ scale_words sc = S (Z.to_nat (sc / 9)) ∧ last_unit sc = 10 ^ (9 - sc mod 9).
Proof.
  intros H. unfold last_unit, scale_words. destruct (decide (sc mod 9 = 0)) as [E|E]; [left|right].
  - split_and!; [done|f_equal; divlia|]. change 1 with (10 ^ 0). f_equal. divlia.
  - split_and!; [divlia|divlia|]. f_equal. divlia.
Qed.

(** A fraction whose words are all full words of the column. *)
Lemma frac_whole_value fw sc :
  0 ≤ sc → (length fw ≤ Z.to_nat (sc / 9))%nat →
  num (fw ++ replicate (scale_words sc - length fw) 0)
  = (num (fw ++ replicate (Z.to_nat (sc / 9) - length fw) 0) * 10 ^ (sc mod 9) + 0) * last_unit sc.
Proof.
  intros Hs HL. rewrite !num_app, !num_zeroes, !length_replicate, !Z.add_0_r.
  destruct (scale_words_cases sc Hs) as [(E & -> & ->)|(E & -> & ->)].
  - rewrite E. lia.
  - assert (E10 : 10 ^ (sc mod 9) * 10 ^ (9 - sc mod 9) = DIG_BASE).
    { rewrite <- Z.pow_add_r by divlia. by replace (sc mod 9 + (9 - sc mod 9)) with 9 by lia. }
    replace (S (Z.to_nat (sc / 9)) - length fw)%nat with ((Z.to_nat (sc / 9) - length fw) + 1)%nat by lia.
    rewrite base_add, (base_S 0), base_0, <- E10. ring.
Qed.

(** A fraction whose last word is in the last group. *)
Lemma frac_split_value hd w F sc :
  0 ≤ F ≤ sc → F mod 9 ≠ 0 → F / 9 = sc / 9 → w mod 10 ^ (9 - F mod 9) = 0 → length hd = Z.to_nat (sc / 9) → digit w →
  let b := w / 10 ^ (9 - sc mod 9) in
  num (hd ++ [w]) = (num hd * 10 ^ (sc mod 9) + b) * last_unit sc ∧ 0 ≤ b < 10 ^ (sc mod 9) ∧ 1 ≤ F mod 9 ≤ sc mod 9
  ∧ scale_words sc = S (length hd).
Proof.
  intros HF Hx E9 Hm HL Hw b. assert (Hf : 1 ≤ F mod 9 ≤ sc mod 9) by divlia.
  destruct (scale_words_cases sc ltac:(lia)) as [(E & _)|(E & -> & ->)]; [lia|]. rewrite HL.
  assert (Hfx : 0 ≤ sc mod 9 < 9) by divlia. set (fx := sc mod 9) in *. set (P := 10 ^ (9 - fx)).
  assert (HP : 0 < P) by (apply Z.pow_pos_nonneg; lia). assert (EP : 10 ^ fx * P = DIG_BASE).
  { unfold P. rewrite <- Z.pow_add_r by lia. by replace (fx + (9 - fx)) with 9 by lia. }
  assert (Ew : w = b * P).
  { unfold b. fold P. rewrite Z.mul_comm. apply Z.div_exact; [lia|].
    replace (10 ^ (9 - F mod 9)) with (P * 10 ^ (fx - F mod 9)) in Hm
      by (unfold P; rewrite <- Z.pow_add_r by lia; f_equal; lia).
    assert (0 < 10 ^ (fx - F mod 9)) by (apply Z.pow_pos_nonneg; lia).
    apply Z.mod_divide in Hm; [|nia]. apply Z.mod_divide; [lia|]. destruct Hm as [q ->]. exists (q * 10 ^ (fx - F mod 9)). lia. }
  rewrite num_snoc. unfold digit in Hw. split_and!; [|nia|nia|lia|lia|done]. nia.
Qed.

(** What [frac_sizes], the words [hd] and [last_store] make of a fraction: the
    words [fracs] and the last group [bottom], up to [size - size1] missing zeroes. *)
Definition frac_result (n : bool) (fw : list Z) (sc size1 : Z) (f1 f1x size : Z) (fracs : list Z) (bottom : Z) : Prop :=
  ∃ hd lastb,
    hd `prefix_of` fw ∧ Z.of_nat (length hd) = f1
    ∧ (∀ X Y A R, (length lastb ≤ length R)%nat →
         last_store (mask_of n) (sc / 9) (sc mod 9) f1 f1x (X ++ fw ++ Y) (Z.of_nat (length (X ++ hd))) (A ++ R) (length A)
         = Some ((A ++ flip n lastb) ++ drop (length lastb) R, length (A ++ flip n lastb)))
    ∧ let left := (Z.to_nat (sc / 9 * 4 + Z.of_nat (d2b (sc mod 9))) - (4 * length hd + length lastb))%nat in
      (4 * length hd + length lastb + left = 4 * Z.to_nat (sc / 9) + d2b (sc mod 9))%nat
      ∧ words_bytes hd ++ lastb ++ replicate (Nat.min (Z.to_nat (size - size1)) left) 0
        = words_bytes fracs ++ be_bytes (d2b (sc mod 9)) bottom.

(** Words that are stored in full. *)
Lemma frac_full n fw sc size1 size :
  (length fw ≤ Z.to_nat (sc / 9))%nat → 0 ≤ sc →
  (4 * (Z.to_nat (sc / 9) - length fw) + d2b (sc mod 9) ≤ Z.to_nat (size - size1))%nat →
  frac_result n fw sc size1 (Z.of_nat (length fw)) 0 size (fw ++ replicate (Z.to_nat (sc / 9) - length fw) 0) 0.
Proof.
  intros HL Hs Hk. exists fw, []. split_and!; [done|done| |cbv zeta; split].
  - intros X Y A R _. rewrite last_not_written. replace (flip n []) with ([] : list Z) by (by destruct n).
    by rewrite app_nil_r, drop_0.
  - cbn [length]. divlia.
  - cbn [length app]. rewrite words_bytes_app, words_bytes_zeroes, be_bytes_zero, <- app_assoc, <- replicate_add.
    do 2 f_equal. divlia.
Qed.

(** The last word in the bytes of a group. *)
Lemma frac_last n hd w sc size1 x y fracs bottom :
  1 ≤ x ≤ y → y ≤ 9 → (∀ z, x ≤ z < y → d2b z = d2b x) →
  (if Z.of_nat (length hd) <? sc / 9 then 9 else sc mod 9) = y → 0 ≤ w → 0 ≤ sc →
  words_bytes hd ++ be_bytes (d2b x) (w / 10 ^ (9 - y)) = words_bytes fracs ++ be_bytes (d2b (sc mod 9)) bottom →
  length fracs = Z.to_nat (sc / 9) →
  frac_result n (hd ++ [w]) sc size1 (Z.of_nat (length hd)) x size1 fracs bottom.
Proof.
  intros Hx Hy Hd Hl Hw Hs Eb HLf. exists hd, (be_bytes (d2b x) (w / 10 ^ (9 - y))).
  apply (f_equal length) in Eb as El. rewrite !length_app, !length_words_bytes, !length_be_bytes in El.
  split_and!; [by apply prefix_app_r|done| |cbv zeta; split].
  - intros X Y A R HR. by apply last_written.
  - rewrite length_be_bytes. divlia.
  - rewrite Z.sub_diag. cbn [Z.to_nat Nat.min replicate]. by rewrite app_nil_r.
Qed.

(** The digits behind the [F] digits of a fraction are 0. *)
Definition frac_tight (fw : list Z) (F : Z) : Prop :=
  length fw = scale_words F ∧ digits fw
  ∧ (F mod 9 ≠ 0 → ∃ hd w, fw = hd ++ [w] ∧ w mod 10 ^ (9 - F mod 9) = 0).

(** The fraction [fw] is stored, with its value. *)
Definition frac_stored (n : bool) (fw : list Z) (sc size1 f1 f1x size : Z) : Prop :=
  ∃ fracs bottom, frac_result n fw sc size1 f1 f1x size fracs bottom
    ∧ length fracs = Z.to_nat (sc / 9) ∧ digits fracs ∧ 0 ≤ bottom < 10 ^ (sc mod 9)
    ∧ num (fw ++ replicate (scale_words sc - length fw) 0) = (num fracs * 10 ^ (sc mod 9) + bottom) * last_unit sc.

(** All words are full words of the column. *)
Lemma stored_full n fw sc size1 f1 f1x size :
  0 ≤ sc → digits fw → (length fw ≤ Z.to_nat (sc / 9))%nat →
  frac_result n fw sc size1 f1 f1x size (fw ++ replicate (Z.to_nat (sc / 9) - length fw) 0) 0 →
  frac_stored n fw sc size1 f1 f1x size.
Proof.
  intros Hs Hd Hf Hr. eexists _, _. split; [exact Hr|]. split_and!.
  - rewrite length_app, length_replicate. lia.
  - apply Forall_app. split; [done|apply digits_zeroes].
  - done.
  - apply Z.pow_pos_nonneg; divlia.
  - by apply frac_whole_value.
Qed.

(** The last word is the last group of the column. *)
Lemma stored_last n hd w F sc size1 x :
  0 ≤ F ≤ sc → F mod 9 ≠ 0 → F / 9 = sc / 9 → w mod 10 ^ (9 - F mod 9) = 0 → Z.of_nat (length hd) = F / 9 →
  digits hd → digit w → 1 ≤ x ≤ sc mod 9 → d2b x = d2b (sc mod 9) →
  frac_stored n (hd ++ [w]) sc size1 (F / 9) x size1.
Proof.
  intros HF Hm H9 Hw Hhd Hd Hwd Hx Hdx.
  destruct (frac_split_value hd w F sc HF Hm H9 Hw ltac:(lia) Hwd) as (Ev & Hb & Hx' & Es).
  exists hd, (w / 10 ^ (9 - sc mod 9)). split_and!; [|lia|done|lia|lia|].
  - rewrite <- Hhd. unfold digit in Hwd. assert (sc mod 9 < 9) by divlia.
    apply (frac_last _ _ _ _ _ x (sc mod 9)); try done; try lia.
    + intros z Hz. pose proof (d2b_mono x z ltac:(lia) ltac:(lia)). pose proof (d2b_mono z (sc mod 9) ltac:(lia) ltac:(lia)). lia.
    + rewrite (proj2 (Z.ltb_ge _ _)) by lia. done.
    + by rewrite Hdx.
  - rewrite length_app, Es. cbn [length]. replace (S (length hd) - _)%nat with O by lia. cbn [replicate]. by rewrite app_nil_r.
Qed.

(** The last word has fewer digits than the word of the column, but as many bytes. *)
Lemma stored_wide n hd w F sc size1 :
  0 ≤ F ≤ sc → 0 < F mod 9 → sc / 9 = F / 9 + 1 → d2b (F mod 9) = 4%nat → d2b (sc mod 9) = 0%nat →
  Z.of_nat (length hd) = F / 9 → digits hd → digit w →
  frac_stored n (hd ++ [w]) sc size1 (F / 9) (F mod 9) size1.
Proof.
  intros HF Hm E9 E4 E0 Hhd Hd Hwd. assert (F mod 9 < 9) by divlia.
  assert (HLw : length (hd ++ [w]) = S (length hd)) by (rewrite length_app; cbn; lia).
  apply stored_full; [lia|by apply Forall_app; split; [|apply Forall_singleton]|lia|].
  rewrite <- Hhd. unfold digit in Hwd. apply (frac_last _ _ _ _ _ (F mod 9) 9); try lia.
  - intros z Hz. pose proof (d2b_mono (F mod 9) z ltac:(lia) ltac:(lia)). pose proof (d2b_bound z ltac:(lia)) as [_ ?]. lia.
  - rewrite (proj2 (Z.ltb_lt _ _)) by lia. done.
  - rewrite E4, E0, HLw. replace (Z.to_nat (sc / 9) - S (length hd))%nat with O by lia. cbn [replicate].
    rewrite !app_nil_r, words_bytes_app. change (10 ^ (9 - 9)) with 1. rewrite Z.div_1_r.
    unfold words_bytes at 3. cbn [fmap list_fmap concat be_bytes]. by rewrite ?app_nil_r.
  - rewrite length_app, HLw, length_replicate. lia.
Qed.

Lemma frac_part n fw F sc :
  0 ≤ F ≤ sc → frac_tight fw F →
  let size0 := sc / 9 * 4 + Z.of_nat (d2b (sc mod 9)) in
  let size1 := F / 9 * 4 + Z.of_nat (d2b (F mod 9)) in
  ∃ f1 f1x size, frac_sizes (sc / 9) (sc mod 9) size0 (F / 9) (F mod 9) size1 E_DEC_OK = (f1, f1x, size, E_DEC_OK)
    ∧ frac_stored n fw sc size1 f1 f1x size.
Proof.
  intros HF (HL & Hd & Ht) size0 size1. unfold frac_sizes.
  assert (Hm : 0 ≤ F mod 9 < 9 ∧ 0 ≤ sc mod 9 < 9) by divlia. destruct Hm as [HFm Hsm].
  pose proof (d2b_bound (F mod 9) ltac:(lia)) as [_ H4].
  assert (H9 : F / 9 = sc / 9 ∧ F mod 9 ≤ sc mod 9 ∨ F / 9 + 1 ≤ sc / 9) by divlia.
  assert (Hsz : size1 ≤ size0).
  { unfold size0, size1. destruct H9 as [[-> Hx]|H9]; [pose proof (d2b_mono (F mod 9) (sc mod 9) ltac:(lia) ltac:(lia))|]; lia. }
  rewrite (proj2 (Z.ltb_ge _ _)) by done.
  destruct (scale_words_cases F ltac:(lia)) as [(E & HLF & _)|(E & HLF & _)]; rewrite HLF in HL.
  - rewrite E. cbn [Z.eqb negb]. rewrite andb_false_r. eexists _, _, _. split; [done|].
    apply stored_full; [lia|done|divlia|]. replace (F / 9) with (Z.of_nat (length fw)) by divlia. apply frac_full; [divlia|lia|].
    unfold size0, size1. rewrite E. change (Z.of_nat (d2b 0)) with 0. divlia.
  - rewrite (proj2 (Z.eqb_neq _ _)) by lia. cbn [negb]. rewrite andb_true_r.
    destruct (Ht ltac:(lia)) as (hd & w & -> & Hw). apply Forall_app in Hd as Hd'. destruct Hd' as [Hhdd Hwd%Forall_inv].
    assert (HLw : length (hd ++ [w]) = S (length hd)) by (rewrite length_app; cbn; lia).
    assert (Hhd : Z.of_nat (length hd) = F / 9) by lia.
    destruct H9 as [[H9 Hx]|H9], (Z.ltb_spec size1 size0) as [Hlt|Hge].
    + rewrite H9, Z.eqb_refl, <- H9. eexists _, _, _. split; [done|]. apply stored_last; try done; lia.
    + eexists _, _, _. split; [done|]. replace size0 with size1 by lia. unfold size0, size1 in Hge, Hsz.
      apply stored_last; try done; lia.
    + rewrite (proj2 (Z.eqb_neq _ _)) by lia. eexists _, _, _. split; [done|]. apply stored_full; [lia|done|lia|].
      replace (F / 9 + 1) with (Z.of_nat (length (hd ++ [w]))) by lia.
      apply frac_full; [lia|lia|]. rewrite HLw. unfold size0, size1. lia.
    + eexists _, _, _. split; [done|]. replace size0 with size1 by lia. unfold size0, size1 in Hge.
      apply stored_wide; try done; lia.
Qed.

(** ** The whole number *)

Lemma base_scale sc : 0 ≤ sc → base (scale_words sc) = base (Z.to_nat (sc / 9)) * 10 ^ (sc mod 9) * last_unit sc.
Proof.
  intros Hs. destruct (scale_words_cases sc Hs) as [(E & -> & ->)|(E & -> & ->)].
  - rewrite E. lia.
  - rewrite base_S, <- Z.mul_assoc, <- Z.pow_add_r by divlia.
    replace (sc mod 9 + (9 - sc mod 9)) with 9 by lia. unfold DIG_BASE. lia.
Qed.

Lemma mark_app a b : a ≠ [] → (x ← (a ++ b) !! O; Some (<[O := Z.lxor x 0x80]> (a ++ b), E_DEC_OK)) = Some (mark a ++ b, E_DEC_OK).
Proof. destruct a; done. Qed.

(** [bin_parts] when nothing is cut off: zeroes, the words and the last group
    of the number, zeroes. *)
Lemma bin_parts_run n ws j hd rest lastb k0 fill ip' i0 ix isize0 s0 sx size0 F9 Fx size1 f1 f1x size X Y to :
  let bs := lead_bytes ws j ++ words_bytes (tail ws ++ hd) in
  let bytes := replicate k0 0 ++ bs ++ lastb ++ replicate fill 0 in
  led_by ws j → digits ws → digit_count ws j ≤ ip' →
  Z.to_nat (isize0 - (4 * Z.of_nat (length (tail ws)) + Z.of_nat (d2b j))) = k0 →
  frac_sizes s0 sx size0 F9 Fx size1 E_DEC_OK = (f1, f1x, size, E_DEC_OK) → Z.of_nat (length hd) = f1 →
  (∀ X Y A R, (length lastb ≤ length R)%nat →
     last_store (mask_of n) s0 sx f1 f1x (X ++ (hd ++ rest) ++ Y) (Z.of_nat (length (X ++ hd))) (A ++ R) (length A)
     = Some ((A ++ flip n lastb) ++ drop (length lastb) R, length (A ++ flip n lastb))) →
  fill = Nat.min (Z.to_nat (size - size1)) (Z.to_nat (size0 + isize0) - (k0 + length bs + length lastb)) →
  (length bytes ≤ length to)%nat → bytes ≠ [] →
  bin_parts (mask_of n) (X ++ ws ++ (hd ++ rest) ++ Y) (Z.of_nat (length X)) ip' (digit_count ws j)
    i0 ix isize0 s0 sx size0 F9 Fx size1 to
  = Some (mark (flip n bytes) ++ drop (length bytes) to, E_DEC_OK).
Proof.
  intros bs bytes Hj Hd Hc Ek Es Hhd Hlast Efill Hto Hne.
  assert (HLb : length bytes = (k0 + (length bs + (length lastb + fill)))%nat) by (unfold bytes; by rewrite !length_app, !length_replicate).
  rewrite HLb in *. assert (Ebs : bs = lead_bytes ws j ++ words_bytes (tail ws ++ hd)) by done. clearbody bs.
  unfold bin_parts. rewrite isize_spec by done. cbn [mbind option_bind].
  rewrite (proj2 (Z.ltb_ge ip' _)), Ek, flip_replicate by done. change (put to 0) with (put ([] ++ to) (length ([] : list Z))).
  rewrite put_app by (rewrite length_flip, length_replicate; clear -Hto; lia). cbn [mbind option_bind app].
  rewrite Es, <- Hhd, <- (app_assoc hd rest Y).
  rewrite int_written by (try done; rewrite <- Ebs, length_drop, length_flip, length_replicate; clear -Hto; lia).
  rewrite <- Ebs. cbn [mbind option_bind].
  rewrite (app_assoc X ws hd), (app_assoc X ws (hd ++ rest ++ Y)), (app_assoc hd rest Y).
  rewrite <- flip_app, Hhd, Hlast by (rewrite !length_drop, length_flip, length_replicate; clear -Hto; lia).
  cbn [mbind option_bind]. rewrite <- flip_app.
  replace (Nat.min _ _) with fill by (rewrite Efill, length_flip, !length_app, length_replicate; done).
  rewrite flip_replicate, put_app by (rewrite !length_drop, !length_flip, !length_replicate; clear -Hto; lia).
  cbn [mbind option_bind]. rewrite <- flip_app, <- (app_assoc _ lastb), <- (app_assoc _ bs). fold bytes.
  rewrite mark_app by (destruct n, bytes; done). rewrite !drop_drop, !length_flip, !length_replicate.
  do 4 f_equal; clear; lia.
Qed.

Lemma bin_parts_spec n ws j fw F sc ip ip' X Y to :
  led_by ws j → digits ws → digit_count ws j ≤ ip → digit_count ws j ≤ ip' → 0 ≤ F ≤ sc → frac_tight fw F → 0 < ip + sc →
  let size0 := sc / 9 * 4 + Z.of_nat (d2b (sc mod 9)) in
  let isize0 := ip / 9 * 4 + Z.of_nat (d2b (ip mod 9)) in
  let size1 := F / 9 * 4 + Z.of_nat (d2b (F mod 9)) in
  (Z.to_nat (isize0 + size0) ≤ length to)%nat →
  ∃ g, valid_groups (ip mod 9) (sc mod 9) (Z.to_nat (ip / 9)) (Z.to_nat (sc / 9)) g
    ∧ bin_parts (mask_of n) (X ++ ws ++ fw ++ Y) (Z.of_nat (length X)) ip' (digit_count ws j)
        (ip / 9) (ip mod 9) isize0 (sc / 9) (sc mod 9) size0 (F / 9) (F mod 9) size1 to
      = Some (encoded n (ip mod 9) (sc mod 9) g ++ drop (Z.to_nat (isize0 + size0)) to, E_DEC_OK)
    ∧ amount (sc mod 9) g * last_unit sc
      = num ws * base (scale_words sc) + num (fw ++ replicate (scale_words sc - length fw) 0).
Proof.
  intros Hj Hd Hc Hc' HF Hft Hpos size0 isize0 size1 Hto.
  pose proof (led_range ws j Hj) as Hjr. assert (Hip : 0 ≤ ip) by (unfold digit_count in Hc; lia).
  assert (HI : Z.to_nat isize0 = (4 * Z.to_nat (ip / 9) + d2b (ip mod 9))%nat ∧ 0 ≤ isize0) by (unfold isize0; divlia).
  assert (HS : Z.to_nat size0 = (4 * Z.to_nat (sc / 9) + d2b (sc mod 9))%nat ∧ 0 ≤ size0) by (unfold size0; divlia).
  rewrite Z2Nat.inj_add, (proj1 HI), (proj1 HS) in * by lia.
  destruct (int_target ws j (Z.to_nat (ip / 9)) (ip mod 9) Hj Hd) as (t & W & Ht & HW & HWd & Hv & Hk & Eb); [divlia|divlia|].
  destruct (frac_part n fw F sc HF Hft) as (f1 & f1x & size & Es & fr & bt & (hd & lastb & (rest & ->) & Hhd & Hlast & Hleft & Ef) & HLf & Hfd & Hb & Hfv).
  set (g := mk_groups t W fr bt).
  assert (Vg : valid_groups (ip mod 9) (sc mod 9) (Z.to_nat (ip / 9)) (Z.to_nat (sc / 9)) g).
  { split; cbn [g top ints fracs bottom]; try done; try divlia. apply Forall_app. by split. }
  exists g. split; [done|]. split; [|unfold amount; cbn [g top ints fracs bottom]].
  2:{ rewrite Hfv, length_app, num_app, HW, HLf, base_add, base_scale, <- Hv by lia. ring. }
  pose proof (length_body _ _ _ _ _ Vg) as HLb. destruct (body_head _ _ _ _ _ Vg) as (b0 & l0 & Eb0 & _).
  set (k0 := (4 * Z.to_nat (ip / 9) + d2b (ip mod 9) - (4 * length (tail ws) + d2b j))%nat) in *.
  set (fill := Nat.min _ _) in Ef.
  set (bs := lead_bytes ws j ++ words_bytes (tail ws ++ hd)).
  assert (Ebody : replicate k0 0 ++ bs ++ lastb ++ replicate fill 0 = body (ip mod 9) (sc mod 9) g).
  { unfold bs, body. cbn [g top ints fracs bottom]. rewrite !words_bytes_app, <- !app_assoc, <- Ef, !app_assoc. f_equal. f_equal.
    rewrite <- !app_assoc in *. rewrite !app_assoc in Eb. rewrite !app_assoc. by rewrite Eb. }
  assert (HLs : (k0 + length bs = 4 * Z.to_nat (ip / 9) + d2b (ip mod 9) + 4 * length hd)%nat).
  { unfold bs. apply (f_equal length) in Eb. rewrite !length_app, !length_words_bytes, length_be_bytes, length_replicate, HW in Eb.
    rewrite length_app, length_words_bytes, length_app. clear -Eb. lia. }
  rewrite (bin_parts_run n ws j hd rest lastb k0 fill _ _ _ _ _ _ _ _ _ _ f1 f1x size); try done.
  - fold bs. rewrite Ebody, HLb. unfold encoded. do 4 f_equal. clear. lia.
  - unfold k0. clear -HI Hk. lia.
  - fold bs. unfold fill. fold size0. f_equal. clear -HI HS HLs. lia.
  - fold bs. rewrite Ebody, HLb. clear -Hto. lia.
  - fold bs. by rewrite Ebody, Eb0.
Qed.

Lemma tight_frac d : tight d → frac_tight (frac_words d) (frac d).
Proof.
  intros [W _ _ Hl]. pose proof (length_frac_words d W) as HL. pose proof (nf_spec d W) as En. pose proof (wf_frac d W).
  rewrite ROUND_UP_spec in En by done. split_and!; [rewrite HL; unfold scale_words; lia|by apply digits_frac_words|].
  intros Hm. assert (Hn : (0 < nf d)%nat) by divlia.
  destruct (snoc_view (frac_words d) (nf d - 1)) as (hd & w & E & Hhd); [lia|]. exists hd, w. split; [done|].
  rewrite E, drop_app_length' in Hl by done. apply Forall_inv in Hl.
  replace (9 - frac d mod 9) with (9 * Z.of_nat (nf d) - frac d) by divlia. done.
Qed.

Lemma mant_parts F d :
  wf d → (nf d ≤ F)%nat →
  mant_at F d = num (int_words d) * base F + num (frac_words d ++ replicate (F - nf d) 0).
Proof.
  intros W HF. unfold mant_at. rewrite words_at_ge by done.
  rewrite <- (take_drop (ni d) (words d)) at 1. fold (int_words d) (frac_words d).
  rewrite <- app_assoc, num_app, length_app, length_frac_words, length_replicate by done. do 3 f_equal. lia.
Qed.

(** The number has no more digits than the column. *)
Definition fits_column (p s : Z) (d : decimal_t) : Prop := num (int_words d) < 10 ^ (p - s) ∧ frac d ≤ s.

Lemma fits_count d z ws j n :
  wf d → leading d z ws j → num (int_words d) < 10 ^ n → 0 ≤ n → digit_count ws j ≤ n.
Proof.
  intros W Hl Hn Hn0. pose proof (digits_int_words d W) as Hd. unfold digit_count.
  destruct Hl as [z E|z w l j E Hj Hw]; cbn [tail length]; [lia|].
  rewrite E in Hn, Hd. rewrite num_app, num_zeroes, num_cons, !base_pow in Hn.
  apply Forall_app in Hd as [_ [_ Hl]%list.Forall_cons]. pose proof (num_bound l Hl) as [Hl0 _].
  assert (H : 10 ^ (j - 1 + 9 * Z.of_nat (length l)) < 10 ^ n).
  { rewrite Z.pow_add_r by lia. set (B := 10 ^ (9 * Z.of_nat (length l))) in *.
    assert (0 < B) by (apply Z.pow_pos_nonneg; lia). pose proof (Z.mul_le_mono_nonneg_r _ _ B ltac:(lia) (proj1 Hw)). lia. }
  apply Z.pow_lt_mono_r_iff in H; lia.
Qed.

Lemma bytes_of_quot x : 0 ≤ x →
  bytes_of (Z.quot x DIG_PER_DEC1) (x - Z.quot x DIG_PER_DEC1 * DIG_PER_DEC1) = Some (x / 9 * 4 + Z.of_nat (d2b (x mod 9)))
  ∧ x - Z.quot x DIG_PER_DEC1 * DIG_PER_DEC1 = x mod 9 ∧ Z.quot x DIG_PER_DEC1 = x / 9.
Proof.
  intros Hx. unfold DIG_PER_DEC1. rewrite Z.quot_div_nonneg by lia.
  replace (x - x / 9 * 9) with (x mod 9) by divlia. rewrite bytes_of_spec by divlia. done.
Qed.

(** The size of a column. *)
Lemma decimal_bin_size_spec p s :
  0 ≤ s ≤ p →
  decimal_bin_size p s = Some ((p - s) / 9 * 4 + Z.of_nat (d2b ((p - s) mod 9)) + (s / 9 * 4 + Z.of_nat (d2b (s mod 9)))).
Proof.
  intros Hs. unfold decimal_bin_size. destruct (bytes_of_quot (p - s) ltac:(lia)) as (-> & _), (bytes_of_quot s ltac:(lia)) as (-> & _).
  done.
Qed.

Lemma d2b_zero x : 0 ≤ x ≤ 9 → d2b x = 0%nat → x = 0.
Proof. intros H. count_cases H; done. Qed.

Lemma decimal2bin_spec d p s size to :
  tight d → 0 ≤ s ≤ p → 0 < p → fits_column p s d → decimal_bin_size p s = Some size →
  (Z.to_nat size ≤ length to)%nat → (sign d = true → mant_at (scale_words s) d ≠ 0) →
  ∃ g, valid_groups ((p - s) mod 9) (s mod 9) (Z.to_nat ((p - s) / 9)) (Z.to_nat (s / 9)) g
    ∧ decimal2bin d to p s = Some (encoded (sign d) ((p - s) mod 9) (s mod 9) g ++ drop (Z.to_nat size) to, E_DEC_OK)
    ∧ amount (s mod 9) g * last_unit s = mant_at (scale_words s) d.
Proof.
  intros T Hs Hp [Hi Hf] Esz Hto Hz. pose proof (tg_wf d T) as W. pose proof (wf_frac d W) as Hf0.
  rewrite decimal_bin_size_spec in Esz by done. injection Esz as <-.
  assert (Hnf : (nf d ≤ scale_words s)%nat).
  { pose proof (nf_spec d W) as En. rewrite ROUND_UP_spec in En by done. unfold scale_words. divlia. }
  pose proof (length_frac_words d W) as HLf. rewrite (mant_parts _ d W Hnf) in *.
  destruct (remove_leading_zeroes_spec d T) as (z & ws & j & Hl & Er & _).
  destruct (leading_led _ _ _ _ Hl) as [Hj Ei]. pose proof (fits_count d z ws j (p - s) W Hl Hi ltac:(lia)) as Hc.
  assert (Hd : digits ws) by (pose proof (digits_int_words d W) as H; rewrite Ei in H; by apply Forall_app in H as [_ H]).
  assert (En : num (int_words d) = num ws) by (rewrite Ei, num_app, num_zeroes; lia).
  rewrite En in *. unfold decimal2bin.
  destruct (bytes_of_quot (p - s) ltac:(lia)) as (-> & -> & ->), (bytes_of_quot s ltac:(lia)) as (-> & -> & ->),
    (bytes_of_quot (frac d) Hf0) as (-> & -> & ->). cbn [mbind option_bind]. rewrite Er. cbn [mbind option_bind].
  pose proof (tight_frac d T) as Hft. rewrite <- HLf in *.
  destruct (Z.eqb_spec (digit_count ws j + (frac d / 9 * 4 + Z.of_nat (d2b (frac d mod 9)))) 0) as [E0|E0].
  - assert (Ez : ws = [] ∧ j = 0 ∧ frac d = 0).
    { pose proof (led_range ws j Hj). unfold digit_count in E0. pose proof (d2b_zero (frac d mod 9)).
      destruct ws; cbn [led_by tail length] in *; [|lia]. split_and!; [done|done|divlia]. }
    destruct Ez as (-> & -> & Ef0). unfold frac_tight in Hft. rewrite Ef0 in Hft.
    assert (Ew : frac_words d = []) by (apply nil_length_inv, Hft). rewrite Ew in *.
    assert (Es : sign d = false).
    { destruct (sign d); [|done]. destruct (Hz eq_refl). cbn [length num app]. rewrite num_zeroes. lia. }
    rewrite Es, Ef0. destruct (bin_parts_spec false [] 0 [] 0 s (p - s) 1 [] [0] to) as (g & Vg & Eg & Ea); try done; try lia.
    by exists g.
  - rewrite (buf_parts d), Ei, <- !app_assoc. change (if sign d then -1 else 0) with (mask_of (sign d)).
    destruct (bin_parts_spec (sign d) ws j (frac_words d) (frac d) s (p - s) (p - s) (replicate z 0)
      (drop (ni d + nf d) (buf d)) to) as (g & Vg & Eg & Ea); try done; try lia.
    rewrite length_replicate in Eg. by exists g.
Qed.
