(* ===== verification/DecimalRead.v ===== *)
(** * Reading the binary format of decimals

    [bin2decimal] reads the groups that [decimal2bin] writes, and leaves out the
    words of the integer part that are leading zeroes. *)

From S2P Require Import Prelude MyBit MyisamPack KeyCodec Decimal DecimalFacts DecimalBin DecimalBytes DecimalWrite.

#[local] Open Scope Z_scope.

(** ** Signed loads *)

Lemma sint1korr_be u l : - 2 ^ 7 ≤ u < 2 ^ 7 → mi_sint1korr (be_bytes 1 u ++ l) = Some u.
Proof.
  intros H. unfold mi_sint1korr. cbn [be_bytes app lookup list_lookup mbind option_bind]. change (256 ^ Z.of_nat 0) with 1.
  rewrite Z.div_1_r. f_equal. unfold s8. divlia.
Qed.

(** A load of bytes as an unsigned number. *)
Lemma be_bytes_val n u l (f : list Z → option Z) (g : Z → Z) :
  (∀ A l, Forall is_byte A → length A = n → f (A ++ l) = Some (g (be_val A))) →
  f (be_bytes n u ++ l) = Some (g (u mod 256 ^ Z.of_nat n)).
Proof. intros H. by rewrite H, be_val_bytes by (apply be_bytes_range || apply length_be_bytes). Qed.

Lemma sint2korr_val A l : Forall is_byte A → length A = 2%nat → mi_sint2korr (A ++ l) = Some (s16 (be_val A)).
Proof.
  intros HA HL. destruct A as [|a [|b [|]]]; try done.
  unfold mi_sint2korr, be_val in *. cbn [app lookup list_lookup mbind option_bind foldl] in *.
  rewrite !list.Forall_cons in HA. unfold is_byte in HA. rewrite lor_low by lia. do 2 f_equal. lia.
Qed.

Lemma sint4korr_val A l : Forall is_byte A → length A = 4%nat → mi_sint4korr (A ++ l) = Some (s32 (be_val A)).
Proof.
  intros HA HL. destruct A as [|a [|b [|c [|d [|]]]]]; try done.
  unfold mi_sint4korr, be_val in *. cbn [app lookup list_lookup mbind option_bind foldl] in *.
  rewrite !list.Forall_cons in HA. unfold is_byte in HA.
  rewrite (lor_low d), (lor_low (d + _)), (lor_low (d + _ + _)) by lia. do 2 f_equal. lia.
Qed.

Definition s24 (x : Z) : Z := if x <? 2 ^ 23 then x else x - 2 ^ 24.

Lemma sint3korr_val A l : Forall is_byte A → length A = 3%nat → mi_sint3korr (A ++ l) = Some (s24 (be_val A)).
Proof.
  intros HA HL. destruct A as [|a [|b [|c [|]]]]; try done.
  unfold mi_sint3korr, be_val, s24 in *. cbn [app lookup list_lookup mbind option_bind foldl] in *.
  rewrite !list.Forall_cons in HA. unfold is_byte in HA.
  assert (E3 : ∀ h, Z.lor (Z.lor (Z.shiftl h 16) (Z.shiftl b 8)) c = (h * 256 + b) * 256 + c).
  { intros h. rewrite (lor_high (Z.shiftl b 8)) by (rewrite ?Z.shiftl_mul_pow2 by lia; lia).
    replace (2 ^ 16 * h + Z.shiftl b 8) with (Z.shiftl (h * 256 + b) 8) by (rewrite !Z.shiftl_mul_pow2 by lia; lia).
    rewrite lor_high by lia. lia. }
  change 128 with 0x80. rewrite (land_80 a) by lia. rewrite (lor_high (Z.shiftl a 16)) by (rewrite ?Z.shiftl_mul_pow2 by lia; lia).
  replace (2 ^ 24 * 255 + Z.shiftl a 16) with (Z.shiftl (65280 + a) 16) by (rewrite !Z.shiftl_mul_pow2 by lia; lia).
  rewrite !E3. f_equal. unfold s32. destruct (Z.ltb_spec a 128); cbn [negb]; destruct (Z.ltb_spec ((( 0 * 256 + a) * 256 + b) * 256 + c) (2 ^ 23)); divlia.
Qed.

(** A group is read back from its bytes, which are inverted for a negative number. *)
Lemma part_load_spec n k v l :
  (1 ≤ k ≤ 4)%nat → 0 ≤ v → 2 * v < 256 ^ Z.of_nat k →
  ∃ x, part_load (Z.of_nat k) (flip n (be_bytes k v) ++ l) = Some x ∧ Z.lxor x (mask_of n) = v.
Proof.
  intros Hk Hv H. exists (Z.lxor v (mask_of n)). split.
  2:{ by rewrite Z.lxor_assoc, Z.lxor_nilpotent, Z.lxor_0_r. }
  rewrite <- be_bytes_flip. set (u := Z.lxor v (mask_of n)).
  assert (Hu : - (256 ^ Z.of_nat k) ≤ 2 * u < 256 ^ Z.of_nat k).
  { unfold u. rewrite lxor_mask. destruct k as [|k]; [lia|]. rewrite Nat2Z.inj_succ, Z.pow_succ_r in * by lia. destruct n; lia. }
  clearbody u. destruct k as [|[|[|[|[|]]]]]; try lia.
  - change (256 ^ Z.of_nat 1) with 256 in Hu. apply sint1korr_be. lia.
  - change (256 ^ Z.of_nat 2) with 65536 in Hu. change (mi_sint2korr (be_bytes 2 u ++ l) = Some u).
    rewrite (be_bytes_val 2 u l mi_sint2korr s16) by (apply sint2korr_val).
    f_equal. change (256 ^ Z.of_nat 2) with 65536. unfold s16. divlia.
  - change (256 ^ Z.of_nat 3) with (2 ^ 24) in Hu. change (mi_sint3korr (be_bytes 3 u ++ l) = Some u).
    rewrite (be_bytes_val 3 u l mi_sint3korr s24) by (apply sint3korr_val).
    f_equal. change (256 ^ Z.of_nat 3) with (2 ^ 24). unfold s24. destruct (Z.ltb_spec (u mod 2 ^ 24) (2 ^ 23)); divlia.
  - change (256 ^ Z.of_nat 4) with (2 ^ 32) in Hu. change (mi_sint4korr (be_bytes 4 u ++ l) = Some u).
    rewrite (be_bytes_val 4 u l mi_sint4korr s32) by (apply sint4korr_val).
    f_equal. change (256 ^ Z.of_nat 4) with (2 ^ 32). unfold s32. divlia.
Qed.

Lemma word_load_spec n v l :
  digit v → ∃ x, mi_sint4korr (flip n (be_bytes 4 v) ++ l) = Some x ∧ Z.lxor x (mask_of n) = v.
Proof. intros H. apply (part_load_spec n 4); [lia|apply H|by apply digit_byte]. Qed.

Lemma digit_u32 v : digit v → (DIG_MAX <? u32 v) = false.
Proof. unfold digit, DIG_MAX, DIG_BASE. intros H. rewrite u32_small by lia. apply Z.ltb_ge. lia. Qed.

(** ** Words *)

(** A decimal that is being read, with the words [A] so far. *)
Definition partial (ig fr ln : Z) (sg : bool) (A R : list Z) : decimal_t := mk_decimal ig fr ln sg (A ++ R).

Lemma frac_loaded n ws ig fr ln sg A R l :
  digits ws → (length ws ≤ length R)%nat →
  words_load (length ws) false (mask_of n) (partial ig fr ln sg A R) (Z.of_nat (length A)) (flip n (words_bytes ws) ++ l)
  = Some (Loaded (partial ig fr ln sg (A ++ ws) (drop (length ws) R)) (Z.of_nat (length (A ++ ws))) l).
Proof.
  revert A R. induction ws as [|w ws IH]; intros A R Hd HR; cbn [words_load length].
  { replace (flip n (words_bytes [])) with ([] : list Z) by (by destruct n). cbn [app]. by rewrite app_nil_r. }
  apply list.Forall_cons in Hd as [Hw Hd]. destruct R as [|r R]; [cbn in HR; lia|].
  unfold words_bytes. rewrite fmap_cons. cbn [concat]. rewrite flip_app, <- app_assoc.
  destruct (word_load_spec n w (flip n (concat (be_bytes 4 <$> ws)) ++ l) Hw) as (x & -> & Ex).
  cbn [mbind option_bind]. rewrite Ex. cbn [buf partial]. rewrite wr_app. cbn [mbind option_bind].
  rewrite digit_u32 by done. rewrite drop_app_length' by (by rewrite length_flip, length_be_bytes).
  change (set_buf (A ++ w :: R) (partial ig fr ln sg A (r :: R))) with (mk_decimal ig fr ln sg (A ++ w :: R)).
  replace (A ++ w :: R) with ((A ++ [w]) ++ R) by (by rewrite <- app_assoc).
  replace (Z.of_nat (length A) + 1) with (Z.of_nat (length (A ++ [w]))) by (rewrite length_app; cbn; lia).
  fold (partial ig fr ln sg (A ++ [w]) R). fold (words_bytes ws). rewrite IH by (done || cbn in HR; lia).
  by rewrite <- app_assoc.
Qed.

(** Leading zero words are left out. *)
Fixpoint strip (l : list Z) : list Z :=
  match l with x :: l' => if x =? 0 then strip l' else l | [] => [] end.

Lemma strip_spec l : ∃ z, l = replicate z 0 ++ strip l ∧ length l = (z + length (strip l))%nat.
Proof.
  induction l as [|x l (z & E & HL)]; [by exists O|]. cbn [strip]. destruct (Z.eqb_spec x 0) as [->|].
  - exists (S z). cbn [replicate app length]. split; [by f_equal|lia].
  - exists O. done.
Qed.

Lemma ints_loaded n ws ig fr ln sg A R l :
  digits ws → (length ws ≤ length R)%nat →
  let kept := if decide (A = []) then strip ws else ws in
  ∃ R', words_load (length ws) true (mask_of n) (partial ig fr ln sg A R) (Z.of_nat (length A)) (flip n (words_bytes ws) ++ l)
    = Some (Loaded (partial (ig - 9 * Z.of_nat (length ws - length kept)) fr ln sg (A ++ kept) R')
              (Z.of_nat (length (A ++ kept))) l)
    ∧ (length R' + length kept = length R)%nat.
Proof.
  revert ig A R. induction ws as [|w ws IH]; intros ig A R Hd HR kept; cbn [words_load length].
  { replace (flip n (words_bytes [])) with ([] : list Z) by (by destruct n).
    assert (Ek : kept = []) by (unfold kept; by case_decide). rewrite Ek, app_nil_r. exists R. cbn [length app Nat.sub].
    replace (ig - 9 * Z.of_nat 0) with ig by lia. split; [done|lia]. }
  apply list.Forall_cons in Hd as [Hw Hd]. destruct R as [|r R]; [cbn in HR; lia|]. cbn [length] in HR.
  unfold words_bytes. rewrite fmap_cons. cbn [concat]. rewrite flip_app, <- app_assoc.
  destruct (word_load_spec n w (flip n (concat (be_bytes 4 <$> ws)) ++ l) Hw) as (x & -> & Ex).
  cbn [mbind option_bind]. rewrite Ex. clear x Ex. cbn [buf partial]. rewrite wr_app. cbn [mbind option_bind].
  rewrite digit_u32 by done. rewrite drop_app_length' by (by rewrite length_flip, length_be_bytes).
  change (set_buf (A ++ w :: R) (partial ig fr ln sg A (r :: R))) with (mk_decimal ig fr ln sg (A ++ w :: R)).
  fold (words_bytes ws). unfold keep_word.
  assert (Hkeep : ∀ B, B = A ++ [w] → (if decide (B = []) then strip ws else ws) = ws).
  { intros B ->. rewrite decide_False; [done|]. by destruct A. }
  destruct ((0 <? Z.of_nat (length A)) || negb (w =? 0)) eqn:E.
  - assert (Ek : kept = w :: ws).
    { unfold kept. case_decide as HA; [|done]. subst A. cbn [length Z.of_nat Z.ltb Z.compare orb] in E. cbn [strip].
      apply negb_true_iff in E. by rewrite E. }
    destruct (IH ig (A ++ [w]) R Hd ltac:(lia)) as (R' & E' & HR'). rewrite (Hkeep _ eq_refl) in E', HR'.
    unfold partial in *. rewrite <- !app_assoc in E'. cbn [app] in E'.
    exists R'. rewrite Ek. cbn [length]. rewrite length_app in E' |- *. cbn [length] in E' |- *.
    replace (Z.of_nat (length A) + 1) with (Z.of_nat (length A + 1)) by lia. rewrite E'. rewrite !Nat.sub_diag.
    split; [|lia]. rewrite <- app_assoc, ?length_app. done.
  - apply orb_false_iff in E as [EA Ew%negb_false_iff%Z.eqb_eq]. subst w.
    assert (A = []) as -> by (destruct A; [done|apply Z.ltb_ge in EA; cbn in EA; lia]).
    assert (Ek : kept = strip ws) by (unfold kept; by rewrite decide_True). rewrite Ek.
    destruct (IH (ig - 9) [] (0 :: R) Hd ltac:(cbn; lia)) as (R' & E' & HR'). rewrite decide_True in E', HR' by done.
    unfold partial, set_intg in *. cbn [app length intg frac len sign buf] in *. unfold DIG_PER_DEC1. rewrite E'.
    exists R'. split; [|lia]. destruct (strip_spec ws) as (z & _ & HL). do 3 f_equal. lia.
Qed.

(** ** The first and the last group *)

(** The word of the first group is left out if it is 0. *)
Definition kept_top (t : Z) : list Z := if t =? 0 then [] else [t].

Lemma top_loaded n ix t ig fr ln sg R l :
  0 ≤ ix < 9 → 0 ≤ t < 10 ^ ix → R ≠ [] →
  ∃ R', first_load (mask_of n) ix (partial ig fr ln sg [] R) 0 (flip n (be_bytes (d2b ix) t) ++ l)
    = Some (Loaded (partial (if t =? 0 then ig - ix else ig) fr ln sg (kept_top t) R') (Z.of_nat (length (kept_top t))) l)
    ∧ (length R' + length (kept_top t) = length R)%nat.
Proof.
  intros Hix Ht HR. unfold first_load, kept_top. destruct (Z.eqb_spec ix 0) as [->|Hx].
  { change (d2b 0) with 0%nat. cbn [be_bytes]. replace (flip n []) with ([] : list Z) by (by destruct n).
    replace t with 0 by (cbn in Ht; lia). cbn [Z.eqb app length]. rewrite Z.sub_0_r. exists R. split; [done|lia]. }
  pose proof (d2b_room ix ltac:(lia) ltac:(lia)) as [Hr H4]. rewrite dig2bytes_d2b by lia. cbn [mbind option_bind].
  destruct (part_load_spec n (d2b ix) t l H4 ltac:(lia) ltac:(lia)) as (x & -> & Ex). cbn [mbind option_bind]. rewrite Ex.
  destruct R as [|r R]; [done|]. cbn [buf partial app].
  change (wr (r :: R) 0 t) with (wr ([] ++ r :: R) (Z.of_nat (length ([] : list Z))) t). rewrite wr_app. cbn [mbind option_bind app].
  rewrite powers10_pow by lia. cbn [mbind option_bind].
  assert (Hp : 10 ^ ix < 10 ^ (ix + 1) ∧ 10 ^ ix ≤ 10 ^ 9) by (split; [apply Z.pow_lt_mono_r|apply Z.pow_le_mono_r]; lia).
  rewrite u64_small, (proj2 (Z.leb_gt _ _)) by lia. unfold keep_word. cbn [Z.ltb Z.compare orb].
  rewrite Nat2Z.id, drop_app_length' by (by rewrite length_flip, length_be_bytes).
  destruct (t =? 0); cbn [negb].
  - exists (t :: R). split; [done|cbn; lia].
  - exists R. split; [done|cbn; lia].
Qed.

(** The word of the last group. *)
Definition last_word (fx b : Z) : list Z := if fx =? 0 then [] else [b * 10 ^ (9 - fx)].

Lemma bottom_loaded n fx b ig fr ln sg A R l :
  0 ≤ fx < 9 → 0 ≤ b < 10 ^ fx → (length (last_word fx b) ≤ length R)%nat →
  ∃ l', last_load (mask_of n) fx (partial ig fr ln sg A R) (Z.of_nat (length A)) (flip n (be_bytes (d2b fx) b) ++ l)
    = Some (Loaded (partial ig fr ln sg (A ++ last_word fx b) (drop (length (last_word fx b)) R))
              (Z.of_nat (length (A ++ last_word fx b))) l').
Proof.
  intros Hfx Hb HR. unfold last_load, last_word in *. destruct (Z.eqb_spec fx 0) as [->|Hx].
  { eexists. rewrite app_nil_r. done. }
  pose proof (d2b_room fx ltac:(lia) ltac:(lia)) as [Hr H4]. rewrite dig2bytes_d2b by lia. cbn [mbind option_bind].
  destruct (part_load_spec n (d2b fx) b l H4 ltac:(lia) ltac:(lia)) as (x & -> & Ex). cbn [mbind option_bind].
  unfold DIG_PER_DEC1. rewrite powers10_pow, Ex by lia. cbn [mbind option_bind].
  assert (Hp : 0 < 10 ^ (9 - fx)) by (apply Z.pow_pos_nonneg; lia).
  assert (HP : 10 ^ fx * 10 ^ (9 - fx) = 1000000000) by (rewrite <- Z.pow_add_r by lia; by replace (fx + (9 - fx)) with 9 by lia).
  assert (Hd : digit (b * 10 ^ (9 - fx))) by (unfold digit, DIG_BASE; nia).
  unfold digit, DIG_BASE in Hd. rewrite i32_ok by lia. cbn [mbind option_bind].
  destruct R as [|r R]; [cbn in HR; lia|]. cbn [buf partial]. rewrite wr_app. cbn [mbind option_bind].
  rewrite digit_u32 by (unfold digit, DIG_BASE; lia). eexists. unfold partial, set_buf. cbn [length drop intg frac len sign buf].
  rewrite length_app. cbn [length]. do 3 f_equal; [by rewrite <- app_assoc|lia].
Qed.

(** ** The whole number *)

(** The words of the integer part that are kept, and their digits. *)
Definition kept_ints (g : groups) : list Z :=
  kept_top (top g) ++ (if decide (kept_top (top g) = []) then strip (ints g) else ints g).
Definition kept_intg (ix : Z) (g : groups) : Z :=
  if top g =? 0 then 9 * Z.of_nat (length (strip (ints g))) else 9 * Z.of_nat (length (ints g)) + ix.

(** The words of the fraction. *)
Definition all_fracs (fx : Z) (g : groups) : list Z := fracs g ++ last_word fx (bottom g).

(** The word of a group. *)
Definition extra (x : Z) : nat := if x =? 0 then 0 else 1.

Lemma length_last_word fx b : length (last_word fx b) = extra fx.
Proof. unfold last_word, extra. by destruct (fx =? 0). Qed.

Lemma groups_loaded n ix fx N f g ln sg R :
  valid_groups ix fx N f g →
  (extra ix + N + f + extra fx ≤ length R)%nat →
  ∃ R' l',
    then_load (then_load (then_load
      (first_load (mask_of n) ix (partial (9 * Z.of_nat N + ix) (9 * Z.of_nat f + fx) ln sg [] R) 0 (flip n (body ix fx g)))
      (words_load N true (mask_of n))) (words_load f false (mask_of n))) (last_load (mask_of n) fx)
    = Some (Loaded (partial (kept_intg ix g) (9 * Z.of_nat f + fx) ln sg (kept_ints g ++ all_fracs fx g) R')
              (Z.of_nat (length (kept_ints g ++ all_fracs fx g))) l')
    ∧ (length R' + length (kept_ints g ++ all_fracs fx g) = length R)%nat.
Proof.
  intros [Hix Hfx Hs Ht H1 H2 Hd Hb] HR. apply Forall_app in Hd as [Hdi Hdf].
  unfold body. rewrite words_bytes_app, !flip_app, <- !app_assoc.
  destruct (top_loaded n ix (top g) (9 * Z.of_nat N + ix) (9 * Z.of_nat f + fx) ln sg R
    (flip n (words_bytes (ints g)) ++ flip n (words_bytes (fracs g)) ++ flip n (be_bytes (d2b fx) (bottom g))))
    as (R1 & -> & HR1); [done|done|intros ->; unfold extra in HR; destruct (Z.eqb_spec ix 0), (Z.eqb_spec fx 0); cbn in HR; lia|].
  cbn [then_load mbind option_bind].
  assert (Hkt : (length (kept_top (top g)) ≤ extra ix)%nat).
  { unfold kept_top, extra. destruct (Z.eqb_spec (top g) 0); [cbn; lia|]. destruct (Z.eqb_spec ix 0) as [->|]; [cbn in Ht; lia|done]. }
  destruct (ints_loaded n (ints g) (if top g =? 0 then 9 * Z.of_nat N + ix - ix else 9 * Z.of_nat N + ix) (9 * Z.of_nat f + fx) ln sg
    (kept_top (top g)) R1 (flip n (words_bytes (fracs g)) ++ flip n (be_bytes (d2b fx) (bottom g)))) as (R2 & E2 & HR2); [done|lia|].
  rewrite H1 in E2. rewrite E2. cbn [then_load mbind option_bind]. clear E2.
  set (kept := if decide (kept_top (top g) = []) then strip (ints g) else ints g) in *. change (kept_top (top g) ++ kept) with (kept_ints g).
  assert (Eg : (if top g =? 0 then 9 * Z.of_nat N + ix - ix else 9 * Z.of_nat N + ix) - 9 * Z.of_nat (N - length kept) = kept_intg ix g).
  { unfold kept_intg, kept, kept_top. destruct (strip_spec (ints g)) as (z & _ & HL).
    destruct (top g =? 0); [rewrite decide_True by done|rewrite decide_False by done]; lia. }
  rewrite Eg. assert (Hk : (length kept ≤ N)%nat).
  { unfold kept. destruct (strip_spec (ints g)) as (z & _ & HL). case_decide; lia. }
  rewrite <- H2. rewrite frac_loaded by (done || lia). cbn [then_load mbind option_bind].
  rewrite <- (app_nil_r (flip n (be_bytes _ _))).
  destruct (bottom_loaded n fx (bottom g) (kept_intg ix g) (9 * Z.of_nat (length (fracs g)) + fx) ln sg (kept_ints g ++ fracs g)
    (drop (length (fracs g)) R2) []) as (l' & ->); [done|done|rewrite length_last_word, length_drop; lia|].
  eexists _, l'. rewrite <- app_assoc. split; [done|]. unfold all_fracs.
  rewrite !length_drop, !length_app, length_last_word. unfold kept_ints. rewrite length_app. fold kept. lia.
Qed.

Lemma digits_last_word fx b : 0 ≤ fx < 9 → 0 ≤ b < 10 ^ fx → digits (last_word fx b).
Proof.
  intros Hfx Hb. unfold last_word. destruct (fx =? 0); [constructor|]. constructor; [|constructor].
  assert (Hp : 0 < 10 ^ (9 - fx)) by (apply Z.pow_pos_nonneg; lia).
  assert (HP : 10 ^ fx * 10 ^ (9 - fx) = 1000000000) by (rewrite <- Z.pow_add_r by lia; by replace (fx + (9 - fx)) with 9 by lia).
  unfold digit, DIG_BASE. nia.
Qed.

Lemma digits_kept_ints g : digits (ints g) → digit (top g) → digits (kept_ints g).
Proof.
  intros Hd Ht. unfold kept_ints. apply Forall_app. split.
  - unfold kept_top. destruct (_ =? _); [constructor|by constructor].
  - case_decide; [|done]. destruct (strip_spec (ints g)) as (z & E & _). rewrite E in Hd. by apply Forall_app in Hd as [_ Hd].
Qed.

(** The words that are kept have the value of the groups. *)
Lemma kept_value sc ix N g :
  valid_groups ix (sc mod 9) N (Z.to_nat (sc / 9)) g → 0 ≤ sc →
  num (kept_ints g ++ all_fracs (sc mod 9) g) = amount (sc mod 9) g * last_unit sc
  ∧ length (all_fracs (sc mod 9) g) = scale_words sc.
Proof.
  intros [Hix Hfx _ Ht H1 H2 Hd Hb] Hs.
  assert (HLf : length (all_fracs (sc mod 9) g) = scale_words sc).
  { unfold all_fracs. rewrite length_app, length_last_word, H2. unfold extra.
    destruct (scale_words_cases sc Hs) as [(E & -> & _)|(E & -> & _)]; [rewrite E; cbn; lia|].
    rewrite (proj2 (Z.eqb_neq _ _)) by lia. lia. }
  split; [|done].
  assert (Ei : num (kept_ints g) = top g * base N + num (ints g)).
  { unfold kept_ints, kept_top. destruct (strip_spec (ints g)) as (z & E & _). destruct (Z.eqb_spec (top g) 0) as [->|].
    - rewrite decide_True by done. cbn [app]. rewrite E at 2. rewrite num_app, num_zeroes. lia.
    - rewrite decide_False by done. cbn [app]. rewrite num_cons, H1. lia. }
  assert (Ef : num (all_fracs (sc mod 9) g) = (num (fracs g) * 10 ^ (sc mod 9) + bottom g) * last_unit sc).
  { unfold all_fracs, last_word. destruct (scale_words_cases sc Hs) as [(E & _ & ->)|(E & _ & ->)].
    - rewrite E in *. cbn in Hb. cbn [Z.eqb]. rewrite app_nil_r. replace (bottom g) with 0 by lia. lia.
    - rewrite (proj2 (Z.eqb_neq _ _)) by lia. rewrite num_snoc.
      assert (HP : 10 ^ (sc mod 9) * 10 ^ (9 - sc mod 9) = DIG_BASE)
        by (rewrite <- Z.pow_add_r by lia; by replace (sc mod 9 + (9 - sc mod 9)) with 9 by lia).
      rewrite <- HP. ring. }
  rewrite num_app, HLf, Ei, Ef, base_scale by done. unfold amount. rewrite length_app, num_app, H1, H2, base_add. ring.
Qed.

(** The decimal that is read, if it has any digits. *)
Lemma partial_value ix sc N g ln sg R :
  valid_groups ix (sc mod 9) N (Z.to_nat (sc / 9)) g → 0 ≤ sc →
  let V := kept_ints g ++ all_fracs (sc mod 9) g in
  let d := partial (kept_intg ix g) sc ln sg V R in
  ln = Z.of_nat (length (V ++ R)) → 0 < kept_intg ix g + sc →
  wf d ∧ value_at (scale_words sc) d = with_sign sg (amount (sc mod 9) g * last_unit sc).
Proof.
  intros Vg Hs V d Hln Hpos. destruct (kept_value sc ix N g Vg Hs) as [Ev HLf]. destruct Vg as [Hix Hfx _ Ht H1 H2 Hd Hb].
  apply Forall_app in Hd as [Hdi Hdf].
  assert (Hg : 0 ≤ kept_intg ix g ∧ ROUND_UP (kept_intg ix g) = Z.of_nat (length (kept_ints g))).
  { unfold kept_intg, kept_ints, kept_top. destruct (Z.eqb_spec (top g) 0) as [E|E].
    - rewrite decide_True by done. cbn [app]. rewrite ROUND_UP_spec by lia. divlia.
    - rewrite decide_False by done. cbn [app length]. assert (ix ≠ 0) by (intros ->; cbn in Ht; lia).
      rewrite ROUND_UP_spec by lia. divlia. }
  destruct Hg as [Hg0 Hg].
  assert (Hni : ni d = length (kept_ints g)) by (unfold ni; cbn [d partial intg]; rewrite Hg; lia).
  assert (Hnf : nf d = scale_words sc).
  { unfold nf. cbn [d partial frac]. rewrite ROUND_UP_spec by lia. done. }
  assert (HL : (ni d + nf d = length V)%nat) by (unfold V; rewrite length_app, HLf; lia).
  assert (HV : words d = V).
  { unfold words. rewrite HL. cbn [d partial buf]. apply take_app_length. }
  assert (W : wf d).
  { split; try done; [rewrite HL; cbn [d partial buf]; rewrite length_app; lia|]. rewrite HV. unfold V. apply Forall_app. split.
    - apply digits_kept_ints; [done|]. assert (10 ^ ix ≤ 10 ^ 9) by (apply Z.pow_le_mono_r; lia). unfold digit, DIG_BASE. lia.
    - unfold all_fracs. apply Forall_app. split; [done|]. by apply digits_last_word. }
  split; [done|]. unfold value_at, mant_at, with_sign. rewrite words_at_ge, HV, Hnf, Nat.sub_diag, app_nil_r by (done || lia).
  unfold V. by rewrite Ev.
Qed.

Lemma make_zero_value F d :
  (0 < length (buf d))%nat → len d = Z.of_nat (length (buf d)) →
  ∃ d', decimal_make_zero d = Some d' ∧ wf d' ∧ value_at F d' = 0.
Proof.
  intros HL Hlen. unfold decimal_make_zero. destruct (buf d) as [|x b] eqn:E; [cbn in HL; lia|].
  change (wr (x :: b) 0 0) with (wr ([] ++ x :: b) (Z.of_nat (length ([] : list Z))) 0). rewrite wr_app. cbn [mbind option_bind app].
  eexists. split; [done|].
  assert (W : wf (mk_decimal 1 0 (len d) false (0 :: b))).
  { split; try done. by repeat constructor. }
  split; [done|]. unfold value_at, mant_at. rewrite words_at_ge by (done || exact (Nat.le_0_l F)).
  change (words (mk_decimal 1 0 (len d) false (0 :: b))) with [0]. rewrite num_app, num_zeroes. cbn [sign]. cbn [num length]. lia.
Qed.

(** A number without digits has no words. *)
Lemma no_words ix sc N g :
  valid_groups ix (sc mod 9) N (Z.to_nat (sc / 9)) g → kept_intg ix g = 0 → sc = 0 → kept_ints g ++ all_fracs (sc mod 9) g = [].
Proof.
  intros V Ei ->. pose proof (proj2 (kept_value 0 ix N g V ltac:(lia))) as HL. apply nil_length_inv in HL. rewrite HL, app_nil_r.
  destruct V as [Hix _ _ Ht _ _ _ _]. unfold kept_intg, kept_ints, kept_top in *. destruct (Z.eqb_spec (top g) 0) as [E|E].
  - rewrite decide_True by done. apply nil_length_inv. cbn [app]. lia.
  - assert (ix = 0) as -> by lia. cbn in Ht. lia.
Qed.

Lemma decimal_size_spec p s :
  0 ≤ s ≤ p → decimal_size p s = Z.of_nat (extra ((p - s) mod 9) + Z.to_nat ((p - s) / 9) + Z.to_nat (s / 9) + extra (s mod 9)).
Proof.
  intros Hs. unfold decimal_size. rewrite !ROUND_UP_spec by lia. unfold extra.
  destruct (Z.eqb_spec ((p - s) mod 9) 0), (Z.eqb_spec (s mod 9) 0); divlia.
Qed.

Lemma bin2decimal_spec p s n g to l :
  0 ≤ s ≤ p → 0 < p →
  valid_groups ((p - s) mod 9) (s mod 9) (Z.to_nat ((p - s) / 9)) (Z.to_nat (s / 9)) g →
  len to = Z.of_nat (length (buf to)) → decimal_size p s ≤ len to →
  ∃ to', bin2decimal (encoded n ((p - s) mod 9) (s mod 9) g ++ l) to p s = Some (to', E_DEC_OK) ∧ wf to'
    ∧ value_at (scale_words s) to' = with_sign n (amount (s mod 9) g * last_unit s).
Proof.
  intros Hs Hp V Hlen Hsz. pose proof (decimal_size_spec p s Hs) as Esz.
  pose proof (length_body _ _ _ _ _ V) as HLb. destruct (encoded_head n _ _ _ _ _ V) as (b & m & Ee & Eb & Em).
  unfold bin2decimal. rewrite Ee. cbn [app lookup list_lookup mbind option_bind]. rewrite decimal_bin_size_spec by done.
  cbn [mbind option_bind]. destruct (bytes_of_quot (p - s) ltac:(lia)) as (_ & -> & ->), (bytes_of_quot s ltac:(lia)) as (_ & -> & ->).
  set (size := _ + (s / 9 * 4 + _)).
  assert (HLe : length (b :: m) = Z.to_nat size).
  { rewrite <- Ee. unfold encoded. rewrite length_mark, length_flip, HLb. unfold size. divlia. }
  assert (Hpm : 0 ≤ (p - s) mod 9 < 9 ∧ 0 ≤ s mod 9 < 9 ∧ 0 ≤ (p - s) / 9 ∧ 0 ≤ s / 9) by divlia.
  rewrite (proj2 (Z.ltb_ge _ size)) by (cbn [length] in *; rewrite length_app; lia). cbn [mbind option_bind].
  assert (Ef : <[O := Z.lxor b 0x80]> (take (Z.to_nat size) (b :: m ++ l)) = flip n (body ((p - s) mod 9) (s mod 9) g)).
  { rewrite <- HLe. change (b :: m ++ l) with ((b :: m) ++ l). rewrite take_app_length. exact Em. }
  assert (Hx : ∀ x, 0 ≤ x < 9 → (if 0 <? x then 1 else 0) = Z.of_nat (extra x)).
  { intros x Hx. unfold extra. destruct (Z.ltb_spec 0 x), (Z.eqb_spec x 0); lia. }
  rewrite Ef, Eb. unfold FIX_INTG_FRAC_ERROR. rewrite !Hx by apply Hpm. rewrite (proj2 (Z.ltb_ge _ _)) by lia.
  cbn [Z.eqb E_DEC_OK mbind option_bind]. change (if n then -1 else 0) with (mask_of n).
  replace (negb (mask_of n =? 0)) with n by (by destruct n). unfold DIG_PER_DEC1.
  change (mk_decimal ?i ?f ?e ?sg (buf to)) with (partial i f e sg [] (buf to)).
  destruct (groups_loaded n _ _ _ _ g (len to) n (buf to) V) as (R & l' & E & HR); [lia|].
  rewrite !Z2Nat.id in E by apply Hpm.
  replace ((p - s) / 9 * 9) with (9 * ((p - s) / 9)) by lia. replace (s / 9 * 9) with (9 * (s / 9)) by lia.
  rewrite E. cbn [mbind option_bind]. replace (9 * (s / 9) + s mod 9) with s by divlia.
  set (to' := partial _ s _ _ _ R).
  assert (HLR : len to = Z.of_nat (length ((kept_ints g ++ all_fracs (s mod 9) g) ++ R))) by (rewrite length_app; lia).
  destruct ((intg to' =? 0) && (frac to' =? 0)) eqn:E0.
  - apply andb_true_iff in E0 as [Ei%Z.eqb_eq Efr%Z.eqb_eq]. cbn [to' partial intg frac] in Ei, Efr.
    destruct (make_zero_value (scale_words s) to') as (d' & -> & W & Ev).
    { cbn [to' partial buf]. unfold decimal_size in Hsz. rewrite !ROUND_UP_spec in Hsz by lia. divlia. }
    { exact HLR. }
    exists d'. split; [done|]. split; [done|]. rewrite Ev, <- (proj1 (kept_value s _ _ g V ltac:(lia))).
    rewrite (no_words _ _ _ g V Ei Efr). unfold with_sign. cbn [num]. lia.
  - destruct (partial_value ((p - s) mod 9) s _ g (len to) n R V ltac:(lia) HLR) as [W Ev]; [|by exists to'].
    apply andb_false_iff in E0. cbn [to' partial intg frac] in E0. rewrite !Z.eqb_neq in E0.
    assert (0 ≤ kept_intg ((p - s) mod 9) g) by (unfold kept_intg; case_match; lia). lia.
Qed.
