(* ===== verification/DecimalColumn.v ===== *)
(** * DECIMAL columns

    The binary format of decimals keeps values and their order, with the bytes
    compared by [memcmp] and the decimals by [decimal_cmp]. *)

From S2P Require Import Prelude MyBit MyisamPack KeyCodec Decimal DecimalFacts DecimalAdd DecimalSub DecimalDiff DecimalBin DecimalBytes DecimalWrite DecimalRead.

#[local] Open Scope Z_scope.

(** A decimal that may be stored in a column of [p] digits, [s] of them behind the
    point: it has no more digits, and 0 has no sign. *)
Record storable (p s : Z) (d : decimal_t) : Prop := {
  st_tight : tight d;
  st_fits : fits_column p s d;
  st_sign : sign d = true → mant_at (scale_words s) d ≠ 0;
}.

Lemma bin_roundtrip_spec p s size d out to :
  0 ≤ s ≤ p → 0 < p → decimal_bin_size p s = Some size → storable p s d → (Z.to_nat size ≤ length out)%nat →
  len to = Z.of_nat (length (buf to)) → decimal_size p s ≤ len to →
  ∃ bytes to', decimal2bin d out p s = Some (bytes, E_DEC_OK) ∧ drop (Z.to_nat size) bytes = drop (Z.to_nat size) out
    ∧ bin2decimal bytes to p s = Some (to', E_DEC_OK) ∧ wf to'
    ∧ value_at (scale_words s) to' = value_at (scale_words s) d.
Proof.
  intros Hs Hp Esz [T Hf Hz] Hout Hlen Hto.
  destruct (decimal2bin_spec d p s size out T Hs Hp Hf Esz Hout Hz) as (g & V & E & Ea).
  destruct (bin2decimal_spec p s (sign d) g to (drop (Z.to_nat size) out) Hs Hp V Hlen Hto) as (to' & E' & W & Ev).
  eexists _, to'. split; [exact E|]. split_and!; [|exact E'|done|by rewrite Ev, Ea].
  rewrite drop_app_length'; [done|]. unfold encoded. rewrite length_mark, length_flip, (length_body _ _ _ _ _ V).
  rewrite decimal_bin_size_spec in Esz by done. injection Esz as <-. divlia.
Qed.

(** C17. Storing a decimal that fits a DECIMAL column never writes outside the bytes
    of the column and reports no error, and reading the bytes, into any decimal that is large
    enough, gives a well-formed decimal of the same value. *)
Theorem decimal_bin_roundtrip p s size d out to :
  0 ≤ s ≤ p → 0 < p → decimal_bin_size p s = Some size → storable p s d → (Z.to_nat size ≤ length out)%nat →
  len to = Z.of_nat (length (buf to)) → decimal_size p s ≤ len to →
  ∃ bytes to', decimal2bin d out p s = Some (bytes, E_DEC_OK) ∧ drop (Z.to_nat size) bytes = drop (Z.to_nat size) out
    ∧ bin2decimal bytes to p s = Some (to', E_DEC_OK) ∧ wf to'
    ∧ value_at (scale_words s) to' = value_at (scale_words s) d.
Proof. apply bin_roundtrip_spec. Qed.

(** More words of fraction scale the number. *)
Lemma mant_scale F F' d : wf d → (nf d ≤ F ≤ F')%nat → mant_at F' d = mant_at F d * base (F' - F).
Proof.
  intros W HF. unfold mant_at. rewrite !words_at_ge by (done || lia).
  replace (F' - nf d)%nat with ((F - nf d) + (F' - F))%nat by lia.
  rewrite replicate_add, app_assoc, num_app, num_zeroes, length_replicate. lia.
Qed.

Lemma storable_words p s d : storable p s d → (nf d ≤ scale_words s)%nat ∧ wf d.
Proof.
  intros [[W _ _ _] [_ Hf] _]. pose proof (nf_spec d W) as En. pose proof (wf_frac d W).
  rewrite ROUND_UP_spec in En by done. split; [|done]. unfold scale_words. divlia.
Qed.

(** C16. The bytes of two decimals in the same column compare as the decimals do. *)
Theorem decimal_bin_order p s size d1 d2 out1 out2 :
  0 ≤ s ≤ p → 0 < p → decimal_bin_size p s = Some size → storable p s d1 → storable p s d2 →
  length out1 = Z.to_nat size → length out2 = Z.to_nat size →
  ∃ bytes1 bytes2, decimal2bin d1 out1 p s = Some (bytes1, E_DEC_OK) ∧ decimal2bin d2 out2 p s = Some (bytes2, E_DEC_OK)
    ∧ decimal_cmp d1 d2 = Some (memcmp bytes1 bytes2).
Proof.
  intros Hs Hp Esz S1 S2 H1 H2. destruct (storable_words p s d1 S1) as [N1 W1], (storable_words p s d2 S2) as [N2 W2].
  destruct S1 as [T1 F1 Z1], S2 as [T2 F2 Z2].
  destruct (decimal2bin_spec d1 p s size out1 T1 Hs Hp F1 Esz ltac:(lia) Z1) as (g1 & V1 & E1 & A1).
  destruct (decimal2bin_spec d2 p s size out2 T2 Hs Hp F2 Esz ltac:(lia) Z2) as (g2 & V2 & E2 & A2).
  rewrite drop_ge, app_nil_r in E1, E2 by lia. eexists _, _. split; [exact E1|]. split; [exact E2|].
  assert (Hu : 0 < last_unit s) by (destruct (scale_words_cases s ltac:(lia)) as [(_ & _ & ->)|(? & _ & ->)]; [done|apply Z.pow_pos_nonneg; divlia]).
  rewrite (memcmp_encoded _ _ _ _ _ _ _ _ V1 V2) by (intros ?; rewrite <- ?A1, <- ?A2 in *; intros E; naive_solver lia).
  set (F := Nat.max (nf d1) (nf d2)).
  rewrite (mant_scale F (scale_words s)) in A1, A2, Z1, Z2 by (done || lia).
  pose proof (base_pos (scale_words s - F)) as HB.
  pose proof (mant_at_nonneg F d1 W1) as M1. pose proof (mant_at_nonneg F d2 W2) as M2.
  rewrite decimal_cmp_spec; fold F; [|done|done|].
  - f_equal. unfold value_at, with_sign.
    rewrite <- (order_scale (last_unit s)), <- !Z.mul_assoc, A1, A2, !Z.mul_assoc, order_scale by done. done.
  - destruct (Bool.bool_dec (sign d1) (sign d2)) as [|Hne]; [by left|right].
    destruct (sign d1), (sign d2); try done; [specialize (Z1 eq_refl)|specialize (Z2 eq_refl)]; nia.
Qed.
