(* ===== verification/DecimalMul.v ===== *)
(** * Multiplication of decimals and conversion from and to integers (strings/decimal.c)

    [decimal_mul] multiplies word by word; the result has a buffer of its own.
    [ull2dec] and its callers turn integers into decimals, [decimal2ulonglong] and [decimal2longlong]
    cut the fraction off. *)

From S2P Require Import Prelude MyBit Decimal.

#[local] Open Scope Z_scope.

(** ** Multiplication *)

(** [buf2] and [buf0] go down over [n] words of the second operand; the result is the
    array, [buf0] and the carry. *)
Fixpoint mul_row (n : nat) (x : Z) (to : list Z) (b0 : Z) (from2 : list Z) (b2 carry : Z) : option (list Z * Z * Z) :=
  match n with
  | O => Some (to, b0, carry)
  | S n =>
    y ← rd from2 b2;
    p ← i64 (x * y);
    let hi := s32 (Z.quot p DIG_BASE) in
    let lo := s32 (p - hi * DIG_BASE) in
    a ← rd to b0;
    '(a, carry) ← ADD2 a lo carry;
    to ← wr to b0 a;
    carry ← i32 (carry + hi);
    mul_row n x to (b0 - 1) from2 (b2 - 1) carry
  end.

(** An array, and whether the code returned [E_DEC_OVERFLOW] with it. *)
Inductive filled := Done (b : list Z) | Overflow (b : list Z).

(** [for (buf0--; carry; buf0--)] *)
Fixpoint mul_carry (fuel : nat) (to : list Z) (b0 carry : Z) : option filled :=
  match fuel with
  | O => None
  | S fuel =>
    if carry =? 0 then Some (Done to)
    else if b0 <? 0 then Some (Overflow to)
    else
      a ← rd to b0;
      '(a, carry) ← ADD a 0 carry;
      to ← wr to b0 a;
      mul_carry fuel to (b0 - 1) carry
  end.

(** From [if (carry)] on *)
Definition mul_end (to : list Z) (b0 carry : Z) : option filled :=
  if carry =? 0 then mul_carry 1 to (b0 - 1) carry
  else if b0 <? 0 then Some (Overflow to)
  else
    a ← rd to b0;
    '(a, carry) ← ADD2 a 0 carry;
    to ← wr to b0 a;
    mul_carry (S (length to)) to (b0 - 1) carry.

(** The outer loop, over [n1] words of the first operand. *)
Fixpoint mul_rows (n1 : nat) (from1 : list Z) (b1 : Z) (to : list Z) (start0 : Z) (n2 : nat) (from2 : list Z) (start2 : Z)
    : option filled :=
  match n1 with
  | O => Some (Done to)
  | S n1 =>
    x ← rd from1 b1;
    '(to, b0, carry) ← mul_row n2 x to start0 from2 start2 0;
    r ← mul_end to b0 carry;
    match r with
    | Done to => mul_rows n1 from1 (b1 - 1) to (start0 - 1) n2 from2 start2
    | Overflow to => Some (Overflow to)
    end
  end.

(** [do { frac0--; } while (frac0 > 0 && to->buf[intg0 + frac0 - 1] == 0)] *)
Fixpoint drop_zero_words (fuel : nat) (b : list Z) (intg0 frac0 : Z) : option Z :=
  match fuel with
  | O => None
  | S fuel =>
    let frac0 := frac0 - 1 in
    if 0 <? frac0 then
      x ← rd b (intg0 + frac0 - 1);
      if x =? 0 then drop_zero_words fuel b intg0 frac0 else Some frac0
    else Some frac0
  end.

(** [while (!*buf1 && (to->intg > DIG_PER_DEC1))]: [buf1], [to->intg] and [d_to_move] *)
Fixpoint skip_head (fuel : nat) (b : list Z) (buf1 intg d_to_move : Z) : option (Z * Z * Z) :=
  match fuel with
  | O => None
  | S fuel =>
    x ← rd b buf1;
    if (x =? 0) && (DIG_PER_DEC1 <? intg) then skip_head fuel b (buf1 + 1) (intg - DIG_PER_DEC1) (d_to_move - 1)
    else Some (buf1, intg, d_to_move)
  end.

(** [for (; d_to_move--; cur_d++, buf1++) *cur_d= *buf1;] *)
Fixpoint move_up (n : nat) (b : list Z) (cur_d buf1 : Z) : option (list Z) :=
  match n with
  | O => Some b
  | S n => x ← rd b buf1; b ← wr b cur_d x; move_up n b (cur_d + 1) (buf1 + 1)
  end.

(** From the removal of trailing zero words on *)
Definition mul_trim (to : decimal_t) (intg0 : Z) : option decimal_t :=
  let frac0 := ROUND_UP (frac to) in
  '(frac0, to) ←
    (if 0 <? frac0 then
       x ← rd (buf to) (intg0 + frac0 - 1);
       if x =? 0 then
         frac0 ← drop_zero_words (Z.to_nat frac0) (buf to) intg0 frac0;
         Some (frac0, set_frac (DIG_PER_DEC1 * frac0) to)
       else Some (frac0, to)
     else Some (frac0, to));
  '(buf1, intg, d_to_move) ← skip_head (S (Z.to_nat (intg to))) (buf to) 0 (intg to) (intg0 + frac0);
  b ← (if 0 <? buf1 then move_up (Z.to_nat d_to_move) (buf to) 0 buf1 else Some (buf to));
  let to := set_buf b (set_intg intg to) in
  if (sign to : bool) && (frac to =? 0) then
    x ← rd (buf to) 0;
    if x =? 0 then decimal_make_zero to else Some to
  else Some to.

(** The words of both operands that are used, when not all words of the result fit. *)
Definition mul_bound (intg0 frac0 intg0' frac0' intg1 frac1 intg2 frac2 : Z) : Z * Z * Z * Z :=
  if intg0' <? intg0 then
    let i := intg0 - intg0' in
    let j := Z.shiftr i 1 in
    (intg1 - j, 0, intg2 - (i - j), 0)
  else
    let j := frac0 - frac0' in
    let i := Z.shiftr j 1 in
    if frac1 <=? frac2 then (intg1, frac1 - i, intg2, frac2 - (j - i))
    else (intg1, frac1 - (j - i), intg2, frac2 - i).

Definition decimal_mul (from1 from2 to : decimal_t) : option (decimal_t * Z) :=
  let intg1 := ROUND_UP (intg from1) in
  let intg2 := ROUND_UP (intg from2) in
  let frac1 := ROUND_UP (frac from1) in
  let frac2 := ROUND_UP (frac from2) in
  let i := ROUND_UP (intg from1 + intg from2) in
  let j := frac1 + frac2 in
  let '(intg0, frac0, error) := FIX_INTG_FRAC_ERROR (len to) i j in
  let bound := negb (error =? E_DEC_OK) in
  let digits := u16 (frac from1 + frac from2) in
  let '(n1, f1, n2, f2) := if bound then mul_bound i j intg0 frac0 intg1 frac1 intg2 frac2 else (intg1, frac1, intg2, frac2) in
  b ← fill_up (Z.to_nat (intg0 + frac0)) 0 (buf to) 0;
  let to := mk_decimal (intg0 * DIG_PER_DEC1) (if bound then Z.min digits (frac0 * DIG_PER_DEC1) else digits) (len to)
              (negb (eqb (sign from1) (sign from2))) b in
  r ← mul_rows (Z.to_nat (n1 + f1)) (buf from1) (intg1 + f1 - 1) b (intg0 + frac0 - 1)
        (Z.to_nat (n2 + f2)) (buf from2) (intg2 + f2 - 1);
  match r with
  | Overflow b => Some (set_buf b to, E_DEC_OVERFLOW)
  | Done b => to ← mul_trim (set_buf b to) intg0; Some (to, error)
  end.

(** ** Integers *)

Definition ULONGLONG_MAX : Z := 2 ^ 64 - 1.
Definition LONGLONG_MIN : Z := - 2 ^ 63.
Definition LONGLONG_MAX : Z := 2 ^ 63 - 1.

(** [for (intg1=1; from >= DIG_BASE; intg1++, from/=DIG_BASE) {}] *)
Fixpoint count_words (fuel : nat) (intg1 from : Z) : option (Z * Z) :=
  match fuel with
  | O => None
  | S fuel => if DIG_BASE <=? from then count_words fuel (intg1 + 1) (from / DIG_BASE) else Some (intg1, from)
  end.

(** [for(to->intg= ..; from; to->intg++, from/=10) {}] *)
Fixpoint count_digits (fuel : nat) (intg from : Z) : option Z :=
  match fuel with
  | O => None
  | S fuel => if from =? 0 then Some intg else count_digits fuel (intg + 1) (from / 10)
  end.

(** [for (buf=to->buf+intg1; intg1; intg1--)] *)
Fixpoint put_words (n : nat) (b : list Z) (p x : Z) : option (list Z) :=
  match n with
  | O => Some b
  | S n =>
    let y := x / DIG_BASE in
    b ← wr b (p - 1) (s32 (x - y * DIG_BASE));
    put_words n b (p - 1) y
  end.

Definition ull2dec (from : Z) (to : decimal_t) : option (decimal_t * Z) :=
  if from =? 0 then to ← decimal_make_zero to; Some (to, E_DEC_OK) else
  '(intg1, first) ← count_words 4 1 from;
  let '(intg1, error) := if len to <? intg1 then (len to, E_DEC_OVERFLOW) else (intg1, E_DEC_OK) in
  n ← count_digits 11 ((intg1 - 1) * DIG_PER_DEC1) first;
  b ← put_words (Z.to_nat intg1) (buf to) intg1 from;
  Some (mk_decimal n 0 (len to) (sign to) b, error).

Definition ulonglong2decimal (from : Z) (to : decimal_t) : option (decimal_t * Z) := ull2dec from (set_sign false to).

Definition longlong2decimal (from : Z) (to : decimal_t) : option (decimal_t * Z) :=
  let to := set_sign (from <? 0) to in
  if from <? 0 then
    if from =? LONGLONG_MIN then ull2dec (u64 LONGLONG_MIN) to
    else x ← i64 (- from); ull2dec (u64 x) to
  else ull2dec from to.

(** [for (intg=from->intg; intg > 0; intg-=DIG_PER_DEC1)]: [buf] and [x], or [None] inside for the overflow *)
Fixpoint ull_words (fuel : nat) (b : list Z) (intg p x : Z) : option (option (Z * Z)) :=
  match fuel with
  | O => None
  | S fuel =>
    if 0 <? intg then
      w ← rd b p;
      if (ULONGLONG_MAX / DIG_BASE <=? x) && ((ULONGLONG_MAX / DIG_BASE <? x) || (ULONGLONG_MAX mod DIG_BASE <? w))
      then Some None
      else ull_words fuel b (intg - DIG_PER_DEC1) (p + 1) (u64 (x * DIG_BASE + u64 w))
    else Some (Some (p, x))
  end.

(** [for (frac=from->frac; frac > 0; frac-=DIG_PER_DEC1) if ( *buf++) return E_DEC_TRUNCATED] *)
Fixpoint frac_error (fuel : nat) (b : list Z) (frac p : Z) : option Z :=
  match fuel with
  | O => None
  | S fuel =>
    if 0 <? frac then
      w ← rd b p;
      if w =? 0 then frac_error fuel b (frac - DIG_PER_DEC1) (p + 1) else Some E_DEC_TRUNCATED
    else Some E_DEC_OK
  end.

(** [*to] and the error *)
Definition decimal2ulonglong (from : decimal_t) : option (Z * Z) :=
  if sign from then Some (0, E_DEC_OVERFLOW) else
  r ← ull_words (S (Z.to_nat (intg from))) (buf from) (intg from) 0 0;
  match r with
  | None => Some (ULONGLONG_MAX, E_DEC_OVERFLOW)
  | Some (p, x) => e ← frac_error (S (Z.to_nat (frac from))) (buf from) (frac from) p; Some (x, e)
  end.

(** The same loop with the negative value *)
Fixpoint ll_words (fuel : nat) (b : list Z) (intg p x : Z) : option (option (Z * Z)) :=
  match fuel with
  | O => None
  | S fuel =>
    if 0 <? intg then
      w ← rd b p;
      if (x <=? Z.quot LONGLONG_MIN DIG_BASE)
         && ((x <? Z.quot LONGLONG_MIN DIG_BASE) || (- Z.rem LONGLONG_MIN DIG_BASE <? w))
      then Some None
      else
        x ← i64 (x * DIG_BASE);
        x ← i64 (x - w);
        ll_words fuel b (intg - DIG_PER_DEC1) (p + 1) x
    else Some (Some (p, x))
  end.

Definition decimal2longlong (from : decimal_t) : option (Z * Z) :=
  r ← ll_words (S (Z.to_nat (intg from))) (buf from) (intg from) 0 0;
  match r with
  | None => Some (if sign from then LONGLONG_MIN else LONGLONG_MAX, E_DEC_OVERFLOW)
  | Some (p, x) =>
    if negb (sign from) && (x =? LONGLONG_MIN) then Some (LONGLONG_MAX, E_DEC_OVERFLOW)
    else
      v ← (if sign from then Some x else i64 (- x));
      e ← frac_error (S (Z.to_nat (frac from))) (buf from) (frac from) p;
      Some (v, e)
  end.
