(* ===== verification/DecimalRows.v ===== *)
(** * The loops of decimal multiplication

    A row of products, the carry behind it, and all rows: together they add the
    product of two numbers in base [10^9] to the array. *)

From S2P Require Import Prelude MyBit Decimal DecimalFacts DecimalMul.

#[local] Open Scope Z_scope.

Lemma ADD2_computes a b c :
  digit a → digit b → digit c →
  ∃ r k, ADD2 a b c = Some (r, k) ∧ digit r ∧ 0 ≤ k ≤ 2 ∧ a + b + c = r + k * DIG_BASE.
Proof.
  intros Ha Hb Hc. unfold ADD2, digit, DIG_BASE in *. rewrite i64_ok by lia. cbn [mbind option_bind].
  rewrite i64_ok by lia. cbn [mbind option_bind].
  destruct (Z.leb_spec 1000000000 (a + b + c)).
  - destruct (Z.leb_spec 1000000000 (a + b + c - 1000000000)); rewrite i32_ok by lia; eexists _, _; (split; [done|]); lia.
  - rewrite (proj2 (Z.leb_gt _ _)), i32_ok by lia. eexists _, _. split; [done|]. lia.
Qed.

(** The words of a product of two words. *)
Lemma product_words x y :
  digit x → digit y →
  i64 (x * y) = Some (x * y)
  ∧ let hi := x * y / DIG_BASE in let lo := x * y mod DIG_BASE in
    s32 (Z.quot (x * y) DIG_BASE) = hi ∧ s32 (x * y - hi * DIG_BASE) = lo ∧ digit hi ∧ digit lo ∧ x * y = hi * DIG_BASE + lo.
Proof.
  unfold digit, DIG_BASE. intros Hx Hy. assert (Hp : 0 ≤ x * y ≤ 999999999 * 999999999) by nia.
  split; [apply i64_ok; lia|]. cbv zeta. rewrite Z.quot_div_nonneg by lia.
  set (p := x * y) in *. clearbody p. rewrite !s32_small by divlia. divlia.
Qed.

(** One row: [T] gets the low words of [T + x * s + c], the rest is the carry. *)
Lemma mul_row_spec x s X Y A T R c :
  digit x → digits s → digits T → digit c → length T = length s →
  ∃ T' c', mul_row (length s) x (A ++ T ++ R) (Z.of_nat (length A + length s) - 1) (X ++ s ++ Y) (Z.of_nat (length X + length s) - 1) c
      = Some (A ++ T' ++ R, Z.of_nat (length A) - 1, c')
    ∧ length T' = length s ∧ digits T' ∧ digit c' ∧ num T' + c' * base (length s) = num T + x * num s + c.
Proof.
  intros Hx Hs HT Hc HL. remember (length s) as n eqn:Hn. revert s T R Y c Hn HL Hs HT Hc.
  induction n as [|n IH]; intros s T R Y c Hn HL Hs HT Hc.
  { apply eq_sym, length_zero_iff_nil in Hn as ->. apply length_zero_iff_nil in HL as ->. exists [], c. cbn [mul_row app length num].
    split; [by rewrite Nat.add_0_r|]. split_and!; try done. rewrite base_0. lia. }
  destruct (snoc_view s n ltac:(done)) as (s' & y & -> & Hs'). destruct (snoc_view T n HL) as (T' & a & -> & HT').
  apply Forall_app in Hs as [Ds Dy%Forall_inv]. apply Forall_app in HT as [DT Da%Forall_inv].
  cbn [mul_row]. replace (Z.of_nat (length X + S n) - 1) with (Z.of_nat (length X) + Z.of_nat (S n) - 1) by lia.
  rewrite rd_snoc by done. cbn [mbind option_bind].
  destruct (product_words x y Hx Dy) as (E1 & E2 & E3 & Dh & Dl & Ep). rewrite E1. cbn [mbind option_bind]. rewrite E2, E3.
  set (hi := x * y / DIG_BASE) in *. set (lo := x * y mod DIG_BASE) in *.
  replace (Z.of_nat (length A + S n) - 1) with (Z.of_nat (length A) + Z.of_nat (S n) - 1) by lia.
  rewrite rd_snoc by done. cbn [mbind option_bind].
  destruct (ADD2_computes a lo c Da Dl Hc) as (r & k & -> & Dr & Hk & Er). cbn [mbind option_bind].
  replace (A ++ (T' ++ [a]) ++ R) with ((A ++ T') ++ a :: R) by (by rewrite <- !app_assoc).
  replace (Z.of_nat (length A) + Z.of_nat (S n) - 1) with (Z.of_nat (length (A ++ T'))) by (rewrite length_app; lia).
  rewrite wr_app. cbn [mbind option_bind].
  assert (Dc : digit (k + hi)).
  { unfold digit, DIG_BASE in *. assert (x * y ≤ 999999999 * 999999999) by (apply Z.mul_le_mono_nonneg; lia).
    set (p := x * y) in *. clearbody p hi lo. clear -Dh Dl Ep Er Da Dr Hc Hk H. lia. }
  rewrite i32_ok by (unfold digit, DIG_BASE in Dc; lia). cbn [mbind option_bind].
  replace ((A ++ T') ++ r :: R) with (A ++ T' ++ r :: R) by (by rewrite <- app_assoc).
  replace (X ++ (s' ++ [y]) ++ Y) with (X ++ s' ++ y :: Y) by (by rewrite <- !app_assoc).
  destruct (IH s' T' (r :: R) (y :: Y) (k + hi)) as (U & c' & E & HU & DU & Dc' & En); [done..|].
  exists (U ++ [r]), c'. split_and!; [|rewrite length_app; cbn; lia|by apply Forall_app; split; [|constructor]|done|].
  - replace (Z.of_nat (length (A ++ T')) - 1) with (Z.of_nat (length A + n) - 1) by (rewrite length_app; lia).
    replace (Z.of_nat (length X) + Z.of_nat (S n) - 1 - 1) with (Z.of_nat (length X + n) - 1) by lia.
    rewrite E. by rewrite <- app_assoc.
  - rewrite !num_snoc, base_S. assert (Hexp : x * (num s' * DIG_BASE + y) = x * num s' * DIG_BASE + x * y) by ring. rewrite Hexp, Ep.
    transitivity ((num U + c' * base n) * DIG_BASE + r); [ring|]. rewrite En.
    transitivity (num T' * DIG_BASE + x * num s' * DIG_BASE + (k * DIG_BASE + r) + hi * DIG_BASE); [ring|].
    replace (k * DIG_BASE + r) with (a + lo + c) by lia. ring.
Qed.

(** The carry behind a row goes into the words before it, if they have room. *)
Lemma mul_carry_spec fuel T R c :
  digits T → 0 ≤ c ≤ 1 → num T + c < base (length T) → (length T < fuel)%nat →
  ∃ T', mul_carry fuel (T ++ R) (Z.of_nat (length T) - 1) c = Some (Done (T' ++ R))
    ∧ length T' = length T ∧ digits T' ∧ num T' = num T + c.
Proof.
  revert T R c. induction fuel as [|fuel IH]; intros T R c DT Hc Hlt Hf; [lia|]. cbn [mul_carry].
  destruct (Z.eqb_spec c 0) as [->|Hc0]; [exists T; by rewrite Z.add_0_r|]. assert (c = 1) as -> by lia.
  destruct (length T) as [|n] eqn:HL; [rewrite base_0 in Hlt; pose proof (num_bound T DT); lia|].
  destruct (snoc_view T n HL) as (T' & a & -> & HT'). apply Forall_app in DT as [DT Da%Forall_inv].
  rewrite (proj2 (Z.ltb_ge _ _)) by lia.
  replace ((T' ++ [a]) ++ R) with (T' ++ a :: R) by (by rewrite <- app_assoc). replace (Z.of_nat (S n) - 1) with (Z.of_nat (length T')) by lia.
  rewrite rd_app. cbn [mbind option_bind].
  destruct (ADD_computes a 0 1 Da) as (r & k & -> & Dr & Hk & Er); [done|lia|]. cbn [mbind option_bind]. rewrite wr_app. cbn [mbind option_bind].
  rewrite num_snoc in Hlt. rewrite base_S in Hlt.
  destruct (IH T' (r :: R) k) as (U & E & HU & DU & En); [done|lia| |lia|].
  { rewrite HT'. unfold digit in *. apply (Z.mul_lt_mono_pos_l DIG_BASE); [done|]. lia. }
  exists (U ++ [r]). rewrite <- app_assoc. split_and!; [exact E|rewrite length_app; cbn; lia|by apply Forall_app; split; [|constructor]|].
  rewrite !num_snoc, En. lia.
Qed.

Lemma mul_end_spec T R c :
  digits T → digit c → num T + c < base (length T) →
  ∃ T', mul_end (T ++ R) (Z.of_nat (length T) - 1) c = Some (Done (T' ++ R))
    ∧ length T' = length T ∧ digits T' ∧ num T' = num T + c.
Proof.
  intros DT Hc Hlt. unfold mul_end. destruct (Z.eqb_spec c 0) as [->|Hc0]; [exists T; by rewrite Z.add_0_r|].
  pose proof (num_bound T DT) as Hb. unfold digit in Hc. destruct (length T) as [|n] eqn:HL; [rewrite base_0 in Hlt; lia|].
  destruct (snoc_view T n HL) as (T' & a & -> & HT'). apply Forall_app in DT as [DT Da%Forall_inv].
  rewrite (proj2 (Z.ltb_ge _ _)) by lia.
  replace ((T' ++ [a]) ++ R) with (T' ++ a :: R) by (by rewrite <- app_assoc). replace (Z.of_nat (S n) - 1) with (Z.of_nat (length T')) by lia.
  rewrite rd_app. cbn [mbind option_bind].
  destruct (ADD2_computes a 0 c Da) as (r & k & -> & Dr & Hk & Er); [done|done|]. cbn [mbind option_bind]. rewrite wr_app. cbn [mbind option_bind].
  rewrite num_snoc, base_S in Hlt. unfold digit, DIG_BASE in *.
  destruct (mul_carry_spec (S (length (T' ++ r :: R))) T' (r :: R) k) as (U & E & HU & DU & En);
    [done|lia|rewrite HT'; lia|rewrite length_app; lia|].
  exists (U ++ [r]). rewrite <- app_assoc. split_and!; [exact E|rewrite length_app; cbn; lia|by apply Forall_app; split; [|constructor]|].
  rewrite !num_snoc, En. unfold DIG_BASE. lia.
Qed.

(** All rows. *)
Lemma mul_rows_spec s1 s2 X1 Y1 X2 Y2 T R :
  digits s1 → digits s2 → (0 < length s2)%nat → digits T → (length s1 + length s2 ≤ S (length T))%nat → num T + num s1 * num s2 < base (length T) →
  ∃ W, mul_rows (length s1) (X1 ++ s1 ++ Y1) (Z.of_nat (length X1 + length s1) - 1) (T ++ R) (Z.of_nat (length T) - 1)
      (length s2) (X2 ++ s2 ++ Y2) (Z.of_nat (length X2 + length s2) - 1) = Some (Done (W ++ R))
    ∧ length W = length T ∧ digits W ∧ num W = num T + num s1 * num s2.
Proof.
  intros D1 D2 H2. remember (length s1) as n eqn:Hn. revert s1 Y1 T R Hn D1.
  induction n as [|n IH]; intros s1 Y1 T R Hn D1 DT HL Hlt.
  { apply eq_sym, length_zero_iff_nil in Hn as ->. exists T. cbn [mul_rows num]. split_and!; try done. lia. }
  destruct (snoc_view s1 n ltac:(done)) as (s1' & x & -> & Hs1). apply Forall_app in D1 as [D1 Dx%Forall_inv].
  cbn [mul_rows]. replace (Z.of_nat (length X1 + S n) - 1) with (Z.of_nat (length X1) + Z.of_nat (S n) - 1) by lia.
  rewrite rd_snoc by done. cbn [mbind option_bind].
  assert (∃ A T0, T = A ++ T0 ∧ length T0 = length s2) as (A & T0 & -> & HT0).
  { exists (take (length T - length s2) T), (drop (length T - length s2) T). split; [symmetry; apply take_drop|rewrite length_drop; lia]. }
  apply Forall_app in DT as [DA DT0]. assert (HA : length (A ++ T0) = (length A + length s2)%nat) by (rewrite length_app; lia).
  destruct (mul_row_spec x s2 X2 Y2 A T0 R 0 Dx D2 DT0) as (T1 & c & E & HT1 & DT1 & Dc & En); [done|done|].
  rewrite <- (app_assoc A T0 R), HA, E. cbn [mbind option_bind].
  rewrite num_snoc, num_app, HT0, HA, base_add in Hlt. rewrite HA in HL.
  pose proof (num_bound s2 D2) as B2. pose proof (num_bound s1' D1) as B1. pose proof (num_bound T1 DT1) as BT. rewrite HT1 in BT. pose proof (base_pos (length s2)) as Bp.
  destruct (mul_end_spec A (T1 ++ R) c DA Dc) as (A' & -> & HA' & DA' & EA); [|cbn [mbind option_bind]].
  { apply (Z.mul_lt_mono_pos_r (base (length s2))); [done|]. assert (0 ≤ num s1' * num s2) by (apply Z.mul_nonneg_nonneg; lia).
    unfold DIG_BASE in Hlt. lia. }
  destruct (snoc_view (A' ++ T1) (length A + length s2 - 1)) as (T' & w & ET' & HT'); [rewrite length_app; lia|].
  assert (DT' : digits (T' ++ [w])) by (rewrite <- ET'; by apply Forall_app). apply Forall_app in DT' as [DT' Dw%Forall_inv].
  assert (Enum : num T' * DIG_BASE + w = num A * base (length s2) + num T0 + x * num s2).
  { rewrite <- num_snoc, <- ET', num_app, HT1, EA. lia. }
  rewrite (app_assoc A' T1 R), ET', <- (app_assoc T' [w] R). cbn [app].
  assert (Ebase : base (length A) * base (length s2) = DIG_BASE * base (length T')).
  { rewrite <- base_add, <- base_S. f_equal. lia. }
  replace (X1 ++ (s1' ++ [x]) ++ Y1) with (X1 ++ s1' ++ x :: Y1) by (by rewrite <- !app_assoc).
  destruct (IH s1' (x :: Y1) T' (w :: R)) as (W & EW & HW & DW & EnW); [done|done|done|lia| |].
  { apply (Z.mul_lt_mono_pos_l DIG_BASE); [done|]. rewrite <- Ebase. unfold digit in Dw. lia. }
  exists (W ++ [w]). split_and!; [|rewrite length_app; cbn; lia|by apply Forall_app; split; [|constructor]|].
  - replace (Z.of_nat (length X1) + Z.of_nat (S n) - 1 - 1) with (Z.of_nat (length X1 + n) - 1) by lia.
    replace (Z.of_nat (length A + length s2) - 1 - 1) with (Z.of_nat (length T') - 1) by lia. rewrite EW. by rewrite <- app_assoc.
  - rewrite !num_snoc, EnW, num_app, HT0. lia.
Qed.
