(* ===== verification/DecimalProduct.v ===== *)
(** * Products of decimals

    [decimal_mul] computes the product exactly when its words fit in the result. *)

From S2P Require Import Prelude MyBit Decimal DecimalFacts DecimalAdd DecimalMul DecimalRows DecimalWrite.

#[local] Open Scope Z_scope.

(** ** Removing zero words *)

Lemma drop_zero_words_spec fuel I Fr Y :
  (length Fr < fuel)%nat →
  ∃ Fr' k, Fr = Fr' ++ replicate k 0 ∧ list.last Fr' ≠ Some 0
    ∧ drop_zero_words fuel (I ++ Fr ++ Y) (Z.of_nat (length I)) (Z.of_nat (S (length Fr))) = Some (Z.of_nat (length Fr')).
Proof.
  revert Fr Y. induction fuel as [|fuel IH]; intros Fr Y Hf; [lia|]. cbn [drop_zero_words].
  replace (Z.of_nat (S (length Fr)) - 1) with (Z.of_nat (length Fr)) by lia.
  destruct (length Fr) as [|n] eqn:HL.
  { apply length_zero_iff_nil in HL as ->. by exists [], 0%nat. }
  rewrite (proj2 (Z.ltb_lt _ _)) by lia. destruct (snoc_view Fr n HL) as (Fr1 & x & -> & HF).
  replace (Z.of_nat (length I) + Z.of_nat (S n) - 1) with (Z.of_nat (length I) + Z.of_nat (S n) - 1) by lia.
  rewrite rd_snoc by done. cbn [mbind option_bind]. destruct (Z.eqb_spec x 0) as [->|Hx].
  - replace (I ++ (Fr1 ++ [0]) ++ Y) with (I ++ Fr1 ++ 0 :: Y) by (by rewrite <- !app_assoc). rewrite <- HF.
    destruct (IH Fr1 (0 :: Y)) as (Fr' & k & -> & Hl & E); [lia|]. exists Fr', (S k). split; [|done].
    by rewrite <- app_assoc, <- replicate_S_end.
  - exists (Fr1 ++ [x]), 0%nat. rewrite app_nil_r, last_snoc. split_and!; [done|congruence|]. by rewrite HL.
Qed.

Lemma skip_head_spec fuel X I Y d :
  (length I < fuel)%nat → I ++ Y ≠ [] →
  ∃ z I', I = replicate z 0 ++ I' ∧ (1 ≤ length I → 1 ≤ length I')%nat ∧ (head I' = Some 0 → (length I' ≤ 1)%nat)
    ∧ skip_head fuel (X ++ I ++ Y) (Z.of_nat (length X)) (9 * Z.of_nat (length I)) d
      = Some (Z.of_nat (length X + z), 9 * Z.of_nat (length I'), d - Z.of_nat z).
Proof.
  revert X I d. induction fuel as [|fuel IH]; intros X I d Hf Hne; [lia|]. cbn [skip_head].
  assert (∃ x l, I ++ Y = x :: l) as (x & l & E) by (destruct (I ++ Y); [done|eauto]).
  rewrite E, rd_app, <- E. cbn [mbind option_bind].
  destruct ((x =? 0) && (DIG_PER_DEC1 <? 9 * Z.of_nat (length I))) eqn:Et.
  - apply andb_true_iff in Et as [->%Z.eqb_eq Hl%Z.ltb_lt]. unfold DIG_PER_DEC1 in *. destruct I as [|y I]; [cbn in Hl; lia|].
    injection E as -> E. cbn [length app] in *.
    replace (Z.of_nat (length X) + 1) with (Z.of_nat (length (X ++ [0]))) by (rewrite length_app; cbn; lia).
    replace (9 * Z.of_nat (S (length I)) - 9) with (9 * Z.of_nat (length I)) by lia.
    replace (X ++ 0 :: I ++ Y) with ((X ++ [0]) ++ I ++ Y) by (by rewrite <- app_assoc).
    destruct (IH (X ++ [0]) I (d - 1)) as (z & I' & -> & H1 & Hh & Es); [lia|destruct I; [cbn in Hl; lia|done]|].
    exists (S z), I'. split; [done|]. split; [lia|]. split; [done|]. rewrite Es, length_app. cbn [length]. f_equal. f_equal; [f_equal|]; lia.
  - exists 0%nat, I. split; [done|]. split; [done|]. split.
    + intros Hh. destruct I as [|y I]; [done|]. injection E as -> E. injection Hh as ->. cbn [andb Z.eqb] in Et.
      apply Z.ltb_ge in Et. unfold DIG_PER_DEC1 in Et. lia.
    + rewrite Nat.add_0_r. f_equal. f_equal. lia.
Qed.

Lemma move_up_spec n P Q M Y :
  length M = n → (0 < length Q)%nat →
  ∃ Y', move_up n (P ++ Q ++ M ++ Y) (Z.of_nat (length P)) (Z.of_nat (length P + length Q)) = Some (P ++ M ++ Y')
    ∧ length Y' = (length Q + length Y)%nat.
Proof.
  revert P Q M. induction n as [|n IH]; intros P Q M HM HQ.
  { apply length_zero_iff_nil in HM as ->. exists (Q ++ Y). by rewrite length_app. }
  destruct M as [|x M]; [done|]. destruct Q as [|q Q]; [cbn in HQ; lia|]. cbn [move_up].
  assert (rd (P ++ (q :: Q) ++ (x :: M) ++ Y) (Z.of_nat (length P + length (q :: Q))) = Some x) as ->
    by (rewrite <- length_app, app_assoc; apply rd_app).
  cbn [mbind option_bind app]. rewrite wr_app. cbn [mbind option_bind].
  replace (P ++ x :: Q ++ x :: M ++ Y) with ((P ++ [x]) ++ (Q ++ [x]) ++ M ++ Y) by (by rewrite <- !app_assoc).
  destruct (IH (P ++ [x]) (Q ++ [x]) M) as (Y' & E & HY'); [by injection HM|rewrite length_app; cbn; lia|].
  exists Y'. rewrite !length_app in *. cbn [length] in *. split; [|lia].
  replace (Z.of_nat (length P) + 1) with (Z.of_nat (length P + 1)) by lia.
  replace (Z.of_nat (length P + S (length Q)) + 1) with (Z.of_nat (length P + 1 + (length Q + 1))) by lia.
  rewrite E. by rewrite <- app_assoc.
Qed.

(** The decimal without the zero words in front of the integer part [I] and behind the fraction [Fr]. *)
Record trimmed (I Fr : list Z) (to to' : decimal_t) (I' Fr' : list Z) (z k : nat) : Prop := {
  tr_int : I = replicate z 0 ++ I';
  tr_frac : Fr = Fr' ++ replicate k 0;
  tr_some : (1 ≤ length I → 1 ≤ length I')%nat;
  tr_head : head I' = Some 0 → (length I' ≤ 1)%nat;
  tr_last : list.last Fr' ≠ Some 0;
  tr_intg : intg to' = 9 * Z.of_nat (length I');
  tr_digits : frac to' = if (k =? 0)%nat then frac to else 9 * Z.of_nat (length Fr');
  tr_words : take (length I' + length Fr') (buf to') = I' ++ Fr';
  tr_buf : length (buf to') = length (buf to);
  tr_len : len to' = len to;
  tr_sign : sign to' = sign to;
  tr_zero : sign to' = true → ∃ w, w ∈ I' ++ Fr' ∧ w ≠ 0;
}.

Definition no_sign_zero (to : decimal_t) (b : list Z) : decimal_t := mk_decimal 1 0 (len to) false b.

(** The trailing zero words of the fraction. *)
Lemma trim_frac_spec I Fr Y to :
  buf to = I ++ Fr ++ Y →
  ∃ Fr' k, Fr = Fr' ++ replicate k 0 ∧ list.last Fr' ≠ Some 0 ∧
    (if 0 <? Z.of_nat (length Fr) then
       x ← rd (buf to) (Z.of_nat (length I) + Z.of_nat (length Fr) - 1);
       if x =? 0 then
         frac0 ← drop_zero_words (Z.to_nat (Z.of_nat (length Fr))) (buf to) (Z.of_nat (length I)) (Z.of_nat (length Fr));
         Some (frac0, set_frac (DIG_PER_DEC1 * frac0) to)
       else Some (Z.of_nat (length Fr), to)
     else Some (Z.of_nat (length Fr), to))
    = Some (Z.of_nat (length Fr'), set_frac (if (k =? 0)%nat then frac to else 9 * Z.of_nat (length Fr')) to).
Proof.
  intros Eb. destruct (length Fr) as [|n] eqn:HL.
  { apply length_zero_iff_nil in HL as ->. exists [], 0%nat. split_and!; [done|done|]. by destruct to. }
  rewrite (proj2 (Z.ltb_lt _ _)) by lia. destruct (snoc_view Fr n HL) as (Fr1 & x & -> & HF).
  rewrite Eb, rd_snoc by done. cbn [mbind option_bind]. destruct (Z.eqb_spec x 0) as [->|Hx].
  - rewrite Nat2Z.id. replace (I ++ (Fr1 ++ [0]) ++ Y) with (I ++ Fr1 ++ 0 :: Y) by (by rewrite <- !app_assoc).
    destruct (drop_zero_words_spec (S n) I Fr1 (0 :: Y)) as (Fr' & k & -> & Hl & E); [lia|]. rewrite HF in E. rewrite E. cbn [mbind option_bind].
    exists Fr', (S k). split_and!; [by rewrite <- app_assoc, <- replicate_S_end|done|done].
  - exists (Fr1 ++ [x]), 0%nat. rewrite app_nil_r, HL, last_snoc. split_and!; [done|congruence|]. by destruct to.
Qed.

(** The leading zero words of the integer part, and the move of the others. *)
Lemma trim_head_spec I Fr' Y b d :
  b = I ++ Fr' ++ Y → b ≠ [] → d = Z.of_nat (length I) + Z.of_nat (length Fr') →
  ∃ z I' b', I = replicate z 0 ++ I' ∧ (1 ≤ length I → 1 ≤ length I')%nat ∧ (head I' = Some 0 → (length I' ≤ 1)%nat)
    ∧ ('(buf1, intg, d_to_move) ← skip_head (S (Z.to_nat (9 * Z.of_nat (length I)))) b 0 (9 * Z.of_nat (length I)) d;
       b ← (if 0 <? buf1 then move_up (Z.to_nat d_to_move) b 0 buf1 else Some b); Some (b, intg))
      = Some (b', 9 * Z.of_nat (length I'))
    ∧ take (length I' + length Fr') b' = I' ++ Fr' ∧ length b' = length b ∧ (I = [] → b' = b).
Proof.
  intros Eb Hne ->. destruct (skip_head_spec (S (Z.to_nat (9 * Z.of_nat (length I)))) [] I (Fr' ++ Y) (Z.of_nat (length I) + Z.of_nat (length Fr')))
    as (z & I' & EI & H1 & Hh & Es); [lia|by rewrite <- Eb|].
  cbn [app] in Es. rewrite <- Eb in Es. change (Z.of_nat (length [])) with 0 in Es. rewrite Es. cbn [mbind option_bind length Nat.add].
  assert (HLI : length I = (z + length I')%nat) by (rewrite EI, length_app, length_replicate; lia).
  destruct (Z.ltb_spec 0 (Z.of_nat z)).
  - destruct (move_up_spec (length I' + length Fr') [] (replicate z 0) (I' ++ Fr') Y) as (Y' & E & HY');
      [by rewrite length_app|rewrite length_replicate; lia|].
    rewrite length_replicate in *. cbn [length app Nat.add] in E. change (Z.of_nat 0) with 0 in E.
    replace (Z.to_nat _) with (length I' + length Fr')%nat by lia.
    replace b with (replicate z 0 ++ (I' ++ Fr') ++ Y) by (by rewrite Eb, EI, <- !app_assoc). rewrite E. cbn [mbind option_bind].
    eexists z, I', _. split_and!; [done|done|done|done| | |].
    + by rewrite take_app_length' by (by rewrite length_app).
    + rewrite !length_app, length_replicate. lia.
    + intros ->. cbn in HLI. lia.
  - assert (z = 0%nat) as -> by lia. cbn [replicate app] in EI. subst I'. cbn [mbind option_bind]. eexists 0%nat, I, _. split_and!; try done.
    rewrite Eb. by rewrite app_assoc, take_app_length' by (by rewrite length_app).
Qed.

Lemma mul_trim_spec I Fr Y to :
  buf to = I ++ Fr ++ Y → intg to = 9 * Z.of_nat (length I) → ROUND_UP (frac to) = Z.of_nat (length Fr) → 0 ≤ frac to → I ++ Fr ≠ [] →
  ∃ to', mul_trim to (Z.of_nat (length I)) = Some to'
    ∧ ((∃ I' Fr' z k, trimmed I Fr to to' I' Fr' z k)
       ∨ num (I ++ Fr) = 0 ∧ ∃ b, to' = no_sign_zero to (0 :: b) ∧ S (length b) = length (buf to)).
Proof.
  intros Eb Ei Ef Hf Hne. unfold mul_trim. rewrite Ef. destruct (trim_frac_spec I Fr Y to Eb) as (Fr' & k & EF & Hlast & ->).
  cbn [mbind option_bind]. unfold set_buf, set_intg, set_frac. cbn [intg frac len sign buf].
  set (fr := if (k =? 0)%nat then frac to else 9 * Z.of_nat (length Fr')). rewrite Ei.
  assert (Hbne : buf to ≠ []) by (rewrite Eb, app_assoc; by destruct (I ++ Fr)).
  destruct (trim_head_spec I Fr' (replicate k 0 ++ Y) (buf to) _ ltac:(rewrite Eb, EF, <- app_assoc; done) Hbne eq_refl)
    as (z & I' & b & EI & H1 & Hh & Eh & Htake & Hlen & Hsame).
  destruct (skip_head _ _ _ _ _) as [[[q i] d]|]; [|done]. cbn [mbind option_bind] in *.
  destruct (if 0 <? q then _ else _) as [b'|]; [|done]. cbn [mbind option_bind] in *. injection Eh as -> ->.
  assert (Hfr : fr = 0 ↔ Fr' = []).
  { unfold fr. rewrite ROUND_UP_spec in Ef by done. destruct k as [|k]; cbn [Nat.eqb].
    - rewrite app_nil_r in EF. subst Fr'. rewrite <- length_zero_iff_nil. divlia.
    - rewrite <- length_zero_iff_nil. lia. }
  assert (Hleft : (sign to = true → ∃ w, w ∈ I' ++ Fr' ∧ w ≠ 0) →
    trimmed I Fr to (mk_decimal (9 * Z.of_nat (length I')) fr (len to) (sign to) b) I' Fr' z k) by (intros Hz; by split).
  destruct (sign to && (fr =? 0)) eqn:Et.
  - apply andb_true_iff in Et as [Esg Efr%Z.eqb_eq%Hfr]. destruct b as [|x b]; [by destruct (buf to)|].
    change (rd (x :: b) 0) with (Some x). cbn [mbind option_bind]. subst Fr'.
    rewrite Nat.add_0_r, app_nil_r in Htake. destruct (Z.eqb_spec x 0) as [->|Hx].
    + exists (no_sign_zero to (0 :: b)). split; [done|]. right. split; [|by exists b].
      assert (I' = [] ∨ I' = [0]) as HI'.
      { destruct I' as [|y I']; [by left|right]. cbn in Htake. injection Htake as <- _. specialize (Hh eq_refl). cbn in Hh.
        by destruct I'; [|cbn in Hh; lia]. }
      rewrite EI, EF. cbn [app]. by destruct HI' as [->| ->]; rewrite !num_app, !num_zeroes.
    + eexists. split; [done|]. left. exists I', [], z, k. apply Hleft. intros _. exists x. split; [|done].
      destruct I' as [|y I']; [|cbn in Htake; injection Htake as <- _; left].
      assert (I = []) as -> by (destruct I; [done|cbn in H1; lia]). specialize (Hsame eq_refl). cbn [app] in *. subst Fr.
      destruct k as [|k]; [done|]. cbn in Eb. rewrite Eb in Hsame. congruence.
  - eexists. split; [done|]. left. exists I', Fr', z, k. apply Hleft. intros Esg. rewrite Esg in Et. apply Z.eqb_neq in Et.
    destruct (list.last Fr') as [w|] eqn:El; [|apply last_None in El; by destruct Et; apply Hfr].
    exists w. split; [|congruence]. apply elem_of_app. right. apply last_Some in El as [l ->]. apply elem_of_app. right. left.
Qed.

(** ** Numbers with the digits they declare *)

Lemma int_words_bound d : tight d → num (int_words d) < 10 ^ intg d.
Proof.
  intros [W Hn Hf _]. pose proof (length_int_words d W) as HL. pose proof (wf_intg d W) as Hi. pose proof (ni_spec d W) as En.
  rewrite ROUND_UP_spec in En by done. assert (D : digits (int_words d)) by (apply Forall_take, (wf_digits d W)).
  destruct (int_words d) as [|w l] eqn:E; [cbn; apply Z.pow_pos_nonneg; lia|].
  cbn [take] in Hf. apply Forall_inv in Hf. apply list.Forall_cons in D as [Dw Dl]. cbn [length] in HL.
  rewrite num_cons. pose proof (num_bound l Dl) as Bl.
  assert (Ep : 10 ^ intg d = 10 ^ first_digits d * base (length l)).
  { unfold base, DIG_BASE. change 1000000000 with (10 ^ 9). rewrite <- Z.pow_mul_r, <- Z.pow_add_r by (unfold first_digits; divlia || lia).
    f_equal. unfold first_digits. lia. }
  rewrite Ep. assert (w * base (length l) ≤ (10 ^ first_digits d - 1) * base (length l)) by (apply Z.mul_le_mono_nonneg_r; lia). lia.
Qed.

Lemma words_bound d : tight d → num (words d) < 10 ^ intg d * base (nf d).
Proof.
  intros T. pose proof (tg_wf d T) as W. rewrite <- (take_drop (ni d) (words d)). fold (int_words d) (frac_words d).
  rewrite num_app, length_frac_words by done. pose proof (int_words_bound d T).
  assert (D : digits (frac_words d)) by (apply Forall_drop, (wf_digits d W)). apply num_bound in D. rewrite length_frac_words in D by done.
  assert (num (int_words d) * base (nf d) ≤ (10 ^ intg d - 1) * base (nf d)) by (apply Z.mul_le_mono_nonneg_r; lia). lia.
Qed.

(** The digits behind the fraction are 0. *)
Definition spare (d : decimal_t) : Z := 9 * Z.of_nat (nf d) - frac d.

Lemma spare_range d : wf d → 0 ≤ spare d < 9.
Proof.
  intros W. pose proof (nf_spec d W) as En. pose proof (wf_frac d W). rewrite ROUND_UP_spec in En by done. unfold spare. divlia.
Qed.

Lemma words_divide d : tight d → (10 ^ spare d | num (words d)).
Proof.
  intros T. pose proof (tg_wf d T) as W. pose proof (tg_last d T) as Hl. pose proof (length_frac_words d W) as HL.
  pose proof (spare_range d W) as Hs. fold (spare d) in Hl. assert (Hp : 0 < 10 ^ spare d) by (apply Z.pow_pos_nonneg; lia).
  destruct (nf d) as [|n] eqn:En.
  { assert (spare d = 0) as -> by (unfold spare in *; rewrite En in *; pose proof (wf_frac d W); lia). apply Z.divide_1_l. }
  destruct (snoc_view (frac_words d) n HL) as (l & w & E & Hn). rewrite E in Hl.
  replace (S n - 1)%nat with (length l) in Hl by lia. rewrite drop_app_length in Hl. apply Forall_inv in Hl.
  rewrite <- (take_drop (ni d) (words d)). fold (int_words d) (frac_words d). rewrite E, app_assoc, num_snoc.
  apply Z.divide_add_r; [|apply Z.mod_divide; [lia|done]]. apply Z.divide_mul_r.
  exists (10 ^ (9 - spare d)). unfold DIG_BASE. rewrite <- Z.pow_add_r by lia. by replace (9 - spare d + spare d) with 9 by lia.
Qed.

Lemma num_zero l : digits l → num l = 0 → l = replicate (length l) 0.
Proof.
  induction 1 as [|x l Hx Hl IH]; [done|]. rewrite num_cons. intros E. pose proof (num_bound l Hl). pose proof (base_pos (length l)).
  unfold digit in Hx. assert (x = 0 ∧ num l = 0) as [-> E0] by nia. cbn. by rewrite <- IH.
Qed.

(** Low words of a number that is divisible by a power of the base. *)
Lemma divisible_zeroes A L : digits L → (base (length L) | num (A ++ L)) → L = replicate (length L) 0.
Proof.
  intros D H. apply num_zero; [done|]. pose proof (num_bound L D). pose proof (base_pos (length L)).
  apply Z.mod_divide in H; [|lia]. rewrite num_app, Z.add_comm, Z.mod_add, Z.mod_small in H by lia. done.
Qed.

(** ** The decimal without zero words *)

Lemma ROUND_UP_9 n : ROUND_UP (9 * Z.of_nat n) = Z.of_nat n.
Proof. rewrite ROUND_UP_spec by lia. divlia. Qed.

Section trimmed.
Context (I Fr Y : list Z) (to to' : decimal_t) (I' Fr' : list Z) (z k : nat).
Context (H : trimmed I Fr to to' I' Fr' z k).
Context (Hbuf : buf to = I ++ Fr ++ Y) (Hlen : len to = Z.of_nat (length (buf to))).
Context (Hf : ROUND_UP (frac to) = Z.of_nat (length Fr)) (Hf0 : 0 ≤ frac to) (D : digits (I ++ Fr)).

Lemma trimmed_ni : ni to' = length I'.
Proof. unfold ni. rewrite (tr_intg _ _ _ _ _ _ _ _ H), ROUND_UP_9. lia. Qed.

Lemma trimmed_nf : nf to' = length Fr'.
Proof.
  unfold nf. rewrite (tr_digits _ _ _ _ _ _ _ _ H). destruct k as [|k'] eqn:Ek; cbn [Nat.eqb]; [|rewrite ROUND_UP_9; lia].
  rewrite Hf, (tr_frac _ _ _ _ _ _ _ _ H), app_nil_r. lia.
Qed.

Lemma trimmed_words : words to' = I' ++ Fr'.
Proof. unfold words. rewrite trimmed_ni, trimmed_nf. apply (tr_words _ _ _ _ _ _ _ _ H). Qed.

Lemma trimmed_num : num (I ++ Fr) = num (words to') * base k ∧ length Fr = (length Fr' + k)%nat.
Proof.
  rewrite trimmed_words, (tr_int _ _ _ _ _ _ _ _ H), (tr_frac _ _ _ _ _ _ _ _ H).
  rewrite <- app_assoc, num_app, num_zeroes, (app_assoc I' Fr'), (num_app (I' ++ Fr')), num_zeroes, !length_app, !length_replicate. split; lia.
Qed.

Lemma product_trimmed_digits : digits (I' ++ Fr').
Proof.
  rewrite (tr_int _ _ _ _ _ _ _ _ H), (tr_frac _ _ _ _ _ _ _ _ H) in D. apply Forall_app in D as [[_ DI]%Forall_app [DF _]%Forall_app].
  by apply Forall_app.
Qed.

Lemma trimmed_int_words : int_words to' = I'.
Proof. unfold int_words. by rewrite trimmed_words, trimmed_ni, take_app_length. Qed.

Lemma trimmed_frac_words : frac_words to' = Fr'.
Proof. unfold frac_words. by rewrite trimmed_words, trimmed_ni, drop_app_length. Qed.

Lemma trimmed_scale : frac to' = frac to ∨ frac to' = 9 * Z.of_nat (nf to') ∧ frac to' < frac to.
Proof.
  rewrite trimmed_nf, (tr_digits _ _ _ _ _ _ _ _ H). destruct (Nat.eqb_spec k 0); [by left|right]. split; [done|].
  pose proof trimmed_num as [_ EL]. rewrite ROUND_UP_spec in Hf by done. divlia.
Qed.

Lemma trimmed_wf : 0 < intg to' + frac to' → wf to'.
Proof.
  intros Hs. pose proof (tr_intg _ _ _ _ _ _ _ _ H) as Ei. pose proof (tr_digits _ _ _ _ _ _ _ _ H) as Ed.
  pose proof (tr_buf _ _ _ _ _ _ _ _ H) as Eb. pose proof (tr_words _ _ _ _ _ _ _ _ H) as Ew. apply (f_equal length) in Ew.
  rewrite length_take, length_app in Ew. split.
  - lia.
  - rewrite Ed. destruct (k =? 0)%nat; lia.
  - done.
  - rewrite (tr_len _ _ _ _ _ _ _ _ H), Eb. done.
  - rewrite trimmed_ni, trimmed_nf. lia.
  - rewrite trimmed_words. apply product_trimmed_digits.
Qed.

Lemma trimmed_tight :
  0 < intg to' + frac to' → 9 * Z.of_nat (length I) < 2 ^ 16 → (10 ^ (9 * Z.of_nat (length Fr) - frac to) | num (I ++ Fr)) → tight to'.
Proof.
  intros Hs HI Hdiv. pose proof (trimmed_wf Hs) as W. pose proof trimmed_num as [En EL]. pose proof product_trimmed_digits as D'. pose proof trimmed_words as Ew.
  assert (length I = (z + length I')%nat) by (rewrite (tr_int _ _ _ _ _ _ _ _ H), length_app, length_replicate; lia).
  pose proof trimmed_int_words as Ei. pose proof trimmed_frac_words as Ef.
  pose proof (tr_digits _ _ _ _ _ _ _ _ H) as Ed. pose proof (tr_intg _ _ _ _ _ _ _ _ H) as Eg. split; [done| | |].
  - rewrite trimmed_ni. lia.
  - rewrite Ei. apply Forall_take. apply Forall_app in D' as [DI _]. eapply list.Forall_impl; [exact DI|]. unfold digit, first_digits.
    rewrite trimmed_ni, Eg. intros x Hx. replace (9 * _ - _) with 9 by lia. unfold DIG_BASE in Hx. lia.
  - rewrite Ef, trimmed_nf, Ed. destruct k as [|k'] eqn:Ek; cbn [Nat.eqb].
    + destruct (length Fr') as [|n] eqn:HL; [apply length_zero_iff_nil in HL as ->; constructor|].
      destruct (snoc_view Fr' n HL) as (l & w & -> & Hn). replace (S n - 1)%nat with (length l) by lia. rewrite drop_app_length. constructor; [|constructor].
      rewrite Ew, base_0, Z.mul_1_r in En. rewrite En, app_assoc, num_snoc in Hdiv. rewrite EL, Nat.add_0_r in Hdiv.
      rewrite ROUND_UP_spec in Hf by done. set (q := 9 * Z.of_nat (S n) - frac to) in *. assert (Hq : 0 ≤ q < 9) by divlia.
      apply Z.mod_divide; [apply Z.pow_nonzero; lia|]. apply (Z.divide_add_cancel_r _ (num (I' ++ l) * DIG_BASE)); [|done].
      apply Z.divide_mul_r. exists (10 ^ (9 - q)). unfold DIG_BASE. rewrite <- Z.pow_add_r by lia. by replace (9 - q + q) with 9 by lia.
    + apply Forall_drop, list.Forall_forall. intros x _. rewrite Z.sub_diag. apply Z.mod_1_r.
Qed.
End trimmed.

(** ** The product *)

Lemma ROUND_UP_sum a b :
  0 ≤ a → 0 ≤ b → ROUND_UP a + ROUND_UP b - 1 ≤ ROUND_UP (a + b) ≤ ROUND_UP a + ROUND_UP b ∧ 0 ≤ ROUND_UP (a + b).
Proof. intros Ha Hb. rewrite !ROUND_UP_spec by lia. divlia. Qed.

Lemma pow10_words n : 0 ≤ n → 10 ^ n ≤ base (Z.to_nat (ROUND_UP n)).
Proof.
  intros Hn. unfold base, DIG_BASE. change 1000000000 with (10 ^ 9). rewrite <- Z.pow_mul_r by lia.
  apply Z.pow_le_mono_r; [lia|]. rewrite ROUND_UP_spec by done. divlia.
Qed.

(** The words of the result of [decimal_mul]. *)
Definition product_size (d1 d2 : decimal_t) : Z := ROUND_UP (intg d1 + intg d2) + ROUND_UP (frac d1) + ROUND_UP (frac d2).

(** The rows, when everything fits: the words of the product, in a buffer that starts with zeroes. *)
Lemma product_rows d1 d2 b :
  tight d1 → tight d2 → product_size d1 d2 ≤ Z.of_nat (length b) →
  let n0 := Z.to_nat (product_size d1 d2) in
  ∃ W, fill_up n0 0 b 0 = Some (replicate n0 0 ++ drop n0 b)
    ∧ mul_rows (ni d1 + nf d1) (buf d1) (Z.of_nat (ni d1 + nf d1) - 1) (replicate n0 0 ++ drop n0 b) (Z.of_nat n0 - 1)
        (ni d2 + nf d2) (buf d2) (Z.of_nat (ni d2 + nf d2) - 1) = Some (Done (W ++ drop n0 b))
    ∧ length W = n0 ∧ digits W ∧ num W = num (words d1) * num (words d2).
Proof.
  intros T1 T2 Hb n0. pose proof (tg_wf d1 T1) as W1. pose proof (tg_wf d2 T2) as W2.
  pose proof (ROUND_UP_sum (intg d1) (intg d2) (wf_intg d1 W1) (wf_intg d2 W2)) as HR.
  assert (Hn0 : n0 = (Z.to_nat (ROUND_UP (intg d1 + intg d2)) + (nf d1 + nf d2))%nat)
    by (unfold n0, product_size; rewrite !nf_spec by done; lia).
  assert (Hnb : (n0 ≤ length b)%nat) by (unfold n0; lia). clearbody n0. rewrite !ni_spec in HR by done.
  destruct (mul_rows_spec (words d1) (words d2) [] (drop (ni d1 + nf d1) (buf d1)) [] (drop (ni d2 + nf d2) (buf d2)) (replicate n0 0) (drop n0 b))
    as (W & E & HW & DW & En).
  - apply (wf_digits d1 W1).
  - apply (wf_digits d2 W2).
  - rewrite length_words by done. by apply words_some.
  - apply digits_zeroes.
  - rewrite length_replicate, !length_words by done. lia.
  - rewrite num_zeroes, length_replicate, Hn0, !base_add. pose proof (words_bound d1 T1) as B1. pose proof (words_bound d2 T2) as B2.
    pose proof (pow10_words (intg d1 + intg d2)) as Hp. rewrite Z.pow_add_r in Hp by (by apply wf_intg).
    pose proof (wf_intg d1 W1). pose proof (wf_intg d2 W2).
    pose proof (num_bound (words d1) (wf_digits d1 W1)). pose proof (num_bound (words d2) (wf_digits d2 W2)).
    pose proof (base_pos (nf d1)). pose proof (base_pos (nf d2)).
    assert (num (words d1) * num (words d2) < (10 ^ intg d1 * base (nf d1)) * (10 ^ intg d2 * base (nf d2))) by (apply Z.mul_lt_mono_nonneg; lia).
    assert (10 ^ intg d1 * 10 ^ intg d2 * (base (nf d1) * base (nf d2)) ≤ base (Z.to_nat (ROUND_UP (intg d1 + intg d2))) * (base (nf d1) * base (nf d2)))
      by (apply Z.mul_le_mono_nonneg_r; [nia|apply Hp; lia]). lia.
  - exists W. rewrite length_replicate in *. rewrite !length_words in E by done. cbn [app length Nat.add] in E. rewrite <- !buf_words in E.
    split_and!; [|exact E|done|done|by rewrite En, num_zeroes].
    rewrite <- (take_drop n0 b) at 1. change 0 with (Z.of_nat (length ([] : list Z))) at 2.
    rewrite <- (app_nil_l (take n0 b ++ _)), fill_up_spec by (rewrite length_take; lia). done.
Qed.

(** The words of a product, as integer part, the words of its declared digits and zeroes. *)
Lemma product_split d1 d2 W :
  tight d1 → tight d2 → length W = Z.to_nat (product_size d1 d2) → digits W → num W = num (words d1) * num (words d2) →
  let i0 := Z.to_nat (ROUND_UP (intg d1 + intg d2)) in
  let f0 := Z.to_nat (ROUND_UP (frac d1 + frac d2)) in
  let K := (nf d1 + nf d2)%nat in
  ∃ I Fr, W = I ++ Fr ++ replicate (K - f0) 0 ∧ length I = i0 ∧ length Fr = f0 ∧ (f0 ≤ K)%nat
    ∧ (10 ^ (9 * Z.of_nat f0 - (frac d1 + frac d2)) | num (I ++ Fr)) ∧ num W = num (I ++ Fr) * base (K - f0).
Proof.
  intros T1 T2 HL D En i0 f0 K. pose proof (tg_wf d1 T1) as W1. pose proof (tg_wf d2 T2) as W2.
  pose proof (wf_frac d1 W1). pose proof (wf_frac d2 W2). pose proof (wf_intg d1 W1). pose proof (wf_intg d2 W2).
  pose proof (spare_range d1 W1) as S1. pose proof (spare_range d2 W2) as S2.
  pose proof (ROUND_UP_sum (intg d1) (intg d2)) as HR. pose proof (ROUND_UP_sum (frac d1) (frac d2)) as HF.
  rewrite !nf_spec in HF by done.
  assert (HK : (f0 ≤ K)%nat) by lia. assert (HW : length W = (i0 + K)%nat) by (rewrite HL; unfold product_size; rewrite !nf_spec by done; lia).
  assert (Hf0 : 9 * Z.of_nat f0 - 8 ≤ frac d1 + frac d2 ≤ 9 * Z.of_nat f0) by (unfold f0; rewrite ROUND_UP_spec by lia; divlia).
  assert (Hdiv : (10 ^ (spare d1 + spare d2) | num W)).
  { rewrite En, Z.pow_add_r by lia. destruct (words_divide d1 T1) as [a ->], (words_divide d2 T2) as [b ->].
    exists (a * b). ring. }
  set (I := take i0 W). set (Fr := take f0 (drop i0 W)). set (Y := drop f0 (drop i0 W)).
  assert (EW : W = I ++ Fr ++ Y) by (unfold I, Fr, Y; by rewrite !take_drop).
  assert (HY : length Y = (K - f0)%nat) by (unfold Y; rewrite !length_drop; lia).
  assert (DY : digits Y) by (by apply Forall_drop, Forall_drop).
  assert (EY : Y = replicate (K - f0) 0).
  { rewrite <- HY. apply (divisible_zeroes (I ++ Fr)); [done|]. rewrite <- app_assoc, <- EW. etransitivity; [|exact Hdiv].
    rewrite HY. unfold base, DIG_BASE. change 1000000000 with (10 ^ 9). rewrite <- Z.pow_mul_r by lia.
    exists (10 ^ (spare d1 + spare d2 - 9 * Z.of_nat (K - f0))). unfold spare in *. rewrite <- Z.pow_add_r by lia. f_equal. lia. }
  assert (Enum : num W = num (I ++ Fr) * base (K - f0)).
  { rewrite EW, app_assoc, num_app, EY, num_zeroes, length_replicate. lia. }
  exists I, Fr. split_and!; [by rewrite <- EY|unfold I; rewrite length_take; lia|unfold Fr; rewrite length_take, length_drop; lia|done| |done].
  pose proof (base_pos (K - f0)). apply (Z.mul_divide_cancel_r _ _ (base (K - f0))); [lia|]. rewrite <- Enum. etransitivity; [|exact Hdiv].
  unfold base, DIG_BASE. change 1000000000 with (10 ^ 9). rewrite <- Z.pow_mul_r, <- Z.pow_add_r by lia.
  exists 1. rewrite Z.mul_1_l. f_equal. unfold spare. lia.
Qed.

Lemma mant_words F d : length (words d) = (ni d + nf d)%nat → (nf d ≤ F)%nat → mant_at F d = num (words d) * base (F - nf d).
Proof.
  intros HL HF. unfold mant_at, words_at. rewrite take_app, take_ge, HL, take_replicate by lia.
  replace (Nat.min _ _) with (F - nf d)%nat by lia. rewrite num_app, num_zeroes, length_replicate. lia.
Qed.

Lemma value_words d : wf d → value_at (nf d) d = (if sign d then -1 else 1) * num (words d).
Proof. intros W. unfold value_at. rewrite mant_words, Nat.sub_diag, base_0 by (try done; by apply length_words). lia. Qed.

(** What a product is: its value at [K] words of fraction is [v]; it is a decimal with the digits it
    declares, or has no digits at all (a product that is 0); its integer part has no zero word in front
    unless it is a single word, and its fraction no zero word at the end; it declares [fr] digits of fraction,
    or fewer in whole words; it has no negative zero. *)
Record product (K : nat) (v fr n : Z) (to' : decimal_t) : Prop := {
  pr_value : value_at K to' = v;
  pr_tight : tight to' ∨ intg to' = 0 ∧ frac to' = 0 ∧ v = 0;
  pr_head : head (int_words to') = Some 0 → (ni to' ≤ 1)%nat;
  pr_last : list.last (frac_words to') ≠ Some 0;
  pr_scale : frac to' = fr ∨ frac to' = 9 * Z.of_nat (nf to') ∧ frac to' < fr;
  pr_sign : sign to' = true → v ≠ 0;
  pr_len : len to' = n;
}.

Lemma zero_product K fr to b :
  buffer to → 0 ≤ fr → S (length b) = length (buf to) → product K 0 fr (len to) (no_sign_zero to (0 :: b)).
Proof.
  intros [Hlen Hb] Hfr HL. set (d := no_sign_zero to (0 :: b)).
  assert (W : wf d) by (split; unfold d, no_sign_zero; cbn [intg frac len sign buf length]; try done; [lia|change (1 + 0 ≤ S (length b))%nat; lia|by repeat constructor]).
  split; [|left|done|done|change (0 = fr ∨ 0 = 0 ∧ 0 < fr); lia|done|done].
  - unfold value_at. rewrite mant_words; [done|by apply length_words|change (0 ≤ K)%nat; lia].
  - split; [done|done|by repeat constructor|constructor].
Qed.

Lemma trimmed_product K I Fr Y to to' I' Fr' z k :
  trimmed I Fr to to' I' Fr' z k → buf to = I ++ Fr ++ Y → buffer to → ROUND_UP (frac to) = Z.of_nat (length Fr) → 0 ≤ frac to →
  digits (I ++ Fr) → (length Fr ≤ K)%nat → (10 ^ (9 * Z.of_nat (length Fr) - frac to) | num (I ++ Fr)) →
  product K ((if sign to then -1 else 1) * (num (I ++ Fr) * base (K - length Fr))) (frac to) (len to) to'.
Proof.
  intros H Eb [Hlen Hbuf] Ef Hf D HK Hdiv. destruct (trimmed_num I Fr to to' I' Fr' z k H Ef) as [En EL].
  pose proof (trimmed_words I Fr to to' I' Fr' z k H Ef) as Ew. pose proof (trimmed_nf I Fr to to' I' Fr' z k H Ef) as Enf.
  pose proof (tr_sign _ _ _ _ _ _ _ _ H) as Es. pose proof (product_trimmed_digits I Fr to to' I' Fr' z k H D) as D'.
  pose proof (tr_intg _ _ _ _ _ _ _ _ H) as Eg. pose proof (tr_digits _ _ _ _ _ _ _ _ H) as Ed.
  assert (Hpos : 0 ≤ intg to' ∧ 0 ≤ frac to') by (rewrite Eg, Ed; destruct (k =? 0)%nat; lia).
  assert (HI : 9 * Z.of_nat (length I) < 2 ^ 16) by (apply (f_equal length) in Eb; rewrite length_app in Eb; lia).
  assert (Ev : mant_at K to' = num (I ++ Fr) * base (K - length Fr)).
  { rewrite mant_words, En, Enf.
    - replace (K - length Fr')%nat with (k + (K - length Fr))%nat by lia. rewrite base_add. ring.
    - rewrite Ew, Enf, (trimmed_ni I Fr to to' I' Fr' z k H). by rewrite length_app.
    - lia. }
  split.
  - unfold value_at. by rewrite Es, Ev.
  - destruct (decide (0 < intg to' + frac to')) as [Hs|Hs]; [left; by eapply trimmed_tight|right].
    split_and!; [lia..|]. rewrite En, Ew. apply Z.mul_eq_0. right. rewrite !Z.mul_eq_0. do 2 left.
    rewrite ROUND_UP_spec in Ef by done. destruct I' as [|? I'], Fr' as [|? Fr']; cbn [length] in *; [done| |lia..].
    rewrite Ed in Hs. destruct (k =? 0)%nat; cbn [length] in *; divlia.
  - rewrite (trimmed_int_words I Fr to to' I' Fr' z k H Ef), (trimmed_ni I Fr to to' I' Fr' z k H).
    apply (tr_head _ _ _ _ _ _ _ _ H).
  - rewrite (trimmed_frac_words I Fr to to' I' Fr' z k H Ef). apply (tr_last _ _ _ _ _ _ _ _ H).
  - by apply (trimmed_scale I Fr to to' I' Fr' z k H).
  - rewrite Es. intros E. rewrite E in Es. destruct (tr_zero _ _ _ _ _ _ _ _ H Es) as (w & Hw & Hne).
    rewrite E. rewrite En, Ew. intros Hz. assert (num (I' ++ Fr') = 0) as E0.
    { pose proof (base_pos k). pose proof (base_pos (K - length Fr)). pose proof (num_bound _ D'). nia. }
    rewrite (num_zero _ D' E0) in Hw. apply elem_of_replicate in Hw as [-> _]. done.
  - apply (tr_len _ _ _ _ _ _ _ _ H).
Qed.

(** The rows are multiplied without truncation; what remains is to trim the result. *)
Lemma mul_untruncated d1 d2 to :
  tight d1 → tight d2 → buffer to → product_size d1 d2 ≤ len to →
  let n0 := Z.to_nat (product_size d1 d2) in
  ∃ W, length W = n0 ∧ digits W ∧ num W = num (words d1) * num (words d2) ∧ (n0 ≤ length (buf to))%nat
    ∧ decimal_mul d1 d2 to
      = to ← mul_trim (mk_decimal (ROUND_UP (intg d1 + intg d2) * DIG_PER_DEC1) (frac d1 + frac d2) (len to)
                         (negb (eqb (sign d1) (sign d2))) (W ++ drop n0 (buf to))) (ROUND_UP (intg d1 + intg d2));
        Some (to, E_DEC_OK).
Proof.
  intros T1 T2 [Hlen Hb] Hsz n0. pose proof (tg_wf d1 T1) as W1. pose proof (tg_wf d2 T2) as W2.
  pose proof (ROUND_UP_sum (intg d1) (intg d2) (wf_intg d1 W1) (wf_intg d2 W2)) as HR.
  rewrite Hlen in Hsz. destruct (product_rows d1 d2 (buf to) T1 T2 Hsz) as (W & E1 & E2 & HW & DW & En). fold n0 in E1, E2, HW.
  exists W. split_and!; [done..|unfold n0; lia|].
  assert (Hn0 : Z.of_nat n0 = ROUND_UP (intg d1 + intg d2) + (Z.of_nat (nf d1) + Z.of_nat (nf d2))) by (unfold n0, product_size; rewrite !nf_spec by done; lia).
  unfold product_size in Hsz. rewrite !nf_spec in Hsz by done. clearbody n0.
  assert (Hu : u16 (frac d1 + frac d2) = frac d1 + frac d2).
  { pose proof (spare_range d1 W1). pose proof (spare_range d2 W2). pose proof (wf_frac d1 W1). pose proof (wf_frac d2 W2).
    unfold spare, u16 in *. apply Z.mod_small. lia. }
  unfold decimal_mul. rewrite Hu, !nf_spec, !ni_spec by done. unfold FIX_INTG_FRAC_ERROR. rewrite (proj2 (Z.ltb_ge _ _)) by (rewrite Hlen; lia).
  replace (negb (E_DEC_OK =? E_DEC_OK)) with false by done. replace (Z.to_nat (_ + (_ + _))) with n0 by lia. rewrite E1. cbn [mbind option_bind].
  replace (Z.to_nat (Z.of_nat (ni d1) + Z.of_nat (nf d1))) with (ni d1 + nf d1)%nat by lia.
  replace (Z.to_nat (Z.of_nat (ni d2) + Z.of_nat (nf d2))) with (ni d2 + nf d2)%nat by lia.
  rewrite <- !Nat2Z.inj_add. replace (ROUND_UP (intg d1 + intg d2) + Z.of_nat (nf d1 + nf d2) - 1) with (Z.of_nat n0 - 1) by lia.
  rewrite E2. reflexivity.
Qed.

(** C9. For two decimals that have only the digits they declare, when all words of their product fit in the result,
    [decimal_mul] returns [E_DEC_OK] and the result is the exact product, with its sign. Zero words are removed: there is none in
    front of the integer part unless it is the only word, and none at the end of the fraction, whose declared digits are
    those of both fractions or, after a removal, the whole words that remain. No product is a negative zero. *)
Theorem decimal_mul_exact d1 d2 to :
  tight d1 → tight d2 → buffer to → product_size d1 d2 ≤ len to →
  ∃ to', decimal_mul d1 d2 to = Some (to', E_DEC_OK)
    ∧ product (nf d1 + nf d2) (value_at (nf d1) d1 * value_at (nf d2) d2) (frac d1 + frac d2) (len to) to'.
Proof.
  intros T1 T2 Hbuf Hsz. pose proof Hbuf as [Hlen Hb]. pose proof (tg_wf d1 T1) as W1. pose proof (tg_wf d2 T2) as W2.
  pose proof (wf_intg d1 W1). pose proof (wf_intg d2 W2). pose proof (wf_frac d1 W1). pose proof (wf_frac d2 W2). pose proof (wf_some d1 W1).
  destruct (mul_untruncated d1 d2 to T1 T2 Hbuf Hsz) as (W & HW & DW & En & Hnb & ->).
  destruct (product_split d1 d2 W T1 T2 HW DW En) as (I & Fr & EW & HI & HFr & HK & Hdiv & EnW).
  pose proof (ROUND_UP_sum (intg d1) (intg d2) ltac:(done) ltac:(done)) as HR. pose proof (ROUND_UP_sum (frac d1) (frac d2) ltac:(done) ltac:(done)) as HF.
  set (K := (nf d1 + nf d2)%nat) in *. set (n0 := Z.to_nat (product_size d1 d2)) in *. set (to1 := mk_decimal _ _ _ _ _).
  assert (Eb1 : buf to1 = I ++ Fr ++ (replicate (K - Z.to_nat (ROUND_UP (frac d1 + frac d2))) 0 ++ drop n0 (buf to)))
    by (cbn [to1 buf]; by rewrite EW, <- !app_assoc).
  assert (Hl1 : length (buf to1) = length (buf to)) by (cbn [to1 buf]; rewrite length_app, length_drop, HW; lia).
  replace (ROUND_UP (intg d1 + intg d2)) with (Z.of_nat (length I)) by lia.
  assert (D1 : digits (I ++ Fr)) by (rewrite EW, app_assoc in DW; by apply Forall_app in DW as [DW _]).
  assert (Evalue : value_at (nf d1) d1 * value_at (nf d2) d2 = (if sign to1 then -1 else 1) * (num (I ++ Fr) * base (K - length Fr))).
  { rewrite !value_words by done. rewrite HFr, <- EnW, En. cbn [to1 sign]. destruct (sign d1), (sign d2); cbn [eqb negb]; ring. }
  destruct (mul_trim_spec I Fr _ to1 Eb1) as (to' & -> & Hcase).
  - cbn [to1 intg]. unfold DIG_PER_DEC1. lia.
  - cbn [to1 frac]. lia.
  - cbn [to1 frac]. lia.
  - intros E0. apply (f_equal length) in E0. rewrite length_app in E0. cbn in E0.
    assert (0 < ROUND_UP (intg d1 + intg d2) + ROUND_UP (frac d1 + frac d2)) by (rewrite !ROUND_UP_spec by lia; divlia). lia.
  - exists to'. split; [done|]. rewrite Evalue. destruct Hcase as [(I' & Fr' & z & k & H')|(E0 & b & -> & HLb)].
    + apply (trimmed_product K I Fr _ to1 to' I' Fr' z k H' Eb1); [by split; [rewrite Hl1|]|cbn [to1 frac]; lia|cbn [to1 frac]; lia|done|lia|by rewrite HFr].
    + rewrite E0, Z.mul_0_l, Z.mul_0_r. apply (zero_product K _ to1 b); [by split; [rewrite Hl1|]|lia|done].
Qed.
