(* ===== verification/DecimalInt.v ===== *)
(** * Decimals and integers

    Integers become decimals of the same value, and decimals the integers that remain
    when the fraction is cut off, or the nearest one and an error. *)

From S2P Require Import Prelude MyBit Decimal DecimalFacts DecimalAdd DecimalMul DecimalWrite.

#[local] Open Scope Z_scope.

(** ** Reading the words *)

(** [intg] digits are in the words [l]; less than one for no words. *)
Definition digits_in (intg : Z) (l : list Z) : Prop := 9 * Z.of_nat (length l) - 9 < intg ≤ 9 * Z.of_nat (length l).

Lemma digits_in_cons intg w l : digits_in intg (w :: l) → 0 < intg ∧ digits_in (intg - DIG_PER_DEC1) l.
Proof. unfold digits_in, DIG_PER_DEC1. cbn [length]. lia. Qed.

Lemma digits_in_nil intg : digits_in intg [] → (0 <? intg) = false.
Proof. unfold digits_in. cbn. intros ?. apply Z.ltb_ge. lia. Qed.

Lemma ull_words_spec fuel X l Y intg x :
  digits l → digits_in intg l → (length l < fuel)%nat → 0 ≤ x ≤ ULONGLONG_MAX →
  ull_words fuel (X ++ l ++ Y) intg (Z.of_nat (length X)) x
  = Some (if x * base (length l) + num l <=? ULONGLONG_MAX then Some (Z.of_nat (length X + length l), x * base (length l) + num l) else None).
Proof.
  intros D. revert fuel X intg x. induction D as [|w l Hw D IH]; intros fuel X intg x Hi Hf Hx; (destruct fuel as [|fuel]; [cbn in Hf; lia|]); cbn [ull_words].
  - rewrite (digits_in_nil _ Hi). cbn [length num]. rewrite base_0, Z.mul_1_r, Z.add_0_r, Nat.add_0_r.
    by rewrite (proj2 (Z.leb_le _ _)) by lia.
  - destruct (digits_in_cons intg w l Hi) as (Hpos & Hnext). rewrite (proj2 (Z.ltb_lt _ _)) by done.
    cbn [app]. rewrite rd_app. cbn [mbind option_bind]. cbn [length]. rewrite base_S, num_cons.
    pose proof (num_bound l D) as Bl. pose proof (base_pos (length l)) as Bp. unfold digit in Hw.
    assert (Hc : (ULONGLONG_MAX / DIG_BASE <=? x) && ((ULONGLONG_MAX / DIG_BASE <? x) || (ULONGLONG_MAX mod DIG_BASE <? w))
      = negb (x * DIG_BASE + w <=? ULONGLONG_MAX)).
    { unfold ULONGLONG_MAX, DIG_BASE in *. change ((2 ^ 64 - 1) / 1000000000) with 18446744073. change ((2 ^ 64 - 1) mod 1000000000) with 709551615.
      destruct (Z.leb_spec 18446744073 x), (Z.ltb_spec 18446744073 x), (Z.ltb_spec 709551615 w), (Z.leb_spec (x * 1000000000 + w) (2 ^ 64 - 1)); cbn; lia. }
    rewrite Hc. destruct (Z.leb_spec (x * DIG_BASE + w) ULONGLONG_MAX) as [Hle|Hgt]; cbn [negb].
    + rewrite (u64_small w), u64_small by (unfold ULONGLONG_MAX, DIG_BASE in *; lia).
      replace (X ++ w :: l ++ Y) with ((X ++ [w]) ++ l ++ Y) by (by rewrite <- app_assoc).
      replace (Z.of_nat (length X) + 1) with (Z.of_nat (length (X ++ [w]))) by (rewrite length_app; cbn; lia).
      rewrite IH by (try done; cbn in Hf; lia). rewrite length_app. cbn [length].
      replace ((x * DIG_BASE + w) * base (length l) + num l) with (x * (DIG_BASE * base (length l)) + (w * base (length l) + num l)) by ring.
      by replace (length X + 1 + length l)%nat with (length X + S (length l))%nat by lia.
    + rewrite (proj2 (Z.leb_gt _ _)); [done|].
      assert ((x * DIG_BASE + w) * 1 ≤ (x * DIG_BASE + w) * base (length l)) by (apply Z.mul_le_mono_nonneg_l; unfold DIG_BASE in *; lia). lia.
Qed.

Lemma ll_words_spec fuel X l Y intg x :
  digits l → digits_in intg l → (length l < fuel)%nat → LONGLONG_MIN ≤ - x ≤ 0 →
  ll_words fuel (X ++ l ++ Y) intg (Z.of_nat (length X)) (- x)
  = Some (if x * base (length l) + num l <=? 2 ^ 63 then Some (Z.of_nat (length X + length l), - (x * base (length l) + num l)) else None).
Proof.
  intros D. revert fuel X intg x. induction D as [|w l Hw D IH]; intros fuel X intg x Hi Hf Hx; (destruct fuel as [|fuel]; [cbn in Hf; lia|]); cbn [ll_words].
  - rewrite (digits_in_nil _ Hi). cbn [length num]. rewrite base_0, Z.mul_1_r, Z.add_0_r, Nat.add_0_r.
    by rewrite (proj2 (Z.leb_le _ _)) by (unfold LONGLONG_MIN in Hx; lia).
  - destruct (digits_in_cons intg w l Hi) as (Hpos & Hnext). rewrite (proj2 (Z.ltb_lt _ _)) by done.
    cbn [app]. rewrite rd_app. cbn [mbind option_bind]. cbn [length]. rewrite base_S, num_cons.
    pose proof (num_bound l D) as Bl. pose proof (base_pos (length l)) as Bp. unfold digit in Hw.
    assert (Hc : (- x <=? Z.quot LONGLONG_MIN DIG_BASE) && ((- x <? Z.quot LONGLONG_MIN DIG_BASE) || (- Z.rem LONGLONG_MIN DIG_BASE <? w))
      = negb (x * DIG_BASE + w <=? 2 ^ 63)).
    { unfold LONGLONG_MIN, DIG_BASE in *. change (Z.quot (- 2 ^ 63) 1000000000) with (- 9223372036). change (- Z.rem (- 2 ^ 63) 1000000000) with 854775808.
      destruct (Z.leb_spec (- x) (- 9223372036)), (Z.ltb_spec (- x) (- 9223372036)), (Z.ltb_spec 854775808 w), (Z.leb_spec (x * 1000000000 + w) (2 ^ 63)); cbn; lia. }
    rewrite Hc. destruct (Z.leb_spec (x * DIG_BASE + w) (2 ^ 63)) as [Hle|Hgt]; cbn [negb].
    + rewrite i64_ok by (unfold LONGLONG_MIN, DIG_BASE in *; lia). cbn [mbind option_bind].
      rewrite i64_ok by (unfold LONGLONG_MIN, DIG_BASE in *; lia). cbn [mbind option_bind].
      replace (- x * DIG_BASE - w) with (- (x * DIG_BASE + w)) by ring.
      replace (X ++ w :: l ++ Y) with ((X ++ [w]) ++ l ++ Y) by (by rewrite <- app_assoc).
      replace (Z.of_nat (length X) + 1) with (Z.of_nat (length (X ++ [w]))) by (rewrite length_app; cbn; lia).
      rewrite IH by (try done; cbn in Hf; unfold LONGLONG_MIN, DIG_BASE in *; lia). rewrite length_app. cbn [length].
      replace ((x * DIG_BASE + w) * base (length l) + num l) with (x * (DIG_BASE * base (length l)) + (w * base (length l) + num l)) by ring.
      by replace (length X + 1 + length l)%nat with (length X + S (length l))%nat by lia.
    + rewrite (proj2 (Z.leb_gt _ _)); [done|].
      assert ((x * DIG_BASE + w) * 1 ≤ (x * DIG_BASE + w) * base (length l)) by (apply Z.mul_le_mono_nonneg_l; unfold DIG_BASE in *; lia). lia.
Qed.

(** The rest is cut off; the error says whether it was 0. *)
Lemma frac_error_spec fuel X l Y frac :
  digits l → digits_in frac l → (length l < fuel)%nat →
  frac_error fuel (X ++ l ++ Y) frac (Z.of_nat (length X)) = Some (if num l =? 0 then E_DEC_OK else E_DEC_TRUNCATED).
Proof.
  intros D. revert fuel X frac. induction D as [|w l Hw D IH]; intros fuel X frac Hi Hf; (destruct fuel as [|fuel]; [cbn in Hf; lia|]); cbn [frac_error].
  - by rewrite (digits_in_nil _ Hi).
  - destruct (digits_in_cons frac w l Hi) as (Hpos & Hnext). rewrite (proj2 (Z.ltb_lt _ _)) by done.
    cbn [app]. rewrite rd_app. cbn [mbind option_bind]. rewrite num_cons. pose proof (num_bound l D) as Bl. pose proof (base_pos (length l)) as Bp.
    unfold digit in Hw. destruct (Z.eqb_spec w 0) as [->|Hw0].
    + replace (X ++ 0 :: l ++ Y) with ((X ++ [0]) ++ l ++ Y) by (by rewrite <- app_assoc).
      replace (Z.of_nat (length X) + 1) with (Z.of_nat (length (X ++ [0]))) by (rewrite length_app; cbn; lia).
      rewrite IH by (try done; cbn in Hf; lia). by rewrite Z.mul_0_l, Z.add_0_l.
    + rewrite (proj2 (Z.eqb_neq _ _)); [done|nia].
Qed.

(** ** Decimals to integers *)

Lemma int_words_in d : wf d → digits_in (intg d) (int_words d) ∧ (length (int_words d) < S (Z.to_nat (intg d)))%nat.
Proof.
  intros W. unfold digits_in. rewrite length_int_words by done. pose proof (ni_spec d W) as E. pose proof (wf_intg d W).
  rewrite ROUND_UP_spec in E by done. split; divlia.
Qed.

Lemma frac_words_in d : wf d → digits_in (frac d) (frac_words d) ∧ (length (frac_words d) < S (Z.to_nat (frac d)))%nat.
Proof.
  intros W. unfold digits_in. rewrite length_frac_words by done. pose proof (nf_spec d W) as E. pose proof (wf_frac d W).
  rewrite ROUND_UP_spec in E by done. split; divlia.
Qed.

(** The error for a fraction that is cut off. *)
Definition cut_error (d : decimal_t) : Z := if num (frac_words d) =? 0 then E_DEC_OK else E_DEC_TRUNCATED.

Lemma cut_error_spec d : wf d →
  frac_error (S (Z.to_nat (frac d))) (buf d) (frac d) (Z.of_nat (length (int_words d))) = Some (cut_error d).
Proof.
  intros W. destruct (frac_words_in d W) as [Hi Hf]. rewrite buf_parts. rewrite frac_error_spec by (try done; by apply digits_frac_words). done.
Qed.

(** The integer nearest to [v] between [lo] and [hi], and the error. *)
Definition clamp (lo hi v e : Z) : Z * Z :=
  if v <? lo then (lo, E_DEC_OVERFLOW) else if hi <? v then (hi, E_DEC_OVERFLOW) else (v, e).

Lemma decimal2longlong_spec d : wf d →
  decimal2longlong d = Some (clamp LONGLONG_MIN LONGLONG_MAX ((if sign d then -1 else 1) * num (int_words d)) (cut_error d)).
Proof.
  intros W. destruct (int_words_in d W) as [Hi Hf]. assert (D : digits (int_words d)) by (by apply digits_int_words).
  pose proof (num_bound _ D) as B. unfold decimal2longlong.
  pose proof (ll_words_spec (S (Z.to_nat (intg d))) [] (int_words d) (frac_words d ++ drop (ni d + nf d) (buf d)) (intg d) 0 D Hi Hf) as E.
  cbn [app length Nat.add] in E. change (Z.of_nat 0) with 0 in E. change (- 0) with 0 in E. rewrite <- buf_parts, Z.mul_0_l, Z.add_0_l in E.
  rewrite E by (unfold LONGLONG_MIN; lia). cbn [mbind option_bind]. unfold clamp, LONGLONG_MIN, LONGLONG_MAX.
  set (v := num (int_words d)) in *. destruct (Z.leb_spec v (2 ^ 63)) as [Hle|Hgt].
  - rewrite cut_error_spec by done. destruct (sign d); cbn [negb andb].
    + rewrite !(proj2 (Z.ltb_ge _ _)) by lia. cbn [mbind option_bind]; repeat f_equal; lia.
    + destruct (Z.eqb_spec (- v) (- 2 ^ 63)).
      * rewrite (proj2 (Z.ltb_ge _ _)), (proj2 (Z.ltb_lt _ _)) by lia. done.
      * rewrite i64_ok, !(proj2 (Z.ltb_ge _ _)) by lia. cbn [mbind option_bind]; repeat f_equal; lia.
  - destruct (sign d).
    + by rewrite (proj2 (Z.ltb_lt _ _)) by lia.
    + by rewrite (proj2 (Z.ltb_ge _ _)), (proj2 (Z.ltb_lt _ _)) by lia.
Qed.

Lemma decimal2ulonglong_spec d : wf d →
  decimal2ulonglong d = Some (if sign d then (0, E_DEC_OVERFLOW) else clamp 0 ULONGLONG_MAX (num (int_words d)) (cut_error d)).
Proof.
  intros W. destruct (int_words_in d W) as [Hi Hf]. assert (D : digits (int_words d)) by (by apply digits_int_words).
  pose proof (num_bound _ D) as B. unfold decimal2ulonglong. destruct (sign d); [done|].
  pose proof (ull_words_spec (S (Z.to_nat (intg d))) [] (int_words d) (frac_words d ++ drop (ni d + nf d) (buf d)) (intg d) 0 D Hi Hf) as E.
  cbn [app length Nat.add] in E. change (Z.of_nat 0) with 0 in E. rewrite <- buf_parts, Z.mul_0_l, Z.add_0_l in E.
  rewrite E by (unfold ULONGLONG_MAX; lia). cbn [mbind option_bind]. unfold clamp, ULONGLONG_MAX in *.
  rewrite (proj2 (Z.ltb_ge _ 0)) by lia. destruct (Z.leb_spec (num (int_words d)) (2 ^ 64 - 1)).
  - by rewrite cut_error_spec, (proj2 (Z.ltb_ge _ _)) by (done || lia).
  - by rewrite (proj2 (Z.ltb_lt _ _)) by lia.
Qed.

(** ** Integers to decimals *)

Lemma count_words_spec fuel k x :
  0 < x < base fuel →
  ∃ m, count_words (S fuel) k x = Some (k + Z.of_nat m, x / base m) ∧ (m < fuel)%nat ∧ 1 ≤ x / base m < DIG_BASE.
Proof.
  revert k x. induction fuel as [|fuel IH]; intros k x Hx; [rewrite base_0 in Hx; lia|]. cbn [count_words].
  destruct (Z.leb_spec DIG_BASE x) as [Hle|Hlt].
  - rewrite base_S in Hx. destruct (IH (k + 1) (x / DIG_BASE)) as (m & E & Hm & Hr).
    { split; [apply Z.div_str_pos; unfold DIG_BASE in *; lia|]. apply Z.div_lt_upper_bound; [done|lia]. }
    exists (S m). pose proof (base_pos m). cbn [count_words] in E. rewrite E, base_S, <- Z.div_div by (unfold DIG_BASE; lia). split_and!; [|lia|lia|lia].
    f_equal. f_equal. lia.
  - exists 0%nat. rewrite base_0, Z.div_1_r. split_and!; [f_equal; f_equal; lia|lia|lia|lia].
Qed.

Lemma count_digits_spec b fuel k x :
  0 ≤ x < 10 ^ Z.of_nat b → (b < fuel)%nat →
  ∃ n, count_digits fuel k x = Some (k + Z.of_nat n) ∧ (n ≤ b)%nat ∧ x < 10 ^ Z.of_nat n ∧ (0 < x → (0 < n)%nat).
Proof.
  revert fuel k x. induction b as [|b IH]; intros [|fuel] k x Hx Hf; try lia; cbn [count_digits].
  { assert (x = 0) as -> by (cbn in Hx; lia). exists 0%nat. split_and!; [f_equal; lia|lia|done|lia]. }
  destruct (Z.eqb_spec x 0) as [->|Hx0]; [exists 0%nat; split_and!; [f_equal; lia|lia|done|lia]|].
  rewrite Nat2Z.inj_succ, Z.pow_succ_r in Hx by lia.
  destruct (IH fuel (k + 1) (x / 10)) as (n & E & Hn & Hlt & _); [split; [apply Z.div_pos; lia|apply Z.div_lt_upper_bound; lia]|lia|].
  exists (S n). rewrite E. split_and!; [f_equal; lia|lia| |lia].
  rewrite Nat2Z.inj_succ, Z.pow_succ_r by lia. pose proof (Z.div_mod x 10 ltac:(lia)). pose proof (Z.mod_pos_bound x 10 ltac:(lia)). lia.
Qed.

Lemma put_words_spec n b R x :
  (n ≤ length b)%nat → 0 ≤ x < base n →
  ∃ W, put_words n (take n b ++ R) (Z.of_nat n) x = Some (W ++ R) ∧ length W = n ∧ digits W ∧ num W = x.
Proof.
  revert R x. induction n as [|n IH]; intros R x Hn Hx.
  { exists []. rewrite base_0 in Hx. split_and!; [done|done|constructor|cbn; lia]. }
  cbn [put_words]. replace (Z.of_nat (S n) - 1) with (Z.of_nat n) by lia. rewrite base_S in Hx.
  pose proof (Z.div_mod x DIG_BASE ltac:(done)). pose proof (Z.mod_pos_bound x DIG_BASE ltac:(done)).
  rewrite wr_take by lia. cbn [mbind option_bind]. rewrite s32_small by (unfold DIG_BASE in *; lia).
  destruct (IH ((x - x / DIG_BASE * DIG_BASE) :: R) (x / DIG_BASE)) as (W & E & HL & HD & HN);
    [lia|split; [apply Z.div_pos; lia || done|apply Z.div_lt_upper_bound; lia || done]|].
  exists (W ++ [x - x / DIG_BASE * DIG_BASE]). rewrite E, <- app_assoc, length_app, num_snoc, HN, HL.
  split_and!; [done|cbn; lia| |lia]. apply Forall_app. split; [done|]. repeat constructor; lia.
Qed.

(** ** Both ways *)

Lemma value_at_0 d : wf d → value_at 0 d = (if sign d then -1 else 1) * num (int_words d).
Proof.
  intros W. unfold value_at, mant_at, int_words. by rewrite words_at_le, Nat.add_0_r by (done || lia).
Qed.

(** A decimal that is the integer [v], exactly and without leading zeroes. *)
Record integral (v : Z) (d : decimal_t) : Prop := {
  il_tight : tight d;
  il_frac : frac d = 0;
  il_value : value_at 0 d = v;
}.

Lemma integral_words m n x (s : bool) w W R :
  (1 ≤ n ≤ 9)%nat → (m < 3)%nat → length W = m → digits (w :: W) → w < 10 ^ Z.of_nat n → num (w :: W) = x →
  integral ((if s then -1 else 1) * x) (mk_decimal (Z.of_nat m * 9 + Z.of_nat n) 0 (Z.of_nat (length ((w :: W) ++ R))) s ((w :: W) ++ R)).
Proof.
  intros Hn Hm HL HD Hw Hx. set (d := mk_decimal _ _ _ _ _).
  assert (Ei : ni d = S m) by (unfold ni, d; cbn [intg]; rewrite ROUND_UP_spec by lia; divlia).
  assert (Ef : nf d = 0%nat) by done.
  assert (Ew : words d = w :: W).
  { unfold words. rewrite Ei, Ef, Nat.add_0_r, <- HL. apply (take_app_length (w :: W)). }
  assert (Wf : wf d).
  { split; rewrite ?Ei, ?Ef, ?Ew; unfold d; cbn [intg frac len buf]; [lia|lia|lia|done|rewrite length_app; cbn [length]; lia|done]. }
  assert (Eint : int_words d = w :: W) by (unfold int_words; rewrite Ew, Ei, <- HL; apply (firstn_all (w :: W))).
  split; [|done|by rewrite value_at_0, Eint, Hx]. split; [done|rewrite Ei; lia| |].
  - rewrite Eint. repeat constructor. unfold first_digits. rewrite Ei. unfold d. cbn [intg].
    by replace (Z.of_nat m * 9 + Z.of_nat n - 9 * (Z.of_nat (S m) - 1)) with (Z.of_nat n) by lia.
  - unfold frac_words. rewrite Ew, Ei, <- HL. cbn [drop]. by rewrite drop_all, drop_nil.
Qed.

Lemma integral_zero to : buffer to → ∃ to', decimal_make_zero to = Some to' ∧ integral 0 to' ∧ sign to' = false.
Proof.
  intros [Hl Hn]. unfold decimal_make_zero. destruct (buf to) as [|x b]; [cbn in Hl; lia|].
  eexists. split; [reflexivity|]. split; [|done]. rewrite Hl.
  by apply (integral_words 0 1 0 false 0 [] b); try lia; repeat constructor.
Qed.

Lemma ull2dec_spec x to :
  buffer to → 3 ≤ len to → 0 ≤ x < 2 ^ 64 →
  ∃ to', ull2dec x to = Some (to', E_DEC_OK) ∧ integral ((if sign to then -1 else 1) * x) to'
         ∧ sign to' = (if x =? 0 then false else sign to).
Proof.
  intros Hb H3 Hx. unfold ull2dec. destruct (Z.eqb_spec x 0) as [->|Hx0].
  { destruct (integral_zero to Hb) as (to' & -> & Hi & Hs). exists to'. rewrite Z.mul_0_r. done. }
  destruct (count_words_spec 3 1 x) as (m & E & Hm & Hq); [change (base 3) with (10 ^ 27); lia|]. rewrite E. cbn [mbind option_bind].
  rewrite (proj2 (Z.ltb_ge _ _)) by lia. destruct Hb as [Hl _].
  destruct (count_digits_spec 9 11 ((1 + Z.of_nat m - 1) * DIG_PER_DEC1) (x / base m)) as (n & En & Hn & Hlt & Hn0); [unfold DIG_BASE in Hq; cbn; lia|lia|].
  rewrite En. cbn [mbind option_bind]. replace (Z.to_nat (1 + Z.of_nat m)) with (S m) by lia.
  destruct (put_words_spec (S m) (buf to) (drop (S m) (buf to)) x) as (W & Ep & HL & HD & HN); [lia| |].
  { pose proof (base_pos m). rewrite base_S. pose proof (Z.div_mod x (base m) ltac:(lia)). pose proof (Z.mod_pos_bound x (base m) ltac:(lia)). nia. }
  rewrite take_drop in Ep. replace (1 + Z.of_nat m) with (Z.of_nat (S m)) by lia. rewrite Ep. cbn [mbind option_bind].
  destruct W as [|w W]; [done|]. injection HL as HL. eexists. split; [reflexivity|]. split; [|done].
  pose proof (num_bound W (Forall_inv_tail HD)) as Bl. rewrite num_cons, HL in *.
  assert (Eq : w = x / base m) by (apply Z.div_unique with (num W); lia).
  replace (len to) with (Z.of_nat (length ((w :: W) ++ drop (S m) (buf to)))) by (rewrite length_app, length_drop; cbn [length]; lia).
  unfold DIG_PER_DEC1. replace ((Z.of_nat (S m) - 1) * 9 + Z.of_nat n) with (Z.of_nat m * 9 + Z.of_nat n) by lia.
  apply integral_words; [lia|lia|done|done|by rewrite Eq|by rewrite num_cons, HL].
Qed.

Lemma cut_error_value d : wf d → cut_error d = if value_at (nf d) d =? value_at 0 d * base (nf d) then E_DEC_OK else E_DEC_TRUNCATED.
Proof.
  intros W. unfold cut_error. rewrite value_at_0 by done. unfold value_at, mant_at. rewrite words_at_le by (done || lia).
  rewrite <- (length_words d W), firstn_all. rewrite <- (take_drop (ni d) (words d)). fold (int_words d) (frac_words d).
  rewrite num_app, length_frac_words by done. destruct (Z.eqb_spec (num (frac_words d)) 0) as [E|E].
  - rewrite E, (proj2 (Z.eqb_eq _ _)); [done|lia].
  - rewrite (proj2 (Z.eqb_neq _ _)); [done|]. destruct (sign d); lia.
Qed.

Lemma integral_cut v d : integral v d → cut_error d = E_DEC_OK.
Proof.
  intros [T Hf Hv]. unfold cut_error. pose proof (length_frac_words d (tg_wf d T)) as HL. unfold nf in HL. rewrite Hf in HL.
  apply nil_length_inv in HL. by rewrite HL.
Qed.

Lemma clamp_in lo hi v e : lo ≤ v ≤ hi → clamp lo hi v e = (v, e).
Proof. intros H. unfold clamp. by rewrite !(proj2 (Z.ltb_ge _ _)) by lia. Qed.

(** C26. What the conversions to integers return: the integer part of the value if it is in the range of the type, with
    E_DEC_TRUNCATED exactly if the value is not an integer, and otherwise the nearest end of the range with
    E_DEC_OVERFLOW.  The conversion to an unsigned integer gives 0 for every decimal with the sign set. *)
Theorem decimal_to_integers d :
  wf d →
  let e := if value_at (nf d) d =? value_at 0 d * base (nf d) then E_DEC_OK else E_DEC_TRUNCATED in
  decimal2longlong d = Some (clamp LONGLONG_MIN LONGLONG_MAX (value_at 0 d) e)
  ∧ decimal2ulonglong d = Some (if sign d then (0, E_DEC_OVERFLOW) else clamp 0 ULONGLONG_MAX (value_at 0 d) e).
Proof.
  intros W e. unfold e. rewrite <- cut_error_value, value_at_0, decimal2longlong_spec, decimal2ulonglong_spec by done.
  destruct (sign d); [done|]. by rewrite Z.mul_1_l.
Qed.

(** C25. Every 64-bit integer, signed or unsigned, is stored exactly in a decimal with room for three words, and the
    conversion back gives the integer without an error. *)
Theorem integer_decimal_roundtrip v to :
  buffer to → 3 ≤ len to →
  (LONGLONG_MIN ≤ v ≤ LONGLONG_MAX →
     ∃ to', longlong2decimal v to = Some (to', E_DEC_OK) ∧ integral v to' ∧ decimal2longlong to' = Some (v, E_DEC_OK))
  ∧ (0 ≤ v ≤ ULONGLONG_MAX →
     ∃ to', ulonglong2decimal v to = Some (to', E_DEC_OK) ∧ integral v to' ∧ decimal2ulonglong to' = Some (v, E_DEC_OK)).
Proof.
  intros Hb H3. split; intros Hv.
  - assert (Hs : ∃ to', longlong2decimal v to = Some (to', E_DEC_OK) ∧ integral v to').
    { unfold longlong2decimal, LONGLONG_MIN, LONGLONG_MAX in *. destruct (Z.ltb_spec v 0).
      - destruct (ull2dec_spec (- v) (set_sign true to) Hb H3) as (to' & E & Hi & _); [lia|]. exists to'. cbn [sign set_sign] in Hi.
        split; [|by replace (-1 * - v) with v in Hi by lia]. destruct (Z.eqb_spec v (- 2 ^ 63)) as [->|]; [done|].
        rewrite i64_ok by lia. cbn [mbind option_bind]. unfold u64. by rewrite Z.mod_small by lia.
      - destruct (ull2dec_spec v (set_sign false to) Hb H3) as (to' & E & Hi & _); [lia|]. exists to'. cbn [sign set_sign] in Hi.
        by rewrite Z.mul_1_l in Hi. }
    destruct Hs as (to' & E & Hi). exists to'. split_and!; [done|done|]. pose proof (tg_wf _ (il_tight _ _ Hi)).
    by rewrite decimal2longlong_spec, <- value_at_0, (il_value _ _ Hi), (integral_cut _ _ Hi), clamp_in by done.
  - unfold ulonglong2decimal. unfold ULONGLONG_MAX in Hv.
    destruct (ull2dec_spec v (set_sign false to) Hb H3) as (to' & E & Hi & Hs); [lia|]. exists to'. cbn [sign set_sign] in Hi, Hs.
    rewrite Z.mul_1_l in Hi. split_and!; [done|done|]. pose proof (tg_wf _ (il_tight _ _ Hi)) as W. pose proof (value_at_0 _ W) as Ev.
    assert (Hs' : sign to' = false) by (by destruct (v =? 0)). rewrite Hs', Z.mul_1_l, (il_value _ _ Hi) in Ev.
    rewrite decimal2ulonglong_spec, Hs', <- Ev, (integral_cut _ _ Hi), clamp_in by (unfold ULONGLONG_MAX; done || lia). done.
Qed.
