(* ===== verification/DecimalRound.v ===== *)
(** * Rounding of decimals (strings/decimal.c, decimal_round)

    The result may be the operand itself ([same]) or a buffer of its own.  Once
    the words are copied the code works on the result only; pointers into its
    array are indices, as in [Decimal]. *)

From S2P Require Import Prelude MyBit Decimal.

#[local] Open Scope Z_scope.

Inductive decimal_round_mode := TRUNCATE | HALF_EVEN | HALF_UP | CEILING | FLOOR.

#[export] Instance decimal_round_mode_eq_dec : EqDecision decimal_round_mode.
Proof. solve_decision. Defined.

Definition DIG_MASK : Z := 100000000.

Definition round_digit (mode : decimal_round_mode) (sign : bool) : Z :=
  match mode with
  | HALF_UP | HALF_EVEN => 5
  | CEILING => if sign then 10 else 0
  | FLOOR => if sign then 0 else 10
  | TRUNCATE => 10
  end.

(** [for (; p0 > buf0; p0--) if ( *p0)]: whether one of the [n] words down from [p0] is not 0 *)
Fixpoint some_word (n : nat) (b : list Z) (p0 : Z) : option bool :=
  match n with
  | O => Some false
  | S n => x ← rd b p0; if x =? 0 then some_word n b (p0 - 1) else Some true
  end.

(** The switch that sets [do_inc]; [p] is [buf0]. *)
Definition do_inc (mode : decimal_round_mode) (round_digit : Z) (b : list Z) (p intg0 frac0 frac1 : Z) : option bool :=
  if round_digit =? 0 then some_word (Z.to_nat (frac1 - frac0)) b (p + (frac1 - frac0))
  else if round_digit =? 5 then
    x ← rd b (p + 1);
    let x := Z.quot x DIG_MASK in
    if 5 <? x then Some true
    else if negb (x =? 5) then Some false
    else if decide (mode = HALF_UP) then Some true
    else if 0 <? frac0 + intg0 then y ← rd b p; Some (Z.odd y)
    else Some false
  else Some false.

(** The scale is the end of a word: the array and [buf1], or [None] inside for a zero *)
Definition round_at_word (mode : decimal_round_mode) (round_digit : Z) (b : list Z) (p intg0 frac0 frac1 : Z)
    : option (option (list Z * Z)) :=
  inc ← do_inc mode round_digit b p intg0 frac0 frac1;
  if inc : bool then
    if 0 <? frac0 + intg0 then
      x ← rd b p;
      x ← i32 (x + 1);
      b ← wr b p x;
      Some (Some (b, p))
    else b ← wr b (p + 1) DIG_BASE; Some (Some (b, p + 1))
  else if frac0 + intg0 =? 0 then Some None
  else Some (Some (b, p)).

(** The scale is inside of a word *)
Definition round_in_word (mode : decimal_round_mode) (round_digit : Z) (b : list Z) (p pos : Z) : option (list Z) :=
  w ← rd b p;
  q ← rd powers10 pos;
  let x := Z.quot w q in
  let y := Z.rem x 10 in
  x ← (if (round_digit <? y)
          || ((round_digit =? 5) && (y =? 5) && (bool_decide (mode = HALF_UP) || Z.odd (Z.quot x 10)))
       then i32 (x + 10) else Some x);
  v ← i32 (q * (x - y));
  wr b p v.

(** [while (carry && --buf1 >= to->buf)]: the array, [buf1] and the carry *)
Fixpoint round_carry (fuel : nat) (b : list Z) (p carry : Z) : option (list Z * Z * Z) :=
  match fuel with
  | O => None
  | S fuel =>
    if carry =? 0 then Some (b, p, carry)
    else
      let p := p - 1 in
      if p <? 0 then Some (b, p, carry)
      else
        x ← rd b p;
        '(a, carry) ← ADD x 0 carry;
        b ← wr b p a;
        round_carry fuel b p carry
  end.

(** [for (buf1= ..; buf1 > to->buf; buf1--) buf1[0]=buf1[-1];] from the index [n] *)
Fixpoint shift_up (n : nat) (b : list Z) : option (list Z) :=
  match n with
  | O => Some b
  | S m => x ← rd b (Z.of_nat m); b ← wr b (Z.of_nat n) x; shift_up m b
  end.

(** The loop for zero: [buf1], or [None] inside if all words are 0 *)
Fixpoint last_word (fuel : nat) (b : list Z) (p : Z) : option (option Z) :=
  match fuel with
  | O => None
  | S fuel =>
    x ← rd b p;
    if negb (x =? 0) then Some (Some p)
    else if p =? 0 then Some None
    else last_word fuel b (p - 1)
  end.

(** From [if (frac0 < frac1)] on *)
Definition round_end (to : decimal_t) (p intg0 frac0 frac1 scale error : Z) : option (decimal_t * Z) :=
  b ← (if frac0 <? frac1 then
         let i := if (scale =? 0) && (intg0 =? 0) then 1 else intg0 + frac0 in
         fill_up (Z.to_nat (len to - i)) 0 (buf to) i
       else Some (buf to));
  let first_dig := Z.rem (intg to) DIG_PER_DEC1 in
  i ← (if first_dig =? 0 then Some (intg to) else
         x ← rd b p;
         q ← rd powers10 first_dig;
         Some (if q <=? x then intg to + 1 else intg to));
  Some (mk_decimal i (Z.max scale 0) (len to) (sign to) b, error).

(** From [buf0+=intg0+frac0-1] on *)
Definition round_words (to : decimal_t) (mode : decimal_round_mode) (round_digit intg0 frac0 frac1 scale error : Z)
    : option (decimal_t * Z) :=
  let p := intg0 + frac0 - 1 in
  r ← (if scale =? frac0 * DIG_PER_DEC1 then round_at_word mode round_digit (buf to) p intg0 frac0 frac1
       else b ← round_in_word mode round_digit (buf to) p (frac0 * DIG_PER_DEC1 - scale - 1); Some (Some (b, p)));
  match r with
  | None => to ← decimal_make_zero to; Some (to, E_DEC_OK)
  | Some (b, p) =>
    w ← rd b p;
    if DIG_BASE <=? w then
      b ← wr b p (w - DIG_BASE);
      '(b, p, carry) ← round_carry (S (length b)) b p 1;
      if carry =? 0 then round_end (set_buf b to) p intg0 frac0 frac1 scale error
      else
        let '(frac0, scale, error) :=
          if len to <=? frac0 + intg0 then (frac0 - 1, (frac0 - 1) * DIG_PER_DEC1, E_DEC_TRUNCATED)
          else (frac0, scale, error) in
        b ← shift_up (Z.to_nat (intg0 + Z.max frac0 0)) b;
        b ← wr b 0 1;
        round_end (set_intg (intg to + 1) (set_buf b to)) 0 (intg0 + 1) frac0 frac1 scale error
    else
      r ← last_word (S (length b)) b p;
      match r with
      | Some p => round_end (set_buf b to) p intg0 frac0 frac1 scale error
      | None =>
        b ← fill_up (Z.to_nat (frac0 + 1)) 0 b 0;
        Some (mk_decimal 1 (Z.max scale 0) (len to) false b, E_DEC_OK)
      end
  end.

Definition decimal_round (from to : decimal_t) (same : bool) (scale : Z) (mode : decimal_round_mode)
    : option (decimal_t * Z) :=
  let to := if same then from else to in
  let frac0 := if 0 <? scale then ROUND_UP scale else Z.quot scale DIG_PER_DEC1 in
  let frac1 := ROUND_UP (frac from) in
  let intg0 := ROUND_UP (intg from) in
  let '(frac0, scale, error) :=
    if len to <? frac0 + intg0 then (len to - intg0, (len to - intg0) * DIG_PER_DEC1, E_DEC_TRUNCATED)
    else (frac0, scale, E_DEC_OK) in
  if scale + intg from <? 0 then to ← decimal_make_zero to; Some (to, E_DEC_OK)
  else
    to ← (if same then Some to else
            let n := intg0 + Z.max frac1 frac0 in
            b ← copy_down (Z.to_nat n) (buf to) n (buf from) n;
            Some (mk_decimal (Z.min intg0 (len to) * DIG_PER_DEC1) (frac to) (len to) (sign from) b));
    if frac1 <? frac0 then
      b ← fill_up (Z.to_nat (frac0 - frac1)) 0 (buf to) (intg0 + frac1);
      Some (set_frac scale (set_buf b to), error)
    else if frac from <=? scale then Some (set_frac scale to, error)
    else round_words to mode (round_digit mode (sign from)) intg0 frac0 frac1 scale error.
