(* ===== verification/DecimalRounding.v ===== *)
(** * Correctness of decimal_round

    The loops of [decimal_round] on the words of a decimal, and the value of the
    result: the operand rounded to the scale, for all modes that the code
    implements. *)

From S2P Require Import Prelude MyBit Decimal DecimalFacts DecimalAdd DecimalBytes DecimalWrite DecimalColumn DecimalProduct DecimalInt DecimalRound.

#[local] Open Scope Z_scope.

(** ** Loops *)

Lemma some_word_spec P S R :
  digits S →
  some_word (length S) (P ++ S ++ R) (Z.of_nat (length P) + Z.of_nat (length S) - 1) = Some (negb (num S =? 0)).
Proof.
  revert R. induction S as [|x S IH] using rev_ind; intros R D; [done|]. apply Forall_app in D as [D Hx%Forall_inv].
  rewrite length_app, Nat.add_1_r. cbn [some_word]. rewrite rd_snoc by done. cbn [mbind option_bind].
  rewrite num_snoc. pose proof (num_bound S D). unfold digit in Hx. destruct (Z.eqb_spec x 0) as [->|Hx0].
  - rewrite <- app_assoc. replace (_ - 1 - 1) with (Z.of_nat (length P) + Z.of_nat (length S) - 1) by lia. rewrite IH by done.
    do 2 f_equal. unfold DIG_BASE. apply Bool.eq_iff_eq_true. rewrite !Z.eqb_eq. lia.
  - rewrite (proj2 (Z.eqb_neq _ _)); [done|]. unfold DIG_BASE in *. lia.
Qed.

(** What adding 1 to the words [P] changes: words from [j] on. *)
Record increased (P P' : list Z) (j : nat) : Prop := {
  in_length : length P' = length P;
  in_digits : digits P';
  in_num : num P' = num P + 1;
  in_word : ∃ x, P' !! j = Some x ∧ 0 < x;
  in_same : take j P' = take j P;
}.


Lemma increased_first y P x P' j : increased (y :: P) (x :: P') j → digits P → x ≤ y + 1 ∧ (j ≠ 0%nat → x = y).
Proof.
  intros [HL HD HN _ HS] DP. split; [|intros Hj; destruct j; [done|]; by injection HS].
  injection HL as HL. apply list.Forall_cons in HD as [_ HD]. pose proof (num_bound P DP). pose proof (num_bound P' HD).
  rewrite !num_cons, HL in *. pose proof (base_pos (length P)). nia.
Qed.

Lemma round_carry_spec P R fuel :
  digits P → (length P < fuel)%nat →
  (∃ P' j, round_carry fuel (P ++ R) (Z.of_nat (length P)) 1 = Some (P' ++ R, Z.of_nat j, 0) ∧ increased P P' j)
  ∨ round_carry fuel (P ++ R) (Z.of_nat (length P)) 1 = Some (replicate (length P) 0 ++ R, -1, 1) ∧ num P + 1 = base (length P).
Proof.
  revert R fuel. induction P as [|x P IH] using rev_ind; intros R [|fuel] D Hf; try (cbn in Hf; lia).
  { right. split; [done|]. done. }
  apply Forall_app in D as [D Hx%Forall_inv]. rewrite length_app in *. cbn [length] in *. cbn [round_carry].
  replace (Z.of_nat (length P + 1) - 1) with (Z.of_nat (length P)) by lia. rewrite (proj2 (Z.ltb_ge _ _)) by lia.
  rewrite <- app_assoc. cbn [app Z.eqb]. rewrite rd_app. cbn [mbind option_bind]. unfold digit, DIG_BASE in Hx.
  unfold ADD. rewrite Z.add_0_r, i32_ok by lia. cbn [mbind option_bind]. rewrite i32_ok by lia. cbn [mbind option_bind].
  rewrite !num_snoc, Nat.add_1_r, base_S.
  destruct (Z.leb_spec DIG_BASE (x + 1)) as [Hc|Hc]; cbn [mbind option_bind]; rewrite wr_app; cbn [mbind option_bind].
  - assert (x + 1 - DIG_BASE = 0) as -> by (unfold DIG_BASE in *; lia).
    destruct (IH (0 :: R) fuel D ltac:(lia)) as [(P' & j & E & H)|[E H]].
    + left. exists (P' ++ [0]), j. rewrite E, <- app_assoc. split; [done|]. destruct H as [HL HD HN (w & Hw & Hpos) HS].
      pose proof (lookup_lt_Some _ _ _ Hw). split.
      * rewrite !length_app, HL. done.
      * apply Forall_app. split; [done|]. by repeat constructor.
      * rewrite !num_snoc, HN. unfold DIG_BASE in *. lia.
      * exists w. by rewrite lookup_app_l by done.
      * by rewrite !take_app_le by lia.
    + right. rewrite E. split; [|unfold DIG_BASE in *; lia]. by rewrite replicate_S_end, <- app_assoc.
  - left. exists (P ++ [x + 1]), (length P). destruct fuel; [lia|]. cbn [round_carry Z.eqb]. rewrite <- app_assoc. split; [done|]. split.
    + by rewrite !length_app.
    + apply Forall_app. split; [done|]. repeat constructor; lia.
    + rewrite !num_snoc. lia.
    + exists (x + 1). split; [by apply list_lookup_middle|lia].
    + by rewrite !take_app_length.
Qed.

Lemma shift_up_spec L x R : ∃ y, shift_up (length L) (L ++ x :: R) = Some (y :: L ++ R).
Proof.
  revert x R. induction L as [|w L IH] using rev_ind; intros x R; [by exists x|].
  rewrite length_app, Nat.add_1_r. cbn [shift_up]. rewrite <- app_assoc. cbn [app]. rewrite rd_app. cbn [mbind option_bind].
  replace (L ++ w :: x :: R) with ((L ++ [w]) ++ x :: R) by (by rewrite <- app_assoc).
  replace (Z.of_nat (S (length L))) with (Z.of_nat (length (L ++ [w]))) by (rewrite length_app; cbn; lia).
  rewrite wr_app. cbn [mbind option_bind]. rewrite <- !app_assoc. cbn [app]. apply IH.
Qed.

Lemma last_word_found P R fuel :
  digits P → (0 < length P < fuel)%nat →
  last_word fuel (P ++ R) (Z.of_nat (length P) - 1) = Some None ∧ num P = 0
  ∨ ∃ j x, last_word fuel (P ++ R) (Z.of_nat (length P) - 1) = Some (Some (Z.of_nat j)) ∧ P !! j = Some x ∧ 0 < x ∧ num (drop (S j) P) = 0.
Proof.
  revert R fuel. induction P as [|x P IH] using rev_ind; intros R [|fuel] D Hf; try (cbn in Hf; lia).
  apply Forall_app in D as [D Hx%Forall_inv]. rewrite length_app in *. cbn [length] in *. cbn [last_word].
  replace (Z.of_nat (length P + 1) - 1) with (Z.of_nat (length P)) by lia. rewrite <- app_assoc. cbn [app]. rewrite rd_app.
  cbn [mbind option_bind]. rewrite num_snoc. unfold digit in Hx. destruct (Z.eqb_spec x 0) as [->|Hx0]; cbn [negb].
  - destruct (Z.eqb_spec (Z.of_nat (length P)) 0) as [E|E]; [left; by destruct P|].
    destruct (IH (0 :: R) fuel D ltac:(lia)) as [[E1 H]|(j & w & E1 & Hj & Hw & Hz)].
    + left. split; [done|lia].
    + right. exists j, w. split; [done|]. pose proof (lookup_lt_Some _ _ _ Hj). rewrite lookup_app_l by done. split_and!; [done..|].
      rewrite drop_app_le by lia. rewrite num_snoc. lia.
  - right. exists (length P), x. split; [done|]. split; [by apply list_lookup_middle|]. split; [lia|].
    rewrite drop_ge; [done|]. rewrite length_app. cbn. lia.
Qed.

(** ** Rounding of numbers *)

(** Whether [V] is rounded to the multiple of [D] above it, for a number with the sign [s] and the absolute value [V]. *)
Definition rounds_up (mode : decimal_round_mode) (s : bool) (D V : Z) : bool :=
  match mode with
  | TRUNCATE => false
  | HALF_UP => D <=? 2 * (V mod D)
  | HALF_EVEN => (D <? 2 * (V mod D)) || (D =? 2 * (V mod D)) && Z.odd (V / D)
  | CEILING => negb s && negb (V mod D =? 0)
  | FLOOR => s && negb (V mod D =? 0)
  end.

Definition rounded (mode : decimal_round_mode) (s : bool) (D V : Z) : Z := (V / D + Z.b2z (rounds_up mode s D V)) * D.

(** The words in front of the rounded digit, the rounded word [w], and the words behind. *)
Lemma cut_div X T B r : 0 < T → 0 ≤ r < B → (X * B + r) / (T * B) = X / T ∧ (X * B + r) mod (T * B) = X mod T * B + r.
Proof.
  intros HT Hr. pose proof (Z.div_mod X T ltac:(lia)) as E. pose proof (Z.mod_pos_bound X T HT) as Hm.
  assert (Ho : 0 ≤ X mod T * B + r < T * B).
  { split; [nia|]. assert (X mod T * B ≤ (T - 1) * B) by (apply Z.mul_le_mono_nonneg_r; lia). lia. }
  assert (Ev : X * B + r = T * B * (X / T) + (X mod T * B + r)) by (rewrite E at 1; ring).
  split; [symmetry; by apply Z.div_unique with (X mod T * B + r); [left|]|symmetry; by apply Z.mod_unique with (X / T); [left|]].
Qed.

Lemma pow_split m : 0 ≤ m ≤ 9 → DIG_BASE = 10 ^ (9 - m) * 10 ^ m.
Proof. intros Hm. rewrite <- Z.pow_add_r by lia. by replace (9 - m + m) with 9 by lia. Qed.

Lemma do_inc_spec mode s P S R intg0 frac0 frac1 :
  mode ≠ HALF_EVEN → digits S → S ≠ [] → frac1 - frac0 = Z.of_nat (length S) →
  do_inc mode (round_digit mode s) (P ++ S ++ R) (Z.of_nat (length P) - 1) intg0 frac0 frac1
  = Some (rounds_up mode s (base (length S)) (num (P ++ S))).
Proof.
  intros Hm D HS Hf. pose proof (num_bound S D) as Hn.
  destruct (cut_div (num P) 1 (base (length S)) (num S)) as [_ Emod]; [lia|lia|]. rewrite Z.mul_1_l, Z.mod_1_r, Z.mul_0_l, Z.add_0_l, <- num_app in Emod.
  assert (Hsome : some_word (Z.to_nat (frac1 - frac0)) (P ++ S ++ R) (Z.of_nat (length P) - 1 + (frac1 - frac0)) = Some (negb (num S =? 0))).
  { rewrite <- (some_word_spec P S R D). f_equal; lia. }
  unfold do_inc, rounds_up. rewrite Emod. destruct mode; cbn [round_digit Z.eqb]; try done; [|by destruct s|by destruct s].
  destruct S as [|x S]; [done|]. apply list.Forall_cons in D as [Hx D]. pose proof (num_bound S D) as Hn'.
  replace (Z.of_nat (length P) - 1 + 1) with (Z.of_nat (length P)) by lia. cbn [app]. rewrite rd_app. cbn [mbind option_bind].
  rewrite num_cons. cbn [length]. rewrite base_S. unfold digit in Hx. rewrite Z.quot_div_nonneg by (unfold DIG_MASK; lia).
  assert (Hd : (5 <=? x / DIG_MASK) = (DIG_BASE * base (length S) <=? 2 * (x * base (length S) + num S))).
  { apply Bool.eq_iff_eq_true. rewrite !Z.leb_le. unfold DIG_MASK, DIG_BASE in *.
    destruct (Z.le_gt_cases 500000000 x); split; intros; try divlia; nia. }
  rewrite <- Hd. destruct (Z.ltb_spec 5 (x / DIG_MASK)); [by rewrite (proj2 (Z.leb_le _ _)) by lia|].
  destruct (Z.eqb_spec (x / DIG_MASK) 5) as [E|E]; cbn [negb].
  - by rewrite E.
  - by rewrite (proj2 (Z.leb_gt _ _)) by lia.
Qed.

(** The digit behind the scale decides. *)
Lemma half_up_digit n w T B r :
  (T * 10 | n) → 0 < T → 0 ≤ r < B →
  (T * 10 * B <=? 2 * (((n + w) * B + r) mod (T * 10 * B))) = (5 <=? (w / T) mod 10).
Proof.
  intros [c ->] HT Hr. destruct (cut_div (c * (T * 10) + w) (T * 10) B r) as [_ ->]; [lia|done|].
  rewrite (Z.add_comm (c * _)), Z.mod_add by lia. rewrite Z.rem_mul_r by lia.
  pose proof (Z.mod_pos_bound w T HT). pose proof (Z.mod_pos_bound (w / T) 10 ltac:(lia)).
  set (y := (w / T) mod 10) in *. set (z := w mod T) in *. clearbody y z. apply Bool.eq_iff_eq_true. rewrite !Z.leb_le.
  split; intros H'; [|assert (T * 5 * B ≤ (z + T * y) * B) by (apply Z.mul_le_mono_nonneg_r; nia); lia]. destruct (Z.le_gt_cases 5 y); [done|]. exfalso.
  assert ((z + T * y + 1) * B ≤ T * 5 * B) by (apply Z.mul_le_mono_nonneg_r; nia). lia.
Qed.

Lemma round_in_word_spec mode s P w S R m :
  mode = HALF_UP ∨ mode = TRUNCATE → digits S → digit w → 1 ≤ m ≤ 8 →
  let up := rounds_up mode s (10 ^ m * base (length S)) (num (P ++ w :: S)) in
  round_in_word mode (round_digit mode s) (P ++ w :: R) (Z.of_nat (length P)) (m - 1)
  = Some (P ++ (w / 10 ^ m + Z.b2z up) * 10 ^ m :: R).
Proof.
  intros Hm D Hw Hr up. unfold round_in_word. rewrite rd_app. cbn [mbind option_bind].
  rewrite powers10_pow by lia. cbn [mbind option_bind]. assert (Hp : 10 ^ m = 10 ^ (m - 1) * 10) by (replace m with (Z.succ (m - 1)) at 1 by lia; rewrite Z.pow_succ_r by lia; lia).
  assert (HT : 0 < 10 ^ (m - 1) ≤ 10 ^ 7) by (split; [apply Z.pow_pos_nonneg; lia|apply Z.pow_le_mono_r; lia]).
  assert (Hdiv : (10 ^ (m - 1) * 10 | num P * DIG_BASE)).
  { rewrite <- Hp, (pow_split m) by lia. exists (num P * 10 ^ (9 - m)). ring. }
  pose proof (half_up_digit (num P * DIG_BASE) w (10 ^ (m - 1)) (base (length S)) (num S) Hdiv ltac:(lia) (num_bound S D)) as Hh.
  unfold up, rounds_up. rewrite Hp. rewrite num_app, num_cons. cbn [length]. rewrite base_S.
  replace (num P * (DIG_BASE * base (length S)) + (w * base (length S) + num S)) with ((num P * DIG_BASE + w) * base (length S) + num S) by ring.
  unfold digit, DIG_BASE in Hw. rewrite <- Z.div_div by lia. set (T := 10 ^ (m - 1)) in *. clearbody T.
  rewrite (Z.quot_div_nonneg w) by lia. assert (Hx : 0 ≤ w / T ≤ w) by (split; [apply Z.div_pos; lia|apply Z.div_le_upper_bound; nia]).
  rewrite Z.rem_mod_nonneg by lia. pose proof (Z.div_mod (w / T) 10 ltac:(lia)) as E10. pose proof (Z.mod_pos_bound (w / T) 10 ltac:(lia)).
  assert (Hle : T * (w / T) ≤ w) by (apply Z.mul_div_le; lia).
  destruct Hm as [->| ->]; cbn [round_digit Z.eqb Pos.eqb].
  - rewrite Hh. rewrite bool_decide_eq_true_2 by done. cbn [orb andb]. rewrite ?andb_true_r.
    replace ((5 <? (w / T) mod 10) || ((w / T) mod 10 =? 5)) with (5 <=? (w / T) mod 10)
      by (apply Bool.eq_iff_eq_true; rewrite orb_true_iff, Z.leb_le, Z.ltb_lt, Z.eqb_eq; lia).
    destruct (5 <=? (w / T) mod 10); [rewrite i32_ok by lia|]; cbn [mbind option_bind Z.b2z];
      (rewrite i32_ok by nia); cbn [mbind option_bind]; rewrite wr_app; do 2 f_equal; f_equal; lia.
  - rewrite (proj2 (Z.ltb_ge _ _)) by lia. cbn [orb andb mbind option_bind Z.b2z]. rewrite i32_ok by nia. cbn [mbind option_bind].
    rewrite wr_app. do 2 f_equal; f_equal; lia.
Qed.

(** The rounded word [w] has as many zeroes at its end as there are digits behind the scale. *)
Definition round_word (m w : Z) (up : bool) : Z := (w / 10 ^ m + Z.b2z up) * 10 ^ m.

Lemma rounded_words mode s P w S m :
  digits S → 0 ≤ m ≤ 9 →
  let D := 10 ^ m * base (length S) in
  let V := num (P ++ w :: S) in
  rounded mode s D V = (num P * DIG_BASE + round_word m w (rounds_up mode s D V)) * base (length S).
Proof.
  intros HD Hm D V. unfold rounded. assert (HT : 0 < 10 ^ m) by (apply Z.pow_pos_nonneg; lia).
  assert (Eq : V / D = num P * 10 ^ (9 - m) + w / 10 ^ m).
  { unfold V, D. rewrite num_app, num_cons. cbn [length]. rewrite base_S.
    replace (_ + _) with ((num P * DIG_BASE + w) * base (length S) + num S) by ring.
    destruct (cut_div (num P * DIG_BASE + w) (10 ^ m) (base (length S)) (num S) HT (num_bound S HD)) as [-> _].
    rewrite (pow_split m), Z.mul_assoc, Z.add_comm, Z.div_add by lia. lia. }
  rewrite Eq. unfold D, round_word. rewrite (pow_split m) by lia. ring.
Qed.

(** A word of [k] digits is rounded to at most [10^k]. *)
Lemma round_word_bound m w up k : 0 ≤ m ≤ k → 0 ≤ w < 10 ^ k → 0 ≤ round_word m w up ≤ 10 ^ k.
Proof.
  intros Hm Hw. unfold round_word. assert (HT : 0 < 10 ^ m) by (apply Z.pow_pos_nonneg; lia).
  assert (Ek : 10 ^ k = 10 ^ (k - m) * 10 ^ m) by (rewrite <- Z.pow_add_r by lia; f_equal; lia).
  assert (H1 : 0 ≤ w / 10 ^ m < 10 ^ (k - m)) by (split; [apply Z.div_pos; lia|apply Z.div_lt_upper_bound; lia]).
  rewrite Ek. split; [destruct up; cbn [Z.b2z]; nia|]. apply Z.mul_le_mono_nonneg_r; [lia|]. destruct up; cbn [Z.b2z]; lia.
Qed.

(** ** The result *)

(** A decimal of the words [Q] and [z] more zero words of the integer part. *)
Record shaped (i f : Z) (Q : list Z) (z : nat) : Prop := {
  sh_intg : 0 ≤ i;
  sh_frac : 0 ≤ f;
  sh_some : 0 < i + f;
  sh_words : ROUND_UP i + ROUND_UP f = Z.of_nat (length Q) + Z.of_nat z;
  sh_zero : (0 < z)%nat → f = 0;
  sh_digits : digits Q;
  sh_pos : (0 < length Q)%nat;
  sh_first : 0 < i → Forall (λ x, x < 10 ^ (i - 9 * (ROUND_UP i - 1))) (take 1 Q);
  sh_last : 0 < f → Forall (λ x, x mod 10 ^ (9 * ROUND_UP f - f) = 0) (drop (length Q - 1) Q);
}.

Lemma shaped_value i f Q z T s F :
  shaped i f Q z → (z ≤ length T)%nat → take z T = replicate z 0 → Z.of_nat (length (Q ++ T)) ≤ 7281 → ROUND_UP f ≤ Z.of_nat F →
  let d := mk_decimal i f (Z.of_nat (length (Q ++ T))) s (Q ++ T) in
  tight d ∧ value_at F d = (if s then -1 else 1) * (num Q * base (z + F - Z.to_nat (ROUND_UP f))).
Proof.
  intros [Hi Hf Hs Hw Hz HD Hp H1 Hl] HT Ez HL HF d.
  assert (Ri : 0 ≤ ROUND_UP i) by (rewrite ROUND_UP_spec by done; divlia). assert (Rf : 0 ≤ ROUND_UP f) by (rewrite ROUND_UP_spec by done; divlia).
  assert (En : (ni d + nf d = length Q + z)%nat) by (unfold ni, nf, d; cbn [intg frac]; lia).
  assert (Ew : words d = Q ++ replicate z 0) by (unfold words; rewrite En; unfold d; cbn [buf]; by rewrite take_app_add, Ez).
  assert (W : wf d).
  { split; rewrite ?En, ?Ew; unfold d; cbn [intg frac len buf]; try done; [rewrite length_app; lia|]. apply Forall_app. split; [done|apply digits_zeroes]. }
  split; [split; [done|..]|].
  - pose proof (wf_fit d W) as Hfit. unfold d in Hfit at 3. cbn [buf] in Hfit. lia.
  - unfold int_words. rewrite Ew. destruct (decide (0 < i)) as [Hi0|Hi0].
    + assert (0 < ni d)%nat by (unfold ni, d; cbn [intg]; rewrite ROUND_UP_spec in * by done; divlia).
      rewrite take_take, Nat.min_l, take_app_le by lia. unfold first_digits, ni, d. cbn [intg]. rewrite Z2Nat.id by done. by apply H1.
    + replace (ni d) with 0%nat; [done|]. unfold ni, d. cbn [intg]. rewrite ROUND_UP_spec by done. divlia.
  - unfold frac_words. rewrite Ew. destruct (decide (0 < f)) as [Hf0|Hf0].
    + assert (z = 0%nat) as -> by (destruct z; [done|]; lia). rewrite app_nil_r, drop_drop. replace (9 * Z.of_nat (nf d) - frac d) with (9 * ROUND_UP f - f) by (unfold nf, d; cbn [frac]; lia).
      assert (0 < nf d)%nat by (unfold nf, d; cbn [frac]; rewrite ROUND_UP_spec in * by done; divlia).
      replace (ni d + (nf d - 1))%nat with (length Q - 1)%nat by lia. by apply Hl.
    + assert (nf d = 0%nat) as E by (unfold nf, d; cbn [frac]; rewrite ROUND_UP_spec by done; divlia).
      rewrite drop_drop, drop_ge; [done|]. rewrite length_app, length_replicate. lia.
  - unfold value_at, mant_at. rewrite words_at_ge by (done || (unfold nf, d; cbn [frac]; lia)). rewrite Ew, <- app_assoc, <- replicate_add, num_app, num_zeroes, length_replicate, Z.add_0_r.
    unfold d. cbn [sign]. do 3 f_equal. unfold nf. cbn [frac]. lia.
Qed.

Lemma rd_lookup Q T p x : Q !! p = Some x → rd (Q ++ T) (Z.of_nat p) = Some x.
Proof. intros H. unfold rd. rewrite (proj2 (Z.ltb_ge _ _)), Nat2Z.id by lia. by apply lookup_app_l_Some. Qed.

(** The number of digits of the integer part is increased if the word [x] has more digits than its first word. *)
Definition adjusted (i x : Z) : Z := if i mod 9 =? 0 then i else if 10 ^ (i mod 9) <=? x then i + 1 else i.

Lemma round_end_spec to p Q T x intg0 frac0 frac1 scale :
  buf to = Q ++ T → len to = Z.of_nat (length (Q ++ T)) → Z.of_nat (length Q) = intg0 + frac0 → (scale = 0 → intg0 ≠ 0) →
  Q !! p = Some x → 0 ≤ intg to →
  ∃ T', length T' = length T ∧ (frac0 < frac1 → T' = replicate (length T) 0)
    ∧ round_end to (Z.of_nat p) intg0 frac0 frac1 scale E_DEC_OK
      = Some (mk_decimal (adjusted (intg to) x) (Z.max scale 0) (len to) (sign to) (Q ++ T'), E_DEC_OK).
Proof.
  intros Eb El HQ Hs Hx Hi. set (T' := if frac0 <? frac1 then replicate (length T) 0 else T). exists T'.
  split; [unfold T'; destruct (_ <? _); [apply length_replicate|done]|]. split; [intros H; unfold T'; by rewrite (proj2 (Z.ltb_lt _ _) H)|].
  assert (E1 : (if frac0 <? frac1 then
         fill_up (Z.to_nat (len to - (if (scale =? 0) && (intg0 =? 0) then 1 else intg0 + frac0))) 0 (buf to)
           (if (scale =? 0) && (intg0 =? 0) then 1 else intg0 + frac0)
       else Some (buf to)) = Some (Q ++ T')).
  { unfold T'. destruct (frac0 <? frac1); [|by rewrite Eb]. replace ((scale =? 0) && (intg0 =? 0)) with false
      by (symmetry; apply andb_false_iff; rewrite !Z.eqb_neq; lia).
    rewrite <- HQ, El, Eb. rewrite <- (app_nil_r T) at 2. rewrite fill_up_spec by (rewrite length_app; lia). rewrite app_nil_r.
    do 3 f_equal. rewrite length_app. lia. }
  unfold round_end. rewrite E1. cbn [mbind option_bind]. unfold adjusted, DIG_PER_DEC1. rewrite Z.rem_mod_nonneg by lia.
  destruct (Z.eqb_spec (intg to mod 9) 0); [done|]. cbn [mbind option_bind].
  rewrite (rd_lookup _ _ _ _ Hx). cbn [mbind option_bind].
  rewrite powers10_pow by (pose proof (Z.mod_pos_bound (intg to) 9); lia). done.
Qed.

(** One digit more is enough for the first word [x0], which is at most a power of ten above its digits. *)
Lemma adjusted_spec i (Q : list Z) j x0 x :
  0 ≤ i → Q !! 0%nat = Some x0 → digit x0 → Q !! j = Some x →
  (0 < i → x0 ≤ 10 ^ (i - 9 * (ROUND_UP i - 1)) ∧ (x0 = 10 ^ (i - 9 * (ROUND_UP i - 1)) → j = 0%nat)) →
  let i' := adjusted i x in
  i ≤ i' ∧ ROUND_UP i' = ROUND_UP i ∧ (0 < i' → x0 < 10 ^ (i' - 9 * (ROUND_UP i - 1))).
Proof.
  intros Hi H0 D0 Hx Hle i'. unfold i', adjusted. destruct (decide (i = 0)) as [->|Hi0]; [replace (0 mod 9 =? 0) with true by done; split_and!; [lia|done|lia]|].
  destruct Hle as [Hle Hj]; [lia|]. assert (Hr : ROUND_UP i = (i + 8) / 9) by (by rewrite ROUND_UP_spec).
  destruct (Z.eqb_spec (i mod 9) 0) as [E|E].
  { split_and!; [lia|done|]. intros _. replace (i - 9 * (ROUND_UP i - 1)) with 9 by (rewrite Hr; divlia). apply D0. }
  replace (i - 9 * (ROUND_UP i - 1)) with (i mod 9) in * by (rewrite Hr; divlia). pose proof (Z.mod_pos_bound i 9 ltac:(lia)).
  destruct (Z.leb_spec (10 ^ (i mod 9)) x) as [Hc|Hc].
  - split_and!; [lia|rewrite Hr, ROUND_UP_spec by lia; divlia|]. intros _.
    replace (i + 1 - 9 * (ROUND_UP i - 1)) with (Z.succ (i mod 9)) by (rewrite Hr; divlia). rewrite Z.pow_succ_r by lia.
    assert (0 < 10 ^ (i mod 9)) by (apply Z.pow_pos_nonneg; lia). lia.
  - split_and!; [lia|done|]. intros _. replace (i - 9 * (ROUND_UP i - 1)) with (i mod 9) by (rewrite Hr; divlia).
    destruct (Z.eq_dec x0 (10 ^ (i mod 9))) as [E0|E0]; [|lia]. specialize (Hj E0). subst j. rewrite H0 in Hx. injection Hx as ->. lia.
Qed.

(** ** Rounding the words of a decimal *)

(** The modes that round as they say at the scale. *)
Definition supported (mode : decimal_round_mode) (scale : Z) : Prop :=
  match mode with
  | HALF_UP | TRUNCATE => True
  | CEILING | FLOOR => 0 ≤ scale ∧ scale mod 9 = 0
  | HALF_EVEN => False
  end.

Definition negate (s : bool) (v : Z) : Z := (if s then -1 else 1) * v.

(** [to] is [d] rounded to [scale] digits, both compared with [F] words of fraction. *)
Record rounds_to (mode : decimal_round_mode) (scale : Z) (F : nat) (d to : decimal_t) : Prop := {
  rt_tight : tight to;
  rt_frac : frac to = Z.max scale 0;
  rt_len : len to = len d;
  rt_sign : sign to = true → sign d = true ∧ (value_at F to = 0 → value_at F d = 0);
  rt_value : value_at F to = negate (sign d) (rounded mode (sign d) (10 ^ (9 * Z.of_nat F - scale)) (mant_at F d));
}.

(** The same words and more digits of integer part in the first of them. *)
Record copy_of (d d0 : decimal_t) : Prop := {
  cp_tight : tight d0;
  cp_words : words d0 = words d;
  cp_ni : ni d0 = ni d;
  cp_intg : intg d0 ≤ intg d;
}.

Section Words.
Context (d : decimal_t) (mode : decimal_round_mode) (scale frac0 : Z) (P S : list Z).
Let m : Z := 9 * frac0 - scale.
Let z : nat := Z.to_nat (- frac0).
Let f0 : nat := Z.to_nat frac0.
Let D : Z := 10 ^ m * base (length S).
Let V : Z := num (P ++ S).
Context (HT : tight d) (Hbuf : buffer d).
Context (Hwords : words d = P ++ S) (HP : Z.of_nat (length P) = Z.of_nat (ni d) + frac0).
Context (Hm : 0 ≤ m ≤ 8) (Hsc : frac0 <= 0 → scale ≤ 0).
(* The operand, of which [d] is a copy with room for more digits in the first word. *)
Context (d0 : decimal_t) (Hcopy : copy_of d d0) (Hin : 0 ≤ scale + intg d0).
Context (Hlt : scale < frac d) (Hmode : supported mode scale).
Context (Hroom : (ni d + f0 < length (buf d))%nat ∨ (ni d + f0 ≤ length (buf d))%nat ∧ intg d0 mod 9 ≠ 0).

Let wf_d : wf d := tg_wf d HT.

Lemma dropped_length : Z.of_nat (length S) = Z.of_nat (nf d) - frac0.
Proof. pose proof (length_words d wf_d) as E. rewrite Hwords, length_app in E. lia. Qed.

Lemma dropped_digits : digits S.
Proof. pose proof (wf_digits d wf_d) as H. rewrite Hwords in H. by apply Forall_app in H as [_ H]. Qed.

Lemma kept_digits : digits P.
Proof. pose proof (wf_digits d wf_d) as H. rewrite Hwords in H. by apply Forall_app in H as [H _]. Qed.

Lemma round_unit : 10 ^ (9 * Z.of_nat (nf d) - scale) = D.
Proof.
  pose proof dropped_length. unfold D, base, DIG_BASE. change 1000000000 with (10 ^ 9). rewrite <- Z.pow_mul_r, <- Z.pow_add_r by lia.
  f_equal. unfold m. lia.
Qed.

Lemma mant_kept : mant_at (nf d) d = V.
Proof. unfold mant_at. rewrite words_at_ge, Nat.sub_diag, app_nil_r by (done || lia). by rewrite Hwords. Qed.

Lemma frac_words_up : ROUND_UP (Z.max scale 0) = Z.of_nat f0.
Proof. unfold f0. rewrite ROUND_UP_spec by lia. unfold m in Hm. destruct (decide (frac0 ≤ 0)); [specialize (Hsc ltac:(lia))|]; divlia. Qed.

(** A result of the words [Q], with the sign of the operand or 0. *)
Lemma round_result i s Q T :
  shaped i (Z.max scale 0) Q z → (z ≤ length T)%nat → take z T = replicate z 0 → length (Q ++ T) = length (buf d) →
  num Q * base (length S) = rounded mode (sign d) D V → s = sign d ∧ num Q ≠ 0 ∨ s = false ∧ num Q = 0 →
  rounds_to mode scale (nf d) d (mk_decimal i (Z.max scale 0) (len d) s (Q ++ T)).
Proof.
  intros Hs HzT Hz HL Hn Hsg. pose proof dropped_length as HS. pose proof frac_words_up as Hf. destruct Hbuf as [Hl Hb].
  rewrite Hl, <- HL. destruct (shaped_value i (Z.max scale 0) Q z T s (nf d) Hs HzT Hz) as [Ht Hv]; [lia|unfold f0 in *; lia|].
  replace (z + nf d - Z.to_nat (ROUND_UP (Z.max scale 0)))%nat with (length S) in Hv by (unfold z, f0 in *; lia).
  split; [done|done|by cbn [len]; lia| |].
  - cbn [sign]. intros ->. rewrite Hv. destruct Hsg as [[? HQ]|[? _]]; [|done]. split; [done|]. pose proof (base_pos (length S)). nia.
  - rewrite Hv, round_unit, mant_kept, Hn. unfold negate. destruct Hsg as [[-> _]|[-> H0]]; [done|]. rewrite <- Hn, H0. by rewrite Z.mul_0_l, !Z.mul_0_r.
Qed.

Let R : list Z := drop (ni d + nf d) (buf d).
Let up : bool := rounds_up mode (sign d) D V.
Let p : Z := Z.of_nat (ni d) + frac0 - 1.

Lemma buf_cut : buf d = P ++ S ++ R.
Proof. rewrite app_assoc, <- Hwords. apply buf_words. Qed.

Lemma copy_same : copy_of d d.
Proof. by split. Qed.

Lemma kept_first e x P1 : copy_of d e → P = x :: P1 → 0 < intg e → x < 10 ^ (intg e - 9 * (ROUND_UP (intg e) - 1)).
Proof.
  intros [Te We Ne _] E Hi. pose proof (tg_first e Te) as H. rewrite ni_spec by apply Te. unfold first_digits, int_words in H. rewrite We, Hwords, E in H.
  destruct (ni_cases e (tg_wf e Te)) as [[_ H0]|[Hn _]]; [lia|]. destruct (ni e) as [|n] eqn:En; [lia|]. cbn [app take] in H. by apply Forall_inv in H.
Qed.

Lemma first_digits_range i : 0 < i → 1 ≤ i - 9 * (ROUND_UP i - 1) ≤ 9.
Proof. intros Hi. rewrite ROUND_UP_spec by lia. divlia. Qed.

Lemma dropped_some : m = 0 → S ≠ [].
Proof.
  intros E E0. pose proof dropped_length as HS. rewrite E0 in HS. cbn [length] in HS. pose proof (nf_spec d wf_d) as Hn. rewrite ROUND_UP_spec in Hn by apply (wf_frac d wf_d).
  unfold m in E. divlia.
Qed.

(** Rounding the last of the words that are kept. *)
Lemma round_last P0 w :
  P = P0 ++ [w] →
  (if scale =? frac0 * DIG_PER_DEC1
   then round_at_word mode (round_digit mode (sign d)) (buf d) p (Z.of_nat (ni d)) frac0 (Z.of_nat (nf d))
   else b ← round_in_word mode (round_digit mode (sign d)) (buf d) p (frac0 * DIG_PER_DEC1 - scale - 1); Some (Some (b, p)))
  = Some (Some (P0 ++ round_word m w up :: S ++ R, Z.of_nat (length P0))).
Proof.
  intros EP. pose proof dropped_digits as DS. pose proof dropped_length as HS. pose proof buf_cut as Eb. unfold DIG_PER_DEC1.
  assert (DW : digit w) by (pose proof kept_digits as H; rewrite EP in H; by apply Forall_app in H as [_ H%Forall_inv]).
  assert (Hp : p = Z.of_nat (length P0)) by (unfold p; rewrite EP, length_app in HP; cbn in HP; lia).
  destruct (Z.eqb_spec scale (frac0 * 9)) as [E|E].
  - assert (m = 0) as Hm0 by (unfold m; lia). pose proof (dropped_some Hm0) as Hne.
    unfold round_at_word. replace p with (Z.of_nat (length P) - 1) at 1 by (rewrite EP, length_app; cbn; lia).
    rewrite Eb, do_inc_spec by (done || lia || by intros E0; rewrite E0 in Hmode). cbn [mbind option_bind].
    replace (rounds_up mode (sign d) (base (length S)) (num (P ++ S))) with up by (unfold up, D; by rewrite Hm0, Z.pow_0_r, Z.mul_1_l).
    rewrite EP, <- app_assoc, Hp. cbn [app]. unfold round_word. rewrite Hm0, Z.pow_0_r, Z.div_1_r, Z.mul_1_r.
    rewrite EP, length_app in HP. cbn in HP. unfold digit, DIG_BASE in DW.
    destruct up; cbn [Z.b2z].
    + rewrite (proj2 (Z.ltb_lt _ _)), rd_app by lia. cbn [mbind option_bind]. rewrite i32_ok by lia. cbn [mbind option_bind]. by rewrite wr_app.
    + rewrite (proj2 (Z.eqb_neq _ _)) by lia. by rewrite Z.add_0_r.
  - assert (Hm1 : 1 ≤ m ≤ 8) by (unfold m in *; lia). rewrite Eb, EP, <- app_assoc, Hp. cbn [app].
    replace (frac0 * 9 - scale - 1) with (m - 1) by (unfold m; lia).
    rewrite (round_in_word_spec mode (sign d) P0 w S (S ++ R) m); try done.
    + cbn [mbind option_bind]. unfold round_word, up, D, V. by rewrite EP, <- app_assoc.
    + destruct mode; try (by left) || (by right) || (cbn in Hmode; unfold m in *; divlia).
Qed.

(** The first word of the rounded words. *)
Lemma first_rounded e x Q0 P0 w :
  copy_of d e → 0 ≤ scale + intg e → P = P0 ++ [w] → P0 ++ [round_word m w up] = x :: Q0 → 0 < intg e →
  x ≤ 10 ^ (intg e - 9 * (ROUND_UP (intg e) - 1)) ∧ (x = 10 ^ (intg e - 9 * (ROUND_UP (intg e) - 1)) → P0 = []).
Proof.
  intros He Hine EP EQ Hi. pose proof (first_digits_range _ Hi). destruct P0 as [|y P0]; cbn [app] in *.
  - injection EQ as <- <-. split; [|done]. pose proof HP as HP'. rewrite EP in HP'. cbn in HP'. pose proof (kept_first e w [] He EP Hi).
    pose proof kept_digits as Dw. rewrite EP in Dw. apply Forall_inv in Dw. unfold digit in Dw.
    apply round_word_bound; [|lia]. rewrite ni_spec in * by apply (cp_tight d e He). rewrite (cp_ni d e He) in *. unfold m in *; lia.
  - injection EQ as <- <-. pose proof (kept_first e y _ He EP Hi). lia.
Qed.

(** The end of the function, with the rounded words [Q] and [i0] digits of integer part. *)
Lemma round_finish i0 Q T j x0 x :
  0 ≤ i0 → Z.of_nat (length Q) = ROUND_UP i0 + frac0 → length (Q ++ T) = length (buf d) → (z ≤ length T)%nat →
  digits Q → num Q * base (length S) = rounded mode (sign d) D V →
  Q !! 0%nat = Some x0 → Q !! j = Some x → 0 < x →
  (0 < i0 → x0 ≤ 10 ^ (i0 - 9 * (ROUND_UP i0 - 1)) ∧ (x0 = 10 ^ (i0 - 9 * (ROUND_UP i0 - 1)) → j = 0%nat)) →
  Forall (λ y, y mod 10 ^ m = 0) (drop (length Q - 1) Q) →
  ∃ to', round_end (mk_decimal i0 (frac d) (len d) (sign d) (Q ++ T)) (Z.of_nat j) (ROUND_UP i0) frac0 (Z.of_nat (nf d)) scale E_DEC_OK
         = Some (to', E_DEC_OK) ∧ rounds_to mode scale (nf d) d to'.
Proof.
  intros Hi HQ HL HzT DQ Hn H0 Hj Hx Hfirst Hlast. pose proof (lookup_lt_Some _ _ _ H0) as Hpos. destruct Hbuf as [Hl _].
  pose proof frac_words_up as Hf. pose proof dropped_length as HS.
  destruct (round_end_spec (mk_decimal i0 (frac d) (len d) (sign d) (Q ++ T)) j Q T x (ROUND_UP i0) frac0 (Z.of_nat (nf d)) scale)
    as (T' & LT' & ET' & ->); cbn [intg len buf]; [done|by rewrite HL|done|unfold m in *; lia|done|done|].
  eexists. split; [reflexivity|]. cbn [intg len sign].
  destruct (adjusted_spec i0 Q j x0 x Hi H0) as (Hge & HR & Hf1); [by eapply Forall_lookup_1|done|done|].
  assert (HQ0 : num Q ≠ 0) by (intros E; rewrite (num_zero Q DQ E) in Hj; apply lookup_replicate in Hj; lia).
  apply round_result; [|lia| |rewrite length_app in *; lia|done|by left].
  - split; [lia|lia| | |unfold z in *; intros; lia|done|lia| |].
    + pose proof HR as HR'. rewrite (ROUND_UP_spec (adjusted i0 x)) in HR' by lia. rewrite ROUND_UP_spec in Hf by lia. unfold f0 in *. divlia.
    + rewrite HR, Hf. unfold f0, z. lia.
    + intros Hi'. destruct Q as [|y Q]; [done|]. injection H0 as ->. repeat constructor. rewrite HR. by apply Hf1.
    + intros Hs. replace (9 * _ - _) with m; [done|]. rewrite Hf. unfold m, f0. lia.
  - destruct (decide (frac0 < Z.of_nat (nf d))) as [Hlow|Hlow].
    + rewrite (ET' Hlow), take_replicate. f_equal. lia.
    + replace z with 0%nat by (unfold z; lia). done.
Qed.

Lemma round_zero T :
  length (replicate (1 + f0) 0 ++ T) = length (buf d) → rounded mode (sign d) D V = 0 →
  rounds_to mode scale (nf d) d (mk_decimal 1 (Z.max scale 0) (len d) false (replicate (1 + f0) 0 ++ T)).
Proof.
  intros HL H0. pose proof frac_words_up as Hf. pose proof dropped_length as HS. destruct Hbuf as [Hl Hb].
  assert (Hsh : shaped 1 (Z.max scale 0) (replicate (1 + f0) 0) 0).
  { split; [lia|lia|lia| |lia|apply digits_zeroes|cbn; lia|by repeat constructor|].
    - rewrite Hf, length_replicate. change (ROUND_UP 1) with 1. lia.
    - intros _. rewrite drop_replicate. apply Forall_replicate, Z.mod_0_l. apply Z.pow_nonzero; [done|].
      rewrite ROUND_UP_spec by lia. divlia. }
  rewrite Hl, <- HL. destruct (shaped_value 1 _ _ 0 T false (nf d) Hsh) as [Ht Hv]; [lia|done|lia|rewrite Hf; unfold f0; pose proof (nf_spec d wf_d); lia|].
  split; [done|done|by cbn [len]; lia|done|]. rewrite Hv, round_unit, mant_kept, H0, num_zeroes. unfold negate. lia.
Qed.

(** The value of the words with the rounded word. *)
Lemma rounded_value P0 w :
  P = P0 ++ [w] → (num P0 * DIG_BASE + round_word m w up) * base (length S) = rounded mode (sign d) D V.
Proof.
  intros EP. unfold D, V. rewrite EP, <- app_assoc. cbn [app]. rewrite rounded_words by (lia || apply dropped_digits).
  unfold up, D, V. by rewrite EP, <- app_assoc.
Qed.

Lemma kept_parts P0 w :
  P = P0 ++ [w] → digits P0 ∧ digit w ∧ Z.of_nat (length P0) + 1 = Z.of_nat (ni d) + frac0
  ∧ (length P0 + 1 + length (S ++ R) = length (buf d))%nat.
Proof.
  intros EP. pose proof kept_digits as DP. pose proof HP as HP'. pose proof (f_equal length buf_cut) as E. rewrite EP in DP, HP', E.
  rewrite !length_app in *. cbn [length] in *. apply Forall_app in DP as [DP Dw%Forall_inv]. split_and!; [done|done|lia|lia].
Qed.

(** All words up to the scale are 0. *)
Lemma fill_zero_words Q T :
  digits Q → num Q = 0 → (0 < length Q)%nat → length (Q ++ T) = length (buf d) →
  ∃ T', fill_up (Z.to_nat (frac0 + 1)) 0 (Q ++ T) 0 = Some (replicate (1 + f0) 0 ++ T')
    ∧ length (replicate (1 + f0) 0 ++ T') = length (buf d).
Proof.
  intros DQ H0 HQ HL. destruct (decide (0 ≤ frac0)) as [Hf0|Hf0].
  - assert (Hfit : (1 + f0 ≤ length (buf d))%nat).
    { destruct Hroom as [Hr|[Hr H9]]; [lia|]. destruct (ni_cases d0 (tg_wf _ (cp_tight _ _ Hcopy))) as [[_ E]|[? _]]; [by rewrite E in H9|].
      pose proof (cp_ni _ _ Hcopy). lia. }
    pose proof (fill_up_spec (1 + f0) 0 [] (take (1 + f0) (Q ++ T)) (drop (1 + f0) (Q ++ T))) as E.
    cbn [app length] in E. rewrite take_drop in E. exists (drop (1 + f0) (Q ++ T)).
    replace (Z.to_nat (frac0 + 1)) with (1 + f0)%nat by (unfold f0; lia). split; [apply E; rewrite length_take; lia|].
    rewrite length_app, length_replicate, length_drop. lia.
  - replace (Z.to_nat (frac0 + 1)) with 0%nat by lia. replace f0 with 0%nat by (unfold f0; lia). cbn [fill_up].
    pose proof (num_zero Q DQ H0) as EQ. destruct Q as [|y Q']; [cbn in HQ; lia|]. exists (Q' ++ T).
    cbn [app replicate length] in *. injection EQ as -> _. done.
Qed.

(** No carry: the rounded word is a word. *)
Lemma round_small P0 w :
  P = P0 ++ [w] → round_word m w up < DIG_BASE →
  let b := P0 ++ round_word m w up :: S ++ R in
  ∃ to', (r ← last_word (1 + length b) b (Z.of_nat (length P0));
          match r with
          | Some p => round_end (set_buf b d) p (Z.of_nat (ni d)) frac0 (Z.of_nat (nf d)) scale E_DEC_OK
          | None => b ← fill_up (Z.to_nat (frac0 + 1)) 0 b 0; Some (mk_decimal 1 (Z.max scale 0) (len d) false b, E_DEC_OK)
          end) = Some (to', E_DEC_OK) ∧ rounds_to mode scale (nf d) d to'.
Proof.
  intros EP Hw' b. set (w' := round_word m w up) in *. destruct (kept_parts P0 w EP) as (DP & Dw & HP' & HLP).
  assert (Dw' : digit w').
  { split; [|done]. unfold digit in Dw. change DIG_BASE with (10 ^ 9) in Dw. apply (round_word_bound m w up 9); lia. }
  assert (DQ : digits (P0 ++ [w'])) by (apply Forall_app; split; [done|by constructor]).
  assert (LQ : length (P0 ++ [w']) = length P) by (rewrite EP, !length_app; done).
  assert (Eb : b = (P0 ++ [w']) ++ S ++ R) by (unfold b; by rewrite <- app_assoc).
  assert (Hn : num (P0 ++ [w']) * base (length S) = rounded mode (sign d) D V) by (rewrite num_snoc; by apply rounded_value).
  assert (HLb : length b = length (buf d)) by (unfold b; rewrite length_app, length_cons; lia).
  clearbody b. rewrite Eb in *. clear b Eb. set (Q := P0 ++ [w']) in *.
  replace (Z.of_nat (length P0)) with (Z.of_nat (length Q) - 1) by (unfold Q; rewrite length_app; cbn; lia).
  assert (HQ0 : (0 < length Q)%nat) by (unfold Q; rewrite length_app; cbn; lia).
  destruct (last_word_found Q (S ++ R) (1 + length (Q ++ S ++ R)) DQ) as [[-> H0]|(j & x & -> & Hj & Hx & Hz)];
    [rewrite !length_app; lia| |]; cbn [mbind option_bind].
  - destruct (fill_zero_words Q (S ++ R) DQ H0 HQ0 HLb) as (T & -> & HLT). cbn [mbind option_bind]. eexists. split; [reflexivity|].
    apply round_zero; [done|]. by rewrite <- Hn, H0, Z.mul_0_l.
  - unfold set_buf. rewrite <- ni_spec by done.
    assert (∃ x0 Q0, Q = x0 :: Q0) as (x0 & Q0 & EQ) by (clear -HQ0; destruct Q as [|y Q']; [cbn in HQ0; lia|by eauto]).
    apply (round_finish (intg d) Q (S ++ R) j x0 x); try done; [apply wf_d|rewrite ni_spec by done; lia| |by rewrite EQ| |].
    + rewrite length_app. pose proof dropped_length. unfold z. lia.
    + intros Hi. destruct (first_rounded d x0 Q0 P0 w copy_same) as [Hle Heq]; [pose proof (cp_intg _ _ Hcopy); lia|done..|].
      split; [done|]. intros E0. specialize (Heq E0).
      pose proof (lookup_lt_Some _ _ _ Hj) as Hlt'. rewrite LQ, EP, Heq in Hlt'. cbn in Hlt'. lia.
    + unfold Q. rewrite length_app. cbn [length]. rewrite Nat.add_sub, drop_app_length. repeat constructor. unfold w', round_word.
      apply Z.mod_mul. apply Z.pow_nonzero; lia.
Qed.

(** The words are all nines: the integer part has all digits of its first word. *)
Lemma carried_full P0 w :
  P = P0 ++ [w] → round_word m w up = DIG_BASE → num P0 + 1 = base (length P0) → intg d0 = 9 * Z.of_nat (ni d).
Proof.
  intros EP Hw' Hn. pose proof (tg_wf _ (cp_tight _ _ Hcopy)) as W0. rewrite <- (cp_ni _ _ Hcopy).
  destruct (ni_cases d0 W0) as [[E Ei]|[_ Hfd]]; [lia|]. unfold first_digits in Hfd.
  destruct (decide (intg d0 - 9 * (Z.of_nat (ni d0) - 1) = 9)) as [|H8]; [lia|]. exfalso.
  assert (H108 : 10 ^ (intg d0 - 9 * (Z.of_nat (ni d0) - 1)) ≤ 10 ^ 8) by (apply Z.pow_le_mono_r; lia).
  assert (Hi0 : 0 < intg d0) by (pose proof (wf_intg d0 W0); lia). destruct P0 as [|y P0].
  - destruct (first_rounded d0 (round_word m w up) [] [] w Hcopy Hin EP eq_refl Hi0) as [Hle _]. rewrite ni_spec in Hle by done. unfold DIG_BASE in *. lia.
  - pose proof (kept_first d0 y (P0 ++ [w]) Hcopy EP Hi0) as Hy. rewrite ni_spec in Hy by done. pose proof kept_digits as DP. rewrite EP in DP.
    apply Forall_app in DP as [DP _]. apply list.Forall_cons in DP as [Dy DP]. pose proof (num_bound P0 DP).
    rewrite num_cons in Hn. cbn [length] in Hn. rewrite base_S in Hn. unfold DIG_BASE in *. nia.
Qed.

(** A full first word: then the copy has no room for more digits, but one more word has room. *)
Lemma full_room : intg d0 = 9 * Z.of_nat (ni d) → (ni d + f0 < length (buf d))%nat ∧ intg d = 9 * Z.of_nat (ni d).
Proof.
  intros E. split; [destruct Hroom as [|[_ H9]]; [done|]; exfalso; apply H9; rewrite E; divlia|].
  pose proof (cp_intg _ _ Hcopy). pose proof (ni_spec d wf_d) as En. rewrite ROUND_UP_spec in En by apply (wf_intg d wf_d). divlia.
Qed.

(** The number with one word more in front of [L], which starts with the [length P] kept words, all of them 0. *)
Lemma round_longer L v T :
  length (L ++ v :: T) = length (buf d) → length L = (ni d + f0)%nat → take (length P) L = replicate (length P) 0 →
  intg d = 9 * Z.of_nat (ni d) → base (length P) * base (length S) = rounded mode (sign d) D V →
  ∃ to', (b ← shift_up (Z.to_nat (Z.of_nat (ni d) + Z.max frac0 0)) (L ++ v :: T);
          b ← wr b 0 1;
          round_end (set_intg (intg d + 1) (set_buf b d)) 0 (Z.of_nat (ni d) + 1) frac0 (Z.of_nat (nf d)) scale E_DEC_OK)
    = Some (to', E_DEC_OK) ∧ rounds_to mode scale (nf d) d to'.
Proof.
  intros HL HLl Hz Hi Hn. replace (Z.to_nat (Z.of_nat (ni d) + Z.max frac0 0)) with (length L) by (unfold f0 in *; lia).
  destruct (shift_up_spec L v T) as [y ->]. cbn [mbind option_bind]. change 0 with (Z.of_nat (length (@nil Z))) at 1.
  change (y :: L ++ T) with ([] ++ y :: L ++ T). rewrite wr_app. cbn [app mbind option_bind length].
  unfold set_intg, set_buf. cbn [intg frac len sign buf].
  assert (ER : ROUND_UP (intg d + 1) = Z.of_nat (ni d) + 1) by (rewrite ROUND_UP_spec by lia; divlia).
  rewrite <- ER. rewrite <- (take_drop (length P) L), Hz, <- app_assoc.
  apply (round_finish (intg d + 1) (1 :: replicate (length P) 0) (drop (length P) L ++ T) 0 1 1);
    rewrite ?length_app, ?length_cons, ?length_replicate, ?length_drop, ?ER in *; try done; try lia.
  - constructor; [done|apply digits_zeroes].
  - by rewrite num_cons, num_zeroes, length_replicate, Z.mul_1_l, Z.add_0_r.
  - rewrite Nat.sub_succ, Nat.sub_0_r. destruct (length P) as [|n] eqn:EP; [|cbn [drop]; rewrite drop_replicate; apply Forall_replicate, Z.mod_0_l, Z.pow_nonzero; lia].
    replace m with 0 by (pose proof (cp_intg _ _ Hcopy); unfold m in *; lia). by repeat constructor.
Qed.

(** The carry ends at the word [j]. *)
Lemma round_absorbed P0 w P' j :
  P = P0 ++ [w] → round_word m w up = DIG_BASE → increased P0 P' j →
  ∃ to', round_end (set_buf (P' ++ 0 :: S ++ R) d) (Z.of_nat j) (Z.of_nat (ni d)) frac0 (Z.of_nat (nf d)) scale E_DEC_OK = Some (to', E_DEC_OK)
    ∧ rounds_to mode scale (nf d) d to'.
Proof.
  intros EP Hw' HI. destruct (kept_parts P0 w EP) as (DP & Dw & HP' & HLP). pose proof (rounded_value P0 w EP) as Hn. rewrite Hw' in Hn.
  pose proof HI as [HL HD HN (x & Hx & Hpos) _]. unfold set_buf. rewrite <- ni_spec by done. pose proof (lookup_lt_Some _ _ _ Hx).
  destruct P' as [|x0 P1]; [done|]. destruct P0 as [|y P0]; [done|]. cbn [length] in *.
  replace ((x0 :: P1) ++ 0 :: S ++ R) with (((x0 :: P1) ++ [0]) ++ S ++ R) by (by rewrite <- app_assoc).
  assert (LQ : length ((x0 :: P1) ++ [0]) = length P) by (rewrite EP, !length_app; cbn [length]; lia).
  apply (round_finish (intg d) ((x0 :: P1) ++ [0]) (S ++ R) j x0 x); try done;
    [apply wf_d|rewrite LQ, ni_spec by done; lia| | | | |by rewrite lookup_app_l| |].
  - rewrite length_app, LQ. rewrite EP, length_app. cbn [length]. lia.
  - rewrite length_app. pose proof dropped_length. unfold z. lia.
  - apply Forall_app. split; [done|]. by repeat constructor.
  - rewrite num_snoc, HN, <- Hn. lia.
  - intros Hi. pose proof (kept_first d y (P0 ++ [w]) copy_same EP Hi). apply list.Forall_cons in DP as [_ DP].
    destruct (increased_first y P0 x0 P1 j HI DP) as [Hle Hj]. split; [lia|]. intros E0. destruct j; [done|]. specialize (Hj ltac:(done)). lia.
  - rewrite length_app. cbn [length]. rewrite Nat.add_sub. rewrite (drop_app_length (x0 :: P1)). repeat constructor.
Qed.

(** The rounded word is [10^9]: the carry goes to the words in front of it. *)
Lemma round_carried P0 w :
  P = P0 ++ [w] → round_word m w up = DIG_BASE →
  let b := P0 ++ 0 :: S ++ R in
  ∃ to', ('(b, p, carry) ← round_carry (1 + length b) b (Z.of_nat (length P0)) 1;
          if carry =? 0 then round_end (set_buf b d) p (Z.of_nat (ni d)) frac0 (Z.of_nat (nf d)) scale E_DEC_OK
          else
            let '(frac0', scale', error) :=
              if len d <=? frac0 + Z.of_nat (ni d) then (frac0 - 1, (frac0 - 1) * DIG_PER_DEC1, E_DEC_TRUNCATED)
              else (frac0, scale, E_DEC_OK) in
            b ← shift_up (Z.to_nat (Z.of_nat (ni d) + Z.max frac0' 0)) b;
            b ← wr b 0 1;
            round_end (set_intg (intg d + 1) (set_buf b d)) 0 (Z.of_nat (ni d) + 1) frac0' (Z.of_nat (nf d)) scale' error)
    = Some (to', E_DEC_OK) ∧ rounds_to mode scale (nf d) d to'.
Proof.
  intros EP Hw' b. destruct (kept_parts P0 w EP) as (DP & _ & HP' & HLP). pose proof (rounded_value P0 w EP) as Hn. rewrite Hw' in Hn.
  assert (HLb : length b = length (buf d)) by (unfold b; rewrite length_app, length_cons; lia).
  destruct (round_carry_spec P0 (0 :: S ++ R) (1 + length b) DP) as [(P' & j & E & HI)|[E Hfull]]; [unfold b; rewrite length_app; lia|..];
    fold b in E; rewrite E; cbn [mbind option_bind Z.eqb].
  { by apply (round_absorbed P0 w). }
  destruct (full_room (carried_full P0 w EP Hw' Hfull)) as [Hroom' Hi].
  destruct Hbuf as [Hl _]. rewrite (proj2 (Z.leb_gt _ _)) by (unfold f0 in *; lia).
  assert (EL : replicate (length P0) 0 ++ 0 :: S ++ R = replicate (length P) 0 ++ S ++ R).
  { rewrite EP, length_app, Nat.add_comm. cbn [length Nat.add]. by rewrite replicate_S_end, <- app_assoc. }
  rewrite EL. set (b' := replicate (length P) 0 ++ S ++ R).
  assert (HLb' : length b' = length (buf d)) by (unfold b'; rewrite (f_equal length buf_cut), !length_app, length_replicate; done).
  rewrite <- (take_drop (ni d + f0) b'). destruct (drop (ni d + f0) b') as [|v T] eqn:ET.
  { apply (f_equal length) in ET. rewrite length_drop in ET. cbn in ET. lia. }
  apply round_longer; [|rewrite length_take; lia| |done|].
  - rewrite <- ET, take_drop. done.
  - rewrite take_take, Nat.min_l by (unfold f0; lia). unfold b'. rewrite <- (length_replicate (length P) 0) at 1. by rewrite take_app_length.
  - rewrite <- Hn, EP, length_app, Nat.add_comm. cbn [length Nat.add]. rewrite base_S. lia.
Qed.

(** All words are dropped: the result is 0 or a power of ten. *)
Lemma round_nothing :
  P = [] → ∃ to', round_words d mode (round_digit mode (sign d)) (Z.of_nat (ni d)) frac0 (Z.of_nat (nf d)) scale E_DEC_OK
                  = Some (to', E_DEC_OK) ∧ rounds_to mode scale (nf d) d to'.
Proof.
  intros EP. pose proof HP as HP'. rewrite EP in HP'. cbn in HP'. pose proof dropped_length as HS. pose proof dropped_digits as DS.
  pose proof (nf_spec d wf_d) as Enf. pose proof (ni_spec d wf_d) as Eni. rewrite ROUND_UP_spec in Eni by apply (wf_intg d wf_d).
  assert (Hm0 : m = 0) by (pose proof (cp_intg _ _ Hcopy); unfold m in *; divlia).
  destruct full_room as [Hroom' Hi]; [pose proof (cp_intg _ _ Hcopy); unfold m in *; divlia|].
  assert (Hf0 : f0 = 0%nat) by (unfold f0; lia). pose proof (dropped_some Hm0) as Hne. pose proof Hbuf as [Hl Hlb].
  assert (HD : D = base (length S)) by (unfold D; by rewrite Hm0, Z.pow_0_r, Z.mul_1_l).
  assert (HV : V / D = 0) by (unfold V; rewrite EP, HD; apply Z.div_small, (num_bound S DS)).
  assert (Hn : rounded mode (sign d) D V = Z.b2z up * base (length S)) by (unfold rounded; rewrite HV; fold up; by rewrite HD).
  assert (Hinc : do_inc mode (round_digit mode (sign d)) (buf d) (-1) (Z.of_nat (ni d)) frac0 (Z.of_nat (nf d)) = Some up).
  { unfold up. rewrite HD. pose proof (do_inc_spec mode (sign d) P S R (Z.of_nat (ni d)) frac0 (Z.of_nat (nf d))) as E.
    rewrite <- buf_cut in E. rewrite EP in E at 1. apply E; try done; [by intros E0; rewrite E0 in Hmode]. }
  unfold round_words. rewrite (proj2 (Z.eqb_eq _ _)) by (unfold m, DIG_PER_DEC1 in *; lia). unfold round_at_word.
  replace (Z.of_nat (ni d) + frac0 - 1) with (-1) by lia. rewrite Hinc. cbn [mbind option_bind]. clearbody up.
  rewrite (proj2 (Z.ltb_ge _ _)), (proj2 (Z.eqb_eq _ _)) by lia.
  assert (∃ x b, buf d = x :: b) as (x & b & Eb) by (clear -Hroom'; destruct (buf d); [cbn in Hroom'; lia|by eauto]).
  assert (HLb : length (buf d) = length (x :: b)) by (by rewrite Eb). destruct up; cbn [Z.b2z] in Hn.
  - rewrite Eb. change (wr (x :: b) (-1 + 1) DIG_BASE) with (Some (DIG_BASE :: b)). cbn [mbind option_bind].
    change (rd (DIG_BASE :: b) (-1 + 1)) with (Some DIG_BASE). cbn [mbind option_bind]. rewrite Z.leb_refl.
    change (wr (DIG_BASE :: b) (-1 + 1) (DIG_BASE - DIG_BASE)) with (Some (0 :: b)). cbn [mbind option_bind].
    change (round_carry _ (0 :: b) (-1 + 1) 1) with (Some (0 :: b, -1, 1)). cbn [mbind option_bind Z.eqb].
    rewrite (proj2 (Z.leb_gt _ _)) by lia. rewrite <- (take_drop (ni d + f0) (0 :: b)).
    destruct (drop (ni d + f0) (0 :: b)) as [|v T] eqn:ET; [apply (f_equal length) in ET; rewrite length_drop in ET; cbn in ET, HLb; lia|].
    apply round_longer; [|rewrite length_take; cbn in *; lia| |done|].
    + rewrite <- ET, take_drop. cbn in *. lia.
    + by rewrite EP.
    + rewrite Hn, EP. cbn [length]. by rewrite base_0.
  - cbn [mbind option_bind]. unfold decimal_make_zero. rewrite Eb. change (wr (x :: b) 0 0) with (Some (0 :: b)). cbn [mbind option_bind].
    eexists. split; [reflexivity|]. replace 0 with (Z.max scale 0) at 1 by (unfold m in *; lia).
    pose proof (round_zero b) as H. rewrite Hf0 in H. apply H; [cbn in *; lia|done].
Qed.

Lemma round_words_spec :
  ∃ to', round_words d mode (round_digit mode (sign d)) (Z.of_nat (ni d)) frac0 (Z.of_nat (nf d)) scale E_DEC_OK
         = Some (to', E_DEC_OK) ∧ rounds_to mode scale (nf d) d to'.
Proof.
  destruct (decide (length P = 0%nat)) as [E0|E0]; [apply round_nothing; by apply nil_length_inv|].
  destruct (snoc_view P (length P - 1)) as (P0 & w & EP & _); [lia|]. pose proof (round_last P0 w EP) as E. fold p in E. unfold round_words. fold p.
  rewrite E. cbn [mbind option_bind]. rewrite rd_app. cbn [mbind option_bind].
  assert (Hb : 0 ≤ round_word m w up ≤ DIG_BASE).
  { pose proof kept_digits as DP. rewrite EP in DP. apply Forall_app in DP as [_ DP%Forall_inv]. apply (round_word_bound m w up 9); [lia|done]. }
  destruct (Z.leb_spec DIG_BASE (round_word m w up)) as [Hc|Hc].
  - assert (Hw : round_word m w up = DIG_BASE) by lia. rewrite wr_app. cbn [mbind option_bind]. rewrite Hw, Z.sub_diag.
    exact (round_carried P0 w EP Hw).
  - exact (round_small P0 w EP Hc).
Qed.
End Words.

(** ** The function *)

(** The words of the operand and of the result fit, with one more word for a carry if the first word is full. *)
Definition rounding_room (d : decimal_t) (scale : Z) : Prop :=
  let n := ROUND_UP (intg d) + ROUND_UP (Z.max scale 0) in n < len d ∨ n ≤ len d ∧ intg d mod 9 ≠ 0.

Lemma rounded_exact mode s D V : 0 < D → (D | V) → rounded mode s D V = V.
Proof.
  intros HD [k ->]. unfold rounded, rounds_up. rewrite Z.mod_mul, Z.div_mul by lia. rewrite (proj2 (Z.leb_gt _ _)), (proj2 (Z.ltb_ge _ _)), (proj2 (Z.eqb_neq _ _)) by lia.
  destruct mode, s; cbn [orb andb negb Z.eqb Z.b2z]; lia.
Qed.

Lemma rounded_small mode s D V : supported mode (-1) → 0 ≤ V → 2 * V < D → rounded mode s D V = 0.
Proof.
  intros Hm HV HD. unfold rounded, rounds_up. rewrite Z.mod_small, Z.div_small by lia. rewrite (proj2 (Z.leb_gt _ _)) by lia.
  destruct mode; cbn in *; try done; lia.
Qed.

(** The digits that the scale cuts off. *)
Lemma cut_divides d F s : tight d → (nf d ≤ F)%nat → frac d ≤ s ≤ 9 * Z.of_nat F → (10 ^ (9 * Z.of_nat F - s) | mant_at F d).
Proof.
  intros HT HF Hs. pose proof (tg_wf d HT) as W. rewrite (mant_scale (nf d) F d) by (done || lia). unfold mant_at. rewrite words_at_ge, Nat.sub_diag, app_nil_r by (done || lia).
  etransitivity; [|apply Z.mul_divide_mono_r, (words_divide d HT)]. exists (10 ^ (s - frac d)). pose proof (spare_range d W) as Hsp. unfold spare, base, DIG_BASE in *.
  change 1000000000 with (10 ^ 9). rewrite <- Z.pow_mul_r, <- !Z.pow_add_r by lia. f_equal. lia.
Qed.

(** The same number with digits or zeroes to the scale. *)
Lemma round_longer_fraction d mode scale T :
  let f0 := Z.to_nat (ROUND_UP scale) in
  tight d → frac d ≤ scale → length (words d ++ replicate (f0 - nf d) 0 ++ T) = length (buf d) → len d ≤ 7281 →
  rounds_to mode scale f0 d (mk_decimal (intg d) scale (len d) (sign d) (words d ++ replicate (f0 - nf d) 0 ++ T)).
Proof.
  intros f0 HT Hf HL Hb. pose proof (tg_wf d HT) as W. pose proof (wf_frac d W). pose proof (wf_intg d W). pose proof (wf_some d W).
  pose proof (ni_spec d W) as Eni. pose proof (nf_spec d W) as Enf. pose proof (words_some d W). pose proof (length_words d W) as HLw.
  assert (Ef0 : ROUND_UP scale = Z.of_nat f0) by (unfold f0; rewrite Z2Nat.id; [done|]; rewrite ROUND_UP_spec by lia; divlia).
  assert (Hnf : (nf d ≤ f0)%nat) by (rewrite ROUND_UP_spec in * by lia; divlia).
  assert (Hspare : 0 ≤ 9 * Z.of_nat f0 - scale ≤ 8) by (rewrite ROUND_UP_spec in * by lia; divlia).
  assert (Hsh : shaped (intg d) scale (words d ++ replicate (f0 - nf d) 0) 0).
  { split; rewrite ?length_app, ?length_replicate; try lia.
    - apply Forall_app. split; [apply W|apply digits_zeroes].
    - intros Hi. pose proof (tg_first d HT) as H'. unfold int_words, first_digits in H'. rewrite take_take in H'. rewrite Eni.
      destruct (ni_cases d W) as [[_ ?]|[? _]]; [lia|]. rewrite Nat.min_l in H' by lia. by rewrite take_app_le by lia.
    - intros Hs. rewrite Ef0. destruct (decide (f0 = nf d)) as [E|E].
      + rewrite E, Nat.sub_diag, app_nil_r, Nat.add_0_r. pose proof (tg_last d HT) as H'. unfold frac_words in H'. rewrite drop_drop in H'.
        replace (ni d + (nf d - 1))%nat with (length (words d) - 1)%nat in H' by lia. refine (list.Forall_impl _ _ _ H' _). intros x Hx.
        apply Z.mod_divide; [apply Z.pow_nonzero; lia|]. apply Z.mod_divide in Hx; [|apply Z.pow_nonzero; lia].
        etransitivity; [|exact Hx]. exists (10 ^ (scale - frac d)). rewrite <- Z.pow_add_r by lia. f_equal. lia.
      + rewrite drop_app_ge by lia. rewrite drop_replicate. apply Forall_replicate, Z.mod_0_l, Z.pow_nonzero; lia. }
  rewrite (wf_len d W), <- HL, app_assoc. destruct (shaped_value _ _ _ 0 T (sign d) f0 Hsh) as [Ht Hv]; [lia|done|rewrite <- app_assoc, HL; pose proof (wf_len d W); lia|lia|].
  rewrite Ef0, Nat2Z.id, Nat.add_0_l, Nat.sub_diag, base_0, Z.mul_1_r in Hv.
  replace (num _) with (mant_at f0 d) in Hv by (unfold mant_at; by rewrite words_at_ge).
  split; [done|cbn [frac]; lia|cbn [len]; rewrite <- app_assoc, HL; pose proof (wf_len d W); lia|by rewrite Hv|].
  rewrite Hv. unfold negate. f_equal. rewrite rounded_exact; [done|..].
  - apply Z.pow_pos_nonneg; lia.
  - apply cut_divides; [done|done|lia].
Qed.

(** The words in front of the scale: [frac0] of the fraction, or fewer than all of the integer part. *)
Definition scale_frac (scale : Z) : Z := if 0 <? scale then ROUND_UP scale else Z.quot scale DIG_PER_DEC1.

Lemma scale_frac_spec scale : 0 ≤ 9 * scale_frac scale - scale ≤ 8 ∧ ROUND_UP (Z.max scale 0) = Z.max (scale_frac scale) 0 ∧ (scale_frac scale ≤ 0 → scale ≤ 0).
Proof.
  unfold scale_frac, DIG_PER_DEC1. destruct (Z.ltb_spec 0 scale) as [H|H].
  - rewrite !ROUND_UP_spec by lia. rewrite Z.max_l by lia. divlia.
  - rewrite ROUND_UP_spec by lia. replace scale with (- (- scale)) at 1 2 3 4 5 by lia. rewrite Z.quot_opp_l, Z.quot_div_nonneg by lia. divlia.
Qed.

(** The copy of the words to the result. *)
Lemma copied d to scale :
  let n := Z.of_nat (ni d) + Z.max (Z.of_nat (nf d)) (scale_frac scale) in
  tight d → buffer d → buffer to → len to = len d → rounding_room d scale →
  ∃ b, copy_down (Z.to_nat n) (buf to) n (buf d) n = Some b ∧ length b = length (buf d)
    ∧ let d1 := mk_decimal (Z.of_nat (ni d) * 9) (frac d) (len d) (sign d) b in tight d1 ∧ words d1 = words d ∧ ni d1 = ni d.
Proof.
  intros n HT [Hl Hb] [Hlt Hbt] El Hroom. pose proof (tg_wf d HT) as W. pose proof (scale_frac_spec scale) as (_ & Hs & _).
  pose proof (wf_fit d W) as Hfit. unfold rounding_room in Hroom. rewrite Hs, ni_spec in Hroom by done.
  set (k := Z.to_nat n). assert (Ek : n = Z.of_nat k) by (unfold k, n; lia). assert (Hk : (ni d + nf d ≤ k ≤ length (buf d))%nat) by (unfold n in *; lia).
  exists (take k (buf d) ++ drop k (buf to)). split.
  - rewrite Ek. pose proof (copy_down_spec k (buf to) k (drop k (buf to)) [] (take k (buf d)) (drop k (buf d))) as E.
    cbn [app length] in E. rewrite !take_drop, Nat.sub_diag in E. apply E; [lia|rewrite length_take; lia].
  - split; [rewrite length_app, length_take, length_drop; lia|]. cbv zeta. set (d1 := mk_decimal _ _ _ _ _).
    assert (Hn1 : ni d1 = ni d) by (unfold d1; unfold ni at 1; cbn [intg]; rewrite ROUND_UP_spec by lia; divlia).
    assert (Hw1 : words d1 = words d).
    { unfold words. rewrite Hn1. change (nf d1) with (nf d). unfold d1. cbn [buf]. rewrite take_app_le by (rewrite length_take; lia). by rewrite take_take, Nat.min_l by lia. }
    split_and!; [|done|done]. destruct HT as [_ H1 H2 H3]. split.
    + destruct W as [Wi Wf Ws Wl Wfit Wd]. pose proof (ni_spec d ltac:(done)) as Eni. rewrite ROUND_UP_spec in Eni by done.
      split; rewrite ?Hw1; try done; unfold d1; cbn [intg frac len buf]; [lia|divlia|rewrite length_app, length_take, length_drop; lia|].
      rewrite length_app, length_take, length_drop. fold d1. rewrite Hn1. change (nf d1) with (nf d). lia.
    + by rewrite Hn1.
    + unfold int_words, first_digits in *. rewrite Hw1, Hn1. unfold d1. cbn [intg]. refine (list.Forall_impl _ _ _ H2 _). intros x Hx.
      apply (Z.lt_le_trans _ _ _ Hx), Z.pow_le_mono_r; [done|]. pose proof (ni_spec d W) as Eni. rewrite ROUND_UP_spec in Eni by apply (wf_intg d W). divlia.
    + unfold frac_words in *. rewrite Hw1, Hn1. exact H3.
Qed.

(** The words of fraction that show both the operand and the result. *)
Definition round_frac (d : decimal_t) (scale : Z) : nat := Nat.max (nf d) (Z.to_nat (ROUND_UP (Z.max scale 0))).

(** What is done with the copied words. *)
Lemma round_copy d d0 mode scale :
  let frac0 := scale_frac scale in
  copy_of d d0 → tight d → buffer d → len d0 = len d → rounding_room d0 scale → 0 ≤ scale + intg d0 → supported mode scale →
  ∃ to', (if Z.of_nat (nf d) <? frac0 then
            b ← fill_up (Z.to_nat (frac0 - Z.of_nat (nf d))) 0 (buf d) (Z.of_nat (ni d) + Z.of_nat (nf d));
            Some (set_frac scale (set_buf b d), E_DEC_OK)
          else if frac d <=? scale then Some (set_frac scale d, E_DEC_OK)
          else round_words d mode (round_digit mode (sign d)) (Z.of_nat (ni d)) frac0 (Z.of_nat (nf d)) scale E_DEC_OK)
    = Some (to', E_DEC_OK) ∧ rounds_to mode scale (round_frac d scale) d to'.
Proof.
  intros frac0 Hc HT Hb El Hroom Hin Hmode. pose proof (tg_wf d HT) as W. pose proof (wf_frac d W). pose proof (nf_spec d W) as Enf. rewrite ROUND_UP_spec in Enf by done.
  destruct (scale_frac_spec scale) as (Hm & Hs & Hsc). fold frac0 in Hm, Hs, Hsc. pose proof (tg_wf _ (cp_tight _ _ Hc)) as W0.
  unfold rounding_room in Hroom. rewrite ni_spec, (cp_ni _ _ Hc), Hs, El in Hroom by done. unfold round_frac. rewrite Hs. pose proof Hb as [Hl Hlb].
  pose proof (length_words d W) as HLw. pose proof (wf_fit d W) as Hfit. pose proof (buf_words d) as Eb.
  destruct (Z.ltb_spec (Z.of_nat (nf d)) frac0) as [Hlong|Hshort].
  - replace (Nat.max _ _) with (Z.to_nat (ROUND_UP scale)) by (rewrite Z.max_l in Hs; lia). rewrite Z.max_l in Hs by lia.
    set (R := drop (ni d + nf d) (buf d)) in *. assert (HR : length (buf d) = (ni d + nf d + length R)%nat) by (rewrite Eb at 1; rewrite length_app; lia).
    rewrite Eb, <- (take_drop (Z.to_nat (frac0 - Z.of_nat (nf d))) R). replace (Z.of_nat (ni d) + Z.of_nat (nf d)) with (Z.of_nat (length (words d))) by lia.
    rewrite fill_up_spec by (rewrite length_take; lia). cbn [mbind option_bind]. eexists. split; [reflexivity|]. unfold set_frac, set_buf. cbn [intg frac len sign buf].
    replace (Z.to_nat (frac0 - Z.of_nat (nf d))) with (Z.to_nat (ROUND_UP scale) - nf d)%nat by lia.
    apply round_longer_fraction; [done|divlia| |lia]. rewrite !length_app, length_replicate, length_drop, HLw. lia.
  - destruct (Z.leb_spec (frac d) scale) as [Hle|Hlt].
    + replace (Nat.max _ _) with (Z.to_nat (ROUND_UP scale)) by (rewrite Z.max_l in Hs by lia; rewrite ROUND_UP_spec in * by lia; divlia).
      eexists. split; [reflexivity|]. unfold set_frac. rewrite Eb at 1.
      assert (E0 : (Z.to_nat (ROUND_UP scale) - nf d)%nat = 0%nat) by (rewrite Z.max_l in Hs by lia; lia).
      pose proof (round_longer_fraction d mode scale (drop (ni d + nf d) (buf d)) HT Hle) as Hr. rewrite E0 in Hr. cbn [replicate app] in Hr.
      rewrite <- Eb in Hr. rewrite <- Eb. apply Hr; [done|lia].
    + rewrite Nat.max_l by lia. set (N := Z.to_nat (Z.of_nat (ni d) + frac0)).
      assert (HN : Z.of_nat N = Z.of_nat (ni d) + frac0).
      { unfold N. pose proof (ni_spec d0 W0) as E0. rewrite (cp_ni _ _ Hc), ROUND_UP_spec in E0 by apply (wf_intg _ W0). divlia. }
      apply (round_words_spec d mode scale frac0 (take N (words d)) (drop N (words d)) HT Hb) with (d0 := d0); try done; [by rewrite take_drop|rewrite length_take; lia|].
      destruct Hroom as [|[? ?]]; [left; lia|right; split; [lia|done]].
Qed.

(** The scale is in front of all digits. *)
Lemma round_away d mode scale b :
  tight d → buffer d → length (0 :: b) = length (buf d) → scale + intg d < 0 → supported mode scale →
  rounds_to mode scale (round_frac d scale) d (mk_decimal 1 0 (len d) false (0 :: b)).
Proof.
  intros HT [Hl Hb] HL Hsc Hmode. pose proof (tg_wf d HT) as W. pose proof (wf_intg d W). pose proof (wf_frac d W).
  assert (Hsh : shaped 1 0 [0] 0) by (split; try done; by repeat constructor).
  replace (round_frac d scale) with (nf d) by (unfold round_frac; rewrite Z.max_r by lia; change (ROUND_UP 0) with 0; lia).
  rewrite Hl, <- HL. destruct (shaped_value 1 0 [0] 0 b false (nf d) Hsh) as [Ht Hv]; [lia|done|cbn [app]; lia|change (ROUND_UP 0) with 0; lia|].
  split; [done|cbn [frac]; lia|cbn [len]; lia|done|]. cbn [app] in Hv. rewrite Hv, rounded_small; [unfold negate; cbn [num]; lia| | |].
  - destruct mode; cbn in *; try done; lia.
  - apply (mant_at_nonneg _ _ W).
  - unfold mant_at. rewrite words_at_ge, Nat.sub_diag, app_nil_r by (done || lia). pose proof (words_bound d HT) as Hw.
    assert (E : 10 ^ (9 * Z.of_nat (nf d) - scale) = 10 ^ (- scale - intg d) * (10 ^ intg d * base (nf d))).
    { unfold base, DIG_BASE. change 1000000000 with (10 ^ 9). rewrite <- Z.pow_mul_r, <- !Z.pow_add_r by lia. f_equal. lia. }
    rewrite E. assert (10 ^ 1 ≤ 10 ^ (- scale - intg d)) by (apply Z.pow_le_mono_r; lia).
    assert (0 < 10 ^ intg d * base (nf d)) by (apply Z.mul_pos_pos; [apply Z.pow_pos_nonneg; lia|apply base_pos]). nia.
Qed.

Lemma decimal_round_spec d to same scale mode :
  tight d → buffer d → buffer to → len to = len d → rounding_room d scale → supported mode scale →
  ∃ to', decimal_round d to same scale mode = Some (to', E_DEC_OK) ∧ rounds_to mode scale (round_frac d scale) d to'.
Proof.
  intros HT Hb Hbt El Hroom Hmode. pose proof (tg_wf d HT) as W. destruct (scale_frac_spec scale) as (_ & Hs & _).
  unfold decimal_round. fold (scale_frac scale). rewrite ni_spec, nf_spec by done.
  assert (Hto : ∀ to1, buffer to1 → len to1 = len d → (len to1 <? scale_frac scale + Z.of_nat (ni d)) = false
     ∧ ∃ x b, buf to1 = x :: b ∧ length (0 :: b) = length (buf d)).
  { intros to1 [Hl1 Hb1] E1. destruct Hb as [Hl _]. split; [unfold rounding_room in Hroom; rewrite Hs, ni_spec in Hroom by done; apply Z.ltb_ge; lia|].
    destruct (buf to1) as [|x b]; [cbn in Hl1; lia|]. exists x, b. split; [done|]. cbn [length] in *. lia. }
  assert (Hz : scale + intg d < 0 → ∀ to1, buffer to1 → len to1 = len d →
     ∃ to', (to ← decimal_make_zero to1; Some (to, E_DEC_OK)) = Some (to', E_DEC_OK) ∧ rounds_to mode scale (round_frac d scale) d to').
  { intros Hneg to1 B1 E1. destruct (Hto to1 B1 E1) as (_ & x & b & Ex & HL). unfold decimal_make_zero. rewrite Ex. eexists. split; [reflexivity|].
    rewrite E1. by apply round_away. }
  destruct same.
  - destruct (Hto d Hb eq_refl) as [-> _]. destruct (Z.ltb_spec (scale + intg d) 0) as [Hneg|Hin]; [by apply Hz|]. cbn [mbind option_bind].
    by apply (round_copy d d mode scale).
  - destruct (Hto to Hbt El) as [-> _]. destruct (Z.ltb_spec (scale + intg d) 0) as [Hneg|Hin]; [by apply Hz|].
    destruct (copied d to scale HT Hb Hbt El Hroom) as (b & Eb & HLb & T1 & Hw1 & Hn1). rewrite Eb. cbn [mbind option_bind].
    rewrite El, Z.min_l by (unfold rounding_room in Hroom; rewrite Hs, ni_spec in Hroom by done; lia).
    set (d1 := mk_decimal _ (frac d) _ _ _) in *. assert (B1 : buffer d1) by (split; cbn [len buf d1]; [by rewrite HLb; apply Hb|apply Hb]).
    assert (Hc : copy_of d1 d).
    { split; [done|done|done|]. cbn [intg d1]. pose proof (ni_spec d W) as E. rewrite ROUND_UP_spec in E by apply (wf_intg _ W). divlia. }
    destruct (round_copy d1 d mode scale Hc T1 B1 eq_refl Hroom Hin Hmode) as (to' & E & [R1 R2 R3 R4 R5]). exists to'. split.
    + rewrite <- E, Hn1. reflexivity.
    + split; try done; [intros Hs1; specialize (R4 Hs1); unfold value_at, mant_at, words_at in *; by rewrite Hw1, Hn1 in R4|].
      change (round_frac d scale) with (round_frac d1 scale). rewrite R5. do 2 f_equal. unfold mant_at, words_at. by rewrite Hw1, Hn1.
Qed.

(** C8. If the buffer of the operand has room for one word more than the integer part and the new fraction, or the first word
    is not full ([rounding_room]), then [decimal_round] stays in the buffers and returns the operand rounded to the scale, in
    the buffer of the operand or in one of its own of the same size: to the nearest multiple of [10^(-scale)], halves away from 0, or towards 0, for every scale, positive or
    negative; and up or down to the end of a word of the fraction.  The result is a decimal of exactly this scale whose
    words have no digits beyond it.  Without that room a carry is written behind the buffer ([round_leaves_buffer]). *)
Theorem decimal_round_exact d to same scale mode :
  tight d → buffer d → buffer to → len to = len d → rounding_room d scale → supported mode scale →
  ∃ to', decimal_round d to same scale mode = Some (to', E_DEC_OK) ∧ rounds_to mode scale (round_frac d scale) d to'.
Proof. apply decimal_round_spec. Qed.
