(* ===== verification/DecimalStore.v ===== *)
(** * Storing decimals in columns (sql/my_decimal.cc, my_decimal::to_binary)

    The value is copied, the zeroes at the end of its fraction are dropped, it is
    rounded to the scale of the column if it has more digits, and the result is
    written in the binary format. *)

From S2P Require Import Prelude MyBit Decimal DecimalFacts DecimalAdd DecimalBin DecimalBytes DecimalWrite DecimalRead DecimalColumn DecimalProduct DecimalInt DecimalRound DecimalRounding.

#[local] Open Scope Z_scope.

(** ** The code *)

(** [while (frac > 0 && *buf0 == 0)]: [frac] and [buf0] *)
Fixpoint actual_words (fuel : nat) (b : list Z) (buf0 frac i : Z) : option (Z * Z) :=
  match fuel with
  | O => None
  | S fuel =>
    if 0 <? frac then
      x ← rd b buf0;
      if x =? 0 then actual_words fuel b (buf0 - 1) (u16 (frac - i)) DIG_PER_DEC1 else Some (frac, buf0)
    else Some (frac, buf0)
  end.

(** [for (i= ..; *buf0 % powers10[i++] == 0; frac--)] for the word [x] *)
Fixpoint actual_digits (fuel : nat) (x i frac : Z) : option Z :=
  match fuel with
  | O => None
  | S fuel =>
    q ← rd powers10 i;
    if Z.rem x q =? 0 then actual_digits fuel x (i + 1) (u16 (frac - 1)) else Some frac
  end.

Definition decimal_actual_fraction (from : decimal_t) : option Z :=
  let frac := u16 (frac from) in
  let buf0 := ROUND_UP (intg from) + ROUND_UP frac - 1 in
  if frac =? 0 then Some 0 else
  '(frac, buf0) ← actual_words (S (Z.to_nat frac)) (buf from) buf0 frac ((frac - 1) mod DIG_PER_DEC1 + 1);
  if 0 <? frac then
    x ← rd (buf from) buf0;
    actual_digits 10 x (DIG_PER_DEC1 - (frac - 1) mod DIG_PER_DEC1) frac
  else Some frac.

(** The bytes and the error; [check_result] only reports it. *)
Definition to_binary (this : decimal_t) (bin : list Z) (prec scale : Z) : option (list Z * Z) :=
  frac ← decimal_actual_fraction this;
  let rounded := set_frac frac this in
  '(rounded, err1) ←
    (if scale <? frac then
       '(rounded, _) ← decimal_round rounded rounded true scale HALF_UP;
       Some (rounded, E_DEC_TRUNCATED)
     else Some (rounded, E_DEC_OK));
  '(bin, err2) ← decimal2bin rounded bin prec scale;
  Some (bin, if err2 =? E_DEC_OK then err1 else err2).

(** ** Zeroes at the end of the fraction *)

(** The words [L] without the zero words at their end. *)
Lemma actual_words_spec A L R fuel fr i :
  digits L → (length L < fuel)%nat → fr < 2 ^ 16 →
  (L = [] ∧ fr = 0 ∨ fr = 9 * (Z.of_nat (length L) - 1) + i ∧ 1 ≤ i ≤ 9 ∧ L ≠ []) →
  ∃ L' k, L = L' ++ replicate k 0
    ∧ ((L' = [] ∧ ∃ p, actual_words fuel (A ++ L ++ R) (Z.of_nat (length A + length L) - 1) fr i = Some (0, p))
       ∨ ∃ l w, L' = l ++ [w] ∧ w ≠ 0
          ∧ actual_words fuel (A ++ L ++ R) (Z.of_nat (length A + length L) - 1) fr i
            = Some (if (k =? 0)%nat then fr else 9 * Z.of_nat (length L'), Z.of_nat (length A + length l))).
Proof.
  revert R fuel fr i. induction L as [|x L IH] using rev_ind; intros R [|fuel] fr i D Hf Hfr Hcase; try (cbn in Hf; lia).
  - exists [], 0%nat. split; [done|]. left. split; [done|]. destruct Hcase as [[_ ->]|(_ & _ & ?)]; [|done]. cbn [actual_words Z.ltb]. by eexists.
  - destruct Hcase as [[E _]|(Efr & Hi & _)]; [by destruct L|]. apply Forall_app in D as [D Hx%Forall_inv]. rewrite length_app in *. cbn [length] in *.
    cbn [actual_words]. rewrite (proj2 (Z.ltb_lt _ _)) by lia.
    replace (Z.of_nat (length A + (length L + 1)) - 1) with (Z.of_nat (length A) + Z.of_nat (S (length L)) - 1) by lia.
    rewrite rd_snoc by done. cbn [mbind option_bind]. destruct (Z.eqb_spec x 0) as [->|Hx0].
    + replace (A ++ (L ++ [0]) ++ R) with (A ++ L ++ 0 :: R) by (by rewrite <- app_assoc).
      replace (Z.of_nat (length A) + Z.of_nat (S (length L)) - 1 - 1) with (Z.of_nat (length A + length L) - 1) by lia.
      unfold u16. rewrite Z.mod_small by lia.
      destruct (IH (0 :: R) fuel (fr - i) DIG_PER_DEC1 D) as (L' & k & EL & H); [lia|lia|unfold DIG_PER_DEC1; destruct L; [left; cbn in *; split; [done|lia]|right; cbn [length] in *; split_and!; [lia..|done]]|].
      exists L', (S k). split; [by rewrite EL, replicate_S_end, <- app_assoc at 1|]. destruct H as [[E0 [p Ep]]|(l & w & El & Hw & Ep)].
      * left. split; [done|]. by exists p.
      * right. exists l, w. split_and!; [done|done|]. rewrite Ep. destruct k; [|done]. cbn [Nat.eqb]. do 2 f_equal.
        rewrite EL, app_nil_r in Efr. lia.
    + exists (L ++ [x]), 0%nat. split; [by rewrite app_nil_r|]. right. exists L, x. split_and!; [done|done|]. cbn [Nat.eqb]. do 2 f_equal. lia.
Qed.

Lemma actual_digits_spec fuel x i fr :
  0 < x < DIG_BASE → 1 ≤ i ≤ 9 → x mod 10 ^ (i - 1) = 0 → 9 - i ≤ fr < 2 ^ 16 → (Z.to_nat (9 - i) < fuel)%nat →
  ∃ t, actual_digits fuel x i fr = Some (fr - t) ∧ 0 ≤ t ∧ i + t ≤ 9 ∧ x mod 10 ^ (i + t - 1) = 0 ∧ x mod 10 ^ (i + t) ≠ 0.
Proof.
  revert i fr. induction fuel as [|fuel IH]; intros i fr Hx Hi H0 Hfr Hf; [lia|]. cbn [actual_digits]. rewrite powers10_pow by lia. cbn [mbind option_bind].
  assert (Hp : 0 < 10 ^ i) by (apply Z.pow_pos_nonneg; lia). rewrite Z.rem_mod_nonneg by lia. destruct (Z.eqb_spec (x mod 10 ^ i) 0) as [E|E].
  - assert (i ≠ 9) by (intros ->; rewrite Z.mod_small in E by (unfold DIG_BASE in Hx; lia); lia).
    unfold u16. rewrite Z.mod_small by lia. destruct (IH (i + 1) (fr - 1)) as (t & Et & Ht & Hit & Hz & Hnz); [done|lia|by replace (i + 1 - 1) with i by lia|lia|lia|].
    exists (t + 1). replace (i + (t + 1)) with (i + 1 + t) by lia. split_and!; [rewrite Et; f_equal; lia|lia|lia|done|done].
  - exists 0. rewrite !Z.add_0_r, Z.sub_0_r. split_and!; [done|lia|lia|done|done].
Qed.

(** ** The actual fraction *)

(** [d] without the zeroes at the end of its fraction, which has [f] digits then. *)
Record trims (d : decimal_t) (f : Z) : Prop := {
  tm_range : 0 ≤ f ≤ frac d;
  tm_tight : tight (set_frac f d);
  tm_words : (nf (set_frac f d) ≤ nf d)%nat;
  tm_mant : ∀ F, (nf d ≤ F)%nat → mant_at F (set_frac f d) = mant_at F d;
  tm_last : ∀ F, (nf d ≤ F)%nat → 0 < f → ¬ (10 ^ (9 * Z.of_nat F - f + 1) | mant_at F d);
}.

(** The shorter decimal, with the words [L] of fraction. *)
Lemma trims_words d L k f :
  tight d → frac_words d = L ++ replicate k 0 → 0 ≤ f ≤ frac d → 0 < intg d + f →
  (L = [] ∧ f = 0 ∨ ∃ l w, L = l ++ [w] ∧ 9 * (Z.of_nat (length L) - 1) < f ≤ 9 * Z.of_nat (length L)
     ∧ w mod 10 ^ (9 * Z.of_nat (length L) - f) = 0 ∧ w mod 10 ^ (9 * Z.of_nat (length L) - f + 1) ≠ 0) →
  trims d f.
Proof.
  intros HT EL Hf Hpos Hcase. pose proof (tg_wf d HT) as W. pose proof (length_frac_words d W) as HLf. rewrite EL, length_app, length_replicate in HLf.
  set (d' := set_frac f d). assert (Hn : ni d' = ni d) by done.
  assert (Hnf : nf d' = length L).
  { unfold nf, d'. cbn [set_frac frac]. rewrite ROUND_UP_spec by lia. destruct Hcase as [[-> ->]|(l & w & E & Hr & _)]; [done|]. divlia. }
  assert (Ew : words d = int_words d ++ L ++ replicate k 0) by (rewrite <- EL; unfold int_words, frac_words; by rewrite take_drop).
  assert (Ew' : words d' = int_words d ++ L).
  { pose proof (buf_words d) as Eb. rewrite Ew in Eb. unfold words. rewrite Hn, Hnf. change (buf d') with (buf d). rewrite Eb.
    rewrite <- (length_int_words d W), <- length_app. rewrite <- !app_assoc, (app_assoc (int_words d) L). apply take_app_length. }
  assert (W' : wf d').
  { destruct W as [Wi Wf Ws Wl Wfit Wd]. split; [done|change (frac d') with f; lia|done|done|rewrite Hn, Hnf; change (buf d') with (buf d); lia|].
    rewrite Ew'. rewrite Ew, app_assoc in Wd. by apply Forall_app in Wd as [Wd _]. }
  assert (Ei : int_words d' = int_words d) by (unfold int_words at 1; rewrite Hn, Ew'; rewrite <- (length_int_words d W) at 1; apply take_app_length).
  assert (Ef : frac_words d' = L) by (unfold frac_words; rewrite Hn, Ew'; rewrite <- (length_int_words d W); apply drop_app_length).
  assert (Em : ∀ F, (nf d ≤ F)%nat → mant_at F d = num (int_words d ++ L) * base (F - length L)).
  { intros F HF. unfold mant_at. rewrite words_at_ge, Ew by done. rewrite <- !app_assoc, <- replicate_add, app_assoc, num_app, num_zeroes, length_replicate, Z.add_0_r.
    do 2 f_equal. lia. }
  split; fold d'; [done| |lia| |].
  - destruct HT as [_ H1 H2 H3]. split; [done|done|by rewrite Ei|]. rewrite Ef, Hnf. change (frac d') with f.
    destruct Hcase as [[-> _]|(l & w & E & Hr & Hz & _)]; [constructor|]. rewrite E in Hz |- *. rewrite length_app in *. cbn [length] in *. rewrite Nat.add_sub, drop_app_length. by repeat constructor.
  - intros F HF. rewrite Em by done. unfold mant_at. rewrite words_at_ge by (done || lia). rewrite Ew', num_app, num_zeroes, length_replicate, Z.add_0_r, Hnf. done.
  - intros F HF Hf0 Hd. rewrite Em in Hd by done. destruct Hcase as [[_ ->]|(l & w & E & Hr & _ & Hnz)]; [lia|]. apply Hnz, Z.mod_divide; [apply Z.pow_nonzero; lia|].
    set (j := 9 * Z.of_nat (length L) - f + 1) in *.
    assert (Ep : 10 ^ (9 * Z.of_nat F - f + 1) = 10 ^ j * base (F - length L)).
    { unfold base, DIG_BASE. change 1000000000 with (10 ^ 9). rewrite <- Z.pow_mul_r, <- Z.pow_add_r by lia. f_equal. lia. }
    rewrite Ep in Hd. apply Z.mul_divide_cancel_r in Hd; [|pose proof (base_pos (F - length L)); lia]. rewrite E, app_assoc, num_snoc in Hd.
    apply (Z.divide_add_cancel_r _ (num (int_words d ++ l) * DIG_BASE)); [|done]. rewrite (pow_split j) by lia. exists (num (int_words d ++ l) * 10 ^ (9 - j)). ring.
Qed.

(** A fraction of zeroes only. *)
Lemma no_fraction d k :
  wf d → frac_words d = replicate k 0 → 0 < intg d ∨ mant_at (nf d) d ≠ 0 → 0 < intg d.
Proof.
  intros W EL [|Hm]; [done|]. pose proof (wf_intg d W). destruct (decide (intg d = 0)) as [Ei|]; [|lia].
  exfalso. apply Hm. unfold mant_at. rewrite words_at_ge, Nat.sub_diag, app_nil_r by (done || lia).
  rewrite <- (take_drop (ni d) (words d)). fold (int_words d) (frac_words d). rewrite EL, num_app, num_zeroes.
  pose proof (length_int_words d W) as LA. replace (ni d) with 0%nat in LA by (unfold ni; by rewrite Ei). apply nil_length_inv in LA. by rewrite LA.
Qed.

(** The digits of the last word that is not 0; [fr] digits of fraction are left before it is looked at. *)
Lemma actual_last d l w k fr :
  tight d → buffer d → frac_words d = (l ++ [w]) ++ replicate k 0 → w ≠ 0 →
  fr = (if (k =? 0)%nat then frac d else 9 * Z.of_nat (length (l ++ [w]))) →
  0 < fr ∧ ∃ f, actual_digits 10 w (DIG_PER_DEC1 - (fr - 1) mod DIG_PER_DEC1) fr = Some f ∧ trims d f.
Proof.
  intros HT [Hl Hb] EL Hw Efr. pose proof (tg_wf d HT) as W. pose proof (wf_fit d W) as Hfit. pose proof (nf_spec d W) as Enf.
  rewrite ROUND_UP_spec in Enf by apply (wf_frac d W). pose proof (wf_intg d W). pose proof (digits_frac_words d W) as DF. pose proof (length_frac_words d W) as HLf.
  set (L' := l ++ [w]) in *. assert (HL1 : length L' = S (length l)) by (unfold L'; rewrite length_app; cbn; lia).
  rewrite EL, length_app, length_replicate in HLf. pose proof (wf_frac d W).
  assert (Hfr : 9 * (Z.of_nat (length L') - 1) < fr ≤ 9 * Z.of_nat (length L') ∧ fr ≤ frac d) by (rewrite Efr; destruct (Nat.eqb_spec k 0); divlia).
  assert (Dw : digit w) by (rewrite EL in DF; apply Forall_app in DF as [DF _]; by apply Forall_app in DF as [_ DF%Forall_inv]). unfold digit in Dw.
  assert (Hz : w mod 10 ^ (9 * Z.of_nat (length L') - fr) = 0).
  { rewrite Efr. destruct (Nat.eqb_spec k 0) as [->|]; [|rewrite Z.sub_diag; apply Z.mod_1_r]. pose proof (tg_last d HT) as H3.
    rewrite EL, app_nil_r in H3. replace (nf d) with (length L') in H3 by lia. replace (length L' - 1)%nat with (length l) in H3 by lia.
    unfold L' in H3 at 2. rewrite drop_app_length in H3. by apply Forall_inv in H3. }
  split; [lia|]. unfold DIG_PER_DEC1. replace (9 - (fr - 1) mod 9) with (9 * Z.of_nat (length L') - fr + 1) by divlia.
  destruct (actual_digits_spec 10 w (9 * Z.of_nat (length L') - fr + 1) fr) as (t & -> & Ht & Hit & Hz1 & Hz2);
    [lia|lia|by rewrite Z.add_simpl_r|divlia|lia|].
  exists (fr - t). split; [done|]. apply (trims_words d L' k); [done|done|lia|lia|]. right. exists l, w. split; [done|].
  replace (9 * Z.of_nat (length L') - (fr - t)) with (9 * Z.of_nat (length L') - fr + 1 + t - 1) by lia. split; [lia|]. split; [done|].
  by replace (9 * Z.of_nat (length L') - fr + 1 + t - 1 + 1) with (9 * Z.of_nat (length L') - fr + 1 + t) by lia.
Qed.

Lemma actual_fraction_spec d :
  tight d → buffer d → 0 < intg d ∨ mant_at (nf d) d ≠ 0 → ∃ f, decimal_actual_fraction d = Some f ∧ trims d f.
Proof.
  intros HT HB Hnz. pose proof HB as [Hl Hb]. pose proof (tg_wf d HT) as W. pose proof (wf_frac d W) as Hf0. pose proof (nf_spec d W) as Enf.
  pose proof (wf_fit d W) as Hfit. pose proof (wf_some d W). rewrite ROUND_UP_spec in Enf by done. pose proof (length_frac_words d W) as HLf.
  unfold decimal_actual_fraction. assert (Eu : u16 (frac d) = frac d) by (apply Z.mod_small; divlia). rewrite Eu. clear Eu.
  destruct (Z.eqb_spec (frac d) 0) as [E0|E0].
  { exists 0. split; [done|]. apply (trims_words d [] 0); [done| |lia|lia|by left]. apply nil_length_inv. rewrite E0 in Enf. cbn in Enf. cbn. lia. }
  set (A := int_words d). set (L := frac_words d) in *. set (R := drop (ni d + nf d) (buf d)).
  assert (Eb : buf d = A ++ L ++ R) by apply buf_parts. assert (LA : length A = ni d) by (by apply length_int_words).
  assert (Ep : ROUND_UP (intg d) + ROUND_UP (frac d) - 1 = Z.of_nat (length A + length L) - 1) by (rewrite ni_spec, nf_spec by done; lia).
  destruct (actual_words_spec A L R (S (Z.to_nat (frac d))) (frac d) ((frac d - 1) mod 9 + 1)) as (L' & k & EL & Hcase);
    [by apply digits_frac_words|divlia|divlia|right; split_and!; [divlia|divlia|divlia|intros EL; rewrite EL in HLf; cbn in HLf; divlia]|].
  rewrite <- Ep, <- Eb in Hcase. unfold DIG_PER_DEC1. destruct Hcase as [[-> [p E]]|(l & w & -> & Hw & E)]; rewrite E; cbn [mbind option_bind].
  - exists 0. split; [done|]. apply (trims_words d [] k); [done|done|lia| |by left]. pose proof (no_fraction d k W EL Hnz). lia.
  - destruct (actual_last d l w k _ HT HB EL Hw eq_refl) as [Hpos Hf]. rewrite (proj2 (Z.ltb_lt _ _) Hpos).
    assert (Hrd : rd (buf d) (Z.of_nat (length A + length l)) = Some w).
    { rewrite Eb, EL, <- length_app. replace (A ++ ((l ++ [w]) ++ replicate k 0) ++ R) with ((A ++ l) ++ w :: replicate k 0 ++ R) by (by rewrite <- !app_assoc). apply rd_app. }
    rewrite Hrd. exact Hf.
Qed.

(** ** Rounding and storing *)

Lemma mant_int_words d F : wf d → (nf d ≤ F)%nat → num (int_words d) * base F ≤ mant_at F d.
Proof.
  intros W H. rewrite (mant_scale (nf d) F d) by (done || lia). unfold mant_at. rewrite words_at_ge, Nat.sub_diag, app_nil_r by (done || lia).
  rewrite <- (take_drop (ni d) (words d)). fold (int_words d) (frac_words d). rewrite num_app, length_frac_words by done.
  pose proof (num_bound _ (digits_frac_words d W)). pose proof (base_pos (F - nf d)). replace F with (nf d + (F - nf d))%nat at 1 by lia. rewrite base_add. nia.
Qed.

Lemma half_up_scale s D V B : 0 < D → 0 < B → rounded HALF_UP s (D * B) (V * B) = rounded HALF_UP s D V * B.
Proof.
  intros HD HB. unfold rounded, rounds_up. rewrite Z.div_mul_cancel_r, Z.mul_mod_distr_r by lia.
  replace (D * B <=? 2 * (V mod D * B)) with (D <=? 2 * (V mod D)) by (apply Bool.eq_iff_eq_true; rewrite !Z.leb_le; nia). ring.
Qed.

(** A decimal of the column whose value is [X] in units of the word [F], with a sign. *)
Lemma column_storable p s F sg X r :
  tight r → 0 ≤ frac r ≤ s → (scale_words s ≤ F)%nat → value_at F r = negate sg X → 0 ≤ X < 10 ^ (p - s) * base F → (sign r = true → X ≠ 0) →
  storable p s r ∧ value_at (scale_words s) r * base (F - scale_words s) = negate sg X.
Proof.
  intros T Hf HF Hv HX Hsg. pose proof (tg_wf r T) as W.
  assert (Hnf : (nf r ≤ scale_words s)%nat) by (unfold scale_words; pose proof (nf_spec r W) as E; rewrite ROUND_UP_spec in E by lia; divlia).
  pose proof (mant_scale (scale_words s) F r W ltac:(lia)) as Es. pose proof (mant_at_nonneg F r W) as Hm0. pose proof (base_pos (F - scale_words s)) as Hb.
  assert (Em : mant_at F r = X) by (unfold value_at, negate in Hv; destruct (sign r), sg; lia).
  split; [split; [done|split; [|lia]|]|].
  - pose proof (mant_int_words r F W ltac:(lia)). pose proof (base_pos F). apply (Z.mul_lt_mono_pos_r (base F)); lia.
  - intros Hs E0. apply (Hsg Hs). rewrite <- Em, Es, E0. done.
  - rewrite <- Hv. unfold value_at. rewrite Es. ring.
Qed.

(** The rounded decimal in words of the finer unit [F]. *)
Lemma rounds_finer d r s F :
  tight d → 0 ≤ s → s < frac d → (nf d ≤ F)%nat → rounds_to HALF_UP s (nf d) d r →
  value_at F r = negate (sign d) (rounded HALF_UP (sign d) (10 ^ (9 * Z.of_nat F - s)) (mant_at F d))
  ∧ (sign r = true → sign d = true ∧ (rounded HALF_UP (sign d) (10 ^ (9 * Z.of_nat F - s)) (mant_at F d) = 0 → mant_at F d = 0)).
Proof.
  intros HT Hs Hlt HF [Rt Rf Rl Rs Rv]. pose proof (tg_wf d HT) as W. assert (Wr : wf r) by apply Rt. pose proof (base_pos (F - nf d)) as HB.
  pose proof (nf_spec d W) as Ed. pose proof (nf_spec r Wr) as Er. rewrite ROUND_UP_spec in Ed, Er by lia.
  assert (ED : 10 ^ (9 * Z.of_nat F - s) = 10 ^ (9 * Z.of_nat (nf d) - s) * base (F - nf d)).
  { unfold base, DIG_BASE. change 1000000000 with (10 ^ 9). rewrite <- Z.pow_mul_r, <- Z.pow_add_r by divlia. f_equal. lia. }
  rewrite ED, (mant_scale (nf d) F d), half_up_scale by (done || lia || (apply Z.pow_pos_nonneg; divlia)).
  split.
  - unfold value_at in *. rewrite (mant_scale (nf d) F r), Z.mul_assoc, Rv by (done || divlia). unfold negate. ring.
  - intros Hs1. destruct (Rs Hs1) as [Hs2 Hz]. split; [done|]. intros E0%Z.mul_eq_0_l; [|lia].
    assert (E1 : value_at (nf d) d = 0) by (apply Hz; rewrite Rv, E0; unfold negate; lia). unfold value_at in E1. destruct (sign d); nia.
Qed.

(** What is stored: the value without the zeroes at its end, rounded if it still has more digits than the scale. *)
Lemma stored_value d f s :
  let F := round_frac d s in
  let D := 10 ^ (9 * Z.of_nat F - s) in
  tight d → buffer d → trims d f → (sign d = true → mant_at (nf d) d ≠ 0) → rounding_room d s → 0 ≤ s →
  ∃ r, (if s <? f then '(rounded, _) ← decimal_round (set_frac f d) (set_frac f d) true s HALF_UP; Some (rounded, E_DEC_TRUNCATED)
        else Some (set_frac f d, E_DEC_OK)) = Some (r, if mant_at F d mod D =? 0 then E_DEC_OK else E_DEC_TRUNCATED)
    ∧ tight r ∧ 0 ≤ frac r ≤ s ∧ value_at F r = negate (sign d) (rounded HALF_UP (sign d) D (mant_at F d))
    ∧ (sign r = true → rounded HALF_UP (sign d) D (mant_at F d) ≠ 0).
Proof.
  intros F D HT Hb [Hr T1 Hn1 Hm1 Hl1] Hsg Hroom Hs. set (d1 := set_frac f d) in *. pose proof (tg_wf d HT) as W. pose proof (tg_wf d1 T1) as W1.
  assert (HF : (nf d ≤ F)%nat) by (unfold F, round_frac; lia).
  assert (Hup : ROUND_UP s = Z.of_nat (scale_words s)) by (rewrite ROUND_UP_spec by done; unfold scale_words; divlia).
  assert (HsF : (scale_words s ≤ F)%nat ∧ s ≤ 9 * Z.of_nat F) by (unfold F, round_frac; rewrite Z.max_l, Hup by done; unfold scale_words in *; divlia).
  assert (HfF : f ≤ 9 * Z.of_nat F) by (pose proof (nf_spec d W) as E; rewrite ROUND_UP_spec in E by lia; divlia).
  assert (HD : 0 < D) by (apply Z.pow_pos_nonneg; lia). pose proof (base_pos (F - nf d)) as HB.
  assert (Hnz : sign d = true → mant_at F d ≠ 0) by (intros Hs1; rewrite (mant_scale (nf d) F d) by (done || lia); specialize (Hsg Hs1); nia).
  destruct (Z.ltb_spec s f) as [Hlt|Hge].
  - assert (HF1 : round_frac d1 s = nf d1).
    { unfold round_frac. rewrite Z.max_l, Hup by done. pose proof (nf_spec d1 W1) as E. change (frac d1) with f in E. rewrite ROUND_UP_spec in E by lia. unfold scale_words. divlia. }
    destruct (decimal_round_spec d1 d1 true s HALF_UP T1 Hb Hb eq_refl Hroom I) as (r & -> & Rr). cbn [mbind option_bind]. rewrite HF1 in Rr.
    destruct (rounds_finer d1 r s F T1 Hs Hlt ltac:(lia) Rr) as [Hv Hsr]. rewrite (Hm1 F HF) in Hv, Hsr. change (sign d1) with (sign d) in Hv, Hsr.
    rewrite (proj2 (Z.eqb_neq _ _)).
    + exists r. split; [done|]. split; [apply Rr|]. split; [rewrite (rt_frac _ _ _ _ _ Rr); lia|]. split; [done|].
      intros Hs1 E0. destruct (Hsr Hs1) as [Hs2 Hz]. by apply (Hnz Hs2), Hz.
    + intros E. apply Z.mod_divide in E; [|lia]. apply (Hl1 F HF ltac:(lia)). etransitivity; [|exact E]. exists (10 ^ (f - s - 1)).
      unfold D. rewrite <- Z.pow_add_r by lia. f_equal. lia.
  - assert (Hdiv : (D | mant_at F d)) by (rewrite <- (Hm1 F HF); apply cut_divides; [done|lia|change (frac d1) with f; lia]).
    exists d1. rewrite rounded_exact by done. rewrite (proj2 (Z.eqb_eq _ _)) by (apply Z.mod_divide; [lia|done]). split; [done|]. split; [done|].
    split; [change (frac d1) with f; lia|]. split; [unfold value_at, negate; by rewrite (Hm1 F HF)|]. intros Hs1. by apply Hnz.
Qed.

(** C4. A decimal whose words have only the digits it declares ([tight]), which is not a negative zero and not a zero without
    an integer digit, and whose value rounded to the scale of the column, halves away from 0, has no more integer digits than
    the column, is stored in a DECIMAL column as this rounded value: reading the bytes gives it, the error is E_DEC_TRUNCATED
    exactly if digits were lost, and neither the buffers nor the bytes of the column are left.  The buffer of the decimal
    has room for the carry of the rounding ([rounding_room]; [decimal_round] writes behind the buffer otherwise, see
    [round_leaves_buffer]). *)
Theorem column_stores_rounded p s size d out to :
  let F := round_frac d s in
  let D := 10 ^ (9 * Z.of_nat F - s) in
  let X := rounded HALF_UP (sign d) D (mant_at F d) in
  0 ≤ s ≤ p → 0 < p → decimal_bin_size p s = Some size → (Z.to_nat size ≤ length out)%nat →
  tight d → buffer d → 0 < intg d ∨ mant_at (nf d) d ≠ 0 → (sign d = true → mant_at (nf d) d ≠ 0) → rounding_room d s →
  X < 10 ^ (p - s) * base F →
  len to = Z.of_nat (length (buf to)) → decimal_size p s ≤ len to →
  ∃ bytes to', to_binary d out p s = Some (bytes, if mant_at F d mod D =? 0 then E_DEC_OK else E_DEC_TRUNCATED)
    ∧ drop (Z.to_nat size) bytes = drop (Z.to_nat size) out
    ∧ bin2decimal bytes to p s = Some (to', E_DEC_OK) ∧ wf to'
    ∧ value_at (scale_words s) to' * base (F - scale_words s) = negate (sign d) X.
Proof.
  intros F D X Hs Hp Esz Hout HT Hb Hnz Hsg Hroom HX Hlen Hto. destruct (actual_fraction_spec d HT Hb Hnz) as (f & Ef & Htr).
  unfold to_binary. rewrite Ef. cbn [mbind option_bind].
  destruct (stored_value d f s HT Hb Htr Hsg Hroom ltac:(lia)) as (r & -> & Tr & Hfr & Hv & Hsr). cbn [mbind option_bind].
  fold F in Hv, Hsr. fold D in Hv, Hsr. fold X in Hv, Hsr.
  assert (HsF : (scale_words s ≤ F)%nat) by (unfold F, round_frac, scale_words; rewrite Z.max_l, ROUND_UP_spec by lia; lia).
  assert (HX0 : 0 ≤ X).
  { unfold X, rounded. pose proof (mant_at_nonneg F d (tg_wf d HT)). assert (0 < D) by (apply Z.pow_pos_nonneg; unfold scale_words in HsF; divlia).
    apply Z.mul_nonneg_nonneg; [|lia]. pose proof (Z.div_pos (mant_at F d) D ltac:(lia) ltac:(done)). destruct (rounds_up _ _ _ _); cbn [Z.b2z]; lia. }
  destruct (column_storable p s F (sign d) X r Tr Hfr HsF Hv) as [Hst Hval]; [lia|done|].
  destruct (bin_roundtrip_spec p s size r out to Hs Hp Esz Hst Hout Hlen Hto) as (bytes & to' & -> & Hd & Hr & W' & Ev). cbn [mbind option_bind Z.eqb E_DEC_OK].
  exists bytes, to'. rewrite Ev. split_and!; done.
Qed.
