(* ===== verification/DecimalDemo.v ===== *)
(** * Decimals at work

    Concrete numbers for the results on decimals, an addition whose result has
    the wrong sign, a product that loses digits of its integer part, roundings that
    write outside of the buffer or count digits wrongly, and numbers with too many
    digits in the binary format. *)

From S2P Require Import Prelude MyBit KeyCodec Decimal DecimalFacts DecimalAdd DecimalSub DecimalDiff DecimalBin DecimalBytes DecimalWrite DecimalRead DecimalColumn DecimalMul DecimalRows DecimalProduct DecimalInt DecimalRound DecimalRounding DecimalStore.

#[local] Open Scope Z_scope.

Lemma wf_intro d :
  (0 <=? intg d) && (0 <=? frac d) && (0 <? intg d + frac d) && (len d =? Z.of_nat (length (buf d)))
    && (ni d + nf d <=? length (buf d))%nat && forallb (λ x, (0 <=? x) && (x <? DIG_BASE)) (words d) = true →
  wf d.
Proof.
  rewrite !andb_true_iff. intros [[[[[?%Z.leb_le ?%Z.leb_le] ?%Z.ltb_lt] ?%Z.eqb_eq] ?%Nat.leb_le] D].
  split; try done. apply list.Forall_forall. intros x Hx%list_elem_of_In.
  rewrite forallb_forall in D. apply D in Hx. unfold digit. lia.
Qed.

(** 12.000000034, and -1000000000.5 *)
Definition twelve : decimal_t := mk_decimal 2 9 3 false [12; 34; 77].
Definition billion : decimal_t := mk_decimal 10 1 4 true [1; 0; 500000000; 88].
Definition room : decimal_t := mk_decimal 0 0 2 false [5; 6].

Lemma decimal_add_correct_witness :
  wf twelve ∧ wf billion ∧ buffer room ∧
  ∃ to' error, decimal_add twelve billion room = Some (to', error)
    ∧ computed twelve billion room to' error 2 (λ F, value_at F twelve + value_at F billion).
Proof.
  assert (W1 : wf twelve) by by apply wf_intro.
  assert (W2 : wf billion) by by apply wf_intro.
  assert (B : buffer room) by done.
  split_and!; [done..|]. apply (decimal_add_correct twelve billion room); try done; vm_compute; lia.
Defined.

Lemma decimal_sub_correct_witness :
  wf twelve ∧ wf billion ∧ buffer room ∧
  ∃ to' error, decimal_sub twelve billion room = Some (to', error)
    ∧ computed twelve billion room to' error 2 (λ F, value_at F twelve - value_at F billion).
Proof.
  assert (W1 : wf twelve) by by apply wf_intro.
  assert (W2 : wf billion) by by apply wf_intro.
  assert (B : buffer room) by done.
  split_and!; [done..|]. apply (decimal_sub_correct twelve billion room); try done; vm_compute; lia.
Defined.

Lemma decimal_cmp_correct_witness :
  wf twelve ∧ wf billion ∧ decimal_cmp twelve billion
    = Some (Z.sgn (value_at 1 twelve - value_at 1 billion)).
Proof.
  assert (W1 : wf twelve) by by apply wf_intro.
  assert (W2 : wf billion) by by apply wf_intro.
  split_and!; [done..|]. apply (decimal_cmp_correct twelve billion W1 W2). right. by vm_compute.
Defined.

(** The sum of two negative numbers that is too large: the largest positive number. *)
Example add_overflow_is_positive :
  let d := mk_decimal 9 0 1 true [600000000] in
  decimal_add d d (mk_decimal 0 0 1 false [0]) = Some (mk_decimal 9 0 1 false [DIG_MAX], E_DEC_OVERFLOW).
Proof. by vm_compute. Qed.

(** A sum that fits is reported as an overflow: the first word decides. *)
Example add_overflow_that_fits :
  decimal_add (mk_decimal 9 0 1 false [DIG_MAX]) (mk_decimal 1 0 1 false [0]) (mk_decimal 0 0 1 false [0])
  = Some (mk_decimal 9 0 1 false [DIG_MAX], E_DEC_OVERFLOW).
Proof. by vm_compute. Qed.

(** ** DECIMAL(14,4) *)

(** The number of the comment above [decimal2bin], and -12.34 *)
Definition packed : decimal_t := mk_decimal 10 4 3 false [1; 234567890; 123400000].
Definition minus_twelve : decimal_t := mk_decimal 2 2 2 true [12; 340000000].
Definition column (d : decimal_t) : option (list Z * Z) := decimal2bin d (replicate 7 0) 14 4.

Lemma tight_intro d :
  wf d →
  (9 * Z.of_nat (ni d) <? 2 ^ 16) && forallb (λ w, w <? 10 ^ first_digits d) (take 1 (int_words d))
    && forallb (λ w, w mod 10 ^ (9 * Z.of_nat (nf d) - frac d) =? 0) (drop (nf d - 1) (frac_words d)) = true →
  tight d.
Proof.
  rewrite !andb_true_iff. intros W [[?%Z.ltb_lt Hfirst] Hlast].
  split; try done; apply list.Forall_forall; intros x Hx%list_elem_of_In.
  - rewrite forallb_forall in Hfirst. by apply Z.ltb_lt, Hfirst.
  - rewrite forallb_forall in Hlast. by apply Z.eqb_eq, Hlast.
Qed.

Lemma packed_tight : tight packed.
Proof. apply tight_intro; [by apply wf_intro|by vm_compute]. Qed.

Lemma minus_twelve_tight : tight minus_twelve.
Proof. apply tight_intro; [by apply wf_intro|by vm_compute]. Qed.

Lemma storable_intro p s d :
  tight d → (num (int_words d) <? 10 ^ (p - s)) && (frac d <=? s) && negb (mant_at (scale_words s) d =? 0) = true →
  storable p s d.
Proof. rewrite !andb_true_iff. by intros T [[?%Z.ltb_lt ?%Z.leb_le] Hz%negb_true_iff%Z.eqb_neq]. Qed.

Lemma packed_storable : storable 14 4 packed.
Proof. apply storable_intro; [exact packed_tight|by vm_compute]. Qed.

Lemma minus_twelve_storable : storable 14 4 minus_twelve.
Proof. apply storable_intro; [exact minus_twelve_tight|by vm_compute]. Qed.

(** The bytes of the comment. *)
Example packed_bytes :
  column packed = Some ([0x81; 0x0D; 0xFB; 0x38; 0xD2; 0x04; 0xD2], E_DEC_OK)
  ∧ column (mk_decimal 10 4 3 true (buf packed)) = Some ([0x7E; 0xF2; 0x04; 0xC7; 0x2D; 0xFB; 0x2D], E_DEC_OK).
Proof. by vm_compute. Qed.

Lemma decimal_bin_roundtrip_witness :
  storable 14 4 minus_twelve ∧
  ∃ bytes to', decimal2bin minus_twelve (replicate 9 0) 14 4 = Some (bytes, E_DEC_OK) ∧ drop 7 bytes = drop 7 (replicate 9 0)
    ∧ bin2decimal bytes (mk_decimal 0 0 3 false [5; 6; 7]) 14 4 = Some (to', E_DEC_OK) ∧ wf to'
    ∧ value_at (scale_words 4) to' = value_at (scale_words 4) minus_twelve.
Proof.
  split; [exact minus_twelve_storable|].
  apply (decimal_bin_roundtrip 14 4 7 minus_twelve (replicate 9 0) (mk_decimal 0 0 3 false [5; 6; 7]));
    [lia|lia|by vm_compute|exact minus_twelve_storable|vm_compute; lia|done|by vm_compute].
Defined.

Lemma decimal_bin_order_witness :
  storable 14 4 minus_twelve ∧ storable 14 4 packed ∧
  ∃ bytes1 bytes2, column minus_twelve = Some (bytes1, E_DEC_OK) ∧ column packed = Some (bytes2, E_DEC_OK)
    ∧ decimal_cmp minus_twelve packed = Some (memcmp bytes1 bytes2).
Proof.
  split_and!; [exact minus_twelve_storable|exact packed_storable|].
  apply (decimal_bin_order 14 4 7 minus_twelve packed (replicate 7 0) (replicate 7 0));
    [lia|lia|by vm_compute|exact minus_twelve_storable|exact packed_storable|done|done].
Defined.

(** 0.12 in a column DECIMAL(1,1): one and two digits both take one byte, so that
    the number is not cut off; reading the byte finds a number that is too large. *)
Example digits_beyond_the_scale :
  decimal2bin (mk_decimal 0 2 1 false [120000000]) [0] 1 1 = Some ([0x80 + 12], E_DEC_OK)
  ∧ bin2decimal [0x80 + 12] room 1 1 = Some (mk_decimal 1 0 2 false [0; 6], E_DEC_BAD_NUM).
Proof. by vm_compute. Qed.

(** A byte with two digits in a column DECIMAL(1,0) is accepted: its bound is the
    power of ten of one digit more. *)
Example first_word_too_large :
  bin2decimal [0x80 + 50] room 1 0 = Some (mk_decimal 1 0 2 false [50; 6], E_DEC_OK).
Proof. by vm_compute. Qed.

(** ** Products and integers *)

Definition room6 : decimal_t := mk_decimal 0 0 6 false [9; 9; 9; 9; 9; 9].

Lemma decimal_mul_exact_witness :
  tight packed ∧ tight minus_twelve ∧
  ∃ to', decimal_mul packed minus_twelve room6 = Some (to', E_DEC_OK)
    ∧ product 2 (value_at 1 packed * value_at 1 minus_twelve) 6 6 to'.
Proof.
  split_and!; [exact packed_tight|exact minus_twelve_tight|].
  apply (decimal_mul_exact packed minus_twelve room6); [exact packed_tight|exact minus_twelve_tight|done|by vm_compute].
Defined.

(** 1234567890.1234 times -12.34 is -15234567764.122756 *)
Example packed_times_minus_twelve :
  decimal_mul packed minus_twelve room6 = Some (mk_decimal 18 6 6 true [15; 234567764; 122756000; 0; 9; 9], E_DEC_OK).
Proof. by vm_compute. Qed.

(** A product that is too long for the buffer: of 10^18 + 1 times 10^26 + 10^(-37), whose integer part has five words and
    fits, nine words of room give 10^44.  The half of the missing words that is taken from the first factor is more than
    the fraction it has, and its last integer words are not multiplied. *)
Example mul_loses_integer_words :
  decimal_mul (mk_decimal 19 0 9 false [1; 0; 1]) (mk_decimal 27 38 9 false [100000000; 0; 0; 0; 0; 0; 0; 100000000])
    (mk_decimal 0 0 9 false (replicate 9 7))
  = Some (mk_decimal 45 0 9 false [100000000; 0; 0; 0; 0; 0; 0; 0; 0], E_DEC_TRUNCATED).
Proof. by vm_compute. Qed.

Lemma decimal_to_integers_witness :
  wf minus_twelve ∧ decimal2longlong minus_twelve = Some (-12, E_DEC_TRUNCATED)
  ∧ decimal2ulonglong minus_twelve = Some (0, E_DEC_OVERFLOW).
Proof.
  split; [exact (tg_wf _ minus_twelve_tight)|]. exact (decimal_to_integers minus_twelve (tg_wf _ minus_twelve_tight)).
Defined.

Lemma integer_decimal_roundtrip_witness :
  buffer room6 ∧
  ∃ to', longlong2decimal (- 2 ^ 63) room6 = Some (to', E_DEC_OK) ∧ integral (- 2 ^ 63) to'
    ∧ decimal2longlong to' = Some (- 2 ^ 63, E_DEC_OK).
Proof.
  assert (B : buffer room6) by done. split; [done|].
  apply (integer_decimal_roundtrip (- 2 ^ 63) room6); [done|done|by vm_compute].
Defined.

(** ** Rounding *)

Lemma decimal_round_exact_witness :
  tight packed ∧ rounding_room packed (-2) ∧ supported HALF_UP (-2) ∧
  ∃ to', decimal_round packed (mk_decimal 0 0 3 false [7; 7; 7]) false (-2) HALF_UP = Some (to', E_DEC_OK)
    ∧ rounds_to HALF_UP (-2) 1 packed to'.
Proof.
  assert (R : rounding_room packed (-2)) by (by left). split_and!; [exact packed_tight|exact R|done|].
  apply (decimal_round_exact packed (mk_decimal 0 0 3 false [7; 7; 7]) false (-2) HALF_UP); [exact packed_tight|done|done|done|exact R|done].
Defined.

(** 1234567890.1234 is stored in a column DECIMAL(12,2) as 1234567890.12. *)
Lemma column_stores_rounded_witness :
  tight packed ∧ rounding_room packed 2 ∧
  ∃ bytes to', to_binary packed (replicate 8 0) 12 2 = Some (bytes, E_DEC_TRUNCATED) ∧ drop 6 bytes = [0; 0]
    ∧ bin2decimal bytes room6 12 2 = Some (to', E_DEC_OK) ∧ wf to' ∧ value_at 1 to' * base 0 = 1234567890120000000.
Proof.
  assert (R : rounding_room packed 2) by (right; by vm_compute). split_and!; [exact packed_tight|exact R|].
  apply (column_stores_rounded 12 2 6 packed (replicate 8 0) room6);
    [lia|lia|by vm_compute|cbn; lia|exact packed_tight|done|by left|done|exact R|by vm_compute|done|by vm_compute].
Defined.

(** Halves: 12.5 is rounded to 13, 12.345 to 12.35, -0.05 to -0.1, and 149 to 100. *)
Example half_up_examples :
  decimal_round (mk_decimal 2 1 3 false [12; 500000000; 0]) room6 true 0 HALF_UP = Some (mk_decimal 2 0 3 false [13; 0; 0], E_DEC_OK)
  ∧ decimal_round (mk_decimal 9 3 3 false [12; 345000000; 0]) room6 true 2 HALF_UP = Some (mk_decimal 9 2 3 false [12; 350000000; 0], E_DEC_OK)
  ∧ decimal_round (mk_decimal 0 2 3 true [50000000; 0; 0]) room6 true 1 HALF_UP = Some (mk_decimal 0 1 3 true [100000000; 0; 0], E_DEC_OK)
  ∧ decimal_round (mk_decimal 3 0 3 false [149; 0; 0]) room6 true (-2) HALF_UP = Some (mk_decimal 3 0 3 false [100; 0; 0], E_DEC_OK).
Proof. by vm_compute. Qed.

(** Rounding 12.345678 to two digits in place: the number of integer digits becomes 3, because the word that is compared
    with the power of ten is a word of the fraction. *)
Example round_counts_digits_wrongly :
  let d := mk_decimal 2 6 3 false [12; 345678000; 7] in
  decimal_round d d true 2 HALF_UP = Some (mk_decimal 3 2 3 false [12; 350000000; 7], E_DEC_OK).
Proof. by vm_compute. Qed.

(** Rounding 81 nines to tens: the carry moves the nine words by one word, and the last one is written behind the buffer. *)
Example round_leaves_buffer :
  let d := mk_decimal 81 0 9 false (replicate 9 DIG_MAX) in decimal_round d d true (-1) HALF_UP = None.
Proof. by vm_compute. Qed.

(** The nearest even number to 12.51 is 13, but only the digit 5 is looked at. *)
Example half_even_looks_at_one_digit :
  let d := mk_decimal 2 2 3 false [12; 510000000; 0] in
  decimal_round d d true 0 HALF_EVEN = Some (mk_decimal 2 0 3 false [12; 0; 0], E_DEC_OK).
Proof. by vm_compute. Qed.
