(* ===== verification/MyTime.v ===== *)
(** * Temporal values (include/my_time.h, sql-common/my_time.c, sql/sql_time.cc)

    The data of DATE, DATETIME and TIME values and the operations on them: day
    numbers, weeks, validity checks, conversions from and to numbers, packing,
    comparison, differences and the addition of intervals.  [int] arithmetic
    that overflows is [None]; unsigned fields and variables keep their width. *)

From S2P Require Import Prelude MyBit.

#[local] Open Scope Z_scope.

(** ** Data *)

Inductive enum_mysql_timestamp_type :=
  | MYSQL_TIMESTAMP_NONE | MYSQL_TIMESTAMP_ERROR
  | MYSQL_TIMESTAMP_DATE | MYSQL_TIMESTAMP_DATETIME | MYSQL_TIMESTAMP_TIME.

#[export] Instance timestamp_type_eq_dec : EqDecision enum_mysql_timestamp_type.
Proof. solve_decision. Defined.

Record MYSQL_TIME := mk_time {
  year : Z; month : Z; day : Z; hour : Z; minute : Z; second : Z;
  second_part : Z;
  neg : bool;
  time_type : enum_mysql_timestamp_type;
}.

#[export] Instance MYSQL_TIME_eq_dec : EqDecision MYSQL_TIME.
Proof. solve_decision. Defined.

Definition set_date (y m d : Z) (t : MYSQL_TIME) : MYSQL_TIME :=
  mk_time y m d (hour t) (minute t) (second t) (second_part t) (neg t) (time_type t).
Definition set_clock (h i s f : Z) (t : MYSQL_TIME) : MYSQL_TIME :=
  mk_time (year t) (month t) (day t) h i s f (neg t) (time_type t).
Definition set_day (d : Z) (t : MYSQL_TIME) : MYSQL_TIME := set_date (year t) (month t) d t.
Definition set_neg (n : bool) (t : MYSQL_TIME) : MYSQL_TIME :=
  mk_time (year t) (month t) (day t) (hour t) (minute t) (second t) (second_part t) n (time_type t).
Definition set_type (ty : enum_mysql_timestamp_type) (t : MYSQL_TIME) : MYSQL_TIME :=
  mk_time (year t) (month t) (day t) (hour t) (minute t) (second t) (second_part t) (neg t) ty.

Definition MAX_DAY_NUMBER : Z := 3652424.
Definition YY_PART_YEAR : Z := 70.
Definition SECONDS_IN_24H : Z := 86400.
Definition TIME_MAX_HOUR : Z := 838.
Definition TIME_MAX_MINUTE : Z := 59.
Definition TIME_MAX_SECOND : Z := 59.
Definition TIME_MAX_SECOND_PART : Z := 999999.
Definition TIME_SECOND_PART_DIGITS : Z := 6.

(** [days_in_month], with the 0 behind December. *)
Definition days_in_month : list Z := [31; 28; 31; 30; 31; 30; 31; 31; 30; 31; 30; 31; 0].

(** ** The calendar *)

Definition calc_days_in_year (year : Z) : Z :=
  if (Z.land year 3 =? 0) && (negb (year mod 100 =? 0) || (year mod 400 =? 0) && negb (year =? 0))
  then 366 else 365.

Definition calc_daynr (year month day : Z) : option Z :=
  let y := s32 year in
  if (y =? 0) && (month =? 0) then Some 0 else
  a ← i32 (365 * y);
  m ← i32 (s32 month - 1);
  b ← i32 (31 * m);
  c ← i32 (a + b);
  delsum ← i32 (c + s32 day);
  '(delsum, y) ← (if month <=? 2 then y ← i32 (y - 1); Some (delsum, y)
    else e ← i32 (s32 month * 4); e ← i32 (e + 23); Some (delsum - Z.quot e 10, y));
  let temp := Z.quot ((Z.quot y 100 + 1) * 3) 4 in
  Some (delsum + Z.quot y 4 - temp).

(** [while (day_of_year > (days_in_year= calc_days_in_year(year)))] *)
Fixpoint skip_years (fuel : nat) (day_of_year year : Z) : option (Z * Z * Z) :=
  match fuel with
  | O => None
  | S fuel =>
    let days_in_year := calc_days_in_year year in
    if days_in_year <? day_of_year then skip_years fuel (day_of_year - days_in_year) (u32 (year + 1))
    else Some (day_of_year, year, days_in_year)
  end.

(** [for (month_pos= days_in_month ; day_of_year > *month_pos ; ...)] *)
Fixpoint skip_months (month_pos : list Z) (day_of_year month : Z) : option (Z * Z) :=
  match month_pos with
  | [] => None
  | n :: month_pos =>
    if n <? day_of_year then skip_months month_pos (day_of_year - n) (month + 1)
    else Some (day_of_year, month)
  end.

(** [Some None] is the return value 1. *)
Definition get_date_from_daynr (daynr : Z) : option (option (Z * Z * Z)) :=
  if (daynr <? 366) || (MAX_DAY_NUMBER <? daynr) then Some None else
  let year := u32 (Z.quot (daynr * 100) 36525) in
  let temp := u32 ((u32 (year - 1) / 100 + 1) * 3) / 4 in
  let day_of_year := u32 (u32 (daynr - year * 365) - u32 (year - 1) / 4 + temp) in
  '(day_of_year, year, days_in_year) ← skip_years (Z.to_nat day_of_year) day_of_year year;
  let '(day_of_year, leap_day) :=
    if (days_in_year =? 366) && (31 + 28 <? day_of_year)
    then (day_of_year - 1, if day_of_year - 1 =? 31 + 28 then 1 else 0)
    else (day_of_year, 0) in
  '(day_of_year, month) ← skip_months days_in_month day_of_year 1;
  Some (Some (year, month, day_of_year + leap_day)).

Definition calc_weekday (daynr : Z) (sunday_first_day_of_week : bool) : Z :=
  Z.rem (daynr + 5 + (if sunday_first_day_of_week then 1 else 0)) 7.

Definition WEEK_MONDAY_FIRST : Z := 1.
Definition WEEK_YEAR : Z := 2.
Definition WEEK_FIRST_WEEKDAY : Z := 4.

(** [(first_weekday && weekday != 0) || (!first_weekday && weekday >= 4)] *)
Definition late (first_weekday : bool) (weekday : Z) : bool :=
  first_weekday && negb (weekday =? 0) || negb first_weekday && (4 <=? weekday).

(** The part of [calc_week] behind the first [if]. *)
Definition finish_week (first_weekday : bool) (daynr year first_daynr weekday : Z) (week_year : bool) : Z * Z :=
  let days :=
    if late first_weekday weekday then u32 (daynr - u64 (first_daynr + u32 (7 - weekday)))
    else u32 (daynr - u64 (first_daynr - weekday)) in
  if week_year && (52 * 7 <=? days) then
    let weekday := u32 (weekday + calc_days_in_year year) mod 7 in
    if negb (late first_weekday weekday) then (1, u32 (year + 1)) else (days / 7 + 1, year)
  else (days / 7 + 1, year).

(** The week and, in second place, [*year]. *)
Definition calc_week (l_time : MYSQL_TIME) (week_behaviour : Z) : option (Z * Z) :=
  daynr ← calc_daynr (year l_time) (month l_time) (day l_time);
  first_daynr ← calc_daynr (year l_time) 1 1;
  let daynr := u64 daynr in
  let first_daynr := u64 first_daynr in
  let monday_first := negb (Z.land week_behaviour WEEK_MONDAY_FIRST =? 0) in
  let week_year := negb (Z.land week_behaviour WEEK_YEAR =? 0) in
  let first_weekday := negb (Z.land week_behaviour WEEK_FIRST_WEEKDAY =? 0) in
  let weekday := u32 (calc_weekday (s64 first_daynr) (negb monday_first)) in
  Some (
    if (month l_time =? 1) && (day l_time <=? u32 (7 - weekday)) then
      if negb week_year && late first_weekday weekday then (0, year l_time)
      else
        let year := u32 (year l_time - 1) in
        let days := calc_days_in_year year in
        finish_week first_weekday daynr year (u64 (first_daynr - days)) (u32 (weekday + 53 * 7 - days) mod 7) true
    else finish_week first_weekday daynr (year l_time) first_daynr weekday week_year).

Definition year_2000_handling (year : Z) : Z :=
  let year := u32 (year + 1900) in
  if year <? 1900 + YY_PART_YEAR then u32 (year + 100) else year.

Definition convert_period_to_month (period : Z) : Z :=
  if (period =? 0) || (999912 <? period) then 0 else
  let a := period / 100 in
  let a := if a <? YY_PART_YEAR then a + 2000 else if a <? 100 then a + 1900 else a in
  let b := period mod 100 in
  u64 (a * 12 + b - 1).

Definition convert_month_to_period (month : Z) : Z :=
  if month =? 0 then 0 else
  let year := month / 12 in
  let year := if year <? 100 then year + (if year <? YY_PART_YEAR then 2000 else 1900) else year in
  u64 (year * 100 + month mod 12 + 1).

(** ** Validity *)

Definition C_TIME_NO_ZERO_IN_DATE : Z := Z.shiftl 1 23.
Definition C_TIME_NO_ZERO_DATE : Z := Z.shiftl 1 24.
Definition C_TIME_INVALID_DATES : Z := Z.shiftl 1 25.
Definition MYSQL_TIME_WARN_TRUNCATED : Z := 1.
Definition MYSQL_TIME_WARN_OUT_OF_RANGE : Z := 2.
Definition MYSQL_TIME_WARN_ZERO_DATE : Z := 8.
Definition MYSQL_TIME_NOTE_TRUNCATED : Z := 16.

Definition flag (flags f : Z) : bool := negb (Z.land flags f =? 0).

(** [days_in_month[month-1]] *)
Definition month_days (month : Z) : option Z :=
  if month <? 1 then None else days_in_month !! Z.to_nat (month - 1).

(** The return value and [*was_cut]. *)
Definition check_date (ltime : MYSQL_TIME) (not_zero_date : bool) (flags was_cut : Z) : option (bool * Z) :=
  if decide (time_type ltime = MYSQL_TIMESTAMP_TIME) then Some (false, was_cut) else
  if not_zero_date then
    bad ← (if flag flags C_TIME_NO_ZERO_IN_DATE && ((month ltime =? 0) || (day ltime =? 0)) || neg ltime
           then Some true
           else if negb (flag flags C_TIME_INVALID_DATES) && negb (month ltime =? 0) then
             n ← month_days (month ltime);
             Some ((n <? day ltime)
               && (negb (month ltime =? 2) || negb (calc_days_in_year (year ltime) =? 366)
                   || negb (day ltime =? 29)))
           else Some false);
    Some (if (bad : bool) then (true, 2) else (false, was_cut))
  else if flag flags C_TIME_NO_ZERO_DATE then Some (true, Z.lor was_cut MYSQL_TIME_WARN_ZERO_DATE)
  else Some (false, was_cut).

Definition check_datetime_range (ltime : MYSQL_TIME) : bool :=
  (9999 <? year ltime) || (12 <? month ltime) || (31 <? day ltime)
  || (59 <? minute ltime) || (59 <? second ltime) || (TIME_MAX_SECOND_PART <? second_part ltime)
  || ((if decide (time_type ltime = MYSQL_TIMESTAMP_TIME) then TIME_MAX_HOUR else 23) <? hour ltime).

Definition max_sec_part : list Z := [0; 900000; 990000; 999000; 999900; 999990; 999999].

(** [AUTO_SEC_PART_DIGITS] *)
Definition DECIMAL_NOT_SPECIFIED : Z := 39.

(** The return value, [*my_time] and [*warning]. *)
Definition check_time_range_internal (my_time : MYSQL_TIME) (max_hour err_hour dec warning : Z)
    : option (Z * MYSQL_TIME * Z) :=
  if (60 <=? minute my_time) || (60 <=? second my_time) || (err_hour <? hour my_time)
  then Some (1, my_time, Z.lor warning MYSQL_TIME_WARN_TRUNCATED) else
  let hour := u32 (hour my_time + u32 (24 * day my_time)) in
  let dec := if dec =? DECIMAL_NOT_SPECIFIED then TIME_SECOND_PART_DIGITS else dec in
  fits ← (if negb (hour <=? max_hour) then Some false
          else if negb (hour =? max_hour) || negb (minute my_time =? TIME_MAX_MINUTE)
                  || negb (second my_time =? TIME_MAX_SECOND) then Some true
          else max_part ← max_sec_part !! Z.to_nat dec; Some (second_part my_time <=? max_part));
  if (fits : bool) then Some (0, my_time, warning)
  else
    max_part ← max_sec_part !! Z.to_nat dec;
    Some (0, set_clock (u32 max_hour) TIME_MAX_MINUTE TIME_MAX_SECOND max_part (set_day 0 my_time),
          Z.lor warning MYSQL_TIME_WARN_OUT_OF_RANGE).

Definition check_time_range (ltime : MYSQL_TIME) (dec warning : Z) : option (Z * MYSQL_TIME * Z) :=
  check_time_range_internal ltime TIME_MAX_HOUR (2 ^ 32 - 1) dec warning.

(** ** Numbers *)

Definition TIME_to_ulonglong_datetime (t : MYSQL_TIME) : Z :=
  u64 ((year t * 10000 + month t * 100 + day t) * 1000000
       + (hour t * 10000 + minute t * 100 + second t)).

Definition TIME_to_ulonglong_date (t : MYSQL_TIME) : Z := u64 (year t * 10000 + month t * 100 + day t).

Definition TIME_to_ulonglong_time (t : MYSQL_TIME) : Z := u64 (hour t * 10000 + minute t * 100 + second t).

Definition TIME_to_ulonglong (t : MYSQL_TIME) : Z :=
  match time_type t with
  | MYSQL_TIMESTAMP_DATETIME => TIME_to_ulonglong_datetime t
  | MYSQL_TIMESTAMP_DATE => TIME_to_ulonglong_date t
  | MYSQL_TIMESTAMP_TIME => TIME_to_ulonglong_time t
  | MYSQL_TIMESTAMP_NONE | MYSQL_TIMESTAMP_ERROR => 0
  end.

(** The number and the type after the tests of [number_to_datetime_or_date];
    [None] is [goto err]. *)
Definition datetime_digits (nr : Z) : enum_mysql_timestamp_type * option Z :=
  if (nr =? 0) || (10000101000000 <=? nr) then (MYSQL_TIMESTAMP_DATETIME, Some nr) else
  if nr <? 101 then (MYSQL_TIMESTAMP_DATE, None) else
  if nr <=? (YY_PART_YEAR - 1) * 10000 + 1231 then (MYSQL_TIMESTAMP_DATE, Some ((nr + 20000000) * 1000000)) else
  if nr <? YY_PART_YEAR * 10000 + 101 then (MYSQL_TIMESTAMP_DATE, None) else
  if nr <=? 991231 then (MYSQL_TIMESTAMP_DATE, Some ((nr + 19000000) * 1000000)) else
  if nr <? 10000101 then (MYSQL_TIMESTAMP_DATE, None) else
  if nr <=? 99991231 then (MYSQL_TIMESTAMP_DATE, Some (nr * 1000000)) else
  if nr <? 101000000 then (MYSQL_TIMESTAMP_DATE, None) else
  if nr <=? (YY_PART_YEAR - 1) * 10000000000 + 1231235959 then (MYSQL_TIMESTAMP_DATETIME, Some (nr + 20000000000000)) else
  if nr <? YY_PART_YEAR * 10000000000 + 101000000 then (MYSQL_TIMESTAMP_DATETIME, None) else
  if nr <=? 991231235959 then (MYSQL_TIMESTAMP_DATETIME, Some (nr + 19000000000000))
  else (MYSQL_TIMESTAMP_DATETIME, Some nr).

(** The parts behind the label [ok]. *)
Definition datetime_parts (nr sec_part : Z) (ty : enum_mysql_timestamp_type) : MYSQL_TIME :=
  let part1 := Z.quot nr 1000000 in
  let part2 := nr - part1 * 1000000 in
  let date := Z.rem part1 10000 in
  let time := Z.rem part2 10000 in
  mk_time (u32 (s32 (Z.quot part1 10000))) (u32 (Z.quot (s32 date) 100)) (u32 (Z.rem (s32 date) 100))
    (u32 (s32 (Z.quot part2 10000))) (u32 (Z.quot (s32 time) 100)) (u32 (Z.rem (s32 time) 100))
    sec_part false ty.

(** The return value, [*time_res] and [*was_cut]. *)
Definition number_to_datetime_or_date (nr sec_part flags : Z) : option (Z * MYSQL_TIME * Z) :=
  let '(ty, n) := datetime_digits nr in
  match n with
  | None => Some (-1, mk_time 0 0 0 0 0 0 0 false ty, MYSQL_TIME_WARN_TRUNCATED)
  | Some nr =>
    let t := datetime_parts nr sec_part ty in
    '(good, was_cut) ←
      (if (year t <=? 9999) && (month t <=? 12) && (day t <=? 31) && (hour t <=? 23)
          && (minute t <=? 59) && (second t <=? 59) && (sec_part <=? TIME_MAX_SECOND_PART)
       then '(bad, was_cut) ← check_date t (negb (nr =? 0) || negb (sec_part =? 0)) flags 0;
            Some (negb bad, was_cut)
       else Some (false, 0));
    if (good : bool) then
      if decide (ty = MYSQL_TIMESTAMP_DATE ∧ sec_part ≠ 0)
      then Some (nr, set_clock (hour t) (minute t) (second t) 0 t, MYSQL_TIME_NOTE_TRUNCATED)
      else Some (nr, t, was_cut)
    else Some (-1, t, if negb (nr =? 0) || negb (flag flags C_TIME_NO_ZERO_DATE)
                      then MYSQL_TIME_WARN_TRUNCATED else was_cut)
  end.

(** The return value, [*ltime] and [*was_cut]. *)
Definition number_to_time_only (neg : bool) (nr sec_part max_hour : Z) : Z * MYSQL_TIME * Z :=
  let time_max_value := u64 (max_hour * 10000 + (TIME_MAX_MINUTE * 100 + TIME_MAX_SECOND)) in
  let '(nr, sec_part, was_cut) :=
    if time_max_value <? nr then (time_max_value, TIME_MAX_SECOND_PART, MYSQL_TIME_WARN_OUT_OF_RANGE)
    else (nr, sec_part, 0) in
  let t := mk_time 0 0 0 (u32 (nr / 100 / 100)) (nr / 100 mod 100) (nr mod 100) sec_part neg
    MYSQL_TIMESTAMP_TIME in
  if (minute t <? 60) && (second t <? 60) && (sec_part <=? TIME_MAX_SECOND_PART) then (0, t, was_cut)
  else (-1, t, MYSQL_TIME_WARN_TRUNCATED).

Definition pack_time (t : MYSQL_TIME) : Z :=
  let n := ((((((year t * 13 + month t) * 32 + day t) * 24 + hour t) * 60 + minute t) * 60
              + second t) * 1000000 + second_part t) in
  s64 (n * (if neg t then -1 else 1)).

(** The new value of [*my_time]; the old one is overwritten except for
    [MYSQL_TIMESTAMP_NONE] and [MYSQL_TIMESTAMP_ERROR], which are asserted not to occur. *)
Definition unpack_time (packed : Z) (ts_type : enum_mysql_timestamp_type) : option MYSQL_TIME :=
  let neg := packed <? 0 in
  packed ← (if neg then i64 (- packed) else Some packed);
  let f := packed mod 1000000 in let packed := packed / 1000000 in
  let s := packed mod 60 in let packed := packed / 60 in
  let i := packed mod 60 in let packed := packed / 60 in
  let h := packed mod 24 in let packed := packed / 24 in
  let d := packed mod 32 in let packed := packed / 32 in
  let m := packed mod 13 in let packed := packed / 13 in
  let y := u32 packed in
  match ts_type with
  | MYSQL_TIMESTAMP_TIME => Some (mk_time y 0 0 (u32 (h + (m * 32 + d) * 24)) i s f neg ts_type)
  | MYSQL_TIMESTAMP_DATE => Some (mk_time y m d 0 0 0 0 neg ts_type)
  | MYSQL_TIMESTAMP_DATETIME => Some (mk_time y m d h i s f neg ts_type)
  | MYSQL_TIMESTAMP_NONE | MYSQL_TIMESTAMP_ERROR => None
  end.

Definition my_time_compare (a b : MYSQL_TIME) : Z :=
  let a_t := u64 (pack_time a) in
  let b_t := u64 (pack_time b) in
  if a_t <? b_t then -1 else if b_t <? a_t then 1 else 0.

(** ** Differences *)

Definition calc_time_from_sec (to : MYSQL_TIME) (seconds microseconds : Z) : MYSQL_TIME :=
  let t_seconds := seconds mod 3600 in
  mk_time 0 0 0 (u32 (seconds / 3600)) (t_seconds / 60) (t_seconds mod 60) microseconds (neg to)
    MYSQL_TIMESTAMP_TIME.

(** The seconds of the clock. *)
Definition clock_seconds (t : MYSQL_TIME) : Z := hour t * 3600 + minute t * 60 + second t.

Definition time_diff_days (l_time1 l_time2 : MYSQL_TIME) (l_sign : Z) : option Z :=
  if decide (time_type l_time1 = MYSQL_TIMESTAMP_TIME) then Some (day l_time1 - l_sign * day l_time2)
  else
    days ← calc_daynr (year l_time1) (month l_time1) (day l_time1);
    if decide (time_type l_time2 = MYSQL_TIMESTAMP_TIME) then Some (days - l_sign * day l_time2)
    else
      n ← calc_daynr (year l_time2) (month l_time2) (day l_time2);
      Some (days - l_sign * n).

(** The first [calc_time_diff]: the sign, the seconds and the microseconds. *)
Definition calc_time_diff (l_time1 l_time2 : MYSQL_TIME) (l_sign : Z) : option (bool * Z * Z) :=
  days ← time_diff_days l_time1 l_time2 l_sign;
  microseconds ← i64 ((days * SECONDS_IN_24H + clock_seconds l_time1 - l_sign * clock_seconds l_time2) * 1000000
    + s64 (second_part l_time1) - l_sign * s64 (second_part l_time2));
  let neg := microseconds <? 0 in
  microseconds ← (if neg then i64 (- microseconds) else Some microseconds);
  Some (neg, microseconds / 1000000, microseconds mod 1000000).

Definition TIME_NO_ZERO_DATE : Z := C_TIME_NO_ZERO_DATE.

(** The second [calc_time_diff]: the return value and [*l_time3]. *)
Definition calc_time_diff_TIME (l_time1 l_time2 : MYSQL_TIME) (l_sign fuzzydate : Z)
    : option (bool * MYSQL_TIME) :=
  '(n, seconds, microseconds) ← calc_time_diff l_time1 l_time2 l_sign;
  let n := if neg l_time1 && (negb (seconds =? 0) || negb (microseconds =? 0)) then negb n else n in
  let seconds := Z.min seconds (2 ^ 31 - 1) in
  let l_time3 := calc_time_from_sec (mk_time 0 0 0 0 0 0 0 n MYSQL_TIMESTAMP_DATE) seconds microseconds in
  Some (flag fuzzydate TIME_NO_ZERO_DATE && (seconds =? 0) && (microseconds =? 0), l_time3).

(** [time_to_datetime] of one argument: the return value and [*ltime]. *)
Definition time_to_datetime (ltime : MYSQL_TIME) : bool * MYSQL_TIME :=
  if neg ltime then (true, ltime) else
  let day := hour ltime / 24 in
  (false, set_clock (hour ltime mod 24) (minute ltime) (second ltime) (second_part ltime)
            (set_date (year ltime) (day / 31) (day mod 31) ltime)).

Definition mix_date_and_time_simple (ldate ltime : MYSQL_TIME) : MYSQL_TIME :=
  set_type MYSQL_TIMESTAMP_DATETIME
    (set_clock (hour ltime) (minute ltime) (second ltime) (second_part ltime) ldate).

(** [get_date_from_daynr] leaves the date unchanged when it fails. *)
Definition mix_date_and_time_complex (ldate ltime : MYSQL_TIME) : option MYSQL_TIME :=
  let sign := if neg ltime then 1 else -1 in
  '(n, seconds, useconds) ← calc_time_diff ldate ltime sign;
  let days := seconds / SECONDS_IN_24H in
  let ldate := calc_time_from_sec (set_neg n ldate) (seconds mod SECONDS_IN_24H) useconds in
  date ← get_date_from_daynr days;
  let ldate := match date with Some (y, m, d) => set_date y m d ldate | None => ldate end in
  Some (set_type MYSQL_TIMESTAMP_DATETIME ldate).

Definition mix_date_and_time (to from : MYSQL_TIME) : option MYSQL_TIME :=
  if negb (neg from) && (hour from <? 24) then Some (mix_date_and_time_simple to from)
  else mix_date_and_time_complex to from.

(** ** Intervals *)

Inductive interval_type :=
  | INTERVAL_YEAR | INTERVAL_QUARTER | INTERVAL_MONTH | INTERVAL_WEEK | INTERVAL_DAY
  | INTERVAL_HOUR | INTERVAL_MINUTE | INTERVAL_SECOND | INTERVAL_MICROSECOND
  | INTERVAL_YEAR_MONTH | INTERVAL_DAY_HOUR | INTERVAL_DAY_MINUTE
  | INTERVAL_DAY_SECOND | INTERVAL_HOUR_MINUTE | INTERVAL_HOUR_SECOND
  | INTERVAL_MINUTE_SECOND | INTERVAL_DAY_MICROSECOND | INTERVAL_HOUR_MICROSECOND
  | INTERVAL_MINUTE_MICROSECOND | INTERVAL_SECOND_MICROSECOND | INTERVAL_LAST.

#[export] Instance interval_type_eq_dec : EqDecision interval_type.
Proof. solve_decision. Defined.

Record INTERVAL := mk_interval {
  i_year : Z; i_month : Z; i_day : Z; i_hour : Z;
  i_minute : Z; i_second : Z; i_second_part : Z;
  i_neg : bool;
}.

(** [COMBINE] of a time and of an interval; the second one is unsigned. *)
Definition combine (d h i s f : Z) : Z := (((d * 24 + h) * 60 + i) * 60 + s) * 1000000 + f.
Definition COMBINE_TIME (t : MYSQL_TIME) : Z := combine (day t) (hour t) (minute t) (second t) (second_part t).
Definition COMBINE_INTERVAL (i : INTERVAL) : Z :=
  combine (i_day i) (i_hour i) (i_minute i) (i_second i) (i_second_part i).

(** The intervals that are a number of microseconds. *)
Definition fixed_length (int_type : interval_type) : bool :=
  match int_type with
  | INTERVAL_YEAR | INTERVAL_QUARTER | INTERVAL_MONTH | INTERVAL_WEEK | INTERVAL_YEAR_MONTH | INTERVAL_LAST => false
  | _ => true
  end.

(** The return value and [*ltime]. *)
Definition add_fixed (ltime : MYSQL_TIME) (int_type : interval_type) (interval : INTERVAL) (sign : Z)
    : option (bool * MYSQL_TIME) :=
  if MAX_DAY_NUMBER <? u64 (i_day interval + i_hour interval / 24 + i_minute interval / 24 / 60
                            + i_second interval / 24 / 60 / 60)
  then Some (true, ltime) else
  ltime ← (if decide (time_type ltime = MYSQL_TIMESTAMP_TIME) then Some ltime
           else n ← calc_daynr (year ltime) (month ltime) 1; Some (set_day (u32 (day ltime + (n - 1))) ltime));
  let usec := s64 (COMBINE_TIME ltime + sign * COMBINE_INTERVAL interval) in
  let n := usec <? 0 in
  usec ← (if n then i64 (- usec) else Some usec);
  let f := usec mod 1000000 in let usec := usec / 1000000 in
  let s := usec mod 60 in let usec := usec / 60 in
  let i := usec mod 60 in let usec := usec / 60 in
  let ltime := set_neg (xorb (neg ltime) n) (set_clock (hour ltime) i s f ltime) in
  if decide (time_type ltime = MYSQL_TIMESTAMP_TIME) then
    if TIME_MAX_HOUR <? usec then Some (true, ltime)
    else Some (false, set_clock (u32 usec) i s f (set_day 0 ltime))
  else if neg ltime then Some (true, ltime) else
    let ltime := if decide (int_type = INTERVAL_DAY) then ltime else set_type MYSQL_TIMESTAMP_DATETIME ltime in
    let h := usec mod 24 in let daynr := usec / 24 in
    let ltime := set_clock h i s f ltime in
    date ← get_date_from_daynr daynr;
    Some (match date with
          | None => (true, ltime)
          | Some (y, m, d) => (false, set_date y m d ltime)
          end).

Definition add_week (ltime : MYSQL_TIME) (interval : INTERVAL) (sign : Z) : option (bool * MYSQL_TIME) :=
  n ← calc_daynr (year ltime) (month ltime) (day ltime);
  period ← i64 (n + sign * s64 (i_day interval));
  if (period <? 0) || (0x7FFFFFFF <? period) then Some (true, ltime) else
  date ← get_date_from_daynr period;
  Some (match date with
        | None => (true, ltime)
        | Some (y, m, d) => (false, set_date y m d ltime)
        end).

Definition add_year (ltime : MYSQL_TIME) (interval : INTERVAL) (sign : Z) : option (bool * MYSQL_TIME) :=
  n ← i64 (year ltime + sign * s64 (i_year interval));
  let ltime := set_date (u32 n) (month ltime) (day ltime) ltime in
  if 10000 <=? year ltime then Some (true, ltime)
  else if (month ltime =? 2) && (day ltime =? 29) && negb (calc_days_in_year (year ltime) =? 366)
  then Some (false, set_day 28 ltime)
  else Some (false, ltime).

Definition add_months (ltime : MYSQL_TIME) (interval : INTERVAL) (sign : Z) : option (bool * MYSQL_TIME) :=
  y ← i64 (sign * s64 (i_year interval));
  y ← i64 (y * 12);
  period ← i64 (u32 (year ltime * 12) + y);
  period ← i64 (period + month ltime);
  period ← i64 (period - 1);
  m ← i64 (sign * s64 (i_month interval));
  period ← i64 (period + m);
  if 120000 <=? u64 period then Some (true, ltime) else
  let ltime := set_date (u32 (Z.quot period 12)) (u32 (Z.rem period 12) + 1) (day ltime) ltime in
  n ← month_days (month ltime);
  Some (false,
    if n <? day ltime then
      set_day (if (month ltime =? 2) && (calc_days_in_year (year ltime) =? 366) then n + 1 else n) ltime
    else ltime).

(** [date_add_interval]: the return value and [*ltime].  The warning that an
    invalid date gives is not part of the model. *)
Definition date_add_interval (ltime : MYSQL_TIME) (int_type : interval_type) (interval : INTERVAL)
    : option (bool * MYSQL_TIME) :=
  let sign := if Bool.eqb (i_neg interval) (neg ltime) then 1 else -1 in
  let ends (r : option (bool * MYSQL_TIME)) :=
    '(e, t) ← r;
    Some (if (e : bool) then (true, t)
          else (if decide (time_type t = MYSQL_TIMESTAMP_TIME) then true else false, t)) in
  match int_type with
  | INTERVAL_WEEK => ends (add_week ltime interval sign)
  | INTERVAL_YEAR => ends (add_year ltime interval sign)
  | INTERVAL_YEAR_MONTH | INTERVAL_QUARTER | INTERVAL_MONTH => ends (add_months ltime interval sign)
  | INTERVAL_LAST => Some (true, ltime)
  | _ => add_fixed ltime int_type interval sign
  end.
