(* ===== verification/Calendar.v ===== *)
(** * The calendar

    [calc_daynr] and [get_date_from_daynr] against a calendar that counts days:
    the day number of a date is the number of days before its year, plus the
    days before its month, plus the day.  The two functions are inverse to each
    other on the dates from 0001-01-01 to 9999-12-31. *)

From S2P Require Import Prelude MyBit MyTime.

#[local] Open Scope Z_scope.

(** ** Counting days *)

(** Year 0 counts as a common year. *)
Definition leap_year (y : Z) : bool :=
  (y mod 4 =? 0) && (negb (y mod 100 =? 0) || (y mod 400 =? 0)) && negb (y =? 0).

Definition year_length (y : Z) : Z := if leap_year y then 366 else 365.

Definition month_length (y m : Z) : Z :=
  if m =? 2 then if leap_year y then 29 else 28
  else if (m =? 4) || (m =? 6) || (m =? 9) || (m =? 11) then 30 else 31.

Fixpoint days_before_year (y : nat) : Z :=
  match y with O => 0 | S y => days_before_year y + year_length (Z.of_nat y) end.

Fixpoint days_before_month (y : Z) (m : nat) : Z :=
  match m with
  | O | 1%nat => 0
  | S (S _ as m) => days_before_month y m + month_length y (Z.of_nat m)
  end.

(** The number of a day, by counting. *)
Definition day_number (y m d : Z) : Z :=
  days_before_year (Z.to_nat y) + days_before_month y (Z.to_nat m) + d.

Definition valid_date (y m d : Z) : Prop :=
  0 ≤ y ≤ 9999 ∧ 1 ≤ m ≤ 12 ∧ 1 ≤ d ≤ month_length y m.

(** ** Closed forms *)

Lemma calc_days_in_year_spec y : 0 ≤ y → calc_days_in_year y = year_length y.
Proof.
  intros Hy. unfold calc_days_in_year, year_length, leap_year.
  change 3 with (Z.ones 2). rewrite Z.land_ones by lia. change (2 ^ 2) with 4.
  destruct (Z.eqb_spec (y mod 4) 0), (Z.eqb_spec (y mod 100) 0), (Z.eqb_spec (y mod 400) 0), (Z.eqb_spec y 0);
    done || (subst; done).
Qed.

Lemma year_length_leap y : year_length y = 365 + Z.b2z (leap_year y).
Proof. unfold year_length. by destruct (leap_year y). Qed.

(** The leap years before year [y + 1], from 1 on. *)
Definition leaps (y : Z) : Z := y / 4 - y / 100 + y / 400.

Lemma leaps_step y : 1 ≤ y → leaps y = leaps (y - 1) + Z.b2z (leap_year y).
Proof.
  intros Hy. unfold leaps, leap_year.
  destruct (Z.eqb_spec (y mod 4) 0), (Z.eqb_spec (y mod 100) 0), (Z.eqb_spec (y mod 400) 0),
    (Z.eqb_spec y 0); cbn [andb orb negb Z.b2z]; divlia.
Qed.

Lemma days_before_year_nat n :
  days_before_year n = 365 * Z.of_nat n + (if Z.of_nat n =? 0 then 0 else leaps (Z.of_nat n - 1)).
Proof.
  induction n as [|n IH]; [done|].
  cbn [days_before_year]. rewrite IH, year_length_leap.
  rewrite (proj2 (Z.eqb_neq (Z.of_nat (S n)) 0)) by lia.
  replace (Z.of_nat (S n) - 1) with (Z.of_nat n) by lia.
  destruct (Z.eqb_spec (Z.of_nat n) 0) as [E|]; [replace n with 0%nat by lia; done|].
  rewrite (leaps_step (Z.of_nat n)) by lia. lia.
Qed.

Lemma days_before_year_spec y :
  0 ≤ y → days_before_year (Z.to_nat y) = 365 * y + (if y =? 0 then 0 else leaps (y - 1)).
Proof. intros Hy. by rewrite days_before_year_nat, Z2Nat.id. Qed.

(** The century rule of [calc_daynr]. *)
Lemma leaps_calc y : 0 ≤ y → Z.quot y 4 - Z.quot ((Z.quot y 100 + 1) * 3) 4 = leaps y.
Proof.
  intros Hy. unfold leaps. rewrite !Z.quot_div_nonneg by divlia. divlia.
Qed.

Lemma month_cases m : 1 ≤ m ≤ 12 →
  m = 1 ∨ m = 2 ∨ m = 3 ∨ m = 4 ∨ m = 5 ∨ m = 6 ∨ m = 7 ∨ m = 8 ∨ m = 9 ∨ m = 10 ∨ m = 11 ∨ m = 12.
Proof. lia. Qed.

Lemma days_before_month_spec y m :
  1 ≤ m ≤ 12 →
  days_before_month y (Z.to_nat m) = 31 * (m - 1)
    - (if m <=? 2 then 0 else (m * 4 + 23) / 10 - Z.b2z (leap_year y)).
Proof.
  intros Hm%month_cases. repeat (destruct Hm as [->|Hm]); try subst m;
    cbv [Z.to_nat Pos.to_nat Pos.iter_op Nat.add days_before_month]; unfold month_length;
    destruct (leap_year y); done.
Qed.

Lemma month_length_bound y m : 28 ≤ month_length y m ≤ 31.
Proof. unfold month_length. repeat case_match; lia. Qed.

(** [calc_daynr] counts days.  [d] may be any day that fits the [int]. *)
Lemma calc_daynr_count y m d :
  0 ≤ y ≤ 9999 → 1 ≤ m ≤ 12 → 0 ≤ d ≤ 10000000 → calc_daynr y m d = Some (day_number y m d).
Proof.
  intros Hy Hm Hd. unfold calc_daynr, day_number. rewrite !s32_small by lia.
  rewrite (proj2 (Z.eqb_neq m 0)) by lia. rewrite andb_false_r.
  repeat (rewrite i32_ok by lia; cbn [mbind option_bind]).
  rewrite days_before_year_spec, days_before_month_spec by lia.
  destruct (Z.leb_spec m 2).
  - repeat (rewrite i32_ok by lia; cbn [mbind option_bind]). cbn [mbind option_bind]. f_equal.
    destruct (Z.eqb_spec y 0) as [->|].
    { change (Z.quot (0 - 1) 4) with 0. change (Z.quot ((Z.quot (0 - 1) 100 + 1) * 3) 4) with 0. lia. }
    pose proof (leaps_calc (y - 1) ltac:(lia)). lia.
  - repeat (rewrite i32_ok by lia; cbn [mbind option_bind]). cbn [mbind option_bind]. f_equal.
    pose proof (leaps_calc y ltac:(lia)) as Hl. rewrite Z.quot_div_nonneg by lia.
    destruct (Z.eqb_spec y 0) as [->|].
    { change (leaps 0) with 0 in Hl. change (leap_year 0) with false. cbn [Z.b2z]. lia. }
    rewrite (leaps_step y) in Hl by lia. lia.
Qed.

(** ** From day numbers to dates *)

Lemma skip_years_spec fuel doy y :
  1 ≤ doy ≤ Z.of_nat fuel → 0 ≤ y → y + Z.of_nat fuel < 2 ^ 32 →
  ∃ doy' y', skip_years fuel doy y = Some (doy', y', year_length y')
    ∧ y ≤ y' ∧ 1 ≤ doy' ≤ year_length y'
    ∧ days_before_year (Z.to_nat y') + doy' = days_before_year (Z.to_nat y) + doy.
Proof.
  revert doy y. induction fuel as [|fuel IH]; intros doy y Hd Hy Hb; [lia|]. cbn [skip_years].
  rewrite calc_days_in_year_spec by done. pose proof (year_length_leap y).
  destruct (Z.ltb_spec (year_length y) doy).
  - assert (0 ≤ Z.b2z (leap_year y)) by (by destruct (leap_year y)). rewrite u32_small by lia.
    destruct (IH (doy - year_length y) (y + 1)) as (doy' & y' & -> & ? & ? & E); [lia..|].
    exists doy', y'. split_and!; [done|lia|lia..|].
    replace (Z.to_nat (y + 1)) with (S (Z.to_nat y)) in E by lia. cbn [days_before_year] in E.
    rewrite Z2Nat.id in E by done. lia.
  - exists doy, y. split_and!; [done|lia|lia..].
Qed.

(** The month of a day of a common year. *)
Lemma skip_months_spec k :
  1 ≤ k ≤ 365 →
  ∃ m d, skip_months days_in_month k 1 = Some (d, m)
    ∧ 1 ≤ m ≤ 12 ∧ 1 ≤ d ≤ month_length 1 m ∧ days_before_month 1 (Z.to_nat m) + d = k.
Proof.
  intros Hk. cbn [skip_months days_in_month].
  repeat (case_match; [|eexists _, _; split; [done|]; rewrite ?Z.ltb_lt, ?Z.ltb_ge in *;
    match goal with |- context [month_length 1 ?m] =>
      let v := eval vm_compute in (month_length 1 m) in change (month_length 1 m) with v end;
    match goal with |- context [days_before_month 1 ?n] =>
      let v := eval vm_compute in (days_before_month 1 n) in change (days_before_month 1 n) with v end; lia]).
  rewrite ?Z.ltb_lt, ?Z.ltb_ge in *. lia.
Qed.

Lemma month_length_common y m :
  month_length y m = month_length 1 m + (if m =? 2 then Z.b2z (leap_year y) else 0).
Proof. unfold month_length. change (leap_year 1) with false. repeat case_match; try done; cbn [Z.b2z]; lia. Qed.

Lemma days_before_common y m :
  1 ≤ m ≤ 12 →
  days_before_month y (Z.to_nat m)
  = days_before_month 1 (Z.to_nat m) + (if m <=? 2 then 0 else Z.b2z (leap_year y)).
Proof.
  intros Hm. rewrite !days_before_month_spec by done. change (leap_year 1) with false.
  destruct (m <=? 2); cbn [Z.b2z]; lia.
Qed.

(** The first days of March in a common year. *)
Lemma march_days m : 1 ≤ m ≤ 12 → (59 ≤ days_before_month 1 (Z.to_nat m) ↔ 2 < m)
  ∧ (m ≤ 2 → days_before_month 1 (Z.to_nat m) = 31 * (m - 1)).
Proof.
  intros Hm. rewrite days_before_month_spec by done. change (leap_year 1) with false.
  destruct (Z.leb_spec m 2); cbn [Z.b2z]; split; intros; divlia.
Qed.

Lemma leap_day_spec y doy :
  1 ≤ doy ≤ year_length y →
  ∃ m d,
    (let '(day_of_year, leap_day) :=
      if (year_length y =? 366) && (31 + 28 <? doy)
      then (doy - 1, if doy - 1 =? 31 + 28 then 1 else 0) else (doy, 0) in
     '(day_of_year, month) ← skip_months days_in_month day_of_year 1;
     Some (Some (y, month, day_of_year + leap_day))) = Some (Some (y, m, d))
    ∧ 1 ≤ m ≤ 12 ∧ 1 ≤ d ≤ month_length y m ∧ days_before_month y (Z.to_nat m) + d = doy.
Proof.
  intros Hd. rewrite year_length_leap in *.
  set (k := if (365 + Z.b2z (leap_year y) =? 366) && (31 + 28 <? doy) then doy - 1 else doy).
  destruct (skip_months_spec k) as (m & d & E & Hm & Hdm & Ek).
  { unfold k. destruct (leap_year y); cbn [Z.b2z] in *;
      [change (365 + 1 =? 366) with true|change (365 + 0 =? 366) with false]; cbn [andb];
      try destruct (Z.ltb_spec (31 + 28) doy); lia. }
  pose proof (march_days m Hm) as [M1 M2]. exists m.
  setoid_rewrite month_length_common. setoid_rewrite days_before_common; [|done].
  unfold k in *. clear k.
  destruct (leap_year y); cbn [Z.b2z] in *.
  - change (365 + 1 =? 366) with true in *. cbn [andb] in *. destruct (Z.ltb_spec (31 + 28) doy).
    + rewrite E. cbn [mbind option_bind].
      eexists. split; [done|]. destruct (Z.eqb_spec (doy - 1) (31 + 28)), (Z.leb_spec m 2), (Z.eqb_spec m 2); try lia.
      all: assert (month_length 1 m ≤ 31) by (pose proof (month_length_bound 1 m); lia).
      all: try (subst m; change (month_length 1 2) with 28 in *); lia.
    + rewrite E. cbn [mbind option_bind].
      eexists. split; [done|]. destruct (Z.leb_spec m 2), (Z.eqb_spec m 2); lia.
  - change (365 + 0 =? 366) with false in *. cbn [andb] in *. rewrite E. cbn [mbind option_bind].
    eexists. split; [done|]. destruct (Z.leb_spec m 2), (Z.eqb_spec m 2); lia.
Qed.

(** The first guess of the year is not too late. *)
Lemma first_year n :
  366 ≤ n ≤ MAX_DAY_NUMBER →
  let y := n * 100 / 36525 in
  1 ≤ y ≤ 9999 ∧ 1 ≤ n - days_before_year (Z.to_nat y) ≤ 800
  ∧ n - y * 365 - (y - 1) / 4 + ((y - 1) / 100 + 1) * 3 / 4 = n - days_before_year (Z.to_nat y)
  ∧ 0 ≤ n - y * 365 - (y - 1) / 4.
Proof.
  intros Hn y. unfold MAX_DAY_NUMBER in Hn.
  assert (Hy : 1 ≤ y ≤ 9999) by (unfold y; divlia).
  rewrite days_before_year_spec, (proj2 (Z.eqb_neq y 0)) by lia. unfold leaps.
  assert (36525 * y ≤ n * 100 < 36525 * y + 36525) by (unfold y; divlia).
  clearbody y. split_and!; divlia.
Qed.

(** [get_date_from_daynr] returns the date with the given number, for every
    number from 0001-01-01 to 9999-12-31, and fails for all others. *)
Lemma get_date_from_daynr_spec n :
  (366 ≤ n ≤ MAX_DAY_NUMBER ∧
   ∃ y m d, get_date_from_daynr n = Some (Some (y, m, d)) ∧ valid_date y m d ∧ 1 ≤ y ∧ day_number y m d = n)
  ∨ ¬ 366 ≤ n ≤ MAX_DAY_NUMBER ∧ get_date_from_daynr n = Some None.
Proof.
  unfold get_date_from_daynr. destruct (Z.ltb_spec n 366); [right; split; [lia|done]|].
  destruct (Z.ltb_spec MAX_DAY_NUMBER n); [right; split; [lia|done]|]. left. split; [done|]. cbn [orb].
  assert (Hn : 366 ≤ n ≤ MAX_DAY_NUMBER) by done.
  pose proof (first_year n Hn) as (Hy & Hd & E & HN). unfold MAX_DAY_NUMBER in *.
  rewrite Z.quot_div_nonneg by lia. set (y := n * 100 / 36525) in *. clearbody y.
  rewrite (u32_small y), (u32_small (y - 1)) by lia. rewrite (u32_small (((y - 1) / 100 + 1) * 3)) by divlia.
  rewrite (u32_small (n - y * 365)) by divlia. rewrite E, u32_small by lia.
  destruct (skip_years_spec (Z.to_nat (n - days_before_year (Z.to_nat y))) (n - days_before_year (Z.to_nat y)) y)
    as (doy & y' & -> & Hy' & Hdoy & E'); [lia..|].
  cbn [mbind option_bind]. destruct (leap_day_spec y' doy Hdoy) as (m & d & -> & Hm & Hdm & Em).
  exists y', m, d. split_and!; [done| |lia|unfold day_number; lia].
  split_and!; try lia. pose proof E' as E2. rewrite (days_before_year_spec y') in E2 by lia.
  rewrite (proj2 (Z.eqb_neq y' 0)) in E2 by lia. unfold leaps in E2. divlia.
Qed.

Lemma days_before_year_mono y y' : (y ≤ y')%nat → days_before_year y ≤ days_before_year y'.
Proof.
  induction 1 as [|y' _ IH]; [done|]. cbn [days_before_year]. rewrite year_length_leap.
  destruct (leap_year (Z.of_nat y')); cbn [Z.b2z]; lia.
Qed.

Lemma days_before_month_S y n :
  days_before_month y (S (S n)) = days_before_month y (S n) + month_length y (Z.of_nat (S n)).
Proof. done. Qed.

Lemma days_before_month_mono y m m' : (1 ≤ m ≤ m')%nat → days_before_month y m ≤ days_before_month y m'.
Proof.
  intros [H1 H2]. induction H2 as [|m' Hm IH]; [done|]. destruct m'; [lia|]. rewrite days_before_month_S.
  pose proof (month_length_bound y (Z.of_nat (S m'))). lia.
Qed.

(** The days of a year come before those of the next. *)
Lemma days_before_month_bound y m d :
  1 ≤ m ≤ 12 → 1 ≤ d ≤ month_length y m → 1 ≤ days_before_month y (Z.to_nat m) + d ≤ year_length y.
Proof.
  intros Hm Hd. pose proof (days_before_month_mono y 1 (Z.to_nat m) ltac:(lia)) as H1.
  pose proof (days_before_month_mono y (S (Z.to_nat m)) 13 ltac:(lia)) as H2.
  replace (Z.to_nat m) with (S (Z.to_nat m - 1)) in * by lia. rewrite days_before_month_S in H2.
  replace (Z.of_nat (S (Z.to_nat m - 1))) with m in H2 by lia.
  assert (E : days_before_month y 13 = year_length y).
  { unfold year_length, days_before_month, month_length. by destruct (leap_year y). }
  change (days_before_month y 1) with 0 in H1. lia.
Qed.

(** Later dates have larger numbers. *)
Lemma day_number_lt y m d y' m' d' :
  valid_date y m d → valid_date y' m' d' →
  (y < y' ∨ y = y' ∧ (m < m' ∨ m = m' ∧ d < d')) → day_number y m d < day_number y' m' d'.
Proof.
  intros (Hy & Hm & Hd) (Hy' & Hm' & Hd') Hlt. unfold day_number. destruct Hlt as [Hlt|[<- [Hlt|[<- Hlt]]]]; [| |lia].
  - pose proof (days_before_month_bound y m d Hm Hd) as H1. pose proof (days_before_month_bound y' m' d' Hm' Hd') as H2.
    pose proof (days_before_year_mono (S (Z.to_nat y)) (Z.to_nat y') ltac:(lia)) as H3. cbn [days_before_year] in H3.
    rewrite Z2Nat.id in H3 by lia. lia.
  - pose proof (days_before_month_mono y (S (Z.to_nat m)) (Z.to_nat m') ltac:(lia)) as H3.
    replace (Z.to_nat m) with (S (Z.to_nat m - 1)) in * by lia. rewrite days_before_month_S in H3.
    replace (Z.of_nat (S (Z.to_nat m - 1))) with m in H3 by lia. lia.
Qed.

Lemma day_number_inj y m d y' m' d' :
  valid_date y m d → valid_date y' m' d' → day_number y m d = day_number y' m' d' → y = y' ∧ m = m' ∧ d = d'.
Proof.
  intros V V' E. pose proof (day_number_lt y m d y' m' d' V V'). pose proof (day_number_lt y' m' d' y m d V' V). lia.
Qed.

Lemma day_number_range y m d :
  valid_date y m d → 1 ≤ y → 366 ≤ day_number y m d ≤ MAX_DAY_NUMBER.
Proof.
  intros V Hy. pose proof V as (Hy' & Hm & Hd). unfold MAX_DAY_NUMBER.
  assert (E1 : day_number 1 1 1 = 366) by done.
  assert (E2 : day_number 9999 12 31 = 3652424) by (by vm_compute).
  assert (V1 : valid_date 1 1 1) by (unfold valid_date; vm_compute; intuition done).
  assert (V2 : valid_date 9999 12 31) by (unfold valid_date; vm_compute; intuition done).
  pose proof (day_number_lt 1 1 1 y m d V1 V). pose proof (day_number_lt y m d 9999 12 31 V V2).
  assert (d ≤ 31) by (pose proof (month_length_bound y m); lia).
  split; [destruct (decide (y = 1 ∧ m = 1 ∧ d = 1)) as [(-> & -> & ->)|]; lia|].
  destruct (decide (y = 9999 ∧ m = 12 ∧ d = 31)) as [(-> & -> & ->)|]; lia.
Qed.

Lemma valid_date_daynr y m d : valid_date y m d → calc_daynr y m d = Some (day_number y m d).
Proof.
  intros (Hy & Hm & Hd). apply calc_daynr_count; [done..|]. pose proof (month_length_bound y m). lia.
Qed.

Lemma get_date_day_number y m d :
  valid_date y m d → 1 ≤ y → get_date_from_daynr (day_number y m d) = Some (Some (y, m, d)).
Proof.
  intros V Hy. pose proof (day_number_range y m d V Hy) as Hr.
  destruct (get_date_from_daynr_spec (day_number y m d)) as [(_ & y' & m' & d' & -> & V' & _ & E)|[Hn _]]; [|lia].
  by destruct (day_number_inj y' m' d' y m d V' V E) as (-> & -> & ->).
Qed.

(** ** The results *)

(** C23. The day number of every date from 0000-01-01 to 9999-12-31 is the number of
    days counted from the start of year 0, year by year and month by month; and
    from 0001-01-01 on [get_date_from_daynr] turns the number back into the date. *)
Theorem date_daynr_roundtrip y m d :
  valid_date y m d →
  calc_daynr y m d = Some (day_number y m d)
  ∧ (1 ≤ y → get_date_from_daynr (day_number y m d) = Some (Some (y, m, d))).
Proof. intros V. split; [by apply valid_date_daynr|]. intros Hy. by apply get_date_day_number. Qed.

(** Every number from 366 to 3652424 is the number of the valid date that
    [get_date_from_daynr] returns for it; for all other numbers the function
    fails. *)
Theorem daynr_date_total n :
  if decide (366 ≤ n ≤ MAX_DAY_NUMBER)
  then ∃ y m d, get_date_from_daynr n = Some (Some (y, m, d)) ∧ valid_date y m d ∧ calc_daynr y m d = Some n
  else get_date_from_daynr n = Some None.
Proof.
  destruct (get_date_from_daynr_spec n) as [(Hn & y & m & d & E & V & _ & <-)|[Hn E]];
    [rewrite decide_True by done|by rewrite decide_False].
  exists y, m, d. split_and!; [done..|]. by apply valid_date_daynr.
Qed.

Lemma date_daynr_roundtrip_witness :
  valid_date 2024 2 29 ∧ calc_daynr 2024 2 29 = Some 739310
  ∧ get_date_from_daynr 739310 = Some (Some (2024, 2, 29)).
Proof.
  assert (V : valid_date 2024 2 29) by (unfold valid_date; vm_compute; intuition done).
  assert (E : day_number 2024 2 29 = 739310) by (by vm_compute). rewrite <- E.
  split; [done|]. destruct (date_daynr_roundtrip 2024 2 29 V) as [E1 E2]. split; [done|]. apply E2. lia.
Defined.
