(* ===== verification/Week.v ===== *)
(** * Weeks

    The eight modes of [calc_week] against one definition of weeks: a week has
    seven days from its first weekday on, and week 1 of a year is the first week
    that has enough days in the year - four of them, or all seven. *)

From S2P Require Import Prelude MyBit MyTime Calendar.

#[local] Open Scope Z_scope.

(** The number of days since the first day of the week; weeks start on Sunday
    or on Monday. *)
Definition weekday (sunday : bool) (n : Z) : Z := (n + 5 + Z.b2z sunday) mod 7.

(** The day numbers of 1 January. *)
Definition new_year (y : Z) : Z := day_number y 1 1.

(** Day [s] is the first day of week 1 of year [y]: week 1 has at least [k]
    days in the year, and the week before has less. *)
Definition starts_week1 (sunday : bool) (k y s : Z) : Prop :=
  weekday sunday s = 0 ∧ k ≤ s + 7 - new_year y ∧ s - new_year y < k.

(** The parts of the mode. *)
Definition sunday_first (mode : Z) : bool := negb (flag mode WEEK_MONDAY_FIRST).
Definition days_needed (mode : Z) : Z := if flag mode WEEK_FIRST_WEEKDAY then 7 else 4.

(** Week [w] of year [y'] is the week of day [n]; in the modes without
    [WEEK_YEAR] the days of the year before week 1 are in week 0. *)
Definition week_of (mode n year w y' : Z) : Prop :=
  let sunday := sunday_first mode in
  let k := days_needed mode in
  ∃ s, starts_week1 sunday k y' s ∧
    if flag mode WEEK_YEAR
    then (∃ s', starts_week1 sunday k (y' + 1) s' ∧ s ≤ n < s') ∧ w = (n - s) / 7 + 1
    else y' = year ∧ w = if n <? s then 0 else (n - s) / 7 + 1.

Lemma new_year_next y : 0 ≤ y → new_year (y + 1) = new_year y + year_length y.
Proof.
  intros Hy. unfold new_year, day_number. replace (Z.to_nat (y + 1)) with (S (Z.to_nat y)) by lia.
  cbn [days_before_year]. rewrite Z2Nat.id by done. change (days_before_month (y + 1) (Z.to_nat 1)) with 0.
  change (days_before_month y (Z.to_nat 1)) with 0. lia.
Qed.

(** Week 1 exists, and starts where [calc_week] looks for it. *)
Lemma starts_week1_spec sunday (first : bool) y :
  let w := weekday sunday (new_year y) in
  starts_week1 sunday (if first then 7 else 4) y
    (if late first w then new_year y + (7 - w) else new_year y - w).
Proof.
  intros w. unfold late, starts_week1, w, weekday. destruct sunday; cbn [Z.b2z];
  destruct first; cbn [andb orb negb].
  all: try (destruct (Z.eqb_spec ((new_year y + 5 + 1) mod 7) 0)); try (destruct (Z.eqb_spec ((new_year y + 5 + 0) mod 7) 0)).
  all: try (destruct (Z.leb_spec 4 ((new_year y + 5 + 1) mod 7))); try (destruct (Z.leb_spec 4 ((new_year y + 5 + 0) mod 7))).
  all: cbn [negb andb orb]; divlia.
Qed.

(** Day numbers in the year. *)
Lemma day_of_year y m d :
  valid_date y m d →
  new_year y ≤ day_number y m d < new_year y + year_length y
  ∧ (m = 1 → day_number y m d = new_year y + d - 1) ∧ (m ≠ 1 → new_year y + 31 ≤ day_number y m d).
Proof.
  intros (Hy & Hm & Hd). unfold new_year, day_number. pose proof (days_before_month_bound y m d Hm Hd).
  change (days_before_month y (Z.to_nat 1)) with 0. split; [lia|split].
  - intros ->. change (days_before_month y (Z.to_nat 1)) with 0. lia.
  - intros Hm1. pose proof (days_before_month_mono y 2 (Z.to_nat m) ltac:(lia)) as H2.
    change (days_before_month y 2) with 31 in H2. lia.
Qed.

(** The start of week 1. *)
Definition week1 (sunday first : bool) (y : Z) : Z :=
  let w := weekday sunday (new_year y) in
  if late first w then new_year y + (7 - w) else new_year y - w.

Lemma weekday_bound sunday n : 0 ≤ weekday sunday n < 7.
Proof. apply Z.mod_pos_bound. lia. Qed.

Lemma weekday_add sunday n m : weekday sunday (n + m) = (weekday sunday n + m) mod 7.
Proof. unfold weekday. rewrite Zplus_mod_idemp_l. f_equal. lia. Qed.

Lemma late_spec first w : 0 ≤ w < 7 → late first w = true ↔ (if first then 0 < w else 4 ≤ w).
Proof.
  intros Hw. unfold late. destruct first, (Z.eqb_spec w 0), (Z.leb_spec 4 w); cbn [andb orb negb]; split; try done; lia.
Qed.

Lemma u32_sub_u64 a b : u32 (a - u64 b) = u32 (a - b).
Proof.
  unfold u32, u64. rewrite Zminus_mod, (Zminus_mod a b). do 2 f_equal.
  change (2 ^ 64) with (2 ^ 32 * 2 ^ 32). by rewrite Z.mod_mod_divide by (exists (2 ^ 32); lia).
Qed.

(** A year whose successor starts in its own week 1 has 52 weeks. *)
Lemma week1_next sunday first y :
  0 ≤ y → late first (weekday sunday (new_year (y + 1))) = false →
  week1 sunday first (y + 1) = week1 sunday first y + 364.
Proof.
  intros Hy Hlate. unfold week1. rewrite Hlate.
  pose proof (weekday_bound sunday (new_year y)) as Hw. pose proof (weekday_bound sunday (new_year (y + 1))) as Hw'.
  apply not_true_iff_false in Hlate. rewrite late_spec in Hlate by done.
  pose proof (late_spec first _ Hw) as Hl. rewrite new_year_next, weekday_add in * by done.
  assert (year_length y = 365 ∨ year_length y = 366) by (unfold year_length; destruct (leap_year y); auto).
  destruct (late first (weekday sunday (new_year y))); destruct first; divlia.
Qed.

Lemma finish_week_spec sunday first n y (wy : bool) :
  0 ≤ y ≤ 9999 → week1 sunday first y ≤ n →
  n < new_year (y + 1) + (7 - weekday sunday (new_year (y + 1))) →
  finish_week first n y (new_year y) (weekday sunday (new_year y)) wy
  = if wy && (week1 sunday first (y + 1) <=? n) && negb (late first (weekday sunday (new_year (y + 1))))
    then (1, y + 1) else ((n - week1 sunday first y) / 7 + 1, y).
Proof.
  intros Hy Hs Hn. unfold finish_week. pose proof (weekday_bound sunday (new_year y)) as Hw.
  pose proof (weekday_bound sunday (new_year (y + 1))) as Hw'.
  pose proof (year_length_leap y) as HL. assert (0 ≤ Z.b2z (leap_year y) ≤ 1) by (by destruct (leap_year y)).
  rewrite (u32_small (7 - _)), calc_days_in_year_spec, !u32_sub_u64 by lia.
  assert (E : (if late first (weekday sunday (new_year y)) then u32 (n - (new_year y + (7 - weekday sunday (new_year y))))
      else u32 (n - (new_year y - weekday sunday (new_year y)))) = n - week1 sunday first y).
  { rewrite new_year_next in Hn, Hw' by lia. unfold week1 in *. destruct (late _ _); apply u32_small; lia. }
  rewrite E. clear E. rewrite (u32_small (_ + year_length y)), <- weekday_add, <- new_year_next by lia.
  rewrite (u32_small (y + 1)) by lia. destruct wy; cbn [andb]; [|done].
  destruct (late first (weekday sunday (new_year (y + 1)))) eqn:Hl; cbn [negb].
  - rewrite andb_false_r. by destruct (_ <=? _).
  - rewrite andb_true_r, (week1_next sunday first y) by (done || lia).
    replace (52 * 7 <=? n - week1 sunday first y) with (week1 sunday first y + 364 <=? n); [done|].
    destruct (Z.leb_spec (week1 sunday first y + 364) n), (Z.leb_spec (52 * 7) (n - week1 sunday first y)); lia || done.
Qed.

Lemma week1_range sunday first y : new_year y - 6 ≤ week1 sunday first y ≤ new_year y + 7.
Proof. unfold week1. pose proof (weekday_bound sunday (new_year y)). destruct (late _ _); lia. Qed.

(** With [WEEK_YEAR] the day lies between week 1 of the year and of the next. *)
Lemma finish_week_year sunday first n y :
  0 ≤ y ≤ 9999 → week1 sunday first y ≤ n →
  n < new_year (y + 1) + (7 - weekday sunday (new_year (y + 1))) →
  ∃ y', finish_week first n y (new_year y) (weekday sunday (new_year y)) true
      = ((n - week1 sunday first y') / 7 + 1, y')
    ∧ week1 sunday first y' ≤ n < week1 sunday first (y' + 1).
Proof.
  intros Hy Hs Hn. rewrite (finish_week_spec sunday) by done. cbn [andb].
  destruct (late first (weekday sunday (new_year (y + 1)))) eqn:Hl; cbn [negb].
  - rewrite andb_false_r. exists y. split; [done|]. unfold week1 at 2. by rewrite Hl.
  - rewrite andb_true_r. destruct (Z.leb_spec (week1 sunday first (y + 1)) n).
    + exists (y + 1). pose proof (week1_range sunday first (y + 1 + 1)). rewrite (new_year_next (y + 1)) in * by lia.
      assert (E : week1 sunday first (y + 1) = new_year (y + 1) - weekday sunday (new_year (y + 1))).
      { unfold week1. by rewrite Hl. }
      pose proof (year_length_leap (y + 1)). assert (0 ≤ Z.b2z (leap_year (y + 1))) by (by destruct (leap_year _)).
      pose proof (weekday_bound sunday (new_year (y + 1))). split; [|lia].
      rewrite Z.div_small by lia. done.
    + exists y. split; [done|]. lia.
Qed.

Lemma calc_weekday_spec n sunday : 0 ≤ n → calc_weekday n sunday = weekday sunday n.
Proof.
  intros Hn. unfold calc_weekday, weekday. destruct sunday; cbn [Z.b2z]; rewrite Z.rem_mod_nonneg by lia; done.
Qed.

Lemma new_year_range y : 1 ≤ y ≤ 9999 → 366 ≤ new_year y ≤ MAX_DAY_NUMBER.
Proof.
  intros Hy. apply day_number_range; [|lia]. pose proof (month_length_bound y 1). split_and!; lia.
Qed.

(** The step back to the year before. *)
Lemma week_before y sunday :
  1 ≤ y ≤ 9999 → let w := weekday sunday (new_year y) in
  u32 (y - 1) = y - 1 ∧ u64 (new_year y - calc_days_in_year (y - 1)) = new_year (y - 1)
  ∧ u32 (w + 53 * 7 - calc_days_in_year (y - 1)) mod 7 = weekday sunday (new_year (y - 1)).
Proof.
  intros Hy w. rewrite calc_days_in_year_spec by lia.
  pose proof (new_year_next (y - 1) ltac:(lia)) as E. replace (y - 1 + 1) with y in E by lia.
  pose proof (year_length_leap (y - 1)) as HL. assert (0 ≤ Z.b2z (leap_year (y - 1)) ≤ 1) by (by destruct (leap_year _)).
  pose proof (weekday_bound sunday (new_year y)) as Hw. fold w in Hw.
  pose proof (new_year_range y Hy) as Hr. unfold MAX_DAY_NUMBER in Hr.
  rewrite !u32_small, u64_small by lia. split_and!; [done|lia|].
  subst w. rewrite E. rewrite weekday_add. pose proof (weekday_bound sunday (new_year (y - 1))). divlia.
Qed.

Lemma previous_year y : 1 ≤ y → new_year (y - 1) + 365 ≤ new_year y.
Proof.
  intros Hy. pose proof (new_year_next (y - 1) ltac:(lia)) as E. replace (y - 1 + 1) with y in E by lia.
  rewrite year_length_leap in E. destruct (leap_year (y - 1)); cbn [Z.b2z] in E; lia.
Qed.

(** A day that is not in the days of January before the second week begins. *)
Lemma not_early t sunday first :
  valid_date (year t) (month t) (day t) →
  (month t =? 1) && (day t <=? 7 - weekday sunday (new_year (year t))) = false →
  week1 sunday first (year t) ≤ day_number (year t) (month t) (day t).
Proof.
  intros V Early. pose proof (day_of_year _ _ _ V) as (Hn & Hjan & Hlater). pose proof (weekday_bound sunday (new_year (year t))).
  unfold week1. apply andb_false_iff in Early as [Em%Z.eqb_neq|Ed%Z.leb_gt].
  - specialize (Hlater Em). destruct (late _ _); lia.
  - destruct (Z.eq_dec (month t) 1) as [Em|Em]; [specialize (Hjan Em)|specialize (Hlater Em)]; destruct (late _ _); lia.
Qed.

(** [calc_week] in terms of week 1. *)
Lemma calc_week_spec t mode :
  valid_date (year t) (month t) (day t) → 1 ≤ year t →
  let n := day_number (year t) (month t) (day t) in
  let sunday := sunday_first mode in
  let first := flag mode WEEK_FIRST_WEEKDAY in
  ∃ y', calc_week t mode
    = Some (if negb (flag mode WEEK_YEAR) && (n <? week1 sunday first y') then 0
            else (n - week1 sunday first y') / 7 + 1, y')
    ∧ if flag mode WEEK_YEAR then week1 sunday first y' ≤ n < week1 sunday first (y' + 1) else y' = year t.
Proof.
  intros V Hy n sunday first. pose proof (day_of_year _ _ _ V) as (Hn & Hjan & Hlater). fold n in Hn, Hjan, Hlater.
  pose proof V as (Hyr & _ & Hd). unfold calc_week.
  rewrite (valid_date_daynr _ _ _ V). rewrite (calc_daynr_count (year t) 1 1) by lia.
  cbn [mbind option_bind]. fold n. fold (new_year (year t)). set (y := year t) in *.
  pose proof (day_number_range _ _ _ V Hy) as Hr. fold n in Hr. unfold MAX_DAY_NUMBER in Hr.
  pose proof (new_year_range y ltac:(lia)) as Hr'. unfold MAX_DAY_NUMBER in Hr'.
  rewrite !u64_small, s64_small by lia. rewrite calc_weekday_spec by lia.
  change (negb (negb (Z.land mode WEEK_MONDAY_FIRST =? 0))) with sunday.
  change (negb (Z.land mode WEEK_FIRST_WEEKDAY =? 0)) with first. fold (flag mode WEEK_YEAR).
  pose proof (weekday_bound sunday (new_year y)) as Hw. rewrite (u32_small (weekday _ _)), (u32_small (7 - _)) by lia.
  destruct ((month t =? 1) && (day t <=? 7 - weekday sunday (new_year y))) eqn:Early.
  - apply andb_true_iff in Early as [Em%Z.eqb_eq Ed%Z.leb_le]. specialize (Hjan Em).
    destruct (negb (flag mode WEEK_YEAR) && late first (weekday sunday (new_year y))) eqn:Hl0.
    { apply andb_true_iff in Hl0 as [Hwy Hl]. exists y. rewrite Hwy, (proj2 (Z.ltb_lt _ _)).
      - split; [done|]. by apply negb_true_iff in Hwy as ->.
      - unfold week1. rewrite Hl. lia. }
    pose proof (previous_year y ltac:(lia)) as Hprev.
    destruct (week_before y sunday ltac:(lia)) as (-> & -> & ->).
    destruct (flag mode WEEK_YEAR) eqn:Hwy; cbn [negb andb] in *.
    + destruct (finish_week_year sunday first n (y - 1)) as (y' & -> & Hy'); [lia| | |by eexists].
      * pose proof (week1_range sunday first (y - 1)). lia.
      * replace (y - 1 + 1) with y by lia. lia.
    + exists y. split; [|done]. rewrite (finish_week_spec sunday).
      all: replace (y - 1 + 1) with y by lia.
      * rewrite Hl0. assert (E : week1 sunday first y = new_year y - weekday sunday (new_year y)).
        { unfold week1. by rewrite Hl0. }
        rewrite (proj2 (Z.leb_le _ _)), (proj2 (Z.ltb_ge _ _)) by lia. cbn [andb negb].
        rewrite Z.div_small by lia. done.
      * lia.
      * pose proof (week1_range sunday first (y - 1)). lia.
      * lia.
  - pose proof (not_early t sunday first V Early) as Hlate. fold y n in Hlate.
    pose proof (weekday_bound sunday (new_year (y + 1))). pose proof (new_year_next y ltac:(lia)).
    destruct (flag mode WEEK_YEAR) eqn:Hwy; cbn [negb andb].
    + destruct (finish_week_year sunday first n y) as (y' & -> & Hy'); [lia|done|lia|by eexists].
    + exists y. split; [|done]. rewrite (finish_week_spec sunday) by (done || lia). cbn [andb].
      by rewrite (proj2 (Z.ltb_ge _ _)).
Qed.

(** C39. For every date from 0001-01-01 to 9999-12-31 and in all eight modes,
    [calc_week] returns the number of the week that the day lies in.  Weeks start
    on Monday or Sunday, and week 1 is the first week with four days in the year,
    as ISO 8601 has it, or the first full week.  With [WEEK_YEAR] the year
    returned is the one whose week it is, and the number is never 0; without it
    the days before week 1 are in week 0. *)
Theorem calc_week_correct t mode :
  valid_date (year t) (month t) (day t) → 1 ≤ year t →
  ∃ w y', calc_week t mode = Some (w, y')
    ∧ week_of mode (day_number (year t) (month t) (day t)) (year t) w y'.
Proof.
  intros V Hy. destruct (calc_week_spec t mode V Hy) as (y' & E & H).
  eexists _, y'. split; [exact E|].
  pose proof (λ z, starts_week1_spec (sunday_first mode) (flag mode WEEK_FIRST_WEEKDAY) z) as Hs.
  eexists. split; [exact (Hs y')|]. destruct (flag mode WEEK_YEAR); cbn [negb andb].
  - split; [|done]. eexists. split; [exact (Hs (y' + 1))|]. exact H.
  - done.
Qed.

(** 1 January 2021 is in week 53 of 2020 by ISO 8601 (mode 3), and in week 0 in mode 0. *)
Lemma calc_week_correct_witness :
  let t := mk_time 2021 1 1 0 0 0 0 false MYSQL_TIMESTAMP_DATE in
  calc_week t 3 = Some (53, 2020) ∧ calc_week t 0 = Some (0, 2021)
  ∧ ∃ w y', calc_week t 3 = Some (w, y') ∧ week_of 3 (day_number 2021 1 1) 2021 w y'.
Proof.
  split; [by vm_compute|]. split; [by vm_compute|].
  apply (calc_week_correct (mk_time 2021 1 1 0 0 0 0 false MYSQL_TIMESTAMP_DATE) 3); [|done].
  unfold valid_date; vm_compute; intuition done.
Defined.
