(* ===== verification/TimeAdd.v ===== *)
(** * Intervals

    Temporal values stand for a number of microseconds.  [date_add_interval]
    adds an interval to this number, and the intervals of months and years move
    the date in the calendar. *)

From S2P Require Import Prelude MyBit MyTime Calendar.

#[local] Open Scope Z_scope.

(** ** Values *)

Definition valid_clock (t : MYSQL_TIME) : Prop :=
  0 ≤ minute t < 60 ∧ 0 ≤ second t < 60 ∧ 0 ≤ second_part t < 1000000.

(** A DATE or DATETIME from 0001-01-01 on. *)
Definition valid_datetime (t : MYSQL_TIME) : Prop :=
  (time_type t = MYSQL_TIMESTAMP_DATE ∨ time_type t = MYSQL_TIMESTAMP_DATETIME)
  ∧ valid_date (year t) (month t) (day t) ∧ 1 ≤ year t ∧ 0 ≤ hour t < 24 ∧ valid_clock t ∧ neg t = false.

(** A TIME from -838:59:59.999999 to 838:59:59.999999. *)
Definition valid_TIME (t : MYSQL_TIME) : Prop :=
  time_type t = MYSQL_TIMESTAMP_TIME
  ∧ year t = 0 ∧ month t = 0 ∧ day t = 0 ∧ 0 ≤ hour t ≤ TIME_MAX_HOUR ∧ valid_clock t.

Definition valid_temporal (t : MYSQL_TIME) : Prop := valid_datetime t ∨ valid_TIME t.

Definition is_TIME (t : MYSQL_TIME) : bool := bool_decide (time_type t = MYSQL_TIMESTAMP_TIME).

(** The microseconds of the absolute value, for dates counted from the start of year 0. *)
Definition magnitude (t : MYSQL_TIME) : Z :=
  combine (if is_TIME t then day t else day_number (year t) (month t) (day t))
    (hour t) (minute t) (second t) (second_part t).

Definition signed (n : bool) (x : Z) : Z := if n then - x else x.

(** The value in microseconds. *)
Definition usecs (t : MYSQL_TIME) : Z := signed (neg t) (magnitude t).

(** The microseconds of a day. *)
Definition day_usecs : Z := 86400000000.

Lemma combine_split d h i s f : combine d h i s f = d * day_usecs + combine 0 h i s f.
Proof. unfold combine, day_usecs. lia. Qed.

Lemma combine_bound h i s f :
  0 ≤ i < 60 → 0 ≤ s < 60 → 0 ≤ f < 1000000 →
  h * 3600000000 ≤ combine 0 h i s f < (h + 1) * 3600000000.
Proof. unfold combine. lia. Qed.

(** The parts of a number of microseconds. *)
Lemma split_usecs u :
  0 ≤ u →
  let h := u / 1000000 / 60 / 60 in
  let i := u / 1000000 / 60 mod 60 in
  let s := u / 1000000 mod 60 in
  let f := u mod 1000000 in
  0 ≤ h ∧ 0 ≤ i < 60 ∧ 0 ≤ s < 60 ∧ 0 ≤ f < 1000000 ∧ combine 0 h i s f = u
  ∧ combine (h / 24) (h mod 24) i s f = u ∧ 0 ≤ h mod 24 < 24 ∧ 0 ≤ h / 24.
Proof.
  intros Hu h i s f. unfold combine.
  assert (E1 : u = 1000000 * (u / 1000000) + f) by (apply Z.div_mod; lia).
  assert (E2 : u / 1000000 = 60 * (u / 1000000 / 60) + s) by (apply Z.div_mod; lia).
  assert (E3 : u / 1000000 / 60 = 60 * h + i) by (apply Z.div_mod; lia).
  assert (E4 : h = 24 * (h / 24) + h mod 24) by (apply Z.div_mod; lia).
  assert (0 ≤ h) by (unfold h; repeat apply Z.div_pos; lia).
  assert (0 ≤ f < 1000000) by (apply Z.mod_pos_bound; lia).
  assert (0 ≤ s < 60) by (apply Z.mod_pos_bound; lia).
  assert (0 ≤ i < 60) by (apply Z.mod_pos_bound; lia).
  assert (0 ≤ h mod 24 < 24) by (apply Z.mod_pos_bound; lia).
  assert (0 ≤ h / 24) by (apply Z.div_pos; lia).
  clearbody h i s f. split_and!; lia.
Qed.

Lemma magnitude_datetime t :
  valid_datetime t → magnitude t = combine (day_number (year t) (month t) (day t)) (hour t) (minute t) (second t) (second_part t)
  ∧ 366 * day_usecs ≤ magnitude t < (MAX_DAY_NUMBER + 1) * day_usecs.
Proof.
  intros (Ht & V & Hy & Hh & (Hi & Hs & Hf) & Hn). unfold magnitude, is_TIME.
  rewrite bool_decide_eq_false_2 by (destruct Ht as [-> | ->]; done). split; [done|].
  rewrite combine_split. pose proof (day_number_range _ _ _ V Hy) as Hr.
  pose proof (combine_bound (hour t) _ _ _ Hi Hs Hf). unfold day_usecs, MAX_DAY_NUMBER in *. lia.
Qed.

Lemma magnitude_TIME t :
  valid_TIME t → magnitude t = combine 0 (hour t) (minute t) (second t) (second_part t)
  ∧ 0 ≤ magnitude t < (TIME_MAX_HOUR + 1) * 3600000000.
Proof.
  intros (Ht & _ & _ & Hd & Hh & (Hi & Hs & Hf)). unfold magnitude, is_TIME.
  rewrite bool_decide_eq_true_2, Hd by done. split; [done|].
  pose proof (combine_bound (hour t) _ _ _ Hi Hs Hf). unfold TIME_MAX_HOUR in *. lia.
Qed.

(** ** Intervals of a fixed length *)

(** An interval whose parts do not overflow when they are added up. *)
Definition sane_interval (i : INTERVAL) : Prop :=
  0 ≤ i_year i ∧ 0 ≤ i_month i ∧ 0 ≤ i_day i ∧ 0 ≤ i_hour i ∧ 0 ≤ i_minute i ∧ 0 ≤ i_second i
  ∧ i_day i + i_hour i + i_minute i + i_second i < 2 ^ 64 ∧ 0 ≤ i_second_part i < 2 ^ 62.

Definition interval_usecs (i : INTERVAL) : Z := signed (i_neg i) (COMBINE_INTERVAL i).

Definition add_sign (t : MYSQL_TIME) (i : INTERVAL) : Z := if Bool.eqb (i_neg i) (neg t) then 1 else -1.

(** The values of the type of [t]. *)
Definition in_range (t : MYSQL_TIME) (u : Z) : Prop :=
  if is_TIME t then - (TIME_MAX_HOUR + 1) * 3600000000 < u < (TIME_MAX_HOUR + 1) * 3600000000
  else 366 * day_usecs ≤ u < (MAX_DAY_NUMBER + 1) * day_usecs.

#[export] Instance in_range_dec t u : Decision (in_range t u).
Proof. unfold in_range. destruct (is_TIME t); apply _. Defined.

Lemma signed_sum t i :
  usecs t + interval_usecs i = signed (neg t) (magnitude t + add_sign t i * COMBINE_INTERVAL i).
Proof.
  unfold usecs, interval_usecs, add_sign, signed. destruct (i_neg i), (neg t); cbn [Bool.eqb]; lia.
Qed.

Lemma add_sign_cases t i : add_sign t i = 1 ∨ add_sign t i = -1.
Proof. unfold add_sign. destruct (Bool.eqb _ _); auto. Qed.

Lemma magnitude_bound t : valid_temporal t → 0 ≤ magnitude t < (MAX_DAY_NUMBER + 1) * day_usecs.
Proof.
  intros [V|V]; [apply magnitude_datetime in V as [_ V]|apply magnitude_TIME in V as [_ V]];
    unfold day_usecs, MAX_DAY_NUMBER, TIME_MAX_HOUR in *; lia.
Qed.

(** The test for long intervals; what it rejects is out of range. *)
Lemma interval_guard t i :
  valid_temporal t → sane_interval i →
  let days := u64 (i_day i + i_hour i / 24 + i_minute i / 24 / 60 + i_second i / 24 / 60 / 60) in
  (MAX_DAY_NUMBER < days → ¬ in_range t (usecs t + interval_usecs i))
  ∧ (days ≤ MAX_DAY_NUMBER → 0 ≤ COMBINE_INTERVAL i < 2 ^ 62 + 4 * (MAX_DAY_NUMBER + 1) * day_usecs).
Proof.
  intros V (_ & _ & Hd & Hh & Hi & Hs & Hsum & Hf) days. unfold days. clear days.
  rewrite u64_small by divlia. rewrite signed_sum. unfold in_range, signed, COMBINE_INTERVAL, combine.
  rewrite !Z.div_div by lia. split.
  - intros Hg. assert (Hlong : (MAX_DAY_NUMBER + 1) * day_usecs
      ≤ (((i_day i * 24 + i_hour i) * 60 + i_minute i) * 60 + i_second i) * 1000000 + i_second_part i).
    { unfold day_usecs, MAX_DAY_NUMBER in *. divlia. }
    set (C := _ + i_second_part i) in *. clearbody C.
    destruct V as [V|V]; unfold is_TIME.
    + pose proof (magnitude_datetime t V) as [_ Hm]. destruct V as (Ht & _ & _ & _ & _ & Hn).
      rewrite bool_decide_eq_false_2 by (destruct Ht as [-> | ->]; done). rewrite Hn.
      unfold day_usecs, MAX_DAY_NUMBER in *. destruct (add_sign_cases t i) as [-> | ->]; lia.
    + pose proof (magnitude_TIME t V) as [_ Hm]. destruct V as (Ht & _).
      rewrite bool_decide_eq_true_2 by done.
      unfold day_usecs, MAX_DAY_NUMBER, TIME_MAX_HOUR in *. destruct (add_sign_cases t i) as [-> | ->], (neg t); lia.
  - intros Hg. unfold day_usecs, MAX_DAY_NUMBER in *. divlia.
Qed.

(** The day of a date is replaced by its number. *)
Lemma combine_daynr t :
  valid_temporal t →
  ∃ lt, (if decide (time_type t = MYSQL_TIMESTAMP_TIME) then Some t
         else n ← calc_daynr (year t) (month t) 1; Some (set_day (u32 (day t + (n - 1))) t)) = Some lt
    ∧ COMBINE_TIME lt = magnitude t ∧ time_type lt = time_type t ∧ neg lt = neg t
    ∧ (is_TIME t = true → lt = t).
Proof.
  intros [V|V].
  - pose proof (magnitude_datetime t V) as [E _]. destruct V as (Ht & V & Hy & _). pose proof V as (Hyr & Hm & Hd).
    rewrite decide_False by (destruct Ht as [-> | ->]; done).
    rewrite calc_daynr_count by lia. cbn [mbind option_bind]. eexists. split; [done|].
    split_and!; [|done..|unfold is_TIME; rewrite bool_decide_eq_false_2 by (destruct Ht as [-> | ->]; done); done].
    rewrite E. unfold COMBINE_TIME. cbn [set_day set_date day hour minute second second_part]. f_equal.
    pose proof (day_number_range _ _ _ V Hy) as Hr. unfold day_number, MAX_DAY_NUMBER in *. rewrite u32_small; lia.
  - pose proof (magnitude_TIME t V) as [E _]. destruct V as (Ht & _ & _ & Hd & _). rewrite decide_True by done.
    exists t. split_and!; try done. rewrite E. unfold COMBINE_TIME. by rewrite Hd.
Qed.

(** What an addition promises: the exact sum when it is a value of the type of
    [t], and an error otherwise. *)
Definition adds (t : MYSQL_TIME) (u : Z) (e : bool) (t' : MYSQL_TIME) : Prop :=
  (in_range t u → e = false ∧ valid_temporal t' ∧ is_TIME t' = is_TIME t ∧ usecs t' = u)
  ∧ (¬ in_range t u → e = true).

(** The end of [add_fixed] for a TIME. *)
Lemma adds_TIME t lt v :
  valid_TIME t → lt = t → let u := Z.abs v in
  let h := u / 1000000 / 60 / 60 in let i := u / 1000000 / 60 mod 60 in
  let s := u / 1000000 mod 60 in let f := u mod 1000000 in
  let lt' := set_neg (xorb (neg lt) (v <? 0)) (set_clock (hour lt) i s f lt) in
  ∃ e t', (if TIME_MAX_HOUR <? h then Some (true, lt')
           else Some (false, set_clock (u32 h) i s f (set_day 0 lt'))) = Some (e, t')
    ∧ adds t (signed (neg t) v) e t'.
Proof.
  intros V -> u h i s f lt'. pose proof (split_usecs u ltac:(lia)) as (Hh & Hi & Hs & Hf & E & _).
  fold h i s f in Hh, Hi, Hs, Hf, E. pose proof (combine_bound h i s f Hi Hs Hf) as Hb.
  pose proof V as (Ht & Hy & Hm & _).
  assert (Hin : in_range t (signed (neg t) v) ↔ h ≤ TIME_MAX_HOUR).
  { unfold in_range, is_TIME. rewrite bool_decide_eq_true_2 by done. unfold signed, TIME_MAX_HOUR in *.
    destruct (neg t); lia. }
  destruct (Z.ltb_spec TIME_MAX_HOUR h).
  - eexists _, _. split; [done|]. split; [intros ?%Hin; lia|done].
  - eexists _, _. split; [done|]. split; [|intros Hn; exfalso; apply Hn, Hin; lia]. intros _.
    unfold TIME_MAX_HOUR in *. rewrite u32_small by lia.
    assert (V' : valid_TIME (set_clock h i s f (set_day 0 lt'))) by (split_and!; done || (cbn; lia)).
    split_and!; [done|by right|done|]. unfold usecs.
    rewrite (proj1 (magnitude_TIME _ V')). cbn [hour minute second second_part neg set_clock set_day set_date set_neg lt'].
    rewrite E. unfold signed, u. destruct (neg t), (Z.ltb_spec v 0); cbn [xorb]; lia.
Qed.

(** The end of [add_fixed] for a date. *)
Lemma adds_date t lt v (dt : bool) :
  valid_datetime t → time_type lt = time_type t → neg lt = neg t → let u := Z.abs v in
  let h := u / 1000000 / 60 / 60 in let i := u / 1000000 / 60 mod 60 in
  let s := u / 1000000 mod 60 in let f := u mod 1000000 in
  let lt1 := set_neg (xorb (neg lt) (v <? 0)) (set_clock (hour lt) i s f lt) in
  let lt2 := set_clock (h mod 24) i s f (if dt then lt1 else set_type MYSQL_TIMESTAMP_DATETIME lt1) in
  ∃ e t', (if neg lt1 then Some (true, lt1) else
           date ← get_date_from_daynr (h / 24);
           Some (match date with None => (true, lt2) | Some (y, m, d) => (false, set_date y m d lt2) end))
        = Some (e, t')
    ∧ adds t (signed (neg t) v) e t'.
Proof.
  intros V Ety Eneg u h i s f lt1 lt2. pose proof (split_usecs u ltac:(lia)) as (Hh & Hi & Hs & Hf & _ & E & Hh24 & Hd0).
  fold h i s f in Hh, Hi, Hs, Hf, E, Hh24, Hd0. pose proof (combine_bound (h mod 24) i s f Hi Hs Hf) as Hb.
  rewrite combine_split in E. pose proof V as (Ht & _ & _ & _ & _ & Hn).
  assert (Hty : is_TIME t = false) by (unfold is_TIME; rewrite bool_decide_eq_false_2; [done|destruct Ht as [-> | ->]; done]).
  unfold adds, in_range. rewrite Hty, Hn. cbn [signed]. subst lt1 lt2. cbn [neg set_neg]. rewrite Eneg, Hn. cbn [xorb].
  destruct (Z.ltb_spec v 0).
  { eexists _, _. split; [done|]. split; [|done]. unfold day_usecs. lia. }
  destruct (get_date_from_daynr_spec (h / 24)) as [(Hr & y & m & d & -> & Vd & Hy & Ed)|[Hr ->]]; cbn [mbind option_bind].
  - eexists _, _. split; [done|]. split; [|unfold day_usecs, MAX_DAY_NUMBER in *; lia]. intros _.
    set (t' := set_date y m d _).
    assert (V' : valid_datetime t').
    { subst t'. destruct dt; (split_and!; [|done|done|cbn; lia|cbn; lia|split_and!; cbn; lia|done]); [|by right].
      cbn. rewrite Ety. apply Ht. }
    split_and!; [done|by left| |].
    + unfold is_TIME. rewrite bool_decide_eq_false_2; [done|]. destruct V' as ([-> | ->] & _); done.
    + unfold usecs. rewrite (proj1 (magnitude_datetime _ V')). destruct V' as (_ & _ & _ & _ & _ & ->). cbn [signed].
      subst t'. rewrite combine_split. destruct dt; cbn; rewrite Ed; fold combine; lia.
  - eexists _, _. split; [done|]. split; [|done]. unfold day_usecs, MAX_DAY_NUMBER in *. lia.
Qed.

Lemma add_fixed_spec t ty i :
  valid_temporal t → sane_interval i →
  ∃ e t', add_fixed t ty i (add_sign t i) = Some (e, t') ∧ adds t (usecs t + interval_usecs i) e t'.
Proof.
  intros V Si. unfold add_fixed. pose proof (interval_guard t i V Si) as [Hlong Hshort].
  destruct (Z.ltb_spec MAX_DAY_NUMBER (u64 (i_day i + i_hour i / 24 + i_minute i / 24 / 60 + i_second i / 24 / 60 / 60))).
  { eexists _, _. split; [done|]. split; [|done]. intros Hin. by destruct (Hlong ltac:(done)). }
  specialize (Hshort ltac:(done)). clear Hlong.
  destruct (combine_daynr t V) as (lt & -> & EC & Ety & Eneg & Elt). cbn [mbind option_bind]. rewrite EC.
  rewrite signed_sum. set (v := magnitude t + add_sign t i * COMBINE_INTERVAL i).
  pose proof (magnitude_bound t V) as Hm.
  assert (Hv : - 2 ^ 63 < v < 2 ^ 63).
  { subst v. unfold day_usecs, MAX_DAY_NUMBER in *. destruct (add_sign_cases t i) as [-> | ->]; lia. }
  rewrite s64_small by lia.
  assert (Eabs : (if v <? 0 then i64 (- v) else Some v) = Some (Z.abs v)).
  { destruct (Z.ltb_spec v 0); [rewrite i64_ok by lia|]; f_equal; lia. }
  rewrite Eabs. cbn [mbind option_bind].
  cbn [time_type set_neg set_clock]. rewrite Ety. destruct V as [V|V].
  - pose proof V as (Ht & _). rewrite decide_False by (destruct Ht as [-> | ->]; done).
    destruct (decide (ty = INTERVAL_DAY)); [apply (adds_date t lt v true V Ety Eneg)|].
    apply (adds_date t lt v false V Ety Eneg).
  - pose proof V as (Ht & _). rewrite decide_True by done.
    apply (adds_TIME t lt v V). apply Elt. unfold is_TIME. by rewrite bool_decide_eq_true_2.
Qed.

(** ** Intervals of weeks, months and years *)

Lemma with_date t y m d : valid_datetime t → valid_date y m d → 1 ≤ y → valid_datetime (set_date y m d t).
Proof.
  intros (Ht & _ & _ & Hh & Hc & Hn) V Hy. exact (conj Ht (conj V (conj Hy (conj Hh (conj Hc Hn))))).
Qed.

(** [INTERVAL_WEEK] adds [i_day] days to a date. *)
Lemma add_week_spec t i :
  valid_datetime t → 0 ≤ i_day i < 2 ^ 62 →
  ∃ e t', add_week t i (add_sign t i) = Some (e, t')
    ∧ adds t (usecs t + signed (i_neg i) (i_day i * day_usecs)) e t'.
Proof.
  intros V Hi. unfold add_week. pose proof (magnitude_datetime t V) as [Em Hm].
  pose proof V as (Ht & Vd & Hy & Hh & (Hmi & Hs & Hf) & Hn).
  rewrite (valid_date_daynr _ _ _ Vd). cbn [mbind option_bind].
  pose proof (day_number_range _ _ _ Vd Hy) as Hr. set (n := day_number _ _ _) in *.
  assert (Hty : is_TIME t = false) by (unfold is_TIME; rewrite bool_decide_eq_false_2; [done|destruct Ht as [-> | ->]; done]).
  rewrite s64_small by lia. set (p := n + add_sign t i * i_day i).
  assert (Hp : - 2 ^ 62 < p < 2 ^ 62 + 3652424 + 1).
  { subst p. unfold MAX_DAY_NUMBER in Hr. destruct (add_sign_cases t i) as [-> | ->]; lia. }
  rewrite i64_ok by lia. cbn [mbind option_bind].
  assert (Eu : usecs t + signed (i_neg i) (i_day i * day_usecs)
    = p * day_usecs + combine 0 (hour t) (minute t) (second t) (second_part t)).
  { unfold usecs. rewrite Hn, Em, (combine_split n). unfold p, add_sign, signed. rewrite Hn.
    destruct (i_neg i); cbn [Bool.eqb]; lia. }
  rewrite Eu. pose proof (combine_bound (hour t) _ _ _ Hmi Hs Hf) as Hb.
  set (c := combine 0 _ _ _ _) in *. unfold adds, in_range. rewrite Hty.
  destruct ((p <? 0) || (0x7FFFFFFF <? p)) eqn:Eg.
  { eexists _, _. split; [done|]. split; [|done]. apply orb_true_iff in Eg as [?%Z.ltb_lt|?%Z.ltb_lt];
      unfold day_usecs, MAX_DAY_NUMBER; lia. }
  destruct (get_date_from_daynr_spec p) as [(Hrp & y & m & d & -> & Vp & Hyp & Ed)|[Hrp ->]]; cbn [mbind option_bind].
  - eexists _, _. split; [done|]. split; [|unfold day_usecs, MAX_DAY_NUMBER in *; lia]. intros _.
    assert (V' : valid_datetime (set_date y m d t)) by (apply with_date; done).
    split_and!; [done|by left|done|]. unfold usecs. rewrite (proj1 (magnitude_datetime _ V')).
    cbn [neg year month day hour minute second second_part set_date]. rewrite Hn. cbn [signed].
    rewrite combine_split, Ed. done.
  - eexists _, _. split; [done|]. split; [|done]. unfold day_usecs, MAX_DAY_NUMBER in *. lia.
Qed.

(** The date [k] months later, on the last day of the month if the month is too short. *)
Definition months_later (t : MYSQL_TIME) (k : Z) : MYSQL_TIME :=
  let p := year t * 12 + (month t - 1) + k in
  let y := p / 12 in
  let m := p mod 12 + 1 in
  set_date y m (Z.min (day t) (month_length y m)) t.

(** A result in the years 0 to 9999. *)
Definition month_in_range (t : MYSQL_TIME) (k : Z) : Prop := 0 ≤ year t * 12 + (month t - 1) + k < 120000.

#[export] Instance month_in_range_dec t k : Decision (month_in_range t k).
Proof. apply _. Defined.

Lemma month_days_spec m : 1 ≤ m ≤ 12 → month_days m = Some (month_length 1 m).
Proof.
  intros Hm%month_cases. repeat (destruct Hm as [->|Hm]); try done. by subst m.
Qed.

Lemma add_months_spec t i :
  valid_date (year t) (month t) (day t) → 0 ≤ i_year i < 2 ^ 58 → 0 ≤ i_month i < 2 ^ 58 →
  let k := add_sign t i * (12 * i_year i + i_month i) in
  ∃ e t', add_months t i (add_sign t i) = Some (e, t')
    ∧ (month_in_range t k → e = false ∧ t' = months_later t k) ∧ (¬ month_in_range t k → e = true).
Proof.
  intros (Hy & Hm & Hd) Hiy Him k. unfold add_months, month_in_range, months_later.
  assert (Hk : - 2 ^ 62 < k < 2 ^ 62) by (subst k; destruct (add_sign_cases t i) as [-> | ->]; lia).
  rewrite !s64_small by lia. pose proof (add_sign_cases t i) as Hs.
  repeat (rewrite i64_ok by (destruct Hs as [-> | ->]; lia); cbn [mbind option_bind]).
  rewrite !u32_small by lia.
  repeat (rewrite i64_ok by (destruct Hs as [-> | ->]; lia); cbn [mbind option_bind]).
  replace (year t * 12 + add_sign t i * i_year i * 12 + month t - 1 + add_sign t i * i_month i)
    with (year t * 12 + (month t - 1) + k) by lia.
  set (p := year t * 12 + (month t - 1) + k). assert (Hp : - 2 ^ 63 < p < 2 ^ 63) by lia. clearbody p. clear Hs Hk k.
  destruct (decide (0 ≤ p < 120000)) as [Hr|Hr].
  - rewrite u64_small by lia. rewrite (proj2 (Z.leb_gt _ _)) by lia. cbn [month year set_date].
    rewrite Z.quot_div_nonneg, Z.rem_mod_nonneg by lia. rewrite !u32_small by divlia.
    rewrite month_days_spec by divlia. cbn [mbind option_bind]. eexists _, _. split; [done|]. split; [|done].
    intros _. split; [done|]. set (y := p / 12). set (m := p mod 12 + 1).
    rewrite calc_days_in_year_spec by (unfold y; divlia). cbn [day set_date]. rewrite (month_length_common y m).
    unfold year_length. pose proof (month_length_bound 1 m).
    assert (Hd31 : day t ≤ 31) by (pose proof (month_length_bound (year t) (month t)); lia).
    assert (m = 2 → month_length 1 m = 28) by (by intros ->).
    destruct (Z.ltb_spec (month_length 1 m) (day t)), (Z.eqb_spec m 2), (leap_year y); cbn [andb Z.eqb Pos.eqb Z.b2z];
      unfold set_day, set_date; cbn [year month day hour minute second second_part neg time_type]; f_equal; lia.
  - assert (Eg : (120000 <=? u64 p) = true) by (apply Z.leb_le; unfold u64; divlia).
    rewrite Eg. eexists _, _. split; [done|]. split; [done|]. done.
Qed.

(** A TIME has no date to which weeks could be added. *)
Lemma add_week_TIME t i :
  valid_TIME t → 0 ≤ i_day i < 2 ^ 62 → ∃ t', date_add_interval t INTERVAL_WEEK i = Some (true, t').
Proof.
  intros (Ht & Hy & Hm & Hd & _) Hi. unfold date_add_interval. fold (add_sign t i). unfold add_week. rewrite Hy, Hm, Hd.
  replace (calc_daynr 0 0 0) with (Some 0) by reflexivity. cbn [mbind option_bind]. rewrite s64_small by lia.
  rewrite i64_ok by (destruct (add_sign_cases t i) as [-> | ->]; lia). cbn [mbind option_bind].
  destruct (_ || _); cbn [mbind option_bind]; [by eexists|].
  destruct (get_date_from_daynr_spec (0 + add_sign t i * i_day i)) as [(_ & y & m & d & -> & _)|[_ ->]]; cbn [mbind option_bind].
  - cbn [time_type set_date]. rewrite decide_True by done. by eexists.
  - by eexists.
Qed.

(** and to a date they are added as days. *)
Lemma add_week_date t i :
  valid_datetime t → 0 ≤ i_day i < 2 ^ 62 →
  ∃ e t', date_add_interval t INTERVAL_WEEK i = Some (e, t')
    ∧ adds t (usecs t + signed (i_neg i) (i_day i * day_usecs)) e t'.
Proof.
  intros Vd Hi. destruct (add_week_spec t i Vd Hi) as (e & t' & E & Ha). unfold date_add_interval, add_sign in *. rewrite E.
  cbn [mbind option_bind]. destruct e; [by eexists _, _|].
  assert (Ht' : time_type t' ≠ MYSQL_TIMESTAMP_TIME).
  { destruct (decide (in_range t (usecs t + signed (i_neg i) (i_day i * day_usecs)))) as [Hr|Hr];
      [|by apply (proj2 Ha) in Hr].
    apply (proj1 Ha) in Hr as (_ & _ & Hr & _). unfold is_TIME in Hr. destruct Vd as (Ht & _).
    rewrite (bool_decide_eq_false_2 (time_type t = _)) in Hr by (destruct Ht as [-> | ->]; done).
    by apply bool_decide_eq_false in Hr. }
  rewrite decide_False by done. by eexists _, _.
Qed.

Lemma month_length_not_2 y y' m : m ≠ 2 → month_length y m = month_length y' m.
Proof. intros Hm. unfold month_length. by rewrite (proj2 (Z.eqb_neq m 2)). Qed.

Lemma add_year_spec t i :
  valid_date (year t) (month t) (day t) → 0 ≤ i_year i < 2 ^ 31 →
  let k := add_sign t i * (12 * i_year i) in
  ∃ e t', add_year t i (add_sign t i) = Some (e, t')
    ∧ (month_in_range t k → e = false ∧ t' = months_later t k) ∧ (¬ month_in_range t k → e = true).
Proof.
  intros (Hy & Hm & Hd) Hiy k. unfold add_year, month_in_range, months_later.
  rewrite s64_small by lia. set (q := year t + add_sign t i * i_year i).
  assert (Hq : - 2 ^ 31 < q < 2 ^ 31 + 10000) by (subst q; destruct (add_sign_cases t i) as [-> | ->]; lia).
  replace (year t * 12 + (month t - 1) + k) with (q * 12 + (month t - 1)) by lia. clearbody q. clear k.
  rewrite i64_ok by lia. cbn [mbind option_bind]. cbn [month year day set_date].
  destruct (decide (0 ≤ q < 10000)) as [Hr|Hr].
  - rewrite u32_small by lia. rewrite (proj2 (Z.leb_gt _ _)) by lia.
    replace ((q * 12 + (month t - 1)) / 12) with q by divlia.
    replace ((q * 12 + (month t - 1)) mod 12 + 1) with (month t) by divlia.
    rewrite calc_days_in_year_spec by lia.
    assert (E : Z.min (day t) (month_length q (month t))
      = if (month t =? 2) && (day t =? 29) && negb (year_length q =? 366) then 28 else day t).
    { unfold year_length. destruct (Z.eqb_spec (month t) 2) as [E2|E2].
      - rewrite E2 in *. unfold month_length in *. cbn [Z.eqb Pos.eqb] in *.
        destruct (Z.eqb_spec (day t) 29), (leap_year q), (leap_year (year t)); cbn [andb negb Z.eqb Pos.eqb]; lia.
      - cbn [andb]. rewrite (month_length_not_2 q (year t)) by done. lia. }
    rewrite E. destruct (_ && _ && _); (eexists _, _; split; [done|]; split; [done|lia]).
  - assert (Eg : (10000 <=? u32 q) = true) by (apply Z.leb_le; unfold u32; divlia).
    rewrite Eg. eexists _, _. split; [done|]. split; [lia|done].
Qed.

(** ** The results *)

(** C13. Adding an interval of days, hours, minutes, seconds and microseconds to a
    DATE, DATETIME or TIME, or one of weeks to a DATE or DATETIME, gives the value
    whose distance is exactly the interval, with its sign for a TIME, and an error
    when this value is outside 0001-01-01 to 9999-12-31, or for a TIME beyond
    838:59:59.999999.  Adding weeks to a TIME is always an error.  The days,
    hours, minutes and seconds of the interval add up to less than 2^64 ([i_day] of
    weeks is below 2^62), and its microseconds are below 2^62: the code does not
    check this, and a larger number of microseconds is not added exactly
    ([microsecond_interval_wraps]). *)
Theorem date_add_interval_exact t ty i :
  valid_temporal t → sane_interval i → fixed_length ty = true ∨ ty = INTERVAL_WEEK ∧ i_day i < 2 ^ 62 →
  ∃ e t', date_add_interval t ty i = Some (e, t')
    ∧ if negb (fixed_length ty) && is_TIME t then e = true
      else adds t (usecs t + signed (i_neg i) (if fixed_length ty then COMBINE_INTERVAL i else i_day i * day_usecs)) e t'.
Proof.
  intros V Si Hty. destruct (fixed_length ty) eqn:Ef; cbn [negb andb].
  - destruct (add_fixed_spec t ty i V Si) as (e & t' & E & Ha). exists e, t'. split; [|done].
    rewrite <- E. unfold date_add_interval. by destruct ty.
  - destruct Hty as [?|[-> Hd]]; [done|]. pose proof Si as (_ & _ & Hi & _). unfold is_TIME. destruct V as [V|V].
    + rewrite bool_decide_eq_false_2 by (destruct V as [[-> | ->] _]; done). by apply add_week_date.
    + rewrite bool_decide_eq_true_2 by apply V. destruct (add_week_TIME t i V) as [t' E]; [lia|]. by exists true, t'.
Qed.

