(* ===== verification/TimeDiff.v ===== *)
(** * Differences of temporal values

    [calc_time_diff] computes the distance of two values, which
    [date_add_interval] adds back. *)

From S2P Require Import Prelude MyBit MyTime Calendar TimeAdd.

#[local] Open Scope Z_scope.

Lemma second_part_small t : valid_clock t → s64 (second_part t) = second_part t.
Proof. intros (_ & _ & Hf). apply s64_small. lia. Qed.

Lemma valid_temporal_clock t : valid_temporal t → valid_clock t.
Proof. intros [(_ & _ & _ & _ & H & _)|(_ & _ & _ & _ & _ & H)]; done. Qed.

(** A magnitude as days and the clock. *)
Lemma magnitude_days t :
  magnitude t = ((if is_TIME t then day t else day_number (year t) (month t) (day t)) * SECONDS_IN_24H
                 + clock_seconds t) * 1000000 + second_part t.
Proof. unfold magnitude, combine, clock_seconds, SECONDS_IN_24H. lia. Qed.

Lemma time_diff_days_spec a b g :
  valid_temporal a → valid_temporal b → (is_TIME a = true → is_TIME b = true) →
  time_diff_days a b g
  = Some ((if is_TIME a then day a else day_number (year a) (month a) (day a))
          - g * (if is_TIME b then day b else day_number (year b) (month b) (day b))).
Proof.
  intros Va Vb Hab. unfold time_diff_days, is_TIME in *.
  destruct (decide (time_type a = MYSQL_TIMESTAMP_TIME)) as [Ea|Ea].
  { rewrite !bool_decide_eq_true_2 in * by done. specialize (Hab eq_refl). by rewrite Hab. }
  rewrite (bool_decide_eq_false_2 (time_type a = _)) by done.
  destruct Va as [(_ & Va & _)|(Ht & _)]; [|done]. rewrite (valid_date_daynr _ _ _ Va). cbn [mbind option_bind].
  destruct (decide (time_type b = MYSQL_TIMESTAMP_TIME)) as [Eb|Eb].
  { by rewrite bool_decide_eq_true_2. }
  rewrite bool_decide_eq_false_2 by done.
  destruct Vb as [(_ & Vb & _)|(Ht & _)]; [|done]. by rewrite (valid_date_daynr _ _ _ Vb).
Qed.

(** The result of the first [calc_time_diff]: the difference, or with
    [l_sign = -1] the sum, of the magnitudes. *)
Lemma calc_time_diff_spec a b g :
  valid_temporal a → valid_temporal b → (is_TIME a = true → is_TIME b = true) → g = 1 ∨ g = -1 →
  ∃ n s f, calc_time_diff a b g = Some (n, s, f)
    ∧ 0 ≤ s < 2 ^ 62 ∧ 0 ≤ f < 1000000 ∧ signed n (s * 1000000 + f) = magnitude a - g * magnitude b
    ∧ s * 1000000 + f = Z.abs (magnitude a - g * magnitude b).
Proof.
  intros Va Vb Hab Hg. unfold calc_time_diff. rewrite time_diff_days_spec by done. cbn [mbind option_bind].
  rewrite !second_part_small by (by apply valid_temporal_clock).
  pose proof (magnitude_bound a Va) as Ba. pose proof (magnitude_bound b Vb) as Bb.
  rewrite magnitude_days in Ba, Bb |- *. rewrite (magnitude_days b).
  set (da := if is_TIME a then _ else _) in *. set (db := if is_TIME b then _ else _) in *.
  unfold MAX_DAY_NUMBER, day_usecs, SECONDS_IN_24H in *.
  set (v := (_ - g * clock_seconds b) * 1000000 + _ - _).
  assert (Ev : v = (da * 86400 + clock_seconds a) * 1000000 + second_part a
    - g * ((db * 86400 + clock_seconds b) * 1000000 + second_part b)) by (subst v; lia).
  assert (Hv : - 2 ^ 62 < v < 2 ^ 62) by (destruct Hg as [-> | ->]; lia). rewrite <- Ev. clear Ev. clearbody v.
  rewrite i64_ok by lia. cbn [mbind option_bind]. exists (v <? 0), (Z.abs v / 1000000), (Z.abs v mod 1000000).
  assert (Eabs : (if v <? 0 then i64 (- v) else Some v) = Some (Z.abs v)).
  { destruct (Z.ltb_spec v 0); [rewrite i64_ok by lia|]; f_equal; lia. }
  rewrite Eabs. cbn [mbind option_bind]. split; [done|].
  pose proof (Z.div_mod (Z.abs v) 1000000 ltac:(lia)). pose proof (Z.mod_pos_bound (Z.abs v) 1000000 ltac:(lia)).
  split_and!; try lia.
  unfold signed. destruct (Z.ltb_spec v 0); lia.
Qed.

(** A number of microseconds is one date and clock. *)
Lemma combine_inj d h i s f d' h' i' s' f' :
  0 ≤ h < 24 → 0 ≤ i < 60 → 0 ≤ s < 60 → 0 ≤ f < 1000000 →
  0 ≤ h' < 24 → 0 ≤ i' < 60 → 0 ≤ s' < 60 → 0 ≤ f' < 1000000 →
  combine d h i s f = combine d' h' i' s' f' → d = d' ∧ h = h' ∧ i = i' ∧ s = s' ∧ f = f'.
Proof. unfold combine. lia. Qed.

Lemma usecs_inj a b :
  valid_datetime a → valid_datetime b → time_type a = time_type b → usecs a = usecs b → a = b.
Proof.
  intros Va Vb Ht. unfold usecs. rewrite (proj1 (magnitude_datetime a Va)), (proj1 (magnitude_datetime b Vb)).
  destruct Va as (_ & Va & _ & Ha & (Hia & Hsa & Hfa) & Na), Vb as (_ & Vb & _ & Hb & (Hib & Hsb & Hfb) & Nb).
  rewrite Na, Nb. cbn [signed]. intros E. apply combine_inj in E as (E & ? & ? & ? & ?); try done.
  apply day_number_inj in E as (? & ? & ?); [|done..]. destruct a, b; cbn in *; congruence.
Qed.

Lemma add_fixed_type t ty i g t' :
  time_type t ≠ MYSQL_TIMESTAMP_TIME → ty ≠ INTERVAL_DAY → add_fixed t ty i g = Some (false, t') →
  time_type t' = MYSQL_TIMESTAMP_DATETIME.
Proof.
  intros Ht Hty. unfold add_fixed. destruct (_ <? _); [done|]. rewrite decide_False by done.
  destruct (calc_daynr _ _ _) as [n|]; [|done]. cbn [mbind option_bind].
  match goal with |- context [if ?c then i64 ?x else ?y] => destruct (if c then i64 x else y) as [u|]; [|done] end.
  cbn [mbind option_bind].
  rewrite decide_False by done. destruct (neg _); [done|]. rewrite decide_False by done.
  destruct (get_date_from_daynr _) as [[[[y m] d]|]|]; cbn [mbind option_bind]; [|done|done].
  by intros [= <-].
Qed.

(** C38. The difference of two datetimes, added to the second, gives the first. *)
Theorem time_diff_add_roundtrip a b :
  valid_datetime a → valid_datetime b → time_type a = MYSQL_TIMESTAMP_DATETIME →
  ∃ n s f, calc_time_diff a b 1 = Some (n, s, f)
    ∧ date_add_interval b INTERVAL_SECOND_MICROSECOND (mk_interval 0 0 0 0 0 s f n) = Some (false, a).
Proof.
  intros Va Vb Ta. pose proof (magnitude_datetime a Va) as [_ Ba]. pose proof (magnitude_datetime b Vb) as [_ Bb].
  assert (Hty : ∀ t, valid_datetime t → is_TIME t = false).
  { intros t (Ht & _). unfold is_TIME. rewrite bool_decide_eq_false_2; [done|destruct Ht as [-> | ->]; done]. }
  destruct (calc_time_diff_spec a b 1) as (n & s & f & E & Hs & Hf & Ev & Eabs); [by left|by left|by rewrite Hty|by left|].
  exists n, s, f. split; [done|]. set (i := mk_interval 0 0 0 0 0 s f n).
  assert (Si : sane_interval i) by (split_and!; cbn; lia).
  destruct (add_fixed_spec b INTERVAL_SECOND_MICROSECOND i (or_introl Vb) Si) as (e & t' & E' & Hin & Hout).
  assert (Eu : usecs b + interval_usecs i = usecs a).
  { unfold interval_usecs, COMBINE_INTERVAL, combine, usecs. cbn [i_neg i_day i_hour i_minute i_second i_second_part i].
    destruct Va as (_ & _ & _ & _ & _ & ->), Vb as (_ & _ & _ & _ & _ & ->). cbn [signed].
    unfold signed in *. destruct n; lia. }
  rewrite Eu in Hin, Hout. unfold in_range in Hin, Hout. rewrite Hty in Hin, Hout by done.
  assert (Hr : 366 * day_usecs ≤ usecs a < (MAX_DAY_NUMBER + 1) * day_usecs).
  { unfold usecs. destruct Va as (_ & _ & _ & _ & _ & ->). done. }
  destruct (Hin Hr) as (-> & V' & T' & U'). unfold date_add_interval. fold (add_sign b i). rewrite E'. do 2 f_equal.
  destruct V' as [V'|(T1 & _)]; [|unfold is_TIME in T'; by rewrite bool_decide_eq_true_2 in T'].
  apply usecs_inj; try done. rewrite Ta. eapply (add_fixed_type b), E'; [|done].
  destruct Vb as ([-> | ->] & _); done.
Qed.
