(* ===== verification/Compat56.v ===== *)
(** * Packed and binary temporal values (sql/compat56.cc, sql/compat56.h)

    A TIME or DATETIME is packed into a [longlong] whose low 24 bits are the
    microseconds; TIME, DATETIME and TIMESTAMP columns store three to eight
    bytes with the high byte first. *)

From S2P Require Import Prelude MyBit MyTime MyisamPack.

#[local] Open Scope Z_scope.

(** ** The packed format (compat56.h) *)

Definition MY_PACKED_TIME_GET_INT_PART (x : Z) : Z := Z.shiftr x 24.
Definition MY_PACKED_TIME_GET_FRAC_PART (x : Z) : Z := Z.rem x (2 ^ 24).
Definition MY_PACKED_TIME_MAKE (i f : Z) : Z := u64 (Z.shiftl (u64 i) 24 + f).
Definition MY_PACKED_TIME_MAKE_INT (i : Z) : Z := u64 (Z.shiftl (u64 i) 24).

Definition TIME_to_longlong_time_packed (ltime : MYSQL_TIME) : Z :=
  let hms := Z.lor (Z.lor (u32 (Z.shiftl (u32 (day ltime * 24 + hour ltime)) 12)) (u32 (Z.shiftl (minute ltime) 6)))
    (second ltime) in
  let tmp := s64 (MY_PACKED_TIME_MAKE hms (second_part ltime)) in
  if neg ltime then - tmp else tmp.

Definition TIME_from_longlong_time_packed (tmp : Z) : MYSQL_TIME :=
  let neg := tmp <? 0 in
  let tmp := if neg then - tmp else tmp in
  let hms := MY_PACKED_TIME_GET_INT_PART tmp in
  mk_time 0 0 0 (u32 (Z.shiftr hms 12) mod 2 ^ 10) (u32 (Z.shiftr hms 6) mod 2 ^ 6) (u32 hms mod 2 ^ 6)
    (MY_PACKED_TIME_GET_FRAC_PART tmp) neg MYSQL_TIMESTAMP_TIME.

Definition TIME_to_longlong_datetime_packed (ltime : MYSQL_TIME) : Z :=
  let ymd := Z.lor (u32 (Z.shiftl (u32 (year ltime * 13 + month ltime)) 5)) (day ltime) in
  let hms := Z.lor (Z.lor (u32 (Z.shiftl (hour ltime) 12)) (u32 (Z.shiftl (minute ltime) 6))) (second ltime) in
  let tmp := s64 (MY_PACKED_TIME_MAKE (Z.lor (Z.shiftl ymd 17) hms) (second_part ltime)) in
  if neg ltime then - tmp else tmp.

Definition TIME_from_longlong_datetime_packed (tmp : Z) : MYSQL_TIME :=
  let neg := tmp <? 0 in
  let tmp := if neg then - tmp else tmp in
  let ymdhms := MY_PACKED_TIME_GET_INT_PART tmp in
  let ymd := Z.shiftr ymdhms 17 in
  let ym := Z.shiftr ymd 5 in
  let hms := Z.rem ymdhms (2 ^ 17) in
  mk_time (u32 (Z.quot ym 13)) (u32 (Z.rem ym 13)) (u32 (Z.rem ymd (2 ^ 5)))
    (u32 (Z.shiftr hms 12)) (u32 (Z.rem (Z.shiftr hms 6) (2 ^ 6))) (u32 (Z.rem hms (2 ^ 6)))
    (MY_PACKED_TIME_GET_FRAC_PART tmp) neg MYSQL_TIMESTAMP_DATETIME.

(** ** The bytes of columns *)

Definition TIMEF_OFS : Z := 0x800000000000.
Definition TIMEF_INT_OFS : Z := 0x800000.
Definition DATETIMEF_INT_OFS : Z := 0x8000000000.

Definition my_time_binary_length (dec : Z) : Z := 3 + (dec + 1) / 2.
Definition my_datetime_binary_length (dec : Z) : Z := 5 + (dec + 1) / 2.
Definition my_timestamp_binary_length (dec : Z) : Z := 4 + (dec + 1) / 2.

(** [switch (dec)]: the cases share their code in pairs. *)
Inductive precision := Whole | Hundredths | Ten_thousandths | Micro.

Definition switch (dec : Z) : precision :=
  if (dec =? 1) || (dec =? 2) then Hundredths
  else if (dec =? 3) || (dec =? 4) then Ten_thousandths
  else if (dec =? 5) || (dec =? 6) then Micro
  else Whole.

Definition my_time_packed_to_binary (nr dec : Z) : list Z :=
  match switch dec with
  | Whole => mi_int3store (TIMEF_INT_OFS + MY_PACKED_TIME_GET_INT_PART nr)
  | Hundredths => mi_int3store (TIMEF_INT_OFS + MY_PACKED_TIME_GET_INT_PART nr)
      ++ [u8 (Z.quot (MY_PACKED_TIME_GET_FRAC_PART nr) 10000)]
  | Ten_thousandths => mi_int3store (TIMEF_INT_OFS + MY_PACKED_TIME_GET_INT_PART nr)
      ++ mi_int2store (Z.quot (MY_PACKED_TIME_GET_FRAC_PART nr) 100)
  | Micro => mi_int6store (nr + TIMEF_OFS)
  end.

Definition my_time_packed_from_binary (ptr : list Z) (dec : Z) : option Z :=
  match switch dec with
  | Whole =>
    n ← mi_uint3korr ptr;
    Some (s64 (MY_PACKED_TIME_MAKE_INT (n - TIMEF_INT_OFS)))
  | Hundredths =>
    n ← mi_uint3korr ptr;
    let intpart := n - TIMEF_INT_OFS in
    frac ← ptr !! 3%nat;
    let '(intpart, frac) :=
      if (intpart <? 0) && negb (frac =? 0) then (intpart + 1, frac - 0x100) else (intpart, frac) in
    Some (s64 (MY_PACKED_TIME_MAKE intpart (frac * 10000)))
  | Ten_thousandths =>
    n ← mi_uint3korr ptr;
    let intpart := n - TIMEF_INT_OFS in
    frac ← mi_uint2korr (drop 3 ptr);
    let '(intpart, frac) :=
      if (intpart <? 0) && negb (frac =? 0) then (intpart + 1, frac - 0x10000) else (intpart, frac) in
    Some (s64 (MY_PACKED_TIME_MAKE intpart (frac * 100)))
  | Micro =>
    n ← mi_uint6korr ptr;
    Some (n - TIMEF_OFS)
  end.

Definition my_datetime_packed_to_binary (nr dec : Z) : list Z :=
  mi_int5store (MY_PACKED_TIME_GET_INT_PART nr + DATETIMEF_INT_OFS)
  ++ match switch dec with
     | Whole => []
     | Hundredths => [u8 (Z.quot (MY_PACKED_TIME_GET_FRAC_PART nr) 10000)]
     | Ten_thousandths => mi_int2store (Z.quot (MY_PACKED_TIME_GET_FRAC_PART nr) 100)
     | Micro => mi_int3store (MY_PACKED_TIME_GET_FRAC_PART nr)
     end.

Definition my_datetime_packed_from_binary (ptr : list Z) (dec : Z) : option Z :=
  n ← mi_uint5korr ptr;
  let intpart := n - DATETIMEF_INT_OFS in
  match switch dec with
  | Whole => Some (s64 (MY_PACKED_TIME_MAKE_INT intpart))
  | Hundredths => c ← ptr !! 5%nat; Some (s64 (MY_PACKED_TIME_MAKE intpart (s8 c * 10000)))
  | Ten_thousandths => c ← mi_sint2korr (drop 5 ptr); Some (s64 (MY_PACKED_TIME_MAKE intpart (c * 100)))
  | Micro => c ← mi_sint3korr (drop 5 ptr); Some (s64 (MY_PACKED_TIME_MAKE intpart c))
  end.

(** [struct timeval] *)
Record timeval := mk_timeval { tv_sec : Z; tv_usec : Z }.

Definition my_max_usec_value : list Z := [0; 900000; 990000; 999000; 999900; 999990; 999999].

Definition my_timestamp_to_binary (tm : timeval) (dec : Z) : list Z :=
  mi_int4store (tv_sec tm)
  ++ match switch dec with
     | Whole => []
     | Hundredths => [u8 (Z.quot (tv_usec tm) 10000)]
     | Ten_thousandths => mi_int2store (Z.quot (tv_usec tm) 100)
     | Micro => mi_int3store (tv_usec tm)
     end.

Definition my_timestamp_from_binary (ptr : list Z) (dec : Z) : option timeval :=
  s ← mi_uint4korr ptr;
  match switch dec with
  | Whole => Some (mk_timeval s 0)
  | p =>
    usec ← match p with
           | Hundredths => c ← ptr !! 4%nat; Some (c * 10000)
           | Ten_thousandths => c ← mi_uint2korr (drop 4 ptr); Some (c * 100)
           | _ => mi_uint3korr (drop 4 ptr)
           end;
    top ← my_max_usec_value !! Z.to_nat dec;
    Some (mk_timeval s (Z.min usec top))
  end.
