(* ===== verification/TimeColumns.v ===== *)
(** * The formats of temporal columns

    TIME, DATETIME and TIMESTAMP columns of every precision: packing is
    invertible, and the bytes are an ordered format. *)

From S2P Require Import Prelude MyBit MyTime Calendar TimeAdd MyisamPack Compat56 KeyCodec.

#[local] Open Scope Z_scope.

(** ** Precisions *)

(** The microseconds of one unit, and the bytes for the fraction. *)
Definition unit (p : precision) : Z :=
  match p with Whole => 1000000 | Hundredths => 10000 | Ten_thousandths => 100 | Micro => 1 end.
Definition frac_bytes (p : precision) : nat :=
  match p with Whole => 0 | Hundredths => 1 | Ten_thousandths => 2 | Micro => 3 end.

(** A fraction of [dec] digits. *)
Definition rounded (dec f : Z) : Prop := 0 ≤ f < 1000000 ∧ f mod 10 ^ (6 - dec) = 0.

Lemma rounded_unit dec f :
  0 ≤ dec ≤ 6 → rounded dec f →
  ∃ g, f = g * unit (switch dec) ∧ 0 ≤ g ∧ g * unit (switch dec) < 1000000
    ∧ (switch dec = Micro → g < 1000000) ∧ (switch dec = Ten_thousandths → g < 10000)
    ∧ (switch dec = Hundredths → g < 100) ∧ (switch dec = Whole → g = 0).
Proof.
  intros Hd [Hf Hr]. exists (f / unit (switch dec)).
  assert (H : dec = 0 ∨ dec = 1 ∨ dec = 2 ∨ dec = 3 ∨ dec = 4 ∨ dec = 5 ∨ dec = 6) by lia.
  repeat (destruct H as [->|H]); try subst dec; cbn [switch unit Z.eqb Pos.eqb orb] in *;
    match type of Hr with _ mod 10 ^ ?e = _ => let v := eval vm_compute in (10 ^ e) in change (10 ^ e) with v in Hr end;
    (split_and!; intros; first [discriminate|divlia]).
Qed.

Lemma switch_bytes dec : 0 ≤ dec ≤ 6 → Z.of_nat (frac_bytes (switch dec)) = (dec + 1) / 2.
Proof.
  intros Hd. assert (H : dec = 0 ∨ dec = 1 ∨ dec = 2 ∨ dec = 3 ∨ dec = 4 ∨ dec = 5 ∨ dec = 6) by lia.
  repeat (destruct H as [->|H]); try subst dec; done.
Qed.

(** ** TIME *)

(** The packed form without its sign. *)
Definition packed_time (t : MYSQL_TIME) : Z :=
  (hour t * 4096 + minute t * 64 + second t) * 2 ^ 24 + second_part t.

Lemma packed_time_bound t :
  valid_TIME t → 0 ≤ packed_time t ∧ 0 ≤ hour t * 4096 + minute t * 64 + second t < 2 ^ 22.
Proof.
  intros (_ & _ & _ & _ & Hh & (Hi & Hs & Hf)). unfold packed_time, TIME_MAX_HOUR in *. lia.
Qed.

Lemma time_packed_spec t :
  valid_TIME t → TIME_to_longlong_time_packed t = signed (neg t) (packed_time t).
Proof.
  intros V. pose proof (packed_time_bound t V) as [_ Hb]. destruct V as (_ & _ & _ & Hd & Hh & (Hi & Hs & Hf)).
  unfold TIME_to_longlong_time_packed, MY_PACKED_TIME_MAKE, packed_time, TIME_MAX_HOUR in *. rewrite Hd.
  rewrite (u32_small (0 * 24 + hour t)) by lia. rewrite !Z.shiftl_mul_pow2, !u32_small by lia.
  rewrite <- !Z.shiftl_mul_pow2 by lia.
  rewrite (lor_high (Z.shiftl (minute t) 6)) by (rewrite ?Z.shiftl_mul_pow2 by lia; lia).
  replace (2 ^ 12 * (0 * 24 + hour t) + Z.shiftl (minute t) 6) with (Z.shiftl (hour t * 64 + minute t) 6)
    by (rewrite !Z.shiftl_mul_pow2 by lia; lia).
  rewrite lor_high by lia. rewrite Z.shiftl_mul_pow2 by lia.
  unfold signed. replace (2 ^ 6 * (hour t * 64 + minute t) + second t) with (hour t * 4096 + minute t * 64 + second t) by lia.
  rewrite (u64_small (hour t * 4096 + _ + _)), u64_small, s64_small by lia. by rewrite Z.shiftl_mul_pow2 by lia.
Qed.

(** Unpacking; a TIME of 0 has no sign. *)
Lemma time_unpacked_spec t :
  valid_TIME t → (neg t = true → packed_time t ≠ 0) →
  TIME_from_longlong_time_packed (signed (neg t) (packed_time t)) = t.
Proof.
  intros V Hz. pose proof (packed_time_bound t V) as [Hp Hb]. destruct V as (Ht & Hy & Hm & Hd & Hh & (Hi & Hs & Hf)).
  unfold TIME_from_longlong_time_packed, MY_PACKED_TIME_GET_INT_PART, MY_PACKED_TIME_GET_FRAC_PART.
  assert (En : (signed (neg t) (packed_time t) <? 0) = neg t).
  { unfold signed. destruct (neg t); [apply Z.ltb_lt; specialize (Hz eq_refl); lia|apply Z.ltb_ge; lia]. }
  rewrite En. replace (if neg t then - signed (neg t) (packed_time t) else signed (neg t) (packed_time t))
    with (packed_time t) by (unfold signed; destruct (neg t); lia).
  rewrite !Z.shiftr_div_pow2 by lia. rewrite Z.rem_mod_nonneg by lia. unfold packed_time, TIME_MAX_HOUR in *.
  set (hms := hour t * 4096 + minute t * 64 + second t) in *.
  replace ((hms * 2 ^ 24 + second_part t) / 2 ^ 24) with hms by divlia.
  replace ((hms * 2 ^ 24 + second_part t) mod 2 ^ 24) with (second_part t) by divlia.
  rewrite !u32_small by (unfold hms; divlia).
  destruct t as [y m d h i s f n ty]. cbn in *. subst hms y m d ty. f_equal; divlia.
Qed.

(** The number stored for [h] seconds fields and a fraction of [g] units. *)
Definition time_number (p : precision) (n : bool) (h g : Z) : Z :=
  2 ^ 23 * 256 ^ Z.of_nat (frac_bytes p) + signed n (h * 256 ^ Z.of_nat (frac_bytes p) + g).

(** The fraction of a packed value, in units; the sign is that of the value. *)
Lemma frac_units n h g u :
  0 ≤ h → 0 < u → 0 ≤ g * u < 2 ^ 24 →
  Z.quot (MY_PACKED_TIME_GET_FRAC_PART (signed n (h * 2 ^ 24 + g * u))) u = signed n g.
Proof.
  intros Hh Hu Hg. unfold MY_PACKED_TIME_GET_FRAC_PART, signed.
  assert (E : (h * 2 ^ 24 + g * u) mod 2 ^ 24 = g * u) by (rewrite Z.add_comm, Z.mod_add, Z.mod_small; lia).
  destruct n.
  - rewrite Z.rem_opp_l', Z.rem_mod_nonneg, E, Z.quot_opp_l, Z.quot_mul by lia. done.
  - rewrite Z.rem_mod_nonneg, E, Z.quot_mul by lia. done.
Qed.

Lemma time_to_binary_spec dec n h f :
  0 ≤ dec ≤ 6 → 0 ≤ h < 2 ^ 22 → rounded dec f →
  ∃ g, f = g * unit (switch dec) ∧ 0 ≤ g < 2 ^ (8 * Z.of_nat (frac_bytes (switch dec)))
    ∧ my_time_packed_to_binary (signed n (h * 2 ^ 24 + f)) dec
      = be_bytes (3 + frac_bytes (switch dec)) (time_number (switch dec) n h g).
Proof.
  intros Hd Hh Hr. destruct (rounded_unit dec f Hd Hr) as (g & Ef & Hg & Hgu & Hm & Ht & Hu & Hw).
  exists g. split; [done|]. unfold my_time_packed_to_binary, time_number, TIMEF_INT_OFS, TIMEF_OFS.
  unfold MY_PACKED_TIME_GET_INT_PART. rewrite Z.shiftr_div_pow2 by lia.
  destruct (switch dec); cbn [unit frac_bytes] in *.
  - specialize (Hw eq_refl). subst g. split; [done|]. rewrite int3store_be. apply (be_bytes_ext 3).
    change (256 ^ Z.of_nat 0) with 1. f_equal. unfold signed. destruct n; divlia.
  - specialize (Hu eq_refl). split; [lia|]. rewrite int3store_be, (be_bytes_app 3 1).
    change (256 ^ Z.of_nat 1) with 256. f_equal.
    + apply be_bytes_ext. f_equal. unfold signed. destruct n; divlia.
    + cbn [be_bytes]. unfold u8. change (256 ^ Z.of_nat 0) with 1. rewrite Z.div_1_r. f_equal.
      subst f. rewrite frac_units by lia. unfold signed. destruct n; divlia.
  - specialize (Ht eq_refl). split; [lia|]. rewrite int3store_be, int2store_be, (be_bytes_app 3 2).
    change (256 ^ Z.of_nat 2) with 65536. f_equal.
    + apply be_bytes_ext. f_equal. unfold signed. destruct n; divlia.
    + apply be_bytes_ext. change (256 ^ Z.of_nat 2) with 65536.
      subst f. rewrite frac_units by lia. unfold signed. destruct n; divlia.
  - specialize (Hm eq_refl). split; [lia|]. rewrite int6store_be. apply (be_bytes_ext 6).
    change (256 ^ Z.of_nat 3) with (2 ^ 24). f_equal. unfold signed. destruct n; lia.
Qed.

Lemma u64_make i f : MY_PACKED_TIME_MAKE i f = u64 (i * 2 ^ 24 + f).
Proof.
  unfold MY_PACKED_TIME_MAKE, u64. rewrite Z.shiftl_mul_pow2 by lia.
  rewrite <- Zplus_mod_idemp_l, Zmult_mod_idemp_l, Zplus_mod_idemp_l. done.
Qed.

Lemma s64_make i f : - 2 ^ 63 ≤ i * 2 ^ 24 + f < 2 ^ 63 → s64 (MY_PACKED_TIME_MAKE i f) = i * 2 ^ 24 + f.
Proof.
  intros H. rewrite u64_make. unfold s64, u64. rewrite Zplus_mod_idemp_l. rewrite Z.mod_small; lia.
Qed.

(** The integer part and the fraction of a stored number, with the correction
    for negative values. *)
Lemma split_number B n h g :
  0 ≤ h < 2 ^ 22 → 0 ≤ g < B →
  let N := 2 ^ 23 * B + signed n (h * B + g) in
  0 ≤ N / B < 2 ^ 24 ∧
  (if (N / B - 2 ^ 23 <? 0) && negb (N mod B =? 0) then (N / B - 2 ^ 23 + 1, N mod B - B) else (N / B - 2 ^ 23, N mod B))
  = (signed n h, signed n g).
Proof.
  intros Hh Hg N.
  assert (E : N / B = 2 ^ 23 + (if n then if g =? 0 then - h else - h - 1 else h)
    ∧ N mod B = if n then if g =? 0 then 0 else B - g else g).
  { unfold N, signed. assert (HB : 0 < B) by lia. destruct n; [destruct (Z.eqb_spec g 0)|].
    - split; [symmetry; apply (Z.div_unique_pos _ _ _ 0)|symmetry; apply (Z.mod_unique_pos _ _ (2 ^ 23 - h))]; lia.
    - split; [symmetry; apply (Z.div_unique_pos _ _ _ (B - g))|symmetry; apply (Z.mod_unique_pos _ _ (2 ^ 23 - h - 1))]; lia.
    - split; [symmetry; apply (Z.div_unique_pos _ _ _ g)|symmetry; apply (Z.mod_unique_pos _ _ (2 ^ 23 + h))]; lia. }
  destruct E as [-> ->]. unfold signed. split; [repeat case_match; lia|].
  destruct n; [destruct (Z.eqb_spec g 0)|].
  - cbn [Z.eqb negb]. rewrite andb_false_r. f_equal; lia.
  - rewrite (proj2 (Z.ltb_lt _ _)), (proj2 (Z.eqb_neq _ _)) by lia. cbn [andb negb]. f_equal; lia.
  - rewrite (proj2 (Z.ltb_ge _ _)) by lia. cbn [andb]. f_equal; lia.
Qed.

(** Reading the stored number back. *)
Lemma time_from_binary_spec dec n h g l :
  0 ≤ h < 2 ^ 22 → 0 ≤ g < 2 ^ (8 * Z.of_nat (frac_bytes (switch dec))) → g * unit (switch dec) < 1000000 →
  my_time_packed_from_binary
    (be_bytes (3 + frac_bytes (switch dec)) (time_number (switch dec) n h g) ++ l) dec
  = Some (signed n (h * 2 ^ 24 + g * unit (switch dec))).
Proof.
  intros Hh Hg Hgu. unfold my_time_packed_from_binary, time_number, TIMEF_INT_OFS.
  change 0x800000 with (2 ^ 23). change 0x100 with 256. change 0x10000 with 65536.
  assert (Es : ∀ u, 0 ≤ g * u < 1000000 → s64 (MY_PACKED_TIME_MAKE (signed n h) (signed n g * u)) = signed n (h * 2 ^ 24 + g * u)).
  { intros u Hu. unfold signed. destruct n; rewrite s64_make; lia. }
  destruct (switch dec); cbn [unit frac_bytes] in *.
  - change (2 ^ (8 * Z.of_nat 0)) with 1 in Hg. replace g with 0 in * by lia. change (256 ^ Z.of_nat 0) with 1.
    rewrite uint3korr_be, be_val_bytes by (apply be_bytes_range || apply length_be_bytes). cbn [mbind option_bind].
    change (256 ^ Z.of_nat (3 + 0)) with (2 ^ 24). rewrite Z.mod_small by (unfold signed; destruct n; lia).
    f_equal. rewrite <- Es by lia. unfold MY_PACKED_TIME_MAKE, MY_PACKED_TIME_MAKE_INT.
    replace (signed n 0 * 1000000) with 0 by (unfold signed; destruct n; lia). rewrite Z.add_0_r.
    replace (2 ^ 23 * 1 + _ - 2 ^ 23) with (signed n h) by (unfold signed; destruct n; lia). by rewrite Z.add_0_r.
  - change (2 ^ (8 * Z.of_nat 1)) with 256 in Hg. pose proof (split_number 256 n h g Hh ltac:(lia)) as [Hr E]. cbv zeta in Hr, E.
    rewrite (be_bytes_app 3 1), <- app_assoc. change (256 ^ Z.of_nat 1) with 256.
    rewrite uint3korr_be, be_val_bytes by (apply be_bytes_range || apply length_be_bytes). cbn [mbind option_bind].
    change (256 ^ Z.of_nat 3) with (2 ^ 24). rewrite (Z.mod_small (_ / 256)) by done.
    cbn [be_bytes app lookup list_lookup mbind option_bind].
    change (256 ^ Z.of_nat 0) with 1. rewrite Z.div_1_r, E, Es by lia. done.
  - change (2 ^ (8 * Z.of_nat 2)) with 65536 in Hg. pose proof (split_number 65536 n h g Hh ltac:(lia)) as [Hr E]. cbv zeta in Hr, E.
    rewrite (be_bytes_app 3 2), <- app_assoc. change (256 ^ Z.of_nat 2) with 65536.
    rewrite uint3korr_be, be_val_bytes by (apply be_bytes_range || apply length_be_bytes). cbn [mbind option_bind].
    rewrite drop_app_length' by (by rewrite length_be_bytes).
    rewrite uint2korr_be, be_val_bytes by (apply be_bytes_range || apply length_be_bytes). cbn [mbind option_bind].
    change (256 ^ Z.of_nat 3) with (2 ^ 24). change (256 ^ Z.of_nat 2) with 65536.
    rewrite (Z.mod_small (_ / 65536)) by done. by rewrite E, Es by lia.
  - rewrite uint6korr_be, be_val_bytes by (apply be_bytes_range || apply length_be_bytes). cbn [mbind option_bind].
    f_equal. change (256 ^ Z.of_nat 3) with (2 ^ 24). change (256 ^ Z.of_nat (3 + 3)) with (2 ^ 48).
    unfold TIMEF_OFS. change 0x800000000000 with (2 ^ 47).
    rewrite Z.mod_small; unfold signed; destruct n; lia.
Qed.

(** ** The order of signed and mixed numbers *)

(** Magnitudes in the same order are in the same order with their signs. *)
Lemma order_signed n m x y u v :
  0 ≤ x → 0 ≤ y → 0 ≤ u → 0 ≤ v → (x = 0 ↔ u = 0) → (y = 0 ↔ v = 0) → order x y = order u v →
  order (signed n x) (signed m y) = order (signed n u) (signed m v).
Proof.
  intros Hx Hy Hu Hv Zx Zy E. unfold order in E.
  assert (E' : (x < y ↔ u < v) ∧ (y < x ↔ v < u)).
  { split; [rewrite <- (Z.lt_sub_0 x y), <- (Z.lt_sub_0 u v), <- !Z.sgn_neg_iff|
            rewrite <- (Z.lt_0_sub y x), <- (Z.lt_0_sub v u), <- !Z.sgn_pos_iff]; by rewrite E. }
  apply order_iff; unfold signed; destruct n, m; lia.
Qed.

(** The fields of the clock in both mixtures. *)
Definition hms (t : MYSQL_TIME) : Z := hour t * 4096 + minute t * 64 + second t.

Lemma order_hms a b : valid_clock a → valid_clock b → order (hms a) (hms b) = order (clock_seconds a) (clock_seconds b).
Proof.
  intros (Hia & Hsa & _) (Hib & Hsb & _). unfold hms, clock_seconds.
  replace (hour a * 4096 + minute a * 64 + second a) with ((hour a * 64 + minute a) * 64 + second a) by lia.
  replace (hour b * 4096 + minute b * 64 + second b) with ((hour b * 64 + minute b) * 64 + second b) by lia.
  replace (hour a * 3600 + minute a * 60 + second a) with ((hour a * 60 + minute a) * 60 + second a) by lia.
  replace (hour b * 3600 + minute b * 60 + second b) with ((hour b * 60 + minute b) * 60 + second b) by lia.
  by rewrite !order_lex by lia.
Qed.

(** ** The TIME column *)

(** A TIME of [dec] digits; 0 has no sign. *)
Definition valid_time_column (dec : Z) (t : MYSQL_TIME) : Prop :=
  valid_TIME t ∧ rounded dec (second_part t) ∧ (neg t = true → usecs t ≠ 0).

Definition store_time (dec : Z) (t : MYSQL_TIME) : list Z :=
  my_time_packed_to_binary (TIME_to_longlong_time_packed t) dec.
Definition load_time (dec : Z) (l : list Z) : option MYSQL_TIME :=
  TIME_from_longlong_time_packed <$> my_time_packed_from_binary l dec.

Lemma frac_base p : 256 ^ Z.of_nat (frac_bytes p) = 2 ^ (8 * Z.of_nat (frac_bytes p)) ∧ 0 < unit p.
Proof. by destruct p. Qed.

Lemma store_time_spec dec t :
  0 ≤ dec ≤ 6 → valid_time_column dec t →
  let g := second_part t / unit (switch dec) in
  store_time dec t = be_bytes (3 + frac_bytes (switch dec)) (time_number (switch dec) (neg t) (hms t) g)
  ∧ second_part t = g * unit (switch dec) ∧ 0 ≤ g < 256 ^ Z.of_nat (frac_bytes (switch dec)) ∧ 0 ≤ hms t < 2 ^ 22.
Proof.
  intros Hd (V & Hr & _). pose proof (packed_time_bound t V) as [_ Hb]. unfold store_time.
  rewrite time_packed_spec by done. destruct (time_to_binary_spec dec (neg t) (hms t) (second_part t) Hd Hb Hr)
    as (g & Ef & Hg & E). pose proof (frac_base (switch dec)) as [E1 E2]. rewrite Ef.
  rewrite Z.div_mul by lia. rewrite <- Ef, E1. split_and!; [exact E|done|lia|lia|apply Hb..].
Qed.

Lemma time_number_range p n h g :
  0 ≤ h < 2 ^ 22 → 0 ≤ g < 256 ^ Z.of_nat (frac_bytes p) →
  0 ≤ time_number p n h g < 256 ^ Z.of_nat (3 + frac_bytes p).
Proof.
  intros Hh Hg. unfold time_number. rewrite Nat2Z.inj_add, Z.pow_add_r by lia.
  change (256 ^ Z.of_nat 3) with (2 ^ 24). set (B := 256 ^ Z.of_nat (frac_bytes p)) in *.
  unfold signed. destruct n; nia.
Qed.

(** The microseconds of a TIME as seconds and the fraction. *)
Lemma usecs_TIME t : valid_TIME t → usecs t = signed (neg t) (clock_seconds t * 1000000 + second_part t).
Proof.
  intros V. unfold usecs. rewrite (proj1 (magnitude_TIME t V)). f_equal. unfold combine, clock_seconds. lia.
Qed.

Lemma order_time_number dec a b :
  0 ≤ dec ≤ 6 → valid_time_column dec a → valid_time_column dec b →
  order (time_number (switch dec) (neg a) (hms a) (second_part a / unit (switch dec)))
    (time_number (switch dec) (neg b) (hms b) (second_part b / unit (switch dec)))
  = order (usecs a) (usecs b).
Proof.
  intros Hd Va Vb. destruct (store_time_spec dec a Hd Va) as (_ & Ea & Ga & Ha), (store_time_spec dec b Hd Vb) as (_ & Eb & Gb & Hb).
  set (ga := second_part a / _) in *. set (gb := second_part b / _) in *.
  destruct Va as (Va & [Ra _] & _), Vb as (Vb & [Rb _] & _). unfold time_number. rewrite order_shift, !usecs_TIME by done.
  pose proof (frac_base (switch dec)) as [_ Hu].
  destruct Va as (_ & _ & _ & _ & Hha & Ca), Vb as (_ & _ & _ & _ & Hhb & Cb).
  pose proof (order_hms a b Ca Cb) as Eo. pose proof Ca as (Hia & Hsa & _). pose proof Cb as (Hib & Hsb & _).
  assert (Za : hms a = 0 ↔ clock_seconds a = 0) by (unfold hms, clock_seconds; lia).
  assert (Zb : hms b = 0 ↔ clock_seconds b = 0) by (unfold hms, clock_seconds; lia).
  assert (Pa : 0 ≤ clock_seconds a) by (unfold clock_seconds; lia).
  assert (Pb : 0 ≤ clock_seconds b) by (unfold clock_seconds; lia).
  set (B := 256 ^ _) in *. set (u := unit _) in *. clearbody ga gb B u.
  apply order_signed; try nia.
  rewrite !order_lex, Eo by lia. rewrite Ea, Eb. by rewrite order_scale.
Qed.

#[export] Instance time_column_codec dec :
  0 ≤ dec ≤ 6 →
  OrderedCodec (valid_time_column dec) (λ a b, order (usecs a) (usecs b))
    (Z.to_nat (my_time_binary_length dec)) (store_time dec) (load_time dec).
Proof.
  intros Hd. pose proof (switch_bytes dec Hd) as Hw.
  replace (Z.to_nat (my_time_binary_length dec)) with (3 + frac_bytes (switch dec))%nat
    by (unfold my_time_binary_length; lia).
  apply (number_codec _ _ _ _ _ (λ t, time_number (switch dec) (neg t) (hms t) (second_part t / unit (switch dec)))).
  - intros t V. destruct (store_time_spec dec t Hd V) as (-> & _ & Hg & Hh). split; [done|]. by apply time_number_range.
  - intros t l V. destruct (store_time_spec dec t Hd V) as (_ & Ef & Hg & Hh). destruct V as (V & Hr & Hz).
    unfold load_time. pose proof (frac_base (switch dec)) as [E1 _].
    rewrite time_from_binary_spec by (rewrite <- ?E1, <- ?Ef; try done; apply Hr). cbn [fmap option_fmap option_map].
    f_equal. rewrite <- Ef. apply time_unpacked_spec; [done|]. intros Hn. specialize (Hz Hn).
    unfold usecs in Hz. rewrite Hn, (proj1 (magnitude_TIME t V)) in Hz. destruct V as (_ & _ & _ & _ & Hh' & (Hi & Hs & Hf)).
    unfold signed, combine, packed_time in *. lia.
  - intros a b Va Vb. by apply order_time_number.
Qed.

(** ** The DATETIME column *)

(** A DATETIME of [dec] digits; parts of the date may be 0. *)
Definition valid_datetime_column (dec : Z) (t : MYSQL_TIME) : Prop :=
  time_type t = MYSQL_TIMESTAMP_DATETIME ∧ neg t = false
  ∧ 0 ≤ year t ≤ 9999 ∧ 0 ≤ month t ≤ 12 ∧ 0 ≤ day t ≤ 31 ∧ 0 ≤ hour t < 24 ∧ valid_clock t
  ∧ rounded dec (second_part t).

Definition store_datetime (dec : Z) (t : MYSQL_TIME) : list Z :=
  my_datetime_packed_to_binary (TIME_to_longlong_datetime_packed t) dec.
Definition load_datetime (dec : Z) (l : list Z) : option MYSQL_TIME :=
  TIME_from_longlong_datetime_packed <$> my_datetime_packed_from_binary l dec.

(** The packed form without the microseconds. *)
Definition ymdhms (t : MYSQL_TIME) : Z := ((year t * 13 + month t) * 32 + day t) * 2 ^ 17 + hms t.

Lemma ymdhms_bound dec t : valid_datetime_column dec t → 0 ≤ ymdhms t < 2 ^ 39 ∧ 0 ≤ hms t < 2 ^ 17.
Proof.
  intros (_ & _ & Hy & Hm & Hd & Hh & (Hi & Hs & Hf) & _). unfold ymdhms, hms. lia.
Qed.

Lemma datetime_packed_spec dec t :
  valid_datetime_column dec t → TIME_to_longlong_datetime_packed t = ymdhms t * 2 ^ 24 + second_part t.
Proof.
  intros V. pose proof (ymdhms_bound dec t V) as [Hb Hb']. destruct V as (_ & Hn & Hy & Hm & Hd & Hh & (Hi & Hs & Hf) & _).
  unfold TIME_to_longlong_datetime_packed. rewrite Hn. rewrite (u32_small (year t * 13 + month t)) by lia.
  rewrite !(u32_small (Z.shiftl _ _)) by (rewrite Z.shiftl_mul_pow2 by lia; lia).
  rewrite (lor_high (day t)) by lia. rewrite (lor_high (Z.shiftl (minute t) 6)) by (rewrite ?Z.shiftl_mul_pow2 by lia; lia).
  replace (2 ^ 12 * hour t + Z.shiftl (minute t) 6) with (Z.shiftl (hour t * 64 + minute t) 6)
    by (rewrite !Z.shiftl_mul_pow2 by lia; lia).
  rewrite (lor_high (second t)) by lia.
  replace (2 ^ 6 * (hour t * 64 + minute t) + second t) with (hms t) by (unfold hms; lia).
  rewrite lor_high by lia. replace (2 ^ 17 * (2 ^ 5 * (year t * 13 + month t) + day t) + hms t) with (ymdhms t)
    by (unfold ymdhms; lia).
  rewrite s64_make; lia.
Qed.

Lemma datetime_unpacked_spec dec t :
  valid_datetime_column dec t → TIME_from_longlong_datetime_packed (ymdhms t * 2 ^ 24 + second_part t) = t.
Proof.
  intros V. pose proof (ymdhms_bound dec t V) as [Hb Hb']. destruct V as (Ht & Hn & Hy & Hm & Hd & Hh & (Hi & Hs & Hf) & _).
  unfold TIME_from_longlong_datetime_packed, MY_PACKED_TIME_GET_INT_PART, MY_PACKED_TIME_GET_FRAC_PART.
  rewrite (proj2 (Z.ltb_ge _ _)) by lia. rewrite !Z.shiftr_div_pow2 by lia. rewrite (Z.rem_mod_nonneg (_ + second_part t)) by lia.
  replace ((ymdhms t * 2 ^ 24 + second_part t) / 2 ^ 24) with (ymdhms t) by divlia.
  replace ((ymdhms t * 2 ^ 24 + second_part t) mod 2 ^ 24) with (second_part t) by divlia.
  rewrite (Z.rem_mod_nonneg (ymdhms t)) by lia.
  replace (ymdhms t mod 2 ^ 17) with (hms t) by (unfold ymdhms; divlia).
  replace (ymdhms t / 2 ^ 17) with ((year t * 13 + month t) * 32 + day t) by (unfold ymdhms; divlia).
  replace (((year t * 13 + month t) * 32 + day t) / 2 ^ 5) with (year t * 13 + month t) by divlia.
  rewrite !Z.rem_mod_nonneg, Z.quot_div_nonneg by (try apply Z.div_pos; lia).
  rewrite !u32_small by (unfold hms in *; divlia).
  destruct t as [y m d h i s f n ty]. cbn in *. unfold hms in *. cbn in *. subst n ty. f_equal; divlia.
Qed.

(** The number stored for [h] and a fraction of [g] units. *)
Definition plain_number (p : precision) (h g : Z) : Z := h * 256 ^ Z.of_nat (frac_bytes p) + g.

(** The bytes of the fraction. *)
Definition frac_store (p : precision) (f : Z) : list Z :=
  match p with
  | Whole => []
  | Hundredths => [u8 (Z.quot f 10000)]
  | Ten_thousandths => mi_int2store (Z.quot f 100)
  | Micro => mi_int3store f
  end.

Lemma frac_store_spec dec f :
  0 ≤ dec ≤ 6 → rounded dec f →
  ∃ g, f = g * unit (switch dec) ∧ 0 ≤ g < 256 ^ Z.of_nat (frac_bytes (switch dec))
    ∧ ((0 < frac_bytes (switch dec))%nat → 2 * g < 256 ^ Z.of_nat (frac_bytes (switch dec)))
    ∧ frac_store (switch dec) f = be_bytes (frac_bytes (switch dec)) g.
Proof.
  intros Hd Hr. destruct (rounded_unit dec f Hd Hr) as (g & Ef & Hg & Hgu & Hm & Ht & Hu & Hw).
  exists g. split; [done|]. unfold frac_store. destruct (switch dec); cbn [unit frac_bytes] in *.
  - rewrite Hw by done. done.
  - specialize (Hu eq_refl). change (256 ^ Z.of_nat 1) with 256. subst f. rewrite Z.quot_mul by lia.
    split_and!; [lia..|]. cbn [be_bytes]. change (256 ^ Z.of_nat 0) with 1. by rewrite Z.div_1_r.
  - specialize (Ht eq_refl). change (256 ^ Z.of_nat 2) with 65536. subst f. rewrite Z.quot_mul, int2store_be by lia.
    split_and!; [lia..|done].
  - specialize (Hm eq_refl). change (256 ^ Z.of_nat 3) with (2 ^ 24). subst f. rewrite Z.mul_1_r, int3store_be.
    split_and!; [lia..|done].
Qed.

(** A number and a fraction behind it. *)
Lemma plain_bytes n p h g :
  0 ≤ g < 256 ^ Z.of_nat (frac_bytes p) →
  be_bytes n h ++ be_bytes (frac_bytes p) g = be_bytes (n + frac_bytes p) (plain_number p h g).
Proof.
  intros Hg. unfold plain_number. rewrite be_bytes_app. set (B := 256 ^ _) in *. f_equal; apply be_bytes_ext.
  - f_equal. rewrite Z.div_add_l, Z.div_small by lia. lia.
  - fold B. rewrite Z.add_comm, Z.mod_add by lia. done.
Qed.

Lemma plain_number_range n p h g :
  0 ≤ h < 256 ^ Z.of_nat n → 0 ≤ g < 256 ^ Z.of_nat (frac_bytes p) →
  0 ≤ plain_number p h g < 256 ^ Z.of_nat (n + frac_bytes p).
Proof. intros Hh Hg. unfold plain_number. rewrite Nat2Z.inj_add, Z.pow_add_r by lia. nia. Qed.

Lemma store_datetime_spec dec t :
  0 ≤ dec ≤ 6 → valid_datetime_column dec t →
  let g := second_part t / unit (switch dec) in
  store_datetime dec t = be_bytes 5 (2 ^ 39 + ymdhms t) ++ be_bytes (frac_bytes (switch dec)) g
  ∧ second_part t = g * unit (switch dec) ∧ 0 ≤ g < 256 ^ Z.of_nat (frac_bytes (switch dec))
  ∧ ((0 < frac_bytes (switch dec))%nat → 2 * g < 256 ^ Z.of_nat (frac_bytes (switch dec))).
Proof.
  intros Hd V. pose proof (ymdhms_bound dec t V) as [Hb _]. pose proof V as (_ & _ & _ & _ & _ & _ & (_ & _ & Hf) & Hr).
  destruct (frac_store_spec dec (second_part t) Hd Hr) as (g & Ef & Hg & Hg2 & E).
  pose proof (frac_base (switch dec)) as [_ Hu].
  assert (Eg : second_part t / unit (switch dec) = g) by (rewrite Ef, Z.div_mul; lia). rewrite Eg.
  split_and!; [|done|lia|lia|done].
  unfold store_datetime, my_datetime_packed_to_binary. rewrite (datetime_packed_spec dec) by done.
  unfold MY_PACKED_TIME_GET_INT_PART, MY_PACKED_TIME_GET_FRAC_PART, DATETIMEF_INT_OFS.
  rewrite Z.shiftr_div_pow2, Z.rem_mod_nonneg by lia.
  replace ((ymdhms t * 2 ^ 24 + second_part t) / 2 ^ 24) with (ymdhms t) by divlia.
  replace ((ymdhms t * 2 ^ 24 + second_part t) mod 2 ^ 24) with (second_part t) by divlia.
  rewrite int5store_be. f_equal; [f_equal; lia|]. exact E.
Qed.

Lemma datetime_from_binary_spec dec h g l :
  0 ≤ h < 2 ^ 39 → 0 ≤ g < 256 ^ Z.of_nat (frac_bytes (switch dec)) →
  ((0 < frac_bytes (switch dec))%nat → 2 * g < 256 ^ Z.of_nat (frac_bytes (switch dec))) →
  my_datetime_packed_from_binary ((be_bytes 5 (2 ^ 39 + h) ++ be_bytes (frac_bytes (switch dec)) g) ++ l) dec
  = Some (h * 2 ^ 24 + g * unit (switch dec)).
Proof.
  intros Hh Hg Hs. unfold my_datetime_packed_from_binary, DATETIMEF_INT_OFS. rewrite <- app_assoc.
  rewrite uint5korr_be, be_val_bytes by (apply be_bytes_range || apply length_be_bytes). cbn [mbind option_bind].
  change (256 ^ Z.of_nat 5) with (2 ^ 40). rewrite (Z.mod_small (2 ^ 39 + h)) by lia.
  replace (2 ^ 39 + h - 0x8000000000) with h by lia.
  destruct (switch dec); cbn [unit frac_bytes] in *.
  - change (256 ^ Z.of_nat 0) with 1 in Hg. replace g with 0 by lia. f_equal. rewrite <- s64_make by lia.
    unfold MY_PACKED_TIME_MAKE, MY_PACKED_TIME_MAKE_INT. by rewrite Z.mul_0_l, Z.add_0_r.
  - specialize (Hs ltac:(lia)). change (256 ^ Z.of_nat 1) with 256 in *.
    rewrite lookup_app_r, length_be_bytes by (by rewrite length_be_bytes).
    cbn [be_bytes Nat.sub app lookup list_lookup mbind option_bind]. change (256 ^ Z.of_nat 0) with 1.
    rewrite Z.div_1_r, (Z.mod_small g) by lia. unfold s8. rewrite (Z.mod_small (g + _)) by lia. rewrite s64_make; [f_equal|]; lia.
  - specialize (Hs ltac:(lia)). change (256 ^ Z.of_nat 2) with 65536 in *.
    rewrite drop_app_length' by (by rewrite length_be_bytes).
    rewrite sint2korr_be; rewrite ?be_val_bytes; [|apply be_bytes_range|apply length_be_bytes|];
      change (256 ^ Z.of_nat 2) with 65536; rewrite Z.mod_small by lia; [|lia].
    cbn [mbind option_bind]. rewrite s64_make; [f_equal|]; lia.
  - specialize (Hs ltac:(lia)). change (256 ^ Z.of_nat 3) with (2 ^ 24) in *.
    rewrite drop_app_length' by (by rewrite length_be_bytes).
    rewrite sint3korr_be; rewrite ?be_val_bytes; [|apply be_bytes_range|apply length_be_bytes|];
      change (256 ^ Z.of_nat 3) with (2 ^ 24); rewrite Z.mod_small by lia; [|lia].
    cbn [mbind option_bind]. rewrite s64_make; [f_equal|]; lia.
Qed.

(** ** Comparing DATETIMEs in memory *)

Lemma pack_time_datetime dec t :
  valid_datetime_column dec t →
  pack_time t = ((((year t * 13 + month t) * 32 + day t) * 24 + hour t) * 3600 + (minute t * 60 + second t)) * 1000000 + second_part t
  ∧ 0 ≤ pack_time t < 2 ^ 63.
Proof.
  intros (_ & Hn & Hy & Hm & Hd & Hh & (Hi & Hs & Hf) & _). unfold pack_time. rewrite Hn.
  rewrite s64_small by lia. lia.
Qed.

Lemma my_time_compare_datetime dec a b :
  valid_datetime_column dec a → valid_datetime_column dec b →
  my_time_compare a b = order (ymdhms a * 1000000 + second_part a) (ymdhms b * 1000000 + second_part b).
Proof.
  intros Va Vb. destruct (pack_time_datetime dec a Va) as [Ea Ba], (pack_time_datetime dec b Vb) as [Eb Bb].
  transitivity (order (pack_time a) (pack_time b)).
  { unfold my_time_compare. rewrite !u64_small by lia. 
    destruct (Z.ltb_spec (pack_time a) (pack_time b)); [by rewrite order_lt|].
    destruct (Z.ltb_spec (pack_time b) (pack_time a)); [by rewrite order_gt|].
    replace (pack_time b) with (pack_time a) by lia. by rewrite order_refl. }
  rewrite Ea, Eb. clear Ea Eb Ba Bb. destruct Va as (_ & _ & _ & _ & _ & Ha & (Hia & Hsa & Hfa) & _), Vb as (_ & _ & _ & _ & _ & Hb & (Hib & Hsb & Hfb) & _).
  unfold ymdhms, hms. rewrite !(order_lex 1000000) by lia.
  replace (order (_ * 2 ^ 17 + _) (_ * 2 ^ 17 + _)) with
    (order ((((year a * 13 + month a) * 32 + day a) * 24 + hour a) * 3600 + (minute a * 60 + second a))
      ((((year b * 13 + month b) * 32 + day b) * 24 + hour b) * 3600 + (minute b * 60 + second b))); [done|].
  rewrite (order_lex 3600), (order_lex 24), (order_lex (2 ^ 17)) by lia.
  replace (hour a * 4096 + minute a * 64 + second a) with (hour a * 4096 + (minute a * 64 + second a)) by lia.
  replace (hour b * 4096 + minute b * 64 + second b) with (hour b * 4096 + (minute b * 64 + second b)) by lia.
  rewrite (order_lex 4096), (order_lex 60), (order_lex 64) by lia.
  destruct (order (_ * 32 + _) _ =? 0) eqn:E; rewrite ?E; [|done]. by destruct (order (hour a) (hour b) =? 0).
Qed.

#[export] Instance datetime_column_codec dec :
  0 ≤ dec ≤ 6 →
  OrderedCodec (valid_datetime_column dec) my_time_compare
    (Z.to_nat (my_datetime_binary_length dec)) (store_datetime dec) (load_datetime dec).
Proof.
  intros Hd. pose proof (switch_bytes dec Hd) as Hw.
  replace (Z.to_nat (my_datetime_binary_length dec)) with (5 + frac_bytes (switch dec))%nat
    by (unfold my_datetime_binary_length; lia).
  apply (number_codec _ _ _ _ _ (λ t, plain_number (switch dec) (2 ^ 39 + ymdhms t) (second_part t / unit (switch dec)))).
  - intros t V. destruct (store_datetime_spec dec t Hd V) as (-> & _ & Hg & _). pose proof (ymdhms_bound dec t V) as [Hb _].
    split; [by apply plain_bytes|]. apply plain_number_range; [|done]. change (256 ^ Z.of_nat 5) with (2 ^ 40). lia.
  - intros t l V. destruct (store_datetime_spec dec t Hd V) as (_ & Ef & Hg & Hs). pose proof (ymdhms_bound dec t V) as [Hb _].
    rewrite <- plain_bytes by done. unfold load_datetime. rewrite datetime_from_binary_spec, <- Ef by done.
    cbn [fmap option_fmap option_map]. f_equal. by apply (datetime_unpacked_spec dec).
  - intros a b Va Vb. destruct (store_datetime_spec dec a Hd Va) as (_ & Ea & Ga & _), (store_datetime_spec dec b Hd Vb) as (_ & Eb & Gb & _).
    rewrite (my_time_compare_datetime dec) by done. unfold plain_number. rewrite order_lex by done.
    destruct Va as (_ & _ & _ & _ & _ & _ & (_ & _ & Fa) & _), Vb as (_ & _ & _ & _ & _ & _ & (_ & _ & Fb) & _).
    rewrite order_lex, order_shift by lia. rewrite Ea, Eb at 2. rewrite order_scale; [done|]. apply frac_base.
Qed.

(** ** The TIMESTAMP column *)

(** A TIMESTAMP of [dec] digits. *)
Definition valid_timestamp (dec : Z) (tm : timeval) : Prop := 0 ≤ tv_sec tm < 2 ^ 32 ∧ rounded dec (tv_usec tm).

Definition store_timestamp (dec : Z) (tm : timeval) : list Z := my_timestamp_to_binary tm dec.
Definition load_timestamp (dec : Z) (l : list Z) : option timeval := my_timestamp_from_binary l dec.

(** Microseconds since the epoch. *)
Definition epoch_usecs (tm : timeval) : Z := tv_sec tm * 1000000 + tv_usec tm.

(** A rounded fraction is not above the largest one. *)
Lemma rounded_max dec f :
  0 ≤ dec ≤ 6 → rounded dec f → ∃ top, my_max_usec_value !! Z.to_nat dec = Some top ∧ f ≤ top.
Proof.
  intros Hd [Hf Hr]. assert (H : dec = 0 ∨ dec = 1 ∨ dec = 2 ∨ dec = 3 ∨ dec = 4 ∨ dec = 5 ∨ dec = 6) by lia.
  repeat (destruct H as [->|H]); try subst dec;
    match type of Hr with _ mod 10 ^ ?e = _ => let v := eval vm_compute in (10 ^ e) in change (10 ^ e) with v in Hr end;
    (eexists; split; [reflexivity|divlia]).
Qed.

Lemma store_timestamp_spec dec tm :
  0 ≤ dec ≤ 6 → valid_timestamp dec tm →
  let g := tv_usec tm / unit (switch dec) in
  store_timestamp dec tm = be_bytes 4 (tv_sec tm) ++ be_bytes (frac_bytes (switch dec)) g
  ∧ tv_usec tm = g * unit (switch dec) ∧ 0 ≤ g < 256 ^ Z.of_nat (frac_bytes (switch dec)).
Proof.
  intros Hd [Hs Hr]. destruct (frac_store_spec dec (tv_usec tm) Hd Hr) as (g & Ef & Hg & _ & E).
  pose proof (frac_base (switch dec)) as [_ Hu].
  assert (Eg : tv_usec tm / unit (switch dec) = g) by (rewrite Ef, Z.div_mul; lia). rewrite Eg.
  split_and!; [|done|lia|lia]. unfold store_timestamp, my_timestamp_to_binary. rewrite int4store_be. f_equal. exact E.
Qed.

Lemma timestamp_from_binary_spec dec s g l :
  0 ≤ dec ≤ 6 → 0 ≤ s < 2 ^ 32 → 0 ≤ g < 256 ^ Z.of_nat (frac_bytes (switch dec)) →
  rounded dec (g * unit (switch dec)) →
  my_timestamp_from_binary ((be_bytes 4 s ++ be_bytes (frac_bytes (switch dec)) g) ++ l) dec
  = Some (mk_timeval s (g * unit (switch dec))).
Proof.
  intros Hd Hs Hg Hr. unfold my_timestamp_from_binary. rewrite <- app_assoc.
  rewrite uint4korr_be, be_val_bytes by (apply be_bytes_range || apply length_be_bytes). cbn [mbind option_bind].
  change (256 ^ Z.of_nat 4) with (2 ^ 32). rewrite (Z.mod_small s) by lia.
  destruct (rounded_max dec _ Hd Hr) as (top & -> & Ht).
  destruct (switch dec); cbn [unit frac_bytes] in *; cbn [mbind option_bind].
  - change (256 ^ Z.of_nat 0) with 1 in Hg. by replace g with 0 by lia.
  - change (256 ^ Z.of_nat 1) with 256 in *. rewrite lookup_app_r, length_be_bytes by (by rewrite length_be_bytes).
    cbn [be_bytes Nat.sub app lookup list_lookup mbind option_bind]. change (256 ^ Z.of_nat 0) with 1.
    rewrite Z.div_1_r, (Z.mod_small g) by lia. by rewrite Z.min_l.
  - rewrite drop_app_length' by (by rewrite length_be_bytes).
    rewrite uint2korr_be, be_val_bytes by (apply be_bytes_range || apply length_be_bytes). cbn [mbind option_bind].
    rewrite (Z.mod_small g) by done. by rewrite Z.min_l.
  - rewrite drop_app_length' by (by rewrite length_be_bytes).
    rewrite uint3korr_be, be_val_bytes by (apply be_bytes_range || apply length_be_bytes). cbn [mbind option_bind].
    rewrite (Z.mod_small g), Z.mul_1_r by done. rewrite Z.min_l; [done|lia].
Qed.

#[export] Instance timestamp_column_codec dec :
  0 ≤ dec ≤ 6 →
  OrderedCodec (valid_timestamp dec) (λ a b, order (epoch_usecs a) (epoch_usecs b))
    (Z.to_nat (my_timestamp_binary_length dec)) (store_timestamp dec) (load_timestamp dec).
Proof.
  intros Hd. pose proof (switch_bytes dec Hd) as Hw.
  replace (Z.to_nat (my_timestamp_binary_length dec)) with (4 + frac_bytes (switch dec))%nat
    by (unfold my_timestamp_binary_length; lia).
  apply (number_codec _ _ _ _ _ (λ t, plain_number (switch dec) (tv_sec t) (tv_usec t / unit (switch dec)))).
  - intros t V. destruct (store_timestamp_spec dec t Hd V) as (-> & _ & Hg). split; [by apply plain_bytes|].
    apply plain_number_range; [|done]. apply V.
  - intros t l V. destruct (store_timestamp_spec dec t Hd V) as (_ & Ef & Hg). destruct V as [Hs Hr].
    rewrite <- plain_bytes by done. unfold load_timestamp.
    rewrite timestamp_from_binary_spec; rewrite <- ?Ef; try done. by destruct t.
  - intros a b Va Vb. destruct (store_timestamp_spec dec a Hd Va) as (_ & Ea & Ga), (store_timestamp_spec dec b Hd Vb) as (_ & Eb & Gb).
    unfold plain_number, epoch_usecs. destruct Va as [_ [Fa _]], Vb as [_ [Fb _]].
    rewrite !order_lex by lia. rewrite Ea, Eb at 2. rewrite order_scale; [done|]. apply frac_base.
Qed.

(** ** Columns and keys of them *)

(** C15. The stored form of TIME, DATETIME and TIMESTAMP columns of any precision is
    an ordered format: it has the declared width, loading gives back what was
    stored whatever follows in the record, and [memcmp] orders the bytes as
    the values: TIMEs by their signed duration, DATETIMEs as
    [my_time_compare] does, TIMESTAMPs by the time since the epoch. *)
Theorem temporal_columns_ordered dec :
  0 ≤ dec ≤ 6 →
  OrderedCodec (valid_time_column dec) (λ a b, order (usecs a) (usecs b))
    (Z.to_nat (my_time_binary_length dec)) (store_time dec) (load_time dec)
  ∧ OrderedCodec (valid_datetime_column dec) my_time_compare
      (Z.to_nat (my_datetime_binary_length dec)) (store_datetime dec) (load_datetime dec)
  ∧ OrderedCodec (valid_timestamp dec) (λ a b, order (epoch_usecs a) (epoch_usecs b))
      (Z.to_nat (my_timestamp_binary_length dec)) (store_timestamp dec) (load_timestamp dec).
Proof. intros Hd. split_and!; [by apply time_column_codec|by apply datetime_column_codec|by apply timestamp_column_codec]. Qed.
