(* ===== verification/TimeNumbers.v ===== *)
(** * Temporal values as numbers

    The numbers YYYYMMDDhhmmss of [TIME_to_ulonglong] and the mixed radix numbers
    of [pack_time]: reading one back gives the value, packed numbers are in
    chronological order, and combining a date with a TIME adds the TIME. *)

From S2P Require Import Prelude MyBit MyTime Calendar TimeAdd TimeDiff KeyCodec TimeColumns.

#[local] Open Scope Z_scope.

(** ** Validity *)

(** The test of the day of a month. *)
Lemma day_test y m d :
  0 ≤ y → 1 ≤ m ≤ 12 →
  ((month_length 1 m <? d) && (negb (m =? 2) || negb (calc_days_in_year y =? 366) || negb (d =? 29)))
  = negb (d <=? month_length y m).
Proof.
  intros Hy Hm. rewrite calc_days_in_year_spec, year_length_leap, (month_length_common y m) by done.
  destruct (Z.eqb_spec m 2) as [->|].
  - change (month_length 1 2) with 28. destruct (leap_year y); cbn [Z.b2z];
      destruct (Z.ltb_spec 28 d), (Z.eqb_spec d 29); cbn [negb orb andb]; symmetry;
      rewrite ?negb_true_iff, ?negb_false_iff, ?Z.leb_le, ?Z.leb_gt; cbn; lia.
  - rewrite Z.add_0_r. cbn [negb orb]. rewrite andb_true_r. by rewrite Z.ltb_antisym.
Qed.

(** The dates that [check_date] accepts. *)
Definition acceptable (flags : Z) (t : MYSQL_TIME) : bool :=
  negb (neg t)
  && (negb (flag flags C_TIME_NO_ZERO_IN_DATE) || negb ((month t =? 0) || (day t =? 0)))
  && (flag flags C_TIME_INVALID_DATES || (month t =? 0) || (day t <=? month_length (year t) (month t))).

Lemma check_date_spec t flags w :
  time_type t ≠ MYSQL_TIMESTAMP_TIME → 0 ≤ year t → 0 ≤ month t ≤ 12 →
  check_date t true flags w = Some (if acceptable flags t then (false, w) else (true, 2)).
Proof.
  intros Ht Hy Hm. unfold check_date, acceptable. rewrite decide_False by done.
  destruct (neg t); [by rewrite orb_true_r|]. rewrite orb_false_r. cbn [negb andb].
  destruct (flag flags C_TIME_NO_ZERO_IN_DATE && _) eqn:E1.
  { apply andb_true_iff in E1 as [-> ->]. done. }
  assert (E : negb (flag flags C_TIME_NO_ZERO_IN_DATE) || negb ((month t =? 0) || (day t =? 0)) = true).
  { rewrite <- negb_andb. by rewrite E1. }
  rewrite E. cbn [andb]. destruct (flag flags C_TIME_INVALID_DATES); [done|]. cbn [negb andb orb].
  destruct (Z.eqb_spec (month t) 0); [done|]. cbn [negb orb].
  rewrite month_days_spec by lia. cbn [mbind option_bind]. rewrite day_test by lia. by destruct (_ <=? _).
Qed.

Lemma acceptable_valid flags t : valid_datetime t → acceptable flags t = true.
Proof.
  intros (_ & (Hy & Hm & Hd) & _ & _ & _ & Hn). unfold acceptable. rewrite Hn.
  rewrite (proj2 (Z.eqb_neq (month t) 0)), (proj2 (Z.eqb_neq (day t) 0)), (proj2 (Z.leb_le _ _)) by lia.
  cbn [negb orb andb]. by rewrite !orb_true_r.
Qed.

(** ** Decimal numbers *)

Lemma digits_split a b k : 0 ≤ b < k → 0 ≤ a → Z.quot (a * k + b) k = a ∧ Z.rem (a * k + b) k = b ∧ a * k + b - a * k = b.
Proof.
  intros Hb Ha. rewrite Z.quot_div_nonneg, Z.rem_mod_nonneg by nia.
  rewrite Z.div_add_l, Z.div_small, (Z.add_comm (a * k) b), Z.mod_add, Z.mod_small by lia. lia.
Qed.

Lemma datetime_parts_spec t :
  0 ≤ year t ≤ 9999 → 0 ≤ month t ≤ 12 → 0 ≤ day t ≤ 31 → 0 ≤ hour t < 24 → valid_clock t → neg t = false →
  datetime_parts (TIME_to_ulonglong_datetime t) (second_part t) (time_type t) = t.
Proof.
  intros Hy Hm Hd Hh (Hi & Hs & Hf) Hn. unfold datetime_parts, TIME_to_ulonglong_datetime.
  rewrite u64_small by lia. set (D := year t * 10000 + month t * 100 + day t). set (T := hour t * 10000 + minute t * 100 + second t).
  destruct (digits_split D T 1000000 ltac:(lia) ltac:(lia)) as (-> & _ & ->). subst D T.
  rewrite <- !Z.add_assoc.
  destruct (digits_split (year t) (month t * 100 + day t) 10000 ltac:(lia) ltac:(lia)) as (-> & -> & _).
  destruct (digits_split (hour t) (minute t * 100 + second t) 10000 ltac:(lia) ltac:(lia)) as (-> & -> & _).
  rewrite !s32_small by lia.
  destruct (digits_split (month t) (day t) 100 ltac:(lia) ltac:(lia)) as (-> & -> & _).
  destruct (digits_split (minute t) (second t) 100 ltac:(lia) ltac:(lia)) as (-> & -> & _).
  rewrite !u32_small by lia. by destruct t; cbn in *; subst.
Qed.

(** The form of a number with four digits of the year. *)
Lemma datetime_digits_spec t :
  valid_datetime t → 1000 ≤ year t → (time_type t = MYSQL_TIMESTAMP_DATE → hour t = 0 ∧ minute t = 0 ∧ second t = 0) →
  datetime_digits (TIME_to_ulonglong t) = (time_type t, Some (TIME_to_ulonglong_datetime t)).
Proof.
  intros (Ht & (Hy & Hm & Hd) & _ & Hh & (Hi & Hs & Hf) & Hn) Hl Hz. pose proof (month_length_bound (year t) (month t)).
  unfold TIME_to_ulonglong, datetime_digits, TIME_to_ulonglong_date, TIME_to_ulonglong_datetime, YY_PART_YEAR.
  destruct Ht as [E|E]; rewrite E; rewrite !u64_small by lia.
  - destruct (Hz E) as (-> & -> & ->). rewrite (proj2 (Z.eqb_neq _ _)), (proj2 (Z.leb_gt _ _)) by lia.
    cbn [orb]. rewrite (proj2 (Z.ltb_ge _ 101)) by lia.
    repeat first [rewrite (proj2 (Z.leb_gt _ _)) by lia|rewrite (proj2 (Z.ltb_ge _ _)) by lia].
    rewrite (proj2 (Z.leb_le _ _)) by lia. f_equal. f_equal. lia.
  - rewrite (proj2 (Z.leb_le 10000101000000 _)) by lia. by rewrite orb_true_r.
Qed.

(** A DATE has no clock. *)
Definition proper (t : MYSQL_TIME) : Prop :=
  valid_temporal t
  ∧ (time_type t = MYSQL_TIMESTAMP_DATE → hour t = 0 ∧ minute t = 0 ∧ second t = 0 ∧ second_part t = 0)
  ∧ (neg t = true → usecs t ≠ 0).

Lemma number_to_datetime_spec t flags :
  valid_datetime t → proper t → 1000 ≤ year t →
  number_to_datetime_or_date (TIME_to_ulonglong t) (second_part t) flags
  = Some (TIME_to_ulonglong_datetime t, t, 0).
Proof.
  intros V (_ & Hz & _) Hl. pose proof V as (Ht & (Hy & Hm & Hd) & _ & Hh & (Hi & Hs & Hf) & Hn).
  pose proof (month_length_bound (year t) (month t)). unfold number_to_datetime_or_date.
  rewrite datetime_digits_spec by (try done; naive_solver).
  rewrite datetime_parts_spec by (try lia; done).
  rewrite !(proj2 (Z.leb_le _ _)) by (unfold TIME_MAX_SECOND_PART; lia). cbn [andb].
  rewrite (proj2 (Z.eqb_neq _ _)) by (unfold TIME_to_ulonglong_datetime; rewrite u64_small by lia; lia). cbn [negb orb].
  rewrite check_date_spec by (try lia; destruct Ht as [-> | ->]; done). rewrite acceptable_valid by done.
  cbn [mbind option_bind negb]. rewrite decide_False; [done|]. intros [E ?]. naive_solver.
Qed.

Lemma number_to_time_spec t :
  valid_TIME t → number_to_time_only (neg t) (TIME_to_ulonglong t) (second_part t) TIME_MAX_HOUR = (0, t, 0).
Proof.
  intros (Ht & Hy & Hm & Hd & Hh & (Hi & Hs & Hf)). unfold number_to_time_only, TIME_to_ulonglong, TIME_to_ulonglong_time. rewrite Ht.
  unfold TIME_MAX_HOUR, TIME_MAX_MINUTE, TIME_MAX_SECOND, TIME_MAX_SECOND_PART in *. rewrite !u64_small by lia.
  rewrite (proj2 (Z.ltb_ge _ _)) by lia.
  replace ((hour t * 10000 + minute t * 100 + second t) / 100) with (hour t * 100 + minute t) by divlia.
  replace ((hour t * 100 + minute t) / 100) with (hour t) by divlia.
  replace ((hour t * 100 + minute t) mod 100) with (minute t) by divlia.
  replace ((hour t * 10000 + minute t * 100 + second t) mod 100) with (second t) by divlia.
  rewrite u32_small by lia. cbn [minute second].
  rewrite !(proj2 (Z.ltb_lt _ _)), (proj2 (Z.leb_le _ _)) by lia. cbn [andb]. by destruct t; cbn in *; subst.
Qed.

(** C40. Reading the number of a temporal value gives the value: a DATE or DATETIME
    from year 1000 on, with any SQL mode, and a TIME of any sign. *)
Theorem temporal_number_roundtrip t flags :
  proper t → is_TIME t = true ∨ 1000 ≤ year t →
  if is_TIME t
  then number_to_time_only (neg t) (TIME_to_ulonglong t) (second_part t) TIME_MAX_HOUR = (0, t, 0)
  else number_to_datetime_or_date (TIME_to_ulonglong t) (second_part t) flags
       = Some (TIME_to_ulonglong_datetime t, t, 0).
Proof.
  intros P Hl. unfold is_TIME in *. pose proof P as ([V|V] & _).
  - rewrite bool_decide_eq_false_2 in * by (destruct V as ([-> | ->] & _); done).
    apply number_to_datetime_spec; [done..|]. by destruct Hl.
  - rewrite bool_decide_eq_true_2 in * by apply V. by apply number_to_time_spec.
Qed.

(** ** Packed numbers *)

(** The packed number of the absolute value. *)
Definition radix_number (t : MYSQL_TIME) : Z :=
  combine ((year t * 13 + month t) * 32 + day t) (hour t) (minute t) (second t) (second_part t).

Lemma pack_time_spec t :
  valid_temporal t → pack_time t = signed (neg t) (radix_number t) ∧ 0 ≤ radix_number t < 2 ^ 62.
Proof.
  intros V. unfold pack_time, radix_number, signed, combine.
  assert (B : 0 ≤ year t ≤ 9999 ∧ 0 ≤ month t ≤ 12 ∧ 0 ≤ day t ≤ 31 ∧ 0 ≤ hour t ≤ 838 ∧ valid_clock t).
  { destruct V as [(_ & (Hy & Hm & Hd) & _ & Hh & Hc & _)|(_ & Hy & Hm & Hd & Hh & Hc)].
    - pose proof (month_length_bound (year t) (month t)). split_and!; try done; lia.
    - unfold TIME_MAX_HOUR in Hh. split_and!; try done; lia. }
  destruct B as (Hy & Hm & Hd & Hh & (Hi & Hs & Hf)).
  split; [|lia]. destruct (neg t); rewrite s64_small; lia.
Qed.

Lemma radix_zero t : valid_temporal t → radix_number t = 0 → magnitude t = 0.
Proof.
  intros [(_ & (Hy & Hm & Hd) & _ & Hh & (Hi & Hs & Hf) & _)|V].
  - unfold radix_number, combine. lia.
  - rewrite (proj1 (magnitude_TIME t V)). unfold radix_number. destruct V as (_ & -> & -> & -> & _). done.
Qed.

(** The parts of a packed number. *)
Lemma radix_split t :
  valid_temporal t →
  let n := radix_number t in
  let h := n / 1000000 / 60 / 60 in
  n mod 1000000 = second_part t ∧ n / 1000000 mod 60 = second t ∧ n / 1000000 / 60 mod 60 = minute t
  ∧ h = ((year t * 13 + month t) * 32 + day t) * 24 + hour t.
Proof.
  intros V n h. pose proof (valid_temporal_clock t V) as (Hi & Hs & Hf). unfold h, n, radix_number, combine.
  set (D := (_ + day t) * 24 + hour t). clearbody D.
  assert (E1 : (((D * 60 + minute t) * 60 + second t) * 1000000 + second_part t) / 1000000 = (D * 60 + minute t) * 60 + second t) by divlia.
  assert (E2 : ((D * 60 + minute t) * 60 + second t) / 60 = D * 60 + minute t) by divlia.
  rewrite E1, E2. split_and!; divlia.
Qed.

Lemma unpack_pack_spec t :
  proper t → unpack_time (pack_time t) (time_type t) = Some t.
Proof.
  intros (V & Hz & Hn). destruct (pack_time_spec t V) as [-> Hr].
  assert (En : (signed (neg t) (radix_number t) <? 0) = neg t).
  { unfold signed. destruct (neg t) eqn:E; [apply Z.ltb_lt|apply Z.ltb_ge; lia].
    enough (radix_number t ≠ 0) by lia. intros E0%radix_zero; [|done]. apply Hn; [done|].
    unfold usecs. by rewrite E0, E. }
  unfold unpack_time. rewrite En.
  assert (Ea : (if neg t then i64 (- signed (neg t) (radix_number t)) else Some (signed (neg t) (radix_number t)))
    = Some (radix_number t)).
  { unfold signed. destruct (neg t); [|done]. rewrite i64_ok by lia. f_equal. lia. }
  rewrite Ea. cbn [mbind option_bind]. destruct (radix_split t V) as (-> & -> & -> & ->).
  destruct V as [(Ht & (Hy & Hm & Hd) & _ & Hh & _ & Hn')|(Ht & Hy & Hm & Hd & Hh & _)].
  - pose proof (month_length_bound (year t) (month t)).
    replace ((((year t * 13 + month t) * 32 + day t) * 24 + hour t) mod 24) with (hour t) by divlia.
    replace ((((year t * 13 + month t) * 32 + day t) * 24 + hour t) / 24) with ((year t * 13 + month t) * 32 + day t) by divlia.
    replace (((year t * 13 + month t) * 32 + day t) mod 32) with (day t) by divlia.
    replace (((year t * 13 + month t) * 32 + day t) / 32) with (year t * 13 + month t) by divlia.
    replace ((year t * 13 + month t) mod 13) with (month t) by divlia.
    replace ((year t * 13 + month t) / 13) with (year t) by divlia. rewrite u32_small by lia.
    destruct Ht as [E|E]; rewrite E; [destruct (Hz E) as (? & ? & ? & ?)|]; by destruct t; cbn in *; subst.
  - unfold TIME_MAX_HOUR in Hh. rewrite Ht, Hy, Hm, Hd. destruct t as [y m d h i s f n ty]. cbn in *. subst.
    f_equal. unfold u32. f_equal; divlia.
Qed.

(** Dates in the calendar and as packed numbers are in the same order. *)
Lemma order_dates y m d y' m' d' :
  valid_date y m d → valid_date y' m' d' →
  order ((y * 13 + m) * 32 + d) ((y' * 13 + m') * 32 + d') = order (day_number y m d) (day_number y' m' d').
Proof.
  intros V V'. pose proof (day_number_lt y m d y' m' d' V V'). pose proof (day_number_lt y' m' d' y m d V' V).
  pose proof V as (Hy & Hm & Hd). pose proof V' as (Hy' & Hm' & Hd').
  pose proof (month_length_bound y m). pose proof (month_length_bound y' m').
  assert (T : (y < y' ∨ y = y' ∧ (m < m' ∨ m = m' ∧ d < d')) ∨ (y' < y ∨ y' = y ∧ (m' < m ∨ m' = m ∧ d' < d))
    ∨ (y = y' ∧ m = m' ∧ d = d')) by lia.
  destruct T as [T|[T|(-> & -> & ->)]]; [| |by rewrite !order_refl].
  - rewrite !order_lt; [done|by auto|lia].
  - rewrite !order_gt; [done|by auto|lia].
Qed.

Lemma pack_time_order a b :
  valid_temporal a → valid_temporal b → time_type a = time_type b →
  order (pack_time a) (pack_time b) = order (usecs a) (usecs b).
Proof.
  intros Va Vb Et. destruct (pack_time_spec a Va) as [-> _], (pack_time_spec b Vb) as [-> _]. unfold usecs.
  destruct Va as [Va|Va], Vb as [Vb|Vb];
    [|destruct Va as [[] _], Vb as [? _]; congruence|destruct Vb as [[] _], Va as [? _]; congruence|].
  - rewrite (proj1 (magnitude_datetime a Va)), (proj1 (magnitude_datetime b Vb)).
    destruct Va as (_ & Da & _ & Ha & (Hia & Hsa & Hfa) & ->), Vb as (_ & Db & _ & Hb & (Hib & Hsb & Hfb) & ->).
    unfold radix_number, signed. rewrite !(combine_split (_ + _)), !(combine_split (day_number _ _ _)).
    pose proof (combine_bound (hour a) _ _ _ Hia Hsa Hfa). pose proof (combine_bound (hour b) _ _ _ Hib Hsb Hfb).
    rewrite !(order_lex day_usecs) by (unfold day_usecs; lia). by rewrite order_dates.
  - rewrite (proj1 (magnitude_TIME a Va)), (proj1 (magnitude_TIME b Vb)). unfold radix_number.
    destruct Va as (_ & -> & -> & -> & _), Vb as (_ & -> & -> & -> & _). done.
Qed.

(** A packed DATETIME, DATE or TIME unpacks to itself, and the packed numbers of
    values of one type are in the order of the values. *)
Theorem pack_time_roundtrip_order a b :
  proper a → proper b → time_type a = time_type b →
  unpack_time (pack_time a) (time_type a) = Some a ∧ order (pack_time a) (pack_time b) = order (usecs a) (usecs b).
Proof. intros Pa Pb E. split; [by apply unpack_pack_spec|]. apply pack_time_order; [apply Pa|apply Pb|done]. Qed.

(** ** A date and a TIME *)

Lemma calc_time_from_sec_spec t s f :
  0 ≤ s < SECONDS_IN_24H → 0 ≤ f < 1000000 →
  let c := calc_time_from_sec t s f in
  0 ≤ hour c < 24 ∧ valid_clock c ∧ clock_seconds c = s ∧ second_part c = f ∧ neg c = neg t.
Proof.
  intros Hs Hf c. unfold SECONDS_IN_24H in Hs. unfold c, calc_time_from_sec, valid_clock, clock_seconds.
  cbn [hour minute second second_part neg]. rewrite u32_small by divlia. split_and!; first [done|divlia].
Qed.

Lemma mix_simple_spec d t :
  valid_datetime d → valid_TIME t → clock_seconds d = 0 → second_part d = 0 → neg t = false → hour t < 24 →
  let r := mix_date_and_time_simple d t in
  valid_datetime r ∧ time_type r = MYSQL_TIMESTAMP_DATETIME ∧ usecs r = usecs d + usecs t.
Proof.
  intros Vd Vt Hc Hf Hn Hh r. pose proof Vd as (Htd & Dd & Hy & Hhd & Cd & Nd). pose proof Vt as (_ & _ & _ & _ & Hht & Ct).
  assert (Vr : valid_datetime r) by (split_and!; try done; [by right|by apply Hht]).
  split; [done|]. split; [done|]. unfold usecs. rewrite (proj1 (magnitude_datetime d Vd)), (proj1 (magnitude_TIME t Vt)), (proj1 (magnitude_datetime r Vr)).
  unfold r, mix_date_and_time_simple. cbn. rewrite Nd, Hn. unfold signed, combine, clock_seconds in *. lia.
Qed.

Lemma mix_complex_spec d t :
  valid_datetime d → valid_TIME t → 366 * day_usecs ≤ usecs d + usecs t < (MAX_DAY_NUMBER + 1) * day_usecs →
  ∃ r, mix_date_and_time_complex d t = Some r ∧ valid_datetime r ∧ time_type r = MYSQL_TIMESTAMP_DATETIME
    ∧ usecs r = usecs d + usecs t.
Proof.
  intros Vd Vt Hr. pose proof Vd as (Htd & _ & _ & _ & _ & Nd). unfold mix_date_and_time_complex.
  set (g := if neg t then 1 else -1).
  assert (Ed : is_TIME d = false) by (unfold is_TIME; rewrite bool_decide_eq_false_2; [done|destruct Htd as [-> | ->]; done]).
  destruct (calc_time_diff_spec d t g) as (n & s & f & E & Hs & Hf & Ev & _);
    [by left|by right|by rewrite Ed|unfold g; destruct (neg t); auto|].
  assert (Eu : magnitude d - g * magnitude t = usecs d + usecs t).
  { unfold usecs, g. rewrite Nd. destruct (neg t); cbn [signed]; lia. }
  rewrite E. cbn [mbind option_bind]. rewrite Eu in Ev. unfold day_usecs, MAX_DAY_NUMBER in Hr.
  assert (n = false) as -> by (destruct n; [cbn [signed] in Ev; lia|done]). cbn [signed] in Ev.
  pose proof (Z.mod_pos_bound s SECONDS_IN_24H eq_refl) as Hm.
  destruct (calc_time_from_sec_spec (set_neg false d) _ f Hm Hf) as (Hh & Hc & Ec & Ef & Hn).
  set (c := calc_time_from_sec _ _ _) in *.
  destruct (get_date_from_daynr_spec (s / SECONDS_IN_24H)) as [(_ & y & m & e & -> & V & Hy & En)|[Ho _]];
    [|unfold MAX_DAY_NUMBER, SECONDS_IN_24H in Ho; divlia].
  cbn [mbind option_bind]. eexists. split; [done|].
  set (r := set_type _ _). assert (Vr : valid_datetime r) by exact (conj (or_intror eq_refl) (conj V (conj Hy (conj Hh (conj Hc Hn))))).
  split; [done|]. split; [done|]. unfold usecs at 1. rewrite (proj1 (magnitude_datetime r Vr)). subst r.
  cbn [year month day hour minute second second_part neg set_type set_date]. rewrite Hn, En, Ef. cbn [signed neg set_neg].
  unfold combine, clock_seconds in *. pose proof (Z.div_mod s SECONDS_IN_24H ltac:(done)). unfold SECONDS_IN_24H in *. lia.
Qed.

(** Combining a date, without a clock, with a TIME gives the datetime that is
    the sum of both, whenever it lies between 0001-01-01 and 9999-12-31. *)
Theorem mix_date_and_time_adds d t :
  valid_datetime d → valid_TIME t → clock_seconds d = 0 → second_part d = 0 →
  366 * day_usecs ≤ usecs d + usecs t < (MAX_DAY_NUMBER + 1) * day_usecs →
  ∃ r, mix_date_and_time d t = Some r ∧ valid_datetime r ∧ time_type r = MYSQL_TIMESTAMP_DATETIME
    ∧ usecs r = usecs d + usecs t.
Proof.
  intros Vd Vt Hc Hf Hr. unfold mix_date_and_time. destruct (neg t) eqn:Hn; [by apply mix_complex_spec|].
  cbn [negb andb]. destruct (Z.ltb_spec (hour t) 24); [|by apply mix_complex_spec].
  eexists. split; [done|]. by apply mix_simple_spec.
Qed.
