(* ===== verification/TimeDemo.v ===== *)
(** * Temporal values at work

    Concrete dates, times and intervals that meet the hypotheses of the theorems,
    and three places where the arithmetic of the code goes beyond its types. *)

From S2P Require Import Prelude MyBit MyTime Calendar TimeAdd TimeDiff MyisamPack Compat56 KeyCodec TimeColumns TimeNumbers.

#[local] Open Scope Z_scope.

(** 2024-02-29 13:45:10.250000 *)
Definition leap_day : MYSQL_TIME := mk_time 2024 2 29 13 45 10 250000 false MYSQL_TIMESTAMP_DATETIME.
(** 2023-12-31 *)
Definition new_years_eve : MYSQL_TIME := mk_time 2023 12 31 0 0 0 0 false MYSQL_TIMESTAMP_DATE.
(** -30:15:00.5 *)
Definition minus_thirty_hours : MYSQL_TIME := mk_time 0 0 0 30 15 0 500000 true MYSQL_TIMESTAMP_TIME.

Ltac concrete := unfold valid_temporal, valid_datetime, valid_TIME, valid_clock, valid_date, sane_interval, proper,
  valid_time_column, valid_datetime_column, rounded; vm_compute; intuition (try done; try congruence).

Lemma leap_day_valid : valid_datetime leap_day.
Proof. concrete. Qed.

Lemma new_years_eve_valid : valid_datetime new_years_eve.
Proof. concrete. Qed.

Lemma minus_thirty_hours_valid : valid_TIME minus_thirty_hours.
Proof. concrete. Qed.

(** 2024-02-29 13:45:10.25 - INTERVAL '60 13:45:10.25' DAY_MICROSECOND = 2023-12-31 00:00:00. *)
Lemma date_add_interval_exact_witness :
  let i := mk_interval 0 0 60 13 45 10 250000 true in
  date_add_interval leap_day INTERVAL_DAY_MICROSECOND i
    = Some (false, mk_time 2023 12 31 0 0 0 0 false MYSQL_TIMESTAMP_DATETIME)
  ∧ ∃ e t', date_add_interval leap_day INTERVAL_DAY_MICROSECOND i = Some (e, t')
    ∧ adds leap_day (usecs leap_day + signed true (COMBINE_INTERVAL i)) e t'.
Proof.
  intros i. split; [by vm_compute|].
  apply (date_add_interval_exact leap_day INTERVAL_DAY_MICROSECOND i); [left; apply leap_day_valid|concrete|by left].
Defined.


Lemma time_diff_add_roundtrip_witness :
  calc_time_diff leap_day new_years_eve 1 = Some (false, 60 * 86400 + 13 * 3600 + 45 * 60 + 10, 250000)
  ∧ ∃ n s f, calc_time_diff leap_day new_years_eve 1 = Some (n, s, f)
    ∧ date_add_interval new_years_eve INTERVAL_SECOND_MICROSECOND (mk_interval 0 0 0 0 0 s f n) = Some (false, leap_day).
Proof.
  split; [by vm_compute|].
  apply (time_diff_add_roundtrip leap_day new_years_eve); [apply leap_day_valid|apply new_years_eve_valid|done].
Defined.

(** -30:15:00.5 in a TIME(1) column. *)
Lemma temporal_columns_ordered_witness :
  store_time 1 minus_thirty_hours = [0x7e; 0x1c; 0x3f; 0xce]
  ∧ load_time 1 (store_time 1 minus_thirty_hours ++ [1; 2; 3]) = Some minus_thirty_hours.
Proof.
  split; [by vm_compute|].
  destruct (temporal_columns_ordered 1 ltac:(lia)) as [H _]. apply (codec_roundtrip (OrderedCodec := H)). concrete.
Defined.

Lemma temporal_number_roundtrip_witness :
  TIME_to_ulonglong leap_day = 20240229134510
  ∧ number_to_datetime_or_date 20240229134510 250000 0 = Some (20240229134510, leap_day, 0).
Proof.
  split; [by vm_compute|].
  assert (P : proper leap_day) by concrete.
  assert (Y : 1000 ≤ year leap_day) by done.
  exact (temporal_number_roundtrip leap_day 0 P (or_intror Y)).
Defined.

Lemma pack_time_roundtrip_order_witness :
  let b := mk_time 0 0 0 1 0 0 0 false MYSQL_TIMESTAMP_TIME in
  unpack_time (pack_time minus_thirty_hours) MYSQL_TIMESTAMP_TIME = Some minus_thirty_hours
  ∧ order (pack_time minus_thirty_hours) (pack_time b) = -1.
Proof.
  intros b. apply (pack_time_roundtrip_order minus_thirty_hours b); [concrete|concrete|done].
Defined.

(** 2023-12-31 and -30:15:00.5 give 2023-12-29 17:44:59.5. *)
Lemma mix_date_and_time_adds_witness :
  mix_date_and_time new_years_eve minus_thirty_hours
    = Some (mk_time 2023 12 29 17 44 59 500000 false MYSQL_TIMESTAMP_DATETIME)
  ∧ ∃ r, mix_date_and_time new_years_eve minus_thirty_hours = Some r ∧ valid_datetime r
    ∧ time_type r = MYSQL_TIMESTAMP_DATETIME ∧ usecs r = usecs new_years_eve + usecs minus_thirty_hours.
Proof.
  split; [by vm_compute|].
  apply (mix_date_and_time_adds new_years_eve minus_thirty_hours);
    [apply new_years_eve_valid|apply minus_thirty_hours_valid|done|done|by vm_compute].
Defined.

(** ** Beyond the types *)

(** The year of an [INTERVAL_YEAR] is cut to 32 bits when it is added, so that 4294967296 years
    later is today, without an error. *)
Example year_interval_wraps :
  date_add_interval leap_day INTERVAL_YEAR (mk_interval 4294967296 0 0 0 0 0 0 false) = Some (false, leap_day).
Proof. by vm_compute. Qed.

(** The guard of the other intervals does not count microseconds: adding
    18446744073709551615 of them takes one away. *)
Example microsecond_interval_wraps :
  date_add_interval leap_day INTERVAL_MICROSECOND (mk_interval 0 0 0 0 0 0 18446744073709551615 false)
  = Some (false, mk_time 2024 2 29 13 45 10 249999 false MYSQL_TIMESTAMP_DATETIME).
Proof. by vm_compute. Qed.

(** [my_time_compare] compares the packed numbers without their sign: -30:15:00.5
    is after 01:00:00. *)
Example negative_time_compares_greater :
  my_time_compare minus_thirty_hours (mk_time 0 0 0 1 0 0 0 false MYSQL_TIMESTAMP_TIME) = 1.
Proof. by vm_compute. Qed.
